(* ===== verification/_CoqProject ===== *)
-Q . S2P
Prelude.v
Memory.v
Outcome.v
ByteBuffers.v
Compare.v
Chain.v
SList.v
Buckets.v
HashTable.v
HashSet.v
DChain.v
DList.v
Queue.v
AvlTree.v
AvlSpec.v
AvlProofs.v
AvlOps.v
Blocks.v
ArrayList.v
BinaryHeap.v
BloomFilter.v
CycleQueue.v
Trie.v
TrieNodes.v
TrieOps.v
TrieFree.v
BinomialHeap.v
BinomialGraph.v
BinomialRefs.v
BinomialSum.v
BinomialMerge.v
BinomialOps.v
PthreadCond.v
Variants.v
Epoll.v
EpollOps.v
Timer.v
TimerOps.v
EventFd.v
Select.v
Mq.v
Debug.v
Backtrace.v
Jump.v
Digits.v
Vli.v
VliMod.v
VliBytes.v
CurveField.v
Curves.v
CurveOmega.v
CurveGroup.v
Primes.v
EccPoint.v
Ladder.v
PublicKey.v
LadderTotal.v
SmallCurve.v
Uecc.v
Ecdsa.v
EcdsaVerify.v
StandardCurves.v
Ecdh.v
Hmac.v
Deterministic.v
Aes.v
EccTheorems.v
