(* ===== verification/Prelude.v ===== *)
(** * base_code: containers, elliptic curves, demos and their correctness

    The repository is a collection of small C programs around a library of
    generic containers and a library of elliptic curves.  This development models
    the containers (src/src/comm/ and src/src/data_struct/), the epoll and timer
    wrappers built on them (src/src/epoll.c, src/src/timer_posix.c,
    src/src/ipc/event_fd.c), the elliptic curves (src/lib/ecc/), the demos of
    processes and threads, of a key exchange, of encryption and of a jump
    (src/src/pthread_cond.c, src/src/ipc/mq.c, src/src/select/, src/src/ecdh.c,
    src/src/encrypt/, src/src/co_routines/) and the diagnostics
    (src/src/comm/debug.c, src/src/backtrace.c), function by function, and proves
    what they promise.

    ** How the model reads

    C is embedded shallowly.  A function of the sources is a definition of the
    same name in the monad [M] of Memory: it runs on a store of cells and
    either returns or stops with a [fault] (null dereference, access to a dead
    block, signed overflow, index out of bounds, uninitialised read, division by
    zero).  Structs whose address only the caller holds are records that are
    passed and returned; everything the code links by pointers lives in the
    store.  [malloc] may refuse any request ([Allocator]), and the contents of a
    fresh block are arbitrary.  Client data are [value]s, integers with 0 for
    the null pointer; callbacks are function arguments, and the registered
    destructors are recorded as the list of their calls.  [int] arithmetic that
    overflows is a fault, unsigned arithmetic wraps ([u32], [u64]).

    A theorem has the form [{{ P }} f x {{ r, Q r }}] ([triple]): from every
    store that satisfies [P], [f x] returns, without a fault, a result and a
    store that satisfy [Q].  This is total correctness.  A loop takes [fuel],
    one unit per round, and a theorem says how much is enough; running out is
    the fault [OutOfFuel], so that it is also excluded.  [P] and [Q] are heap
    predicates, an instance of Iris' [bi], in which [∗] owns disjoint cells.

    A demo of several threads or processes is a transition system instead: each has
    a program counter, a step is one call of one of them, and [next] lists the
    states that may follow.  Theorems hold in every reachable state, for every
    interleaving.  The diagnostics make texts and are functions that return the
    text, or the fault.

    The elliptic curves work on arrays that their callers own: a function takes
    the arrays it writes and returns them, in the monad [outcome] of a result or a
    fault.  An array is a list of optional words, [None] being a word that was
    not written yet and must not be read; [post r Q] says that [r] is a result
    that satisfies [Q], so it excludes faults as a triple does.  An argument
    that is also the array to write is passed by its value at the call; that the loops read a
    word before they overwrite it is shown for sums and differences ([vli_chain_alias]).
    The global random number generator is a function from the number of its
    calls so far.

    ** The files

    - Prelude: integers of C, notations, automation, facts on lists.
    - Memory, Blocks: the machine, with cells of one type and with whole arrays.
    - Compare (compare-*.c, hash-*.c): the interfaces [CompareFunc] and
      [HashEqual] that the containers ask of their callbacks, and the library's
      callbacks, which satisfy them; the callbacks that ignore case agree with
      one another ([string_nocase_callbacks_agree]).
    - Chain, SList (slist.c) and DChain, DList (list.c): the linked lists, with
      removal, sorting, iterators and conversion to arrays.
    - Queue (queue.c): every sequence of calls is a run of the list used at both ends, in
      which a push whose allocation is refused adds nothing ([queue_refines_deque]).
    - Buckets, HashTable (hash-table.c), HashSet (set.c): the code both share
      (chains, rehashing, iteration), then the operations: what is stored after
      insertion, replacement, enlargement, removal, union and intersection,
      which pairs go to the destructors, and what a refused allocation leaves.
    - AvlTree, AvlSpec, AvlProofs, AvlOps (avl-tree.c): the code; the trees as
      functional programs, ordered and balanced; the proof that the pointer code
      computes them; the operations on the sorted list of entries, with
      logarithmic height.
    - ArrayList (arraylist.c), BinaryHeap (binary-heap.c), BloomFilter
      (bloom-filter.c), CycleQueue (cycle_queue.c): structures on one array.
    - Trie, TrieNodes, TrieOps, TrieFree (trie.c): the code; the nodes as a map
      from prefixes; every sequence of calls with ASCII strings refines a finite map, and
      a byte from 128 on is an index outside its node ([trie_refines_map]); the release
      without recursion.
    - BinomialHeap, BinomialGraph, BinomialRefs, BinomialSum, BinomialMerge,
      BinomialOps (binomial-heap.c): the code; the graph of shared,
      reference-counted trees and its invariant; the functions on references;
      the merge as ripple-carry addition that is undone when an allocation is
      refused; insertion, removal and release.
    - PthreadCond (pthread_cond.c): the demo as a transition system of one
      producer and two consumers; what the mutex protects, that no wake-up is
      lost, that all products can be consumed, and the race on the index that is
      handed to the threads.
    - Variants: components that share one memory.  [lift] runs a function of a
      component on a memory whose cells are a sum type, [triple_lift] carries its
      theorem over.
    - Epoll, EpollOps (epoll.c): the epoll wrapper on the doubly linked list and
      the hash table; the kernel is a function from the system calls so far to
      the next answer.  Creation, registration, removal and closing on every
      branch, and two runs after which the kernel has the address of a freed
      block.
    - Timer, TimerOps (timer_posix.c): timers as clients of the epoll wrapper; the
      life of a timer that fires once.
    - EventFd (ipc/event_fd.c): a thread that opens an epoll descriptor, waits and
      closes it.  Its loop has no bound and is followed for any number of rounds: what it
      holds while it waits, and what it leaves behind when it has returned, refused
      allocations included ([event_read_routine_correct]).
    - Select (select/server.c, select/client.c): one server and any number of
      clients over the sockets of POSIX, whose calls may fail.  While the server runs, it
      watches the connections that are open and never leaves the descriptor set, and only
      a failing call ends it ([select_server_safe]); every run is short, and a server
      that is still there at its end has answered all clients it did not refuse
      ([select_server_serves]); a failed [accept] is not survived.
    - Mq (ipc/mq.c): the threads around the message queue; messages are neither
      lost nor left unnoticed ([mq_no_lost_message], [mq_notify_drains]), until the
      thread uses the signal set of a function that has returned
      ([mq_notify_dead_set]).
    - Debug (comm/debug.c, [hexbyte] of main.c): the texts of the log and of the
      dumps, which can be read back; the arrays of characters of string.h.
    - Backtrace (backtrace.c): the arguments that are kept, the lines and commands of a
      trace of any size ([print_trace_correct]), and the inputs that overrun a buffer.
    - Jump (co_routines/setjmp.c, [main] of main.c): a machine with a saved program
      counter; the demo ends the process, so that [main] stops behind it.
    - Digits, Vli, VliMod, VliBytes (uECC.c up to [uECC_generate_random_int]):
      numbers of several 64-bit words and their digits; comparison, shifts, sums,
      exact products; remainders and inverses modulo a number, which terminate;
      conversion to bytes, and random numbers below a bound.
    - CurveField, Curves, CurveOmega, StandardCurves (curve-specific.inc): what a curve
      points to, against the interface [CurveField]; the constants and the fast
      reductions of the five standard curves, three of which are remainders of
      every product; that of secp256k1 loses a carry, and its result is given for every
      product ([secp256k1_reduction_exact]); the square roots.
    - CurveGroup, EccPoint, Ladder, PublicKey, LadderTotal: the class [EcGroup] of the
      group of a curve, the formulas with a common third coordinate, the ladder,
      and its result for every scalar that a key is turned into, exceptions
      included.
    - Uecc (uECC.c from [uECC_make_key] to [uECC_compute_public_key]), Ecdsa and EcdsaVerify
      ([bits2int] to [uECC_sign], [uECC_verify]): keys, secrets, compressed points and
      signatures, as bytes.  Hmac and Deterministic: the keyed hash over the
      buffer of a hash context is RFC 2104, and the deterministic signatures use the
      nonces of a stream that is seeded with it.
    - Primes, SmallCurve: certificates that the primes of secp160r1, secp192r1, secp224r1
      and secp256r1 are prime, so that nothing proved of the fields of these curves assumes
      it, and a curve of eleven points whose group is decided by computation, on which
      the instances of the theorems run.
    - ByteBuffers, Ecdh (ecdh.c), Aes (encrypt/encrypt_aes.c): bytes in buffers; the demos of
      the key exchange and of OpenSSL's cipher, whose library is a record of functions on its
      state with its documented laws as the class [CipherLibrary].
    - EccTheorems: the properties of the elliptic curves and of their demos, each with an instance.

    Containers use one another as the code does: the hash table and the set
    are clients of Buckets and of [HashEqual]; the lists' callers pass
    [CompareFunc] instances.  The functions on points are proved for every curve
    that satisfies the interfaces [CurveOps], [CurveBytes], [CurveOrder] and [EcGroup];
    the callbacks of the standard curves satisfy the first ones.  That the points of a standard
    curve form a group of prime order is mathematics that the code relies on, and a
    hypothesis.  [Runs] modules hold the runs of each operation on
    concrete stores that show the hypotheses of its theorem can be met.

    ** Fuel and bounds

    List walks need more fuel than the list has entries, AVL walks more than the
    height, which [avl_depth] bounds by about twice the binary logarithm of the
    number of entries, a free of a trie more than the total length of its keys, a
    percolation more than the number of elements.  The [i]-th tree of a binomial heap has order [i] and
    [2 ^ i] values, of which there are at most [INT_MAX]: a heap has at most 31
    trees, of order below 31, and a fuel of 33 covers every recursion and loop.
    Lengths that the code keeps in [int] are
    bounded by [INT_MAX] where a counter could overflow, and by the array sizes
    the code can allocate; the theorems carry these bounds as hypotheses, and the
    errors beyond them are theorems of their own
    ([bloom_filter_size_overflow], [arraylist_remove_range_overflow]).  A number has
    up to [uECC_MAX_WORDS] = 4 words, as the configuration of the library for 64-bit
    machines says; the inverse takes no more rounds than its two numbers have bits
    (128 for each word), the tries for a random number are the code's 64.  The server
    of Select serves up to 1020 clients at a time, which with the standard
    descriptors and its own socket fill a set of [FD_SETSIZE].

    ** What is not modelled

    The log output of the modelled functions, and their sleeps.  Of comm/base.c only
    the write lock is used by modelled code.  lib/openssl and gtest/ are third-party
    code.  Of lib/ecc/, the assembly, the word sizes other than 64 bits, the separate square function
    and the interface to single functions ([uECC_ENABLE_VLI_API]) are not built and
    not modelled, and neither is how long the functions take.  The lock of
    epoll.c is that of one thread: taking it twice is the fault [Deadlock], and the
    interleaving of epoll_thread with its clients is not modelled; neither is what
    the kernel does beyond the answers that the theorems assume.  In Select and Mq
    the calls of the kernel do what POSIX says, and the failures that are modelled
    are those of the steps that say so: reads, writes and closes of an open connection
    succeed.
    The struct of a container and the array of buckets of a hash table or set are
    values, not cells, so that the last free of a container, that of its struct, and the
    free of the old array when a table is enlarged have no counterpart. *)
From stdpp Require Import base list numbers sorting ssreflect.

(** ** C integers *)

Definition INT_MAX : Z := 2147483647.
Definition INT_MIN : Z := -2147483648.
Definition UINT_MOD : Z := 4294967296.
Definition ULONG_MOD : Z := 18446744073709551616.

(** [int_ok z]: [z] is a value of the 32-bit type [int]. *)
Definition int_ok (z : Z) : bool := bool_decide (INT_MIN ≤ z ≤ INT_MAX)%Z.

(** Wrap-around of [unsigned int] and [unsigned long]. *)
Definition u32 (z : Z) : Z := (z mod UINT_MOD)%Z.
Definition u64 (z : Z) : Z := (z mod ULONG_MOD)%Z.

(** Client values: a [void *]; address 0 is the null pointer. *)
Abbreviation value := Z (only parsing).
Definition VNULL : value := 0%Z.

Lemma int_ok_true z : (INT_MIN ≤ z ≤ INT_MAX)%Z → int_ok z = true.
Proof. intros. by apply bool_decide_eq_true_2. Qed.

Lemma u32_id z : (0 ≤ z < UINT_MOD)%Z → u32 z = z.
Proof. apply Z.mod_small. Qed.

Lemma u64_id z : (0 ≤ z < ULONG_MOD)%Z → u64 z = z.
Proof. apply Z.mod_small. Qed.

Lemma u32_range z : (0 ≤ u32 z < UINT_MOD)%Z.
Proof. by apply Z.mod_pos_bound. Qed.

Create HintDb cint.
#[export] Hint Resolve int_ok_true u32_id u64_id u32_range : cint.

(** [int_tac] discharges range side conditions on C integers. *)
Ltac int_tac := unfold INT_MAX, INT_MIN, UINT_MOD, ULONG_MOD in *; lia.

(** The test [n / d > 0] of C on non-negative operands. *)
Lemma quot_positive n d : (0 ≤ n)%Z → (0 < d)%Z → (n * 3 ÷ d > 0)%Z ↔ (d ≤ 3 * n)%Z.
Proof.
  intros Hn Hd. rewrite Z.quot_div_nonneg; [|lia..]. split; intros Hq.
  - assert (¬ n * 3 < d)%Z; [|lia]. intros ?. rewrite Z.div_small in Hq; lia.
  - apply Z.lt_gt, Z.div_str_pos. lia.
Qed.

(** ** Sorted lists *)

(** The shape both quicksorts of the library produce: smaller part, pivot,
    larger part. *)
Lemma StronglySorted_pivot {A} (R : relation A) `{!Transitive R} l1 x l2 :
  StronglySorted R l1 → StronglySorted R l2 →
  Forall (λ y, R y x) l1 → Forall (R x) l2 →
  StronglySorted R (l1 ++ x :: l2).
Proof.
  intros Hl1 Hl2 H1 H2. induction Hl1 as [|y l1 _ IH Hy]; simpl; [by constructor|].
  inv H1. constructor; [by apply IH|].
  apply Forall_app; split; [done|]. constructor; [done|].
  eapply Forall_impl; [exact H2|]. intros z Hz. by transitivity x.
Qed.

(** Filters that keep everything. *)
Lemma filter_true {A} (P : A → Prop) `{∀ x, Decision (P x)} (l : list A) :
  Forall P l → filter P l = l.
Proof.
  induction 1 as [|x l Hx _ IH]; [done|]. by rewrite filter_cons_True // IH.
Qed.

(** Filters that agree on the elements of the list. *)
Lemma filter_agree {A} (P Q : A → Prop) `{∀ x, Decision (P x), ∀ x, Decision (Q x)} (l : list A) :
  (∀ x, x ∈ l → P x ↔ Q x) → filter P l = filter Q l.
Proof.
  induction l as [|x l IH]; intros Hl; [done|]. rewrite !filter_cons.
  rewrite IH; [|intros y Hy; apply Hl; by right].
  assert (P x ↔ Q x) as HPQ by (apply Hl; left). repeat case_decide; naive_solver.
Qed.

(** [filter_case]: decide the head of every filtered cons from the facts at
    hand. *)
Ltac filter_case :=
  rewrite !filter_cons; repeat (case_decide; simpl in *; try done; try congruence).
