(* ===== verification/Memory.v ===== *)
(** * Memory: the C abstract machine the components run on

    Part 1, operational: a store of cells of one node type, the faults of C,
    an allocator that may refuse any request, and the monad in which the
    functions of the library are written.  Part 2, assertions: heap predicates
    as a bunched-implications logic (an instance of Iris' [bi] interface, so
    the Iris proof mode applies), a weakest precondition for the monad and its
    rules.  [triple] is the statement form of the properties; it speaks of the
    monad's executions only. *)
From stdpp Require Import base gmap list numbers.
From iris.proofmode Require Import proofmode environments.
From S2P Require Import Prelude.
Set Warnings "-rewrite-rw,-redundant-canonical-projection,-closed-notation-not-level-0".

(** ** Part 1: locations, store, faults, monad *)

Definition loc : Set := positive.
Abbreviation ptr := (option loc).
Abbreviation NULL := None.

Inductive fault : Set :=
  | NullDeref     (* an access through a null pointer *)
  | WildAccess    (* an access to, or a free of, a block that is not live *)
  | IntOverflow   (* signed overflow *)
  | OutOfBounds   (* an array access outside the array *)
  | Uninitialised (* a read of a cell that was never written *)
  | DivByZero
  | AssertFailed  (* [assert] ended the program *)
  | Aborted       (* [abort] ended the program *)
  | Deadlock      (* a thread waits for a lock that it holds itself *)
  | OutOfFuel.    (* the iteration bound of the model was too small *)

Inductive outcome (A : Type) : Type :=
  | Ok (a : A)
  | Err (f : fault).
Arguments Ok {A} _.
Arguments Err {A} _.

(** The store: the live cells of type [N], and the number of allocation
    requests made so far. *)
Record mem (N : Type) := Mem { cells : gmap loc N; ticks : nat }.
Arguments Mem {N} _ _.
Arguments cells {N} _.
Arguments ticks {N} _.

(** [malloc]: the [t]-th request, made while the blocks of [s] are live, is
    refused ([None]) or answered with a block that is not live; the contents
    of a fresh block are arbitrary. *)
Class Allocator (N : Type) := {
  alloc_choose : nat → gset loc → option loc;
  alloc_junk : nat → N;
  alloc_fresh t s l : alloc_choose t s = Some l → l ∉ s
}.

(** Some request is refused. *)
Definition can_fail {N} `{Allocator N} : Prop := ∃ t s, alloc_choose t s = None.

(** An allocator that never refuses and hands out unused locations. *)
Program Definition total_alloc {N} (n : N) : Allocator N := {|
  alloc_choose _ s := Some (fresh s);
  alloc_junk _ := n
|}.
Next Obligation. simpl. intros N n _ s l [= <-]. apply is_fresh. Qed.

(** An allocator that refuses every request from the [k]-th on. *)
Program Definition bounded_alloc {N} (k : nat) (n : N) : Allocator N := {|
  alloc_choose t s := if decide (t < k) then Some (fresh s) else None;
  alloc_junk _ := n
|}.
Next Obligation. simpl. intros N k n t s l ?. case_decide; simplify_eq. apply is_fresh. Qed.

Lemma total_alloc_no_fail {N} (n : N) : ¬ @can_fail N (total_alloc n).
Proof. intros (t & s & [=]). Qed.

Definition M (N A : Type) : Type := mem N → outcome (A * mem N).

Global Instance M_ret N : MRet (M N) := λ A a m, Ok (a, m).
Global Instance M_bind N : MBind (M N) := λ A B k c m,
  match c m with
  | Ok (a, m') => k a m'
  | Err f => Err f
  end.

Definition fail {N A} (f : fault) : M N A := λ _, Err f.

(** [*p] as an rvalue. *)
Definition deref {N} (p : ptr) : M N N := λ m,
  match p with
  | NULL => Err NullDeref
  | Some l =>
      match cells m !! l with
      | Some n => Ok (n, m)
      | None => Err WildAccess
      end
  end.

(** [*p = n]. *)
Definition assign {N} (p : ptr) (n : N) : M N unit := λ m,
  match p with
  | NULL => Err NullDeref
  | Some l =>
      match cells m !! l with
      | Some _ => Ok (tt, Mem (<[l := n]> (cells m)) (ticks m))
      | None => Err WildAccess
      end
  end.

(** [p->field = ...]: an update [f] of one field of the cell. *)
Definition modify {N} (p : ptr) (f : N → N) : M N unit :=
  n ← deref p; assign p (f n).

(** A command that depends on the memory as a whole. *)
Definition peek {N A} (c : mem N → M N A) : M N A := λ m, c m m.

(** [malloc(sizeof(N))]. *)
Definition malloc {N} `{Allocator N} : M N ptr := λ m,
  match alloc_choose (ticks m) (dom (cells m)) with
  | None => Ok (NULL, Mem (cells m) (S (ticks m)))
  | Some l =>
      Ok (Some l, Mem (<[l := alloc_junk (ticks m)]> (cells m)) (S (ticks m)))
  end.

(** [calloc(1, sizeof(N))], [n] being the all-zero cell. *)
Definition calloc {N} `{Allocator N} (n : N) : M N ptr :=
  p ← malloc;
  match p with
  | NULL => mret NULL
  | Some l => _ ← assign p n; mret p
  end.

(** [malloc], [calloc] or [realloc] of an array: only whether the request is
    granted matters, the array's contents are the caller's state. *)
Definition malloc_array {N} `{Allocator N} : M N bool := λ m,
  Ok (bool_decide (is_Some (alloc_choose (ticks m) (dom (cells m)))),
      Mem (cells m) (S (ticks m))).

(** [free(p)]; freeing a null pointer does nothing. *)
Definition free {N} (p : ptr) : M N unit := λ m,
  match p with
  | NULL => Ok (tt, m)
  | Some l =>
      match cells m !! l with
      | Some _ => Ok (tt, Mem (delete l (cells m)) (ticks m))
      | None => Err WildAccess
      end
  end.

(** The result of a signed [int] operation: overflow is a fault. *)
Definition chk {N} (z : Z) : M N Z := if int_ok z then mret z else fail IntOverflow.

(** A block of array cells; [None] is a cell not yet written. *)
Definition array (A : Type) : Type := list (option A).

(** Read [a[i]] and write [a[i] = x] of an array. *)
Definition aget {N A} (a : list A) (i : Z) : M N A :=
  if bool_decide (0 ≤ i)%Z then
    match a !! Z.to_nat i with
    | Some x => mret x
    | None => fail OutOfBounds
    end
  else fail OutOfBounds.
Definition aset {N A} (a : list A) (i : Z) (x : A) : M N (list A) :=
  if bool_decide (0 ≤ i < length a)%Z then mret (<[Z.to_nat i := x]> a)
  else fail OutOfBounds.

(** A loop: [body s] either continues with a new state ([inl]) or leaves the
    loop with a result ([inr]). *)
Fixpoint loop {N S R} (fuel : nat) (body : S → M N (S + R)) (s : S) : M N R :=
  match fuel with
  | O => fail OutOfFuel
  | S fuel' =>
      r ← body s;
      match r with
      | inl s' => loop fuel' body s'
      | inr x => mret x
      end
  end.
Arguments loop {N S R} !fuel body s /.

(** A [for] loop with a fixed number of iterations, from index [i] on. *)
Fixpoint for_loop {N S} (n : nat) (i : Z) (body : Z → S → M N S) (s : S) : M N S :=
  match n with
  | O => mret s
  | S n' => s' ← body i s; for_loop n' (i + 1)%Z body s'
  end.

(** Runs of a sequence. *)
Lemma bind_ok {N A B} (c : M N A) (k : A → M N B) m r :
  (c ≫= k) m = Ok r → ∃ a m', c m = Ok (a, m') ∧ k a m' = Ok r.
Proof. rewrite /mbind /M_bind. destruct (c m) as [[a m']|]; [|done]. by exists a, m'. Qed.

Lemma bind_run {N A B} (c : M N A) (k : A → M N B) m a m' :
  c m = Ok (a, m') → (c ≫= k) m = k a m'.
Proof. rewrite /mbind /M_bind. by intros ->. Qed.

Lemma bind_err {N A B} (c : M N A) (k : A → M N B) m f : c m = Err f → (c ≫= k) m = Err f.
Proof. rewrite /mbind /M_bind. by intros ->. Qed.

Lemma deref_run {N} l (n : N) m : cells m !! l = Some n → deref (Some l) m = Ok (n, m).
Proof. rewrite /deref. by intros ->. Qed.

(** ** Part 2: heap assertions *)

Record hProp (N : Type) := HProp { holds : gmap loc N → Prop }.
Arguments HProp {N} _.
Arguments holds {N} _ _ : simpl never.
Bind Scope bi_scope with hProp.

Section ofe.
Context {N : Type}.
Local Instance hProp_equiv : Equiv (hProp N) := λ P Q, ∀ h, holds P h ↔ holds Q h.
Local Instance hProp_equivalence : Equivalence (≡@{hProp N}).
Proof.
  split; rewrite /equiv /hProp_equiv.
  - by intros P h.
  - by intros P Q HPQ h; rewrite HPQ.
  - by intros P Q R HPQ HQR h; rewrite HPQ.
Qed.
Canonical Structure hPropO := discreteO (hProp N).
End ofe.

Section connectives.
Context {N : Type}.
Implicit Types P Q : hProp N.

(** Entailment is a record so that the proof mode does not unfold it. *)
Record hentails P Q : Prop := HEntails { entails_holds h : holds P h → holds Q h }.
Definition hemp : hProp N := HProp (λ h, h = ∅).
Definition hpure (φ : Prop) : hProp N := HProp (λ _, φ).
Definition hand P Q : hProp N := HProp (λ h, holds P h ∧ holds Q h).
Definition hor P Q : hProp N := HProp (λ h, holds P h ∨ holds Q h).
Definition himpl P Q : hProp N := HProp (λ h, holds P h → holds Q h).
Definition hforall {A} (F : A → hProp N) : hProp N := HProp (λ h, ∀ a, holds (F a) h).
Definition hexist {A} (F : A → hProp N) : hProp N := HProp (λ h, ∃ a, holds (F a) h).
Definition hsep P Q : hProp N :=
  HProp (λ h, ∃ h1 h2, h = h1 ∪ h2 ∧ h1 ##ₘ h2 ∧ holds P h1 ∧ holds Q h2).
Definition hwand P Q : hProp N :=
  HProp (λ h, ∀ h', h ##ₘ h' → holds P h' → holds Q (h ∪ h')).
Definition hpers P : hProp N := HProp (λ _, holds P ∅).

Lemma hProp_bi_mixin :
  BiMixin hentails hemp hpure hand hor himpl (@hforall) (@hexist) hsep hwand.
Proof.
  split.
  - split; [by intros P; split|intros P Q R [HPQ] [HQR]; split; auto].
  - intros P Q; split.
    + intros HPQ; split; split; intros h; apply HPQ.
    + intros [[HPQ] [HQP]] h; split; auto.
  - by intros n φ ψ Hφ h.
  - intros n P P' HP Q Q' HQ h. rewrite /holds /=. by rewrite (HP h) (HQ h).
  - intros n P P' HP Q Q' HQ h. rewrite /holds /=. by rewrite (HP h) (HQ h).
  - intros n P P' HP Q Q' HQ h. rewrite /holds /=. by rewrite (HP h) (HQ h).
  - intros A n F G HFG h; split; intros H a; apply HFG, H.
  - intros A n F G HFG h; split; intros [a H]; exists a; by apply HFG.
  - intros n P P' HP Q Q' HQ h; split; intros (h1 & h2 & -> & ? & ? & ?);
      exists h1, h2; (split_and!; [done|done|by apply HP|by apply HQ]).
  - intros n P P' HP Q Q' HQ h; split; intros H h' Hd Hh'; apply HQ, H, HP; done.
  - by intros φ P Hφ; split; intros h _.
  - intros φ P Hφ; split; intros h Hh. by apply Hφ.
  - by intros P Q; split; intros h [].
  - by intros P Q; split; intros h [].
  - intros P Q R [HQ] [HR]; split; intros h HP; split; auto.
  - by intros P Q; split; intros h; left.
  - by intros P Q; split; intros h; right.
  - intros P Q R [HP] [HQ]; split; intros h [H|H]; auto.
  - intros P Q R [HPQ]; split; intros h HP HQ. by apply HPQ.
  - intros P Q R [HP]; split; intros h [H1 H2]. by apply HP.
  - intros A P F HF; split; intros h HP a. by apply HF.
  - intros A F a; split; intros h HF. apply HF.
  - intros A F a; split; intros h HF. by exists a.
  - intros A F Q HF; split; intros h [a H]. by apply (HF a).
  - intros P P' Q Q' [HP] [HQ]; split; intros h (h1 & h2 & -> & ? & ? & ?).
    exists h1, h2; split_and!; auto.
  - intros P; split; intros h HP. exists ∅, h. rewrite left_id_L.
    split_and!; [done|apply map_disjoint_empty_l|done|done].
  - intros P; split; intros h (h1 & h2 & -> & _ & -> & HP). by rewrite left_id_L.
  - intros P Q; split; intros h (h1 & h2 & -> & Hd & HP & HQ). exists h2, h1.
    rewrite (map_union_comm h1) //.
  - intros P Q R; split; intros h (h12 & h3 & -> & Hd & (h1 & h2 & -> & Hd' & HP & HQ) & HR).
    apply map_disjoint_union_l in Hd as [??].
    exists h1, (h2 ∪ h3). rewrite assoc_L. split_and!; [done| |done|].
    + by apply map_disjoint_union_r.
    + by exists h2, h3.
  - intros P Q R [HPQ]; split; intros h HP h' Hd HQ. apply HPQ. by exists h, h'.
  - intros P Q R [HP]; split; intros h (h1 & h2 & -> & Hd & H1 & H2). by apply HP.
Qed.

Lemma hProp_persistently_mixin :
  BiPersistentlyMixin hentails hemp hand (@hexist) hsep hpers.
Proof.
  split.
  - intros n P Q HPQ h. apply (HPQ ∅).
  - intros P Q [HPQ]; split; intros h HP. by apply HPQ.
  - by intros P; split; intros h HP.
  - by split; intros h _.
  - by intros P Q; split; intros h [].
  - intros A F; split; intros h [a HF]. by exists a.
  - by intros P Q; split; intros h (h1 & h2 & -> & Hd & HP & HQ).
  - intros P Q; split; intros h [HP HQ]. exists ∅, h. rewrite left_id_L.
    split_and!; [done|apply map_disjoint_empty_l|done|done].
Qed.

Lemma hProp_later_mixin :
  BiLaterMixin hentails hpure hor himpl (@hforall) (@hexist) hsep hpers id.
Proof. by eapply bi_later_mixin_id, hProp_bi_mixin. Qed.

Canonical Structure hPropI : bi :=
  {| bi_ofe_mixin := ofe_mixin_of (hProp N);
     bi_bi_mixin := hProp_bi_mixin;
     bi_bi_persistently_mixin := hProp_persistently_mixin;
     bi_bi_later_mixin := hProp_later_mixin |}.

Global Instance hProp_pure_forall : BiPureForall hPropI.
Proof. by intros A φ; split; intros h. Qed.

(** [l ↦ n]: exactly the cell at [l], holding [n]. *)
Definition pointsto (l : loc) (n : N) : hProp N := HProp (λ h, h = {[l := n]}).
End connectives.

Notation "l ↦ n" := (pointsto l n) (at level 20, n at level 25) : bi_scope.
(** A pure fact that owns no cell. *)
Notation "⌈ φ ⌉" := (<affine> ⌜φ⌝)%I (format "⌈  φ  ⌉") : bi_scope.

Section rules.
Context {N : Type}.
Implicit Types P Q : hProp N.

Lemma holds_sep P Q h :
  holds (P ∗ Q)%I h ↔ ∃ h1 h2, h = h1 ∪ h2 ∧ h1 ##ₘ h2 ∧ holds P h1 ∧ holds Q h2.
Proof. done. Qed.
Lemma holds_emp h : holds (emp : hProp N)%I h ↔ h = ∅.
Proof. done. Qed.
Lemma holds_exist {A} (F : A → hProp N) h : holds (∃ a, F a)%I h ↔ ∃ a, holds (F a) h.
Proof. done. Qed.
Lemma holds_or P Q h : holds (P ∨ Q)%I h ↔ holds P h ∨ holds Q h.
Proof. done. Qed.
Lemma holds_pure φ h : holds (⌈ φ ⌉ : hProp N)%I h ↔ φ ∧ h = ∅.
Proof.
  rewrite /bi_affinely. split; [by intros [??]|by intros [? ->]].
Qed.
Lemma holds_pure_sep φ P h : holds (⌈ φ ⌉ ∗ P)%I h ↔ φ ∧ holds P h.
Proof.
  rewrite holds_sep. split.
  - intros (h1 & h2 & -> & ? & [? ->]%holds_pure & ?). by rewrite left_id_L.
  - intros [??]. exists ∅, h. rewrite left_id_L holds_pure.
    split_and!; [done|apply map_disjoint_empty_l|done|done|done].
Qed.
Lemma holds_pointsto l (n : N) h : holds (l ↦ n)%I h ↔ h = {[l := n]}.
Proof. done. Qed.
Lemma holds_mono P Q h : (P ⊢ Q) → holds P h → holds Q h.
Proof. intros [HPQ]. apply HPQ. Qed.

Lemma pointsto_ne l l' (n n' : N) : l ↦ n -∗ l' ↦ n' -∗ ⌜l ≠ l'⌝.
Proof.
  apply bi.entails_wand, bi.wand_intro_l. split.
  intros h (h1 & h2 & -> & Hd'' & -> & ->) ->.
  rewrite map_disjoint_spec in Hd''. eapply (Hd'' l'); by rewrite lookup_singleton_eq.
Qed.

(** *** Weakest precondition *)

(** [wp c Φ]: run with the owned cells and any frame beside them, whatever
    the number of earlier requests, [c] ends without a fault, leaves the
    frame alone and establishes [Φ] on the cells it then owns. *)
Definition wp {A} (c : M N A) (Φ : A → hProp N) : hProp N := HProp (λ h,
  ∀ hf t, h ##ₘ hf → ∃ a h' t',
    c (Mem (h ∪ hf) t) = Ok (a, Mem (h' ∪ hf) t') ∧ h' ##ₘ hf ∧ holds (Φ a) h').

(** The statement form of the properties: total correctness of [c] from [P]
    to [Q], with every cell that is not owned framed. *)
Definition triple {A} (P : hProp N) (c : M N A) (Q : A → hProp N) : Prop :=
  ∀ h hf t, h ##ₘ hf → holds P h → ∃ a h' t',
    c (Mem (h ∪ hf) t) = Ok (a, Mem (h' ∪ hf) t') ∧ h' ##ₘ hf ∧ holds (Q a) h'.

Lemma triple_wp {A} P (c : M N A) (Q : A → hProp N) : triple P c Q ↔ (P ⊢ wp c Q).
Proof.
  split.
  - intros H; split; intros h HP hf t Hd. by apply H.
  - intros [H] h hf t Hd HP. by apply (H h HP).
Qed.

(** A triple run on a concrete heap. *)
Lemma triple_run {A} P (c : M N A) (Q : A → hProp N) h t :
  triple P c Q → holds P h →
  ∃ a h' t', c (Mem h t) = Ok (a, Mem h' t') ∧ holds (Q a) h'.
Proof.
  intros Hc HP. destruct (Hc h ∅ t (map_disjoint_empty_r h) HP) as (a & h' & t' & E & _ & HQ).
  rewrite !right_id_L in E. by exists a, h', t'.
Qed.

Lemma wp_ret {A} (a : A) Φ : Φ a ⊢ wp (mret a) Φ.
Proof. split; intros h HΦ hf t Hd. by exists a, h, t. Qed.

Lemma wp_bind {A B} (c : M N A) (k : A → M N B) Φ :
  wp c (λ a, wp (k a) Φ) ⊢ wp (c ≫= k) Φ.
Proof.
  split; intros h Hwp hf t Hd. destruct (Hwp hf t Hd) as (a & h' & t' & Hc & Hd' & Hk).
  destruct (Hk hf t' Hd') as (b & h'' & t'' & Hc' & Hd'' & HΦ).
  exists b, h'', t''. split; [|done].
  rewrite /mbind /M_bind Hc. done.
Qed.

Lemma wp_wand {A} (c : M N A) Φ Ψ : wp c Φ -∗ (∀ a, Φ a -∗ Ψ a) -∗ wp c Ψ.
Proof.
  apply bi.entails_wand, bi.wand_intro_r. split.
  intros h'' (h & h' & -> & Hd' & Hwp & HΦΨ) hf t Hdf.
  apply map_disjoint_union_l in Hdf as [Hdf1 Hdf2].
  destruct (Hwp (h' ∪ hf) t) as (a & h1 & t' & Hc & Hd1 & HΦ).
  { apply map_disjoint_union_r_2; done. }
  apply map_disjoint_union_r in Hd1 as [Hd1 Hd1'].
  exists a, (h' ∪ h1), t'. split_and!.
  - rewrite -(map_union_assoc h h' hf) Hc. do 3 f_equal.
    rewrite assoc_L. f_equal. by apply map_union_comm.
  - by apply map_disjoint_union_l.
  - apply HΦΨ; [by symmetry|done].
Qed.

Lemma wp_mono {A} (c : M N A) Φ Ψ : (∀ a, Φ a ⊢ Ψ a) → wp c Φ ⊢ wp c Ψ.
Proof. iIntros (H) "Hwp". iApply (wp_wand with "Hwp"). iIntros (a). iApply H. Qed.

(** A triple used inside a proof: give the precondition, continue with the
    postcondition. *)
Lemma triple_use {A} P (c : M N A) (Q Φ : A → hProp N) :
  triple P c Q → P -∗ (∀ a, Q a -∗ Φ a) -∗ wp c Φ.
Proof.
  iIntros (H%triple_wp) "HP HΦ". iApply (wp_wand with "[HP]"); [by iApply H|done].
Qed.

Lemma wp_peek {A} P (c : mem N → M N A) Φ :
  (∀ h hf t, h ##ₘ hf → holds P h → P ⊢ wp (c (Mem (h ∪ hf) t)) Φ) → P ⊢ wp (peek c) Φ.
Proof.
  intros Hc. split. intros h HP hf t Hd.
  destruct (Hc h hf t Hd HP) as [Hwp]. by apply (Hwp h HP hf t Hd).
Qed.

Lemma lookup_singleton_union l (n : N) (hf : gmap loc N) :
  ({[l := n]} ∪ hf) !! l = Some n.
Proof. apply lookup_union_Some_l, lookup_singleton_eq. Qed.

Lemma wp_deref l (n : N) Φ : l ↦ n -∗ (l ↦ n -∗ Φ n) -∗ wp (deref (Some l)) Φ.
Proof.
  iIntros "Hl HΦ". iApply (wp_wand _ (λ m, ⌈ m = n ⌉ ∗ l ↦ n)%I with "[Hl]"); last first.
  { iIntros (m) "[-> Hl]". by iApply "HΦ". }
  iStopProof. split; intros h -> hf t Hd. eexists n, {[l := n]}, t.
  rewrite /deref /= lookup_singleton_union holds_pure_sep. by split_and!.
Qed.

Lemma wp_assign l (n n' : N) Φ : l ↦ n -∗ (l ↦ n' -∗ Φ tt) -∗ wp (assign (Some l) n') Φ.
Proof.
  iIntros "Hl HΦ". iApply (wp_wand _ (λ _, l ↦ n')%I with "[Hl]"); last first.
  { by iIntros ([]) "?"; iApply "HΦ". }
  iStopProof. split; intros h -> hf t Hd. eexists tt, {[l := n']}, t. split_and!; [| |done].
  - rewrite /assign /= lookup_singleton_union insert_union_l. do 4 f_equal.
    apply insert_singleton_eq.
  - apply map_disjoint_singleton_l in Hd. by apply map_disjoint_singleton_l_2.
Qed.

Lemma wp_modify l (n : N) f Φ : l ↦ n -∗ (l ↦ f n -∗ Φ tt) -∗ wp (modify (Some l) f) Φ.
Proof.
  iIntros "Hl HΦ". iApply wp_bind. iApply (wp_deref with "Hl"). iIntros "Hl".
  by iApply (wp_assign with "Hl").
Qed.

Lemma wp_free l (n : N) Φ : l ↦ n -∗ Φ tt -∗ wp (free (Some l)) Φ.
Proof.
  iIntros "Hl HΦ". iApply (wp_wand _ (λ _, emp)%I with "[Hl]"); last first.
  { by iIntros ([]) "_". }
  iStopProof. split; intros h -> hf t Hd. eexists tt, ∅, t. split_and!; [| |done].
  - rewrite /free /= lookup_singleton_union.
    do 4 f_equal. apply map_disjoint_singleton_l in Hd.
    rewrite delete_union delete_singleton_eq. f_equal. by apply delete_id.
  - apply map_disjoint_empty_l.
Qed.

Lemma wp_malloc `{Allocator N} Φ :
  (∀ p, match p with
        | NULL => ⌈ can_fail ⌉
        | Some l => ∃ junk, l ↦ junk
        end -∗ Φ p) -∗ wp malloc Φ.
Proof.
  iIntros "HΦ". iApply (wp_wand _ (λ p, match p with
        | NULL => ⌈ can_fail ⌉
        | Some l => ∃ junk, l ↦ junk
        end)%I with "[] HΦ").
  iStopProof. split; intros h -> hf t Hd. rewrite left_id_L. rewrite /malloc /=.
  destruct (alloc_choose t (dom hf)) as [l|] eqn:Hl.
  - eexists (Some l), {[l := alloc_junk t]}, (S t). split_and!.
    + by rewrite -insert_union_singleton_l.
    + apply map_disjoint_singleton_l_2, not_elem_of_dom. by eapply alloc_fresh.
    + by eexists.
  - eexists NULL, ∅, (S t). rewrite left_id_L. split_and!; [done|done|].
    apply holds_pure. split; [|done]. by exists t, (dom hf).
Qed.

Lemma wp_calloc `{Allocator N} n Φ :
  (∀ p, match p with
        | NULL => ⌈ can_fail ⌉
        | Some l => l ↦ n
        end -∗ Φ p) -∗ wp (calloc n) Φ.
Proof.
  iIntros "HΦ". iApply wp_bind. iApply wp_malloc. iIntros ([l|]) "H".
  - iDestruct "H" as (junk) "H". iApply wp_bind. iApply (wp_assign with "H").
    iIntros "H". iApply wp_ret. by iApply "HΦ".
  - iApply wp_ret. by iApply "HΦ".
Qed.

Lemma wp_malloc_array `{Allocator N} Φ :
  (∀ b, ⌈ b = false → can_fail ⌉ -∗ Φ b) -∗ wp malloc_array Φ.
Proof.
  iIntros "HΦ". iApply (wp_wand _ (λ b, ⌈ b = false → can_fail ⌉)%I with "[] HΦ").
  iStopProof. split; intros h -> hf t Hd. rewrite /malloc_array /=.
  eexists _, ∅, (S t). split_and!; [done|done|]. apply holds_pure. split; [|done].
  rewrite bool_decide_eq_false. intros Hn. eexists t, _. by apply eq_None_not_Some.
Qed.

Lemma wp_chk z Φ : (INT_MIN ≤ z ≤ INT_MAX)%Z → Φ z ⊢ wp (chk z) Φ.
Proof. iIntros (?) "HΦ". rewrite /chk int_ok_true //. by iApply wp_ret. Qed.

Lemma wp_aget {A} (a : list A) i x Φ :
  (0 ≤ i)%Z → a !! Z.to_nat i = Some x → Φ x ⊢ wp (aget a i) Φ.
Proof.
  iIntros (? Hx) "HΦ". rewrite /aget bool_decide_eq_true_2 // Hx. by iApply wp_ret.
Qed.

Lemma wp_aset {A} (a : list A) i x Φ :
  (0 ≤ i < length a)%Z → Φ (<[Z.to_nat i := x]> a) ⊢ wp (aset a i x) Φ.
Proof. iIntros (?) "HΦ". rewrite /aset bool_decide_eq_true_2 //. by iApply wp_ret. Qed.

(** An array whose first cells hold [xs], the others being unwritten. *)
Definition filled {A} (xs : list A) (k : nat) : array A := (Some <$> xs) ++ replicate k None.

Lemma wp_aset_filled {A} (xs : list A) k x (Φ : array A → hProp N) :
  Φ (filled (xs ++ [x]) k) ⊢ wp (aset (filled xs (S k)) (Z.of_nat (length xs)) (Some x)) Φ.
Proof.
  iIntros "H". iApply wp_aset.
  { rewrite length_app length_fmap length_replicate. lia. }
  rewrite Nat2Z.id /filled insert_app_r_alt ?length_fmap // Nat.sub_diag /=.
  by rewrite fmap_app -assoc_L.
Qed.

Lemma loop_S {S' R} fuel (body : S' → M N (S' + R)) s :
  loop (S fuel) body s =
    (body s ≫= λ r, match r with inl s' => loop fuel body s' | inr x => mret x end).
Proof. done. Qed.

(** The size of the owned heap bounds the number of its cells. *)
Global Instance pointsto_timeless l (n : N) : Timeless (l ↦ n : hProp N)%I.
Proof. rewrite /Timeless. by iIntros "H !>". Qed.
End rules.

Notation "{{ P } } c {{ x , Q } }" := (triple P%I c (λ x, Q%I))
  (at level 20, c at level 200, x binder,
   format "{{  P  } }  c  {{  x ,  Q  } }") : stdpp_scope.

(** ** Proof-mode tactics for [wp] *)

(** [wp_bind] focuses the first command of a sequence. *)
Ltac wp_bind :=
  repeat lazymatch goal with
  | |- envs_entails _ (wp (_ ≫= _) _) => iApply wp_bind
  end.
(** [wp_pures] also steps over [mret]. *)
Ltac wp_pures :=
  repeat (simpl; lazymatch goal with
  | |- envs_entails _ (wp (_ ≫= _) _) => iApply wp_bind
  | |- envs_entails _ (wp (mret _) _) => iApply wp_ret
  end).

Ltac wp_reintro H :=
  lazymatch H with
  | INamed ?s => iIntros s
  | _ => iIntros "?"
  end.

(** [wp_load], [wp_store], [wp_free]: run the command in focus on a cell of the
    proof context, which keeps its name. *)
Tactic Notation "wp_load" :=
  wp_bind;
  lazymatch goal with
  | |- envs_entails _ (wp (deref (Some ?l)) _) =>
      iSelect (l ↦ _)%I ltac:(fun H => iApply (wp_deref with H); wp_reintro H)
  end; simpl.
Tactic Notation "wp_store" :=
  wp_bind;
  lazymatch goal with
  | |- envs_entails _ (wp (modify (Some ?l) _) _) =>
      iSelect (l ↦ _)%I ltac:(fun H => iApply (wp_modify with H); wp_reintro H)
  | |- envs_entails _ (wp (assign (Some ?l) _) _) =>
      iSelect (l ↦ _)%I ltac:(fun H => iApply (wp_assign with H); wp_reintro H)
  end; simpl.
Tactic Notation "wp_free" :=
  wp_bind;
  lazymatch goal with
  | |- envs_entails _ (wp (free (Some ?l)) _) =>
      iSelect (l ↦ _)%I ltac:(fun H => iApply (wp_free with H))
  end; simpl.
(** [wp_malloc l as "Hl"]: one goal where the request is granted, one where it
    is refused. *)
Tactic Notation "wp_malloc" ident(l) "as" constr(H) :=
  wp_bind; iApply wp_malloc; iIntros ([l|]) "Hmalloc"; simpl;
  [let junk := fresh "junk" in iDestruct "Hmalloc" as (junk) H
  |let Hfail := fresh "Hfail" in iDestruct "Hmalloc" as %Hfail].
Tactic Notation "wp_calloc" ident(l) "as" constr(H) :=
  wp_bind; iApply wp_calloc; iIntros ([l|]) "Hmalloc"; simpl;
  [iRename "Hmalloc" into H
  |let Hfail := fresh "Hfail" in iDestruct "Hmalloc" as %Hfail].
Tactic Notation "wp_malloc_array" :=
  wp_bind; iApply wp_malloc_array; iIntros ([]) "Hmalloc"; simpl;
  [iClear "Hmalloc"
  |let Hfail := fresh "Hfail" in iDestruct "Hmalloc" as %Hfail;
   specialize (Hfail eq_refl)].
Tactic Notation "wp_chk" := wp_bind; iApply wp_chk; [try (simpl; int_tac)|].
(** [ipure]: frame, then the pure rest. *)
Ltac ipure := iFrame; try (iPureIntro; split_and?; try done; try lia; eauto).
(** [ipures]: peel the pure facts off a separating conjunction while they are
    immediate. *)
Ltac ipures := repeat (iSplit; [iPureIntro; solve [done | simpl; lia | eauto]|]).
Tactic Notation "wp_loop" := rewrite ?loop_S; wp_bind; simpl.
(** [wp_call lem with "H"]: run a function by its triple [lem], the precondition
    coming from the hypotheses [H]. *)
Tactic Notation "wp_call" uconstr(lem) "with" constr(H) :=
  wp_bind; iApply (triple_use with H); [eapply lem; try done; try lia|]; simpl.
