(* ===== verification/Outcome.v ===== *)
(** * Outcome: straight-line C code without an allocator

    The functions that only work on arrays of the caller are written in the monad
    [outcome]: a result or a fault.  [post] is total correctness: the code ends
    without a fault and its result satisfies the assertion.  Reads and writes of
    an array are checked, a cell that was never written cannot be read. *)
From stdpp Require Import base list numbers ssreflect.
From S2P Require Import Prelude Memory.

#[global] Instance outcome_ret : MRet outcome := λ A a, Ok a.
#[global] Instance outcome_bind : MBind outcome := λ A B k c, match c with Ok a => k a | Err f => Err f end.

(** ** Arrays and loops *)

(** [a[i]] and [a[i] = x]. *)
Definition oget {A} (a : array A) (i : Z) : outcome A :=
  if (0 <=? i)%Z then
    match a !! Z.to_nat i with
    | Some (Some x) => Ok x
    | Some None => Err Uninitialised
    | None => Err OutOfBounds
    end
  else Err OutOfBounds.
Definition oset {A} (a : array A) (i : Z) (x : A) : outcome (array A) :=
  if (0 <=? i)%Z && (i <? Z.of_nat (length a))%Z then Ok (<[Z.to_nat i := Some x]> a)
  else Err OutOfBounds.

(** [f] applied to the array that starts at [a + k]. *)
Definition at_offset {A} (k : nat) (f : array A → outcome (array A)) (a : array A) : outcome (array A) :=
  if bool_decide (k ≤ length a) then b ← f (drop k a); Ok (take k a ++ b) else Err OutOfBounds.

(** [for (j = i; j < i + n; ++j)]. *)
Fixpoint ofor {S} (n : nat) (i : Z) (body : Z → S → outcome S) (s : S) : outcome S :=
  match n with
  | O => Ok s
  | Datatypes.S n' => s' ← body i s; ofor n' (i + 1)%Z body s'
  end.

(** [for (j = n - 1; j >= 0; --j)]. *)
Fixpoint ofor_down {S} (n : nat) (body : Z → S → outcome S) (s : S) : outcome S :=
  match n with
  | O => Ok s
  | Datatypes.S n' => s' ← body (Z.of_nat n') s; ofor_down n' body s'
  end.

(** A loop that may be left early: [inr] is its result. *)
Fixpoint owhile {S R} (fuel : nat) (body : S → outcome (S + R)) (s : S) : outcome R :=
  match fuel with
  | O => Err OutOfFuel
  | Datatypes.S fuel' =>
      r ← body s;
      match r with
      | inl s' => owhile fuel' body s'
      | inr x => Ok x
      end
  end.

(** ** Total correctness *)

Definition post {A} (c : outcome A) (Φ : A → Prop) : Prop :=
  match c with Ok a => Φ a | Err _ => False end.

Lemma post_ok {A} (a : A) (Φ : A → Prop) : Φ a → post (Ok a) Φ.
Proof. done. Qed.
Lemma post_ret {A} (a : A) (Φ : A → Prop) : Φ a → post (mret a) Φ.
Proof. done. Qed.

Lemma post_bind {A B} (c : outcome A) (k : A → outcome B) (Ψ : A → Prop) (Φ : B → Prop) :
  post c Ψ → (∀ a, Ψ a → post (k a) Φ) → post (c ≫= k) Φ.
Proof. destruct c; [|done]. intros H Hk. by apply Hk. Qed.

Lemma post_mono {A} (c : outcome A) (Φ Ψ : A → Prop) : post c Φ → (∀ a, Φ a → Ψ a) → post c Ψ.
Proof. destruct c; [|done]. intros H HΨ. by apply HΨ. Qed.

Lemma post_elim {A} (c : outcome A) (Φ : A → Prop) : post c Φ → ∃ a, c = Ok a ∧ Φ a.
Proof. destruct c as [a|]; [|done]. by exists a. Qed.

Lemma post_eq {A} (c : outcome A) (a : A) : post c (λ b, b = a) → c = Ok a.
Proof. intros (b & -> & ->)%post_elim. done. Qed.

Lemma post_oget {A} (a : array A) (i : Z) (x : A) (Φ : A → Prop) :
  (0 ≤ i)%Z → a !! Z.to_nat i = Some (Some x) → Φ x → post (oget a i) Φ.
Proof. intros Hi Ha H. rewrite /oget (proj2 (Z.leb_le _ _) Hi) Ha. done. Qed.

Lemma post_oset {A} (a : array A) (i : Z) (x : A) (Φ : array A → Prop) :
  (0 ≤ i < Z.of_nat (length a))%Z → Φ (<[Z.to_nat i := Some x]> a) → post (oset a i x) Φ.
Proof.
  intros [Hi Hl] H. by rewrite /oset (proj2 (Z.leb_le _ _) Hi) (proj2 (Z.ltb_lt _ _) Hl).
Qed.

Lemma post_at_offset {A} (k : nat) (f : array A → outcome (array A)) (a : array A) Ψ (Φ : array A → Prop) :
  k ≤ length a → post (f (drop k a)) Ψ → (∀ b, Ψ b → Φ (take k a ++ b)) → post (at_offset k f a) Φ.
Proof.
  intros Hk Hf H. rewrite /at_offset bool_decide_eq_true_2 //.
  eapply post_bind; [exact Hf|]. intros b Hb. by apply H.
Qed.

Lemma post_ofor {S} (I : Z → S → Prop) (n : nat) (i : Z) (body : Z → S → outcome S) (s : S) (Φ : S → Prop) :
  I i s →
  (∀ j s', i ≤ j < i + Z.of_nat n → I j s' → post (body j s') (I (j + 1)))%Z →
  (∀ s', I (i + Z.of_nat n)%Z s' → Φ s') →
  post (ofor n i body s) Φ.
Proof.
  revert i s. induction n as [|n IH]; intros i s Hs Hbody HΦ; simpl.
  { apply HΦ. by rewrite Z.add_0_r. }
  eapply post_bind; [apply Hbody; [lia|done]|]. intros s' Hs'. apply IH; [done|..].
  - intros j s'' Hj. apply Hbody. lia.
  - intros s'' H. apply HΦ. by replace (i + Z.of_nat (Datatypes.S n))%Z with (i + 1 + Z.of_nat n)%Z by lia.
Qed.

Lemma post_ofor_down {S} (I : nat → S → Prop) (n : nat) (body : Z → S → outcome S) (s : S) (Φ : S → Prop) :
  I n s →
  (∀ j s', j < n → I (Datatypes.S j) s' → post (body (Z.of_nat j) s') (I j)) →
  (∀ s', I 0 s' → Φ s') →
  post (ofor_down n body s) Φ.
Proof.
  revert s. induction n as [|n IH]; intros s Hs Hbody HΦ; simpl; [by apply HΦ|].
  eapply post_bind; [apply Hbody; [lia|done]|]. intros s' Hs'.
  apply IH; [done| |done]. intros j s'' Hj. apply Hbody. lia.
Qed.

(** A loop ends when the measure [μ] decreases with every round. *)
Lemma post_owhile {S R} (I : S → Prop) (μ : S → Z) (fuel : nat) (body : S → outcome (S + R)) (s : S)
    (Φ : R → Prop) :
  I s → (0 ≤ μ s < Z.of_nat fuel)%Z →
  (∀ s', I s' → (0 ≤ μ s')%Z →
    post (body s') (λ r, match r with inl s'' => I s'' ∧ (0 ≤ μ s'' < μ s')%Z | inr x => Φ x end)) →
  post (owhile fuel body s) Φ.
Proof.
  revert s. induction fuel as [|fuel IH]; intros s Hs Hμ Hbody; [lia|]. simpl.
  eapply post_bind; [apply Hbody; [done|lia]|]. intros [s'|x]; [|done].
  intros [Hs' Hμ']. apply IH; [done|lia|done].
Qed.

(** The same with an invariant that fixes the measure. *)
Lemma post_owhile_rel {S R} (I : Z → S → Prop) (fuel : nat) (body : S → outcome (S + R)) (m : Z) (s : S)
    (Φ : R → Prop) :
  I m s → (0 ≤ m < Z.of_nat fuel)%Z →
  (∀ m s, I m s → (0 ≤ m)%Z →
    post (body s) (λ r, match r with inl s' => ∃ m', I m' s' ∧ (0 ≤ m' < m)%Z | inr x => Φ x end)) →
  post (owhile fuel body s) Φ.
Proof.
  revert m s. induction fuel as [|fuel IH]; intros m s Hs Hm Hbody; [lia|]. simpl.
  eapply post_bind; [apply (Hbody m); [done|lia]|]. intros [s'|x]; [|done].
  intros (m' & Hs' & Hm'). apply (IH m'); [done|lia|done].
Qed.

#[global] Arguments ofor : simpl never.
#[global] Arguments ofor_down : simpl never.
#[global] Arguments owhile : simpl never.

(** [obind lem] steps over the first command of a sequence with the lemma [lem]. *)
Ltac obind H := eapply post_bind; [eapply H|].
