(* ===== verification/ByteBuffers.v ===== *)
(** * ByteBuffers: runs of bytes in a buffer

    What a callback or a library function reads from a buffer and writes to one, and
    [memcmp].  Hmac.v, Deterministic.v, Aes.v and Ecdh.v pass bytes this way. *)
From stdpp Require Import base list numbers ssreflect.
From S2P Require Import Prelude Memory Outcome.

(** ** Operations *)

(** The [n] bytes at [off], and [bs] stored there. *)
Fixpoint load_bytes (a : array Z) (off n : nat) : outcome (list Z) :=
  match n with
  | O => Ok []
  | S n => x ← oget a (Z.of_nat off); l ← load_bytes a (S off) n; Ok (x :: l)
  end.
Fixpoint put_bytes (a : array Z) (off : nat) (bs : list Z) : outcome (array Z) :=
  match bs with
  | [] => Ok a
  | x :: bs => a ← oset a (Z.of_nat off) x; put_bytes a (S off) bs
  end.

(** The difference of the first bytes that differ. *)
Fixpoint memcmp (a b : array Z) (i : Z) (n : nat) : outcome Z :=
  match n with
  | O => Ok 0%Z
  | S n =>
      x ← oget a i;
      y ← oget b i;
      if (x =? y)%Z then memcmp a b (i + 1)%Z n else Ok (x - y)%Z
  end.

(** ** Lemmas *)

Definition bytes_at (off : nat) (l : list Z) (a : array Z) : Prop :=
  ∀ i x, l !! i = Some x → a !! (off + i) = Some (Some x).

Lemma bytes_at_cons off x l a : bytes_at off (x :: l) a ↔ a !! off = Some (Some x) ∧ bytes_at (S off) l a.
Proof.
  split.
  - intros Hl. split; [rewrite -(Nat.add_0_r off); by apply Hl|]. intros i y Hy. rewrite Nat.add_succ_comm. by apply Hl.
  - intros [H0 Hl] [|i] y Hy; [injection Hy as ->; by rewrite Nat.add_0_r|]. rewrite -Nat.add_succ_comm. by apply Hl.
Qed.

Lemma load_bytes_spec a off l n : bytes_at off l a → length l = n → load_bytes a off n = Ok l.
Proof.
  revert off n. induction l as [|x l IH]; intros off n Hl <-; [done|]. apply bytes_at_cons in Hl as [Hx Hl].
  apply post_eq. cbn [load_bytes length].
  eapply post_bind; [eapply post_oget; [lia|by rewrite Nat2Z.id|exact (eq_refl _)]|]. intros ? <-. by rewrite (IH _ _ Hl eq_refl).
Qed.

Lemma put_bytes_spec a off l :
  off + length l ≤ length a →
  post (put_bytes a off l) (λ b, length b = length a ∧ bytes_at off l b ∧
    ∀ i, i < off ∨ off + length l ≤ i → b !! i = a !! i).
Proof.
  revert a off. induction l as [|x l IH]; intros a off Hl; cbn [put_bytes length] in *; [by split_and!|].
  eapply post_bind; [apply post_oset; [lia|exact (eq_refl _)]|]. intros a' <-. rewrite Nat2Z.id.
  eapply post_mono; [apply IH; rewrite length_insert; lia|]. intros b (Hlb & Hb & Hrest).
  rewrite length_insert in Hlb. split_and!; [done| |].
  - apply bytes_at_cons. split; [|done]. rewrite Hrest; [|lia]. rewrite list_lookup_insert_eq //. lia.
  - intros i Hi. rewrite Hrest; [|lia]. rewrite list_lookup_insert_ne //. lia.
Qed.

Lemma memcmp_equal a b i n :
  (∀ j, j < n → ∃ x, a !! (i + j) = Some (Some x) ∧ b !! (i + j) = Some (Some x)) → memcmp a b (Z.of_nat i) n = Ok 0%Z.
Proof.
  revert i. induction n as [|n IH]; intros i H; [done|]. cbn [memcmp].
  destruct (H 0 ltac:(lia)) as (x & Ha & Hb). rewrite Nat.add_0_r in Ha, Hb.
  apply post_eq. eapply post_bind; [eapply post_oget; [lia|by rewrite Nat2Z.id|exact (eq_refl _)]|]. intros ? <-.
  eapply post_bind; [eapply post_oget; [lia|by rewrite Nat2Z.id|exact (eq_refl _)]|]. intros ? <-.
  rewrite Z.eqb_refl. replace (Z.of_nat i + 1)%Z with (Z.of_nat (S i)) by lia. rewrite IH //.
  intros j Hj. destruct (H (S j) ltac:(lia)) as (y & H1 & H2). exists y. by rewrite Nat.add_succ_comm.
Qed.

Lemma memcmp_defined a b i n :
  (∀ j, i ≤ j < i + n → (∃ x, a !! j = Some (Some x)) ∧ ∃ y, b !! j = Some (Some y)) →
  post (memcmp a b (Z.of_nat i) n) (λ _, True).
Proof.
  revert i. induction n as [|n IH]; intros i H; [done|]. cbn [memcmp].
  destruct (H i ltac:(lia)) as [[x Ha] [y Hb]].
  eapply post_bind; [eapply post_oget; [lia|by rewrite Nat2Z.id|exact (eq_refl _)]|]. intros ? <-.
  eapply post_bind; [eapply post_oget; [lia|by rewrite Nat2Z.id|exact (eq_refl _)]|]. intros ? <-.
  destruct (x =? y)%Z; [|done]. replace (Z.of_nat i + 1)%Z with (Z.of_nat (S i)) by lia. apply IH.
  intros j Hj. apply H. lia.
Qed.

