(* ===== verification/Compare.v ===== *)
(** * Compare: the callback contracts and the callbacks of the library

    compare-int.c, compare-pointer.c, compare-string.c, hash-int.c,
    hash-pointer.c and hash-string.c, and the two interfaces through which the
    containers use such callbacks: [CompareFunc] (a three-way comparison that is
    a total preorder) for the sorting functions, the heaps and the AVL tree, and
    [HashEqual] (an equivalence and a hash that respects it) for the hash table
    and the set.  The containers' theorems are proved against the interfaces;
    this file discharges them for the library's own callbacks.

    A callback gets [void *] arguments and reads what they point to: the client
    memory is the argument [int_at] or [str_at] (the bytes of the string before
    its NUL). *)
From stdpp Require Import base list numbers sorting ssreflect.
From S2P Require Import Prelude.

(** ** Interfaces *)

Class CompareFunc (cmp : value → value → Z) : Prop := {
  cmp_antisym x y : (cmp x y < 0 ↔ 0 < cmp y x)%Z;
  cmp_trans x y z : (cmp x y ≤ 0 → cmp y z ≤ 0 → cmp x z ≤ 0)%Z
}.

Class HashEqual (hash : value → Z) (equal : value → value → Z) : Prop := {
  equal_refl x : equal x x ≠ 0%Z;
  equal_sym x y : equal x y ≠ 0%Z → equal y x ≠ 0%Z;
  equal_trans x y z : equal x y ≠ 0%Z → equal y z ≠ 0%Z → equal x z ≠ 0%Z;
  hash_equal x y : equal x y ≠ 0%Z → hash x = hash y;
  hash_range x : (0 ≤ hash x < ULONG_MOD)%Z
}.

(** The order a comparison induces. *)
Definition cmp_le (cmp : value → value → Z) (x y : value) : Prop := (cmp x y ≤ 0)%Z.

Section compare_laws.
Context (cmp : value → value → Z) `{!CompareFunc cmp}.

Lemma cmp_refl x : cmp x x = 0%Z.
Proof. pose proof (cmp_antisym x x). lia. Qed.

Lemma cmp_flip_le x y : (cmp x y ≤ 0 ↔ 0 ≤ cmp y x)%Z.
Proof. pose proof (cmp_antisym x y). pose proof (cmp_antisym y x). lia. Qed.

Lemma cmp_lt_le x y : (cmp x y < 0 → cmp x y ≤ 0)%Z.
Proof. lia. Qed.

Lemma cmp_zero_sym x y : cmp x y = 0%Z → cmp y x = 0%Z.
Proof. pose proof (cmp_antisym x y). pose proof (cmp_antisym y x). lia. Qed.

Lemma cmp_lt_le_trans x y z : (cmp x y < 0 → cmp y z ≤ 0 → cmp x z < 0)%Z.
Proof.
  intros H1 H2. destruct (Z.lt_ge_cases (cmp x z) 0) as [|H3]; [done|].
  assert (cmp z x ≤ 0)%Z as H4 by (by apply cmp_flip_le).
  pose proof (cmp_trans y z x H2 H4). pose proof (cmp_antisym x y). lia.
Qed.

Lemma cmp_le_lt_trans x y z : (cmp x y ≤ 0 → cmp y z < 0 → cmp x z < 0)%Z.
Proof.
  intros H1 H2. destruct (Z.lt_ge_cases (cmp x z) 0) as [|H3]; [done|].
  assert (cmp z x ≤ 0)%Z as H4 by (by apply cmp_flip_le).
  pose proof (cmp_trans z x y H4 H1). pose proof (cmp_antisym y z). lia.
Qed.

Global Instance cmp_le_preorder : PreOrder (cmp_le cmp).
Proof.
  split; rewrite /cmp_le.
  - intros x. rewrite cmp_refl. lia.
  - intros x y z. apply cmp_trans.
Qed.
Global Instance cmp_le_total : Total (cmp_le cmp).
Proof. intros x y. rewrite /cmp_le. pose proof (cmp_flip_le x y). lia. Qed.

(** The reverse of an order, which the heaps of the other type use. *)
Lemma reverse_compare : CompareFunc (λ x y, (- cmp x y)%Z).
Proof.
  split.
  - intros x y. pose proof (cmp_antisym x y). pose proof (cmp_antisym y x). lia.
  - intros x y z. pose proof (cmp_antisym x y). pose proof (cmp_antisym y x).
    pose proof (cmp_antisym y z). pose proof (cmp_antisym z y).
    pose proof (cmp_antisym x z). pose proof (cmp_antisym z x). pose proof (cmp_trans z y x). lia.
Qed.
End compare_laws.

(** ** compare-int.c, compare-pointer.c *)

Section compare_int_c.
Context (int_at : value → Z).

Definition int_equal (vlocation1 vlocation2 : value) : Z :=
  if bool_decide (int_at vlocation1 = int_at vlocation2) then 1%Z else 0%Z.

Definition int_compare (vlocation1 vlocation2 : value) : Z :=
  if bool_decide (int_at vlocation1 < int_at vlocation2)%Z then (-1)%Z
  else if bool_decide (int_at vlocation1 > int_at vlocation2)%Z then 1%Z
  else 0%Z.

(** [(unsigned long) *location]: a negative int is sign-extended. *)
Definition int_hash (vlocation : value) : Z := u64 (int_at vlocation).
End compare_int_c.

Definition pointer_equal (location1 location2 : value) : Z :=
  if bool_decide (location1 = location2) then 1%Z else 0%Z.

Definition pointer_compare (location1 location2 : value) : Z :=
  if bool_decide (location1 < location2)%Z then (-1)%Z
  else if bool_decide (location1 > location2)%Z then 1%Z
  else 0%Z.

Definition pointer_hash (location : value) : Z := u64 location.

(** ** compare-string.c, hash-string.c *)

(** [tolower] of the C locale. *)
Definition tolower (c : Z) : Z :=
  if bool_decide (65 ≤ c ≤ 90)%Z then (c + 32)%Z else c.

(** [(char) b] for a byte [b], [char] being signed. *)
Definition schar (b : Z) : Z := if bool_decide (b < 128)%Z then b else (b - 256)%Z.

(** [strcmp] compares the strings as arrays of unsigned char. *)
Fixpoint strcmp (s1 s2 : list Z) : Z :=
  match s1, s2 with
  | [], [] => 0%Z
  | [], c2 :: _ => (- c2)%Z
  | c1 :: _, [] => c1
  | c1 :: s1, c2 :: s2 =>
      if bool_decide (c1 = c2) then strcmp s1 s2 else (c1 - c2)%Z
  end.

(** The loop of [string_nocase_compare]; the end of a string reads as NUL. *)
Fixpoint nocase_loop (p1 p2 : list Z) : Z :=
  let c1 := tolower (default 0%Z (schar <$> head p1)) in
  let c2 := tolower (default 0%Z (schar <$> head p2)) in
  if bool_decide (c1 ≠ c2) then
    if bool_decide (c1 < c2)%Z then (-1)%Z else 1%Z
  else
    match p1, p2 with
    | _ :: p1, _ :: p2 => nocase_loop p1 p2
    | _, _ => 0%Z
    end.

(** One step of the djb2 hash, on [unsigned long]. *)
Definition djb2_step (result c : Z) : Z :=
  Z.lxor (Z.lxor (u64 (Z.shiftl result 5)) result) c.

Section compare_string_c.
Context (str_at : value → list Z).

Definition string_equal (string1 string2 : value) : Z :=
  if bool_decide (strcmp (str_at string1) (str_at string2) = 0%Z) then 1%Z else 0%Z.

Definition string_compare (string1 string2 : value) : Z :=
  let result := strcmp (str_at string1) (str_at string2) in
  if bool_decide (result < 0)%Z then (-1)%Z
  else if bool_decide (result > 0)%Z then 1%Z
  else 0%Z.

Definition string_nocase_compare (string1 string2 : value) : Z :=
  nocase_loop (str_at string1) (str_at string2).

Definition string_nocase_equal (string1 string2 : value) : Z :=
  if bool_decide (string_nocase_compare string1 string2 = 0%Z) then 1%Z else 0%Z.

Definition string_hash (string : value) : Z :=
  foldl djb2_step 5381%Z (str_at string).

Definition string_nocase_hash (string : value) : Z :=
  foldl (λ result c, djb2_step result (tolower c)) 5381%Z (str_at string).
End compare_string_c.

(** ** The callbacks meet their contracts *)
Lemma bool_to_nonzero (P : Prop) `{Decision P} :
  (if bool_decide P then 1%Z else 0%Z) ≠ 0%Z ↔ P.
Proof. case_bool_decide; naive_solver. Qed.

Lemma three_way_compare (f : value → Z) (cmp : value → value → Z) :
  (∀ x y, (cmp x y < 0 ↔ f x < f y)%Z ∧ (0 < cmp x y ↔ f y < f x)%Z) → CompareFunc cmp.
Proof.
  intros Hf. split.
  - intros x y. pose proof (Hf x y). pose proof (Hf y x). lia.
  - intros x y z. pose proof (Hf x y). pose proof (Hf y z). pose proof (Hf x z). lia.
Qed.

Global Instance int_compare_func int_at : CompareFunc (int_compare int_at).
Proof.
  apply (three_way_compare int_at). intros x y. rewrite /int_compare.
  repeat case_bool_decide; lia.
Qed.

Global Instance pointer_compare_func : CompareFunc pointer_compare.
Proof.
  apply (three_way_compare id). intros x y. rewrite /pointer_compare /=.
  repeat case_bool_decide; lia.
Qed.

(** A hash computed from the key on which equality is decided. *)
Lemma keyed_hash_equal {K} (key : value → K) (h : K → Z) hash equal :
  (∀ x y, equal x y ≠ 0%Z ↔ key x = key y) → (∀ x, hash x = h (key x)) →
  (∀ x, (0 ≤ hash x < ULONG_MOD)%Z) → HashEqual hash equal.
Proof.
  intros Heq Hh Hr. split; [setoid_rewrite Heq; congruence..| |done].
  intros x y Hxy%Heq. by rewrite !Hh Hxy.
Qed.

Global Instance int_hash_equal int_at : HashEqual (int_hash int_at) (int_equal int_at).
Proof.
  apply (keyed_hash_equal int_at u64); [|done|].
  - intros x y. apply bool_to_nonzero.
  - intros x. by apply Z.mod_pos_bound.
Qed.

Global Instance pointer_hash_equal : HashEqual pointer_hash pointer_equal.
Proof.
  apply (keyed_hash_equal id u64); [|done|].
  - intros x y. apply bool_to_nonzero.
  - intros x. by apply Z.mod_pos_bound.
Qed.

(** *** Strings: both comparisons are one lexicographic comparison *)

(** Three-way lexicographic comparison of NUL-terminated sequences. *)
Fixpoint lexc (s1 s2 : list Z) : Z :=
  let c1 := default 0%Z (head s1) in
  let c2 := default 0%Z (head s2) in
  if bool_decide (c1 ≠ c2) then
    if bool_decide (c1 < c2)%Z then (-1)%Z else 1%Z
  else
    match s1, s2 with
    | _ :: s1, _ :: s2 => lexc s1 s2
    | _, _ => 0%Z
    end.

Abbreviation no_nul := (Forall (λ c : Z, c ≠ 0%Z)).

Ltac lexc_case := simpl; repeat case_bool_decide; simplify_eq; try done; try lia.

Lemma lexc_antisym s1 s2 : (lexc s1 s2 < 0 ↔ 0 < lexc s2 s1)%Z.
Proof.
  revert s2. induction s1 as [|c1 s1 IH]; intros [|c2 s2]; lexc_case.
Qed.

Lemma lexc_zero s1 s2 : no_nul s1 → no_nul s2 → lexc s1 s2 = 0%Z ↔ s1 = s2.
Proof.
  revert s2. induction s1 as [|c1 s1 IH]; intros [|c2 s2] H1 H2; simpl;
    inv H1; inv H2; lexc_case; [split; congruence..|].
  rewrite IH //. by split; [intros ->|intros [= ->]].
Qed.

Lemma lexc_trans s1 s2 s3 :
  no_nul s1 → no_nul s2 → no_nul s3 →
  (lexc s1 s2 ≤ 0 → lexc s2 s3 ≤ 0 → lexc s1 s3 ≤ 0)%Z.
Proof.
  revert s2 s3. induction s1 as [|c1 s1 IH]; intros [|c2 s2] [|c3 s3] H1 H2 H3;
    inv H1; inv H2; inv H3; lexc_case.
  by apply IH.
Qed.

Lemma strcmp_lexc s1 s2 :
  Forall (λ c : Z, 0 < c)%Z s1 → Forall (λ c : Z, 0 < c)%Z s2 →
  (strcmp s1 s2 < 0 ↔ lexc s1 s2 < 0)%Z ∧ (0 < strcmp s1 s2 ↔ 0 < lexc s1 s2)%Z.
Proof.
  revert s2. induction s1 as [|c1 s1 IH]; intros [|c2 s2] H1 H2; inv H1; inv H2; lexc_case.
  by apply IH.
Qed.

Lemma nocase_lexc s1 s2 :
  nocase_loop s1 s2 = lexc (tolower ∘ schar <$> s1) (tolower ∘ schar <$> s2).
Proof.
  revert s2. induction s1 as [|c1 s1 IH]; intros [|c2 s2]; simpl; try done.
  case_bool_decide; [done|apply IH].
Qed.

Section string_contracts.
(** What the client's strings are: bytes other than NUL. *)
Context (str_at : value → list Z).
Context (str_ok : ∀ v, Forall (λ c : Z, 0 < c < 256)%Z (str_at v)).

Lemma str_pos v : Forall (λ c : Z, 0 < c)%Z (str_at v).
Proof. eapply Forall_impl; [apply str_ok|]. simpl. lia. Qed.
Lemma str_no_nul v : no_nul (str_at v).
Proof. eapply Forall_impl; [apply str_ok|]. simpl. lia. Qed.

Lemma nocase_key_range c :
  (0 < c < 256 → -128 ≤ tolower (schar c) < 128 ∧ tolower (schar c) ≠ 0)%Z.
Proof. rewrite /tolower /schar. repeat case_bool_decide; lia. Qed.

Lemma nocase_no_nul v : no_nul (tolower ∘ schar <$> str_at v).
Proof.
  apply Forall_fmap. eapply Forall_impl; [apply str_ok|].
  intros c Hc. by apply nocase_key_range.
Qed.

Lemma string_compare_lexc v w :
  string_compare str_at v w = lexc (str_at v) (str_at w).
Proof.
  rewrite /string_compare.
  destruct (strcmp_lexc (str_at v) (str_at w)) as [H1 H2]; [apply str_pos..|].
  assert (∀ s1 s2, lexc s1 s2 = -1 ∨ lexc s1 s2 = 0 ∨ lexc s1 s2 = 1)%Z as H3.
  { clear. induction s1 as [|c1 s1 IH]; intros [|c2 s2]; lexc_case; auto. }
  specialize (H3 (str_at v) (str_at w)). repeat case_bool_decide; lia.
Qed.

Lemma string_equal_iff v w : string_equal str_at v w ≠ 0%Z ↔ str_at v = str_at w.
Proof.
  rewrite /string_equal bool_to_nonzero.
  rewrite -(lexc_zero (str_at v) (str_at w)); [|apply str_no_nul..].
  destruct (strcmp_lexc (str_at v) (str_at w)); [apply str_pos..|]. lia.
Qed.

Global Instance string_compare_func : CompareFunc (string_compare str_at).
Proof.
  split; setoid_rewrite string_compare_lexc.
  - intros x y. apply lexc_antisym.
  - intros x y z. apply lexc_trans; apply str_no_nul.
Qed.

Global Instance string_nocase_compare_func : CompareFunc (string_nocase_compare str_at).
Proof.
  split; rewrite /string_nocase_compare; setoid_rewrite nocase_lexc.
  - intros x y. apply lexc_antisym.
  - intros x y z. apply lexc_trans; apply nocase_no_nul.
Qed.

Lemma djb2_step_range r c :
  (0 ≤ r < ULONG_MOD → 0 ≤ c < 256 → 0 ≤ djb2_step r c < ULONG_MOD)%Z.
Proof.
  intros Hr Hc. rewrite /djb2_step /ULONG_MOD in Hr *.
  assert (∀ a b, 0 ≤ a < 2 ^ 64 → 0 ≤ b < 2 ^ 64 → 0 ≤ Z.lxor a b < 2 ^ 64)%Z as Hx.
  { intros a b Ha Hb. split; [apply Z.lxor_nonneg; lia|].
    destruct (Z.eq_dec (Z.lxor a b) 0%Z) as [->|Hne]; [lia|].
    apply Z.log2_lt_pow2; [pose proof (proj2 (Z.lxor_nonneg a b)); lia|].
    eapply Z.le_lt_trans; [apply Z.log2_lxor; lia|].
    apply Z.max_lub_lt;
      (match goal with |- (Z.log2 ?z < _)%Z => destruct (Z.eq_dec z 0%Z) as [->|] end;
      [done|apply Z.log2_lt_pow2; lia]). }
  apply Hx; [|lia]. apply Hx; [|done]. apply (Z.mod_pos_bound _ ULONG_MOD). done.
Qed.

Lemma hash_fold_range (f : Z → Z) s :
  Forall (λ c, 0 ≤ f c < 256)%Z s →
  ∀ r, (0 ≤ r < ULONG_MOD)%Z →
  (0 ≤ foldl (λ result c, djb2_step result (f c)) r s < ULONG_MOD)%Z.
Proof.
  induction 1 as [|c s Hc _ IH]; simpl; intros r Hr; [done|].
  by apply IH, djb2_step_range.
Qed.

Global Instance string_hash_equal :
  HashEqual (string_hash str_at) (string_equal str_at).
Proof.
  apply (keyed_hash_equal str_at (foldl djb2_step 5381%Z)); [apply string_equal_iff|done|].
  intros x. apply (hash_fold_range id); [|done].
  eapply Forall_impl; [apply str_ok|]. simpl. lia.
Qed.

(** The hash lowers the unsigned byte, the comparison the signed one: the
    hash is a function of the comparison's key because lowering commutes with
    the conversion. *)
Lemma tolower_schar c :
  (0 < c < 256)%Z → tolower c = (tolower (schar c) mod 256)%Z.
Proof.
  intros Hc. rewrite /tolower /schar.
  repeat case_bool_decide; try lia.
  - by rewrite Z.mod_small; lia.
  - by rewrite Z.mod_small; lia.
  - rewrite -(Z.mod_add _ 1 256) //. rewrite Z.mod_small; lia.
Qed.

Global Instance string_nocase_hash_equal :
  HashEqual (string_nocase_hash str_at) (string_nocase_equal str_at).
Proof.
  apply (keyed_hash_equal (λ v, tolower ∘ schar <$> str_at v)
           (foldl (λ r k, djb2_step r (k mod 256)%Z) 5381%Z)).
  - intros x y. rewrite /string_nocase_equal bool_to_nonzero.
    rewrite /string_nocase_compare nocase_lexc. apply lexc_zero; apply nocase_no_nul.
  - intros x. rewrite /string_nocase_hash. generalize 5381%Z. specialize (str_ok x).
    induction str_ok as [|c s Hc _ IH]; intros r; simpl; [done|].
    by rewrite IH tolower_schar.
  - intros x. apply (hash_fold_range tolower); [|done].
    eapply Forall_impl; [apply str_ok|]. simpl. intros c Hc.
    rewrite /tolower. case_bool_decide; lia.
Qed.
End string_contracts.

(** The three case-insensitive string callbacks agree with one reference, the
    lexicographic order of the lowered strings: the comparison is that order, equality
    is equality of the lowered strings, and strings that are equal have equal hashes. *)
Theorem string_nocase_callbacks_agree (str_at : value → list Z) v w :
  (∀ v, Forall (λ c : Z, 0 < c < 256)%Z (str_at v)) →
  let lowered v := tolower ∘ schar <$> str_at v in
  string_nocase_compare str_at v w = lexc (lowered v) (lowered w) ∧
  (string_nocase_equal str_at v w ≠ 0%Z ↔ lowered v = lowered w) ∧
  (lowered v = lowered w → string_nocase_hash str_at v = string_nocase_hash str_at w).
Proof.
  intros Hok lowered.
  assert (string_nocase_equal str_at v w ≠ 0%Z ↔ lowered v = lowered w) as Heq.
  { rewrite /string_nocase_equal bool_to_nonzero /string_nocase_compare nocase_lexc.
    apply lexc_zero; by apply nocase_no_nul. }
  split; [apply nocase_lexc|]. split; [exact Heq|]. intros Hl%Heq.
  pose proof (string_nocase_hash_equal str_at Hok). by apply (hash_equal v w).
Qed.

Module Runs.
(** "aB" at address 1, "Ab" at every other one. *)
Definition two_strings (v : value) : list Z := if bool_decide (v = 1%Z) then [97; 66]%Z else [65; 98]%Z.

Lemma string_nocase_callbacks_agree_witness :
  string_nocase_equal two_strings 1 2 ≠ 0%Z ∧ string_nocase_hash two_strings 1 = string_nocase_hash two_strings 2.
Proof.
  destruct (string_nocase_callbacks_agree two_strings 1 2) as (_ & Heq & Hhash).
  { intros v. rewrite /two_strings. case_bool_decide; repeat constructor; lia. }
  split; [by apply Heq|by apply Hhash].
Defined.
End Runs.

(** ** One quicksort step, shared by the list and array sorts *)

(** Entries are locations with values; [lt]: the comparison puts the first
    value before the second. *)
Section quicksort.
Context {K : Type} (cmp : value → value → Z).
Implicit Types es : list (K * value).

Abbreviation before x := (λ e : K * value, cmp e.2 x < 0)%Z.

Definition sorted_by es : Prop := StronglySorted (cmp_le cmp) es.*2.

Lemma quicksort_perm k x es less more :
  less ≡ₚ filter (before x) es → more ≡ₚ filter (λ e, ¬ before x e) es →
  less ++ (k, x) :: more ≡ₚ (k, x) :: es.
Proof.
  intros -> ->. rewrite -Permutation_middle. f_equiv. apply filter_app_complement.
Qed.

Lemma quicksort_sorted k x es less more `{!CompareFunc cmp} :
  less ≡ₚ filter (before x) es → more ≡ₚ filter (λ e, ¬ before x e) es →
  sorted_by less → sorted_by more → sorted_by (less ++ (k, x) :: more).
Proof.
  intros Hl Hm Sl Sm. rewrite /sorted_by fmap_app /=.
  apply StronglySorted_pivot; [apply _|done|done|..];
    apply Forall_fmap, Forall_forall; intros e He; rewrite /cmp_le /=.
  - rewrite Hl in He. apply list_elem_of_filter in He as [??]. lia.
  - rewrite Hm in He. apply list_elem_of_filter in He as [He _]. simpl in He.
    apply cmp_flip_le; [done|]. lia.
Qed.

Lemma sorted_by_short es : length es ≤ 1 → sorted_by es.
Proof.
  rewrite /sorted_by. destruct es as [|e [|]]; simpl; [by repeat constructor..|lia].
Qed.
End quicksort.
