(* ===== verification/Chain.v ===== *)
(** * Chain: NULL-terminated chains of singly linked cells

    The entries of slist.c ([SListEntry]), of the chains of hash-table.c
    ([HashTableEntry]) and of set.c ([SetEntry]) are a payload and a [next]
    pointer.  This file holds that cell, the assertion [chain] that owns the
    cells of a chain, and the slots ([SListEntry **rover] in the sources)
    through which they are unlinked. *)
From stdpp Require Import base gmap list numbers.
From iris.proofmode Require Import proofmode.
From S2P Require Import Prelude Memory.

Record cell (A : Type) := Cell { c_data : A; c_next : ptr }.
Arguments Cell {A} _ _.
Arguments c_data {A} _.
Arguments c_next {A} _.

(** [p->data = a] and [p->next = q]. *)
Definition set_data {A} (a : A) (c : cell A) : cell A := Cell a (c_next c).
Definition set_next {A} (q : ptr) (c : cell A) : cell A := Cell (c_data c) q.

(** A place that holds a link: the variable that points at the first entry, or
    the [next] field of an entry.  [T **rover] ranges over these. *)
Inductive slot : Set :=
  | SHead
  | SNext (l : loc).

(** [*rover] and [*rover = p], the head variable being passed as [hd]. *)
Definition read_slot {A} (hd : ptr) (s : slot) : M (cell A) ptr :=
  match s with
  | SHead => mret hd
  | SNext l => c ← deref (Some l); mret (c_next c)
  end.
Definition write_slot {A} (hd : ptr) (s : slot) (p : ptr) : M (cell A) ptr :=
  match s with
  | SHead => mret p
  | SNext l => _ ← modify (Some l) (set_next p); mret hd
  end.

Section chain.
Context {A : Type}.
Implicit Types (es : list (loc * A)) (q : ptr).

(** The pointer to the first of [es], followed by [q]. *)
Definition start es q : ptr :=
  match es with
  | [] => q
  | (l, _) :: _ => Some l
  end.

(** [chain es q] owns the cells at the locations of [es], which hold the
    payloads of [es] and are linked in this order; the last points to [q]. *)
Fixpoint chain es q : hProp (cell A) :=
  match es with
  | [] => emp
  | (l, a) :: es' => l ↦ Cell a (start es' q) ∗ chain es' q
  end.

Lemma start_app es1 es2 q : start (es1 ++ es2) q = start es1 (start es2 q).
Proof. by destruct es1 as [|[l a]]. Qed.

Lemma chain_app es1 es2 q :
  chain (es1 ++ es2) q ⊣⊢ chain es1 (start es2 q) ∗ chain es2 q.
Proof.
  induction es1 as [|[l a] es1 IH]; simpl.
  - by rewrite left_id.
  - by rewrite IH start_app assoc.
Qed.

Lemma chain_snoc es l a q :
  chain (es ++ [(l, a)]) q ⊣⊢ chain es (Some l) ∗ l ↦ Cell a q.
Proof. by rewrite chain_app /= right_id. Qed.

Lemma start_snoc es l a q : is_Some (start (es ++ [(l, a)]) q).
Proof. destruct es as [|[l' a'] es]; by eexists. Qed.

Lemma start_None es q : start es q = NULL → es = [] ∧ q = NULL.
Proof. by destruct es as [|[l a] es]. Qed.

(** The pointer to the last of [es]. *)
Definition end_ptr es : ptr := fst <$> last es.

Lemma end_ptr_Some es : es ≠ [] → is_Some (end_ptr es).
Proof.
  intros Hes. destruct es as [|[l a] es _] using rev_ind; [done|].
  rewrite /end_ptr last_snoc. by eexists.
Qed.

(** [end->next = q'] on the last entry. *)
Lemma wp_set_end es q q' (Φ : unit → hProp (cell A)) :
  es ≠ [] →
  chain es q -∗ (chain es q' -∗ Φ tt) -∗ wp (modify (end_ptr es) (set_next q')) Φ.
Proof.
  iIntros (Hne) "H HΦ". destruct es as [|[l a] es _] using rev_ind; [done|].
  rewrite /end_ptr last_snoc !chain_snoc. iDestruct "H" as "[H Hl]". simpl.
  wp_store. iApply "HΦ". iFrame.
Qed.

Lemma chain_not_in es q l c : chain es q -∗ l ↦ c -∗ ⌜l ∉ es.*1⌝.
Proof.
  iIntros "Hes Hl". iInduction es as [|[l' a] es] "IH"; simpl.
  - iPureIntro. apply not_elem_of_nil.
  - iDestruct "Hes" as "[Hl' Hes]".
    iDestruct (pointsto_ne with "Hl Hl'") as %?.
    iDestruct ("IH" with "Hes Hl") as %?. iPureIntro. by apply not_elem_of_cons.
Qed.

Lemma chain_NoDup es q : chain es q -∗ ⌜NoDup es.*1⌝.
Proof.
  iIntros "Hes". iInduction es as [|[l a] es] "IH"; simpl.
  - iPureIntro. constructor.
  - iDestruct "Hes" as "[Hl Hes]".
    iDestruct (chain_not_in with "Hes Hl") as %?.
    iDestruct ("IH" with "Hes") as %?. iPureIntro. by constructor.
Qed.

(** Dropping the entry at one location from a list without repetitions. *)
Lemma filter_loc_split es1 l a es2 :
  NoDup (es1 ++ (l, a) :: es2).*1 →
  (l ∉ es1.*1) ∧ filter (λ e, Some e.1 ≠ Some l) (es1 ++ (l, a) :: es2) = es1 ++ es2.
Proof.
  rewrite fmap_app /=. intros (_ & Hd1 & [Hd2 _]%NoDup_cons)%NoDup_app.
  assert (l ∉ es1.*1) as Hd1' by (intros ?; eapply Hd1; [done|by left]).
  split; [done|]. rewrite filter_app filter_cons_False; [|simpl; tauto].
  rewrite !filter_true //; apply Forall_forall; intros e He [= ?]; subst;
    [destruct Hd2|destruct Hd1']; by apply list_elem_of_fmap_2.
Qed.

(** Run-time heaps that satisfy [chain], for the witnesses. *)
Fixpoint chain_cells es q : gmap loc (cell A) :=
  match es with
  | [] => ∅
  | (l, a) :: es' => <[l := Cell a (start es' q)]> (chain_cells es' q)
  end.

Lemma chain_cells_dom es q l : l ∉ es.*1 → chain_cells es q !! l = None.
Proof.
  induction es as [|[l' a] es IH]; simpl; [done|].
  intros [? ?]%not_elem_of_cons. rewrite lookup_insert_ne //. by apply IH.
Qed.

Lemma holds_chain es q : NoDup es.*1 → holds (chain es q) (chain_cells es q).
Proof.
  induction es as [|[l a] es IH]; simpl; [done|].
  intros [??]%NoDup_cons. apply holds_sep. eexists {[l := _]}, (chain_cells es q).
  split_and!; [|..|by apply IH].
  - by rewrite -insert_union_singleton_l.
  - by apply map_disjoint_singleton_l_2, chain_cells_dom.
  - done.
Qed.

Lemma holds_chain_run es q :
  bool_decide (NoDup es.*1) = true → holds (chain es q) (chain_cells es q).
Proof. intros ?%bool_decide_eq_true. by apply holds_chain. Qed.
End chain.

(** Positions of a chain and the slots that lead to them. *)
Section slots.
Context {A : Type}.
Implicit Types (es : list (loc * A)) (q : ptr).

(** The slot that points at what follows [pre]. *)
Definition slot_after (pre : list (loc * A)) : slot :=
  match last pre with
  | None => SHead
  | Some (l, _) => SNext l
  end.

Lemma slot_after_nil : slot_after [] = SHead.
Proof. done. Qed.
Lemma slot_after_snoc pre l a : slot_after (pre ++ [(l, a)]) = SNext l.
Proof. by rewrite /slot_after last_snoc. Qed.

Lemma wp_read_slot pre q (Φ : ptr → hProp (cell A)) :
  chain pre q -∗ (chain pre q -∗ Φ q) -∗
  wp (read_slot (start pre q) (slot_after pre)) Φ.
Proof.
  iIntros "H HΦ". destruct pre as [|[l a] pre _] using rev_ind.
  - iApply wp_ret. by iApply "HΦ".
  - rewrite slot_after_snoc chain_snoc. iDestruct "H" as "[H Hl]". simpl.
    wp_load. iApply wp_ret. iApply "HΦ". iFrame.
Qed.

Lemma wp_write_slot pre q q' (Φ : ptr → hProp (cell A)) :
  chain pre q -∗ (chain pre q' -∗ Φ (start pre q')) -∗
  wp (write_slot (start pre q) (slot_after pre) q') Φ.
Proof.
  iIntros "H HΦ". destruct pre as [|[l a] pre _] using rev_ind.
  - iApply wp_ret. by iApply "HΦ".
  - rewrite slot_after_snoc chain_snoc. iDestruct "H" as "[H Hl]". simpl.
    wp_store. iApply wp_ret. rewrite chain_snoc !start_app. iApply "HΦ". iFrame.
Qed.
End slots.
