(* ===== verification/SList.v ===== *)
(** * SList: the singly linked list of slist.c

    Operations on [SListEntry *] values, one definition per function; an
    argument [SListEntry **list] is the pair of an argument (the head before)
    and a result (the head after).  [slist es] owns a list whose entries sit at
    the locations and hold the values of [es]. *)
From stdpp Require Import base gmap list numbers sorting.
From iris.proofmode Require Import proofmode.
From S2P Require Import Prelude Memory Compare Chain.

Abbreviation SListEntry := (cell value).

Record SListIterator := { prev_next : slot; current : ptr }.

Section slist_c.
Context `{Allocator SListEntry}.
Context (fuel : nat).

Definition slist_free (list : ptr) : M SListEntry unit :=
  loop fuel (λ entry : ptr,
    match entry with
    | NULL => mret (inr tt)
    | Some _ =>
        e ← deref entry;
        let next := c_next e in
        _ ← free entry;
        mret (inl next)
    end) list.

Definition slist_prepend (list : ptr) (data : value) : M SListEntry (ptr * ptr) :=
  newentry ← malloc;
  match newentry with
  | NULL => mret (NULL, list)
  | Some _ =>
      _ ← modify newentry (set_data data);
      _ ← modify newentry (set_next list);
      mret (newentry, newentry)
  end.

(** [for (rover=*list; rover->next != NULL; rover = rover->next);] *)
Definition slist_last_entry (list : ptr) : M SListEntry ptr :=
  loop fuel (λ rover : ptr,
    e ← deref rover;
    match c_next e with
    | NULL => mret (inr rover)
    | Some _ => mret (inl (c_next e))
    end) list.

Definition slist_append (list : ptr) (data : value) : M SListEntry (ptr * ptr) :=
  newentry ← malloc;
  match newentry with
  | NULL => mret (NULL, list)
  | Some _ =>
      _ ← modify newentry (set_data data);
      _ ← modify newentry (set_next NULL);
      match list with
      | NULL => mret (newentry, newentry)
      | Some _ =>
          rover ← slist_last_entry list;
          _ ← modify rover (set_next newentry);
          mret (newentry, list)
      end
  end.

Definition slist_data (listentry : ptr) : M SListEntry value :=
  e ← deref listentry; mret (c_data e).

Definition slist_next (listentry : ptr) : M SListEntry ptr :=
  e ← deref listentry; mret (c_next e).

(** [for (i=0; i<n; ++i)] *)
Definition slist_nth_loop (n : Z) : Z * ptr → M SListEntry ptr :=
  loop fuel (λ '(i, entry),
    if bool_decide (i < n)%Z then
      match entry with
      | NULL => mret (inr NULL)
      | Some _ => e ← deref entry; mret (inl ((i + 1)%Z, c_next e))
      end
    else mret (inr entry)).

Definition slist_nth_entry (list : ptr) (n : Z) : M SListEntry ptr :=
  if bool_decide (n < 0)%Z then mret NULL
  else slist_nth_loop n (0%Z, list).

Definition slist_nth_data (list : ptr) (n : Z) : M SListEntry value :=
  entry ← slist_nth_entry list n;
  match entry with
  | NULL => mret VNULL
  | Some _ => e ← deref entry; mret (c_data e)
  end.

(** [while (entry != NULL)] *)
Definition slist_length_loop : Z * ptr → M SListEntry Z :=
  loop fuel (λ '(length, entry),
    match entry with
    | NULL => mret (inr length)
    | Some _ =>
        length' ← chk (length + 1)%Z;
        e ← deref entry;
        mret (inl (length', c_next e))
    end).

Definition slist_length (list : ptr) : M SListEntry Z :=
  slist_length_loop (0%Z, list).

(** [for (i=0; i<listlen; ++i)] *)
Definition slist_copy_loop (n : nat) (i : Z) : array value * ptr → M SListEntry (array value * ptr) :=
  for_loop n i (λ i '(array, rover),
    e ← deref rover;
    array' ← aset array i (Some (c_data e));
    mret (array', c_next e)).

(** The array is [None] when it could not be allocated. *)
Definition slist_to_array (list : ptr) : M SListEntry (option (array value)) :=
  listlen ← slist_length list;
  granted ← malloc_array;
  if negb granted then mret None
  else
    '(array, _) ← slist_copy_loop (Z.to_nat listlen) 0%Z
                    (replicate (Z.to_nat listlen) None, list);
    mret (Some array).

(** [while (rover != NULL && rover->next != entry)] *)
Definition slist_pred_loop (entry : ptr) : ptr → M SListEntry ptr :=
  loop fuel (λ rover : ptr,
    match rover with
    | NULL => mret (inr NULL)
    | Some _ =>
        r ← deref rover;
        if bool_decide (c_next r ≠ entry) then mret (inl (c_next r))
        else mret (inr rover)
    end).

Definition slist_remove_entry (list entry : ptr) : M SListEntry (Z * ptr) :=
  match list, entry with
  | NULL, _ | _, NULL => mret (0%Z, list)
  | Some _, Some _ =>
      r ← (if bool_decide (list = entry) then
             e ← deref entry; mret (Some (c_next e))
           else
             rover ← slist_pred_loop entry list;
             match rover with
             | NULL => mret None
             | Some _ =>
                 e ← deref entry;
                 _ ← modify rover (set_next (c_next e));
                 mret (Some list)
             end);
      match r with
      | None => mret (0%Z, list)
      | Some list' => _ ← free entry; mret (1%Z, list')
      end
  end.

(** [while ( *rover != NULL)]; the state is the count, the head variable and
    the slot [rover]. *)
Definition slist_remove_loop (callback : value → value → Z) (data : value) :
    Z * ptr * slot → M SListEntry (Z * ptr) :=
  loop fuel (λ '(entries_removed, list, rover),
    entry ← read_slot list rover;
    match entry with
    | NULL => mret (inr (entries_removed, list))
    | Some l =>
        e ← deref entry;
        if bool_decide (callback (c_data e) data ≠ 0%Z) then
          let next := c_next e in
          _ ← free entry;
          list' ← write_slot list rover next;
          entries_removed' ← chk (entries_removed + 1)%Z;
          mret (inl (entries_removed', list', rover))
        else mret (inl (entries_removed, list, SNext l))
    end).

Definition slist_remove_data (list : ptr) (callback : value → value → Z)
    (data : value) : M SListEntry (Z * ptr) :=
  slist_remove_loop callback data (0%Z, list, SHead).

Definition slist_find_data (list : ptr) (callback : value → value → Z)
    (data : value) : M SListEntry ptr :=
  loop fuel (λ rover : ptr,
    match rover with
    | NULL => mret (inr NULL)
    | Some _ =>
        e ← deref rover;
        if bool_decide (callback (c_data e) data ≠ 0%Z) then mret (inr rover)
        else mret (inl (c_next e))
    end) list.
End slist_c.

(** The partition loop of [slist_sort_internal]; the state is [rover] and the
    two lists, each entry being pushed on the front of one of them. *)
Definition slist_partition (fuel : nat) (compare_func : value → value → Z) (pivot : ptr) :
    ptr * ptr * ptr → M SListEntry (ptr * ptr) :=
  loop fuel (λ '(rover, less_list, more_list),
    match rover with
    | NULL => mret (inr (less_list, more_list))
    | Some _ =>
        r ← deref rover;
        let next := c_next r in
        p ← deref pivot;
        if bool_decide (compare_func (c_data r) (c_data p) < 0)%Z then
          _ ← modify rover (set_next less_list);
          mret (inl (next, rover, more_list))
        else
          _ ← modify rover (set_next more_list);
          mret (inl (next, less_list, rover))
    end).

(** [slist_sort_internal]: the last entry and the new head.  The recursion is
    on [fuel], which also bounds the partition loop. *)
Fixpoint slist_sort_internal (fuel : nat) (compare_func : value → value → Z)
    (list : ptr) {struct fuel} : M SListEntry (ptr * ptr) :=
  match fuel with
  | O => fail OutOfFuel
  | S fuel =>
      match list with
      | NULL => mret (NULL, NULL)
      | Some _ =>
          pivot_e ← deref list;
          match c_next pivot_e with
          | NULL => mret (list, list)
          | Some _ =>
              let pivot := list in
              '(less_list, more_list) ←
                slist_partition fuel compare_func pivot (c_next pivot_e, NULL, NULL);
              '(less_list_end, less_list) ← slist_sort_internal fuel compare_func less_list;
              '(more_list_end, more_list) ← slist_sort_internal fuel compare_func more_list;
              list ← match less_list with
                     | NULL => mret pivot
                     | Some _ => _ ← modify less_list_end (set_next pivot); mret less_list
                     end;
              _ ← modify pivot (set_next more_list);
              match more_list with
              | NULL => mret (pivot, list)
              | Some _ => mret (more_list_end, list)
              end
          end
      end
  end.

Definition slist_sort (fuel : nat) (list : ptr) (compare_func : value → value → Z) :
    M SListEntry ptr :=
  '(_, list) ← slist_sort_internal fuel compare_func list;
  mret list.

(** *** Iterators; [list] is the head variable the iterator points into. *)

Definition slist_iterate (list : ptr) : SListIterator :=
  {| prev_next := SHead; current := NULL |}.

(** [iter->current == NULL || iter->current != *iter->prev_next] *)
Definition slist_iter_moved (list : ptr) (iter : SListIterator) : M SListEntry bool :=
  match current iter with
  | NULL => mret true
  | Some _ => p ← read_slot list (prev_next iter); mret (bool_decide (current iter ≠ p))
  end.

Definition slist_iter_has_more (list : ptr) (iter : SListIterator) : M SListEntry bool :=
  moved ← slist_iter_moved list iter;
  if moved : bool then
    p ← read_slot list (prev_next iter); mret (bool_decide (p ≠ NULL))
  else
    e ← deref (current iter); mret (bool_decide (c_next e ≠ NULL)).

Definition slist_iter_next (list : ptr) (iter : SListIterator) :
    M SListEntry (value * SListIterator) :=
  moved ← slist_iter_moved list iter;
  iter ← (if moved : bool then
            p ← read_slot list (prev_next iter);
            mret {| prev_next := prev_next iter; current := p |}
          else
            e ← deref (current iter);
            match current iter with
            | NULL => fail NullDeref
            | Some l => mret {| prev_next := SNext l; current := c_next e |}
            end);
  match current iter with
  | NULL => mret (VNULL, iter)
  | Some _ => e ← deref (current iter); mret (c_data e, iter)
  end.

Definition slist_iter_remove (list : ptr) (iter : SListIterator) :
    M SListEntry (ptr * SListIterator) :=
  moved ← slist_iter_moved list iter;
  if moved : bool then mret (list, iter)
  else
    e ← deref (current iter);
    list ← write_slot list (prev_next iter) (c_next e);
    _ ← free (current iter);
    mret (list, {| prev_next := prev_next iter; current := NULL |}).

(** ** Correctness *)

Section basic.
Context `{Allocator SListEntry}.
Implicit Types es : list (loc * value).

Lemma slist_free_spec fuel es :
  length es < fuel →
  {{ chain es NULL }} slist_free fuel (start es NULL) {{ _, emp }}.
Proof.
  intros Hf. apply triple_wp. revert fuel Hf.
  induction es as [|[l a] es IH]; simpl; intros [|fuel] Hf; try lia;
    iIntros "H"; rewrite /slist_free; wp_loop; wp_pures; [done|].
  iDestruct "H" as "[Hl H]". wp_load. wp_free. wp_pures.
  iApply IH; [lia|done].
Qed.

Lemma slist_prepend_spec es data :
  {{ chain es NULL }} slist_prepend (start es NULL) data {{ '(newentry, list'),
    match newentry with
    | NULL => ⌈ can_fail ∧ list' = start es NULL ⌉ ∗ chain es NULL
    | Some l => ⌈ list' = Some l ⌉ ∗ chain ((l, data) :: es) NULL
    end }}.
Proof.
  apply triple_wp. iIntros "H". rewrite /slist_prepend.
  wp_malloc l as "Hl".
  - wp_store. wp_store. wp_pures. ipure.
  - wp_pures. ipure.
Qed.

Lemma slist_last_entry_spec fuel es l a :
  length es < fuel →
  {{ chain (es ++ [(l, a)]) NULL }} slist_last_entry fuel (start (es ++ [(l, a)]) NULL)
  {{ r, ⌈ r = Some l ⌉ ∗ chain (es ++ [(l, a)]) NULL }}.
Proof.
  revert fuel.
  induction es as [|[l' a'] es IH]; simpl; intros [|fuel] Hf; try lia;
    apply triple_wp; iIntros "[Hl H]"; rewrite /slist_last_entry; wp_loop; wp_load.
  - wp_pures. ipure.
  - destruct (start_snoc es l a NULL) as [p Hp]. rewrite Hp. wp_pures. rewrite -Hp.
    wp_call IH with "H". iIntros (r) "[-> H]". ipure.
Qed.

(** [slist_append] puts the new entry behind the last one; it fails only if
    the allocation is refused, and then changes nothing. *)
Theorem slist_append_correct fuel es data :
  length es < fuel →
  {{ chain es NULL }} slist_append fuel (start es NULL) data {{ '(newentry, list'),
    match newentry with
    | NULL => ⌈ can_fail ∧ list' = start es NULL ⌉ ∗ chain es NULL
    | Some l => ⌈ list' = start (es ++ [(l, data)]) NULL ⌉ ∗
                chain (es ++ [(l, data)]) NULL
    end }}.
Proof.
  intros Hf. apply triple_wp. iIntros "H". rewrite /slist_append.
  wp_malloc l as "Hl"; [|wp_pures; ipure].
  wp_store. wp_store.
  destruct es as [|[l' a'] es _] using rev_ind; simpl; [wp_pures; ipure|].
  destruct (start_snoc es l' a' NULL) as [p Hp]. rewrite Hp. simpl. rewrite -Hp.
  rewrite length_app /= in Hf.
  wp_call slist_last_entry_spec with "H".
  iIntros (r) "[-> H]". iEval (rewrite chain_snoc) in "H".
  iDestruct "H" as "[H Hl']".
  wp_store. wp_pures. rewrite -assoc chain_app /= !start_app /=. ipure.
Qed.
End basic.

Section queries.
Context `{Allocator SListEntry}.
Implicit Types es : list (loc * value).

Lemma slist_nth_loop_spec fuel es n i :
  length es < fuel → (0 ≤ i ≤ n)%Z →
  {{ chain es NULL }} slist_nth_loop fuel n (i, start es NULL) {{ r,
    ⌈ r = fst <$> es !! Z.to_nat (n - i) ⌉ ∗ chain es NULL }}.
Proof.
  revert fuel i. induction es as [|[l a] es IH]; intros [|fuel] i Hf Hi;
    simpl in Hf; try lia; apply triple_wp; iIntros "H";
    rewrite /slist_nth_loop; wp_loop; case_bool_decide.
  - wp_pures. ipure.
  - wp_pures. ipure.
  - iDestruct "H" as "[Hl H]". wp_load. wp_pures. wp_call IH with "H".
    iIntros (r) "[-> H]". iFrame. iPureIntro.
    by replace (Z.to_nat (n - i)) with (S (Z.to_nat (n - (i + 1)))) by lia.
  - wp_pures. iFrame. iPureIntro. by replace (Z.to_nat (n - i)) with 0 by lia.
Qed.

(** [slist_nth_data]: the value at position [n], the null value out of range. *)
Theorem slist_nth_data_correct fuel es n :
  length es < fuel →
  {{ chain es NULL }} slist_nth_data fuel (start es NULL) n {{ r,
    ⌈ r = if bool_decide (n < 0)%Z then VNULL else default VNULL (es.*2 !! Z.to_nat n) ⌉ ∗
    chain es NULL }}.
Proof.
  intros Hf. apply triple_wp. iIntros "H". rewrite /slist_nth_data /slist_nth_entry.
  case_bool_decide; [wp_pures; ipure|].
  wp_call slist_nth_loop_spec with "H". iIntros (r) "[-> H]".
  rewrite Z.sub_0_r list_lookup_fmap. destruct (es !! Z.to_nat n) as [[l a]|] eqn:Hn; simpl; [|wp_pures; ipure].
  apply list_elem_of_split_length in Hn as (es1 & es2 & -> & _).
  iEval (rewrite chain_app /=) in "H". iDestruct "H" as "(H1 & Hl & H2)".
  wp_load. wp_pures. rewrite chain_app /=. ipure.
Qed.

Lemma slist_length_spec fuel es k :
  length es < fuel → (0 ≤ k)%Z → (k + length es ≤ INT_MAX)%Z →
  {{ chain es NULL }} slist_length_loop fuel (k, start es NULL) {{ r,
    ⌈ r = (k + length es)%Z ⌉ ∗ chain es NULL }}.
Proof.
  revert fuel k. induction es as [|[l a] es IH]; intros [|fuel] k Hf Hk Hmax;
    simpl in Hf, Hmax; try lia; apply triple_wp; iIntros "H";
    rewrite /slist_length_loop; wp_loop; wp_pures; [ipure|].
  iDestruct "H" as "[Hl H]". wp_chk. wp_load. wp_pures.
  wp_call IH with "H". iIntros (r) "[-> H]". ipure.
Qed.

Lemma slist_copy_loop_spec es done :
  {{ chain es NULL }} slist_copy_loop (length es) (length done)
      ((Some <$> done) ++ replicate (length es) None, start es NULL)
  {{ r, ⌈ r.1 = Some <$> done ++ es.*2 ⌉ ∗ chain es NULL }}.
Proof.
  revert done. induction es as [|[l a] es IH]; intros done; apply triple_wp;
    iIntros "H"; rewrite /slist_copy_loop; simpl.
  - wp_pures. rewrite !right_id_L. ipure.
  - iDestruct "H" as "[Hl H]". wp_load. wp_bind. iApply wp_aset.
    { rewrite length_app length_fmap /=. lia. }
    rewrite Nat2Z.id insert_app_r_alt ?length_fmap // Nat.sub_diag. wp_pures.
    specialize (IH (done ++ [a])). rewrite length_app fmap_app -assoc_L in IH.
    replace (length done + length [a])%nat with (length done + 1)%nat in IH by done.
    rewrite Nat2Z.inj_add in IH.
    wp_call IH with "H". iIntros (r) "[%Hr H]". iFrame. iPureIntro.
    rewrite Hr. by rewrite -assoc_L.
Qed.

(** [slist_to_array] copies the values in list order and initialises every
    cell of the array. *)
Theorem slist_to_array_correct fuel es :
  length es < fuel → (length es ≤ INT_MAX)%Z →
  {{ chain es NULL }} slist_to_array fuel (start es NULL) {{ r,
    ⌈ match r with None => can_fail | Some array => array = Some <$> es.*2 end ⌉ ∗
    chain es NULL }}.
Proof.
  intros Hf Hmax. apply triple_wp. iIntros "H". rewrite /slist_to_array /slist_length.
  wp_call slist_length_spec with "H". iIntros (n) "[-> H]". rewrite Z.add_0_l Nat2Z.id.
  wp_malloc_array; [|wp_pures; ipure].
  wp_call (slist_copy_loop_spec es []) with "H".
  iIntros ([array rover]) "[%Ha H]". simpl in Ha. wp_pures. ipure.
Qed.
End queries.

Section removal.
Context `{Allocator SListEntry}.
Implicit Types es : list (loc * value).

(** The loop stops at the predecessor of [entry], or at NULL. *)
Lemma slist_pred_loop_spec fuel es l0 a0 l :
  length es < fuel → l ∉ es.*1 →
  {{ chain ((l0, a0) :: es) (Some l) }} slist_pred_loop fuel (Some l) (Some l0) {{ r,
    ⌈ r = end_ptr ((l0, a0) :: es) ⌉ ∗ chain ((l0, a0) :: es) (Some l) }}.
Proof.
  revert fuel l0 a0. induction es as [|[l1 a1] es IH]; intros [|fuel] l0 a0 Hf Hl;
    simpl in Hf; try lia; apply triple_wp; iIntros "[Hl0 H]";
    rewrite /slist_pred_loop; wp_loop; wp_load.
  - rewrite bool_decide_eq_false_2; [|tauto]. wp_pures. ipure.
  - apply not_elem_of_cons in Hl as [Hne Hl]. simpl in Hne.
    rewrite bool_decide_eq_true_2; [|naive_solver]. wp_pures.
    wp_call IH with "H". iIntros (r) "[-> H]". ipure.
Qed.

Lemma slist_pred_loop_none fuel es l :
  length es < fuel → l ∉ es.*1 →
  {{ chain es NULL }} slist_pred_loop fuel (Some l) (start es NULL) {{ r,
    ⌈ r = NULL ⌉ ∗ chain es NULL }}.
Proof.
  revert fuel. induction es as [|[l0 a0] es IH]; intros [|fuel] Hf Hl;
    simpl in Hf; try lia; apply triple_wp; iIntros "H";
    rewrite /slist_pred_loop; wp_loop; [wp_pures; ipure|].
  iDestruct "H" as "[Hl0 H]". wp_load. apply not_elem_of_cons in Hl as [Hne Hl].
  rewrite bool_decide_eq_true_2.
  - wp_pures. wp_call IH with "H". iIntros (r) "[-> H]". ipure.
  - destruct es as [|[l1 a1] es]; simpl; [done|]. set_solver.
Qed.

(** [slist_remove_entry] unlinks and frees exactly the given entry, the head
    included, and reports failure without a change when it is not in the
    list. *)
Theorem slist_remove_entry_correct fuel es entry :
  length es < fuel →
  {{ chain es NULL }} slist_remove_entry fuel (start es NULL) entry {{ '(r, list'),
    ⌈ r = if bool_decide (entry ∈ Some <$> es.*1) then 1%Z else 0%Z ⌉ ∗
    ⌈ list' = start (filter (λ e, Some e.1 ≠ entry) es) NULL ⌉ ∗
    chain (filter (λ e, Some e.1 ≠ entry) es) NULL }}.
Proof.
  intros Hf. apply triple_wp. iIntros "H".
  iDestruct (chain_NoDup with "H") as %Hnd. rewrite /slist_remove_entry.
  destruct entry as [l|]; last first.
  { rewrite bool_decide_eq_false_2; [|by intros (? & ? & _)%list_elem_of_fmap].
    rewrite filter_true; [|by apply Forall_true].
    destruct (start es NULL); wp_pures; ipure. }
  destruct (decide (l ∈ es.*1)) as [Hin|Hout].
  - rewrite (bool_decide_eq_true_2 (Some l ∈ _)); [|by apply list_elem_of_fmap_2].
    apply list_elem_of_fmap in Hin as ([l' a] & ? & Hin); simplify_eq/=.
    apply list_elem_of_split in Hin as (es1 & es2 & ->).
    apply filter_loc_split in Hnd as [Hd ->].
    iEval (rewrite chain_app /=) in "H". iDestruct "H" as "(H1 & Hl & H2)".
    destruct es1 as [|[l0 a0] es1]; simpl.
    + rewrite bool_decide_eq_true_2 //. wp_load. wp_pures. wp_free. wp_pures. ipure.
    + apply not_elem_of_cons in Hd as [Hne Hd]. simpl in Hne.
      rewrite bool_decide_eq_false_2; [|naive_solver].
      rewrite length_app /= in Hf.
      wp_call slist_pred_loop_spec with "H1".
      iIntros (r) "[-> H1]".
      destruct (end_ptr_Some ((l0, a0) :: es1)) as [le Hle]; [done|].
      rewrite Hle. wp_load. rewrite -Hle. wp_bind.
      iApply (wp_set_end ((l0, a0) :: es1) with "H1"); [done|]. iIntros "H1". wp_pures.
      wp_free. wp_pures. rewrite chain_app start_app. iDestruct "H1" as "[? ?]". ipure.
  - rewrite (bool_decide_eq_false_2 (Some l ∈ _)); last first.
    { by intros (l' & ? & ?)%list_elem_of_fmap; simplify_eq. }
    rewrite filter_true; last first.
    { apply Forall_forall. intros e He [= ?]; subst. apply Hout.
      by apply list_elem_of_fmap_2. }
    destruct es as [|[l0 a0] es]; simpl; [wp_pures; ipure|].
    rewrite bool_decide_eq_false_2; [|set_solver].
    wp_call (slist_pred_loop_none _ ((l0, a0) :: es)) with "H".
    iIntros (r) "[-> H]". wp_pures. ipure.
Qed.

Lemma slist_remove_loop_spec fuel callback data pre es k :
  length es < fuel → (0 ≤ k)%Z → (k + length es ≤ INT_MAX)%Z →
  {{ chain pre (start es NULL) ∗ chain es NULL }}
    slist_remove_loop fuel callback data
      (k, start pre (start es NULL), slot_after pre)
  {{ '(removed, list'), let es' := pre ++ filter (λ e, callback e.2 data = 0%Z) es in
    ⌈ removed = (k + length (filter (λ e, callback e.2 data ≠ 0%Z) es))%Z ⌉ ∗
    ⌈ list' = start es' NULL ⌉ ∗ chain es' NULL }}.
Proof.
  revert fuel pre k. induction es as [|[l a] es IH]; intros [|fuel] pre k Hf Hk Hmax;
    simpl in Hf, Hmax; try lia; apply triple_wp; iIntros "[Hpre H]";
    rewrite /slist_remove_loop; wp_loop; iApply (wp_read_slot with "Hpre");
    iIntros "Hpre"; simpl.
  - wp_pures. rewrite !right_id_L. ipure.
  - iDestruct "H" as "[Hl H]". wp_load. case_bool_decide as Hcb.
    + wp_free. wp_bind. iApply (wp_write_slot with "Hpre"). iIntros "Hpre". wp_chk.
      wp_pures. filter_case.
      iApply (triple_use with "[Hpre H]"); [apply IH; lia|by iFrame|].
      iIntros ([r list']) "(-> & -> & H)". ipure.
    + wp_pures. filter_case.
      specialize (IH fuel (pre ++ [(l, a)]) k).
      rewrite slot_after_snoc start_app /= -assoc_L in IH.
      iApply (triple_use with "[Hpre H Hl]"); [apply IH; lia| |].
      * rewrite chain_snoc. iFrame.
      * iIntros ([r list']) "(-> & -> & H)". ipure.
Qed.

(** [slist_remove_data] unlinks and frees exactly the entries whose value the
    callback accepts and returns their number. *)
Theorem slist_remove_data_correct fuel callback es data :
  length es < fuel → (length es ≤ INT_MAX)%Z →
  {{ chain es NULL }} slist_remove_data fuel (start es NULL) callback data
  {{ '(removed, list'), let es' := filter (λ e, callback e.2 data = 0%Z) es in
    ⌈ removed = length (filter (λ e, callback e.2 data ≠ 0%Z) es) ⌉ ∗
    ⌈ list' = start es' NULL ⌉ ∗ chain es' NULL }}.
Proof.
  intros Hf Hmax. apply triple_wp. iIntros "H".
  iApply (triple_use with "[H]"); [apply (slist_remove_loop_spec _ _ _ [] es 0); lia| |].
  - simpl. by iFrame.
  - iIntros ([r list']) "(-> & -> & H)". rewrite Z.add_0_l. ipure.
Qed.

(** [slist_find_data] returns the first entry whose value is accepted. *)
Lemma slist_find_data_spec fuel callback es data :
  length es < fuel →
  {{ chain es NULL }} slist_find_data fuel (start es NULL) callback data {{ r,
    ⌈ r = fst <$> head (filter (λ e, callback e.2 data ≠ 0%Z) es) ⌉ ∗ chain es NULL }}.
Proof.
  revert fuel. induction es as [|[l a] es IH]; intros [|fuel] Hf; simpl in Hf; try lia;
    apply triple_wp; iIntros "H"; rewrite /slist_find_data; wp_loop; [wp_pures; ipure|].
  iDestruct "H" as "[Hl H]". wp_load. case_bool_decide; wp_pures.
  - filter_case. ipure.
  - filter_case. wp_call IH with "H". iIntros (r) "[-> H]". ipure.
Qed.
End removal.

Section sort.
Implicit Types es : list (loc * value).

Lemma slist_partition_spec fuel cmp lp ap q es less more :
  length es < fuel →
  let less' := reverse (filter (λ e, cmp e.2 ap < 0)%Z es) ++ less in
  let more' := reverse (filter (λ e, ¬ cmp e.2 ap < 0)%Z es) ++ more in
  {{ lp ↦ Cell ap q ∗ chain es NULL ∗ chain less NULL ∗ chain more NULL }}
    slist_partition fuel cmp (Some lp) (start es NULL, start less NULL, start more NULL)
  {{ '(pl, pm), ⌈ pl = start less' NULL ⌉ ∗ ⌈ pm = start more' NULL ⌉ ∗
     lp ↦ Cell ap q ∗ chain less' NULL ∗ chain more' NULL }}.
Proof.
  revert fuel less more. induction es as [|[l a] es IH]; intros [|fuel] less more Hf;
    simpl in Hf; try lia; apply triple_wp; iIntros "(Hp & H & Hless & Hmore)";
    rewrite /slist_partition; wp_loop; [wp_pures; ipure|].
  iDestruct "H" as "[Hl H]". wp_load. wp_load. case_bool_decide; wp_store; wp_pures;
    filter_case; rewrite reverse_cons -assoc_L.
  - iApply (triple_use with "[-]");
      [apply (IH fuel ((l, a) :: less) more); lia|by iFrame|].
    iIntros ([pl pm]) "(-> & -> & $ & $ & $)". ipure.
  - iApply (triple_use with "[-]");
      [apply (IH fuel less ((l, a) :: more)); lia|by iFrame|].
    iIntros ([pl pm]) "(-> & -> & $ & $ & $)". ipure.
Qed.

Lemma slist_sort_internal_spec fuel cmp es :
  length es < fuel →
  {{ chain es NULL }} slist_sort_internal fuel cmp (start es NULL) {{ '(e, p),
    ∃ es', ⌈ e = end_ptr es' ⌉ ∗ ⌈ p = start es' NULL ⌉ ∗ ⌈ es' ≡ₚ es ⌉ ∗
           ⌈ CompareFunc cmp → sorted_by cmp es' ⌉ ∗ chain es' NULL }}.
Proof.
  revert es. induction fuel as [|fuel IH]; intros es Hf; [lia|].
  apply triple_wp. iIntros "H". destruct es as [|[lp ap] es]; simpl.
  { wp_pures. iExists []. iFrame. iPureIntro. split_and!; [done..|].
    intros _. by apply sorted_by_short; simpl; lia. }
  simpl in Hf. iDestruct "H" as "[Hp H]". wp_load.
  destruct es as [|[l a] es]; simpl.
  { wp_pures. iExists [(lp, ap)]. iFrame. iPureIntro. split_and!; [done..|].
    intros _. by apply sorted_by_short; simpl; lia. }
  wp_bind. iApply (triple_use with "[Hp H]");
    [eapply (slist_partition_spec _ cmp lp ap _ ((l, a) :: es) [] []); simpl in *; lia
    |simpl; by iFrame|].
  set (es0 := (l, a) :: es) in *. rewrite !right_id_L.
  iIntros ([pl pm]) "(-> & -> & Hp & Hless & Hmore)".
  set (less := filter _ es0). set (more := filter _ es0).
  assert (length less ≤ length es0 ∧ length more ≤ length es0) as [Hll Hlm].
  { split; apply length_filter. }
  wp_call IH with "Hless"; [rewrite length_reverse; lia|].
  iIntros ([le pl]) "(%less' & -> & -> & %Hpl & %Hsl & Hless)".
  wp_call IH with "Hmore"; [rewrite length_reverse; lia|].
  iIntros ([me pm]) "(%more' & -> & -> & %Hpm & %Hsm & Hmore)".
  rewrite reverse_Permutation in Hpl. rewrite reverse_Permutation in Hpm.
  set (res := less' ++ (lp, ap) :: more').
  wp_bind. iApply (wp_wand _ (λ p, ⌈ p = start res NULL ⌉ ∗ chain less' (Some lp))%I
                     with "[Hless]").
  { destruct less' as [|[l' a'] less']; simpl; [wp_pures; by iFrame|].
    wp_bind. iApply (wp_set_end ((l', a') :: less') with "Hless"); [done|].
    iIntros "Hless". wp_pures. by iFrame. }
  iIntros (p) "[-> Hless]". wp_store. wp_pures.
  iAssert (chain res NULL) with "[Hless Hp Hmore]" as "H".
  { rewrite /res chain_app /=. iFrame. }
  assert (end_ptr res = match start more' NULL with NULL => Some lp | _ => end_ptr more' end) as He.
  { rewrite /res /end_ptr. destruct more' as [|[l' a'] more' _] using rev_ind; simpl.
    - by rewrite last_snoc.
    - destruct (start_snoc more' l' a' NULL) as [? ->].
      by rewrite (app_assoc _ (_ :: more')) !last_snoc. }
  iAssert (∃ es', ⌈ end_ptr res = end_ptr es' ⌉ ∗ ⌈ start res NULL = start es' NULL ⌉ ∗
    ⌈ es' ≡ₚ (lp, ap) :: es0 ⌉ ∗ ⌈ CompareFunc cmp → sorted_by cmp es' ⌉ ∗ chain es' NULL)%I
    with "[H]" as "H".
  { iExists res. iFrame. iPureIntro. split_and!; [done..|by apply (quicksort_perm cmp)|].
    intros Hcmp. by apply (quicksort_sorted cmp _ _ es0); auto. }
  rewrite He. destruct (start more' NULL); wp_pures; iExact "H".
Qed.

(** [slist_sort] rearranges the same entries, whatever the comparison is, and
    sorts them if it is a total preorder. *)
Theorem slist_sort_correct fuel cmp es :
  length es < fuel →
  {{ chain es NULL }} slist_sort fuel (start es NULL) cmp {{ p,
    ∃ es', ⌈ p = start es' NULL ⌉ ∗ ⌈ es' ≡ₚ es ⌉ ∗
           ⌈ CompareFunc cmp → StronglySorted (cmp_le cmp) es'.*2 ⌉ ∗ chain es' NULL }}.
Proof.
  intros Hf. apply triple_wp. iIntros "H". rewrite /slist_sort.
  wp_call slist_sort_internal_spec with "H".
  iIntros ([e p]) "(%es' & -> & -> & %Hp & %Hs & H)". wp_pures.
  iExists es'. by iFrame.
Qed.
End sort.

Section iterators.
Implicit Types pre post : list (loc * value).

(** The iterator has read the entries [pre]: either it waits before the next
    entry (nothing read yet, the end reached, or the last one removed), or its
    current entry is the last of [pre]. *)
Definition iter_rep pre (iter : SListIterator) : Prop :=
  iter = {| prev_next := slot_after pre; current := NULL |} ∨
  ∃ pre' l a, pre = pre' ++ [(l, a)] ∧
    iter = {| prev_next := slot_after pre'; current := Some l |}.

Lemma slist_iterate_rep list : iter_rep [] (slist_iterate list).
Proof. by left. Qed.

Lemma slist_iter_moved_spec pre post iter :
  iter_rep pre iter →
  {{ chain (pre ++ post) NULL }} slist_iter_moved (start (pre ++ post) NULL) iter
  {{ b, ⌈ b = bool_decide (current iter = NULL) ⌉ ∗ chain (pre ++ post) NULL }}.
Proof.
  intros [->|(pre' & l & a & -> & ->)]; apply triple_wp; iIntros "H";
    rewrite /slist_iter_moved /=; [wp_pures; ipure|].
  rewrite -assoc_L start_app /=. iEval (rewrite chain_app) in "H".
  iDestruct "H" as "[H1 H2]".
  wp_bind. iApply (wp_read_slot with "H1"). iIntros "H1". wp_pures.
  rewrite !bool_decide_eq_false_2; [|naive_solver..]. rewrite chain_app. ipure.
Qed.

(** [slist_iter_has_more]: some entry is still to be read. *)
Lemma slist_iter_has_more_spec pre post iter :
  iter_rep pre iter →
  {{ chain (pre ++ post) NULL }} slist_iter_has_more (start (pre ++ post) NULL) iter
  {{ b, ⌈ b = bool_decide (post ≠ []) ⌉ ∗ chain (pre ++ post) NULL }}.
Proof.
  intros Hit. apply triple_wp. iIntros "H". rewrite /slist_iter_has_more.
  wp_call slist_iter_moved_spec with "H". iIntros (b) "[-> H]".
  destruct Hit as [->|(pre' & l & a & -> & ->)]; simpl.
  - iEval (rewrite chain_app) in "H". rewrite start_app. iDestruct "H" as "[H1 H2]".
    wp_bind. iApply (wp_read_slot with "H1"). iIntros "H1". wp_pures.
    rewrite chain_app. iFrame. iPureIntro. apply bool_decide_ext. by destruct post as [|[]].
  - rewrite -assoc_L. iEval (rewrite chain_app /=) in "H".
    iDestruct "H" as "(H1 & Hl & H2)".
    wp_load. wp_pures. rewrite chain_app /=. iFrame. iPureIntro. apply bool_decide_ext. by destruct post as [|[]].
Qed.

(** [slist_iter_next] returns the values one after the other, then the null
    value; it leaves the list alone. *)
Theorem slist_iter_next_correct pre post iter :
  iter_rep pre iter →
  {{ chain (pre ++ post) NULL }} slist_iter_next (start (pre ++ post) NULL) iter
  {{ '(v, iter'), chain (pre ++ post) NULL ∗
    match post with
    | [] => ⌈ v = VNULL ∧ iter_rep pre iter' ⌉
    | (l, a) :: _ => ⌈ v = a ∧ current iter' = Some l ∧ iter_rep (pre ++ [(l, a)]) iter' ⌉
    end }}.
Proof.
  intros Hit. apply triple_wp. iIntros "H". rewrite /slist_iter_next.
  wp_call slist_iter_moved_spec with "H". iIntros (b) "[-> H]".
  iAssert (wp (if bool_decide (current iter = NULL) then
          p ← read_slot (start (pre ++ post) NULL) (prev_next iter);
          mret {| prev_next := prev_next iter; current := p |}
        else
          e ← deref (current iter);
          match current iter with
          | NULL => fail NullDeref
          | Some l => mret {| prev_next := SNext l; current := c_next e |}
          end) (λ it, ⌈ it = {| prev_next := slot_after pre; current := start post NULL |} ⌉ ∗
                      chain (pre ++ post) NULL))%I with "[H]" as "H".
  { destruct Hit as [->|(pre' & l & a & -> & ->)]; simpl.
    - iEval (rewrite chain_app) in "H". rewrite start_app. iDestruct "H" as "[H1 H2]".
      wp_bind. iApply (wp_read_slot with "H1"). iIntros "H1". wp_pures.
      rewrite chain_app. ipure.
    - rewrite -assoc_L. iEval (rewrite chain_app /=) in "H".
      iDestruct "H" as "(H1 & Hl & H2)".
      wp_load. wp_pures. rewrite slot_after_snoc chain_app /=. ipure. }
  wp_bind. iApply (wp_wand with "H"). iIntros (it) "[-> H]". simpl.
  destruct post as [|[l a] post]; simpl.
  - wp_pures. iFrame. iPureIntro. split; [done|by left].
  - iEval (rewrite chain_app /=) in "H". iDestruct "H" as "(H1 & Hl & H2)".
    wp_load. wp_pures. rewrite chain_app /=. iFrame. iPureIntro.
    split_and!; [done..|]. right. by exists pre, l, a.
Qed.

(** [slist_iter_remove] unlinks and frees the entry read last, once; the
    iteration goes on with the entries still to be read. *)
Theorem slist_iter_remove_correct pre post iter :
  iter_rep pre iter →
  {{ chain (pre ++ post) NULL }} slist_iter_remove (start (pre ++ post) NULL) iter
  {{ '(list', iter'), ∃ pre',
    ⌈ match current iter with
      | NULL => pre' = pre
      | Some l => ∃ a, pre = pre' ++ [(l, a)]
      end ⌉ ∗
    ⌈ list' = start (pre' ++ post) NULL ⌉ ∗ ⌈ current iter' = NULL ⌉ ∗
    ⌈ iter_rep pre' iter' ⌉ ∗ chain (pre' ++ post) NULL }}.
Proof.
  intros Hit. apply triple_wp. iIntros "H". rewrite /slist_iter_remove.
  wp_call slist_iter_moved_spec with "H". iIntros (b) "[-> H]".
  destruct Hit as [->|(pre' & l & a & -> & ->)]; simpl.
  - wp_pures. iExists pre. iFrame. iPureIntro. split_and!; [done..|by left].
  - rewrite -assoc_L. iEval (rewrite chain_app /=) in "H". rewrite start_app /=.
    iDestruct "H" as "(H1 & Hl & H2)". wp_load.
    wp_bind. iApply (wp_write_slot with "H1"). iIntros "H1". wp_free. wp_pures.
    iExists pre'. rewrite chain_app start_app. iFrame. iPureIntro.
    split_and!; [by eexists|done..|by left].
Qed.
End iterators.

(** ** Runs

    The theorems at concrete lists: three entries at the locations 1, 2, 3, and
    an allocator that grants every request. *)
Module Runs.
#[local] Instance grant : Allocator SListEntry := total_alloc (Cell 0%Z NULL).
Definition three : list (loc * value) := [(1%positive, 30%Z); (2%positive, 10%Z); (3%positive, 20%Z)].
Definition heap : gmap loc SListEntry := chain_cells three NULL.

Lemma three_holds : holds (chain three NULL) heap.
Proof. by apply holds_chain_run. Qed.

Lemma slist_append_correct_witness :
  ∃ r l h' t', slist_append 4 (Some 1%positive) 5%Z (Mem heap 0) = Ok ((r, l), Mem h' t') ∧
    l = Some 1%positive.
Proof.
  destruct (triple_run _ _ _ heap 0 (slist_append_correct 4 three 5%Z ltac:(simpl; lia)) three_holds)
    as ([r l] & h' & t' & E & HQ). exists r, l, h', t'. split; [exact E|].
  destruct r; apply holds_pure_sep in HQ as [HQ _]; [exact HQ|apply HQ].
Defined.

Lemma slist_to_array_correct_witness :
  ∃ r h' t', slist_to_array 4 (Some 1%positive) (Mem heap 0) = Ok (r, Mem h' t').
Proof.
  destruct (triple_run _ _ _ heap 0 (slist_to_array_correct 4 three
    ltac:(simpl; lia) ltac:(simpl; int_tac)) three_holds) as (r & h' & t' & E & HQ).
  exists r, h', t'. exact E.
Defined.

Lemma slist_remove_entry_correct_witness :
  ∃ r h' t', slist_remove_entry 4 (Some 1%positive) (Some 2%positive) (Mem heap 0) =
    Ok (r, Mem h' t').
Proof.
  destruct (triple_run _ _ _ heap 0 (slist_remove_entry_correct 4 three (Some 2%positive)
    ltac:(simpl; lia)) three_holds) as (r & h' & t' & E & HQ).
  exists r, h', t'. exact E.
Defined.

(** Removing the values above 15 removes two entries. *)
Definition above (x y : value) : Z := if bool_decide (y < x)%Z then 1%Z else 0%Z.

Lemma slist_remove_data_correct_witness :
  ∃ l h' t', slist_remove_data 4 (Some 1%positive) above 15%Z (Mem heap 0) =
    Ok ((2%Z, l), Mem h' t').
Proof.
  destruct (triple_run _ _ _ heap 0 (slist_remove_data_correct 4 above three 15%Z
    ltac:(simpl; lia) ltac:(simpl; int_tac)) three_holds) as ([r l] & h' & t' & E & HQ).
  exists l, h', t'. apply holds_pure_sep in HQ as [-> _]. exact E.
Defined.

(** With [pointer_compare] the values come out in increasing order. *)
Lemma slist_sort_correct_witness :
  ∃ es p h' t', slist_sort 4 (Some 1%positive) pointer_compare (Mem heap 0) = Ok (p, Mem h' t') ∧
    es ≡ₚ three ∧ StronglySorted (cmp_le pointer_compare) es.*2.
Proof.
  destruct (triple_run _ _ _ heap 0 (slist_sort_correct 4 pointer_compare three
    ltac:(simpl; lia)) three_holds) as (p & h' & t' & E & [es HQ]).
  exists es, p, h', t'. split; [exact E|].
  apply holds_pure_sep in HQ as [_ HQ]. apply holds_pure_sep in HQ as [Hp HQ].
  apply holds_pure_sep in HQ as [Hs _]. split; [exact Hp|].
  apply Hs, _.
Defined.

(** Reading past the first entry, then removing it. *)
Lemma slist_iter_next_correct_witness :
  ∃ v it h' t', slist_iter_next (Some 1%positive) (slist_iterate (Some 1%positive)) (Mem heap 0) =
    Ok ((v, it), Mem h' t').
Proof.
  destruct (triple_run _ _ _ heap 0 (slist_iter_next_correct [] three _
    (slist_iterate_rep (Some 1%positive))) three_holds) as ([v it] & h' & t' & E & HQ).
  exists v, it, h', t'. exact E.
Defined.

Lemma slist_iter_remove_correct_witness :
  ∃ r h' t', slist_iter_remove (Some 1%positive)
    {| prev_next := SHead; current := Some 1%positive |} (Mem heap 0) = Ok (r, Mem h' t').
Proof.
  destruct (triple_run _ _ _ heap 0 (slist_iter_remove_correct [(1%positive, 30%Z)]
    [(2%positive, 10%Z); (3%positive, 20%Z)] {| prev_next := SHead; current := Some 1%positive |}
    ltac:(right; by exists [], 1%positive, 30%Z)) three_holds) as (r & h' & t' & E & HQ).
  exists r, h', t'. exact E.
Defined.
End Runs.
