(* ===== verification/Buckets.v ===== *)
(** * Buckets: the chained tables of hash-table.c and set.c

    Both sources keep an array of chain heads and share, statement for
    statement, the walks along a chain, the rehashing loop and the iteration
    over all chains; they differ in the payload of an entry and in which field
    is the key.  This file models the common code once, for a payload [A] with
    the key [key a], and proves the facts about the distribution of entries that
    both components use. *)
From stdpp Require Import base gmap list numbers.
From iris.proofmode Require Import proofmode.
From S2P Require Import Prelude Memory Compare Chain.

(** ** The common code *)

(** The table sizes: hash_table_primes, set_primes. *)
Definition primes : list Z :=
  [193; 389; 769; 1543; 3079; 6151; 12289; 24593; 49157; 98317;
   196613; 393241; 786433; 1572869; 3145739; 6291469;
   12582917; 25165843; 50331653; 100663319; 201326611;
   402653189; 805306457; 1610612741]%Z.

(** The size of the table for [prime_index], an [int] even in the last case. *)
Definition choose_size {N} (prime_index entries : Z) : M N Z :=
  if bool_decide (prime_index < length primes)%Z then aget primes prime_index
  else chk (entries * 10)%Z.

Section code.
Context {A : Type} (fuel : nat).

(** [while (rover != NULL) { if (test(rover)) return rover; rover = rover->next; }] *)
Definition chain_walk (test : A → bool) : ptr → M (cell A) ptr :=
  loop fuel (λ rover : ptr,
    match rover with
    | NULL => mret (inr NULL)
    | Some _ =>
        e ← deref rover;
        if test (c_data e) then mret (inr rover) else mret (inl (c_next e))
    end).

(** The same walk with [rover] a slot: the slot whose entry passes the test. *)
Definition slot_walk (test : A → bool) (hd : ptr) : slot → M (cell A) (option slot) :=
  loop fuel (λ rover : slot,
    entry ← read_slot hd rover;
    match entry with
    | NULL => mret (inr None)
    | Some l =>
        e ← deref entry;
        if test (c_data e) then mret (inr (Some rover)) else mret (inl (SNext l))
    end).

(** The inner loop of hash_table_enlarge and set_enlarge: every entry of one
    old chain is pushed on the front of its chain in the new table. *)
Definition rehash_chain (hash_of : A → Z) (table_size : Z) :
    ptr * list ptr → M (cell A) (list ptr) :=
  loop fuel (λ '(rover, table),
    match rover with
    | NULL => mret (inr table)
    | Some _ =>
        e ← deref rover;
        let next := c_next e in
        let index := (hash_of (c_data e) mod table_size)%Z in
        hd ← aget table index;
        _ ← modify rover (set_next hd);
        table ← aset table index rover;
        mret (inl (next, table))
    end).

(** The outer loop, over the chains of the old table. *)
Definition rehash_table (hash_of : A → Z) (table_size : Z) (old_table table : list ptr) :
    M (cell A) (list ptr) :=
  for_loop (length old_table) 0%Z (λ i table,
    rover ← aget old_table i;
    rehash_chain hash_of table_size (rover, table)) table.

(** [while (chain < table_size) { if (table[chain] != NULL) break; ++chain; }]:
    the chain number and the entry found. *)
Fixpoint scan_chains (n : nat) (table : list ptr) (chain : Z) : M (cell A) (Z * ptr) :=
  match n with
  | O => mret (chain, NULL)
  | S n =>
      hd ← aget table chain;
      match hd with
      | Some _ => mret (chain, hd)
      | NULL => scan_chains n table (chain + 1)%Z
      end
  end.
End code.

(** The fields of HashTableIterator and SetIterator other than the table. *)
Record BucketIterator := { next_entry : ptr; next_chain : Z }.

(** The body of hash_table_iter_next and set_iter_next when there is a next
    entry: its payload, and the iterator moved on. *)
Definition step_entry {A} (table_size : Z) (table : list ptr) (iter : BucketIterator) :
    M (cell A) (A * BucketIterator) :=
  current_entry ← deref (next_entry iter);
  match c_next current_entry with
  | Some _ =>
      mret (c_data current_entry,
            {| next_entry := c_next current_entry; next_chain := next_chain iter |})
  | NULL =>
      let chain := (next_chain iter + 1)%Z in
      '(chain, p) ← scan_chains (Z.to_nat (table_size - chain)) table chain;
      mret (c_data current_entry, {| next_entry := p; next_chain := chain |})
  end.

(** ** Walks *)

Section walks.
Context {A : Type}.
Implicit Types es : list (loc * A).

(** The part of a chain before the first entry that passes a test. *)
Lemma chain_walk_spec fuel (test : A → bool) es :
  length es < fuel →
  {{ chain es NULL }} chain_walk fuel test (start es NULL) {{ r,
    ⌈ r = fst <$> head (filter (λ e, test e.2 = true) es) ⌉ ∗ chain es NULL }}.
Proof.
  revert fuel. induction es as [|[l a] es IH]; intros [|fuel] Hf; simpl in Hf; try lia;
    apply triple_wp; iIntros "H"; rewrite /chain_walk; wp_loop; [wp_pures; ipure|].
  iDestruct "H" as "[Hl H]". wp_load. destruct (test a) eqn:Ht; wp_pures; filter_case.
  - ipure.
  - wp_call IH with "H". iIntros (r) "[-> H]". ipure.
Qed.

(** The first entry that passes a test splits the chain. *)
Lemma first_pass_split (test : A → bool) es :
  match head (filter (λ e, test e.2 = true) es) with
  | None => Forall (λ e, test e.2 = false) es
  | Some (l, a) => ∃ es1 es2, es = es1 ++ (l, a) :: es2 ∧ test a = true ∧
                   Forall (λ e, test e.2 = false) es1
  end.
Proof.
  induction es as [|[l a] es IH]; [by constructor|]. rewrite filter_cons. simpl.
  case_decide as Ha; simpl; [exists [], es; by split_and!; [..|constructor]|]. apply not_true_is_false in Ha.
  destruct (head _) as [[l' a']|]; [|by constructor].
  destruct IH as (es1 & es2 & -> & ? & ?). exists ((l, a) :: es1), es2.
  split_and!; [done..|by constructor].
Qed.

(** Either no entry passes, or the slot splits the chain at the first one. *)
Lemma slot_walk_spec fuel (test : A → bool) pre es :
  length es < fuel →
  {{ chain pre (start es NULL) ∗ chain es NULL }}
    slot_walk fuel test (start pre (start es NULL)) (slot_after pre)
  {{ r, match r with
        | None => ⌈ Forall (λ e, test e.2 = false) es ⌉ ∗
                  chain pre (start es NULL) ∗ chain es NULL
        | Some s => ∃ es1 l a es2,
            ⌈ s = slot_after (pre ++ es1) ∧ es = es1 ++ (l, a) :: es2 ∧ test a = true ∧
              Forall (λ e, test e.2 = false) es1 ⌉ ∗
            chain (pre ++ es1) (Some l) ∗ l ↦ Cell a (start es2 NULL) ∗ chain es2 NULL
        end }}.
Proof.
  revert fuel pre. induction es as [|[l a] es IH]; intros [|fuel] pre Hf; simpl in Hf;
    try lia; apply triple_wp; iIntros "[Hpre H]"; rewrite /slot_walk; wp_loop;
    iApply (wp_read_slot with "Hpre"); iIntros "Hpre"; simpl.
  - wp_pures. ipure.
  - iDestruct "H" as "[Hl H]". wp_load. destruct (test a) eqn:Ht; wp_pures.
    + iExists [], l, a, es. rewrite right_id_L. ipure.
    + specialize (IH fuel (pre ++ [(l, a)])).
      rewrite slot_after_snoc start_app /= in IH.
      iApply (triple_use with "[Hpre H Hl]"); [apply IH; lia|rewrite chain_snoc; iFrame|].
      iIntros ([s|]) "HQ".
      * iDestruct "HQ" as (es1 l' a' es2 (-> & -> & ? & ?)) "HQ".
        iExists ((l, a) :: es1), l', a', es2. rewrite -assoc_L. iFrame.
        iPureIntro. split_and!; [done..|by constructor].
      * iDestruct "HQ" as (Hall) "[HQ $]". rewrite chain_snoc.
        iDestruct "HQ" as "[$ $]". iPureIntro. by constructor.
Qed.
End walks.

(** ** Where entries are *)

Section theory.
Context {A : Type} (key : A → value).
Context (hash : value → Z) (equal : value → value → Z).
Implicit Types bs : list (list (loc * A)).
Implicit Types es : list (loc * A).

(** The heap of a table: all its chains; the array of the chain heads. *)
Definition own bs : hProp (cell A) := [∗ list] es ∈ bs, chain es NULL.
Definition heads bs : list ptr := (λ es, start es NULL) <$> bs.

(** The payloads of a table, in iteration order. *)
Definition payloads bs : list A := (concat bs).*2.

(** Entries whose key equals [k], and the others. *)
Definition hit (k : value) (xs : list A) : list A := filter (λ x, equal (key x) k ≠ 0%Z) xs.
Definition miss (k : value) (xs : list A) : list A := filter (λ x, equal (key x) k = 0%Z) xs.

(** Every entry is in the chain its hash selects. *)
Definition placed (n : nat) bs : Prop :=
  ∀ (i : nat) es e, bs !! i = Some es → e ∈ es → (hash (key e.2) mod n)%Z = i.

(** No two entries have equal keys. *)
Definition distinct (xs : list A) : Prop := ∀ k, length (hit k xs) ≤ 1.

Definition index_of (n : nat) (k : value) : nat := Z.to_nat (hash k mod n).

Global Instance hit_perm k : Proper ((≡ₚ) ==> (≡ₚ)) (hit k).
Proof. intros xs ys Hxy. rewrite /hit. by rewrite Hxy. Qed.
Global Instance miss_perm k : Proper ((≡ₚ) ==> (≡ₚ)) (miss k).
Proof. intros xs ys Hxy. rewrite /miss. by rewrite Hxy. Qed.
Global Instance distinct_perm : Proper ((≡ₚ) ==> iff) distinct.
Proof. intros xs ys Hxy. split; intros Hd k; [rewrite -Hxy|rewrite Hxy]; apply Hd. Qed.

Lemma hit_app k xs ys : hit k (xs ++ ys) = hit k xs ++ hit k ys.
Proof. apply filter_app. Qed.
Lemma miss_app k xs ys : miss k (xs ++ ys) = miss k xs ++ miss k ys.
Proof. apply filter_app. Qed.

Lemma hit_none k xs : Forall (λ x, equal (key x) k = 0%Z) xs → hit k xs = [] ∧ miss k xs = xs.
Proof.
  induction 1 as [|x xs Hx _ [IH1 IH2]]; [done|]. rewrite /hit /miss in IH1 IH2 *.
  split; [rewrite filter_cons_False; [done|lia]|]. by rewrite filter_cons_True // IH2.
Qed.

Lemma hit_nil_forall k xs : hit k xs = [] → Forall (λ x, equal (key x) k = 0%Z) xs.
Proof.
  intros Hh. apply Forall_forall. intros x Hx.
  destruct (decide (equal (key x) k = 0%Z)) as [|Hne]; [done|].
  exfalso. apply (not_elem_of_nil x). rewrite -Hh. by apply list_elem_of_filter.
Qed.

Lemma hit_singleton k x : equal (key x) k ≠ 0%Z → hit k [x] = [x] ∧ miss k [x] = [].
Proof.
  intros Hx. rewrite /hit /miss. split; [by rewrite filter_cons_True|].
  by rewrite filter_cons_False.
Qed.

(** With distinct keys, one hit excludes the others. *)
Lemma distinct_split k xs x ys :
  distinct (xs ++ x :: ys) → equal (key x) k ≠ 0%Z →
  hit k (xs ++ x :: ys) = [x] ∧ miss k (xs ++ x :: ys) = xs ++ ys.
Proof.
  intros Hd Hx. specialize (Hd k). rewrite hit_app (hit_app k [x] ys) in Hd |- *.
  rewrite miss_app (miss_app k [x] ys). destruct (hit_singleton k x Hx) as [E ->].
  rewrite !length_app E /= in Hd |- *.
  assert (hit k xs = []) as Hxs by (apply length_zero_iff_nil; lia).
  assert (hit k ys = []) as Hys by (apply length_zero_iff_nil; lia).
  destruct (hit_none k xs) as [_ ->]; [by apply hit_nil_forall|].
  destruct (hit_none k ys) as [_ ->]; [by apply hit_nil_forall|].
  by rewrite Hxs Hys.
Qed.

(** *** Replacing one chain *)
Lemma own_acc bs i es :
  bs !! i = Some es →
  own bs -∗ chain es NULL ∗ (∀ es', chain es' NULL -∗ own (<[i := es']> bs)).
Proof. intros Hi. apply bi.entails_wand, (big_sepL_insert_acc (λ _ es, chain es NULL)), Hi. Qed.

Lemma heads_insert bs i es : heads (<[i := es]> bs) = <[i := start es NULL]> (heads bs).
Proof. apply (list_fmap_insert (λ es, start es NULL)). Qed.

Lemma heads_lookup bs i es : bs !! i = Some es → heads bs !! i = Some (start es NULL).
Proof. intros Hi. by rewrite /heads list_lookup_fmap Hi. Qed.

Lemma payloads_insert bs i es :
  bs !! i = Some es → ∃ rest,
    payloads bs ≡ₚ es.*2 ++ rest ∧
    (∀ es', payloads (<[i := es']> bs) ≡ₚ es'.*2 ++ rest) ∧
    (∀ x, x ∈ rest → ∃ j es' l, j ≠ i ∧ bs !! j = Some es' ∧ (l, x) ∈ es').
Proof.
  intros Hi. destruct (list_elem_of_split_length bs i es Hi) as (bs1 & bs2 & -> & ->).
  exists (payloads bs1 ++ payloads bs2). rewrite /payloads.
  assert (∀ es, (concat (bs1 ++ es :: bs2)).*2 ≡ₚ es.*2 ++ (concat bs1).*2 ++ (concat bs2).*2)
    as Hp.
  { intros es'. rewrite concat_app /= !fmap_app. by rewrite Permutation_app_swap_app. }
  split_and!; [apply Hp| |].
  - intros es'. rewrite -(Nat.add_0_r (length bs1)) insert_app_r. apply Hp.
  - intros x [Hx|Hx]%elem_of_app; apply list_elem_of_fmap in Hx as ([l y] & -> & Hx);
      apply list_elem_of_In, in_concat in Hx as (es' & Hes' & Hx);
      apply list_elem_of_In in Hes'; apply list_elem_of_In in Hx; apply list_elem_of_lookup in Hes' as [j Hj].
    + exists j, es', l. pose proof (lookup_lt_Some _ _ _ Hj).
      split_and!; [lia|by rewrite lookup_app_l|done].
    + exists (length bs1 + S j)%nat, es', l.
      split_and!; [lia| |done]. rewrite lookup_app_r; [|lia].
      by replace (length bs1 + S j - length bs1) with (S j) by lia.
Qed.

Lemma placed_insert n bs (i : nat) es :
  placed n bs → (∀ e, e ∈ es → (hash (key e.2) mod n)%Z = i) → placed n (<[i := es]> bs).
Proof.
  intros Hp Hes j es' e [(-> & -> & _)|[_ Hj]]%list_lookup_insert_Some He; [by apply Hes|].
  by eapply Hp.
Qed.

Section hashed.
Context `{!HashEqual hash equal}.

Lemma index_of_lt n k : 0 < n → index_of n k < n.
Proof.
  intros Hn. rewrite /index_of.
  pose proof (Z.mod_pos_bound (hash k) n ltac:(lia)). lia.
Qed.

Lemma index_of_Z n k : 0 < n → Z.of_nat (index_of n k) = (hash k mod n)%Z.
Proof.
  intros Hn. rewrite /index_of Z2Nat.id //.
  pose proof (Z.mod_pos_bound (hash k) n ltac:(lia)). lia.
Qed.

(** Outside the chain that the hash of [k] selects nothing equals [k]. *)
Lemma miss_outside n bs k es rest :
  0 < n → placed n bs → bs !! index_of n k = Some es →
  (∀ x, x ∈ rest → ∃ j es' l, j ≠ index_of n k ∧ bs !! j = Some es' ∧ (l, x) ∈ es') →
  hit k rest = [] ∧ miss k rest = rest.
Proof.
  intros Hn Hp Hi Hrest. apply hit_none, Forall_forall. intros x Hx.
  destruct (decide (equal (key x) k = 0%Z)) as [|Hne]; [done|exfalso].
  destruct (Hrest x Hx) as (j & es' & l & Hj & Hes' & Hin).
  pose proof (Hp j es' (l, x) Hes' Hin) as Hj'. simpl in Hj'.
  rewrite (hash_equal _ _ Hne) -index_of_Z // in Hj'. lia.
Qed.

Lemma distinct_cons x xs :
  distinct xs → hit (key x) xs = [] → distinct (x :: xs).
Proof.
  intros Hd Hx k. rewrite (hit_app k [x] xs) length_app.
  destruct (decide (equal (key x) k = 0%Z)) as [Hk|Hk].
  - destruct (hit_none k [x]) as [-> _]; [by constructor|]. apply Hd.
  - destruct (hit_singleton k x Hk) as [-> _].
    destruct (hit_none k xs) as [-> _]; [|done].
    apply hit_nil_forall in Hx. eapply Forall_impl; [exact Hx|]. simpl. intros y Hy.
    destruct (decide (equal (key y) k = 0%Z)) as [|Hne]; [done|exfalso].
    apply (equal_trans (key y) k (key x) Hne); [|done]. by apply equal_sym.
Qed.

(** Replacing an entry by one with an equal key. *)
Lemma distinct_update x y xs :
  distinct (x :: xs) → equal (key x) (key y) ≠ 0%Z → distinct (y :: xs).
Proof.
  intros Hd Hxy. destruct (distinct_split (key y) [] x xs Hd Hxy) as [Hh _].
  apply distinct_cons.
  - intros k. specialize (Hd k). rewrite (hit_app k [x] xs) length_app in Hd. lia.
  - rewrite /= (hit_app _ [x] xs) in Hh. destruct (hit_singleton (key y) x Hxy) as [E _].
    rewrite E in Hh. by injection Hh.
Qed.

Lemma distinct_sub x xs : distinct (x :: xs) → distinct xs.
Proof. intros Hd k. specialize (Hd k). rewrite (hit_app k [x] xs) length_app in Hd. lia. Qed.

(** The chain of [k] holds an entry equal to [k]: what removing or
    overwriting that entry does to the payloads. *)
Lemma bucket_found n bs k es1 l a es2 :
  0 < n → placed n bs → distinct (payloads bs) →
  bs !! index_of n k = Some (es1 ++ (l, a) :: es2) → equal (key a) k ≠ 0%Z →
  let upd es := <[index_of n k := es]> bs in
  hit k (payloads bs) = [a] ∧
  payloads bs ≡ₚ a :: miss k (payloads bs) ∧
  payloads (upd (es1 ++ es2)) ≡ₚ miss k (payloads bs) ∧
  ∀ a', payloads (upd (es1 ++ (l, a') :: es2)) ≡ₚ a' :: miss k (payloads bs).
Proof.
  intros Hn Hp Hd Hi Ha upd. destruct (payloads_insert _ _ _ Hi) as (rest & Hr & Hins & _).
  assert (payloads bs ≡ₚ a :: es1.*2 ++ es2.*2 ++ rest) as Hpl.
  { rewrite Hr fmap_app /=. solve_Permutation. }
  rewrite Hpl in Hd. destruct (distinct_split k [] a _ Hd Ha) as [Hh Hm].
  simpl in Hh, Hm. assert (hit k (payloads bs) = [a]) as Hh'.
  { apply Permutation_singleton_r. by rewrite Hpl Hh. }
  assert (miss k (payloads bs) ≡ₚ es1.*2 ++ es2.*2 ++ rest) as Hm' by by rewrite Hpl Hm.
  split_and!; [done|by rewrite Hm'|..|intros a']; rewrite Hm' Hins fmap_app /=;
    solve_Permutation.
Qed.

(** The chain of [k] holds nothing equal to [k]. *)
Lemma bucket_missing n bs k es :
  0 < n → placed n bs → bs !! index_of n k = Some es →
  Forall (λ e, equal (key e.2) k = 0%Z) es →
  hit k (payloads bs) = [] ∧ miss k (payloads bs) = payloads bs ∧
  ∀ e, payloads (<[index_of n k := e :: es]> bs) ≡ₚ e.2 :: payloads bs.
Proof.
  intros Hn Hp Hi Hes. destruct (payloads_insert _ _ _ Hi) as (rest & Hr & Hins & Hrest).
  destruct (miss_outside n bs k es rest) as [Hh Hm]; [done..|].
  destruct (hit_none k es.*2) as [Hh' Hm'].
  { apply Forall_fmap. eapply Forall_impl; [exact Hes|done]. }
  assert (hit k (payloads bs) = []) as Hnone.
  { apply Permutation_nil_r. by rewrite Hr hit_app Hh Hh'. }
  split_and!; [done|by apply hit_none, hit_nil_forall|].
  intros e. by rewrite Hins Hr.
Qed.

Lemma equal_zero_sym x y : equal x y = 0%Z → equal y x = 0%Z.
Proof.
  intros Hxy. destruct (decide (equal y x = 0%Z)) as [|Hne]; [done|].
  by apply equal_sym in Hne.
Qed.

(** With distinct keys the hits do not depend on the order. *)
Lemma distinct_hit_perm k xs ys : xs ≡ₚ ys → distinct ys → hit k xs = hit k ys.
Proof.
  intros Hp Hd. specialize (Hd k). assert (hit k xs ≡ₚ hit k ys) as Hh by by rewrite Hp.
  destruct (hit k ys) as [|y [|]]; simpl in Hd; [|by apply Permutation_singleton_r|lia].
  by apply Permutation_nil_r.
Qed.

(** The tests of the sources compare in either order. *)
Lemma walk_miss_l k (es : list (loc * A)) :
  Forall (λ e, bool_decide (equal (key e.2) k ≠ 0%Z) = false) es →
  Forall (λ e, equal (key e.2) k = 0%Z) es.
Proof.
  intros Hes. eapply Forall_impl; [exact Hes|]. intros [l x]; simpl.
  by intros Hx%bool_decide_eq_false%dec_stable.
Qed.

Lemma walk_miss_r k (es : list (loc * A)) :
  Forall (λ e, bool_decide (equal k (key e.2) ≠ 0%Z) = false) es →
  Forall (λ e, equal (key e.2) k = 0%Z) es.
Proof.
  intros Hes. eapply Forall_impl; [exact Hes|]. intros [l x]; simpl.
  intros Hx%bool_decide_eq_false%dec_stable. by apply equal_zero_sym.
Qed.

Lemma miss_nil_hit k xs : hit k (miss k xs) = [].
Proof.
  apply hit_none, Forall_forall. intros x Hx. by apply list_elem_of_filter in Hx as [? _].
Qed.

Lemma distinct_miss k xs : distinct xs → distinct (miss k xs).
Proof.
  intros Hd k'. etrans; [|apply (Hd k')]. clear Hd. rewrite /hit /miss.
  induction xs as [|x xs IH]; [done|].
  rewrite !filter_cons. case_decide; rewrite ?filter_cons; case_decide; simpl; lia.
Qed.
End hashed.

(** *** Rehashing *)
Lemma payloads_heads_nil n : payloads (replicate n []) = [].
Proof. rewrite /payloads. induction n; [done|]. by simpl. Qed.

Lemma own_nil n : emp ⊢ own (replicate n []).
Proof. rewrite /own. induction n as [|n IH]; simpl; [done|]. by rewrite left_id -IH. Qed.

Lemma placed_nil n m : placed n (replicate m []).
Proof. intros i es e [-> _]%lookup_replicate He. by apply not_elem_of_nil in He. Qed.

Lemma heads_nil n : heads (replicate n []) = replicate n NULL.
Proof. apply (fmap_replicate (λ es, start es NULL)). Qed.

Lemma length_heads bs : length (heads bs) = length bs.
Proof. apply length_fmap. Qed.

(** A table with one chain. *)
Lemma own_single n i es : i < n → chain es NULL ⊢ own (<[i := es]> (replicate n [])).
Proof.
  rewrite /own. revert i. induction n as [|n IH]; intros [|i] Hi; simpl; try lia.
  - iIntros "$". by iApply own_nil.
  - iIntros "H". iSplitR; [done|]. iApply IH; [lia|done].
Qed.

Lemma payloads_single n i es : i < n → payloads (<[i := es]> (replicate n [])) ≡ₚ es.*2.
Proof.
  intros Hi. destruct (payloads_insert (replicate n []) i []) as (rest & Hr & Hins & _);
    [by apply lookup_replicate_2|].
  rewrite payloads_heads_nil in Hr. apply Permutation_nil_l in Hr. simpl in Hr. subst rest.
  by rewrite Hins app_nil_r.
Qed.

Lemma rehash_chain_spec fuel n es bs :
  length es < fuel → 0 < n → length bs = n → placed n bs →
  {{ chain es NULL ∗ own bs }}
    rehash_chain fuel (λ x, hash (key x)) n (start es NULL, heads bs)
  {{ table, ∃ bs', ⌈ table = heads bs' ⌉ ∗ ⌈ length bs' = n ⌉ ∗ ⌈ placed n bs' ⌉ ∗
      ⌈ payloads bs' ≡ₚ es.*2 ++ payloads bs ⌉ ∗ own bs' }}.
Proof.
  revert fuel bs. induction es as [|[l a] es IH]; intros [|fuel] bs Hf Hn Hbs Hp;
    simpl in Hf; try lia; apply triple_wp; iIntros "[H Hbs]";
    rewrite /rehash_chain; wp_loop; [wp_pures; iExists bs; ipure|].
  iDestruct "H" as "[Hl H]". wp_load.
  pose proof (index_of_lt n (key a) Hn) as Hi.
  rewrite -(index_of_Z n (key a)) //.
  destruct (lookup_lt_is_Some_2 bs (index_of n (key a))) as [es0 Hes0]; [lia|].
  wp_bind. iApply wp_aget; [lia|rewrite Nat2Z.id; by apply heads_lookup|].
  wp_store. wp_bind. iApply wp_aset; [rewrite length_heads; lia|]. rewrite Nat2Z.id.
  wp_pures. iDestruct (own_acc with "Hbs") as "[Hes0 Hbs]"; [done|].
  iDestruct ("Hbs" $! ((l, a) :: es0) with "[Hes0 Hl]") as "Hbs"; [simpl; iFrame|].
  replace (<[_ := Some l]> (heads bs)) with (heads (<[index_of n (key a) := (l, a) :: es0]> bs))
    by apply heads_insert.
  destruct (payloads_insert bs _ es0 Hes0) as (rest & Hrest & Hins & _).
  iApply (triple_use with "[H Hbs]"); [apply IH; try done; try lia| |].
  - by rewrite length_insert.
  - apply placed_insert; [done|]. intros e [->|He]%elem_of_cons; simpl.
    + by rewrite index_of_Z.
    + by eapply Hp.
  - iFrame.
  - iIntros (table) "(%bs' & -> & % & % & %Hperm & H)". iExists bs'. iFrame.
    iPureIntro. split_and!; [done..|]. rewrite Hperm Hins Hrest /=.
    by rewrite -Permutation_middle.
Qed.

Lemma rehash_table_spec fuel n pre old bs :
  length (payloads old) < fuel → 0 < n → length bs = n → placed n bs →
  {{ own old ∗ own bs }}
    for_loop (length old) (length pre) (λ i table,
      rover ← aget (heads (pre ++ old)) i;
      rehash_chain fuel (λ x, hash (key x)) n (rover, table)) (heads bs)
  {{ table, ∃ bs', ⌈ table = heads bs' ⌉ ∗ ⌈ length bs' = n ⌉ ∗ ⌈ placed n bs' ⌉ ∗
      ⌈ payloads bs' ≡ₚ payloads old ++ payloads bs ⌉ ∗ own bs' }}.
Proof.
  revert pre bs. induction old as [|es old IH]; intros pre bs Hf Hn Hbs Hp;
    apply triple_wp; iIntros "[H Hbs]"; simpl; [wp_pures; iExists bs; iFrame|].
  { iPureIntro. split_and!; done. }
  rewrite /payloads /= fmap_app length_app length_fmap in Hf.
  rewrite {1}/own /=. iDestruct "H" as "[Hes H]". wp_bind.
  iApply wp_aget; [lia| |].
  { rewrite Nat2Z.id. apply heads_lookup. by apply list_lookup_middle. }
  iApply (triple_use with "[Hes Hbs]"); [apply rehash_chain_spec; try done; lia|iFrame|].
  iIntros (table) "(%bs1 & -> & % & % & %Hperm & Hbs)".
  replace (length pre + 1)%Z with (Z.of_nat (length (pre ++ [es])))
    by (rewrite length_app /=; lia).
  rewrite (cons_middle es pre old) app_assoc.
  iApply (triple_use with "[H Hbs]");
    [apply IH; try done; rewrite /payloads; lia|iFrame|].
  iIntros (table) "(%bs' & -> & % & % & %Hperm' & H)". iExists bs'. iFrame.
  iPureIntro. split_and!; [done..|]. rewrite Hperm' Hperm /payloads /= fmap_app.
  by rewrite assoc (Permutation_app_comm (concat old).*2).
Qed.
End theory.

(** ** Iteration *)

Section iteration.
Context {A : Type}.
Implicit Types bs : list (list (loc * A)).
Implicit Types rest : list (loc * A).

(** The iterator stands before the entries [rest]. *)
Definition at_entry bs rest (iter : BucketIterator) : Prop :=
  (next_entry iter = NULL ∧ rest = []) ∨
  ∃ (i : nat) pre l a post,
    bs !! i = Some (pre ++ (l, a) :: post) ∧
    iter = {| next_entry := Some l; next_chain := i |} ∧
    rest = (l, a) :: post ++ concat (drop (S i) bs).

Lemma at_entry_more bs rest iter :
  at_entry bs rest iter → next_entry iter = NULL ↔ rest = [].
Proof. by intros [[-> ->]|(i & pre & l & a & post & ? & -> & ->)]. Qed.

Lemma scan_chains_spec bs n c :
  c + n = length bs →
  {{ emp }} @scan_chains A n (heads bs) (Z.of_nat c) {{ '(c', p),
    ⌈ at_entry bs (concat (drop c bs)) {| next_entry := p; next_chain := c' |} ⌉ }}.
Proof.
  revert c. induction n as [|n IH]; intros c Hc; apply triple_wp; iIntros "_"; simpl.
  - wp_pures. iPureIntro. left. by rewrite drop_ge; [|lia].
  - destruct (lookup_lt_is_Some_2 bs c) as [es Hes]; [lia|].
    wp_bind. iApply wp_aget; [lia|rewrite Nat2Z.id; by apply heads_lookup|].
    rewrite (drop_S _ es) //. destruct es as [|[l a] es]; simpl.
    + replace (c + 1)%Z with (Z.of_nat (S c)) by lia.
      iApply (triple_use with "[]"); [apply IH; lia|done|]. iIntros ([c' p]) "$".
    + wp_pures. iPureIntro. right. by exists c, [], l, a, es.
Qed.

(** The scan of the whole table finds the first entry. *)
Lemma scan_all_spec bs :
  {{ emp }} @scan_chains A (Z.to_nat (length bs)) (heads bs) 0 {{ '(c, p),
    ⌈ at_entry bs (concat bs) {| next_entry := p; next_chain := c |} ⌉ }}.
Proof.
  rewrite Nat2Z.id. pose proof (scan_chains_spec bs (length bs) 0 eq_refl) as Hs.
  by rewrite drop_0 in Hs.
Qed.

Lemma step_entry_spec bs l a rest iter :
  at_entry bs ((l, a) :: rest) iter →
  {{ own bs }} step_entry (length bs) (heads bs) iter {{ '(x, iter'),
    ⌈ x = a ⌉ ∗ ⌈ at_entry bs rest iter' ⌉ ∗ own bs }}.
Proof.
  intros [[_ [=]]|(i & pre & l' & a' & post & Hi & -> & [= <- <- ->])].
  apply triple_wp. iIntros "H". rewrite /step_entry /=.
  iDestruct (own_acc with "H") as "[Hes H]"; [done|].
  iEval (rewrite chain_app /=) in "Hes". iDestruct "Hes" as "(Hpre & Hl & Hpost)".
  wp_load. iDestruct ("H" $! (pre ++ (l, a) :: post) with "[Hpre Hl Hpost]") as "H".
  { rewrite chain_app /=. iFrame. }
  rewrite list_insert_id //. destruct post as [|[l' a'] post]; simpl.
  - pose proof (lookup_lt_Some _ _ _ Hi).
    replace (i + 1)%Z with (Z.of_nat (S i)) by lia. wp_bind.
    iApply (triple_use with "[]"); [apply (scan_chains_spec bs _ (S i)); lia|done|].
    iIntros ([c' p]) "%Hat". wp_pures. ipure.
  - wp_pures. iFrame. iPureIntro. split; [done|]. right.
    exists i, (pre ++ [(l, a)]), l', a', post. by rewrite -assoc_L.
Qed.
End iteration.

(** ** The sizes *)

Definition max_prime : Z := 1610612741.

Lemma primes_bounds i p : primes !! i = Some p → (0 < p ≤ max_prime)%Z.
Proof.
  intros Hp. assert (Forall (λ p, 0 < p ≤ max_prime)%Z primes) as Hall.
  { repeat constructor; rewrite /max_prime; lia. }
  eapply Forall_lookup_1 in Hall; done.
Qed.

(** The next table is larger by at least three slots. *)
Lemma primes_grow i p :
  primes !! i = Some p → (p < max_prime)%Z → ∃ p', primes !! S i = Some p' ∧ (p + 3 ≤ p')%Z.
Proof.
  rewrite /max_prime. intros Hp Hlt.
  do 24 (destruct i as [|i]; [injection Hp as <-; try lia; by eexists|]). discriminate Hp.
Qed.

Lemma wp_choose_size {A} i n p (Φ : Z → hProp (cell A)) :
  (0 ≤ i)%Z → primes !! Z.to_nat i = Some p → Φ p -∗ wp (choose_size i n) Φ.
Proof.
  iIntros (Hi Hp) "H". rewrite /choose_size bool_decide_eq_true_2.
  - by iApply wp_aget.
  - apply lookup_lt_Some in Hp. lia.
Qed.

(** ** The invariant of a table structure *)

Section invariant.
Context {A : Type} (key : A → value) (hash : value → Z) (equal : value → value → Z).
Implicit Types bs : list (list (loc * A)).

(** [bs] are the chains of a structure with these fields: the heads are stored,
    the size is the prime of the index, entries are in the chain of their hash
    and have distinct keys, the count is right, and the last insertion left at
    least two slots per entry. *)
Record table_ok (table : list ptr) (table_size entries prime_index : Z) bs : Prop := TableOk {
  ok_table : table = heads bs;
  ok_size : table_size = length bs;
  ok_index : (0 ≤ prime_index)%Z;
  ok_prime : primes !! Z.to_nat prime_index = Some table_size;
  ok_placed : placed key hash (length bs) bs;
  ok_distinct : distinct key equal (payloads bs);
  ok_entries : entries = length (payloads bs);
  ok_load : (3 * (entries - 1) < table_size)%Z
}.

Lemma ok_pos t size n i bs : table_ok t size n i bs → 0 < length bs.
Proof. intros []. destruct (primes_bounds _ _ ok_prime0) as [? _]. lia. Qed.

(** A new table, and one that took over the entries of another. *)
Lemma table_ok_init i p :
  (0 ≤ i)%Z → primes !! Z.to_nat i = Some p →
  table_ok (@heads A (replicate (Z.to_nat p) [])) p 0 i (replicate (Z.to_nat p) []).
Proof.
  intros Hi Hp. destruct (primes_bounds _ _ Hp).
  split; rewrite ?payloads_heads_nil ?length_replicate //; try lia; [apply placed_nil|].
  intros k. simpl. lia.
Qed.

Lemma table_ok_rehash t size n i bs i' p bs' :
  table_ok t size n i bs → (0 ≤ i')%Z → primes !! Z.to_nat i' = Some p → (size + 3 ≤ p)%Z →
  length bs' = Z.to_nat p → placed key hash (Z.to_nat p) bs' → payloads bs' ≡ₚ payloads bs →
  table_ok (heads bs') p n i' bs'.
Proof.
  intros [] Hi Hp Hle Hlen Hpl Hperm. destruct (primes_bounds _ _ Hp).
  split; rewrite ?Hlen //; try lia; rewrite Hperm //.
Qed.

(** Another chain at [i], and the count that goes with it. *)
Lemma table_ok_update t size n i bs j es n' :
  table_ok t size n i bs → j < length bs →
  (∀ e, e ∈ es → (hash (key e.2) mod length bs)%Z = j) →
  distinct key equal (payloads (<[j := es]> bs)) →
  n' = Z.of_nat (length (payloads (<[j := es]> bs))) → (3 * (n' - 1) < size)%Z →
  table_ok (heads (<[j := es]> bs)) size n' i (<[j := es]> bs).
Proof.
  intros [] Hj Hes Hd Hn Hload. split; rewrite ?length_insert //. by apply placed_insert.
Qed.

Section hashed.
Context `{!HashEqual hash equal}.

(** The chain of a key. *)
Lemma chain_of_key t size n i bs k :
  table_ok t size n i bs →
  ∃ es, bs !! index_of hash (length bs) k = Some es ∧
    (hash k mod size)%Z = Z.of_nat (index_of hash (length bs) k) ∧
    t !! index_of hash (length bs) k = Some (start es NULL) ∧
    length es ≤ length (payloads bs).
Proof.
  intros Hok. pose proof (ok_pos _ _ _ _ _ Hok) as Hpos. destruct Hok.
  destruct (lookup_lt_is_Some_2 bs (index_of hash (length bs) k)) as [es Hes];
    [by apply index_of_lt|].
  exists es. split_and!; [done| | |].
  - by rewrite (index_of_Z hash) // ok_size0.
  - rewrite ok_table0. by apply heads_lookup.
  - destruct (payloads_insert _ _ _ Hes) as (rest & -> & _). rewrite length_app length_fmap. lia.
Qed.

(** A new entry at the front of its chain. *)
Lemma table_ok_push t size n i bs es l x :
  table_ok t size n i bs → bs !! index_of hash (length bs) (key x) = Some es →
  Forall (λ e, equal (key e.2) (key x) = 0%Z) es → (3 * n < size)%Z →
  let bs' := <[index_of hash (length bs) (key x) := (l, x) :: es]> bs in
  hit key equal (key x) (payloads bs) = [] ∧ miss key equal (key x) (payloads bs) = payloads bs ∧
  payloads bs' ≡ₚ x :: payloads bs ∧ table_ok (heads bs') size (n + 1) i bs'.
Proof.
  intros Hok Hes Hmiss Hload bs'. pose proof (ok_pos _ _ _ _ _ Hok) as Hpos.
  destruct (bucket_missing key hash equal (length bs) bs (key x) es) as (Hhit & Hpay & Hupd);
    [done|apply Hok|done..|].
  specialize (Hupd (l, x)). simpl in Hupd. split_and!; [done..|].
  apply (table_ok_update t size n); try done.
  - by apply index_of_lt.
  - intros e [->|He]%elem_of_cons; simpl; [by rewrite index_of_Z|].
    by eapply (ok_placed _ _ _ _ _ Hok).
  - rewrite Hupd. apply (distinct_cons key hash equal); [apply Hok|done].
  - rewrite Hupd (ok_entries _ _ _ _ _ Hok) /=. lia.
  - lia.
Qed.

(** The entry equal to [k] replaced by one with the key [k], or unlinked. *)
Lemma table_ok_replace t size n i bs es1 l x es2 x' :
  table_ok t size n i bs →
  bs !! index_of hash (length bs) (key x') = Some (es1 ++ (l, x) :: es2) →
  equal (key x) (key x') ≠ 0%Z →
  let bs' := <[index_of hash (length bs) (key x') := es1 ++ (l, x') :: es2]> bs in
  payloads bs' ≡ₚ x' :: miss key equal (key x') (payloads bs) ∧ table_ok t size n i bs'.
Proof.
  intros Hok Hes Hk bs'. pose proof (ok_pos _ _ _ _ _ Hok) as Hpos.
  destruct (bucket_found key hash equal (length bs) bs (key x') es1 l x es2)
    as (Hhit & Hpay & _ & Hupd); [done|apply Hok|apply Hok|done|done|].
  specialize (Hupd x'). split; [done|].
  assert (t = heads bs') as Ht.
  { rewrite (ok_table _ _ _ _ _ Hok) /bs' heads_insert list_insert_id //.
    rewrite (heads_lookup _ _ _ Hes) !start_app. done. }
  rewrite Ht. apply (table_ok_update t size n); [done|by apply index_of_lt|..].
  - intros e [He|[->|He]%elem_of_cons]%elem_of_app; simpl.
    + eapply (ok_placed _ _ _ _ _ Hok); [done|]. apply elem_of_app. by left.
    + by rewrite index_of_Z.
    + eapply (ok_placed _ _ _ _ _ Hok); [done|]. apply elem_of_app. right. by right.
  - fold bs'. rewrite Hupd. apply (distinct_update key hash equal x); [|done]. rewrite -Hpay. apply Hok.
  - fold bs'. rewrite Hupd (ok_entries _ _ _ _ _ Hok) {1}Hpay. done.
  - apply Hok.
Qed.

Lemma table_ok_unlink t size n i bs k es1 l x es2 :
  table_ok t size n i bs →
  bs !! index_of hash (length bs) k = Some (es1 ++ (l, x) :: es2) →
  equal (key x) k ≠ 0%Z →
  let bs' := <[index_of hash (length bs) k := es1 ++ es2]> bs in
  hit key equal k (payloads bs) = [x] ∧
  payloads bs' ≡ₚ miss key equal k (payloads bs) ∧ table_ok (heads bs') size (n - 1) i bs'.
Proof.
  intros Hok Hes Hk bs'. pose proof (ok_pos _ _ _ _ _ Hok) as Hpos.
  destruct (bucket_found key hash equal (length bs) bs k es1 l x es2)
    as (Hhit & Hpay & Hdel & _); [done|apply Hok|apply Hok|done|done|].
  split_and!; [done..|].
  apply (table_ok_update t size n); [done|by apply index_of_lt|..].
  - intros e He. eapply (ok_placed _ _ _ _ _ Hok); [done|].
    apply elem_of_app in He as [He|He]; apply elem_of_app; [by left|right; by right].
  - rewrite Hdel. apply (distinct_miss key equal), Hok.
  - rewrite Hdel (ok_entries _ _ _ _ _ Hok) {1}Hpay /=. lia.
  - pose proof (ok_load _ _ _ _ _ Hok). lia.
Qed.
End hashed.
End invariant.
#[global] Arguments ok_table {A key hash equal table table_size entries prime_index bs} _.
#[global] Arguments ok_size {A key hash equal table table_size entries prime_index bs} _.
#[global] Arguments ok_index {A key hash equal table table_size entries prime_index bs} _.
#[global] Arguments ok_prime {A key hash equal table table_size entries prime_index bs} _.
#[global] Arguments ok_placed {A key hash equal table table_size entries prime_index bs} _.
#[global] Arguments ok_distinct {A key hash equal table table_size entries prime_index bs} _.
#[global] Arguments ok_entries {A key hash equal table table_size entries prime_index bs} _.
#[global] Arguments ok_load {A key hash equal table table_size entries prime_index bs} _.
#[global] Arguments ok_pos {A key hash equal t size n i bs} _.
