(* ===== verification/HashTable.v ===== *)
(** * HashTable: hash-table.c

    The table structure is the record [HashTable]; the entries are cells in
    memory, linked into the chains whose heads are [table].  The registered
    free functions belong to the client: of them the model keeps whether they
    are registered ([key_free_func], [value_free_func]) and the calls made to
    them, in order ([calls]).  [hashtable ht kvs] owns the entries of a table
    that holds the key-value pairs [kvs], in any order. *)
From stdpp Require Import base gmap list numbers.
From iris.proofmode Require Import proofmode.
From S2P Require Import Prelude Memory Compare Chain Buckets.

(** Key and value of an entry; [HashTableEntry] adds the link. *)
Abbreviation KeyValue := (value * value)%type.
Abbreviation HashTableEntry := (cell KeyValue).

Inductive free_call : Set :=
  | KeyFree (key : value)
  | ValueFree (v : value).

Record HashTable := {
  table : list ptr;
  table_size : Z;
  hash_func : value → Z;
  equal_func : value → value → Z;
  key_free_func : bool;
  value_free_func : bool;
  entries : Z;
  prime_index : Z;
  calls : list free_call
}.

Definition set_table (t : list ptr) (ht : HashTable) : HashTable :=
  {| table := t; table_size := table_size ht; hash_func := hash_func ht;
     equal_func := equal_func ht; key_free_func := key_free_func ht;
     value_free_func := value_free_func ht; entries := entries ht;
     prime_index := prime_index ht; calls := calls ht |}.
Definition set_size (t : list ptr) (size : Z) (ht : HashTable) : HashTable :=
  {| table := t; table_size := size; hash_func := hash_func ht;
     equal_func := equal_func ht; key_free_func := key_free_func ht;
     value_free_func := value_free_func ht; entries := entries ht;
     prime_index := prime_index ht; calls := calls ht |}.
Definition set_prime_index (i : Z) (ht : HashTable) : HashTable :=
  {| table := table ht; table_size := table_size ht; hash_func := hash_func ht;
     equal_func := equal_func ht; key_free_func := key_free_func ht;
     value_free_func := value_free_func ht; entries := entries ht;
     prime_index := i; calls := calls ht |}.
Definition set_entries (n : Z) (ht : HashTable) : HashTable :=
  {| table := table ht; table_size := table_size ht; hash_func := hash_func ht;
     equal_func := equal_func ht; key_free_func := key_free_func ht;
     value_free_func := value_free_func ht; entries := n;
     prime_index := prime_index ht; calls := calls ht |}.
Definition call (c : free_call) (ht : HashTable) : HashTable :=
  {| table := table ht; table_size := table_size ht; hash_func := hash_func ht;
     equal_func := equal_func ht; key_free_func := key_free_func ht;
     value_free_func := value_free_func ht; entries := entries ht;
     prime_index := prime_index ht; calls := calls ht ++ [c] |}.

(** [if (f != NULL) f(x)], recorded. *)
Definition call_if (registered : bool) (c : free_call) (ht : HashTable) : HashTable :=
  if registered then call c ht else ht.

Section hash_table_c.
Context `{Allocator HashTableEntry}.
Context (fuel : nat).

(** The returned flag is [hash_table->table != NULL]. *)
Definition hash_table_allocate_table (ht : HashTable) : M HashTableEntry (bool * HashTable) :=
  new_table_size ← choose_size (prime_index ht) (entries ht);
  granted ← malloc_array;
  if granted : bool then
    mret (true, set_size (replicate (Z.to_nat new_table_size) NULL) new_table_size ht)
  else mret (false, set_size [] new_table_size ht).

Definition hash_table_free_entry (ht : HashTable) (entry : ptr) : M HashTableEntry HashTable :=
  e ← deref entry;
  let ht := call_if (key_free_func ht) (KeyFree (c_data e).1) ht in
  let ht := call_if (value_free_func ht) (ValueFree (c_data e).2) ht in
  _ ← free entry;
  mret ht.

Definition hash_table_new (hash_func : value → Z) (equal_func : value → value → Z) :
    M HashTableEntry (option HashTable) :=
  granted ← malloc_array;
  if negb granted then mret None
  else
    '(ok, ht) ← hash_table_allocate_table
      {| table := []; table_size := 0; hash_func := hash_func; equal_func := equal_func;
         key_free_func := false; value_free_func := false; entries := 0;
         prime_index := 0; calls := [] |};
    if ok : bool then mret (Some ht) else mret None.

(** The inner loop of [hash_table_free]. *)
Definition hash_table_free_chain : ptr * HashTable → M HashTableEntry HashTable :=
  loop fuel (λ '(rover, ht),
    match rover with
    | NULL => mret (inr ht)
    | Some _ =>
        e ← deref rover;
        let next := c_next e in
        ht ← hash_table_free_entry ht rover;
        mret (inl (next, ht))
    end).

(** The result holds the calls made. *)
Definition hash_table_free (ht : HashTable) : M HashTableEntry (list free_call) :=
  ht ← for_loop (Z.to_nat (table_size ht)) 0%Z (λ i ht,
         rover ← aget (table ht) i;
         hash_table_free_chain (rover, ht)) ht;
  mret (calls ht).

Definition hash_table_register_free_functions (ht : HashTable)
    (key_free_func value_free_func : bool) : HashTable :=
  {| table := table ht; table_size := table_size ht; hash_func := hash_func ht;
     equal_func := equal_func ht; key_free_func := key_free_func;
     value_free_func := value_free_func; entries := entries ht;
     prime_index := prime_index ht; calls := calls ht |}.

Definition hash_table_enlarge (ht : HashTable) : M HashTableEntry (bool * HashTable) :=
  let old_table := table ht in
  let old_table_size := table_size ht in
  let old_prime_index := prime_index ht in
  pi ← chk (prime_index ht + 1)%Z;
  '(ok, ht) ← hash_table_allocate_table (set_prime_index pi ht);
  if negb ok then
    mret (false, set_prime_index old_prime_index (set_size old_table old_table_size ht))
  else
    t ← rehash_table fuel (λ kv, hash_func ht kv.1) (table_size ht) old_table (table ht);
    mret (true, set_table t ht).

(** The test [(entries * 3) / table_size > 0] guarding the enlargement. *)
Definition hash_table_full (ht : HashTable) : M HashTableEntry bool :=
  n ← chk (entries ht * 3)%Z;
  if bool_decide (table_size ht = 0)%Z then fail DivByZero
  else mret (bool_decide (n ÷ table_size ht > 0)%Z).

(** [insert] once the table is large enough. *)
Definition hash_table_insert_entry (ht : HashTable) (key v : value) :
    M HashTableEntry (Z * HashTable) :=
  let index := (hash_func ht key mod table_size ht)%Z in
  hd ← aget (table ht) index;
  rover ← chain_walk fuel (λ kv, bool_decide (equal_func ht kv.1 key ≠ 0%Z)) hd;
  match rover with
  | Some _ =>
      e ← deref rover;
      let ht := call_if (value_free_func ht) (ValueFree (c_data e).2) ht in
      let ht := call_if (key_free_func ht) (KeyFree (c_data e).1) ht in
      _ ← modify rover (set_data (key, v));
      mret (1%Z, ht)
  | NULL =>
      newentry ← malloc;
      match newentry with
      | NULL => mret (0%Z, ht)
      | Some _ =>
          _ ← modify newentry (set_data (key, v));
          hd ← aget (table ht) index;
          _ ← modify newentry (set_next hd);
          t ← aset (table ht) index newentry;
          n ← chk (entries ht + 1)%Z;
          mret (1%Z, set_entries n (set_table t ht))
      end
  end.

Definition hash_table_insert (ht : HashTable) (key v : value) :
    M HashTableEntry (Z * HashTable) :=
  full ← hash_table_full ht;
  if full : bool then
    '(ok, ht) ← hash_table_enlarge ht;
    if negb ok then mret (0%Z, ht) else hash_table_insert_entry ht key v
  else hash_table_insert_entry ht key v.

Definition hash_table_lookup (ht : HashTable) (key : value) : M HashTableEntry value :=
  let index := (hash_func ht key mod table_size ht)%Z in
  hd ← aget (table ht) index;
  rover ← chain_walk fuel (λ kv, bool_decide (equal_func ht key kv.1 ≠ 0%Z)) hd;
  match rover with
  | Some _ => e ← deref rover; mret (c_data e).2
  | NULL => mret VNULL
  end.

Definition hash_table_remove (ht : HashTable) (key : value) : M HashTableEntry (Z * HashTable) :=
  let index := (hash_func ht key mod table_size ht)%Z in
  hd ← aget (table ht) index;
  rover ← slot_walk fuel (λ kv, bool_decide (equal_func ht key kv.1 ≠ 0%Z)) hd SHead;
  match rover with
  | Some rover =>
      entry ← read_slot hd rover;
      e ← deref entry;
      hd ← write_slot hd rover (c_next e);
      t ← aset (table ht) index hd;
      ht ← hash_table_free_entry (set_table t ht) entry;
      n ← chk (entries ht - 1)%Z;
      mret (1%Z, set_entries n ht)
  | None => mret (0%Z, ht)
  end.

Definition hash_table_num_entries (ht : HashTable) : Z := entries ht.

Definition hash_table_iterate (ht : HashTable) (iterator : BucketIterator) :
    M HashTableEntry BucketIterator :=
  '(chain, p) ← scan_chains (Z.to_nat (table_size ht)) (table ht) 0%Z;
  match p with
  | NULL => mret {| next_entry := NULL; next_chain := next_chain iterator |}
  | Some _ => mret {| next_entry := p; next_chain := chain |}
  end.

Definition hash_table_iter_has_more (iterator : BucketIterator) : bool :=
  bool_decide (next_entry iterator ≠ NULL).

Definition hash_table_iter_next (ht : HashTable) (iterator : BucketIterator) :
    M HashTableEntry (value * BucketIterator) :=
  match next_entry iterator with
  | NULL => mret (VNULL, iterator)
  | Some _ =>
      '(kv, iterator) ← step_entry (table_size ht) (table ht) iterator;
      mret (kv.2, iterator)
  end.
End hash_table_c.

(** ** The table as a finite map

    Up to the equality of the keys, the pairs of a table are a map: what
    insertion and deletion do to it. *)
Section map.
Context (hash : value → Z) (equal : value → value → Z).
Implicit Types kvs : list KeyValue.

(** The value stored under a key. *)
Definition lookup_kv (key : value) kvs : option value :=
  snd <$> head (hit fst equal key kvs).

(** [kvs'] is the map [kvs] with [key] bound to [o]. *)
Definition map_update (key : value) (o : option value) kvs kvs' : Prop :=
  ∀ key', lookup_kv key' kvs' =
    if bool_decide (equal key key' ≠ 0%Z) then o else lookup_kv key' kvs.

Context `{!HashEqual hash equal}.

Lemma hit_miss_other key key' kvs :
  equal key key' = 0%Z → hit fst equal key' (miss fst equal key kvs) = hit fst equal key' kvs.
Proof.
  intros Hk. rewrite /hit /miss. induction kvs as [|kv kvs IH]; [done|].
  rewrite !filter_cons. case_decide as Hkv; [rewrite filter_cons; case_decide; rewrite IH //|].
  case_decide as Hkv'; [|by apply IH]. exfalso.
  apply (equal_trans key kv.1 key'); [by apply equal_sym|done..].
Qed.

Lemma lookup_kv_insert key v kvs :
  map_update key (Some v) kvs ((key, v) :: miss fst equal key kvs).
Proof.
  intros key'. rewrite /lookup_kv (hit_app _ _ _ [(key, v)]). case_bool_decide as Hk.
  - by destruct (hit_singleton fst equal key' (key, v) Hk) as [-> _].
  - destruct (hit_none fst equal key' [(key, v)]) as [-> _];
      [by constructor|]. by rewrite /= hit_miss_other.
Qed.

Lemma lookup_kv_remove key kvs : map_update key None kvs (miss fst equal key kvs).
Proof.
  intros key'. rewrite /lookup_kv. case_bool_decide as Hk; [|by rewrite hit_miss_other; [|lia]].
  destruct (hit_none fst equal key' (miss fst equal key kvs)) as [-> _]; [|done].
  apply Forall_forall. intros kv [Hkv _]%list_elem_of_filter.
  destruct (decide (equal kv.1 key' = 0%Z)) as [|Hne]; [done|exfalso].
  apply (equal_trans kv.1 key' key Hne); [by apply equal_sym|done].
Qed.
End map.

(** ** Correctness *)

Section proofs.
Context `{Allocator HashTableEntry}.
Implicit Types bs : list (list (loc * KeyValue)).
Implicit Types kvs : list KeyValue.

(** The structure invariant of a table with the chains [bs]. *)
Definition ht_ok (ht : HashTable) bs : Prop :=
  table_ok fst (hash_func ht) (equal_func ht)
    (table ht) (table_size ht) (entries ht) (prime_index ht) bs.

Definition hashtable (ht : HashTable) kvs : hProp HashTableEntry :=
  ∃ bs, ⌈ ht_ok ht bs ⌉ ∗ ⌈ kvs ≡ₚ payloads bs ⌉ ∗ own bs.

Lemma hashtable_intro ht bs kvs :
  ht_ok ht bs → kvs ≡ₚ payloads bs → own bs ⊢ hashtable ht kvs.
Proof. iIntros (??) "H". iExists bs. by iFrame. Qed.

(** What no operation but the registration changes. *)
Definition same_client (ht ht' : HashTable) : Prop :=
  hash_func ht' = hash_func ht ∧ equal_func ht' = equal_func ht ∧
  key_free_func ht' = key_free_func ht ∧ value_free_func ht' = value_free_func ht.

(** The calls that release a pair. *)
Definition release_calls (ht : HashTable) (kv : KeyValue) : list free_call :=
  (if key_free_func ht then [KeyFree kv.1] else []) ++
  (if value_free_func ht then [ValueFree kv.2] else []).
Definition overwrite_calls (ht : HashTable) (kv : KeyValue) : list free_call :=
  (if value_free_func ht then [ValueFree kv.2] else []) ++
  (if key_free_func ht then [KeyFree kv.1] else []).

(** The same table after further calls. *)
Definition add_calls (cs : list free_call) (ht : HashTable) : HashTable :=
  {| table := table ht; table_size := table_size ht; hash_func := hash_func ht;
     equal_func := equal_func ht; key_free_func := key_free_func ht;
     value_free_func := value_free_func ht; entries := entries ht;
     prime_index := prime_index ht; calls := calls ht ++ cs |}.

Lemma add_calls_nil ht : add_calls [] ht = ht.
Proof. rewrite /add_calls right_id_L. by destruct ht. Qed.
Lemma add_calls_app cs cs' ht : add_calls cs' (add_calls cs ht) = add_calls (cs ++ cs') ht.
Proof. by rewrite /add_calls /= -assoc_L. Qed.
Lemma call_if_add b c ht : call_if b c ht = add_calls (if b then [c] else []) ht.
Proof. destruct b; [done|]. by rewrite add_calls_nil. Qed.

Lemma hash_table_free_entry_spec ht l kv q :
  {{ l ↦ Cell kv q }} hash_table_free_entry ht (Some l) {{ ht',
    ⌈ ht' = add_calls (release_calls ht kv) ht ⌉ }}.
Proof.
  apply triple_wp. iIntros "Hl". rewrite /hash_table_free_entry. wp_load. wp_free.
  wp_pures. iPureIntro. by rewrite !call_if_add add_calls_app.
Qed.

(** *** Creation *)
Lemma hash_table_allocate_table_spec ht p :
  (0 ≤ prime_index ht)%Z → primes !! Z.to_nat (prime_index ht) = Some p →
  {{ emp }} hash_table_allocate_table ht {{ '(ok, ht'),
    if ok then ⌈ ht' = set_size (@heads KeyValue (replicate (Z.to_nat p) [])) p ht ⌉
    else ⌈ can_fail ∧ ht' = set_size [] p ht ⌉ }}.
Proof.
  intros Hi Hp. apply triple_wp. iIntros "_". rewrite /hash_table_allocate_table.
  wp_bind. iApply wp_choose_size; [done..|]. wp_malloc_array; wp_pures; iPureIntro; [|done].
  by rewrite heads_nil.
Qed.

(** A new table is empty; without one some allocation was refused. *)
Theorem hash_table_new_correct hash equal :
  {{ emp }} hash_table_new hash equal {{ r,
    match r with
    | None => ⌈ can_fail ⌉
    | Some ht => ⌈ hash_func ht = hash ⌉ ∗ ⌈ equal_func ht = equal ⌉ ∗ ⌈ calls ht = [] ⌉ ∗
                 hashtable ht []
    end }}.
Proof.
  apply triple_wp. iIntros "_". rewrite /hash_table_new. wp_malloc_array; [|wp_pures; ipure].
  set (ht0 := {| table := [] |}).
  assert (∃ p, primes !! Z.to_nat (prime_index ht0) = Some p) as [p Hp] by by exists 193%Z.
  wp_bind. iApply (triple_use with "[]"); [by apply (hash_table_allocate_table_spec _ p)|done|].
  iIntros ([[] ht]); [iIntros "->"|iIntros "[% ->]"]; wp_pures; [|ipure].
  do 3 (iSplit; [done|]). iExists (replicate (Z.to_nat p) []).
  iSplit; [iPureIntro; by apply table_ok_init|]. iSplit; [|by iApply own_nil].
  iPureIntro. by rewrite payloads_heads_nil.
Qed.

(** *** Release *)
Lemma hash_table_free_chain_spec fuel ht es :
  length es < fuel →
  {{ chain es NULL }} hash_table_free_chain fuel (start es NULL, ht) {{ ht',
    ⌈ ht' = add_calls (flat_map (release_calls ht) es.*2) ht ⌉ }}.
Proof.
  revert fuel ht. induction es as [|[l a] es IH]; intros [|fuel] ht Hf; simpl in Hf; try lia;
    apply triple_wp; iIntros "H"; rewrite /hash_table_free_chain; wp_loop.
  { wp_pures. iPureIntro. by rewrite add_calls_nil. }
  iDestruct "H" as "[Hl H]". wp_load. wp_call hash_table_free_entry_spec with "Hl".
  iIntros (ht') "->". wp_pures. wp_call IH with "H". iIntros (ht') "->".
  iPureIntro. by rewrite add_calls_app.
Qed.

Lemma hash_table_free_loop fuel pre bs ht :
  length (payloads bs) < fuel → table ht = heads (pre ++ bs) →
  {{ own bs }} for_loop (length bs) (length pre) (λ i ht,
         rover ← aget (table ht) i;
         hash_table_free_chain fuel (rover, ht)) ht
  {{ ht', ⌈ ht' = add_calls (flat_map (release_calls ht) (payloads bs)) ht ⌉ }}.
Proof.
  revert pre ht. induction bs as [|es bs IH]; intros pre ht Hf Ht; apply triple_wp;
    iIntros "H"; simpl.
  { wp_pures. iPureIntro. by rewrite add_calls_nil. }
  rewrite /payloads /= fmap_app length_app length_fmap in Hf.
  rewrite {1}/own /=. iDestruct "H" as "[Hes H]". wp_bind.
  iApply wp_aget; [lia| |].
  { rewrite Nat2Z.id Ht. apply heads_lookup. by apply list_lookup_middle. }
  wp_call hash_table_free_chain_spec with "Hes". iIntros (ht') "->".
  replace (length pre + 1)%Z with (Z.of_nat (length (pre ++ [es])))
    by (rewrite length_app /=; lia).
  iApply (triple_use with "H"); [apply IH; [rewrite /payloads; lia|]|].
  - by rewrite /= Ht -app_assoc.
  - iIntros (ht') "->". iPureIntro.
    by rewrite add_calls_app /payloads /= fmap_app flat_map_app.
Qed.

(** The entries of a table, in whatever chains: all that its release needs. *)
Definition chained (ht : HashTable) kvs : hProp HashTableEntry :=
  ∃ bs, ⌈ table ht = heads bs ∧ table_size ht = length bs ⌉ ∗ ⌈ kvs ≡ₚ payloads bs ⌉ ∗ own bs.

Lemma hashtable_chained ht kvs : hashtable ht kvs ⊢ chained ht kvs.
Proof.
  iIntros "(%bs & %Hok & %Hp & H)". iExists bs. iFrame. iPureIntro.
  split; [|done]. by split; [apply Hok|apply (ok_size Hok)].
Qed.

Lemma hash_table_free_spec fuel ht kvs :
  length kvs < fuel →
  {{ chained ht kvs }} hash_table_free fuel ht {{ calls', ∃ order,
    ⌈ order ≡ₚ kvs ⌉ ∗ ⌈ calls' = calls ht ++ flat_map (release_calls ht) order ⌉ }}.
Proof.
  intros Hf. apply triple_wp. iIntros "(%bs & [%Ht %Hs] & %Hp & H)". rewrite Hp in Hf.
  rewrite /hash_table_free Hs Nat2Z.id. wp_bind.
  iApply (triple_use with "H"); [by apply (hash_table_free_loop _ [] bs)|].
  iIntros (ht') "->". wp_pures. iExists (payloads bs). by iPureIntro.
Qed.

(** [hash_table_free] frees every entry and hands every pair to the
    registered free functions, once. *)
Theorem hash_table_free_correct fuel ht kvs :
  length kvs < fuel →
  {{ hashtable ht kvs }} hash_table_free fuel ht {{ calls', ∃ order,
    ⌈ order ≡ₚ kvs ⌉ ∗ ⌈ calls' = calls ht ++ flat_map (release_calls ht) order ⌉ }}.
Proof.
  intros Hf. apply triple_wp. rewrite hashtable_chained. by apply triple_wp, hash_table_free_spec.
Qed.

(** *** Enlarging *)

(** Every pair moves to the new table; a refused allocation changes nothing. *)
Lemma hash_table_enlarge_spec fuel ht kvs :
  HashEqual (hash_func ht) (equal_func ht) →
  length kvs < fuel → (table_size ht < max_prime)%Z →
  {{ hashtable ht kvs }} hash_table_enlarge fuel ht {{ '(ok, ht'),
    ⌈ same_client ht ht' ⌉ ∗ ⌈ calls ht' = calls ht ⌉ ∗ ⌈ entries ht' = entries ht ⌉ ∗
    ⌈ if ok then (3 * entries ht' < table_size ht')%Z else can_fail ∧ ht' = ht ⌉ ∗
    hashtable ht' kvs }}.
Proof.
  intros ? Hf Hsz. apply triple_wp. iIntros "(%bs & %Hok & %Hp & H)".
  destruct (primes_grow _ _ (ok_prime Hok) Hsz) as (p & Hnext & Hle).
  pose proof (lookup_lt_Some _ _ _ Hnext) as Hlt. simpl in Hlt.
  pose proof (ok_index Hok). pose proof (primes_bounds _ _ Hnext) as [Hp0 _].
  destruct (Z_of_nat_complete p) as [n ->]; [lia|].
  rewrite /hash_table_enlarge. wp_chk.
  replace (S (Z.to_nat (prime_index ht))) with (Z.to_nat (prime_index ht + 1)) in Hnext by lia.
  wp_bind. iApply (triple_use with "[]");
    [apply (hash_table_allocate_table_spec _ n); simpl; [lia|done]|done|].
  iIntros ([[] ht']); [iIntros "->"|iIntros "[%Hfail ->]"]; rewrite ?Nat2Z.id /=; last first.
  { wp_pures. rewrite (_ : set_prime_index _ _ = ht); [|by destruct ht].
    ipures.
    iExists bs. by iFrame. }
  rewrite /rehash_table (ok_table Hok) length_heads.
  wp_bind. iApply (triple_use with "[H]");
    [apply (rehash_table_spec fst (hash_func ht) _ n [] bs (replicate n []))| |].
  - by rewrite -Hp.
  - lia.
  - by rewrite length_replicate.
  - apply placed_nil.
  - iFrame. by iApply own_nil.
  - iIntros (t) "(%bs' & -> & %Hlen & %Hpl & %Hperm & H)". wp_pures.
    rewrite payloads_heads_nil right_id_L in Hperm. pose proof (ok_load Hok).
    ipures. iExists bs'. iFrame. iPureIntro. split; [|by rewrite Hperm].
    eapply (table_ok_rehash fst _ _ _ _ _ _ bs); simpl; [exact Hok|lia|done|done|..];
      by rewrite ?Nat2Z.id.
Qed.

(** *** Lookup *)

(** [hash_table_lookup] returns the value stored under an equal key, the null
    value if there is none. *)
Theorem hash_table_lookup_correct fuel ht kvs key :
  HashEqual (hash_func ht) (equal_func ht) → length kvs < fuel →
  {{ hashtable ht kvs }} hash_table_lookup fuel ht key {{ r,
    ⌈ r = default VNULL (lookup_kv (equal_func ht) key kvs) ⌉ ∗ hashtable ht kvs }}.
Proof.
  intros ? Hf. apply triple_wp. iIntros "(%bs & %Hok & %Hp & H)". rewrite Hp in Hf.
  destruct (chain_of_key _ _ _ _ _ _ _ _ key Hok) as (es & Hes & Hidx & Ht & Hlen).
  rewrite /hash_table_lookup Hidx. wp_bind. iApply wp_aget; [lia|by rewrite Nat2Z.id|].
  iDestruct (own_acc with "H") as "[Hes H]"; [done|].
  wp_bind. iApply (triple_use with "Hes"); [apply chain_walk_spec; lia|].
  iIntros (r) "[-> Hes]". pose proof (first_pass_split
    (λ kv, bool_decide (equal_func ht key kv.1 ≠ 0%Z)) es) as Hsplit.
  rewrite /lookup_kv (distinct_hit_perm _ _ _ _ _ Hp (ok_distinct Hok)).
  destruct (head _) as [[l [k v]]|]; simpl.
  - destruct Hsplit as (es1 & es2 & -> & Hk%bool_decide_eq_true%equal_sym & _).
    iEval (rewrite chain_app /=) in "Hes". iDestruct "Hes" as "(Hes1 & Hl & Hes2)".
    wp_load. wp_pures.
    destruct (bucket_found fst (hash_func ht) (equal_func ht) (length bs) bs key es1 l (k, v) es2) as (-> & _);
      [apply (ok_pos Hok)|apply Hok|apply Hok|done|done|].
    iSplit; [done|]. iExists bs. ipures.
    iDestruct ("H" $! (es1 ++ (l, (k, v)) :: es2) with "[Hes1 Hl Hes2]") as "H".
    { rewrite chain_app /=. iFrame. }
    by rewrite list_insert_id.
  - apply (walk_miss_r fst (hash_func ht)) in Hsplit; [|done].
    destruct (bucket_missing fst (hash_func ht) (equal_func ht) (length bs) bs key es) as (-> & _);
      [apply (ok_pos Hok)|apply Hok|done|done|].
    wp_pures. iSplit; [done|]. iExists bs. ipures. iDestruct ("H" with "Hes") as "H".
    by rewrite list_insert_id.
Qed.

(** *** Insertion *)

Definition inserted (ht ht' : HashTable) (key v : value) kvs (r : Z) : hProp HashTableEntry :=
  ⌈ r = 1%Z ⌉ ∗
  ⌈ calls ht' = calls ht ++ flat_map (overwrite_calls ht) (hit fst (equal_func ht) key kvs) ⌉ ∗
  hashtable ht' ((key, v) :: miss fst (equal_func ht) key kvs).
Definition refused (ht ht' : HashTable) kvs (r : Z) : hProp HashTableEntry :=
  ⌈ r = 0%Z ⌉ ∗ ⌈ can_fail ⌉ ∗ ⌈ calls ht' = calls ht ⌉ ∗ hashtable ht' kvs.

Lemma insert_entry_found ht kvs key v bs es1 l kv es2 :
  HashEqual (hash_func ht) (equal_func ht) →
  ht_ok ht bs → kvs ≡ₚ payloads bs →
  bs !! index_of (hash_func ht) (length bs) key = Some (es1 ++ (l, kv) :: es2) →
  equal_func ht kv.1 key ≠ 0%Z →
  own (<[index_of (hash_func ht) (length bs) key := es1 ++ (l, (key, v)) :: es2]> bs) ⊢
  inserted ht (add_calls (overwrite_calls ht kv) ht) key v kvs 1.
Proof.
  iIntros (? Hok Hp Hes Hk) "H".
  destruct (bucket_found fst (hash_func ht) (equal_func ht) (length bs) bs key es1 l kv es2)
    as (Hhit & _); [apply (ok_pos Hok)|apply Hok|apply Hok|done|done|].
  rewrite /inserted (distinct_hit_perm _ _ _ _ _ Hp (ok_distinct Hok)) Hhit /= right_id_L.
  destruct (table_ok_replace fst _ _ _ _ _ _ _ es1 l kv es2 (key, v) Hok Hes Hk) as [Hupd Hok'].
  iSplit; [done|]. iSplit; [done|]. iExists _. iFrame. iPureIntro. split; [exact Hok'|].
  by rewrite Hupd Hp.
Qed.

Lemma insert_entry_new ht kvs key v bs es l :
  HashEqual (hash_func ht) (equal_func ht) →
  ht_ok ht bs → kvs ≡ₚ payloads bs → (3 * entries ht < table_size ht)%Z →
  bs !! index_of (hash_func ht) (length bs) key = Some es →
  Forall (λ e, equal_func ht e.2.1 key = 0%Z) es →
  let bs' := <[index_of (hash_func ht) (length bs) key := (l, (key, v)) :: es]> bs in
  own bs' ⊢
  inserted ht (set_entries (entries ht + 1) (set_table (heads bs') ht)) key v kvs 1.
Proof.
  iIntros (? Hok Hp Hload Hes Hmiss bs') "H".
  destruct (table_ok_push fst _ _ _ _ _ _ _ _ l (key, v) Hok Hes Hmiss Hload)
    as (Hhit & Hpay & Hupd & Hok').
  rewrite /inserted (distinct_hit_perm _ _ _ _ _ Hp (ok_distinct Hok)) Hhit /= right_id_L.
  iSplit; [done|]. iSplit; [done|]. iExists bs'. iFrame. iPureIntro. split; [exact Hok'|].
  by rewrite Hupd Hp Hpay.
Qed.

Lemma hash_table_insert_entry_spec fuel ht kvs key v :
  HashEqual (hash_func ht) (equal_func ht) →
  length kvs < fuel → (3 * entries ht < table_size ht)%Z →
  {{ hashtable ht kvs }} hash_table_insert_entry fuel ht key v {{ '(r, ht'),
    ⌈ same_client ht ht' ⌉ ∗ (inserted ht ht' key v kvs r ∨ refused ht ht' kvs r) }}.
Proof.
  intros ? Hf Hload. apply triple_wp. iIntros "(%bs & %Hok & %Hp & H)".
  pose proof Hf as Hf'. rewrite Hp in Hf'. pose proof (primes_bounds _ _ (ok_prime Hok)) as Hpb.
  rewrite /max_prime in Hpb.
  destruct (chain_of_key _ _ _ _ _ _ _ _ key Hok) as (es & Hes & Hidx & Ht & Hlen).
  rewrite /hash_table_insert_entry Hidx. wp_bind. iApply wp_aget; [lia|by rewrite Nat2Z.id|].
  iDestruct (own_acc with "H") as "[Hes H]"; [done|].
  wp_bind. iApply (triple_use with "Hes"); [apply chain_walk_spec; lia|].
  iIntros (r) "[-> Hes]". pose proof (first_pass_split
    (λ kv, bool_decide (equal_func ht kv.1 key ≠ 0%Z)) es) as Hsplit.
  destruct (head _) as [[l kv]|]; simpl.
  - destruct Hsplit as (es1 & es2 & -> & Hk%bool_decide_eq_true & _).
    iEval (rewrite chain_app /=) in "Hes". iDestruct "Hes" as "(Hes1 & Hl & Hes2)".
    wp_load. wp_store. wp_pures. rewrite !call_if_add add_calls_app.
    iSplit; [done|]. iLeft. iApply insert_entry_found; try done.
    iApply "H". rewrite chain_app /=. iFrame.
  - apply (walk_miss_l fst) in Hsplit.
    wp_malloc l as "Hl"; last first.
    { wp_pures. iSplit; [done|]. iRight. rewrite /refused. ipures. iExists bs. ipures.
      iDestruct ("H" with "Hes") as "H". by rewrite list_insert_id. }
    wp_store. wp_bind. iApply wp_aget; [lia|by rewrite Nat2Z.id|]. wp_store.
    wp_bind. iApply wp_aset.
    { pose proof (lookup_lt_Some _ _ _ Ht). lia. }
    rewrite Nat2Z.id. pose proof (ok_entries Hok). wp_chk. wp_pures.
    iSplit; [done|]. iLeft. rewrite (ok_table Hok).
    replace (<[_ := Some l]> (heads bs)) with
      (heads (<[index_of (hash_func ht) (length bs) key := (l, (key, v)) :: es]> bs))
      by apply heads_insert.
    iApply insert_entry_new; try done.
    iApply "H". simpl. iFrame.
Qed.

Lemma hash_table_full_spec ht bs :
  ht_ok ht bs → (3 * entries ht < max_prime)%Z →
  {{ emp }} hash_table_full ht {{ b,
    ⌈ b = bool_decide (table_size ht ≤ 3 * entries ht)%Z ⌉ }}.
Proof.
  intros Hok Hmax. apply triple_wp. iIntros "_". rewrite /hash_table_full.
  pose proof (ok_entries Hok). pose proof (primes_bounds _ _ (ok_prime Hok)).
  rewrite /max_prime in Hmax. wp_chk. rewrite bool_decide_eq_false_2; [|lia].
  wp_pures. iPureIntro. apply bool_decide_ext. by rewrite quot_positive; [|lia..].
Qed.

Lemma same_client_trans ht1 ht2 ht3 :
  same_client ht1 ht2 → same_client ht2 ht3 → same_client ht1 ht3.
Proof. rewrite /same_client. intuition congruence. Qed.

Lemma outcome_same_client ht1 ht2 ht key v kvs r :
  same_client ht1 ht2 → calls ht2 = calls ht1 →
  inserted ht2 ht key v kvs r ∨ refused ht2 ht kvs r ⊢
  inserted ht1 ht key v kvs r ∨ refused ht1 ht kvs r.
Proof.
  intros (_ & He & Hk & Hv) Hc. by rewrite /inserted /refused /overwrite_calls He Hk Hv Hc.
Qed.

Lemma hash_table_insert_spec fuel ht kvs key v :
  HashEqual (hash_func ht) (equal_func ht) →
  length kvs < fuel → (3 * length kvs < max_prime)%Z →
  {{ hashtable ht kvs }} hash_table_insert fuel ht key v {{ '(r, ht'),
    ⌈ same_client ht ht' ⌉ ∗ (inserted ht ht' key v kvs r ∨ refused ht ht' kvs r) }}.
Proof.
  intros ? Hf Hmax. apply triple_wp. iIntros "H". rewrite /hash_table_insert.
  iDestruct "H" as "(%bs & %Hok & %Hp & H)". pose proof (ok_entries Hok) as Hn.
  rewrite -Hp in Hn. wp_bind.
  iApply (triple_use with "[]"); [apply (hash_table_full_spec _ _ Hok); lia|done|].
  iAssert (hashtable ht kvs) with "[H]" as "H"; [iExists bs; by iFrame|].
  iIntros (b) "->". case_bool_decide.
  - wp_call hash_table_enlarge_spec with "H". iIntros ([ok ht']) "(%Hsame & %Hc & %He & %Hl & H)".
    destruct ok; simpl; last first.
    { destruct Hl as [? ->]. wp_pures. iSplit; [done|]. iRight. rewrite /refused. by ipures. }
    destruct (Hsame) as (Hh & Heq & _).
    iApply (triple_use with "H"); [apply hash_table_insert_entry_spec; [|done..]|].
    { by rewrite Hh Heq. }
    iIntros ([r ht'']) "[%Hsame' H]". iSplit; [iPureIntro; by eapply same_client_trans|].
    by iApply outcome_same_client.
  - iApply (triple_use with "H"); [apply hash_table_insert_entry_spec; [done..|lia]|].
    by iIntros ([r ht']) "[$ $]".
Qed.

(** C1. [hash_table_insert] binds the key, replacing the pair with an equal key
    (handed to the free functions); it fails only when an allocation is
    refused, and then the table keeps its pairs. *)
Theorem hash_table_insert_correct fuel ht kvs key v :
  HashEqual (hash_func ht) (equal_func ht) →
  length kvs < fuel → (3 * length kvs < max_prime)%Z →
  {{ hashtable ht kvs }} hash_table_insert fuel ht key v {{ '(r, ht'),
    ⌈ same_client ht ht' ⌉ ∗
    ⌈ map_update (equal_func ht) key (Some v) kvs
        ((key, v) :: miss fst (equal_func ht) key kvs) ⌉ ∗
    (inserted ht ht' key v kvs r ∨ refused ht ht' kvs r) }}.
Proof.
  intros ? Hf Hmax. apply triple_wp. iIntros "H".
  iApply (triple_use with "H"); [by apply hash_table_insert_spec|].
  iIntros ([r ht']) "[$ $]". iPureIntro. by apply (lookup_kv_insert (hash_func ht)).
Qed.

(** *** Removal *)
Lemma hash_table_remove_spec fuel ht kvs key :
  HashEqual (hash_func ht) (equal_func ht) →
  length kvs < fuel → (length kvs ≤ INT_MAX)%Z →
  {{ hashtable ht kvs }} hash_table_remove fuel ht key {{ '(r, ht'),
    let found := hit fst (equal_func ht) key kvs in
    ⌈ same_client ht ht' ⌉ ∗ ⌈ r = length found ⌉ ∗
    ⌈ calls ht' = calls ht ++ flat_map (release_calls ht) found ⌉ ∗
    hashtable ht' (miss fst (equal_func ht) key kvs) }}.
Proof.
  intros ? Hf Hmax. apply triple_wp. iIntros "(%bs & %Hok & %Hp & H)".
  rewrite Hp in Hf Hmax.
  destruct (chain_of_key _ _ _ _ _ _ _ _ key Hok) as (es & Hes & Hidx & Ht & Hlen).
  rewrite /hash_table_remove Hidx. wp_bind. iApply wp_aget; [lia|by rewrite Nat2Z.id|].
  iDestruct (own_acc with "H") as "[Hes H]"; [done|].
  rewrite (distinct_hit_perm _ _ _ _ _ Hp (ok_distinct Hok)).
  wp_bind. iApply (triple_use with "[Hes]");
    [apply (slot_walk_spec _ _ [] es); lia|simpl; by iFrame|].
  iIntros ([s|]) "Hs"; simpl.
  - iDestruct "Hs" as (es1 l kv es2 (-> & -> & Hk%bool_decide_eq_true%equal_sym & _))
      "(Hes1 & Hl & Hes2)".
    destruct (table_ok_unlink fst _ _ _ _ _ _ _ key es1 l kv es2 Hok Hes Hk) as (-> & Hdel & Hok').
    rewrite start_app /=. wp_bind. iApply (wp_read_slot with "Hes1"). iIntros "Hes1".
    wp_load. wp_bind. iApply (wp_write_slot with "Hes1"). iIntros "Hes1".
    wp_bind. iApply wp_aset; [pose proof (lookup_lt_Some _ _ _ Ht); lia|].
    wp_call hash_table_free_entry_spec with "Hl". iIntros (ht') "->".
    pose proof (ok_entries Hok) as Hn. rewrite Nat2Z.id. wp_chk. wp_pures.
    rewrite /= app_nil_r. do 3 (iSplit; [done|]).
    rewrite (ok_table Hok) -start_app.
    replace (<[_ := start (es1 ++ es2) NULL]> (heads bs)) with
      (heads (<[index_of (hash_func ht) (length bs) key := es1 ++ es2]> bs))
      by apply heads_insert.
    iExists (<[index_of (hash_func ht) (length bs) key := es1 ++ es2]> bs).
    iDestruct ("H" $! (es1 ++ es2) with "[Hes1 Hes2]") as "$".
    { rewrite chain_app. iFrame. }
    iPureIntro. split; [exact Hok'|by rewrite Hdel Hp].
  - iDestruct "Hs" as (Hmiss) "[_ Hes]". apply (walk_miss_r fst (hash_func ht)) in Hmiss; [|done].
    destruct (bucket_missing fst (hash_func ht) (equal_func ht) (length bs) bs key es)
      as (-> & Hpay & _); [apply (ok_pos Hok)|apply Hok|done|done|].
    wp_pures. rewrite /= app_nil_r. ipures. iExists bs. iSplit; [done|]. iSplit.
    { iPureIntro. by rewrite Hp Hpay. }
    iDestruct ("H" with "Hes") as "H". by rewrite list_insert_id.
Qed.

(** C38. For callbacks that give equal keys equal hashes, [hash_table_remove] unlinks the pair with an equal key, if there
    is one, hands it to the free functions and frees its entry, and says whether there was one; the map loses that key and no
    other. *)
Theorem hash_table_remove_correct fuel ht kvs key :
  HashEqual (hash_func ht) (equal_func ht) →
  length kvs < fuel → (length kvs ≤ INT_MAX)%Z →
  {{ hashtable ht kvs }} hash_table_remove fuel ht key {{ '(r, ht'),
    let found := hit fst (equal_func ht) key kvs in
    ⌈ same_client ht ht' ⌉ ∗ ⌈ r = length found ⌉ ∗
    ⌈ calls ht' = calls ht ++ flat_map (release_calls ht) found ⌉ ∗
    ⌈ map_update (equal_func ht) key None kvs (miss fst (equal_func ht) key kvs) ⌉ ∗
    hashtable ht' (miss fst (equal_func ht) key kvs) }}.
Proof.
  intros ? Hf Hmax. apply triple_wp. iIntros "H".
  iApply (triple_use with "H"); [by apply hash_table_remove_spec|].
  iIntros ([r ht']) "($ & $ & $ & $)". iPureIntro. by apply (lookup_kv_remove (hash_func ht)).
Qed.

(** *** Iteration *)

(** A table holding [kvs] and an iterator that has the pairs [rest] before it. *)
Definition hashtable_iter (ht : HashTable) kvs (rest : list KeyValue) (iter : BucketIterator) :
    hProp HashTableEntry :=
  ∃ bs res, ⌈ ht_ok ht bs ⌉ ∗ ⌈ kvs ≡ₚ payloads bs ⌉ ∗
    ⌈ at_entry bs res iter ∧ rest = res.*2 ⌉ ∗ own bs.

(** A fresh iterator has every pair of the table before it, once. *)
Theorem hash_table_iterate_correct ht kvs iter :
  {{ hashtable ht kvs }} hash_table_iterate ht iter {{ iter', ∃ order,
    ⌈ order ≡ₚ kvs ⌉ ∗ hashtable_iter ht kvs order iter' }}.
Proof.
  apply triple_wp. iIntros "(%bs & %Hok & %Hp & H)". rewrite /hash_table_iterate.
  rewrite (ok_table Hok) (ok_size Hok). wp_bind.
  iApply (triple_use with "[]"); [apply scan_all_spec|done|].
  iIntros ([c p]) "%Hat".
  iAssert (∀ it, ⌈ at_entry bs (concat bs) it ⌉ -∗
    ⌈ payloads bs ≡ₚ kvs ⌉ ∗ hashtable_iter ht kvs (payloads bs) it)%I with "[H]" as "H".
  { iIntros (it Hat'). iSplit; [done|]. iExists bs, (concat bs). by iFrame. }
  destruct p as [l|]; simpl; wp_pures; iExists (payloads bs); iApply "H"; iPureIntro; [done|].
  left. split; [done|]. by apply (at_entry_more _ _ _ Hat).
Qed.

Lemma hash_table_iter_has_more_spec bs rest iter :
  at_entry bs rest iter → hash_table_iter_has_more iter = bool_decide (rest ≠ []).
Proof.
  intros Hat%at_entry_more. rewrite /hash_table_iter_has_more. apply bool_decide_ext.
  by rewrite Hat.
Qed.

(** [hash_table_iter_next] returns the value of the next pair, the null value
    at the end; [hash_table_iter_has_more] tells which. *)
Theorem hash_table_iter_next_correct ht kvs rest iter :
  {{ hashtable_iter ht kvs rest iter }} hash_table_iter_next ht iter {{ '(v, iter'),
    ⌈ hash_table_iter_has_more iter = bool_decide (rest ≠ []) ⌉ ∗
    ⌈ v = default VNULL (snd <$> head rest) ⌉ ∗ hashtable_iter ht kvs (tail rest) iter' }}.
Proof.
  apply triple_wp. iIntros "(%bs & %res & %Hok & %Hp & [%Hat ->] & H)".
  pose proof (at_entry_more _ _ _ Hat) as Hmore. rewrite /hash_table_iter_next.
  rewrite (hash_table_iter_has_more_spec _ _ _ Hat).
  destruct res as [|[l kv] res]; simpl in *.
  - rewrite (proj2 Hmore) //. wp_pures. ipures. iExists bs, []. by iFrame.
  - destruct (next_entry iter) eqn:He; [|discriminate (proj1 Hmore eq_refl)].
    rewrite (ok_table Hok) (ok_size Hok).
    wp_bind. iApply (triple_use with "H"); [by eapply step_entry_spec|].
    iIntros ([x it]) "(-> & %Hat' & H)". wp_pures. ipures. iExists bs, res. by iFrame.
Qed.
End proofs.

(** ** Runs

    The theorems at a table of 193 chains that binds 7 to 70, keys being
    pointers. *)
Module Runs.
#[local] Instance grant : Allocator HashTableEntry := total_alloc (Cell (0%Z, 0%Z) NULL).
Definition chain7 : list (loc * KeyValue) := [(1%positive, (7%Z, 70%Z))].
Definition buckets7 : list (list (loc * KeyValue)) := <[7 := chain7]> (replicate 193 []).
Definition table7 : HashTable :=
  {| table := heads buckets7; table_size := 193; hash_func := pointer_hash;
     equal_func := pointer_equal; key_free_func := false; value_free_func := true;
     entries := 1; prime_index := 0; calls := [] |}.
Definition heap7 : gmap loc HashTableEntry := chain_cells chain7 NULL.

Lemma table7_ok : ht_ok table7 buckets7.
Proof.
  assert (payloads buckets7 ≡ₚ [(7%Z, 70%Z)]) as Hp by (apply (payloads_single 193 7 chain7); lia).
  split; try done.
  - apply placed_insert; [apply placed_nil|]. intros e ->%list_elem_of_singleton. done.
  - rewrite Hp. apply (distinct_cons fst pointer_hash pointer_equal); [|done].
    intros k. simpl. lia.
Qed.

Lemma table7_holds : holds (hashtable table7 [(7%Z, 70%Z)]) heap7.
Proof.
  apply (holds_mono (chain chain7 NULL)); [|by apply holds_chain_run].
  etrans; [apply (own_single 193 7 chain7); lia|].
  apply hashtable_intro; [apply table7_ok|]. symmetry. apply (payloads_single 193 7 chain7). lia.
Qed.

Lemma hash_table_free_correct_witness :
  ∃ cs h' t', hash_table_free 2 table7 (Mem heap7 0) = Ok (cs, Mem h' t').
Proof.
  destruct (triple_run _ _ _ heap7 0 (hash_table_free_correct 2 table7 [(7%Z, 70%Z)]
    ltac:(simpl; lia)) table7_holds) as (cs & h' & t' & E & HQ).
  exists cs, h', t'. exact E.
Defined.

Lemma hash_table_lookup_correct_witness :
  ∃ h' t', hash_table_lookup 2 table7 7%Z (Mem heap7 0) = Ok (70%Z, Mem h' t').
Proof.
  destruct (triple_run _ _ _ heap7 0 (hash_table_lookup_correct 2 table7 [(7%Z, 70%Z)] 7%Z
    _ ltac:(simpl; lia)) table7_holds) as (v & h' & t' & E & HQ).
  exists h', t'. apply holds_pure_sep in HQ as [-> _]. exact E.
Defined.

Lemma hash_table_insert_correct_witness :
  ∃ r h' t', hash_table_insert 2 table7 8%Z 80%Z (Mem heap7 0) = Ok (r, Mem h' t').
Proof.
  destruct (triple_run _ _ _ heap7 0 (hash_table_insert_correct 2 table7 [(7%Z, 70%Z)] 8%Z 80%Z
    _ ltac:(simpl; lia) ltac:(rewrite /max_prime; simpl; lia)) table7_holds)
    as (r & h' & t' & E & HQ).
  exists r, h', t'. exact E.
Defined.

Lemma hash_table_remove_correct_witness :
  ∃ ht h' t', hash_table_remove 2 table7 7%Z (Mem heap7 0) = Ok ((1%Z, ht), Mem h' t').
Proof.
  destruct (triple_run _ _ _ heap7 0 (hash_table_remove_correct 2 table7 [(7%Z, 70%Z)] 7%Z
    _ ltac:(simpl; lia) ltac:(simpl; int_tac)) table7_holds) as ([r ht] & h' & t' & E & HQ).
  exists ht, h', t'. apply holds_pure_sep in HQ as [_ HQ].
  apply holds_pure_sep in HQ as [-> _]. exact E.
Defined.
End Runs.
