(* ===== verification/HashSet.v ===== *)
(** * HashSet: set.c

    The structure is the record [SetStruct]; its entries are cells in memory,
    linked into the chains whose heads are [table].  The registered free
    function belongs to the client: the model keeps whether there is one and
    the values handed to it, in order ([freed]).  [hashset st xs] owns the
    entries of a set whose values are [xs], in any order. *)
From stdpp Require Import base gmap list numbers.
From iris.proofmode Require Import proofmode.
From S2P Require Import Prelude Memory Compare Chain Buckets.

Abbreviation SetEntry := (cell value).

Record SetStruct := {
  table : list ptr;
  entries : Z;
  table_size : Z;
  prime_index : Z;
  hash_func : value → Z;
  equal_func : value → value → Z;
  free_func : bool;
  freed : list value
}.

Definition set_table (t : list ptr) (st : SetStruct) : SetStruct :=
  {| table := t; entries := entries st; table_size := table_size st;
     prime_index := prime_index st; hash_func := hash_func st; equal_func := equal_func st;
     free_func := free_func st; freed := freed st |}.
Definition set_size (t : list ptr) (size : Z) (st : SetStruct) : SetStruct :=
  {| table := t; entries := entries st; table_size := size;
     prime_index := prime_index st; hash_func := hash_func st; equal_func := equal_func st;
     free_func := free_func st; freed := freed st |}.
Definition set_prime_index (i : Z) (st : SetStruct) : SetStruct :=
  {| table := table st; entries := entries st; table_size := table_size st;
     prime_index := i; hash_func := hash_func st; equal_func := equal_func st;
     free_func := free_func st; freed := freed st |}.
Definition set_entries (n : Z) (st : SetStruct) : SetStruct :=
  {| table := table st; entries := n; table_size := table_size st;
     prime_index := prime_index st; hash_func := hash_func st; equal_func := equal_func st;
     free_func := free_func st; freed := freed st |}.
Definition set_freed (xs : list value) (st : SetStruct) : SetStruct :=
  {| table := table st; entries := entries st; table_size := table_size st;
     prime_index := prime_index st; hash_func := hash_func st; equal_func := equal_func st;
     free_func := free_func st; freed := freed st ++ xs |}.

Section set_c.
Context `{Allocator SetEntry}.
Context (fuel : nat).

(** The returned flag is [set->table != NULL]. *)
Definition set_allocate_table (st : SetStruct) : M SetEntry (bool * SetStruct) :=
  size ← choose_size (prime_index st) (entries st);
  granted ← malloc_array;
  if granted : bool then mret (true, set_size (replicate (Z.to_nat size) NULL) size st)
  else mret (false, set_size [] size st).

Definition set_free_entry (st : SetStruct) (entry : ptr) : M SetEntry SetStruct :=
  e ← deref entry;
  let st := if free_func st then set_freed [c_data e] st else st in
  _ ← free entry;
  mret st.

Definition set_new (hash_func : value → Z) (equal_func : value → value → Z) :
    M SetEntry (option SetStruct) :=
  granted ← malloc_array;
  if negb granted then mret None
  else
    '(ok, st) ← set_allocate_table
      {| table := []; entries := 0; table_size := 0; prime_index := 0;
         hash_func := hash_func; equal_func := equal_func; free_func := false; freed := [] |};
    if ok : bool then mret (Some st) else mret None.

(** The inner loop of [set_free]. *)
Definition set_free_chain : ptr * SetStruct → M SetEntry SetStruct :=
  loop fuel (λ '(rover, st),
    match rover with
    | NULL => mret (inr st)
    | Some _ =>
        e ← deref rover;
        let next := c_next e in
        st ← set_free_entry st rover;
        mret (inl (next, st))
    end).

(** The result holds the values handed to the free function. *)
Definition set_free (st : SetStruct) : M SetEntry (list value) :=
  st ← for_loop (Z.to_nat (table_size st)) 0%Z (λ i st,
         rover ← aget (table st) i;
         set_free_chain (rover, st)) st;
  mret (freed st).

Definition set_register_free_function (st : SetStruct) (free_func : bool) : SetStruct :=
  {| table := table st; entries := entries st; table_size := table_size st;
     prime_index := prime_index st; hash_func := hash_func st; equal_func := equal_func st;
     free_func := free_func; freed := freed st |}.

Definition set_enlarge (st : SetStruct) : M SetEntry (bool * SetStruct) :=
  let old_table := table st in
  let old_table_size := table_size st in
  let old_prime_index := prime_index st in
  pi ← chk (prime_index st + 1)%Z;
  '(ok, st) ← set_allocate_table (set_prime_index pi st);
  if negb ok then
    mret (false, set_prime_index old_prime_index (set_size old_table old_table_size st))
  else
    t ← rehash_table fuel (hash_func st) (table_size st) old_table (table st);
    mret (true, set_table t st).

(** The test [(entries * 3) / table_size > 0] guarding the enlargement. *)
Definition set_full (st : SetStruct) : M SetEntry bool :=
  n ← chk (entries st * 3)%Z;
  if bool_decide (table_size st = 0)%Z then fail DivByZero
  else mret (bool_decide (n ÷ table_size st > 0)%Z).

(** [set_insert] once the table is large enough. *)
Definition set_insert_entry (st : SetStruct) (data : value) : M SetEntry (Z * SetStruct) :=
  let index := (hash_func st data mod table_size st)%Z in
  hd ← aget (table st) index;
  rover ← chain_walk fuel (λ x, bool_decide (equal_func st data x ≠ 0%Z)) hd;
  match rover with
  | Some _ => mret (0%Z, st)
  | NULL =>
      newentry ← malloc;
      match newentry with
      | NULL => mret (0%Z, st)
      | Some _ =>
          _ ← modify newentry (set_data data);
          hd ← aget (table st) index;
          _ ← modify newentry (set_next hd);
          t ← aset (table st) index newentry;
          n ← chk (entries st + 1)%Z;
          mret (1%Z, set_entries n (set_table t st))
      end
  end.

Definition set_insert (st : SetStruct) (data : value) : M SetEntry (Z * SetStruct) :=
  full ← set_full st;
  if full : bool then
    '(ok, st) ← set_enlarge st;
    if negb ok then mret (0%Z, st) else set_insert_entry st data
  else set_insert_entry st data.

Definition set_remove (st : SetStruct) (data : value) : M SetEntry (Z * SetStruct) :=
  let index := (hash_func st data mod table_size st)%Z in
  hd ← aget (table st) index;
  rover ← slot_walk fuel (λ x, bool_decide (equal_func st data x ≠ 0%Z)) hd SHead;
  match rover with
  | Some rover =>
      entry ← read_slot hd rover;
      e ← deref entry;
      hd ← write_slot hd rover (c_next e);
      t ← aset (table st) index hd;
      n ← chk (entries st - 1)%Z;
      st ← set_free_entry (set_entries n (set_table t st)) entry;
      mret (1%Z, st)
  | None => mret (0%Z, st)
  end.

Definition set_query (st : SetStruct) (data : value) : M SetEntry Z :=
  let index := (hash_func st data mod table_size st)%Z in
  hd ← aget (table st) index;
  rover ← chain_walk fuel (λ x, bool_decide (equal_func st data x ≠ 0%Z)) hd;
  match rover with
  | Some _ => mret 1%Z
  | NULL => mret 0%Z
  end.

Definition set_num_entries (st : SetStruct) : Z := entries st.

(** The inner loop of [set_to_array]; the state is [rover], [array_counter] and
    the array. *)
Definition set_copy_chain : ptr * Z * array value → M SetEntry (Z * array value) :=
  loop fuel (λ '(rover, array_counter, array),
    match rover with
    | NULL => mret (inr (array_counter, array))
    | Some _ =>
        e ← deref rover;
        array ← aset array array_counter (Some (c_data e));
        array_counter ← chk (array_counter + 1)%Z;
        mret (inl (c_next e, array_counter, array))
    end).

(** The array is [None] when it could not be allocated. *)
Definition set_to_array (st : SetStruct) : M SetEntry (option (array value)) :=
  granted ← malloc_array;
  if negb granted then mret None
  else
    '(_, array) ← for_loop (Z.to_nat (table_size st)) 0%Z (λ i '(array_counter, array),
        rover ← aget (table st) i;
        set_copy_chain (rover, array_counter, array))
      (0%Z, replicate (Z.to_nat (entries st)) None);
    mret (Some array).

Definition set_iterate (st : SetStruct) : M SetEntry BucketIterator :=
  '(chain, p) ← scan_chains (Z.to_nat (table_size st)) (table st) 0%Z;
  mret {| next_entry := p; next_chain := chain |}.

Definition set_iter_has_more (iterator : BucketIterator) : bool :=
  bool_decide (next_entry iterator ≠ NULL).

Definition set_iter_next (st : SetStruct) (iterator : BucketIterator) :
    M SetEntry (value * BucketIterator) :=
  match next_entry iterator with
  | NULL => mret (VNULL, iterator)
  | Some _ => step_entry (table_size st) (table st) iterator
  end.

(** A loop of [set_union] and [set_intersection]: every value of [st] that
    passes the test is inserted into [new_set]; a refused insertion frees it. *)
Definition set_insert_all_body (st : SetStruct) (wanted : SetStruct → value → M SetEntry bool)
    (s : BucketIterator * SetStruct) :
    M SetEntry (BucketIterator * SetStruct + option SetStruct) :=
  let '(iterator, new_set) := s in
  if set_iter_has_more iterator then
    '(v, iterator) ← set_iter_next st iterator;
    want ← wanted new_set v;
    if want : bool then
      '(r, new_set) ← set_insert new_set v;
      if bool_decide (r = 0%Z) then
        _ ← set_free new_set;
        mret (inr None)
      else mret (inl (iterator, new_set))
    else mret (inl (iterator, new_set))
  else mret (inr (Some new_set)).

Definition set_insert_all (st : SetStruct) (wanted : SetStruct → value → M SetEntry bool) :
    BucketIterator * SetStruct → M SetEntry (option SetStruct) :=
  loop fuel (set_insert_all_body st wanted).

Definition set_union (set1 set2 : SetStruct) : M SetEntry (option SetStruct) :=
  new_set ← set_new (hash_func set1) (equal_func set1);
  match new_set with
  | None => mret None
  | Some new_set =>
      iterator ← set_iterate set1;
      new_set ← set_insert_all set1 (λ _ _, mret true) (iterator, new_set);
      match new_set with
      | None => mret None
      | Some new_set =>
          iterator ← set_iterate set2;
          set_insert_all set2 (λ new_set v,
            q ← set_query new_set v; mret (bool_decide (q = 0%Z))) (iterator, new_set)
      end
  end.

Definition set_intersection (set1 set2 : SetStruct) : M SetEntry (option SetStruct) :=
  new_set ← set_new (hash_func set1) (equal_func set2);
  match new_set with
  | None => mret None
  | Some new_set =>
      iterator ← set_iterate set1;
      set_insert_all set1 (λ _ v,
        q ← set_query set2 v; mret (bool_decide (q ≠ 0%Z))) (iterator, new_set)
  end.
End set_c.

(** ** Correctness *)

Section proofs.
Context `{Allocator SetEntry}.
Implicit Types bs : list (list (loc * value)).
Implicit Types xs ys zs : list value.

Definition st_ok (st : SetStruct) bs : Prop :=
  table_ok id (hash_func st) (equal_func st)
    (table st) (table_size st) (entries st) (prime_index st) bs.

Definition hashset (st : SetStruct) xs : hProp SetEntry :=
  ∃ bs, ⌈ st_ok st bs ⌉ ∗ ⌈ xs ≡ₚ payloads bs ⌉ ∗ own bs.

Lemma hashset_intro st bs xs :
  st_ok st bs → xs ≡ₚ payloads bs → own bs ⊢ hashset st xs.
Proof. iIntros (??) "H". iExists bs. by iFrame. Qed.

(** What no operation but the registration changes. *)
Definition same_client (st st' : SetStruct) : Prop :=
  hash_func st' = hash_func st ∧ equal_func st' = equal_func st ∧ free_func st' = free_func st.

Lemma set_client_trans st1 st2 st3 :
  same_client st1 st2 → same_client st2 st3 → same_client st1 st3.
Proof. rewrite /same_client. intuition congruence. Qed.

(** The values equal to one of [xs]. *)
Definition mem (equal : value → value → Z) (x : value) xs : Prop := hit id equal x xs ≠ [].

Lemma mem_iff equal x xs : mem equal x xs ↔ ∃ y, y ∈ xs ∧ equal y x ≠ 0%Z.
Proof.
  rewrite /mem. split.
  - destruct (hit id equal x xs) as [|y l] eqn:E; [done|]. intros _. exists y.
    assert (y ∈ y :: l) as Hy by left. rewrite -E in Hy.
    by apply list_elem_of_filter in Hy as [??].
  - intros (y & Hy & Hx) Hnil. apply (not_elem_of_nil y). rewrite -Hnil.
    by apply list_elem_of_filter.
Qed.

Global Instance mem_dec equal x xs : Decision (mem equal x xs).
Proof. rewrite /mem. apply _. Defined.

(** The values that the free function gets. *)
Definition freed_values (st : SetStruct) xs : list value := if free_func st then xs else [].

Lemma set_free_entry_spec st l x q :
  {{ l ↦ Cell x q }} set_free_entry st (Some l) {{ st',
    ⌈ st' = set_freed (freed_values st [x]) st ⌉ }}.
Proof.
  apply triple_wp. iIntros "Hl". rewrite /set_free_entry. wp_load. wp_free.
  wp_pures. iPureIntro. rewrite /freed_values. destruct (free_func st) eqn:E; [done|].
  rewrite /set_freed right_id_L. by destruct st.
Qed.

Lemma set_freed_nil st : set_freed [] st = st.
Proof. rewrite /set_freed right_id_L. by destruct st. Qed.
Lemma set_freed_app xs ys st :
  set_freed (freed_values (set_freed (freed_values st xs) st) ys)
    (set_freed (freed_values st xs) st) =
  set_freed (freed_values st (xs ++ ys)) st.
Proof. rewrite /set_freed /freed_values /=. destruct (free_func st); by rewrite -assoc_L. Qed.

(** *** Creation and release *)
Lemma set_allocate_table_spec st p :
  (0 ≤ prime_index st)%Z → primes !! Z.to_nat (prime_index st) = Some p →
  {{ emp }} set_allocate_table st {{ '(ok, st'),
    if ok then ⌈ st' = set_size (@heads value (replicate (Z.to_nat p) [])) p st ⌉
    else ⌈ can_fail ∧ st' = set_size [] p st ⌉ }}.
Proof.
  intros Hi Hp. apply triple_wp. iIntros "_". rewrite /set_allocate_table.
  wp_bind. iApply wp_choose_size; [done..|]. wp_malloc_array; wp_pures; iPureIntro; [|done].
  by rewrite heads_nil.
Qed.

Lemma set_new_spec hash equal :
  {{ emp }} set_new hash equal {{ r,
    match r with
    | None => ⌈ can_fail ⌉
    | Some st => ⌈ hash_func st = hash ⌉ ∗ ⌈ equal_func st = equal ⌉ ∗
                 ⌈ free_func st = false ⌉ ∗ ⌈ freed st = [] ⌉ ∗ hashset st []
    end }}.
Proof.
  apply triple_wp. iIntros "_". rewrite /set_new. wp_malloc_array; [|wp_pures; ipure].
  set (st0 := {| table := [] |}).
  assert (∃ p, primes !! Z.to_nat (prime_index st0) = Some p) as [p Hp] by by exists 193%Z.
  wp_bind. iApply (triple_use with "[]"); [by apply (set_allocate_table_spec _ p)|done|].
  iIntros ([[] st]); [iIntros "->"|iIntros "[% ->]"]; wp_pures; [|ipure].
  do 4 (iSplit; [done|]). iExists (replicate (Z.to_nat p) []).
  iSplit; [iPureIntro; by apply table_ok_init|]. iSplit; [|by iApply own_nil].
  iPureIntro. by rewrite payloads_heads_nil.
Qed.

Lemma set_free_chain_spec fuel st es :
  length es < fuel →
  {{ chain es NULL }} set_free_chain fuel (start es NULL, st) {{ st',
    ⌈ st' = set_freed (freed_values st es.*2) st ⌉ }}.
Proof.
  revert fuel st. induction es as [|[l a] es IH]; intros [|fuel] st Hf; simpl in Hf; try lia;
    apply triple_wp; iIntros "H"; rewrite /set_free_chain; wp_loop.
  { wp_pures. iPureIntro. rewrite /freed_values. destruct (free_func st); by rewrite set_freed_nil. }
  iDestruct "H" as "[Hl H]". wp_load. wp_call set_free_entry_spec with "Hl".
  iIntros (st') "->". wp_pures. wp_call IH with "H". iIntros (st') "->".
  iPureIntro. by rewrite (set_freed_app [a]).
Qed.

Lemma set_free_loop fuel pre bs st :
  length (payloads bs) < fuel → table st = heads (pre ++ bs) →
  {{ own bs }} for_loop (length bs) (length pre) (λ i st,
         rover ← aget (table st) i;
         set_free_chain fuel (rover, st)) st
  {{ st', ⌈ st' = set_freed (freed_values st (payloads bs)) st ⌉ }}.
Proof.
  revert pre st. induction bs as [|es bs IH]; intros pre st Hf Ht; apply triple_wp;
    iIntros "H"; simpl.
  { wp_pures. iPureIntro. rewrite /freed_values. destruct (free_func st); by rewrite set_freed_nil. }
  rewrite /payloads /= fmap_app length_app length_fmap in Hf.
  rewrite {1}/own /=. iDestruct "H" as "[Hes H]". wp_bind.
  iApply wp_aget; [lia| |].
  { rewrite Nat2Z.id Ht. apply heads_lookup. by apply list_lookup_middle. }
  wp_call set_free_chain_spec with "Hes". iIntros (st') "->".
  replace (length pre + 1)%Z with (Z.of_nat (length (pre ++ [es])))
    by (rewrite length_app /=; lia).
  iApply (triple_use with "H"); [apply IH; [rewrite /payloads; lia|]|].
  - by rewrite /= Ht -app_assoc.
  - iIntros (st') "->". iPureIntro. by rewrite set_freed_app /payloads /= fmap_app.
Qed.

Lemma set_free_spec fuel st xs :
  length xs < fuel →
  {{ hashset st xs }} set_free fuel st {{ freed', ∃ order,
    ⌈ order ≡ₚ xs ⌉ ∗ ⌈ freed' = freed st ++ freed_values st order ⌉ }}.
Proof.
  intros Hf. apply triple_wp. iIntros "(%bs & %Hok & %Hp & H)". rewrite Hp in Hf.
  rewrite /set_free (ok_size Hok) Nat2Z.id. wp_bind.
  iApply (triple_use with "H"); [apply (set_free_loop _ [] bs); [done|apply (ok_table Hok)]|].
  iIntros (st') "->". wp_pures. iExists (payloads bs). by iPureIntro.
Qed.

(** *** Enlarging *)
Lemma set_enlarge_spec fuel st xs :
  HashEqual (hash_func st) (equal_func st) →
  length xs < fuel → (table_size st < max_prime)%Z →
  {{ hashset st xs }} set_enlarge fuel st {{ '(ok, st'),
    ⌈ same_client st st' ⌉ ∗ ⌈ freed st' = freed st ⌉ ∗ ⌈ entries st' = entries st ⌉ ∗
    ⌈ if ok then (3 * entries st' < table_size st')%Z else can_fail ∧ st' = st ⌉ ∗
    hashset st' xs }}.
Proof.
  intros ? Hf Hsz. apply triple_wp. iIntros "(%bs & %Hok & %Hp & H)".
  destruct (primes_grow _ _ (ok_prime Hok) Hsz) as (p & Hnext & Hle).
  pose proof (lookup_lt_Some _ _ _ Hnext) as Hlt. simpl in Hlt.
  pose proof (ok_index Hok). pose proof (primes_bounds _ _ Hnext) as [Hp0 _].
  destruct (Z_of_nat_complete p) as [n ->]; [lia|].
  rewrite /set_enlarge. wp_chk.
  replace (S (Z.to_nat (prime_index st))) with (Z.to_nat (prime_index st + 1)) in Hnext by lia.
  wp_bind. iApply (triple_use with "[]");
    [apply (set_allocate_table_spec _ n); simpl; [lia|done]|done|].
  iIntros ([[] st']); [iIntros "->"|iIntros "[%Hfail ->]"]; rewrite ?Nat2Z.id /=; last first.
  { wp_pures. rewrite (_ : set_prime_index _ _ = st); [|by destruct st].
    ipures. iExists bs. by iFrame. }
  rewrite /rehash_table (ok_table Hok) length_heads.
  wp_bind. iApply (triple_use with "[H]");
    [apply (rehash_table_spec id (hash_func st) _ n [] bs (replicate n []))| |].
  - by rewrite -Hp.
  - lia.
  - by rewrite length_replicate.
  - apply placed_nil.
  - iFrame. by iApply own_nil.
  - iIntros (t) "(%bs' & -> & %Hlen & %Hpl & %Hperm & H)". wp_pures.
    rewrite payloads_heads_nil right_id_L in Hperm. pose proof (ok_load Hok).
    ipures. iExists bs'. iFrame. iPureIntro. split; [|by rewrite Hperm].
    eapply (table_ok_rehash id _ _ _ _ _ _ bs); simpl; [exact Hok|lia|done|done|..];
      by rewrite ?Nat2Z.id.
Qed.

(** *** Query and insertion *)

(** The walk of [data]'s chain: it finds an entry exactly if the set has an
    equal value. *)
Lemma set_walk_spec fuel st bs es data :
  HashEqual (hash_func st) (equal_func st) → st_ok st bs → length es < fuel →
  bs !! index_of (hash_func st) (length bs) data = Some es →
  {{ chain es NULL }}
    chain_walk fuel (λ x, bool_decide (equal_func st data x ≠ 0%Z)) (start es NULL)
  {{ r, match r with
        | Some _ => ⌈ mem (equal_func st) data (payloads bs) ⌉
        | NULL => ⌈ Forall (λ e, equal_func st (id e.2) data = 0%Z) es ∧
                    ¬ mem (equal_func st) data (payloads bs) ⌉
        end ∗ chain es NULL }}.
Proof.
  intros ? Hok Hf Hes. apply triple_wp. iIntros "H".
  iApply (triple_use with "H"); [by apply chain_walk_spec|].
  iIntros (r) "[-> $]". pose proof (first_pass_split
    (λ x, bool_decide (equal_func st data x ≠ 0%Z)) es) as Hsplit.
  destruct (head _) as [[l x]|]; simpl; iPureIntro.
  - destruct Hsplit as (es1 & es2 & -> & Hk%bool_decide_eq_true%equal_sym & _).
    destruct (bucket_found id (hash_func st) (equal_func st) (length bs) bs data es1 l x es2)
      as (Hhit & _); [apply (ok_pos Hok)|apply Hok|apply Hok|done|done|].
    by rewrite /mem Hhit.
  - apply (walk_miss_r id (hash_func st)) in Hsplit; [|done].
    destruct (bucket_missing id (hash_func st) (equal_func st) (length bs) bs data es)
      as (Hhit & _); [apply (ok_pos Hok)|apply Hok|done|done|].
    split; [done|]. rewrite /mem Hhit. tauto.
Qed.

Lemma mem_perm equal x xs ys : xs ≡ₚ ys → mem equal x xs ↔ mem equal x ys.
Proof. intros Hp. rewrite !mem_iff. by setoid_rewrite Hp. Qed.

Lemma set_query_spec fuel st xs data :
  HashEqual (hash_func st) (equal_func st) → length xs < fuel →
  {{ hashset st xs }} set_query fuel st data {{ r,
    ⌈ r = if bool_decide (mem (equal_func st) data xs) then 1%Z else 0%Z ⌉ ∗ hashset st xs }}.
Proof.
  intros ? Hf. apply triple_wp. iIntros "(%bs & %Hok & %Hp & H)". rewrite Hp in Hf.
  destruct (chain_of_key _ _ _ _ _ _ _ _ data Hok) as (es & Hes & Hidx & Ht & Hlen).
  rewrite /set_query Hidx. wp_bind. iApply wp_aget; [lia|by rewrite Nat2Z.id|].
  iDestruct (own_acc with "H") as "[Hes H]"; [done|].
  wp_bind. iApply (triple_use with "Hes"); [by apply (set_walk_spec _ _ bs); [..|lia|]|].
  iIntros (r) "[Hr Hes]".
  iAssert (hashset st xs) with "[H Hes]" as "H".
  { iExists bs. ipures. iDestruct ("H" with "Hes") as "H". by rewrite list_insert_id. }
  destruct r as [l|]; iDestruct "Hr" as %Hr; wp_pures; iFrame; iPureIntro.
  - rewrite bool_decide_eq_true_2 //. by rewrite (mem_perm _ _ _ _ Hp).
  - rewrite bool_decide_eq_false_2 //. rewrite (mem_perm _ _ _ _ Hp). apply Hr.
Qed.

(** How an insertion can end. *)
Definition added (st st' : SetStruct) (data : value) xs (r : Z) : hProp SetEntry :=
  ⌈ r = 1%Z ⌉ ∗ ⌈ ¬ mem (equal_func st) data xs ⌉ ∗ hashset st' (data :: xs).
Definition not_added (st st' : SetStruct) (data : value) xs (r : Z) : hProp SetEntry :=
  ⌈ r = 0%Z ⌉ ∗ ⌈ mem (equal_func st) data xs ∨ can_fail ⌉ ∗ hashset st' xs.

Lemma set_insert_entry_spec fuel st xs data :
  HashEqual (hash_func st) (equal_func st) →
  length xs < fuel → (3 * entries st < table_size st)%Z →
  {{ hashset st xs }} set_insert_entry fuel st data {{ '(r, st'),
    ⌈ same_client st st' ⌉ ∗ ⌈ freed st' = freed st ⌉ ∗
    (added st st' data xs r ∨ not_added st st' data xs r) }}.
Proof.
  intros ? Hf Hload. apply triple_wp. iIntros "(%bs & %Hok & %Hp & H)".
  pose proof Hf as Hf'. rewrite Hp in Hf'. pose proof (primes_bounds _ _ (ok_prime Hok)) as Hpb.
  rewrite /max_prime in Hpb.
  destruct (chain_of_key _ _ _ _ _ _ _ _ data Hok) as (es & Hes & Hidx & Ht & Hlen).
  rewrite /set_insert_entry Hidx. wp_bind. iApply wp_aget; [lia|by rewrite Nat2Z.id|].
  iDestruct (own_acc with "H") as "[Hes H]"; [done|].
  wp_bind. iApply (triple_use with "Hes"); [by apply (set_walk_spec _ _ bs); [..|lia|]|].
  iIntros (r) "[Hr Hes]".
  destruct r as [l|]; iDestruct "Hr" as %Hr; simpl.
  { apply (mem_perm _ _ _ _ Hp) in Hr. wp_pures. do 2 (iSplit; [done|]). iRight. rewrite /not_added. ipures. iExists bs. ipures.
    iDestruct ("H" with "Hes") as "H". by rewrite list_insert_id. }
  destruct Hr as [Hmiss Hno]. rewrite -(mem_perm _ _ _ _ Hp) in Hno. wp_malloc l as "Hl"; last first.
  { wp_pures. do 2 (iSplit; [done|]). iRight. rewrite /not_added. ipures. iExists bs. ipures.
    iDestruct ("H" with "Hes") as "H". by rewrite list_insert_id. }
  wp_store. wp_bind. iApply wp_aget; [lia|by rewrite Nat2Z.id|]. wp_store.
  wp_bind. iApply wp_aset.
  { pose proof (lookup_lt_Some _ _ _ Ht). lia. }
  rewrite Nat2Z.id. pose proof (ok_entries Hok). wp_chk. wp_pures.
  do 2 (iSplit; [done|]). iLeft. rewrite (ok_table Hok).
  replace (<[_ := Some l]> (heads bs)) with
    (heads (<[index_of (hash_func st) (length bs) data := (l, data) :: es]> bs))
    by apply heads_insert.
  destruct (table_ok_push id _ _ _ _ _ _ _ _ l data Hok Hes Hmiss Hload) as (_ & _ & Hupd & Hok').
  do 2 (iSplit; [done|]). iExists _. iSplit; [iPureIntro; exact Hok'|].
  iSplit; [iPureIntro; by rewrite Hupd Hp|]. iApply "H". simpl. iFrame.
Qed.

Lemma set_full_spec st bs :
  st_ok st bs → (3 * entries st < max_prime)%Z →
  {{ emp }} set_full st {{ b, ⌈ b = bool_decide (table_size st ≤ 3 * entries st)%Z ⌉ }}.
Proof.
  intros Hok Hmax. apply triple_wp. iIntros "_". rewrite /set_full.
  pose proof (ok_entries Hok). pose proof (primes_bounds _ _ (ok_prime Hok)).
  rewrite /max_prime in Hmax. wp_chk. rewrite bool_decide_eq_false_2; [|lia].
  wp_pures. iPureIntro. apply bool_decide_ext. by rewrite quot_positive; [|lia..].
Qed.

Lemma set_insert_spec fuel st xs data :
  HashEqual (hash_func st) (equal_func st) →
  length xs < fuel → (3 * length xs < max_prime)%Z →
  {{ hashset st xs }} set_insert fuel st data {{ '(r, st'),
    ⌈ same_client st st' ⌉ ∗ ⌈ freed st' = freed st ⌉ ∗
    (added st st' data xs r ∨ not_added st st' data xs r) }}.
Proof.
  intros ? Hf Hmax. apply triple_wp. iIntros "H". rewrite /set_insert.
  iDestruct "H" as "(%bs & %Hok & %Hp & H)". pose proof (ok_entries Hok) as Hn.
  rewrite -Hp in Hn. wp_bind.
  iApply (triple_use with "[]"); [apply (set_full_spec _ _ Hok); lia|done|].
  iAssert (hashset st xs) with "[H]" as "H"; [iExists bs; by iFrame|].
  iIntros (b) "->". case_bool_decide.
  - wp_call set_enlarge_spec with "H". iIntros ([ok st']) "(%Hsame & %Hc & %He & %Hl & H)".
    destruct ok; simpl; last first.
    { destruct Hl as [? ->]. wp_pures. do 2 (iSplit; [done|]). iRight. rewrite /not_added.
      by ipures. }
    destruct (Hsame) as (Hh & Heq & _).
    iApply (triple_use with "H"); [apply set_insert_entry_spec; [|done..]|].
    { by rewrite Hh Heq. }
    iIntros ([r st'']) "(%Hsame' & %Hc' & H)".
    iSplit; [iPureIntro; by eapply set_client_trans|].
    iSplit; [iPureIntro; congruence|]. by rewrite /added /not_added Heq.
  - iApply (triple_use with "H"); [apply set_insert_entry_spec; [done..|lia]|].
    iIntros ([r st']) "$".
Qed.

(** *** Removal *)

(** [set_remove] unlinks and frees the equal value, if there is one, and says
    whether there was. *)
Theorem set_remove_correct fuel st xs data :
  HashEqual (hash_func st) (equal_func st) →
  length xs < fuel → (length xs ≤ INT_MAX)%Z →
  {{ hashset st xs }} set_remove fuel st data {{ '(r, st'),
    let found := hit id (equal_func st) data xs in
    ⌈ same_client st st' ⌉ ∗ ⌈ r = length found ⌉ ∗
    ⌈ freed st' = freed st ++ freed_values st found ⌉ ∗
    hashset st' (miss id (equal_func st) data xs) }}.
Proof.
  intros ? Hf Hmax. apply triple_wp. iIntros "(%bs & %Hok & %Hp & H)".
  rewrite Hp in Hf Hmax.
  destruct (chain_of_key _ _ _ _ _ _ _ _ data Hok) as (es & Hes & Hidx & Ht & Hlen).
  rewrite /set_remove Hidx. wp_bind. iApply wp_aget; [lia|by rewrite Nat2Z.id|].
  iDestruct (own_acc with "H") as "[Hes H]"; [done|].
  rewrite (distinct_hit_perm _ _ _ _ _ Hp (ok_distinct Hok)).
  wp_bind. iApply (triple_use with "[Hes]");
    [apply (slot_walk_spec _ _ [] es); lia|simpl; by iFrame|].
  iIntros ([s|]) "Hs"; simpl.
  - iDestruct "Hs" as (es1 l x es2 (-> & -> & Hk%bool_decide_eq_true%equal_sym & _))
      "(Hes1 & Hl & Hes2)".
    destruct (table_ok_unlink id _ _ _ _ _ _ _ data es1 l x es2 Hok Hes Hk) as (-> & Hdel & Hok').
    rewrite start_app /=. wp_bind. iApply (wp_read_slot with "Hes1"). iIntros "Hes1".
    wp_load. wp_bind. iApply (wp_write_slot with "Hes1"). iIntros "Hes1".
    wp_bind. iApply wp_aset; [pose proof (lookup_lt_Some _ _ _ Ht); lia|].
    pose proof (ok_entries Hok) as Hn. wp_chk.
    wp_call set_free_entry_spec with "Hl". iIntros (st') "->".
    rewrite Nat2Z.id. wp_pures. do 3 (iSplit; [done|]).
    rewrite (ok_table Hok) -start_app.
    replace (<[_ := start (es1 ++ es2) NULL]> (heads bs)) with
      (heads (<[index_of (hash_func st) (length bs) data := es1 ++ es2]> bs))
      by apply heads_insert.
    iExists (<[index_of (hash_func st) (length bs) data := es1 ++ es2]> bs).
    iDestruct ("H" $! (es1 ++ es2) with "[Hes1 Hes2]") as "$".
    { rewrite chain_app. iFrame. }
    iPureIntro. split; [exact Hok'|by rewrite Hdel Hp].
  - iDestruct "Hs" as (Hmiss) "[_ Hes]". apply (walk_miss_r id (hash_func st)) in Hmiss; [|done].
    destruct (bucket_missing id (hash_func st) (equal_func st) (length bs) bs data es)
      as (-> & Hpay & _); [apply (ok_pos Hok)|apply Hok|done|done|].
    wp_pures. do 2 (iSplit; [done|]). iSplit.
    { iPureIntro. rewrite /freed_values. destruct (free_func st); by rewrite app_nil_r. }
    iExists bs. iSplit; [done|]. iSplit.
    { iPureIntro. by rewrite Hp Hpay. }
    iDestruct ("H" with "Hes") as "H". by rewrite list_insert_id.
Qed.

(** *** Conversion to an array *)
Lemma set_copy_chain_spec fuel es xs k :
  length es < fuel → (length xs + length es ≤ INT_MAX)%Z →
  {{ chain es NULL }}
    set_copy_chain fuel (start es NULL, Z.of_nat (length xs), filled xs (length es + k))
  {{ '(n, array), ⌈ n = Z.of_nat (length (xs ++ es.*2)) ⌉ ∗
    ⌈ array = filled (xs ++ es.*2) k ⌉ ∗ chain es NULL }}.
Proof.
  revert fuel xs. induction es as [|[l a] es IH]; intros [|fuel] xs Hf Hmax; simpl in Hf, Hmax;
    try lia; apply triple_wp; iIntros "H"; rewrite /set_copy_chain; wp_loop.
  { wp_pures. rewrite right_id_L. ipure. }
  iDestruct "H" as "[Hl H]". wp_load. wp_bind. iApply wp_aset_filled. wp_chk. wp_pures.
  replace (length xs + 1)%Z with (Z.of_nat (length (xs ++ [a]))) by (rewrite length_app /=; lia).
  iApply (triple_use with "H"); [apply IH; rewrite ?length_app /=; lia|].
  iIntros ([n arr]) "(-> & -> & H)". rewrite -assoc_L. ipure.
Qed.

Lemma set_copy_loop_spec fuel table pre bs xs :
  table = heads (pre ++ bs) →
  length (payloads bs) < fuel → (length xs + length (payloads bs) ≤ INT_MAX)%Z →
  {{ own bs }} for_loop (length bs) (length pre) (λ i '(array_counter, array),
      rover ← aget table i;
      set_copy_chain fuel (rover, array_counter, array))
    (Z.of_nat (length xs), filled xs (length (payloads bs)))
  {{ '(_, array), ⌈ array = Some <$> xs ++ payloads bs ⌉ ∗ own bs }}.
Proof.
  revert pre xs. induction bs as [|es bs IH]; intros pre xs Ht Hf Hmax; apply triple_wp;
    iIntros "H"; simpl.
  { wp_pures. rewrite /filled /payloads /= !right_id_L. ipure. }
  assert (payloads (es :: bs) = es.*2 ++ payloads bs) as Hpay by by rewrite /payloads /= fmap_app.
  rewrite Hpay length_app length_fmap in Hf Hmax |- *.
  rewrite {1}/own /=. iDestruct "H" as "[Hes H]". wp_bind.
  iApply wp_aget; [lia| |].
  { rewrite Nat2Z.id Ht. apply heads_lookup. by apply list_lookup_middle. }
  iApply (triple_use with "Hes"); [apply set_copy_chain_spec; lia|].
  iIntros ([n arr]) "(-> & -> & Hes)".
  replace (length pre + 1)%Z with (Z.of_nat (length (pre ++ [es])))
    by (rewrite length_app /=; lia).
  iApply (triple_use with "H"); [apply IH|].
  - by rewrite Ht -app_assoc.
  - lia.
  - rewrite length_app length_fmap. lia.
  - iIntros ([n' arr']) "[-> H]". rewrite /own /=. iFrame.
    by rewrite -assoc_L.
Qed.

(** [set_to_array] stores every value of the set once and initialises every
    cell of the array. *)
Theorem set_to_array_correct fuel st xs :
  length xs < fuel → (length xs ≤ INT_MAX)%Z →
  {{ hashset st xs }} set_to_array fuel st {{ r,
    match r with
    | None => ⌈ can_fail ⌉
    | Some array => ∃ order, ⌈ order ≡ₚ xs ⌉ ∗ ⌈ array = Some <$> order ⌉
    end ∗ hashset st xs }}.
Proof.
  intros Hf Hmax. apply triple_wp. iIntros "H". rewrite /set_to_array.
  wp_malloc_array; [|wp_pures; ipure]. iDestruct "H" as "(%bs & %Hok & %Hp & H)".
  rewrite Hp in Hf Hmax. rewrite (ok_size Hok) (ok_entries Hok) !Nat2Z.id.
  wp_bind. iApply (triple_use with "H");
    [apply (set_copy_loop_spec _ _ [] bs []); [apply (ok_table Hok)|done|simpl; lia]|].
  iIntros ([n arr]) "[-> H]". wp_pures. iSplitR.
  - iExists (payloads bs). by iPureIntro.
  - iExists bs. by iFrame.
Qed.

(** *** Iteration *)

Definition hashset_iter (st : SetStruct) xs rest (iter : BucketIterator) : hProp SetEntry :=
  ∃ bs res, ⌈ st_ok st bs ⌉ ∗ ⌈ xs ≡ₚ payloads bs ⌉ ∗
    ⌈ at_entry bs res iter ∧ rest = res.*2 ⌉ ∗ own bs.

Lemma hashset_iter_done st xs rest iter : hashset_iter st xs rest iter ⊢ hashset st xs.
Proof. iIntros "(%bs & %res & % & % & _ & H)". iExists bs. by iFrame. Qed.

Lemma set_iterate_spec st xs :
  {{ hashset st xs }} set_iterate st {{ iter, ∃ order,
    ⌈ order ≡ₚ xs ⌉ ∗ hashset_iter st xs order iter }}.
Proof.
  apply triple_wp. iIntros "(%bs & %Hok & %Hp & H)". rewrite /set_iterate.
  rewrite (ok_table Hok) (ok_size Hok). wp_bind.
  iApply (triple_use with "[]"); [apply scan_all_spec|done|].
  iIntros ([c p]) "%Hat". wp_pures. iExists (payloads bs). iSplit; [done|].
  iExists bs, (concat bs). by iFrame.
Qed.

Lemma set_iter_next_spec st xs rest iter :
  {{ hashset_iter st xs rest iter }} set_iter_next st iter {{ '(v, iter'),
    ⌈ set_iter_has_more iter = bool_decide (rest ≠ []) ⌉ ∗
    ⌈ v = default VNULL (head rest) ⌉ ∗ hashset_iter st xs (tail rest) iter' }}.
Proof.
  apply triple_wp. iIntros "(%bs & %res & %Hok & %Hp & [%Hat ->] & H)".
  pose proof (at_entry_more _ _ _ Hat) as Hmore. rewrite /set_iter_next /set_iter_has_more.
  destruct res as [|[l x] res]; simpl in *.
  - rewrite (proj2 Hmore) //. wp_pures. ipures. iExists bs, []. by iFrame.
  - destruct (next_entry iter) eqn:He; [|discriminate (proj1 Hmore eq_refl)].
    rewrite (ok_table Hok) (ok_size Hok).
    iApply (triple_use with "H"); [by eapply step_entry_spec|].
    iIntros ([y it]) "(-> & %Hat' & H)". ipures. iExists bs, res. by iFrame.
Qed.

Lemma set_iter_has_more_spec st xs rest iter :
  hashset_iter st xs rest iter ⊢
  ⌈ set_iter_has_more iter = bool_decide (rest ≠ []) ⌉ ∗ hashset_iter st xs rest iter.
Proof.
  iIntros "(%bs & %res & %Hok & %Hp & [%Hat ->] & H)". iSplitR.
  - iPureIntro. apply bool_decide_ext. pose proof (at_entry_more _ _ _ Hat) as ->.
    by destruct res.
  - iExists bs, res. by iFrame.
Qed.
End proofs.

(** ** Union and intersection *)

Section algebra.
Context `{Allocator SetEntry}.
Implicit Types xs ys zs : list value.

(** The values of [rest] that [W] asks for, one after the other, on top of [zs]. *)
Fixpoint add_all (W : list value → value → bool) zs rest : list value :=
  match rest with
  | [] => zs
  | v :: rest => add_all W (if W zs v then v :: zs else zs) rest
  end.

(** None of them is there already. *)
Fixpoint fresh_all (equal : value → value → Z) (W : list value → value → bool) zs rest : Prop :=
  match rest with
  | [] => True
  | v :: rest => (W zs v = true → ¬ mem equal v zs) ∧
                 fresh_all equal W (if W zs v then v :: zs else zs) rest
  end.

(** The test of a loop, run beside the resources [R] it needs. *)
Definition wanted_spec (new : SetStruct) (wanted : SetStruct → value → M SetEntry bool)
    (W : list value → value → bool) (bound : nat) (R : hProp SetEntry) : Prop :=
  ∀ new' zs v, same_client new new' → length zs < bound →
    {{ hashset new' zs ∗ R }} wanted new' v {{ b, ⌈ b = W zs v ⌉ ∗ hashset new' zs ∗ R }}.

Lemma set_insert_all_loop n fuel st xs new0 new zs rest iter wanted W R :
  HashEqual (hash_func new0) (equal_func new0) → same_client new0 new →
  wanted_spec new0 wanted W fuel R →
  fresh_all (equal_func new0) W zs rest →
  length rest < n → length zs + length rest < fuel →
  (3 * (length zs + length rest) < max_prime)%Z →
  {{ hashset_iter st xs rest iter ∗ hashset new zs ∗ R }}
    loop n (set_insert_all_body fuel st wanted) (iter, new)
  {{ r, match r with
        | None => ⌈ can_fail ⌉
        | Some new' => ⌈ same_client new0 new' ⌉ ∗ hashset new' (add_all W zs rest)
        end ∗ hashset st xs ∗ R }}.
Proof.
  intros He. revert n new zs iter. induction rest as [|v rest IH];
    intros [|n] new zs iter Hsame HW Hfr Hn Hf Hmax; simpl in Hn, Hf, Hmax; try lia;
    apply triple_wp; iIntros "(Hst & Hnew & HR)"; wp_loop;
    iDestruct (set_iter_has_more_spec with "Hst") as "[-> Hst]"; simpl.
  { wp_pures. rewrite hashset_iter_done. by iFrame. }
  wp_call set_iter_next_spec with "Hst". iIntros ([v' iter']) "(_ & -> & Hst)". simpl.
  destruct Hfr as [Hv Hfr].
  wp_bind. iApply (triple_use with "[Hnew HR]"); [apply (HW new zs v Hsame); lia|iFrame|].
  iIntros (b) "(-> & Hnew & HR)". destruct (W zs v) eqn:HWv; simpl; last first.
  { wp_pures.
    iApply (triple_use with "[Hst Hnew HR]"); [apply IH; try done; lia|iFrame|].
    iIntros (r) "$". }
  destruct (Hsame) as (Hh & Heq & _).
  wp_call set_insert_spec with "Hnew"; [by rewrite Hh Heq|].
  iIntros ([r new']) "(%Hsame' & %Hfreed & [(-> & %Hno & Hnew)|(-> & %Hno & Hnew)])"; simpl.
  - wp_pures. pose proof (set_client_trans _ _ _ Hsame Hsame').
    iApply (triple_use with "[Hst Hnew HR]"); [apply IH; try done; rewrite ?length_cons; lia|iFrame|iIntros (r) "$"].
  - rewrite Heq in Hno. destruct Hno as [Hno|Hfail]; [by destruct (Hv eq_refl)|].
    wp_call set_free_spec with "Hnew". iIntros (fr) "(%order & _ & _)". wp_pures.
    rewrite hashset_iter_done. iFrame. by iPureIntro.
Qed.

Lemma set_insert_all_spec fuel st xs new zs rest iter wanted W R :
  HashEqual (hash_func new) (equal_func new) →
  wanted_spec new wanted W fuel R →
  fresh_all (equal_func new) W zs rest →
  length zs + length rest < fuel → (3 * (length zs + length rest) < max_prime)%Z →
  {{ hashset_iter st xs rest iter ∗ hashset new zs ∗ R }}
    set_insert_all fuel st wanted (iter, new)
  {{ r, match r with
        | None => ⌈ can_fail ⌉
        | Some new' => ⌈ same_client new new' ⌉ ∗ hashset new' (add_all W zs rest)
        end ∗ hashset st xs ∗ R }}.
Proof. intros. apply set_insert_all_loop; try done. lia. Qed.

Lemma hashset_perm st xs ys : xs ≡ₚ ys → hashset st xs ⊢ hashset st ys.
Proof.
  iIntros (Hp) "(%bs & %Hok & %Hp' & H)". iExists bs. iFrame. iPureIntro.
  split; [done|]. by rewrite -Hp.
Qed.

Lemma hashset_distinct st xs :
  hashset st xs ⊢ ⌈ distinct id (equal_func st) xs ⌉ ∗ hashset st xs.
Proof.
  iIntros "(%bs & %Hok & %Hp & H)". iSplitR; [|iExists bs; by iFrame].
  iPureIntro. rewrite Hp. apply (ok_distinct Hok).
Qed.

Section equal.
Context (hash : value → Z) (equal : value → value → Z) `{!HashEqual hash equal}.

Lemma mem_nil x : ¬ mem equal x [].
Proof. rewrite mem_iff. intros (y & Hy & _). by apply not_elem_of_nil in Hy. Qed.

Lemma mem_cons v x zs : mem equal x (v :: zs) ↔ equal v x ≠ 0%Z ∨ mem equal x zs.
Proof.
  rewrite !mem_iff. split.
  - intros (y & [->|Hy]%elem_of_cons & Hx); eauto.
  - intros [Hx|(y & Hy & Hx)]; [exists v|exists y]; rewrite elem_of_cons; eauto.
Qed.

Lemma distinct_not_mem v xs : distinct id equal (v :: xs) → ¬ mem equal v xs.
Proof.
  intros Hd. specialize (Hd v). rewrite /mem. unfold hit in Hd |- *.
  rewrite filter_cons_True in Hd; [|apply equal_refl].
  simpl in Hd. destruct (filter _ xs); simpl in *; [tauto|lia].
Qed.

(** A test that does not look at the new set, on distinct values. *)
Lemma fresh_all_distinct (w : value → bool) zs rest :
  distinct id equal (rest ++ zs) → fresh_all equal (λ _, w) zs rest.
Proof.
  revert zs. induction rest as [|v rest IH]; intros zs Hd; simpl; [done|]. split.
  - intros _ Hv. apply (distinct_not_mem _ _ Hd).
    apply mem_iff in Hv as (y & Hy & Hx). apply mem_iff. exists y.
    split; [apply elem_of_app; by right|done].
  - apply IH. destruct (w v).
    + by rewrite -Permutation_middle.
    + by apply (distinct_sub id equal v).
Qed.

Lemma add_all_filter (w : value → bool) zs rest :
  add_all (λ _, w) zs rest ≡ₚ filter (λ v, w v = true) rest ++ zs.
Proof.
  revert zs. induction rest as [|v rest IH]; intros zs; simpl; [done|].
  rewrite filter_cons IH. destruct (w v); simpl; [|done].
  by rewrite -Permutation_middle.
Qed.

(** The test for a value that the new set does not have yet. *)
Definition is_new zs (v : value) : bool := bool_decide (¬ mem equal v zs).

Lemma fresh_all_new zs rest : fresh_all equal is_new zs rest.
Proof.
  revert zs. induction rest as [|v rest IH]; intros zs; simpl; [done|].
  split; [|apply IH]. by intros ?%bool_decide_eq_true.
Qed.

Lemma add_all_new zs rest :
  (∃ extra, add_all is_new zs rest ≡ₚ extra ++ zs ∧ extra ⊆+ rest) ∧
  ∀ x, mem equal x (add_all is_new zs rest) ↔ mem equal x zs ∨ mem equal x rest.
Proof.
  revert zs. induction rest as [|v rest IH]; intros zs; simpl.
  { split; [exists []; split; [done|apply submseteq_nil_l]|]. intros x. pose proof (mem_nil x). tauto. }
  destruct (IH (if is_new zs v then v :: zs else zs)) as [(extra & Hp & Hsub) Hm].
  rewrite /is_new in Hp Hm |- *. case_bool_decide as Hv; split.
  - exists (v :: extra). split; [|by constructor]. by rewrite Hp -Permutation_middle.
  - intros x. rewrite Hm !mem_cons. tauto.
  - exists extra. split; [done|]. by constructor.
  - intros x. rewrite Hm mem_cons. apply mem_iff in Hv as (y & Hy & Hyv).
    split; [tauto|]. intros [?|[Hvx|?]]; [tauto| |tauto]. left. apply mem_iff. exists y.
    split; [done|]. by eapply equal_trans.
Qed.
End equal.

(** C33. [set_union] builds a set of the values of both, the first set's ones taking
    precedence; it fails only on a refused allocation, and then frees what it
    built. *)
Theorem set_union_correct fuel set1 set2 xs ys :
  HashEqual (hash_func set1) (equal_func set1) →
  length xs + length ys < fuel → (3 * (length xs + length ys) < max_prime)%Z →
  {{ hashset set1 xs ∗ hashset set2 ys }} set_union fuel set1 set2 {{ r,
    match r with
    | None => ⌈ can_fail ⌉
    | Some new => ∃ extra,
        ⌈ extra ⊆+ ys ⌉ ∗
        ⌈ ∀ x, mem (equal_func set1) x (extra ++ xs) ↔
               mem (equal_func set1) x xs ∨ mem (equal_func set1) x ys ⌉ ∗
        ⌈ hash_func new = hash_func set1 ∧ equal_func new = equal_func set1 ⌉ ∗
        hashset new (extra ++ xs)
    end ∗ hashset set1 xs ∗ hashset set2 ys }}.
Proof.
  intros He Hf Hmax. apply triple_wp. iIntros "[H1 H2]". rewrite /set_union.
  iDestruct (hashset_distinct with "H1") as "[%Hd H1]".
  wp_bind. iApply (triple_use with "[]"); [apply set_new_spec|done|].
  iIntros ([new|]); simpl; [|iIntros "%"; wp_pures; by iFrame].
  iIntros "(%Hh & %Heq & _ & _ & Hnew)".
  wp_call set_iterate_spec with "H1". iIntros (iter1) "(%order1 & %Hp1 & H1)".
  pose proof (Permutation_length Hp1) as Hl1.
  wp_bind. iApply (triple_use with "[H1 H2 Hnew]");
    [apply (set_insert_all_spec _ _ xs _ [] order1 _ _ (λ _ _, true) (hashset set2 ys))
    |iFrame|].
  - by rewrite Hh Heq.
  - intros new' zs v _ _. apply triple_wp. iIntros "H". wp_pures. by iFrame.
  - rewrite Heq. apply (fresh_all_distinct (hash_func set1)); [done|].
    by rewrite right_id_L Hp1.
  - simpl. lia.
  - simpl. lia.
  - iIntros ([new1|]); simpl; [|iIntros "(% & H1 & H2)"; wp_pures; by iFrame].
    iIntros "([(%Hh1 & %Heq1 & _) Hnew] & H1 & H2)".
    wp_call set_iterate_spec with "H2". iIntros (iter2) "(%order2 & %Hp2 & H2)".
    pose proof (Permutation_length Hp2) as Hl2.
    pose proof (add_all_filter (λ _, true) [] order1) as Ha.
    rewrite right_id_L filter_true in Ha; [|by apply Forall_true].
    set (zs := add_all (λ _ _, true) [] order1) in *.
    pose proof (Permutation_length Ha) as Hla.
    destruct (add_all_new (hash_func set1) (equal_func set1) zs order2) as [(extra & Hp & Hs) Hm].
    iApply (triple_use with "[H1 H2 Hnew]");
      [apply (set_insert_all_spec _ _ ys _ zs order2 _ _ (is_new (equal_func set1))
                (hashset set1 xs))|iFrame|].
    + by rewrite Hh1 Heq1 Hh Heq.
    + intros new' zs' v (Hh' & Heq' & _) Hlen. apply triple_wp. iIntros "[H R]".
      wp_call set_query_spec with "H"; [by rewrite Hh' Heq' Hh1 Heq1 Hh Heq|].
      iIntros (q) "[-> H]". wp_pures. iFrame. iPureIntro.
      rewrite Heq' Heq1 Heq /is_new. by repeat case_bool_decide.
    + rewrite Heq1 Heq. apply fresh_all_new.
    + lia.
    + lia.
    + iIntros ([new2|]); simpl; [|iIntros "($ & $ & $)"].
      iIntros "([(%Hh2 & %Heq2 & _) Hnew] & $ & $)". iExists extra.
      iSplit; [iPureIntro; by rewrite -Hp2|].
      assert (add_all (is_new (equal_func set1)) zs order2 ≡ₚ extra ++ xs) as Hres.
      { by rewrite Hp Ha Hp1. }
      iSplit; [iPureIntro|iSplit; [iPureIntro; split; congruence|by iApply hashset_perm]].
      intros x. by rewrite -(mem_perm _ _ _ _ Hres) Hm (mem_perm _ _ _ _ Ha)
        (mem_perm _ _ _ _ Hp1) (mem_perm _ _ _ _ Hp2).
Qed.

(** [set_intersection] builds the set of the values of the first set that the
    second one has as well. *)
Theorem set_intersection_correct fuel set1 set2 xs ys :
  HashEqual (hash_func set1) (equal_func set1) → HashEqual (hash_func set2) (equal_func set2) →
  equal_func set1 = equal_func set2 →
  length xs + length ys < fuel → (3 * (length xs + length ys) < max_prime)%Z →
  {{ hashset set1 xs ∗ hashset set2 ys }} set_intersection fuel set1 set2 {{ r,
    match r with
    | None => ⌈ can_fail ⌉
    | Some new =>
        ⌈ hash_func new = hash_func set1 ∧ equal_func new = equal_func set2 ⌉ ∗
        hashset new (filter (λ x, mem (equal_func set2) x ys) xs)
    end ∗ hashset set1 xs ∗ hashset set2 ys }}.
Proof.
  intros He1 He2 Heq12 Hf Hmax. apply triple_wp. iIntros "[H1 H2]". rewrite /set_intersection.
  iDestruct (hashset_distinct with "H1") as "[%Hd H1]".
  wp_bind. iApply (triple_use with "[]"); [apply set_new_spec|done|].
  iIntros ([new|]); simpl; [|iIntros "%"; wp_pures; by iFrame].
  iIntros "(%Hh & %Heq & _ & _ & Hnew)".
  wp_call set_iterate_spec with "H1". iIntros (iter1) "(%order1 & %Hp1 & H1)".
  pose proof (Permutation_length Hp1) as Hl1.
  iApply (triple_use with "[H1 H2 Hnew]");
    [apply (set_insert_all_spec _ _ xs _ [] order1 _ _
       (λ _ v, bool_decide (mem (equal_func set2) v ys)) (hashset set2 ys))|iFrame|].
  - by rewrite Hh Heq -Heq12.
  - intros new' zs v _ _. apply triple_wp. iIntros "[H R]".
    wp_call set_query_spec with "R". iIntros (q) "[-> R]". wp_pures. iFrame. iPureIntro.
    by repeat case_bool_decide.
  - rewrite Heq -Heq12. apply (fresh_all_distinct (hash_func set1)); [done|].
    by rewrite right_id_L Hp1.
  - simpl. lia.
  - simpl. lia.
  - iIntros ([new1|]); simpl; [|iIntros "($ & $ & $)"].
    iIntros "([(%Hh1 & %Heq1 & _) Hnew] & $ & $)".
    iSplit; [iPureIntro; split; congruence|]. iApply (hashset_perm with "Hnew").
    rewrite add_all_filter right_id_L.
    rewrite (list_filter_iff _ (λ x, mem (equal_func set2) x ys)); [by rewrite Hp1|].
    intros x. apply bool_decide_eq_true.
Qed.

(** [set_insert] adds a value unless the set has an equal one; otherwise it
    returns 0, as it does when an allocation is refused, and the set keeps its
    values. *)
Theorem set_insert_correct fuel st xs data :
  HashEqual (hash_func st) (equal_func st) →
  length xs < fuel → (3 * length xs < max_prime)%Z →
  {{ hashset st xs }} set_insert fuel st data {{ '(r, st'),
    ⌈ same_client st st' ⌉ ∗ ⌈ freed st' = freed st ⌉ ∗
    if bool_decide (mem (equal_func st) data xs)
    then ⌈ r = 0%Z ⌉ ∗ hashset st' xs
    else (⌈ r = 1%Z ⌉ ∗ hashset st' (data :: xs)) ∨ (⌈ r = 0%Z ∧ can_fail ⌉ ∗ hashset st' xs) }}.
Proof.
  intros He Hf Hmax. apply triple_wp. iIntros "H".
  iApply (triple_use with "H"); [by apply set_insert_spec|].
  iIntros ([r st']) "($ & $ & [(-> & %Hno & H)|(-> & %Hno & H)])".
  - rewrite bool_decide_eq_false_2 //. iLeft. by iFrame.
  - case_bool_decide; [by iFrame|]. iRight. iFrame. iPureIntro. tauto.
Qed.
End algebra.

(** ** Runs

    The theorems at sets that hold the pointer 7. *)
Module Runs.
#[local] Instance grant : Allocator SetEntry := total_alloc (Cell 0%Z NULL).
Definition chain7 : list (loc * value) := [(1%positive, 7%Z)].
Definition chain8 : list (loc * value) := [(2%positive, 7%Z)].
Definition buckets (es : list (loc * value)) : list (list (loc * value)) :=
  <[7 := es]> (replicate 193 []).
Definition set7 (es : list (loc * value)) : SetStruct :=
  {| table := heads (buckets es); entries := 1; table_size := 193; prime_index := 0;
     hash_func := pointer_hash; equal_func := pointer_equal; free_func := true; freed := [] |}.

Lemma set7_ok l : st_ok (set7 [(l, 7%Z)]) (buckets [(l, 7%Z)]).
Proof.
  assert (payloads (buckets [(l, 7%Z)]) ≡ₚ [7%Z]) as Hp.
  { apply (payloads_single 193 7 [(l, 7%Z)]). lia. }
  split; try done.
  - apply placed_insert; [apply placed_nil|]. by intros e ->%list_elem_of_singleton.
  - rewrite Hp. apply (distinct_cons id pointer_hash pointer_equal); [|done].
    intros k. simpl. lia.
Qed.

Lemma set7_own l : chain [(l, 7%Z)] NULL ⊢ hashset (set7 [(l, 7%Z)]) [7%Z].
Proof.
  etrans; [apply (own_single 193 7 [(l, 7%Z)]); lia|].
  apply hashset_intro; [apply set7_ok|]. symmetry. apply (payloads_single 193 7 [(l, 7%Z)]). lia.
Qed.

Definition heap1 : gmap loc SetEntry := chain_cells chain7 NULL.
Lemma set7_holds : holds (hashset (set7 chain7) [7%Z]) heap1.
Proof. apply (holds_mono _ _ _ (set7_own 1%positive)). by apply holds_chain_run. Qed.

Definition heap2 : gmap loc SetEntry := chain_cells chain7 NULL ∪ chain_cells chain8 NULL.
Lemma sets_hold : holds (hashset (set7 chain7) [7%Z] ∗ hashset (set7 chain8) [7%Z])%I heap2.
Proof.
  apply (holds_mono (chain chain7 NULL ∗ chain chain8 NULL)).
  { apply bi.sep_mono; [apply (set7_own 1%positive)|apply (set7_own 2%positive)]. }
  apply holds_sep. exists (chain_cells chain7 NULL), (chain_cells chain8 NULL).
  split_and!; [done| |by apply holds_chain_run..].
  apply map_disjoint_insert_l_2; [done|apply map_disjoint_empty_l].
Qed.

Lemma set_insert_correct_witness :
  ∃ r h' t', set_insert 3 (set7 chain7) 9%Z (Mem heap1 0) = Ok (r, Mem h' t').
Proof.
  destruct (triple_run _ _ _ heap1 0 (set_insert_correct 3 (set7 chain7) [7%Z] 9%Z _
    ltac:(simpl; lia) ltac:(rewrite /max_prime; simpl; lia)) set7_holds) as (r & h' & t' & E & HQ).
  exists r, h', t'. exact E.
Defined.

Lemma set_remove_correct_witness :
  ∃ st h' t', set_remove 3 (set7 chain7) 7%Z (Mem heap1 0) = Ok ((1%Z, st), Mem h' t').
Proof.
  destruct (triple_run _ _ _ heap1 0 (set_remove_correct 3 (set7 chain7) [7%Z] 7%Z _
    ltac:(simpl; lia) ltac:(simpl; int_tac)) set7_holds) as ([r st] & h' & t' & E & HQ).
  exists st, h', t'. apply holds_pure_sep in HQ as [_ HQ].
  apply holds_pure_sep in HQ as [-> _]. exact E.
Defined.

Lemma set_to_array_correct_witness :
  ∃ r h' t', set_to_array 3 (set7 chain7) (Mem heap1 0) = Ok (r, Mem h' t').
Proof.
  destruct (triple_run _ _ _ heap1 0 (set_to_array_correct 3 (set7 chain7) [7%Z]
    ltac:(simpl; lia) ltac:(simpl; int_tac)) set7_holds) as (r & h' & t' & E & HQ).
  exists r, h', t'. exact E.
Defined.

Lemma set_union_correct_witness :
  ∃ r h' t', set_union 3 (set7 chain7) (set7 chain8) (Mem heap2 0) = Ok (r, Mem h' t').
Proof.
  destruct (triple_run _ _ _ heap2 0 (set_union_correct 3 (set7 chain7) (set7 chain8) [7%Z] [7%Z] _
    ltac:(simpl; lia) ltac:(rewrite /max_prime; simpl; lia)) sets_hold) as (r & h' & t' & E & HQ).
  exists r, h', t'. exact E.
Defined.

Lemma set_intersection_correct_witness :
  ∃ r h' t', set_intersection 3 (set7 chain7) (set7 chain8) (Mem heap2 0) = Ok (r, Mem h' t').
Proof.
  destruct (triple_run _ _ _ heap2 0 (set_intersection_correct 3 (set7 chain7) (set7 chain8)
    [7%Z] [7%Z] _ _ eq_refl ltac:(simpl; lia) ltac:(rewrite /max_prime; simpl; lia)) sets_hold)
    as (r & h' & t' & E & HQ).
  exists r, h', t'. exact E.
Defined.
End Runs.
