(* ===== verification/DChain.v ===== *)
(** * DChain: chains of doubly linked cells

    The entries of list.c ([ListEntry]) and queue.c ([QueueEntry]): a payload and
    the pointers to the previous and the next entry.  [dchain p es q] owns the
    cells of such a chain; [p] is the first entry's [prev], [q] the last one's
    [next]. *)
From stdpp Require Import base gmap list numbers.
From iris.proofmode Require Import proofmode.
From S2P Require Import Prelude Memory Chain.

Record dnode := DNode { d_data : value; d_prev : ptr; d_next : ptr }.

(** [e->data = a], [e->prev = p], [e->next = q]. *)
Definition put_data (a : value) (e : dnode) : dnode := DNode a (d_prev e) (d_next e).
Definition put_prev (p : ptr) (e : dnode) : dnode := DNode (d_data e) p (d_next e).
Definition put_next (q : ptr) (e : dnode) : dnode := DNode (d_data e) (d_prev e) q.

(** [if (e != NULL) e->prev = p]. *)
Definition relink_prev (e p : ptr) : M dnode unit :=
  match e with
  | NULL => mret tt
  | Some _ => modify e (put_prev p)
  end.

(** [*rover] and [*rover = p] for a slot of a doubly linked list. *)
Definition read_dslot (hd : ptr) (s : slot) : M dnode ptr :=
  match s with
  | SHead => mret hd
  | SNext l => e ← deref (Some l); mret (d_next e)
  end.
Definition write_dslot (hd : ptr) (s : slot) (p : ptr) : M dnode ptr :=
  match s with
  | SHead => mret p
  | SNext l => _ ← modify (Some l) (put_next p); mret hd
  end.

Implicit Types es : list (loc * value).
Implicit Types p q : ptr.

Fixpoint dchain p es q : hProp dnode :=
  match es with
  | [] => emp
  | (l, a) :: es' => l ↦ DNode a p (start es' q) ∗ dchain (Some l) es' q
  end.

(** The pointer to the last of [es], [p] if there is none. *)
Definition final p es : ptr :=
  match last es with
  | Some (l, _) => Some l
  | None => p
  end.

Lemma final_snoc p es l a : final p (es ++ [(l, a)]) = Some l.
Proof. by rewrite /final last_snoc. Qed.

Lemma final_cons p l a es : final p ((l, a) :: es) = final (Some l) es.
Proof. rewrite /final last_cons. by destruct (last es) as [[]|]. Qed.

Lemma final_app p es1 es2 : final p (es1 ++ es2) = final (final p es1) es2.
Proof.
  revert p. induction es1 as [|[l a] es1 IH]; intros p; [done|].
  by rewrite /= !final_cons IH.
Qed.

Lemma dchain_app p es1 es2 q :
  dchain p (es1 ++ es2) q ⊣⊢ dchain p es1 (start es2 q) ∗ dchain (final p es1) es2 q.
Proof.
  revert p. induction es1 as [|[l a] es1 IH]; intros p; simpl.
  - by rewrite left_id.
  - by rewrite IH start_app final_cons assoc.
Qed.

Lemma dchain_snoc p es l a q :
  dchain p (es ++ [(l, a)]) q ⊣⊢ dchain p es (Some l) ∗ l ↦ DNode a (final p es) q.
Proof. by rewrite dchain_app /= right_id. Qed.

Lemma dchain_not_in p es q l c : dchain p es q -∗ l ↦ c -∗ ⌜l ∉ es.*1⌝.
Proof.
  iIntros "Hes Hl". iInduction es as [|[l' a] es] "IH" forall (p); simpl.
  - iPureIntro. apply not_elem_of_nil.
  - iDestruct "Hes" as "[Hl' Hes]".
    iDestruct (pointsto_ne with "Hl Hl'") as %?.
    iDestruct ("IH" with "Hes Hl") as %?. iPureIntro. by apply not_elem_of_cons.
Qed.

Lemma dchain_NoDup p es q : dchain p es q -∗ ⌜NoDup es.*1⌝.
Proof.
  iIntros "Hes". iInduction es as [|[l a] es] "IH" forall (p); simpl.
  - iPureIntro. constructor.
  - iDestruct "Hes" as "[Hl Hes]".
    iDestruct (dchain_not_in with "Hes Hl") as %?.
    iDestruct ("IH" with "Hes") as %?. iPureIntro. by constructor.
Qed.

(** [e->prev] of the first entry of a chain, if any. *)
Lemma wp_relink_prev p p' es (Φ : unit → hProp dnode) :
  dchain p es NULL -∗ (dchain p' es NULL -∗ Φ tt) -∗ wp (relink_prev (start es NULL) p') Φ.
Proof.
  iIntros "H HΦ". destruct es as [|[l a] es]; simpl.
  - wp_pures. by iApply "HΦ".
  - iDestruct "H" as "[Hl H]". wp_store. iApply "HΦ". iFrame.
Qed.

(** [e->next] of the last entry. *)
Lemma wp_put_last p es q q' (Φ : unit → hProp dnode) :
  es ≠ [] →
  dchain p es q -∗ (dchain p es q' -∗ Φ tt) -∗ wp (modify (final p es) (put_next q')) Φ.
Proof.
  iIntros (Hne) "H HΦ". destruct es as [|[l a] es _] using rev_ind; [done|].
  rewrite final_snoc !dchain_snoc. iDestruct "H" as "[H Hl]". wp_store. iApply "HΦ". iFrame.
Qed.

Lemma wp_read_dslot pre q (Φ : ptr → hProp dnode) :
  dchain NULL pre q -∗ (dchain NULL pre q -∗ Φ q) -∗
  wp (read_dslot (start pre q) (slot_after pre)) Φ.
Proof.
  iIntros "H HΦ". destruct pre as [|[l a] pre _] using rev_ind.
  - iApply wp_ret. by iApply "HΦ".
  - rewrite slot_after_snoc dchain_snoc. iDestruct "H" as "[H Hl]". simpl.
    wp_load. iApply wp_ret. iApply "HΦ". iFrame.
Qed.

Lemma wp_write_dslot pre q q' (Φ : ptr → hProp dnode) :
  dchain NULL pre q -∗ (dchain NULL pre q' -∗ Φ (start pre q')) -∗
  wp (write_dslot (start pre q) (slot_after pre) q') Φ.
Proof.
  iIntros "H HΦ". destruct pre as [|[l a] pre _] using rev_ind.
  - iApply wp_ret. by iApply "HΦ".
  - rewrite slot_after_snoc dchain_snoc. iDestruct "H" as "[H Hl]". simpl.
    wp_store. iApply wp_ret. rewrite dchain_snoc !start_app. iApply "HΦ". iFrame.
Qed.

(** Run-time heaps that satisfy [dchain]. *)
Fixpoint dchain_cells p es q : gmap loc dnode :=
  match es with
  | [] => ∅
  | (l, a) :: es' => <[l := DNode a p (start es' q)]> (dchain_cells (Some l) es' q)
  end.

Lemma dchain_cells_dom p es q l : l ∉ es.*1 → dchain_cells p es q !! l = None.
Proof.
  revert p. induction es as [|[l' a] es IH]; simpl; [done|].
  intros p [? ?]%not_elem_of_cons. rewrite lookup_insert_ne //. by apply IH.
Qed.

Lemma holds_dchain_run p es q :
  bool_decide (NoDup es.*1) = true → holds (dchain p es q) (dchain_cells p es q).
Proof.
  intros Hnd%bool_decide_eq_true. revert p Hnd.
  induction es as [|[l a] es IH]; intros p; simpl; [done|].
  intros [??]%NoDup_cons. apply holds_sep. eexists {[l := _]}, (dchain_cells (Some l) es q).
  split_and!; [|..|by apply IH].
  - by rewrite -insert_union_singleton_l.
  - by apply map_disjoint_singleton_l_2, dchain_cells_dom.
  - done.
Qed.
