(* ===== verification/DList.v ===== *)
(** * DList: the doubly linked list of list.c

    One definition per function, with the same conventions as SList: an argument
    [ListEntry **list] is the head before and the head after.
    [dchain NULL es NULL] owns a list whose entries sit at the locations and hold
    the values of [es]. *)
From stdpp Require Import base gmap list numbers sorting.
From iris.proofmode Require Import proofmode.
From S2P Require Import Prelude Memory Compare Chain DChain.

Abbreviation ListEntry := dnode.

Record ListIterator := { prev_next : slot; current : ptr }.

Section list_c.
Context `{Allocator ListEntry}.
Context (fuel : nat).

Definition list_free (list : ptr) : M ListEntry unit :=
  loop fuel (λ entry : ptr,
    match entry with
    | NULL => mret (inr tt)
    | Some _ =>
        e ← deref entry;
        let next := d_next e in
        _ ← free entry;
        mret (inl next)
    end) list.

Definition list_prepend (list : ptr) (data : value) : M ListEntry (ptr * ptr) :=
  newentry ← malloc;
  match newentry with
  | NULL => mret (NULL, list)
  | Some _ =>
      _ ← modify newentry (put_data data);
      _ ← relink_prev list newentry;
      _ ← modify newentry (put_prev NULL);
      _ ← modify newentry (put_next list);
      mret (newentry, newentry)
  end.

(** [for (rover=*list; rover->next != NULL; rover = rover->next);] *)
Definition list_last_entry (list : ptr) : M ListEntry ptr :=
  loop fuel (λ rover : ptr,
    e ← deref rover;
    match d_next e with
    | NULL => mret (inr rover)
    | Some _ => mret (inl (d_next e))
    end) list.

Definition list_append (list : ptr) (data : value) : M ListEntry (ptr * ptr) :=
  newentry ← malloc;
  match newentry with
  | NULL => mret (NULL, list)
  | Some _ =>
      _ ← modify newentry (put_data data);
      _ ← modify newentry (put_next NULL);
      match list with
      | NULL =>
          _ ← modify newentry (put_prev NULL);
          mret (newentry, newentry)
      | Some _ =>
          rover ← list_last_entry list;
          _ ← modify newentry (put_prev rover);
          _ ← modify rover (put_next newentry);
          mret (newentry, list)
      end
  end.

Definition list_data (listentry : ptr) : M ListEntry value :=
  e ← deref listentry; mret (d_data e).

Definition list_prev (listentry : ptr) : M ListEntry ptr :=
  e ← deref listentry; mret (d_prev e).

Definition list_next (listentry : ptr) : M ListEntry ptr :=
  e ← deref listentry; mret (d_next e).

(** [for (i=0; i<n; ++i)] *)
Definition list_nth_loop (n : Z) : Z * ptr → M ListEntry ptr :=
  loop fuel (λ '(i, entry),
    if bool_decide (i < n)%Z then
      match entry with
      | NULL => mret (inr NULL)
      | Some _ => e ← deref entry; mret (inl ((i + 1)%Z, d_next e))
      end
    else mret (inr entry)).

Definition list_nth_entry (list : ptr) (n : Z) : M ListEntry ptr :=
  if bool_decide (n < 0)%Z then mret NULL
  else list_nth_loop n (0%Z, list).

Definition list_nth_data (list : ptr) (n : Z) : M ListEntry value :=
  entry ← list_nth_entry list n;
  match entry with
  | NULL => mret VNULL
  | Some _ => e ← deref entry; mret (d_data e)
  end.

(** [while (entry != NULL)] *)
Definition list_length_loop : Z * ptr → M ListEntry Z :=
  loop fuel (λ '(length, entry),
    match entry with
    | NULL => mret (inr length)
    | Some _ =>
        length' ← chk (length + 1)%Z;
        e ← deref entry;
        mret (inl (length', d_next e))
    end).

Definition list_length (list : ptr) : M ListEntry Z :=
  list_length_loop (0%Z, list).

(** [for (i=0; i<listlen; ++i)] *)
Definition list_copy_loop (n : nat) (i : Z) : array value * ptr → M ListEntry (array value * ptr) :=
  for_loop n i (λ i '(array, rover),
    e ← deref rover;
    array' ← aset array i (Some (d_data e));
    mret (array', d_next e)).

(** The array is [None] when it could not be allocated. *)
Definition list_to_array (list : ptr) : M ListEntry (option (array value)) :=
  listlen ← list_length list;
  granted ← malloc_array;
  if negb granted then mret None
  else
    '(array, _) ← list_copy_loop (Z.to_nat listlen) 0%Z
                    (replicate (Z.to_nat listlen) None, list);
    mret (Some array).

Definition list_remove_entry (list entry : ptr) : M ListEntry (Z * ptr) :=
  match list, entry with
  | NULL, _ | _, NULL => mret (0%Z, list)
  | Some _, Some _ =>
      e ← deref entry;
      match d_prev e with
      | NULL =>
          _ ← relink_prev (d_next e) NULL;
          mret (1%Z, d_next e)
      | Some _ =>
          _ ← modify (d_prev e) (put_next (d_next e));
          e ← deref entry;
          _ ← relink_prev (d_next e) (d_prev e);
          mret (1%Z, list)
      end
  end.

(** The state is the count, the head variable and [rover]. *)
Definition list_remove_loop (callback : value → value → Z) (data : value) :
    Z * ptr * ptr → M ListEntry (Z * ptr) :=
  loop fuel (λ '(entries_removed, list, rover),
    match rover with
    | NULL => mret (inr (entries_removed, list))
    | Some _ =>
        e ← deref rover;
        let next := d_next e in
        if bool_decide (callback (d_data e) data ≠ 0%Z) then
          list ← match d_prev e with
                 | NULL => mret (d_next e)
                 | Some _ => _ ← modify (d_prev e) (put_next (d_next e)); mret list
                 end;
          e ← deref rover;
          _ ← relink_prev (d_next e) (d_prev e);
          _ ← free rover;
          entries_removed ← chk (entries_removed + 1)%Z;
          mret (inl (entries_removed, list, next))
        else mret (inl (entries_removed, list, next))
    end).

Definition list_remove_data (list : ptr) (callback : value → value → Z)
    (data : value) : M ListEntry (Z * ptr) :=
  list_remove_loop callback data (0%Z, list, list).

Definition list_find_data (list : ptr) (callback : value → value → Z)
    (data : value) : M ListEntry ptr :=
  loop fuel (λ rover : ptr,
    match rover with
    | NULL => mret (inr NULL)
    | Some _ =>
        e ← deref rover;
        if bool_decide (callback (d_data e) data ≠ 0%Z) then mret (inr rover)
        else mret (inl (d_next e))
    end) list.
End list_c.

(** The partition loop of [list_sort_internal]; the state is [rover] and the two
    lists, each entry being pushed on the front of one of them. *)
Definition list_partition (fuel : nat) (compare_func : value → value → Z) (pivot : ptr) :
    ptr * ptr * ptr → M ListEntry (ptr * ptr) :=
  loop fuel (λ '(rover, less_list, more_list),
    match rover with
    | NULL => mret (inr (less_list, more_list))
    | Some _ =>
        r ← deref rover;
        let next := d_next r in
        p ← deref pivot;
        if bool_decide (compare_func (d_data r) (d_data p) < 0)%Z then
          _ ← modify rover (put_prev NULL);
          _ ← modify rover (put_next less_list);
          _ ← relink_prev less_list rover;
          mret (inl (next, rover, more_list))
        else
          _ ← modify rover (put_prev NULL);
          _ ← modify rover (put_next more_list);
          _ ← relink_prev more_list rover;
          mret (inl (next, less_list, rover))
    end).

(** [list_sort_internal]: the last entry and the new head. *)
Fixpoint list_sort_internal (fuel : nat) (compare_func : value → value → Z)
    (list : ptr) {struct fuel} : M ListEntry (ptr * ptr) :=
  match fuel with
  | O => fail OutOfFuel
  | S fuel =>
      match list with
      | NULL => mret (NULL, NULL)
      | Some _ =>
          pivot_e ← deref list;
          match d_next pivot_e with
          | NULL => mret (list, list)
          | Some _ =>
              let pivot := list in
              '(less_list, more_list) ←
                list_partition fuel compare_func pivot (d_next pivot_e, NULL, NULL);
              '(less_list_end, less_list) ← list_sort_internal fuel compare_func less_list;
              '(more_list_end, more_list) ← list_sort_internal fuel compare_func more_list;
              list ← match less_list with
                     | NULL => _ ← modify pivot (put_prev NULL); mret pivot
                     | Some _ =>
                         _ ← modify pivot (put_prev less_list_end);
                         _ ← modify less_list_end (put_next pivot);
                         mret less_list
                     end;
              _ ← modify pivot (put_next more_list);
              _ ← relink_prev more_list pivot;
              match more_list with
              | NULL => mret (pivot, list)
              | Some _ => mret (more_list_end, list)
              end
          end
      end
  end.

Definition list_sort (fuel : nat) (list : ptr) (compare_func : value → value → Z) :
    M ListEntry ptr :=
  '(_, list) ← list_sort_internal fuel compare_func list;
  mret list.

(** *** Iterators; [list] is the head variable the iterator points into. *)

Definition list_iterate (list : ptr) : ListIterator :=
  {| prev_next := SHead; current := NULL |}.

(** [iter->current == NULL || iter->current != *iter->prev_next] *)
Definition list_iter_moved (list : ptr) (iter : ListIterator) : M ListEntry bool :=
  match current iter with
  | NULL => mret true
  | Some _ => p ← read_dslot list (prev_next iter); mret (bool_decide (current iter ≠ p))
  end.

Definition list_iter_has_more (list : ptr) (iter : ListIterator) : M ListEntry bool :=
  moved ← list_iter_moved list iter;
  if moved : bool then
    p ← read_dslot list (prev_next iter); mret (bool_decide (p ≠ NULL))
  else
    e ← deref (current iter); mret (bool_decide (d_next e ≠ NULL)).

Definition list_iter_next (list : ptr) (iter : ListIterator) :
    M ListEntry (value * ListIterator) :=
  moved ← list_iter_moved list iter;
  iter ← (if moved : bool then
            p ← read_dslot list (prev_next iter);
            mret {| prev_next := prev_next iter; current := p |}
          else
            e ← deref (current iter);
            match current iter with
            | NULL => fail NullDeref
            | Some l => mret {| prev_next := SNext l; current := d_next e |}
            end);
  match current iter with
  | NULL => mret (VNULL, iter)
  | Some _ => e ← deref (current iter); mret (d_data e, iter)
  end.

Definition list_iter_remove (list : ptr) (iter : ListIterator) :
    M ListEntry (ptr * ListIterator) :=
  moved ← list_iter_moved list iter;
  if moved : bool then mret (list, iter)
  else
    e ← deref (current iter);
    list ← write_dslot list (prev_next iter) (d_next e);
    e ← deref (current iter);
    _ ← relink_prev (d_next e) (d_prev e);
    _ ← free (current iter);
    mret (list, {| prev_next := prev_next iter; current := NULL |}).

(** ** Correctness *)

Section basic.
Context `{Allocator ListEntry}.
Implicit Types es : list (loc * value).

Lemma list_free_spec fuel p es :
  length es < fuel →
  {{ dchain p es NULL }} list_free fuel (start es NULL) {{ _, emp }}.
Proof.
  revert fuel p. induction es as [|[l a] es IH]; intros [|fuel] p Hf; simpl in Hf; try lia;
    apply triple_wp; iIntros "H"; rewrite /list_free; wp_loop; wp_pures; [done|].
  iDestruct "H" as "[Hl H]". wp_load. wp_free. wp_pures. wp_call IH with "H". iIntros (_) "$".
Qed.

(** [list_prepend] and [list_append] put the new entry at the front, at the end;
    they fail only on a refused allocation, and then change nothing. *)
Lemma list_prepend_spec es data :
  {{ dchain NULL es NULL }} list_prepend (start es NULL) data {{ '(newentry, list'),
    match newentry with
    | NULL => ⌈ can_fail ∧ list' = start es NULL ⌉ ∗ dchain NULL es NULL
    | Some l => ⌈ list' = Some l ⌉ ∗ dchain NULL ((l, data) :: es) NULL
    end }}.
Proof.
  apply triple_wp. iIntros "H". rewrite /list_prepend.
  wp_malloc l as "Hl"; [|wp_pures; ipure].
  wp_store. wp_bind. iApply (wp_relink_prev with "H"). iIntros "H".
  wp_store. wp_store. wp_pures. ipure.
Qed.

Lemma list_last_entry_spec fuel p es l a :
  length es < fuel →
  {{ dchain p (es ++ [(l, a)]) NULL }} list_last_entry fuel (start (es ++ [(l, a)]) NULL)
  {{ r, ⌈ r = Some l ⌉ ∗ dchain p (es ++ [(l, a)]) NULL }}.
Proof.
  revert fuel p.
  induction es as [|[l' a'] es IH]; simpl; intros [|fuel] p Hf; try lia;
    apply triple_wp; iIntros "[Hl H]"; rewrite /list_last_entry; wp_loop; wp_load.
  - wp_pures. ipure.
  - destruct (start_snoc es l a NULL) as [q Hq]. rewrite Hq. wp_pures. rewrite -Hq.
    wp_call IH with "H". iIntros (r) "[-> H]". ipure.
Qed.

Lemma list_append_spec fuel es data :
  length es < fuel →
  {{ dchain NULL es NULL }} list_append fuel (start es NULL) data {{ '(newentry, list'),
    match newentry with
    | NULL => ⌈ can_fail ∧ list' = start es NULL ⌉ ∗ dchain NULL es NULL
    | Some l => ⌈ list' = start (es ++ [(l, data)]) NULL ⌉ ∗
                dchain NULL (es ++ [(l, data)]) NULL
    end }}.
Proof.
  intros Hf. apply triple_wp. iIntros "H". rewrite /list_append.
  wp_malloc l as "Hl"; [|wp_pures; ipure].
  wp_store. wp_store.
  destruct es as [|[l' a'] es _] using rev_ind; simpl; [wp_store; wp_pures; ipure|].
  destruct (start_snoc es l' a' NULL) as [q Hq]. rewrite Hq. simpl. rewrite -Hq.
  rewrite length_app /= in Hf.
  wp_call list_last_entry_spec with "H".
  iIntros (r) "[-> H]". wp_store. iEval (rewrite dchain_snoc) in "H".
  iDestruct "H" as "[H Hl']".
  wp_store. wp_pures. rewrite -assoc dchain_app /= !start_app /=. ipure.
Qed.

Lemma list_length_spec fuel p es k :
  length es < fuel → (0 ≤ k)%Z → (k + length es ≤ INT_MAX)%Z →
  {{ dchain p es NULL }} list_length_loop fuel (k, start es NULL) {{ r,
    ⌈ r = (k + length es)%Z ⌉ ∗ dchain p es NULL }}.
Proof.
  revert fuel p k. induction es as [|[l a] es IH]; intros [|fuel] p k Hf Hk Hmax;
    simpl in Hf, Hmax; try lia; apply triple_wp; iIntros "H";
    rewrite /list_length_loop; wp_loop; [wp_pures; ipure|].
  iDestruct "H" as "[Hl H]". wp_chk. wp_load. wp_pures. wp_call IH with "H".
  iIntros (r) "[-> H]". ipure.
Qed.

Lemma list_copy_loop_spec p es done :
  {{ dchain p es NULL }} list_copy_loop (length es) (length done)
      ((Some <$> done) ++ replicate (length es) None, start es NULL)
  {{ r, ⌈ r.1 = Some <$> done ++ es.*2 ⌉ ∗ dchain p es NULL }}.
Proof.
  revert p done. induction es as [|[l a] es IH]; intros p done; apply triple_wp;
    iIntros "H"; rewrite /list_copy_loop; simpl.
  - wp_pures. rewrite !right_id_L. ipure.
  - iDestruct "H" as "[Hl H]". wp_load. wp_bind. iApply wp_aset.
    { rewrite length_app length_fmap /=. lia. }
    rewrite Nat2Z.id insert_app_r_alt ?length_fmap // Nat.sub_diag. wp_pures.
    specialize (IH (Some l) (done ++ [a])). rewrite length_app fmap_app -assoc_L in IH.
    replace (length done + length [a])%nat with (length done + 1)%nat in IH by done.
    rewrite Nat2Z.inj_add in IH.
    wp_call IH with "H". iIntros (r) "[%Hr H]". iFrame. iPureIntro.
    rewrite Hr. by rewrite -assoc_L.
Qed.

Lemma list_to_array_spec fuel es :
  length es < fuel → (length es ≤ INT_MAX)%Z →
  {{ dchain NULL es NULL }} list_to_array fuel (start es NULL) {{ r,
    ⌈ match r with None => can_fail | Some array => array = Some <$> es.*2 end ⌉ ∗
    dchain NULL es NULL }}.
Proof.
  intros Hf Hmax. apply triple_wp. iIntros "H". rewrite /list_to_array /list_length.
  wp_call list_length_spec with "H". iIntros (n) "[-> H]". rewrite Z.add_0_l Nat2Z.id.
  wp_malloc_array; [|wp_pures; ipure].
  wp_call (list_copy_loop_spec NULL es []) with "H".
  iIntros ([array rover]) "[%Ha H]". simpl in Ha. wp_pures. ipure.
Qed.

Lemma list_find_data_spec fuel callback p es data :
  length es < fuel →
  {{ dchain p es NULL }} list_find_data fuel (start es NULL) callback data {{ r,
    ⌈ r = fst <$> head (filter (λ e, callback e.2 data ≠ 0%Z) es) ⌉ ∗ dchain p es NULL }}.
Proof.
  revert fuel p. induction es as [|[l a] es IH]; intros [|fuel] p Hf; simpl in Hf; try lia;
    apply triple_wp; iIntros "H"; rewrite /list_find_data; wp_loop; [wp_pures; ipure|].
  iDestruct "H" as "[Hl H]". wp_load. case_bool_decide; wp_pures.
  - filter_case. ipure.
  - filter_case. wp_call IH with "H". iIntros (r) "[-> H]". ipure.
Qed.
End basic.

Section removal.
Implicit Types es pre : list (loc * value).

Lemma list_remove_entry_spec es1 l a es2 :
  let es := es1 ++ (l, a) :: es2 in
  {{ dchain NULL es NULL }} list_remove_entry (start es NULL) (Some l) {{ '(r, list'),
    ⌈ r = 1%Z ⌉ ∗ ⌈ list' = start (es1 ++ es2) NULL ⌉ ∗ dchain NULL (es1 ++ es2) NULL ∗
    l ↦ DNode a (final NULL es1) (start es2 NULL) }}.
Proof.
  apply triple_wp. iIntros "H". iEval (rewrite dchain_app /=) in "H".
  iDestruct "H" as "(H1 & Hl & H2)". rewrite start_app /=.
  destruct es1 as [|[l1 a1] es1 _] using rev_ind; simpl.
  - wp_load. wp_bind. iApply (wp_relink_prev with "H2"). iIntros "H2". wp_pures. ipure.
  - rewrite final_snoc. destruct (start_snoc es1 l1 a1 (Some l)) as [p Hp].
    rewrite Hp /=. wp_load. iEval (rewrite dchain_snoc) in "H1".
    iDestruct "H1" as "[H1 Hl1]". wp_store. wp_load.
    wp_bind. iApply (wp_relink_prev with "H2"). iIntros "H2". wp_pures.
    iSplit; [done|]. iSplit.
    + iPureIntro. rewrite -Hp -assoc_L !start_app. by destruct es1 as [|[]].
    + rewrite -assoc dchain_app /=. iFrame.
Qed.

(** [list_remove_entry] takes the entry out of the list, at any position; the
    entry itself is not freed and keeps its fields. *)
Theorem list_remove_entry_correct es1 l a es2 :
  let es := es1 ++ (l, a) :: es2 in
  {{ dchain NULL es NULL }} list_remove_entry (start es NULL) (Some l) {{ '(r, list'),
    ⌈ r = 1%Z ⌉ ∗ ⌈ list' = start (es1 ++ es2) NULL ⌉ ∗ dchain NULL (es1 ++ es2) NULL ∗
    l ↦ DNode a (final NULL es1) (start es2 NULL) }}.
Proof. apply list_remove_entry_spec. Qed.

(** The update of the list head or of the previous entry. *)
Lemma wp_unlink pre q q' (Φ : ptr → hProp ListEntry) :
  dchain NULL pre q -∗ (dchain NULL pre q' -∗ Φ (start pre q')) -∗
  wp (match final NULL pre with
      | NULL => mret q'
      | Some _ => _ ← modify (final NULL pre) (put_next q'); mret (start pre q)
      end) Φ.
Proof.
  iIntros "H HΦ". destruct pre as [|[l a] pre _] using rev_ind; simpl.
  - iApply wp_ret. by iApply "HΦ".
  - rewrite final_snoc dchain_snoc. iDestruct "H" as "[H Hl]". wp_store. iApply wp_ret.
    rewrite dchain_snoc !start_app. iApply "HΦ". iFrame.
Qed.

Lemma list_remove_loop_spec fuel callback data pre es k :
  length es < fuel → (0 ≤ k)%Z → (k + length es ≤ INT_MAX)%Z →
  {{ dchain NULL pre (start es NULL) ∗ dchain (final NULL pre) es NULL }}
    list_remove_loop fuel callback data (k, start pre (start es NULL), start es NULL)
  {{ '(removed, list'), let es' := pre ++ filter (λ e, callback e.2 data = 0%Z) es in
    ⌈ removed = (k + length (filter (λ e, callback e.2 data ≠ 0%Z) es))%Z ⌉ ∗
    ⌈ list' = start es' NULL ⌉ ∗ dchain NULL es' NULL }}.
Proof.
  revert fuel pre k. induction es as [|[l a] es IH]; intros [|fuel] pre k Hf Hk Hmax;
    simpl in Hf, Hmax; try lia; apply triple_wp; iIntros "[Hpre H]";
    rewrite /list_remove_loop; wp_loop.
  - wp_pures. rewrite !right_id_L. ipure.
  - iDestruct "H" as "[Hl H]". wp_load. case_bool_decide as Hcb.
    + wp_bind. iApply (wp_unlink with "Hpre"). iIntros "Hpre". wp_load.
      wp_bind. iApply (wp_relink_prev with "H"). iIntros "H". wp_free. wp_chk. wp_pures.
      filter_case.
      iApply (triple_use with "[Hpre H]"); [apply IH; lia|by iFrame|].
      iIntros ([r list']) "(-> & -> & H)". ipure.
    + wp_pures. filter_case.
      specialize (IH fuel (pre ++ [(l, a)]) k).
      rewrite start_app final_snoc /= -assoc_L in IH.
      iApply (triple_use with "[Hpre H Hl]"); [apply IH; lia| |].
      * rewrite dchain_snoc. iFrame.
      * iIntros ([r list']) "(-> & -> & H)". ipure.
Qed.

(** [list_remove_data] unlinks and frees exactly the entries whose value the
    callback accepts, keeps the links in both directions and returns the number
    of entries removed. *)
Theorem list_remove_data_correct fuel callback es data :
  length es < fuel → (length es ≤ INT_MAX)%Z →
  {{ dchain NULL es NULL }} list_remove_data fuel (start es NULL) callback data
  {{ '(removed, list'), let es' := filter (λ e, callback e.2 data = 0%Z) es in
    ⌈ removed = length (filter (λ e, callback e.2 data ≠ 0%Z) es) ⌉ ∗
    ⌈ list' = start es' NULL ⌉ ∗ dchain NULL es' NULL }}.
Proof.
  intros Hf Hmax. apply triple_wp. iIntros "H".
  iApply (triple_use with "[H]"); [apply (list_remove_loop_spec _ _ _ [] es 0); lia| |].
  - simpl. by iFrame.
  - iIntros ([r list']) "(-> & -> & H)". rewrite Z.add_0_l. ipure.
Qed.
End removal.

Section sort.
Implicit Types es : list (loc * value).

Lemma list_partition_spec fuel cmp lp n p es less more :
  length es < fuel →
  let less' := reverse (filter (λ e, cmp e.2 (d_data n) < 0)%Z es) ++ less in
  let more' := reverse (filter (λ e, ¬ cmp e.2 (d_data n) < 0)%Z es) ++ more in
  {{ lp ↦ n ∗ dchain p es NULL ∗ dchain NULL less NULL ∗ dchain NULL more NULL }}
    list_partition fuel cmp (Some lp) (start es NULL, start less NULL, start more NULL)
  {{ '(pl, pm), ⌈ pl = start less' NULL ⌉ ∗ ⌈ pm = start more' NULL ⌉ ∗
     lp ↦ n ∗ dchain NULL less' NULL ∗ dchain NULL more' NULL }}.
Proof.
  revert fuel p less more. induction es as [|[l a] es IH]; intros [|fuel] p less more Hf;
    simpl in Hf; try lia; apply triple_wp; iIntros "(Hp & H & Hless & Hmore)";
    rewrite /list_partition; wp_loop; [wp_pures; ipure|].
  iDestruct "H" as "[Hl H]". wp_load. wp_load. case_bool_decide; wp_store; wp_store; wp_bind;
    [iApply (wp_relink_prev with "Hless"); iIntros "Hless"
    |iApply (wp_relink_prev with "Hmore"); iIntros "Hmore"];
    wp_pures; filter_case; rewrite reverse_cons -assoc_L.
  - iApply (triple_use with "[-]");
      [apply (IH fuel (Some l) ((l, a) :: less) more); lia|simpl; by iFrame|].
    iIntros ([pl pm]) "(-> & -> & $ & $ & $)". ipure.
  - iApply (triple_use with "[-]");
      [apply (IH fuel (Some l) less ((l, a) :: more)); lia|simpl; by iFrame|].
    iIntros ([pl pm]) "(-> & -> & $ & $ & $)". ipure.
Qed.

(** The junction of the sorted parts around the pivot. *)
Lemma wp_join_tail {B} less lp n more (k : ptr → M ListEntry B) (Φ : B → hProp ListEntry) :
  dchain NULL less NULL -∗ lp ↦ n -∗ dchain NULL more NULL -∗
  (dchain NULL (less ++ (lp, d_data n) :: more) NULL -∗
   wp (k (start (less ++ (lp, d_data n) :: more) NULL)) Φ) -∗
  wp (list ← match start less NULL with
             | NULL => _ ← modify (Some lp) (put_prev NULL); mret (Some lp)
             | Some _ =>
                 _ ← modify (Some lp) (put_prev (final NULL less));
                 _ ← modify (final NULL less) (put_next (Some lp));
                 mret (start less NULL)
             end;
      _ ← modify (Some lp) (put_next (start more NULL));
      _ ← relink_prev (start more NULL) (Some lp);
      k list) Φ.
Proof.
  iIntros "Hless Hp Hmore HΦ". wp_bind.
  iApply (wp_wand _ (λ p, ⌈ p = start (less ++ (lp, d_data n) :: more) NULL ⌉ ∗
    dchain NULL less (Some lp) ∗ lp ↦ DNode (d_data n) (final NULL less) (d_next n))%I
    with "[Hless Hp]").
  { destruct less as [|[l a] less]; simpl; [wp_store; wp_pures; by iFrame|].
    wp_store. wp_bind. iApply (wp_put_last _ ((l, a) :: less) with "Hless"); [done|].
    iIntros "Hless". wp_pures. by iFrame. }
  iIntros (p) "(-> & Hless & Hp)". wp_store. wp_bind.
  iApply (wp_relink_prev with "Hmore"). iIntros "Hmore". wp_pures. iApply "HΦ".
  rewrite dchain_app /=. iFrame.
Qed.

Lemma list_sort_internal_spec fuel cmp es :
  length es < fuel →
  {{ dchain NULL es NULL }} list_sort_internal fuel cmp (start es NULL) {{ '(e, p),
    ∃ es', ⌈ e = final NULL es' ⌉ ∗ ⌈ p = start es' NULL ⌉ ∗ ⌈ es' ≡ₚ es ⌉ ∗
           ⌈ CompareFunc cmp → sorted_by cmp es' ⌉ ∗ dchain NULL es' NULL }}.
Proof.
  revert es. induction fuel as [|fuel IH]; intros es Hf; [lia|].
  apply triple_wp. iIntros "H". destruct es as [|[lp ap] es]; simpl.
  { wp_pures. iExists []. iFrame. iPureIntro. split_and!; [done..|].
    intros _. by apply sorted_by_short; simpl; lia. }
  simpl in Hf. iDestruct "H" as "[Hp H]". wp_load.
  destruct es as [|[l a] es]; simpl.
  { wp_pures. iExists [(lp, ap)]. iFrame. iPureIntro. split_and!; [done..|].
    intros _. by apply sorted_by_short; simpl; lia. }
  wp_bind. iApply (triple_use with "[Hp H]");
    [eapply (list_partition_spec _ cmp lp (DNode ap NULL (Some l)) (Some lp) ((l, a) :: es) [] []);
       simpl in *; lia
    |simpl; by iFrame|].
  set (es0 := (l, a) :: es) in *. rewrite !right_id_L.
  iIntros ([pl pm]) "(-> & -> & Hp & Hless & Hmore)".
  set (less := filter _ es0). set (more := filter _ es0).
  assert (length less ≤ length es0 ∧ length more ≤ length es0) as [Hll Hlm].
  { split; apply length_filter. }
  wp_call IH with "Hless"; [rewrite length_reverse; lia|].
  iIntros ([le pl]) "(%less' & -> & -> & %Hpl & %Hsl & Hless)".
  wp_call IH with "Hmore"; [rewrite length_reverse; lia|].
  iIntros ([me pm]) "(%more' & -> & -> & %Hpm & %Hsm & Hmore)".
  rewrite reverse_Permutation in Hpl. rewrite reverse_Permutation in Hpm.
  set (res := less' ++ (lp, ap) :: more').
  iApply (wp_join_tail with "Hless Hp Hmore"). iIntros "H". fold res.
  assert (final NULL res = match start more' NULL with NULL => Some lp | _ => final NULL more' end) as He.
  { rewrite /res final_app final_cons. by destruct more' as [|[l' a'] more']; rewrite ?final_cons. }
  iAssert (∃ es', ⌈ final NULL res = final NULL es' ⌉ ∗ ⌈ start res NULL = start es' NULL ⌉ ∗
    ⌈ es' ≡ₚ (lp, ap) :: es0 ⌉ ∗ ⌈ CompareFunc cmp → sorted_by cmp es' ⌉ ∗ dchain NULL es' NULL)%I
    with "[H]" as "H".
  { iExists res. iFrame. iPureIntro. split_and!; [done..|by apply (quicksort_perm cmp)|].
    intros Hcmp. by apply (quicksort_sorted cmp _ _ es0); auto. }
  rewrite He. destruct (start more' NULL); wp_pures; iExact "H".
Qed.

(** [list_sort] rearranges the same entries, whatever the comparison is, sorts
    them if it is a total preorder, and leaves the links in both directions
    consistent. *)
Theorem list_sort_correct fuel cmp es :
  length es < fuel →
  {{ dchain NULL es NULL }} list_sort fuel (start es NULL) cmp {{ p,
    ∃ es', ⌈ p = start es' NULL ⌉ ∗ ⌈ es' ≡ₚ es ⌉ ∗
           ⌈ CompareFunc cmp → StronglySorted (cmp_le cmp) es'.*2 ⌉ ∗ dchain NULL es' NULL }}.
Proof.
  intros Hf. apply triple_wp. iIntros "H". rewrite /list_sort.
  wp_call list_sort_internal_spec with "H".
  iIntros ([e p]) "(%es' & -> & -> & %Hp & %Hs & H)". wp_pures.
  iExists es'. by iFrame.
Qed.
End sort.

Section iterators.
Implicit Types pre post : list (loc * value).

(** The iterator has read the entries [pre]: either it waits before the next
    entry, or its current entry is the last of [pre]. *)
Definition iter_rep pre (iter : ListIterator) : Prop :=
  iter = {| prev_next := slot_after pre; current := NULL |} ∨
  ∃ pre' l a, pre = pre' ++ [(l, a)] ∧
    iter = {| prev_next := slot_after pre'; current := Some l |}.

Lemma list_iter_moved_spec pre post iter :
  iter_rep pre iter →
  {{ dchain NULL (pre ++ post) NULL }} list_iter_moved (start (pre ++ post) NULL) iter
  {{ b, ⌈ b = bool_decide (current iter = NULL) ⌉ ∗ dchain NULL (pre ++ post) NULL }}.
Proof.
  intros [->|(pre' & l & a & -> & ->)]; apply triple_wp; iIntros "H";
    rewrite /list_iter_moved /=; [wp_pures; ipure|].
  rewrite -assoc_L start_app /=. iEval (rewrite dchain_app) in "H".
  iDestruct "H" as "[H1 H2]".
  wp_bind. iApply (wp_read_dslot with "H1"). iIntros "H1". wp_pures.
  rewrite !bool_decide_eq_false_2; [|naive_solver..]. rewrite dchain_app. ipure.
Qed.

Lemma list_iter_has_more_spec pre post iter :
  iter_rep pre iter →
  {{ dchain NULL (pre ++ post) NULL }} list_iter_has_more (start (pre ++ post) NULL) iter
  {{ b, ⌈ b = bool_decide (post ≠ []) ⌉ ∗ dchain NULL (pre ++ post) NULL }}.
Proof.
  intros Hit. apply triple_wp. iIntros "H". rewrite /list_iter_has_more.
  wp_call list_iter_moved_spec with "H". iIntros (b) "[-> H]".
  destruct Hit as [->|(pre' & l & a & -> & ->)]; simpl.
  - iEval (rewrite dchain_app) in "H". rewrite start_app. iDestruct "H" as "[H1 H2]".
    wp_bind. iApply (wp_read_dslot with "H1"). iIntros "H1". wp_pures.
    rewrite dchain_app. iFrame. iPureIntro. apply bool_decide_ext. by destruct post as [|[]].
  - rewrite -assoc_L. iEval (rewrite dchain_app /=) in "H".
    iDestruct "H" as "(H1 & Hl & H2)".
    wp_load. wp_pures. rewrite dchain_app /=. iFrame. iPureIntro. apply bool_decide_ext.
    by destruct post as [|[]].
Qed.

(** [list_iter_remove] unlinks and frees the entry read last, once; the links of
    its neighbours are updated in both directions. *)
Theorem list_iter_remove_correct pre post iter :
  iter_rep pre iter →
  {{ dchain NULL (pre ++ post) NULL }} list_iter_remove (start (pre ++ post) NULL) iter
  {{ '(list', iter'), ∃ pre',
    ⌈ match current iter with
      | NULL => pre' = pre
      | Some l => ∃ a, pre = pre' ++ [(l, a)]
      end ⌉ ∗
    ⌈ list' = start (pre' ++ post) NULL ⌉ ∗ ⌈ current iter' = NULL ⌉ ∗
    ⌈ iter_rep pre' iter' ⌉ ∗ dchain NULL (pre' ++ post) NULL }}.
Proof.
  intros Hit. apply triple_wp. iIntros "H". rewrite /list_iter_remove.
  wp_call list_iter_moved_spec with "H". iIntros (b) "[-> H]".
  destruct Hit as [->|(pre' & l & a & -> & ->)]; simpl.
  - wp_pures. iExists pre. iFrame. iPureIntro. split_and!; [done..|by left].
  - rewrite -assoc_L. iEval (rewrite dchain_app /=) in "H". rewrite start_app /=.
    iDestruct "H" as "(H1 & Hl & H2)". wp_load.
    wp_bind. iApply (wp_write_dslot with "H1"). iIntros "H1". wp_load.
    wp_bind. iApply (wp_relink_prev with "H2"). iIntros "H2". wp_free. wp_pures.
    iExists pre'. rewrite dchain_app start_app. iFrame. iPureIntro.
    split_and!; [by eexists|done..|by left].
Qed.

(** [list_iter_next] returns the values one after the other, then the null
    value; it leaves the list alone. *)
Theorem list_iter_next_correct pre post iter :
  iter_rep pre iter →
  {{ dchain NULL (pre ++ post) NULL }} list_iter_next (start (pre ++ post) NULL) iter
  {{ '(v, iter'), dchain NULL (pre ++ post) NULL ∗
    match post with
    | [] => ⌈ v = VNULL ∧ iter_rep pre iter' ⌉
    | (l, a) :: _ => ⌈ v = a ∧ current iter' = Some l ∧ iter_rep (pre ++ [(l, a)]) iter' ⌉
    end }}.
Proof.
  intros Hit. apply triple_wp. iIntros "H". rewrite /list_iter_next.
  wp_call list_iter_moved_spec with "H". iIntros (b) "[-> H]".
  iAssert (wp (if bool_decide (current iter = NULL) then
          p ← read_dslot (start (pre ++ post) NULL) (prev_next iter);
          mret {| prev_next := prev_next iter; current := p |}
        else
          e ← deref (current iter);
          match current iter with
          | NULL => fail NullDeref
          | Some l => mret {| prev_next := SNext l; current := d_next e |}
          end) (λ it, ⌈ it = {| prev_next := slot_after pre; current := start post NULL |} ⌉ ∗
                      dchain NULL (pre ++ post) NULL))%I with "[H]" as "H".
  { destruct Hit as [->|(pre' & l & a & -> & ->)]; simpl.
    - iEval (rewrite dchain_app) in "H". rewrite start_app. iDestruct "H" as "[H1 H2]".
      wp_bind. iApply (wp_read_dslot with "H1"). iIntros "H1". wp_pures.
      rewrite dchain_app. ipure.
    - rewrite -assoc_L. iEval (rewrite dchain_app /=) in "H".
      iDestruct "H" as "(H1 & Hl & H2)".
      wp_load. wp_pures. rewrite slot_after_snoc dchain_app /=. ipure. }
  wp_bind. iApply (wp_wand with "H"). iIntros (it) "[-> H]". simpl.
  destruct post as [|[l a] post]; simpl.
  - wp_pures. iFrame. iPureIntro. split; [done|by left].
  - iEval (rewrite dchain_app /=) in "H". iDestruct "H" as "(H1 & Hl & H2)".
    wp_load. wp_pures. rewrite dchain_app /=. iFrame. iPureIntro.
    split_and!; [done..|]. right. by exists pre, l, a.
Qed.
End iterators.

(** ** Runs

    The theorems at three entries at the locations 1, 2, 3. *)
Module Runs.
#[local] Instance grant : Allocator ListEntry := total_alloc (DNode 0%Z NULL NULL).
Definition three : list (loc * value) := [(1%positive, 30%Z); (2%positive, 10%Z); (3%positive, 20%Z)].
Definition heap : gmap loc ListEntry := dchain_cells NULL three NULL.

Lemma dthree_holds : holds (dchain NULL three NULL) heap.
Proof. by apply holds_dchain_run. Qed.

Lemma list_remove_data_correct_witness :
  ∃ l h' t', list_remove_data 4 (Some 1%positive) pointer_equal 10%Z (Mem heap 0) =
    Ok ((1%Z, l), Mem h' t').
Proof.
  destruct (triple_run _ _ _ heap 0 (list_remove_data_correct 4 pointer_equal three 10%Z
    ltac:(simpl; lia) ltac:(simpl; int_tac)) dthree_holds) as ([r l] & h' & t' & E & HQ).
  exists l, h', t'. apply holds_pure_sep in HQ as [-> _]. exact E.
Defined.

Lemma list_sort_correct_witness :
  ∃ es p h' t', list_sort 4 (Some 1%positive) pointer_compare (Mem heap 0) = Ok (p, Mem h' t') ∧
    es ≡ₚ three ∧ StronglySorted (cmp_le pointer_compare) es.*2.
Proof.
  destruct (triple_run _ _ _ heap 0 (list_sort_correct 4 pointer_compare three
    ltac:(simpl; lia)) dthree_holds) as (p & h' & t' & E & [es HQ]).
  exists es, p, h', t'. split; [exact E|].
  apply holds_pure_sep in HQ as [_ HQ]. apply holds_pure_sep in HQ as [Hp HQ].
  apply holds_pure_sep in HQ as [Hs _]. split; [exact Hp|]. apply Hs, _.
Defined.

Lemma list_iter_remove_correct_witness :
  ∃ r h' t', list_iter_remove (Some 1%positive)
    {| prev_next := SHead; current := Some 1%positive |} (Mem heap 0) = Ok (r, Mem h' t').
Proof.
  destruct (triple_run _ _ _ heap 0 (list_iter_remove_correct [(1%positive, 30%Z)]
    [(2%positive, 10%Z); (3%positive, 20%Z)] {| prev_next := SHead; current := Some 1%positive |}
    ltac:(right; by exists [], 1%positive, 30%Z)) dthree_holds) as (r & h' & t' & E & HQ).
  exists r, h', t'. exact E.
Defined.
End Runs.
