(* ===== verification/Queue.v ===== *)
(** * Queue: the double-ended queue of queue.c

    The structure is the record [Queue] of its two pointers; the entries are
    doubly linked cells.  [queue q xs] owns the entries of a queue that holds the
    values [xs], head first.  The contract is the abstract double-ended queue
    [deque_op] on lists, which every sequence of calls implements; a push whose allocation is
    refused returns 0 and changes nothing ([deque_step]). *)
From stdpp Require Import base gmap list numbers.
From iris.proofmode Require Import proofmode.
From S2P Require Import Prelude Memory Chain DChain.

Abbreviation QueueEntry := dnode.

Record Queue := { head : ptr; tail : ptr }.

Section queue_c.
Context `{Allocator QueueEntry}.

Definition queue_new : M QueueEntry (option Queue) :=
  granted ← malloc_array;
  if negb granted then mret None
  else mret (Some {| head := NULL; tail := NULL |}).

Definition queue_is_empty (queue : Queue) : bool := bool_decide (head queue = NULL).

Definition queue_push_head (queue : Queue) (data : value) : M QueueEntry (Z * Queue) :=
  new_entry ← malloc;
  match new_entry with
  | NULL => mret (0%Z, queue)
  | Some _ =>
      _ ← modify new_entry (put_data data);
      _ ← modify new_entry (put_prev NULL);
      _ ← modify new_entry (put_next (head queue));
      match head queue with
      | NULL => mret (1%Z, {| head := new_entry; tail := new_entry |})
      | Some _ =>
          _ ← modify (head queue) (put_prev new_entry);
          mret (1%Z, {| head := new_entry; tail := tail queue |})
      end
  end.

Definition queue_pop_head (queue : Queue) : M QueueEntry (value * Queue) :=
  if queue_is_empty queue then mret (VNULL, queue)
  else
    let entry := head queue in
    e ← deref entry;
    let head' := d_next e in
    let result := d_data e in
    queue ← match head' with
            | NULL => mret {| head := head'; tail := NULL |}
            | Some _ =>
                _ ← modify head' (put_prev NULL);
                mret {| head := head'; tail := tail queue |}
            end;
    _ ← free entry;
    mret (result, queue).

Definition queue_peek_head (queue : Queue) : M QueueEntry value :=
  if queue_is_empty queue then mret VNULL
  else e ← deref (head queue); mret (d_data e).

Definition queue_push_tail (queue : Queue) (data : value) : M QueueEntry (Z * Queue) :=
  new_entry ← malloc;
  match new_entry with
  | NULL => mret (0%Z, queue)
  | Some _ =>
      _ ← modify new_entry (put_data data);
      _ ← modify new_entry (put_prev (tail queue));
      _ ← modify new_entry (put_next NULL);
      match tail queue with
      | NULL => mret (1%Z, {| head := new_entry; tail := new_entry |})
      | Some _ =>
          _ ← modify (tail queue) (put_next new_entry);
          mret (1%Z, {| head := head queue; tail := new_entry |})
      end
  end.

Definition queue_pop_tail (queue : Queue) : M QueueEntry (value * Queue) :=
  if queue_is_empty queue then mret (VNULL, queue)
  else
    let entry := tail queue in
    e ← deref entry;
    let tail' := d_prev e in
    let result := d_data e in
    queue ← match tail' with
            | NULL => mret {| head := NULL; tail := tail' |}
            | Some _ =>
                _ ← modify tail' (put_next NULL);
                mret {| head := head queue; tail := tail' |}
            end;
    _ ← free entry;
    mret (result, queue).

Definition queue_peek_tail (queue : Queue) : M QueueEntry value :=
  if queue_is_empty queue then mret VNULL
  else e ← deref (tail queue); mret (d_data e).

Definition queue_free (fuel : nat) (queue : Queue) : M QueueEntry unit :=
  loop fuel (λ queue,
    if queue_is_empty queue then mret (inr tt)
    else '(_, queue) ← queue_pop_head queue; mret (inl queue)) queue.
End queue_c.

(** ** The abstract queue *)

Inductive op : Set :=
  | PushHead (v : value)
  | PushTail (v : value)
  | PopHead
  | PopTail
  | PeekHead
  | PeekTail
  | IsEmpty.

(** The result of a call and the queue after it; pushes return 1, the others the
    null value on an empty queue. *)
Definition deque_op (o : op) (xs : list value) : Z * list value :=
  match o with
  | PushHead v => (1%Z, v :: xs)
  | PushTail v => (1%Z, xs ++ [v])
  | PopHead => (default VNULL (list.head xs), list.tail xs)
  | PopTail => (default VNULL (last xs), take (pred (length xs)) xs)
  | PeekHead => (default VNULL (list.head xs), xs)
  | PeekTail => (default VNULL (last xs), xs)
  | IsEmpty => (if bool_decide (xs = []) then 1%Z else 0%Z, xs)
  end.

(** The calls of a client, one after the other. *)
Section calls.
Context `{Allocator QueueEntry}.

Definition queue_op (o : op) (q : Queue) : M QueueEntry (Z * Queue) :=
  match o with
  | PushHead v => queue_push_head q v
  | PushTail v => queue_push_tail q v
  | PopHead => queue_pop_head q
  | PopTail => queue_pop_tail q
  | PeekHead => r ← queue_peek_head q; mret (r, q)
  | PeekTail => r ← queue_peek_tail q; mret (r, q)
  | IsEmpty => mret (if queue_is_empty q then 1%Z else 0%Z, q)
  end.

Fixpoint queue_ops (os : list op) (q : Queue) : M QueueEntry (list Z * Queue) :=
  match os with
  | [] => mret ([], q)
  | o :: os =>
      '(r, q) ← queue_op o q;
      '(rs, q) ← queue_ops os q;
      mret (r :: rs, q)
  end.
End calls.

(** One call: as [deque_op] says, or a push whose allocation is refused. *)
Inductive deque_step (refusals : Prop) : op → list value → Z → list value → Prop :=
  | step_done o xs : deque_step refusals o xs (deque_op o xs).1 (deque_op o xs).2
  | step_head_refused v xs : refusals → deque_step refusals (PushHead v) xs 0 xs
  | step_tail_refused v xs : refusals → deque_step refusals (PushTail v) xs 0 xs.

(** The calls, their results, and the list before and after them. *)
Inductive deque_run (refusals : Prop) : list op → list value → list Z → list value → Prop :=
  | deque_run_nil xs : deque_run refusals [] xs [] xs
  | deque_run_cons o os xs r xs' rs xs'' :
      deque_step refusals o xs r xs' → deque_run refusals os xs' rs xs'' →
      deque_run refusals (o :: os) xs (r :: rs) xs''.

(** ** Correctness *)

Section proofs.
Context `{Allocator QueueEntry}.
Implicit Types es : list (loc * value).
Implicit Types xs : list value.

Definition queue (q : Queue) xs : hProp QueueEntry :=
  ∃ es, ⌈ xs = es.*2 ⌉ ∗ ⌈ q = {| head := start es NULL; tail := final NULL es |} ⌉ ∗
        dchain NULL es NULL.

Lemma queue_intro es h t xs :
  h = start es NULL → t = final NULL es → xs = es.*2 →
  dchain NULL es NULL ⊢ queue {| head := h; tail := t |} xs.
Proof. iIntros (-> -> ->) "H". iExists es. by iFrame. Qed.

Lemma queue_new_spec :
  {{ emp }} queue_new {{ r, match r with None => ⌈ can_fail ⌉ | Some q => queue q [] end }}.
Proof.
  apply triple_wp. iIntros "_". rewrite /queue_new. wp_malloc_array; wp_pures; [|ipure].
  iExists []. by iPureIntro.
Qed.

(** A push that fails leaves the queue as it was. *)
Definition pushed (q q' : Queue) xs xs' (r : Z) : hProp QueueEntry :=
  (⌈ r = 1%Z ⌉ ∗ queue q' xs') ∨ (⌈ r = 0%Z ∧ can_fail ∧ q' = q ⌉ ∗ queue q xs).

Lemma queue_push_head_spec q xs v :
  {{ queue q xs }} queue_push_head q v {{ '(r, q'), pushed q q' xs (v :: xs) r }}.
Proof.
  apply triple_wp. iIntros "(%es & -> & -> & H)". rewrite /queue_push_head /=.
  wp_malloc l as "Hl"; last first.
  { wp_pures. iRight. iSplit; [done|]. by iApply queue_intro. }
  wp_store. wp_store. wp_store. destruct es as [|[l0 a] es]; simpl.
  - wp_pures. iLeft. iSplit; [done|]. iApply (queue_intro [(l, v)]); [done..|]. simpl. iFrame.
  - iDestruct "H" as "[Hl0 H]". wp_store. wp_pures. iLeft. iSplit; [done|].
    iApply (queue_intro ((l, v) :: (l0, a) :: es)); [done|by rewrite !final_cons|done|].
    simpl. iFrame.
Qed.

Lemma queue_push_tail_spec q xs v :
  {{ queue q xs }} queue_push_tail q v {{ '(r, q'), pushed q q' xs (xs ++ [v]) r }}.
Proof.
  apply triple_wp. iIntros "(%es & -> & -> & H)". rewrite /queue_push_tail /=.
  wp_malloc l as "Hl"; last first.
  { wp_pures. iRight. iSplit; [done|]. by iApply queue_intro. }
  wp_store. wp_store. wp_store. destruct es as [|[l0 a] es _] using rev_ind; simpl.
  - wp_pures. iLeft. iSplit; [done|]. iApply (queue_intro [(l, v)]); [done..|]. simpl. iFrame.
  - rewrite final_snoc. iEval (rewrite dchain_snoc) in "H". iDestruct "H" as "[H Hl0]".
    wp_store. wp_pures. iLeft. iSplit; [done|].
    iApply (queue_intro ((es ++ [(l0, a)]) ++ [(l, v)])).
    + rewrite !start_app. by destruct es as [|[]].
    + by rewrite final_snoc.
    + by rewrite !fmap_app.
    + rewrite !dchain_snoc final_snoc. iFrame.
Qed.

Lemma queue_is_empty_spec q xs :
  queue q xs ⊢ ⌈ queue_is_empty q = bool_decide (xs = []) ⌉ ∗ queue q xs.
Proof.
  iIntros "(%es & -> & -> & H)". iSplitR; [|by iApply queue_intro].
  iPureIntro. apply bool_decide_ext. by destruct es as [|[]].
Qed.

Lemma queue_pop_head_spec q xs :
  {{ queue q xs }} queue_pop_head q {{ '(r, q'),
    ⌈ r = default VNULL (list.head xs) ⌉ ∗ queue q' (list.tail xs) }}.
Proof.
  apply triple_wp. iIntros "H". rewrite /queue_pop_head.
  iDestruct (queue_is_empty_spec with "H") as "[-> H]".
  iDestruct "H" as "(%es & -> & -> & H)". destruct es as [|[l a] es]; simpl.
  { wp_pures. iSplit; [done|]. by iApply (queue_intro []). }
  iDestruct "H" as "[Hl H]". wp_load. rewrite final_cons.
  destruct es as [|[l0 a0] es]; simpl.
  - wp_pures. wp_free. wp_pures. iSplit; [done|]. by iApply (queue_intro []).
  - iDestruct "H" as "[Hl0 H]". wp_store. wp_pures. wp_free. wp_pures. iSplit; [done|].
    iApply (queue_intro ((l0, a0) :: es)); [done|by rewrite !final_cons|done|]. simpl. iFrame.
Qed.

Lemma queue_pop_tail_spec q xs :
  {{ queue q xs }} queue_pop_tail q {{ '(r, q'),
    ⌈ r = default VNULL (last xs) ⌉ ∗ queue q' (take (pred (length xs)) xs) }}.
Proof.
  apply triple_wp. iIntros "H". rewrite /queue_pop_tail.
  iDestruct (queue_is_empty_spec with "H") as "[-> H]".
  iDestruct "H" as "(%es & -> & -> & H)". destruct es as [|[l a] es _] using rev_ind; simpl.
  { wp_pures. iSplit; [done|]. by iApply (queue_intro []). }
  rewrite bool_decide_eq_false_2; [|rewrite fmap_app; by destruct es].
  rewrite fmap_app last_snoc length_app /= Nat.add_1_r /= take_app_length final_snoc.
  iEval (rewrite dchain_snoc) in "H". iDestruct "H" as "[H Hl]". wp_load.
  destruct es as [|[l0 a0] es _] using rev_ind; simpl.
  - wp_pures. wp_free. wp_pures. iSplit; [done|]. by iApply (queue_intro []).
  - rewrite final_snoc /=. iEval (rewrite dchain_snoc) in "H". iDestruct "H" as "[H Hl0]".
    wp_store. wp_pures. wp_free. wp_pures. iSplit; [done|].
    iApply (queue_intro (es ++ [(l0, a0)])); [|by rewrite final_snoc|done|].
    + rewrite !start_app. by destruct es as [|[]].
    + rewrite dchain_snoc. iFrame.
Qed.

Lemma queue_peek_spec q xs :
  {{ queue q xs }} queue_peek_head q {{ r, ⌈ r = default VNULL (list.head xs) ⌉ ∗ queue q xs }} ∧
  {{ queue q xs }} queue_peek_tail q {{ r, ⌈ r = default VNULL (last xs) ⌉ ∗ queue q xs }}.
Proof.
  split; apply triple_wp; iIntros "H"; rewrite /queue_peek_head /queue_peek_tail;
    iDestruct (queue_is_empty_spec with "H") as "[-> H]";
    iDestruct "H" as "(%es & -> & -> & H)".
  - destruct es as [|[l a] es]; simpl.
    { wp_pures. iSplit; [done|]. by iApply (queue_intro []). }
    iDestruct "H" as "[Hl H]". wp_load. wp_pures. iSplit; [done|].
    iApply (queue_intro ((l, a) :: es)); [done..|]. simpl. iFrame.
  - destruct es as [|[l a] es _] using rev_ind; simpl.
    { wp_pures. iSplit; [done|]. by iApply (queue_intro []). }
    rewrite bool_decide_eq_false_2; [|rewrite fmap_app; by destruct es].
    rewrite fmap_app last_snoc final_snoc. iEval (rewrite dchain_snoc) in "H".
    iDestruct "H" as "[H Hl]". wp_load. wp_pures. iSplit; [done|].
    iApply (queue_intro (es ++ [(l, a)])); [done|by rewrite final_snoc|by rewrite fmap_app|].
    rewrite dchain_snoc. iFrame.
Qed.

(** One call is a step of the abstract queue. *)
Lemma queue_op_spec o q xs :
  {{ queue q xs }} queue_op o q {{ '(r, q'), ∃ xs', ⌈ deque_step can_fail o xs r xs' ⌉ ∗ queue q' xs' }}.
Proof.
  apply triple_wp. iIntros "H". destruct o as [v|v| | | | |]; simpl.
  - iApply (triple_use with "H"); [apply queue_push_head_spec|].
    iIntros ([r q']) "[[-> H]|[%Hc H]]"; [|destruct Hc as (-> & Hc & ->)]; iExists _; iFrame "H"; iPureIntro;
      [exact (step_done _ (PushHead v) xs)|by constructor].
  - iApply (triple_use with "H"); [apply queue_push_tail_spec|].
    iIntros ([r q']) "[[-> H]|[%Hc H]]"; [|destruct Hc as (-> & Hc & ->)]; iExists _; iFrame "H"; iPureIntro;
      [exact (step_done _ (PushTail v) xs)|by constructor].
  - iApply (triple_use with "H"); [apply queue_pop_head_spec|]. iIntros ([r q']) "[-> H]".
    iExists _. iFrame "H". iPureIntro. exact (step_done _ PopHead xs).
  - iApply (triple_use with "H"); [apply queue_pop_tail_spec|]. iIntros ([r q']) "[-> H]".
    iExists _. iFrame "H". iPureIntro. exact (step_done _ PopTail xs).
  - wp_call (proj1 (queue_peek_spec q xs)) with "H". iIntros (r) "[-> H]". wp_pures.
    iExists _. iFrame "H". iPureIntro. exact (step_done _ PeekHead xs).
  - wp_call (proj2 (queue_peek_spec q xs)) with "H". iIntros (r) "[-> H]". wp_pures.
    iExists _. iFrame "H". iPureIntro. exact (step_done _ PeekTail xs).
  - iDestruct (queue_is_empty_spec with "H") as "[-> H]". wp_pures.
    iExists _. iFrame "H". iPureIntro. exact (step_done _ IsEmpty xs).
Qed.

(** C3. Every sequence of calls on a queue, under an allocator that may refuse any request, is a run of the abstract
    double-ended queue: each call returns and leaves what the list operation does, except that a
    push may return 0 and leave the queue as it was, and only when an allocation was refused. *)
Theorem queue_refines_deque os q xs :
  {{ queue q xs }} queue_ops os q {{ '(rs, q'),
    ∃ xs', ⌈ deque_run can_fail os xs rs xs' ⌉ ∗ queue q' xs' }}.
Proof.
  revert q xs. induction os as [|o os IH]; intros q xs; apply triple_wp; iIntros "H"; simpl.
  { wp_pures. iExists xs. iFrame. iPureIntro. constructor. }
  wp_call queue_op_spec with "H". iIntros ([r q']) "(%xs' & %Hstep & H)".
  wp_call IH with "H". iIntros ([rs q'']) "(%xs'' & %Hrun & H)". wp_pures.
  iExists xs''. iFrame. iPureIntro. by econstructor.
Qed.

(** [queue_free] releases every entry. *)
Lemma queue_free_spec fuel q xs :
  length xs < fuel → {{ queue q xs }} queue_free fuel q {{ _, emp }}.
Proof.
  revert fuel q. induction xs as [|x xs IH]; intros [|fuel] q Hf; simpl in Hf; try lia;
    apply triple_wp; iIntros "H"; rewrite /queue_free; wp_loop;
    iDestruct (queue_is_empty_spec with "H") as "[-> H]"; simpl.
  - wp_pures. iDestruct "H" as "(%es & %Hes & _ & H)". by destruct es as [|[]].
  - wp_call queue_pop_head_spec with "H". iIntros ([r q']) "[_ H]". wp_pures.
    wp_call IH with "H". iIntros (_) "$".
Qed.
End proofs.

(** ** Runs *)
Module Runs.
(** The third request is refused. *)
#[local] Instance grant : Allocator QueueEntry := bounded_alloc 2 (DNode 0%Z NULL NULL).

Definition empty : Queue := {| head := NULL; tail := NULL |}.

Lemma empty_holds : holds (queue empty []) ∅.
Proof.
  apply (holds_mono (dchain NULL [] NULL)); [by apply queue_intro|]. by apply (holds_dchain_run NULL []).
Qed.

Definition calls : list op := [PushTail 1; PushTail 2; PushHead 3; PopTail; PopHead; IsEmpty]%Z.

Lemma queue_refines_deque_witness :
  ∃ q h' t' xs', queue_ops calls empty (Mem ∅ 0) = Ok (([1; 1; 0; 2; 1; 1]%Z, q), Mem h' t') ∧
    deque_run can_fail calls [] [1; 1; 0; 2; 1; 1]%Z xs'.
Proof.
  destruct (triple_run _ _ _ ∅ 0 (queue_refines_deque calls empty []) empty_holds) as ([rs q] & h' & t' & E & HQ).
  apply holds_exist in HQ as [xs' HQ]. apply holds_pure_sep in HQ as [Hrun _].
  assert (rs = [1; 1; 0; 2; 1; 1]%Z) as -> by (vm_compute in E; congruence).
  by exists q, h', t', xs'.
Defined.
End Runs.
