(* ===== verification/AvlTree.v ===== *)
(** * AvlTree: the code of avl-tree.c

    The nodes are cells in memory with child, parent and height fields, changed
    in place by the functions below; a variable [AVLTreeNode **rover] is an
    [aslot].  AvlSpec holds the trees these functions implement, AvlProofs the
    proofs. *)
From stdpp Require Import base gmap list numbers.
From iris.proofmode Require Import proofmode.
From S2P Require Import Prelude Memory Compare.

(** [AVLTreeNodeSide]; [opp s] is [1-s]. *)
Inductive side : Set := AVL_LEFT | AVL_RIGHT.
Definition opp (s : side) : side :=
  match s with AVL_LEFT => AVL_RIGHT | AVL_RIGHT => AVL_LEFT end.

Record AVLTreeNode := ANode {
  a_left : ptr; a_right : ptr; a_parent : ptr;
  a_key : value; a_value : value; a_height : Z
}.

(** [node->children[s]] and the assignments to the fields. *)
Definition child (s : side) (n : AVLTreeNode) : ptr :=
  match s with AVL_LEFT => a_left n | AVL_RIGHT => a_right n end.
Definition put_child (s : side) (p : ptr) (n : AVLTreeNode) : AVLTreeNode :=
  match s with
  | AVL_LEFT => ANode p (a_right n) (a_parent n) (a_key n) (a_value n) (a_height n)
  | AVL_RIGHT => ANode (a_left n) p (a_parent n) (a_key n) (a_value n) (a_height n)
  end.
Definition put_parent (p : ptr) (n : AVLTreeNode) : AVLTreeNode :=
  ANode (a_left n) (a_right n) p (a_key n) (a_value n) (a_height n).
Definition put_key (k : value) (n : AVLTreeNode) : AVLTreeNode :=
  ANode (a_left n) (a_right n) (a_parent n) k (a_value n) (a_height n).
Definition put_value (v : value) (n : AVLTreeNode) : AVLTreeNode :=
  ANode (a_left n) (a_right n) (a_parent n) (a_key n) v (a_height n).
Definition put_height (h : Z) (n : AVLTreeNode) : AVLTreeNode :=
  ANode (a_left n) (a_right n) (a_parent n) (a_key n) (a_value n) h.

Record AVLTree := {
  root_node : ptr;
  compare_func : value → value → Z;
  num_nodes : Z
}.

Definition set_root (p : ptr) (tree : AVLTree) : AVLTree :=
  {| root_node := p; compare_func := compare_func tree; num_nodes := num_nodes tree |}.
Definition set_num (n : Z) (tree : AVLTree) : AVLTree :=
  {| root_node := root_node tree; compare_func := compare_func tree; num_nodes := n |}.

(** A place that holds a link of the tree. *)
Inductive aslot : Set :=
  | ARoot
  | AChild (l : loc) (s : side).

Definition read_aslot (tree : AVLTree) (s : aslot) : M AVLTreeNode ptr :=
  match s with
  | ARoot => mret (root_node tree)
  | AChild l s => n ← deref (Some l); mret (child s n)
  end.
Definition write_aslot (tree : AVLTree) (s : aslot) (p : ptr) : M AVLTreeNode AVLTree :=
  match s with
  | ARoot => mret (set_root p tree)
  | AChild l s => _ ← modify (Some l) (put_child s p); mret tree
  end.

(** [if (node != NULL) node->parent = p]. *)
Definition relink_parent (node p : ptr) : M AVLTreeNode unit :=
  match node with
  | NULL => mret tt
  | Some _ => modify node (put_parent p)
  end.

Section avl_tree_c.
Context `{Allocator AVLTreeNode}.

Definition avl_tree_new (compare_func : value → value → Z) : M AVLTreeNode (option AVLTree) :=
  granted ← malloc_array;
  if negb granted then mret None
  else mret (Some {| root_node := NULL; compare_func := compare_func; num_nodes := 0 |}).

(** The recursion of the sources, bounded by [fuel]. *)
Fixpoint avl_tree_free_subtree (fuel : nat) (node : ptr) : M AVLTreeNode unit :=
  match fuel with
  | O => fail OutOfFuel
  | S fuel =>
      match node with
      | NULL => mret tt
      | Some _ =>
          n ← deref node;
          _ ← avl_tree_free_subtree fuel (a_left n);
          n ← deref node;
          _ ← avl_tree_free_subtree fuel (a_right n);
          free node
      end
  end.

Definition avl_tree_free (fuel : nat) (tree : AVLTree) : M AVLTreeNode unit :=
  avl_tree_free_subtree fuel (root_node tree).

Definition avl_tree_subtree_height (node : ptr) : M AVLTreeNode Z :=
  match node with
  | NULL => mret 0%Z
  | Some _ => n ← deref node; mret (a_height n)
  end.

Definition avl_tree_update_height (node : ptr) : M AVLTreeNode unit :=
  n ← deref node;
  left_height ← avl_tree_subtree_height (a_left n);
  right_height ← avl_tree_subtree_height (a_right n);
  h ← chk ((if bool_decide (left_height > right_height)%Z then left_height
            else right_height) + 1)%Z;
  modify node (put_height h).

Definition avl_tree_node_parent_side (node : ptr) : M AVLTreeNode side :=
  n ← deref node;
  p ← deref (a_parent n);
  mret (if bool_decide (a_left p = node) then AVL_LEFT else AVL_RIGHT).

Definition avl_tree_node_replace (tree : AVLTree) (node1 node2 : ptr) : M AVLTreeNode AVLTree :=
  n1 ← deref node1;
  _ ← relink_parent node2 (a_parent n1);
  n1 ← deref node1;
  match a_parent n1 with
  | NULL => mret (set_root node2 tree)
  | Some _ =>
      side ← avl_tree_node_parent_side node1;
      _ ← modify (a_parent n1) (put_child side node2);
      n1 ← deref node1;
      _ ← avl_tree_update_height (a_parent n1);
      mret tree
  end.

Definition avl_tree_rotate (tree : AVLTree) (node : ptr) (direction : side) :
    M AVLTreeNode (ptr * AVLTree) :=
  n ← deref node;
  let new_root := child (opp direction) n in
  tree ← avl_tree_node_replace tree node new_root;
  nr ← deref new_root;
  _ ← modify node (put_child (opp direction) (child direction nr));
  _ ← modify new_root (put_child direction node);
  _ ← modify node (put_parent new_root);
  n ← deref node;
  _ ← relink_parent (child (opp direction) n) node;
  _ ← avl_tree_update_height new_root;
  _ ← avl_tree_update_height node;
  mret (new_root, tree).

Definition avl_tree_node_balance (tree : AVLTree) (node : ptr) :
    M AVLTreeNode (ptr * AVLTree) :=
  n ← deref node;
  let left_subtree := a_left n in
  let right_subtree := a_right n in
  right_height ← avl_tree_subtree_height right_subtree;
  left_height ← avl_tree_subtree_height left_subtree;
  diff ← chk (right_height - left_height)%Z;
  '(node, tree) ←
    (if bool_decide (diff >= 2)%Z then
       c ← deref right_subtree;
       outer ← avl_tree_subtree_height (a_right c);
       inner ← avl_tree_subtree_height (a_left c);
       '(_, tree) ← (if bool_decide (outer < inner)%Z
                     then avl_tree_rotate tree right_subtree AVL_RIGHT
                     else mret (NULL, tree));
       avl_tree_rotate tree node AVL_LEFT
     else if bool_decide (diff <= -2)%Z then
       c ← deref left_subtree;
       outer ← avl_tree_subtree_height (a_left c);
       inner ← avl_tree_subtree_height (a_right c);
       '(_, tree) ← (if bool_decide (outer < inner)%Z
                     then avl_tree_rotate tree left_subtree AVL_LEFT
                     else mret (NULL, tree));
       avl_tree_rotate tree node AVL_RIGHT
     else mret (node, tree));
  _ ← avl_tree_update_height node;
  mret (node, tree).

(** [while (rover != NULL)] *)
Definition avl_tree_balance_to_root (fuel : nat) (tree : AVLTree) (node : ptr) :
    M AVLTreeNode AVLTree :=
  loop fuel (λ '(rover, tree),
    match rover with
    | NULL => mret (inr tree)
    | Some _ =>
        '(rover, tree) ← avl_tree_node_balance tree rover;
        n ← deref rover;
        mret (inl (a_parent n, tree))
    end) (node, tree).

(** The walk of [avl_tree_insert]: [rover] and [previous_node]. *)
Definition avl_tree_insert_walk (fuel : nat) (tree : AVLTree) (key : value) :
    aslot * ptr → M AVLTreeNode (aslot * ptr) :=
  loop fuel (λ '(rover, previous_node),
    p ← read_aslot tree rover;
    match p with
    | NULL => mret (inr (rover, previous_node))
    | Some l =>
        n ← deref p;
        if bool_decide (compare_func tree key (a_key n) < 0)%Z
        then mret (inl (AChild l AVL_LEFT, p))
        else mret (inl (AChild l AVL_RIGHT, p))
    end).

Definition avl_tree_insert (fuel : nat) (tree : AVLTree) (key v : value) :
    M AVLTreeNode (ptr * AVLTree) :=
  '(rover, previous_node) ← avl_tree_insert_walk fuel tree key (ARoot, NULL);
  new_node ← malloc;
  match new_node with
  | NULL => mret (NULL, tree)
  | Some _ =>
      _ ← modify new_node (put_child AVL_LEFT NULL);
      _ ← modify new_node (put_child AVL_RIGHT NULL);
      _ ← modify new_node (put_parent previous_node);
      _ ← modify new_node (put_key key);
      _ ← modify new_node (put_value v);
      _ ← modify new_node (put_height 1);
      tree ← write_aslot tree rover new_node;
      tree ← avl_tree_balance_to_root fuel tree previous_node;
      num ← chk (num_nodes tree + 1)%Z;
      mret (new_node, set_num num tree)
  end.

(** [while (result->children[1-side] != NULL)] *)
Definition avl_tree_innermost (fuel : nat) (side : side) : ptr → M AVLTreeNode ptr :=
  loop fuel (λ result : ptr,
    n ← deref result;
    match child (opp side) n with
    | NULL => mret (inr result)
    | Some _ => mret (inl (child (opp side) n))
    end).

Definition avl_tree_node_get_replacement (fuel : nat) (tree : AVLTree) (node : ptr) :
    M AVLTreeNode (ptr * AVLTree) :=
  n ← deref node;
  let left_subtree := a_left n in
  let right_subtree := a_right n in
  match left_subtree, right_subtree with
  | NULL, NULL => mret (NULL, tree)
  | _, _ =>
      left_height ← avl_tree_subtree_height left_subtree;
      right_height ← avl_tree_subtree_height right_subtree;
      let side := if bool_decide (left_height < right_height)%Z then AVL_RIGHT else AVL_LEFT in
      n ← deref node;
      result ← avl_tree_innermost fuel side (child side n);
      r ← deref result;
      tree ← avl_tree_node_replace tree result (child side r);
      r ← deref result;
      _ ← avl_tree_update_height (a_parent r);
      mret (result, tree)
  end.

(** One round of [for (i=0; i<2; ++i)] in [avl_tree_remove_node]. *)
Definition avl_tree_copy_child (node swap_node : ptr) (s : side) : M AVLTreeNode unit :=
  n ← deref node;
  _ ← modify swap_node (put_child s (child s n));
  sn ← deref swap_node;
  relink_parent (child s sn) swap_node.

Definition avl_tree_remove_node (fuel : nat) (tree : AVLTree) (node : ptr) :
    M AVLTreeNode AVLTree :=
  '(swap_node, tree) ← avl_tree_node_get_replacement fuel tree node;
  '(balance_startpoint, tree) ←
    match swap_node with
    | NULL =>
        tree ← avl_tree_node_replace tree node NULL;
        n ← deref node;
        mret (a_parent n, tree)
    | Some _ =>
        sn ← deref swap_node;
        let balance_startpoint :=
          if bool_decide (a_parent sn = node) then swap_node else a_parent sn in
        _ ← avl_tree_copy_child node swap_node AVL_LEFT;
        _ ← avl_tree_copy_child node swap_node AVL_RIGHT;
        n ← deref node;
        _ ← modify swap_node (put_height (a_height n));
        tree ← avl_tree_node_replace tree node swap_node;
        mret (balance_startpoint, tree)
    end;
  _ ← free node;
  num ← chk (num_nodes tree - 1)%Z;
  avl_tree_balance_to_root fuel (set_num num tree) balance_startpoint.

Definition avl_tree_lookup_node (fuel : nat) (tree : AVLTree) (key : value) : M AVLTreeNode ptr :=
  loop fuel (λ node : ptr,
    match node with
    | NULL => mret (inr NULL)
    | Some _ =>
        n ← deref node;
        let diff := compare_func tree key (a_key n) in
        if bool_decide (diff = 0)%Z then mret (inr node)
        else if bool_decide (diff < 0)%Z then mret (inl (a_left n))
        else mret (inl (a_right n))
    end) (root_node tree).

Definition avl_tree_remove (fuel : nat) (tree : AVLTree) (key : value) :
    M AVLTreeNode (Z * AVLTree) :=
  node ← avl_tree_lookup_node fuel tree key;
  match node with
  | NULL => mret (0%Z, tree)
  | Some _ => tree ← avl_tree_remove_node fuel tree node; mret (1%Z, tree)
  end.

Definition avl_tree_lookup (fuel : nat) (tree : AVLTree) (key : value) : M AVLTreeNode value :=
  node ← avl_tree_lookup_node fuel tree key;
  match node with
  | NULL => mret VNULL
  | Some _ => n ← deref node; mret (a_value n)
  end.

Definition avl_tree_root_node (tree : AVLTree) : ptr := root_node tree.

Definition avl_tree_node_key (node : ptr) : M AVLTreeNode value :=
  n ← deref node; mret (a_key n).

Definition avl_tree_node_value (node : ptr) : M AVLTreeNode value :=
  n ← deref node; mret (a_value n).

Definition avl_tree_node_child (node : ptr) (s : side) : M AVLTreeNode ptr :=
  n ← deref node; mret (child s n).

Definition avl_tree_node_parent (node : ptr) : M AVLTreeNode ptr :=
  n ← deref node; mret (a_parent n).

Definition avl_tree_num_entries (tree : AVLTree) : Z := num_nodes tree.

(** The array and [*index] after the call. *)
Fixpoint avl_tree_to_array_add_subtree (fuel : nat) (subtree : ptr) (array : array value)
    (index : Z) : M AVLTreeNode (Memory.array value * Z) :=
  match fuel with
  | O => fail OutOfFuel
  | S fuel =>
      match subtree with
      | NULL => mret (array, index)
      | Some _ =>
          n ← deref subtree;
          '(array, index) ← avl_tree_to_array_add_subtree fuel (a_left n) array index;
          n ← deref subtree;
          array ← aset array index (Some (a_key n));
          index ← chk (index + 1)%Z;
          avl_tree_to_array_add_subtree fuel (a_right n) array index
      end
  end.

(** The array is [None] when it could not be allocated. *)
Definition avl_tree_to_array (fuel : nat) (tree : AVLTree) : M AVLTreeNode (option (array value)) :=
  granted ← malloc_array;
  if negb granted then mret None
  else
    '(array, _) ← avl_tree_to_array_add_subtree fuel (root_node tree)
                    (replicate (Z.to_nat (num_nodes tree)) None) 0%Z;
    mret (Some array).
End avl_tree_c.
