(* ===== verification/AvlSpec.v ===== *)
(** * AvlSpec: the trees that avl-tree.c implements

    Binary trees with the location, key and value of every node; zippers for the
    path from a node to the root; rebalancing, insertion and removal as functions
    on trees; and the facts that make them correct: they keep the in-order
    sequence of the entries up to the inserted or removed one, and they keep the
    balance condition.  No memory is involved here. *)
From stdpp Require Import base list numbers sorting.
From stdpp Require Import ssreflect.
From S2P Require Import Prelude Memory Compare AvlTree.

Inductive tree : Set :=
  | Leaf
  | Node (l : loc) (lt : tree) (k v : value) (rt : tree).

#[global] Instance tree_eq_dec : EqDecision tree.
Proof. solve_decision. Defined.

(** The pointer to a tree. *)
Definition tptr (t : tree) : ptr :=
  match t with
  | Leaf => NULL
  | Node l _ _ _ _ => Some l
  end.

Fixpoint height (t : tree) : Z :=
  match t with
  | Leaf => 0
  | Node _ lt _ _ rt => 1 + Z.max (height lt) (height rt)
  end.

(** The entries in order. *)
Fixpoint elements (t : tree) : list (value * value) :=
  match t with
  | Leaf => []
  | Node _ lt k v rt => elements lt ++ (k, v) :: elements rt
  end.

Fixpoint balanced (t : tree) : Prop :=
  match t with
  | Leaf => True
  | Node _ lt _ _ rt =>
      (-1 ≤ height rt - height lt ≤ 1)%Z ∧ balanced lt ∧ balanced rt
  end.

(** [Node] with the subtree on side [s] first. *)
Definition node (s : side) (l : loc) (a : tree) (k v : value) (b : tree) : tree :=
  match s with
  | AVL_LEFT => Node l a k v b
  | AVL_RIGHT => Node l b k v a
  end.

(** The subtrees of a node seen from a side. *)
Definition subtree (s : side) (t : tree) : tree :=
  match t with
  | Leaf => Leaf
  | Node _ lt _ _ rt => match s with AVL_LEFT => lt | AVL_RIGHT => rt end
  end.

(** A step up: the parent of the current tree, which is its child on the side
    [f_side], and the other child. *)
Record frame := Frame { f_side : side; f_loc : loc; f_key : value; f_value : value; f_other : tree }.

Definition fill (t : tree) (f : frame) : tree :=
  node (f_side f) (f_loc f) t (f_key f) (f_value f) (f_other f).

(** The path to the root, innermost step first. *)
Abbreviation zipper := (list frame).

Fixpoint plug (t : tree) (C : zipper) : tree :=
  match C with
  | [] => t
  | f :: C => plug (fill t f) C
  end.

Lemma plug_app t C D : plug t (C ++ D) = plug (plug t C) D.
Proof. revert t. induction C as [|f C IH]; intros t; simpl; [done|apply IH]. Qed.

(** What comes before and after the hole, in order. *)
Fixpoint before (C : zipper) : list (value * value) :=
  match C with
  | [] => []
  | Frame AVL_LEFT _ _ _ _ :: C => before C
  | Frame AVL_RIGHT _ k v o :: C => before C ++ elements o ++ [(k, v)]
  end.
Fixpoint after (C : zipper) : list (value * value) :=
  match C with
  | [] => []
  | Frame AVL_LEFT _ k v o :: C => (k, v) :: elements o ++ after C
  | Frame AVL_RIGHT _ _ _ _ :: C => after C
  end.

Lemma elements_plug t C : elements (plug t C) = before C ++ elements t ++ after C.
Proof.
  revert t. induction C as [|[[] l k v o] C IH]; intros t; simpl.
  - by rewrite right_id_L.
  - rewrite IH /=. by rewrite -!assoc_L.
  - rewrite IH /=. by rewrite -!assoc_L.
Qed.

(** ** Rebalancing *)

(** A rotation in the direction [d]: the child on the other side takes the place
    of the node. *)
Definition rotate (d : side) (t : tree) : tree :=
  match t with
  | Leaf => Leaf
  | Node l _ k v _ =>
      match subtree (opp d) t with
      | Leaf => t
      | Node nl _ nk nv _ as n =>
          node d nl (node d l (subtree d t) k v (subtree d n)) nk nv (subtree (opp d) n)
      end
  end.

(** The rotation when the side [s] is too high: a double one when its inner
    subtree is the higher one. *)
Definition lean (s : side) (l : loc) (a : tree) (k v : value) (b : tree) : tree :=
  let a := if bool_decide (height (subtree s a) < height (subtree (opp s) a))%Z
           then rotate s a else a in
  rotate (opp s) (node s l a k v b).

Definition balance (t : tree) : tree :=
  match t with
  | Leaf => Leaf
  | Node l lt k v rt =>
      if bool_decide (height rt - height lt >= 2)%Z then lean AVL_RIGHT l rt k v lt
      else if bool_decide (height rt - height lt <= -2)%Z then lean AVL_LEFT l lt k v rt
      else t
  end.

(** Every node on the path is rebalanced, bottom up. *)
Fixpoint rebalance (t : tree) (C : zipper) : tree :=
  match C with
  | [] => t
  | f :: C => rebalance (balance (fill t f)) C
  end.

Lemma elements_rotate d t : elements (rotate d t) = elements t.
Proof.
  destruct t as [|l lt k v rt]; [done|]. destruct d; simpl.
  - destruct rt; simpl; [done|]. by rewrite -assoc_L.
  - destruct lt; simpl; [done|]. by rewrite -assoc_L.
Qed.

Lemma elements_node_rotate s d l a k v b :
  elements (node s l (rotate d a) k v b) = elements (node s l a k v b).
Proof. destruct s; simpl; by rewrite elements_rotate. Qed.

Lemma elements_balance t : elements (balance t) = elements t.
Proof.
  destruct t as [|l lt k v rt]; [done|]. simpl. rewrite /lean.
  repeat case_bool_decide; rewrite ?elements_rotate ?elements_node_rotate //.
Qed.

Lemma elements_rebalance t C : elements (rebalance t C) = elements (plug t C).
Proof.
  revert t. induction C as [|f C IH]; intros t; simpl; [done|].
  rewrite IH !elements_plug elements_balance. done.
Qed.

Lemma height_nonneg t : (0 ≤ height t)%Z.
Proof. induction t; simpl; lia. Qed.

Lemma height_le_size t : (height t ≤ Z.of_nat (length (elements t)))%Z.
Proof. induction t; simpl; rewrite ?length_app /=; lia. Qed.

Lemma balance_node s t o l k v : fill t (Frame s l k v o) = node s l t k v o.
Proof. done. Qed.

(** One step: subtrees whose heights differ by two at most become a balanced
    tree, of the height of the higher one or one more. *)
Lemma balanced_balance l lt k v rt :
  balanced lt → balanced rt → (-2 ≤ height rt - height lt ≤ 2)%Z →
  let t' := balance (Node l lt k v rt) in
  balanced t' ∧ t' ≠ Leaf ∧
  (Z.max (height lt) (height rt) ≤ height t' ≤ 1 + Z.max (height lt) (height rt))%Z ∧
  ((-1 ≤ height rt - height lt ≤ 1)%Z → height t' = 1 + Z.max (height lt) (height rt))%Z.
Proof.
  intros Hl Hr Hd. simpl. case_bool_decide as H1; [|case_bool_decide as H2].
  - rewrite /lean. destruct rt as [|rl rlt rk rv rrt]; simpl in *.
    { pose proof (height_nonneg lt). lia. }
    destruct Hr as (Hr & Hrl & Hrr). case_bool_decide as H3; simpl.
    + destruct rlt as [|cl clt ck cv crt]; simpl in *.
      { pose proof (height_nonneg rrt). lia. }
      destruct Hrl as (Hrl & Hcl & Hcr). split_and!; try done; lia.
    + split_and!; try done; lia.
  - rewrite /lean. destruct lt as [|ll llt lk lv lrt]; simpl in *.
    { pose proof (height_nonneg rt). lia. }
    destruct Hl as (Hl & Hll & Hlr). case_bool_decide as H3; simpl.
    + destruct lrt as [|cl clt ck cv crt]; simpl in *.
      { pose proof (height_nonneg llt). lia. }
      destruct Hlr as (Hlr & Hcl & Hcr). split_and!; try done; lia.
    + split_and!; try done; lia.
  - simpl. split_and!; try done; lia.
Qed.

(** The path of a balanced tree around a subtree of height [n]. *)
Fixpoint balanced_path (n : Z) (C : zipper) : Prop :=
  match C with
  | [] => True
  | f :: C => (-1 ≤ height (f_other f) - n ≤ 1)%Z ∧ balanced (f_other f) ∧
              balanced_path (1 + Z.max n (height (f_other f))) C
  end.

Lemma balanced_plug t C :
  balanced (plug t C) ↔ balanced t ∧ balanced_path (height t) C.
Proof.
  revert t. induction C as [|[[] l k v o] C IH]; intros t; simpl; [tauto| |];
    rewrite IH /=; [|rewrite Z.max_comm]; split; intros Hp; destruct_and!; split_and!; try done; lia.
Qed.

(** Changing the height of a subtree by one at most is repaired on the way up. *)
Lemma balanced_rebalance t C n :
  balanced t → balanced_path n C → (-1 ≤ height t - n ≤ 1)%Z → balanced (rebalance t C).
Proof.
  revert t n. induction C as [|[s l k v o] C IH]; intros t n Ht HC Hn; simpl; [done|].
  destruct HC as (Ho & Hbo & HC). simpl in *.
  destruct s.
  - change (balanced (rebalance (balance (Node l t k v o)) C)).
    destruct (balanced_balance l t k v o) as (Hb & _ & Hr & Heq); [done|done|lia|].
    generalize dependent (balance (Node l t k v o)). intros t' Hb Hr Heq.
    eapply IH; [exact Hb|exact HC|]. lia.
  - change (balanced (rebalance (balance (Node l o k v t)) C)).
    destruct (balanced_balance l o k v t) as (Hb & _ & Hr & Heq); [done|done|lia|].
    generalize dependent (balance (Node l o k v t)). intros t' Hb Hr Heq.
    eapply IH; [exact Hb|exact HC|]. lia.
Qed.

(** ** Searching *)

Section search.
Context (cmp : value → value → Z).

(** The path of [avl_tree_insert]: down to the empty tree where the key goes. *)
Fixpoint descend (key : value) (t : tree) (C : zipper) : zipper :=
  match t with
  | Leaf => C
  | Node l lt k v rt =>
      if bool_decide (cmp key k < 0)%Z
      then descend key lt (Frame AVL_LEFT l k v rt :: C)
      else descend key rt (Frame AVL_RIGHT l k v lt :: C)
  end.

(** The walk of [avl_tree_lookup_node]: the subtree whose root has the key, and
    the path to it. *)
Fixpoint seek (key : value) (t : tree) (C : zipper) : tree * zipper :=
  match t with
  | Leaf => (Leaf, C)
  | Node l lt k v rt =>
      if bool_decide (cmp key k = 0)%Z then (t, C)
      else if bool_decide (cmp key k < 0)%Z
      then seek key lt (Frame AVL_LEFT l k v rt :: C)
      else seek key rt (Frame AVL_RIGHT l k v lt :: C)
  end.

Definition insert_tree (n : loc) (key v : value) (t : tree) : tree :=
  rebalance (Node n Leaf key v Leaf) (descend key t []).

(** The keys are in order. *)
Definition sorted (kvs : list (value * value)) : Prop := StronglySorted (cmp_le cmp) kvs.*1.

Lemma plug_descend key t C : plug Leaf (descend key t C) = plug t C.
Proof.
  revert C. induction t as [|l lt IHl k v rt IHr]; intros C; simpl; [done|].
  case_bool_decide; [by rewrite IHl|by rewrite IHr].
Qed.

Lemma plug_seek key t C : plug (seek key t C).1 (seek key t C).2 = plug t C.
Proof.
  revert C. induction t as [|l lt IHl k v rt IHr]; intros C; simpl; [done|].
  repeat case_bool_decide; [done|by rewrite IHl|by rewrite IHr].
Qed.

Lemma seek_found key t C l lt k v rt C' :
  seek key t C = (Node l lt k v rt, C') → cmp key k = 0%Z.
Proof.
  revert C. induction t as [|l' lt' IHl k' v' rt' IHr]; intros C; simpl; [done|].
  repeat case_bool_decide; [naive_solver|apply IHl|apply IHr].
Qed.

Lemma sorted_mid xs k v ys :
  sorted (xs ++ (k, v) :: ys) →
  (∀ e, e ∈ xs → cmp_le cmp e.1 k) ∧ (∀ e, e ∈ ys → cmp_le cmp k e.1).
Proof.
  rewrite /sorted fmap_app /=. intros Hs. split; intros e He.
  - eapply StronglySorted_app_1_elem_of; [exact Hs|by apply list_elem_of_fmap_2|by left].
  - apply StronglySorted_app_1_r in Hs. inv Hs.
    by eapply Forall_forall in H2; [|by apply list_elem_of_fmap_2].
Qed.

Lemma sorted_remove xs k v ys : sorted (xs ++ (k, v) :: ys) → sorted (xs ++ ys).
Proof.
  rewrite /sorted !fmap_app /=. intros Hs. apply StronglySorted_app in Hs as (Hx & H1 & H2).
  inv H2. apply StronglySorted_app. split_and!; try done. intros x y Hx' Hy. apply Hx; [done|by right].
Qed.

Context `{!CompareFunc cmp}.

Lemma sorted_insert xs k v ys :
  sorted (xs ++ ys) → Forall (λ e, ¬ cmp k e.1 < 0)%Z xs → Forall (λ e, cmp k e.1 < 0)%Z ys →
  sorted (xs ++ (k, v) :: ys).
Proof.
  rewrite /sorted !fmap_app /=. intros (Hx & H1 & H2)%StronglySorted_app Hxs Hys.
  apply StronglySorted_app. split_and!; [|done|].
  - intros x y Hx' [->|Hy]%elem_of_cons; [|by apply Hx].
    apply list_elem_of_fmap in Hx' as (e & -> & He). eapply Forall_forall in Hxs; [|done].
    simpl in Hxs. apply (cmp_flip_le cmp). lia.
  - constructor; [done|]. apply Forall_fmap. eapply Forall_impl; [exact Hys|].
    intros e He. by apply cmp_lt_le.
Qed.

(** The insertion point separates the keys below or equal to the new one from
    the keys above it. *)
Lemma descend_bounds key t C :
  sorted (elements (plug t C)) →
  Forall (λ e, ¬ cmp key e.1 < 0)%Z (before C) → Forall (λ e, cmp key e.1 < 0)%Z (after C) →
  Forall (λ e, ¬ cmp key e.1 < 0)%Z (before (descend key t C)) ∧
  Forall (λ e, cmp key e.1 < 0)%Z (after (descend key t C)).
Proof.
  revert C. induction t as [|l lt IHl k v rt IHr]; intros C Hs Hb Ha; simpl; [done|].
  pose proof Hs as Hm. rewrite elements_plug /= -assoc_L assoc_L in Hm.
  apply sorted_mid in Hm as [Hml Hmr]. case_bool_decide as Hk; [apply IHl|apply IHr]; try done; simpl.
  - constructor; [done|]. apply Forall_app; split; [|done]. apply Forall_forall. intros e He.
    apply (cmp_lt_le_trans cmp _ k); [done|]. apply Hmr, elem_of_app. by left.
  - apply Forall_app; split; [done|]. apply Forall_app; split; [|by constructor].
    apply Forall_forall. intros e He Hlt. apply Hk. eapply (cmp_lt_le_trans cmp); [exact Hlt|].
    apply Hml, elem_of_app. by right.
Qed.

(** A search that fails has passed no equal key. *)
Lemma seek_missing key t C :
  sorted (elements (plug t C)) →
  Forall (λ e, cmp key e.1 ≠ 0)%Z (before C) → Forall (λ e, cmp key e.1 ≠ 0)%Z (after C) →
  (seek key t C).1 = Leaf →
  Forall (λ e, cmp key e.1 ≠ 0)%Z (elements (plug t C)).
Proof.
  revert C. induction t as [|l lt IHl k v rt IHr]; intros C Hs Hb Ha; simpl.
  { intros _. rewrite elements_plug /=. by apply Forall_app. }
  pose proof Hs as Hm. rewrite elements_plug /= -assoc_L assoc_L in Hm.
  apply sorted_mid in Hm as [Hml Hmr]. case_bool_decide as Hz; [done|].
  case_bool_decide as Hk; [apply IHl|apply IHr]; try done; simpl.
  - constructor; [done|]. apply Forall_app; split; [|done]. apply Forall_forall. intros e He.
    enough (cmp key e.1 < 0)%Z by lia.
    apply (cmp_lt_le_trans cmp _ k); [done|]. apply Hmr, elem_of_app. by left.
  - apply Forall_app; split; [done|]. apply Forall_app; split; [|by constructor].
    apply Forall_forall. intros e He Heq. apply cmp_zero_sym in Heq; [|done].
    assert (cmp_le cmp e.1 k) as Hle by (apply Hml, elem_of_app; by right).
    assert (cmp k key < 0)%Z as Hlt.
    { pose proof (cmp_flip_le cmp k key). pose proof (cmp_zero_sym cmp k key). lia. }
    pose proof (cmp_le_lt_trans cmp _ _ _ Hle Hlt). lia.
Qed.

(** Insertion: the new entry comes after the entries with keys below or equal,
    before the others, and the tree stays ordered and balanced. *)
Lemma insert_tree_spec n key v t :
  sorted (elements t) → balanced t →
  ∃ lo hi, elements t = lo ++ hi ∧ elements (insert_tree n key v t) = lo ++ (key, v) :: hi ∧
    Forall (λ e, ¬ cmp key e.1 < 0)%Z lo ∧ Forall (λ e, cmp key e.1 < 0)%Z hi ∧
    sorted (elements (insert_tree n key v t)) ∧ balanced (insert_tree n key v t).
Proof.
  intros Hs Hb. pose proof (plug_descend key t []) as Hp. simpl in Hp.
  destruct (descend_bounds key t []) as [Hlo Hhi]; [done|constructor..|].
  exists (before (descend key t [])), (after (descend key t [])).
  assert (elements t = before (descend key t []) ++ after (descend key t [])) as Ht.
  { by rewrite -{1}Hp elements_plug. }
  rewrite /insert_tree elements_rebalance elements_plug /=. split_and!; try done.
  - apply sorted_insert; [by rewrite -Ht|done|done].
  - rewrite -Hp in Hb. apply balanced_plug in Hb as [_ Hb].
    by eapply balanced_rebalance; [|exact Hb|].
Qed.
End search.

(** ** Removal *)

(** The walk of [avl_tree_node_get_replacement] from the child on the side [s]
    towards the centre: the last node of it and the path to it. *)
Fixpoint innermost (s : side) (t : tree) (D : zipper) : tree * zipper :=
  match t with
  | Leaf => (Leaf, D)
  | Node l lt k v rt =>
      match s with
      | AVL_LEFT =>
          match rt with
          | Leaf => (t, D)
          | Node _ _ _ _ _ => innermost s rt (Frame AVL_RIGHT l k v lt :: D)
          end
      | AVL_RIGHT =>
          match lt with
          | Leaf => (t, D)
          | Node _ _ _ _ _ => innermost s lt (Frame AVL_LEFT l k v rt :: D)
          end
      end
  end.

(** The side that provides the replacement of a node. *)
Definition taller (t : tree) : side :=
  if bool_decide (height (subtree AVL_LEFT t) < height (subtree AVL_RIGHT t))%Z
  then AVL_RIGHT else AVL_LEFT.

(** The tree and the path that remain, before rebalancing, when the root of [t],
    found at the path [C], is removed: its entry is replaced by the adjacent one. *)
Definition detach (t : tree) (C : zipper) : tree * zipper :=
  let s := taller t in
  match innermost s (subtree s t) [] with
  | (Node rl _ rk rv _ as r, D) => (subtree s r, D ++ Frame s rl rk rv (subtree (opp s) t) :: C)
  | (Leaf, _) => (Leaf, C)
  end.

Definition remove_at (t : tree) (C : zipper) : tree :=
  let '(t', C') := detach t C in rebalance t' C'.

Lemma node_subtree s l k v t a b :
  t = Node l a k v b → node s l (subtree s t) k v (subtree (opp s) t) = t.
Proof. intros ->. by destruct s. Qed.

Lemma innermost_spec s t D :
  t ≠ Leaf →
  ∃ rl ra rk rv rb D',
    innermost s t D = (Node rl ra rk rv rb, D' ++ D) ∧
    subtree (opp s) (Node rl ra rk rv rb) = Leaf ∧
    plug (Node rl ra rk rv rb) D' = t ∧ Forall (λ f, f_side f = opp s) D'.
Proof.
  revert D. induction t as [|l lt IHl k v rt IHr]; intros D Ht; [done|clear Ht]. destruct s; simpl.
  - destruct rt as [|l' lt' k' v' rt'].
    { exists l, lt, k, v, Leaf, []. split_and!; try done. }
    destruct (IHr (Frame AVL_RIGHT l k v lt :: D)) as (rl & ra & rk & rv & rb & D' & -> & ? & Hp & Hs); [done|].
    exists rl, ra, rk, rv, rb, (D' ++ [Frame AVL_RIGHT l k v lt]). split_and!; try done.
    + by rewrite -assoc_L.
    + rewrite plug_app Hp. done.
    + apply Forall_app; split; [done|]. by constructor.
  - destruct lt as [|l' lt' k' v' rt'].
    { exists l, Leaf, k, v, rt, []. split_and!; try done. }
    destruct (IHl (Frame AVL_LEFT l k v rt :: D)) as (rl & ra & rk & rv & rb & D' & -> & ? & Hp & Hs); [done|].
    exists rl, ra, rk, rv, rb, (D' ++ [Frame AVL_LEFT l k v rt]). split_and!; try done.
    + by rewrite -assoc_L.
    + rewrite plug_app Hp. done.
    + apply Forall_app; split; [done|]. by constructor.
Qed.

(** A path that always turns to one side has nothing beyond the hole. *)
Lemma after_right D : Forall (λ f, f_side f = AVL_RIGHT) D → after D = [].
Proof. induction 1 as [|[] D Hf _ IH]; simpl in *; [done|by subst]. Qed.
Lemma before_left D : Forall (λ f, f_side f = AVL_LEFT) D → before D = [].
Proof. induction 1 as [|[] D Hf _ IH]; simpl in *; [done|by subst]. Qed.

(** The height of the tree around a hole filled with a tree of height [n]. *)
Definition path_height (n : Z) (D : zipper) : Z :=
  foldl (λ n f, 1 + Z.max n (height (f_other f)))%Z n D.

Lemma height_plug t D : height (plug t D) = path_height (height t) D.
Proof.
  revert t. induction D as [|[[] l k v o] D IH]; intros t; simpl; [done| |];
    rewrite IH /=; [done|by rewrite Z.max_comm].
Qed.

Lemma balanced_path_app n D C :
  balanced_path n (D ++ C) ↔ balanced_path n D ∧ balanced_path (path_height n D) C.
Proof.
  revert n. induction D as [|f D IH]; intros n; simpl; [tauto|]. rewrite IH. tauto.
Qed.

Lemma balanced_node s l a k v b :
  balanced (node s l a k v b) ↔ (-1 ≤ height b - height a ≤ 1)%Z ∧ balanced a ∧ balanced b.
Proof. destruct s; simpl; split; intros H; destruct_and!; split_and!; try done; lia. Qed.

Lemma height_node s l a k v b : height (node s l a k v b) = (1 + Z.max (height a) (height b))%Z.
Proof. destruct s; simpl; lia. Qed.

Lemma detach_spec l lt k v rt C :
  let '(t', C') := detach (Node l lt k v rt) C in
  elements (plug t' C') = before C ++ elements lt ++ elements rt ++ after C ∧
  (balanced (plug (Node l lt k v rt) C) →
   ∃ n, balanced t' ∧ balanced_path n C' ∧ (-1 ≤ height t' - n ≤ 1)%Z).
Proof.
  rewrite /detach. set (t := Node l lt k v rt). set (s := taller t).
  destruct (decide (subtree s t = Leaf)) as [Hleaf|Hne].
  - rewrite Hleaf /=. assert (lt = Leaf ∧ rt = Leaf) as [-> ->].
    { pose proof (height_nonneg lt). pose proof (height_nonneg rt).
      subst s. rewrite /taller in Hleaf. case_bool_decide; simpl in Hleaf; subst; simpl in *; [lia|].
      split; [done|]. destruct rt as [|]; [done|simpl in *].
      pose proof (height_nonneg rt1). pose proof (height_nonneg rt2). lia. }
    split; [by rewrite elements_plug|]. intros [_ Hb]%balanced_plug. exists 1%Z.
    split_and!; try done; simpl; lia.
  - destruct (innermost_spec s (subtree s t) [] Hne)
      as (rl & ra & rk & rv & rb & D & -> & Hopp & Hplug & Hside).
    rewrite right_id_L. set (r := Node rl ra rk rv rb) in *. split.
    + rewrite plug_app /= elements_plug. f_equal.
      rewrite (assoc_L (++) (elements lt)). f_equal.
      assert (elements (subtree s t) =
        match s with
        | AVL_LEFT => elements (plug (subtree s r) D) ++ [(rk, rv)]
        | AVL_RIGHT => (rk, rv) :: elements (plug (subtree s r) D)
        end) as Hel.
      { rewrite -Hplug !elements_plug. destruct s; simpl in *; subst.
        - rewrite (after_right D) // !right_id_L. simpl. by rewrite -assoc_L.
        - by rewrite (before_left D). }
      destruct s; simpl in *; rewrite Hel; simpl; by rewrite -?assoc_L.
    + intros [Hb HC]%balanced_plug.
      pose proof Hb as Hb'. rewrite -(node_subtree s l k v t lt rt) // in Hb', HC.
      apply balanced_node in Hb' as (Hd & Hbs & Hbo). rewrite height_node in HC.
      rewrite -Hplug in Hbs. apply balanced_plug in Hbs as [Hbr HD].
      exists (height r). rewrite -(node_subtree s rl rk rv r ra rb) // in Hbr.
      apply balanced_node in Hbr as (_ & Hbra & _). split; [done|]. split.
      * apply balanced_path_app. split; [done|]. rewrite -height_plug Hplug.
        exact (conj Hd (conj Hbo HC)).
      * pose proof (height_node s rl (subtree s r) rk rv (subtree (opp s) r)) as Hh.
        rewrite (node_subtree s rl rk rv r ra rb) // Hopp in Hh.
        change (height Leaf) with 0%Z in Hh.
        pose proof (height_nonneg (subtree s r)). lia.
Qed.

(** Removal takes exactly the entry of the node out and keeps the order and the
    balance. *)
Lemma remove_at_spec cmp l lt k v rt C :
  let t := plug (Node l lt k v rt) C in
  ∃ lo hi, elements t = lo ++ (k, v) :: hi ∧ elements (remove_at (Node l lt k v rt) C) = lo ++ hi ∧
    (sorted cmp (elements t) → sorted cmp (lo ++ hi)) ∧
    (balanced t → balanced (remove_at (Node l lt k v rt) C)).
Proof.
  intros t. pose proof (detach_spec l lt k v rt C) as Hd. rewrite /remove_at.
  destruct (detach _ C) as [t' C']. destruct Hd as [Hel Hb].
  exists (before C ++ elements lt), (elements rt ++ after C).
  assert (elements t = (before C ++ elements lt) ++ (k, v) :: elements rt ++ after C) as Ht.
  { by rewrite elements_plug /= -!assoc_L. }
  rewrite elements_rebalance Hel Ht. split_and!; [done|by rewrite -!assoc_L| |].
  - apply sorted_remove.
  - intros Hbt. destruct (Hb Hbt) as (n & ? & ? & ?). by eapply balanced_rebalance.
Qed.

(** ** The height of a balanced tree is logarithmic *)
Lemma balanced_height t :
  balanced t → (2 ^ (height t / 2) ≤ Z.of_nat (length (elements t)) + 1)%Z.
Proof.
  induction t as [|l lt IHl k v rt IHr]; intros Hb; [done|].
  destruct Hb as (Hd & Hl & Hr). specialize (IHl Hl). specialize (IHr Hr).
  simpl. rewrite length_app /=.
  pose proof (height_nonneg lt). pose proof (height_nonneg rt).
  set (m := Z.max (height lt) (height rt)).
  assert (2 ^ ((1 + m) / 2) ≤ 2 ^ (m / 2) + 2 ^ ((m - 1) / 2))%Z as Hp.
  { pose proof (Z.div_mod m 2 ltac:(lia)) as Hm. pose proof (Z.mod_pos_bound m 2 ltac:(lia)) as Hmb.
    assert (m mod 2 = 0 ∨ m mod 2 = 1)%Z as [E|E] by lia; rewrite E in Hm.
    - replace ((1 + m) / 2)%Z with (m / 2)%Z; [pose proof (Z.pow_nonneg 2 ((m - 1) / 2)); lia|].
      apply Z.div_unique with 1%Z; lia.
    - replace ((1 + m) / 2)%Z with (1 + m / 2)%Z by (apply Z.div_unique with 0%Z; lia).
      replace ((m - 1) / 2)%Z with (m / 2)%Z by (apply Z.div_unique with 0%Z; lia).
      rewrite Z.pow_add_r; [|lia|apply Z.div_pos; lia]. lia. }
  assert (∀ a, m - 1 ≤ a → 2 ^ ((m - 1) / 2) ≤ 2 ^ (a / 2))%Z as Hmono.
  { intros a Ha. apply Z.pow_le_mono_r; [lia|]. apply Z.div_le_mono; lia. }
  pose proof (Hmono (height lt)). pose proof (Hmono (height rt)).
  destruct (Z.max_spec (height lt) (height rt)) as [[_ Hmax]|[_ Hmax]]; fold m in Hmax;
    rewrite -Hmax in IHl IHr |- *; lia.
Qed.
