(* ===== verification/AvlProofs.v ===== *)
(** * AvlProofs: avl-tree.c implements the trees of AvlSpec

    [atree p t] owns the nodes of a tree whose height fields are right; [path]
    owns the nodes on the way to the root while their height fields are out of
    date.  Each function is shown to do to memory what its counterpart in
    AvlSpec does to trees. *)
From stdpp Require Import base gmap list numbers sorting.
From iris.proofmode Require Import proofmode.
From S2P Require Import Prelude Memory Compare AvlTree AvlSpec.

(** Height fields that are not up to date stay below this bound. *)
Definition BIG : Z := INT_MAX - 2.

(** A node seen from a side: the child on that side first. *)
Definition anode (s : side) (a b p : ptr) (k v : value) (h : Z) : AVLTreeNode :=
  match s with
  | AVL_LEFT => ANode a b p k v h
  | AVL_RIGHT => ANode b a p k v h
  end.

Fixpoint atree (p : ptr) (t : tree) : hProp AVLTreeNode :=
  match t with
  | Leaf => emp
  | Node l lt k v rt =>
      l ↦ ANode (tptr lt) (tptr rt) p k v (height t) ∗ atree (Some l) lt ∗ atree (Some l) rt
  end.

(** The node of a frame, above the node at [hole] and below the one at [p]. *)
Definition fcell (f : frame) (hole p : ptr) (h : Z) : hProp AVLTreeNode :=
  f_loc f ↦ anode (f_side f) hole (tptr (f_other f)) p (f_key f) (f_value f) h ∗
  atree (Some (f_loc f)) (f_other f).

(** The parent of the hole of a path whose outermost parent is [q], and the
    pointer to the whole tree. *)
Definition up (C : zipper) (q : ptr) : ptr :=
  match C with
  | [] => q
  | f :: _ => Some (f_loc f)
  end.
Fixpoint top (hole : ptr) (C : zipper) : ptr :=
  match C with
  | [] => hole
  | f :: C => top (Some (f_loc f)) C
  end.

Fixpoint path (b : Z) (hole : ptr) (C : zipper) (q : ptr) : hProp AVLTreeNode :=
  match C with
  | [] => emp
  | f :: C => (∃ h, ⌈ 0 ≤ h ≤ b ⌉%Z ∗ fcell f hole (up C q) h) ∗ path b (Some (f_loc f)) C q
  end.

(** The same with the right heights, around a tree of height [n]. *)
Fixpoint xpath (n : Z) (hole : ptr) (C : zipper) (q : ptr) : hProp AVLTreeNode :=
  match C with
  | [] => emp
  | f :: C =>
      let m := (1 + Z.max n (height (f_other f)))%Z in
      fcell f hole (up C q) m ∗ xpath m (Some (f_loc f)) C q
  end.

Lemma tptr_node s l a k v b : tptr (node s l a k v b) = Some l.
Proof. by destruct s. Qed.

Lemma atree_node p s l a k v b :
  atree p (node s l a k v b) ⊣⊢
  l ↦ anode s (tptr a) (tptr b) p k v (1 + Z.max (height a) (height b)) ∗
  atree (Some l) a ∗ atree (Some l) b.
Proof.
  destruct s; simpl; [done|]. rewrite (Z.max_comm (height b)).
  by rewrite (comm _ (atree (Some l) b)).
Qed.

Lemma tptr_plug t C : tptr (plug t C) = top (tptr t) C.
Proof. revert t. induction C as [|f C IH]; intros t; simpl; [done|]. by rewrite IH tptr_node. Qed.

Lemma atree_plug t C q :
  atree q (plug t C) ⊣⊢ atree (up C q) t ∗ xpath (height t) (tptr t) C q.
Proof.
  revert t. induction C as [|f C IH]; intros t; simpl; [by rewrite right_id|].
  rewrite IH atree_node tptr_node height_node /fcell. iSplit.
  - iIntros "[($ & $ & $) $]".
  - iIntros "($ & [$ $] & $)".
Qed.

Lemma path_height_ge n C : (n ≤ path_height n C)%Z.
Proof.
  revert n. induction C as [|f C IH]; intros n; simpl; [lia|].
  etrans; [|apply IH]. lia.
Qed.

Lemma xpath_path b n hole C q :
  (0 ≤ n)%Z → (path_height n C ≤ b)%Z → xpath n hole C q ⊢ path b hole C q.
Proof.
  revert n hole. induction C as [|f C IH]; intros n hole Hn Hb; simpl; [done|].
  simpl in Hb. iIntros "[Hf HC]".
  pose proof (path_height_ge (1 + Z.max n (height (f_other f))) C).
  iSplitL "Hf".
  - iExists _. iFrame. iPureIntro. lia.
  - iApply IH; [|done|done]. lia.
Qed.

Lemma up_app C D q : up (C ++ D) q = up C (up D q).
Proof. by destruct C. Qed.

Lemma top_app hole C D : top hole (C ++ D) = top (top hole C) D.
Proof. revert hole. induction C as [|f C IH]; intros hole; simpl; [done|apply IH]. Qed.

Lemma path_mono b b' hole C q : (b ≤ b')%Z → path b hole C q ⊢ path b' hole C q.
Proof.
  intros Hb. revert hole. induction C as [|f C IH]; intros hole; simpl; [done|].
  iIntros "[(%h & %Hh & Hf) HC]". iSplitL "Hf"; [|by iApply IH].
  iExists h. iFrame. iPureIntro. lia.
Qed.

Lemma path_app b hole C D q :
  path b hole (C ++ D) q ⊣⊢ path b hole C (up D q) ∗ path b (top hole C) D q.
Proof.
  revert hole. induction C as [|f C IH]; intros hole; simpl; [by rewrite left_id|].
  rewrite IH up_app. by rewrite assoc.
Qed.

(** *** Reading heights *)

(** [P] owns what it takes to read the height [x] of the node [p]. *)
Definition reads (P : hProp AVLTreeNode) (p : ptr) (x : Z) : Prop :=
  P ⊢ wp (avl_tree_subtree_height p) (λ y, ⌈ y = x ⌉ ∗ P).

Lemma reads_tree p t : reads (atree p t) (tptr t) (height t).
Proof.
  rewrite /reads. iIntros "H". destruct t as [|l lt k v rt]; simpl.
  - wp_pures. by iFrame.
  - iDestruct "H" as "(Hl & H)". wp_load. wp_pures. by iFrame.
Qed.

Lemma reads_cell l n : reads (l ↦ n) (Some l) (a_height n).
Proof. rewrite /reads. iIntros "H". simpl. wp_load. wp_pures. by iFrame. Qed.

Lemma reads_null P : reads P NULL 0.
Proof. rewrite /reads. iIntros "H". simpl. wp_pures. by iFrame. Qed.

Lemma reads_sep_l P Q p x : reads P p x → reads (P ∗ Q) p x.
Proof.
  rewrite /reads. iIntros (HP) "[HP HQ]". iApply (wp_wand with "[HP]"); [by iApply HP|].
  iIntros (y) "[$ $]". done.
Qed.

Lemma reads_sep_r P Q p x : reads Q p x → reads (P ∗ Q) p x.
Proof.
  rewrite /reads. iIntros (HQ) "[HP HQ]". iApply (wp_wand with "[HQ]"); [by iApply HQ|].
  iIntros (y) "[$ $]". done.
Qed.

Lemma wp_reads P p x (Φ : Z → hProp AVLTreeNode) :
  reads P p x → P -∗ (P -∗ Φ x) -∗ wp (avl_tree_subtree_height p) Φ.
Proof.
  iIntros (HP) "HP HΦ". iApply (wp_wand with "[HP]"); [by iApply HP|].
  iIntros (y) "[-> HP]". by iApply "HΦ".
Qed.

Lemma wp_update_height s l a b p k v h P x y (Φ : unit → hProp AVLTreeNode) :
  reads P a x → reads P b y → (0 ≤ x < INT_MAX)%Z → (0 ≤ y < INT_MAX)%Z →
  l ↦ anode s a b p k v h -∗ P -∗
  (l ↦ anode s a b p k v (1 + Z.max x y) -∗ P -∗ Φ tt) -∗
  wp (avl_tree_update_height (Some l)) Φ.
Proof.
  iIntros (Ha Hb ??) "Hl HP HΦ". rewrite /avl_tree_update_height. wp_load.
  assert (∀ z w, (if bool_decide (z > w)%Z then z else w) + 1 = 1 + Z.max z w)%Z as Hmax.
  { intros z w. case_bool_decide; lia. }
  destruct s; simpl.
  - wp_bind. iApply (wp_reads with "HP"); [done|]. iIntros "HP".
    wp_bind. iApply (wp_reads with "HP"); [done|]. iIntros "HP".
    rewrite Hmax. wp_chk. wp_store. iApply ("HΦ" with "Hl HP").
  - wp_bind. iApply (wp_reads with "HP"); [done|]. iIntros "HP".
    wp_bind. iApply (wp_reads with "HP"); [done|]. iIntros "HP".
    rewrite Hmax (Z.max_comm y). wp_chk. wp_store. iApply ("HΦ" with "Hl HP").
Qed.

Lemma wp_relink_tree t p p' (Φ : unit → hProp AVLTreeNode) :
  atree p t -∗ (atree p' t -∗ Φ tt) -∗ wp (relink_parent (tptr t) p') Φ.
Proof.
  iIntros "H HΦ". destruct t as [|l lt k v rt]; simpl.
  - wp_pures. by iApply "HΦ".
  - iDestruct "H" as "(Hl & H)". wp_store. iApply "HΦ". iFrame.
Qed.

(** *** Replacing a node at its parent *)

(** The siblings on a path are small enough for heights to be computed. *)
Definition small (b : Z) (C : zipper) : Prop := Forall (λ f, (height (f_other f) < b)%Z) C.

Lemma tptr_atree_ne p t l n : atree p t -∗ l ↦ n -∗ ⌜tptr t ≠ Some l⌝.
Proof.
  iIntros "H Hl". destruct t as [|l' lt k v rt]; simpl; [done|].
  iDestruct "H" as "(Hl' & _)". iDestruct (pointsto_ne with "Hl' Hl") as %?.
  iPureIntro. congruence.
Qed.

(** The part of [avl_tree_node_replace] after the parent pointer of the new
    node is set. *)
Lemma wp_replace_hook b tr l n1 C new P x (Φ : AVLTree → hProp AVLTreeNode) :
  a_parent n1 = up C NULL → root_node tr = top (Some l) C → small b C →
  reads P new x → (0 ≤ x < b)%Z → (b ≤ BIG)%Z →
  l ↦ n1 -∗ path b (Some l) C NULL -∗ P -∗
  (l ↦ n1 -∗ path b new C NULL -∗ P -∗ Φ (set_root (top new C) tr)) -∗
  wp (n1 ← deref (Some l);
      match a_parent n1 with
      | NULL => mret (set_root new tr)
      | Some _ =>
          side ← avl_tree_node_parent_side (Some l);
          _ ← modify (a_parent n1) (put_child side new);
          n1 ← deref (Some l);
          _ ← avl_tree_update_height (a_parent n1);
          mret tr
      end) Φ.
Proof.
  iIntros (Hp Hroot Hsmall HP Hx HBb) "Hl HC HP HΦ". wp_load. rewrite Hp.
  destruct C as [|[s fl fk fv o] C]; simpl.
  { wp_pures. iApply ("HΦ" with "Hl HC HP"). }
  iDestruct "HC" as "[(%h & %Hh & Hf & Ho) HC]". simpl.
  inversion Hsmall as [|?? Hso HsC]; subst; simpl in *.
  pose proof (height_nonneg o).
  rewrite /avl_tree_node_parent_side. wp_load. rewrite Hp. wp_load.
  iAssert ⌜(if bool_decide (a_left (anode s (Some l) (tptr o) (up C NULL) fk fv h) = Some l)
            then AVL_LEFT else AVL_RIGHT) = s⌝%I as %Hside.
  { destruct s; simpl; [by rewrite bool_decide_eq_true_2|].
    iDestruct (tptr_atree_ne with "Ho Hl") as %?. by rewrite bool_decide_eq_false_2. }
  rewrite Hside. wp_pures. wp_store.
  wp_load. rewrite Hp. wp_bind.
  rewrite (_ : put_child s new _ = anode s new (tptr o) (up C NULL) fk fv h); [|by destruct s].
  iApply (wp_update_height _ _ _ _ _ _ _ _ (P ∗ atree (Some fl) o) x (height o) with "Hf [$HP $Ho]").
  { by apply reads_sep_l. }
  { apply reads_sep_r, reads_tree. }
  { rewrite /BIG in HBb. lia. }
  { rewrite /BIG in HBb. lia. }
  iIntros "Hf [HP Ho]". wp_pures.
  assert (set_root (top (Some fl) C) tr = tr) as -> by (destruct tr; simpl in *; by subst).
  iApply ("HΦ" with "Hl [Hf Ho HC] HP"). iFrame. iPureIntro. lia.
Qed.

(** *** Rotation *)
Lemma wp_rotate tr d l a k v h nl b c nk nv hn C (Φ : ptr * AVLTree → hProp AVLTreeNode) :
  root_node tr = top (Some l) C → small BIG C →
  (0 ≤ h ≤ BIG)%Z → (0 ≤ hn < BIG)%Z →
  (height a < BIG)%Z → (height b < BIG)%Z → (height c < BIG)%Z →
  l ↦ anode d (tptr a) (Some nl) (up C NULL) k v h -∗
  nl ↦ anode d (tptr b) (tptr c) (Some l) nk nv hn -∗
  atree (Some l) a -∗ atree (Some nl) b -∗ atree (Some nl) c -∗ path BIG (Some l) C NULL -∗
  (nl ↦ anode d (Some l) (tptr c) (up C NULL) nk nv (1 + Z.max h (height c)) -∗
   l ↦ anode d (tptr a) (tptr b) (Some nl) k v (1 + Z.max (height a) (height b)) -∗
   atree (Some l) a -∗ atree (Some l) b -∗ atree (Some nl) c -∗ path BIG (Some nl) C NULL -∗
   Φ (Some nl, set_root (top (Some nl) C) tr)) -∗
  wp (avl_tree_rotate tr (Some l) d) Φ.
Proof.
  iIntros (Hroot Hsmall Hh Hhn Hha Hhb Hhc) "Hl Hnl Ha Hb Hc HC HΦ".
  pose proof (height_nonneg a). pose proof (height_nonneg b). pose proof (height_nonneg c).
  rewrite /avl_tree_rotate. wp_load.
  assert (child (opp d) (anode d (tptr a) (Some nl) (up C NULL) k v h) = Some nl) as ->
    by by destruct d.
  rewrite /avl_tree_node_replace. wp_load.
  assert (a_parent (anode d (tptr a) (Some nl) (up C NULL) k v h) = up C NULL) as Hp by by destruct d.
  rewrite Hp. wp_store.
  iApply (wp_replace_hook BIG _ _ _ C _ (nl ↦ _)%I with "Hl HC Hnl");
    [|done|done|apply reads_cell| |done|].
  { by destruct d. }
  { destruct d; simpl; lia. }
  iIntros "Hl HC Hnl". simpl. wp_load. wp_store. wp_store. wp_store. wp_load.
  rewrite (_ : child d _ = tptr b); [|by destruct d].
  rewrite (_ : child (opp d) _ = tptr b); [|by destruct d].
  wp_bind. iApply (wp_relink_tree with "Hb"). iIntros "Hb".
  rewrite (_ : put_child d (Some l) _ = anode d (Some l) (tptr c) (up C NULL) nk nv hn);
    [|by destruct d].
  rewrite (_ : put_parent (Some nl) _ = anode d (tptr a) (tptr b) (Some nl) k v h);
    [|by destruct d].
  wp_bind. iApply (wp_update_height _ _ _ _ _ _ _ _ (l ↦ anode d (tptr a) (tptr b) (Some nl) k v h ∗
    atree (Some nl) c) h (height c) with "Hnl [$Hl $Hc]").
  { apply reads_sep_l. rewrite -{2}(_ : a_height (anode d (tptr a) (tptr b) (Some nl) k v h) = h);
      [apply reads_cell|by destruct d]. }
  { apply reads_sep_r, reads_tree. }
  { rewrite /BIG in Hh. lia. }
  { rewrite /BIG in Hhc. lia. }
  iIntros "Hnl [Hl Hc]". wp_bind.
  iApply (wp_update_height _ _ _ _ _ _ _ _ (atree (Some l) a ∗ atree (Some l) b)
    (height a) (height b) with "Hl [$Ha $Hb]").
  { apply reads_sep_l, reads_tree. }
  { apply reads_sep_r, reads_tree. }
  { rewrite /BIG in Hha. lia. }
  { rewrite /BIG in Hhb. lia. }
  iIntros "Hl [Ha Hb]". wp_pures. iApply ("HΦ" with "Hnl Hl Ha Hb Hc HC").
Qed.

(** *** Balancing a node *)
Lemma atree_subtrees s p t l k v lt rt :
  t = Node l lt k v rt →
  atree p t ⊣⊢
  l ↦ anode s (tptr (subtree s t)) (tptr (subtree (opp s) t)) p k v (height t) ∗
  atree (Some l) (subtree s t) ∗ atree (Some l) (subtree (opp s) t).
Proof.
  intros ->. destruct s; simpl; [done|]. by rewrite (comm _ (atree (Some l) lt)).
Qed.

Lemma anode_opp s a b p k v h : anode (opp s) a b p k v h = anode s b a p k v h.
Proof. by destruct s. Qed.

Lemma opp_opp s : opp (opp s) = s.
Proof. by destruct s. Qed.

Lemma root_set_root p tr : root_node (set_root p tr) = p.
Proof. done. Qed.

(** The two rotations on the side [s], the higher one. *)
Definition avl_tree_lean (tr : AVLTree) (s : side) (high node : ptr) : M AVLTreeNode (ptr * AVLTree) :=
  c ← deref high;
  outer ← avl_tree_subtree_height (child s c);
  inner ← avl_tree_subtree_height (child (opp s) c);
  '(_, tr) ← (if bool_decide (outer < inner)%Z
                then avl_tree_rotate tr high s
                else mret (NULL, tr));
  avl_tree_rotate tr node (opp s).

Lemma wp_lean tr s l a k v b h C (Φ : ptr * AVLTree → hProp AVLTreeNode) :
  root_node tr = top (Some l) C → small BIG C →
  (0 ≤ h ≤ BIG)%Z → (height a < BIG - 1)%Z → (height b < BIG - 1)%Z → a ≠ Leaf →
  l ↦ anode s (tptr a) (tptr b) (up C NULL) k v h -∗
  atree (Some l) a -∗ atree (Some l) b -∗ path BIG (Some l) C NULL -∗
  (∀ nl c d nk nv hn,
     ⌈ lean s l a k v b = node s nl c nk nv d ∧ (height c < BIG)%Z ∧ (height d < BIG)%Z ⌉ -∗
     nl ↦ anode s (tptr c) (tptr d) (up C NULL) nk nv hn -∗
     atree (Some nl) c -∗ atree (Some nl) d -∗ path BIG (Some nl) C NULL -∗
     Φ (Some nl, set_root (top (Some nl) C) tr)) -∗
  wp (avl_tree_lean tr s (tptr a) (Some l)) Φ.
Proof.
  iIntros (Hroot Hsmall Hh Hha Hhb Hne) "Hl Ha Hb HC HΦ".
  destruct a as [|al alt ak av art] eqn:Ea; [done|]. rewrite -Ea in Hha |- *.
  assert (tptr a = Some al) as -> by by rewrite Ea.
  iEval (rewrite (atree_subtrees s _ a al ak av alt art Ea)) in "Ha".
  iDestruct "Ha" as "(Hal & Hout & Hin)". rewrite /avl_tree_lean. wp_load.
  assert (height a = 1 + Z.max (height (subtree s a)) (height (subtree (opp s) a)))%Z as Hh'.
  { rewrite Ea. destruct s; simpl; lia. }
  pose proof (height_nonneg (subtree s a)). pose proof (height_nonneg (subtree (opp s) a)).
  rewrite (_ : child s (anode _ _ _ _ _ _ _) = tptr (subtree s a)); [|by destruct s].
  rewrite (_ : child (opp s) (anode _ _ _ _ _ _ _) = tptr (subtree (opp s) a)); [|by destruct s].
  wp_bind. iApply (wp_reads with "Hout"); [apply reads_tree|]. iIntros "Hout".
  wp_bind. iApply (wp_reads with "Hin"); [apply reads_tree|]. iIntros "Hin".
  case_bool_decide as Hlt; simpl.
  - destruct (subtree (opp s) a) as [|il ilt ik iv irt] eqn:Ei; [simpl in Hlt; lia|].
    rewrite -Ei in Hlt Hh' |- *. set (i := subtree (opp s) a) in *.
    assert (tptr i = Some il) as Hti by by rewrite Ei.
    iEval (rewrite (atree_subtrees s _ i il ik iv ilt irt Ei)) in "Hin".
    iDestruct "Hin" as "(Hil & Hib & Hic)".
    assert (height i = 1 + Z.max (height (subtree s i)) (height (subtree (opp s) i)))%Z as Hhi.
    { rewrite Ei. destruct s; simpl; lia. }
    pose proof (height_nonneg (subtree s i)). pose proof (height_nonneg (subtree (opp s) i)).
    rewrite Hti. wp_bind.
    iApply (wp_rotate tr s al (subtree s a) ak av _ il (subtree s i) (subtree (opp s) i) ik iv
              (height i) (Frame s l k v b :: C) with "Hal Hil Hout Hib Hic [Hl Hb HC]");
      [done|constructor; [simpl; lia|done]|lia..| |].
    { simpl. iFrame. done. }
    simpl. iIntros "Hil Hal Hout Hib Hic [(%h' & %Hh'' & Hl & Hb) HC]". simpl.
    assert (set_root (top (Some l) C) tr = tr) as -> by (destruct tr; simpl in *; by subst).
    assert (lean s l a k v b = node s il (node s al (subtree s a) ak av (subtree s i)) ik iv
              (node (opp s) l b k v (subtree (opp s) i))) as Hlean.
    { rewrite /lean -/i bool_decide_eq_true_2 // Ea. subst i. rewrite Ea in Ei |- *.
      destruct s; simpl in *; by rewrite Ei. }
    clearbody i. clear Ea Ei. wp_pures.
    rewrite -(anode_opp s (tptr b)) -(anode_opp s (tptr (subtree (opp s) i))).
    iAssert (atree (Some il) (node s al (subtree s a) ak av (subtree s i)))
      with "[Hal Hout Hib]" as "Hal"; [rewrite atree_node; by iFrame|].
    rewrite -(tptr_node s al (subtree s a) ak av (subtree s i)).
    iApply (wp_rotate tr (opp s) l b k v h' il (subtree (opp s) i)
      (node s al (subtree s a) ak av (subtree s i)) ik iv
      (1 + Z.max (height a) (height (subtree (opp s) i))) C with "Hl Hil Hb Hic Hal HC");
      [done|done|lia|lia|lia|lia|rewrite height_node; lia|].
    iIntros "Hil Hl Hb Hic Hal HC". rewrite anode_opp.
    iApply ("HΦ" $! il (node s al (subtree s a) ak av (subtree s i))
        (node (opp s) l b k v (subtree (opp s) i)) ik iv with "[] [Hil] Hal [Hl Hb Hic] HC").
    + iPureIntro. rewrite !height_node. split_and!; [done|lia..].
    + rewrite !(tptr_node (opp s)). iExact "Hil".
    + rewrite atree_node. iFrame.
  - wp_pures. rewrite -(anode_opp s (tptr b)) -(anode_opp s (tptr (subtree (opp s) a))).
    iApply (wp_rotate tr (opp s) l b k v h al (subtree (opp s) a) (subtree s a) ak av (height a)
      with "Hl Hal Hb Hin Hout HC"); [assumption..|lia|lia|lia|lia|lia|].
    iIntros "Hal Hl Hb Hin Hout HC". rewrite anode_opp.
    iApply ("HΦ" $! al (subtree s a) (node (opp s) l b k v (subtree (opp s) a)) ak av
      with "[] [Hal] Hout [Hl Hb Hin] HC").
    + iPureIntro. rewrite !height_node. split_and!; [|lia..].
      rewrite /lean bool_decide_eq_false_2 // Ea. by destruct s.
    + rewrite tptr_node. iExact "Hal".
    + rewrite atree_node. iFrame.
Qed.

(** A node whose height field is out of date becomes a tree. *)
Lemma wp_settle s l a k v b p h (Φ : unit → hProp AVLTreeNode) :
  (height a < INT_MAX)%Z → (height b < INT_MAX)%Z →
  l ↦ anode s (tptr a) (tptr b) p k v h -∗ atree (Some l) a -∗ atree (Some l) b -∗
  (atree p (node s l a k v b) -∗ Φ tt) -∗
  wp (avl_tree_update_height (Some l)) Φ.
Proof.
  iIntros (Ha Hb) "Hl Ha Hb HΦ". pose proof (height_nonneg a). pose proof (height_nonneg b).
  iApply (wp_update_height _ _ _ _ _ _ _ _ (atree (Some l) a ∗ atree (Some l) b)
    (height a) (height b) with "Hl [$Ha $Hb]"); [|by apply reads_sep_r, reads_tree|lia|lia|].
  { apply reads_sep_l, reads_tree. }
  iIntros "Hl [Ha Hb]". iApply "HΦ". rewrite atree_node. iFrame.
Qed.

Lemma wp_node_balance tr l lt k v rt h C (Φ : ptr * AVLTree → hProp AVLTreeNode) :
  root_node tr = top (Some l) C → small BIG C → (0 ≤ h ≤ BIG)%Z →
  (height lt < BIG - 1)%Z → (height rt < BIG - 1)%Z →
  l ↦ ANode (tptr lt) (tptr rt) (up C NULL) k v h -∗
  atree (Some l) lt -∗ atree (Some l) rt -∗ path BIG (Some l) C NULL -∗
  (∀ nl, ⌈ tptr (balance (Node l lt k v rt)) = Some nl ⌉ -∗
     atree (up C NULL) (balance (Node l lt k v rt)) -∗ path BIG (Some nl) C NULL -∗
     Φ (Some nl, set_root (top (Some nl) C) tr)) -∗
  wp (avl_tree_node_balance tr (Some l)) Φ.
Proof.
  iIntros (Hroot Hsmall Hh Hl Hr) "Hl Hlt Hrt HC HΦ".
  pose proof (height_nonneg lt). pose proof (height_nonneg rt).
  assert (INT_MAX = BIG + 2)%Z as HB by done. assert (INT_MIN = - BIG - 3)%Z as HB' by done.
  rewrite /avl_tree_node_balance. wp_load.
  wp_bind. iApply (wp_reads with "Hrt"); [apply reads_tree|]. iIntros "Hrt".
  wp_bind. iApply (wp_reads with "Hlt"); [apply reads_tree|]. iIntros "Hlt".
  wp_bind. iApply wp_chk; [lia|]. simpl balance. case_bool_decide as H1.
  - iApply wp_bind. change (wp _ ?Ψ) with (wp (avl_tree_lean tr AVL_RIGHT (tptr rt) (Some l)) Ψ).
    iApply (wp_lean tr AVL_RIGHT l rt k v lt h C with "Hl Hrt Hlt HC"); try lia; try done.
    { intros ->. simpl in H1. lia. }
    iIntros (nl c d nk nv hn) "%Hn Hnl Hc Hd HC". destruct Hn as (-> & Hc & Hd). wp_bind.
    iApply (wp_settle with "Hnl Hc Hd"); [lia..|]. iIntros "Ht". wp_pures.
    iApply ("HΦ" with "[] Ht HC"). done.
  - case_bool_decide as H2.
    + iApply wp_bind. change (wp _ ?Ψ) with (wp (avl_tree_lean tr AVL_LEFT (tptr lt) (Some l)) Ψ).
      iApply (wp_lean tr AVL_LEFT l lt k v rt h C with "Hl Hlt Hrt HC"); try lia; try done.
      { intros ->. simpl in H2. lia. }
      iIntros (nl c d nk nv hn) "%Hn Hnl Hc Hd HC". destruct Hn as (-> & Hc & Hd). wp_bind.
      iApply (wp_settle with "Hnl Hc Hd"); [lia..|]. iIntros "Ht". wp_pures.
      iApply ("HΦ" with "[] Ht HC"). done.
    + wp_pures. iApply (wp_settle AVL_LEFT with "Hl Hlt Hrt"); [lia..|].
      iIntros "Ht". wp_pures. iSpecialize ("HΦ" $! l with "[] Ht HC"); [done|].
      rewrite -Hroot. by destruct tr.
Qed.

(** *** Up to the root *)

(** The number of entries bounds all heights. *)
Definition size (t : tree) : Z := Z.of_nat (length (elements t)).

Lemma size_node s l a k v b : size (node s l a k v b) = (1 + size a + size b)%Z.
Proof. destruct s; rewrite /size /= length_app /=; lia. Qed.

Lemma size_fill t f : size (fill t f) = (1 + size t + size (f_other f))%Z.
Proof. apply size_node. Qed.

Lemma height_size t : (height t ≤ size t)%Z.
Proof. apply height_le_size. Qed.

Lemma size_nonneg t : (0 ≤ size t)%Z.
Proof. rewrite /size. lia. Qed.

Lemma size_plug t C : (size t ≤ size (plug t C))%Z.
Proof. rewrite /size elements_plug !length_app. lia. Qed.

Lemma small_plug b t C : (size (plug t C) < b)%Z → small b C.
Proof.
  revert t. induction C as [|f C IH]; intros t Hs; simpl in *; [constructor|].
  constructor; [|by eapply IH]. pose proof (height_size (f_other f)).
  pose proof (size_plug (fill t f) C). pose proof (size_fill t f). pose proof (size_nonneg t). lia.
Qed.

Lemma size_balance t C : size (plug (balance t) C) = size (plug t C).
Proof. by rewrite /size !elements_plug elements_balance. Qed.

Lemma wp_balance_to_root fuel tr t C (Φ : AVLTree → hProp AVLTreeNode) :
  (length C < fuel) → root_node tr = top (tptr t) C → (size (plug t C) < BIG - 1)%Z →
  atree (up C NULL) t -∗ path BIG (tptr t) C NULL -∗
  (atree NULL (rebalance t C) -∗ Φ (set_root (tptr (rebalance t C)) tr)) -∗
  wp (avl_tree_balance_to_root fuel tr (up C NULL)) Φ.
Proof.
  iIntros (Hfuel Hroot Hsize) "Ht HC HΦ". rewrite /avl_tree_balance_to_root.
  iInduction C as [|[s l k v o] C] "IH" forall (fuel t tr Hfuel Hroot Hsize);
    (destruct fuel as [|fuel]; [simpl in Hfuel; lia|]); simpl.
  { wp_pures. iSpecialize ("HΦ" with "Ht"). simpl in Hroot. rewrite -Hroot. by destruct tr. }
  iDestruct "HC" as "[(%h & %Hh & Hl & Ho) HC]". simpl in *.
  pose proof (small_plug BIG t (Frame s l k v o :: C) ltac:(simpl; lia)) as Hsmall.
  inversion Hsmall as [|?? _ HsC]; subst.
  pose proof (size_plug (fill t (Frame s l k v o)) C) as Hp. rewrite size_fill /= in Hp.
  pose proof (height_size t). pose proof (height_size o).
  pose proof (size_nonneg t). pose proof (size_nonneg o).
  iApply wp_bind. iApply wp_bind.
  iAssert (∃ lt rt, ⌈ fill t (Frame s l k v o) = Node l lt k v rt ∧
      (height lt < BIG - 1)%Z ∧ (height rt < BIG - 1)%Z ⌉ ∗
    l ↦ ANode (tptr lt) (tptr rt) (up C NULL) k v h ∗
    atree (Some l) lt ∗ atree (Some l) rt)%I with "[Hl Ht Ho]" as (lt rt) "(%Hn & Hl & Hlt & Hrt)".
  { destruct s.
    - iExists t, o. iFrame. iPureIntro. split_and!; [done|lia..].
    - iExists o, t. iFrame. iPureIntro. split_and!; [done|lia..]. }
  destruct Hn as (Hn & Hlt & Hrt). rewrite Hn in Hsize |- *. 
  iApply (wp_node_balance with "Hl Hlt Hrt HC"); [done..|].
  iIntros (nl) "%Hnl Ht HC". rewrite -(size_balance (Node l lt k v rt) C) in Hsize.
  generalize dependent (balance (Node l lt k v rt)). intros t' Hsize Hnl.
  destruct t' as [|nl' nlt nk nv nrt]; simplify_eq/=.
  iDestruct "Ht" as "(Hnl & Ht)". wp_load. wp_pures.
  iApply ("IH" $! fuel (Node nl nlt nk nv nrt) with "[] [] [] [Hnl Ht] HC [HΦ]"); simpl;
    [iPureIntro; lia|done|done|iFrame|done].
Qed.

(** *** Walks down the tree *)

(** [fuel_case fuel]: the fuel exceeds the height of a tree, so it is positive. *)
Ltac fuel_case fuel :=
  match goal with
  | H : (height ?t < Z.of_nat fuel)%Z |- _ =>
      pose proof (height_nonneg t); destruct fuel as [|fuel]; [lia|]; simpl in H
  end.

(** The place of the link to the hole of a path. *)
Definition hole_slot (C : zipper) : aslot :=
  match C with
  | [] => ARoot
  | f :: _ => AChild (f_loc f) (f_side f)
  end.

Lemma child_anode s a b p k v h : child s (anode s a b p k v h) = a.
Proof. by destruct s. Qed.

Lemma child_anode_opp s a b p k v h : child (opp s) (anode s a b p k v h) = b.
Proof. by destruct s. Qed.

Lemma put_child_anode s a' a b p k v h : put_child s a' (anode s a b p k v h) = anode s a' b p k v h.
Proof. by destruct s. Qed.

Lemma wp_read_hole tr n hole C (Φ : ptr → hProp AVLTreeNode) :
  root_node tr = top hole C →
  xpath n hole C NULL -∗ (xpath n hole C NULL -∗ Φ hole) -∗ wp (read_aslot tr (hole_slot C)) Φ.
Proof.
  iIntros (Hroot) "HC HΦ". destruct C as [|f C]; simpl in *.
  - wp_pures. rewrite Hroot. by iApply "HΦ".
  - iDestruct "HC" as "[[Hf Ho] HC]". wp_load. rewrite child_anode. wp_pures.
    iApply "HΦ". iFrame.
Qed.

Lemma wp_write_hole b tr hole new C (Φ : AVLTree → hProp AVLTreeNode) :
  root_node tr = top hole C →
  path b hole C NULL -∗ (path b new C NULL -∗ Φ (set_root (top new C) tr)) -∗
  wp (write_aslot tr (hole_slot C) new) Φ.
Proof.
  iIntros (Hroot) "HC HΦ". destruct C as [|f C]; simpl in *.
  - wp_pures. by iApply "HΦ".
  - iDestruct "HC" as "[(%h & %Hh & Hf & Ho) HC]". simpl. wp_store. wp_pures.
    assert (set_root (top (Some (f_loc f)) C) tr = tr) as -> by (destruct tr; simpl in *; by subst).
    rewrite put_child_anode. iApply "HΦ". iFrame. done.
Qed.

(** Moving the hole to a child. *)
Lemma xpath_down s l a k v b C :
  atree (up C NULL) (node s l a k v b) -∗ xpath (height (node s l a k v b)) (Some l) C NULL -∗
  atree (Some l) a ∗ xpath (height a) (tptr a) (Frame s l k v b :: C) NULL.
Proof.
  iIntros "Ht HC". iEval (rewrite atree_node) in "Ht". iDestruct "Ht" as "(Hl & $ & Hb)".
  simpl. rewrite height_node. iFrame.
Qed.

Lemma wp_insert_walk fuel tr key t C (Φ : aslot * ptr → hProp AVLTreeNode) :
  (height t < Z.of_nat fuel)%Z → root_node tr = top (tptr t) C →
  atree (up C NULL) t -∗ xpath (height t) (tptr t) C NULL -∗
  (xpath 0 NULL (descend (compare_func tr) key t C) NULL -∗
   Φ (hole_slot (descend (compare_func tr) key t C), up (descend (compare_func tr) key t C) NULL)) -∗
  wp (avl_tree_insert_walk fuel tr key (hole_slot C, up C NULL)) Φ.
Proof.
  iIntros (Hfuel Hroot) "Ht HC HΦ". rewrite /avl_tree_insert_walk.
  iInduction t as [|l lt IHl k v rt IHr] forall (fuel C Hfuel Hroot);
    fuel_case fuel; wp_loop; iApply (wp_read_hole with "HC"); try done; iIntros "HC"; simpl.
  - wp_pures. by iApply "HΦ".
  - pose proof (height_nonneg lt). simpl in Hfuel.
    iDestruct "Ht" as "(Hl & Hlt & Hrt)". wp_load.
    iCombine "Hl Hlt Hrt" as "Ht". case_bool_decide as Hk; wp_pures.
    + iDestruct (xpath_down AVL_LEFT l lt k v rt C with "Ht HC") as "[Ht HC]".
      iApply ("IHl" $! fuel (Frame AVL_LEFT l k v rt :: C) with "[] [] Ht HC HΦ"); [iPureIntro; lia|done].
    + iDestruct (xpath_down AVL_RIGHT l rt k v lt C with "Ht HC") as "[Ht HC]".
      iApply ("IHr" $! fuel (Frame AVL_RIGHT l k v lt :: C) with "[] [] Ht HC HΦ"); [iPureIntro; lia|done].
Qed.

Lemma length_descend cmp key t C :
  (Z.of_nat (length (descend cmp key t C)) ≤ Z.of_nat (length C) + height t)%Z.
Proof.
  revert C. induction t as [|l lt IHl k v rt IHr]; intros C; simpl; [lia|].
  case_bool_decide.
  - specialize (IHl (Frame AVL_LEFT l k v rt :: C)). simpl in IHl. lia.
  - specialize (IHr (Frame AVL_RIGHT l k v lt :: C)). simpl in IHr. lia.
Qed.

(** An iteration bound logarithmic in the number of entries. *)
Definition avl_depth (n : nat) : nat := 2 * Nat.log2 (n + 1) + 2.

Lemma avl_depth_height t : balanced t → (height t < Z.of_nat (avl_depth (length (elements t))))%Z.
Proof.
  intros Hb%balanced_height. pose proof (height_nonneg t).
  set (n := length (elements t)) in *. rewrite /avl_depth.
  assert (height t / 2 ≤ Z.of_nat (Nat.log2 (n + 1)))%Z as Hl.
  { apply Z2Nat.inj_le; [apply Z.div_pos; lia|lia|]. rewrite Nat2Z.id.
    apply Nat.log2_le_pow2; [lia|]. apply Nat2Z.inj_le.
    rewrite Nat2Z.inj_pow Z2Nat.id; [lia|apply Z.div_pos; lia]. }
  pose proof (Z.div_mod (height t) 2 ltac:(lia)). pose proof (Z.mod_pos_bound (height t) 2 ltac:(lia)).
  lia.
Qed.

(** *** Searching *)
Lemma wp_lookup_node fuel tr key t C (Φ : ptr → hProp AVLTreeNode) :
  (height t < Z.of_nat fuel)%Z →
  atree (up C NULL) t -∗ xpath (height t) (tptr t) C NULL -∗
  (let '(r, D) := seek (compare_func tr) key t C in
   atree (up D NULL) r -∗ xpath (height r) (tptr r) D NULL -∗ Φ (tptr r)) -∗
  wp (loop fuel (λ node : ptr,
    match node with
    | NULL => mret (inr NULL)
    | Some _ =>
        n ← deref node;
        let diff := compare_func tr key (a_key n) in
        if bool_decide (diff = 0)%Z then mret (inr node)
        else if bool_decide (diff < 0)%Z then mret (inl (a_left n))
        else mret (inl (a_right n))
    end) (tptr t)) Φ.
Proof.
  iIntros (Hfuel) "Ht HC HΦ".
  iInduction t as [|l lt IHl k v rt IHr] forall (fuel C Hfuel); fuel_case fuel; wp_loop.
  - wp_pures. iApply ("HΦ" with "Ht HC").
  - pose proof (height_nonneg lt). iDestruct "Ht" as "(Hl & Hlt & Hrt)". wp_load.
    iCombine "Hl Hlt Hrt" as "Ht". case_bool_decide as Hz; [|case_bool_decide as Hk]; wp_pures.
    + iApply ("HΦ" with "Ht HC").
    + iDestruct (xpath_down AVL_LEFT l lt k v rt C with "Ht HC") as "[Ht HC]".
      iApply ("IHl" $! fuel (Frame AVL_LEFT l k v rt :: C) with "[] Ht HC HΦ"). iPureIntro; lia.
    + iDestruct (xpath_down AVL_RIGHT l rt k v lt C with "Ht HC") as "[Ht HC]".
      iApply ("IHr" $! fuel (Frame AVL_RIGHT l k v lt :: C) with "[] Ht HC HΦ"). iPureIntro; lia.
Qed.

(** *** Removing a node *)
Lemma wp_replace_tree b tr l n1 C q t (Φ : AVLTree → hProp AVLTreeNode) :
  a_parent n1 = up C NULL → root_node tr = top (Some l) C → small b C →
  (height t < b)%Z → (b ≤ BIG)%Z →
  l ↦ n1 -∗ path b (Some l) C NULL -∗ atree q t -∗
  (l ↦ n1 -∗ path b (tptr t) C NULL -∗ atree (up C NULL) t -∗ Φ (set_root (top (tptr t) C) tr)) -∗
  wp (avl_tree_node_replace tr (Some l) (tptr t)) Φ.
Proof.
  iIntros (Hp Hroot Hsmall Ht Hb) "Hl HC Ht HΦ". pose proof (height_nonneg t).
  rewrite /avl_tree_node_replace. wp_load. wp_bind. rewrite Hp.
  iApply (wp_relink_tree with "Ht"). iIntros "Ht".
  iApply (wp_replace_hook b _ _ _ C _ (atree (up C NULL) t) with "Hl HC Ht HΦ");
    [done|done|done|apply reads_tree|lia|done].
Qed.

Lemma wp_replace_cell b tr l n1 C r m (Φ : AVLTree → hProp AVLTreeNode) :
  a_parent n1 = up C NULL → root_node tr = top (Some l) C → small b C →
  (0 ≤ a_height m < b)%Z → (b ≤ BIG)%Z →
  l ↦ n1 -∗ path b (Some l) C NULL -∗ r ↦ m -∗
  (l ↦ n1 -∗ path b (Some r) C NULL -∗ r ↦ put_parent (up C NULL) m -∗
   Φ (set_root (top (Some r) C) tr)) -∗
  wp (avl_tree_node_replace tr (Some l) (Some r)) Φ.
Proof.
  iIntros (Hp Hroot Hsmall Hm Hb) "Hl HC Hr HΦ".
  rewrite /avl_tree_node_replace. wp_load. rewrite Hp. wp_store.
  iApply (wp_replace_hook b _ _ _ C _ (r ↦ put_parent (up C NULL) m) with "Hl HC Hr HΦ");
    [done|done|done|apply (reads_cell r (put_parent (up C NULL) m))|done|done].
Qed.

(** The parent of the hole computes its height again. *)
Lemma wp_update_hole b f C t (Φ : unit → hProp AVLTreeNode) :
  small b (f :: C) → (height t < b)%Z → (b ≤ BIG)%Z →
  path b (tptr t) (f :: C) NULL -∗ atree (up (f :: C) NULL) t -∗
  (path b (tptr t) (f :: C) NULL -∗ atree (up (f :: C) NULL) t -∗ Φ tt) -∗
  wp (avl_tree_update_height (up (f :: C) NULL)) Φ.
Proof.
  iIntros (Hsmall Ht Hb) "HC Ht HΦ". inversion Hsmall as [|?? Hf HsC]; subst.
  pose proof (height_nonneg t). pose proof (height_nonneg (f_other f)).
  assert (INT_MAX = BIG + 2)%Z as HB by done.
  simpl. iDestruct "HC" as "[(%h & %Hh & Hf & Ho) HC]".
  iApply (wp_update_height _ _ _ _ _ _ _ _ (atree (Some (f_loc f)) t ∗ atree (Some (f_loc f)) (f_other f))
    (height t) (height (f_other f)) with "Hf [$Ht $Ho]"); [|by apply reads_sep_r, reads_tree|lia|lia|].
  { apply reads_sep_l, reads_tree. }
  iIntros "Hf [Ht Ho]". iApply ("HΦ" with "[Hf Ho HC] Ht"). iFrame. iPureIntro. lia.
Qed.

Lemma put_parent_anode s a b p p' k v h : put_parent p' (anode s a b p k v h) = anode s a b p' k v h.
Proof. by destruct s. Qed.

(** The outermost node of a path gets another parent. *)
Lemma wp_relink_path b t D q q' (Φ : unit → hProp AVLTreeNode) :
  atree (up D q) t -∗ path b (tptr t) D q -∗
  (atree (up D q') t ∗ path b (tptr t) D q' -∗ Φ tt) -∗
  wp (relink_parent (top (tptr t) D) q') Φ.
Proof.
  iIntros "Ht HD HΦ". destruct D as [|f D _] using rev_ind; simpl.
  - iApply (wp_relink_tree with "Ht"). iIntros "Ht". iApply "HΦ". by iFrame.
  - iEval (rewrite path_app /=) in "HD". iDestruct "HD" as "(HD & (%h & %Hh & Hf & Ho) & _)".
    rewrite top_app /=. wp_store. rewrite put_parent_anode. iApply "HΦ".
    rewrite path_app !up_app /=. iFrame. done.
Qed.

(** Both rounds of the loop of [avl_tree_remove_node]. *)
Lemma wp_copy_children {A} s l r n m (P Q : hProp AVLTreeNode) (K : M AVLTreeNode A) Φ :
  l ↦ n -∗ r ↦ m -∗
  wp (relink_parent (child s n) (Some r)) (λ _, P) -∗
  wp (relink_parent (child (opp s) n) (Some r)) (λ _, Q) -∗
  (l ↦ n -∗ r ↦ ANode (a_left n) (a_right n) (a_parent m) (a_key m) (a_value m) (a_height m) -∗
   P -∗ Q -∗ wp K Φ) -∗
  wp (_ ← avl_tree_copy_child (Some l) (Some r) AVL_LEFT;
      _ ← avl_tree_copy_child (Some l) (Some r) AVL_RIGHT; K) Φ.
Proof.
  iIntros "Hl Hr HP HQ HK". rewrite /avl_tree_copy_child. wp_load. wp_store. wp_load.
  destruct s; simpl.
  - wp_bind. iApply (wp_wand with "HP"). iIntros ([]) "HP". wp_load. wp_store. wp_load.
    wp_bind. iApply (wp_wand with "HQ"). iIntros ([]) "HQ".
    iApply ("HK" with "Hl Hr HP HQ").
  - wp_bind. iApply (wp_wand with "HQ"). iIntros ([]) "HQ". wp_load. wp_store. wp_load.
    wp_bind. iApply (wp_wand with "HP"). iIntros ([]) "HP".
    iApply ("HK" with "Hl Hr HP HQ").
Qed.

Lemma path_down m s l a k v b C :
  (height (node s l a k v b) ≤ m)%Z →
  atree (up C NULL) (node s l a k v b) -∗ path m (Some l) C NULL -∗
  atree (Some l) a ∗ path m (tptr a) (Frame s l k v b :: C) NULL.
Proof.
  iIntros (Hm) "Ht HC". rewrite height_node in Hm. iEval (rewrite atree_node) in "Ht".
  iDestruct "Ht" as "(Hl & $ & Hb)". pose proof (height_nonneg a). pose proof (height_nonneg b).
  simpl. iFrame. iPureIntro. lia.
Qed.

Lemma tptr_Some t : t ≠ Leaf → ∃ p, tptr t = Some p.
Proof. destruct t; [done|]. intros _. by eexists. Qed.

Lemma innermost_left_step l lt k v rt D :
  rt ≠ Leaf →
  innermost AVL_LEFT (Node l lt k v rt) D = innermost AVL_LEFT rt (Frame AVL_RIGHT l k v lt :: D).
Proof. by destruct rt. Qed.

Lemma innermost_right_step l lt k v rt D :
  lt ≠ Leaf →
  innermost AVL_RIGHT (Node l lt k v rt) D = innermost AVL_RIGHT lt (Frame AVL_LEFT l k v rt :: D).
Proof. by destruct lt. Qed.

Lemma wp_innermost m fuel s t D E (Φ : ptr → hProp AVLTreeNode) :
  t ≠ Leaf → (height t < Z.of_nat fuel)%Z → (height t ≤ m)%Z →
  atree (up (D ++ E) NULL) t -∗ path m (tptr t) (D ++ E) NULL -∗
  (let '(r, D') := innermost s t D in
   atree (up (D' ++ E) NULL) r -∗ path m (tptr r) (D' ++ E) NULL -∗ Φ (tptr r)) -∗
  wp (avl_tree_innermost fuel s (tptr t)) Φ.
Proof.
  iIntros (Ht Hfuel Hm) "Ht HC HΦ". rewrite /avl_tree_innermost.
  iInduction t as [|l lt IHl k v rt IHr] forall (fuel D Ht Hfuel Hm); [done|fuel_case fuel].
  simpl in Hm. pose proof (height_nonneg lt). pose proof (height_nonneg rt).
  remember (innermost s (Node l lt k v rt) D) as res eqn:Hres.
  wp_loop. iDestruct "Ht" as "(Hl & Ht)". wp_load. iCombine "Hl Ht" as "Ht".
  destruct s; simpl.
  - destruct (decide (rt = Leaf)) as [->|Hne]; [wp_pures; subst res; iApply ("HΦ" with "Ht HC")|].
    destruct (tptr_Some rt Hne) as [p Hp]. rewrite Hp. wp_pures. rewrite -Hp.
    rewrite (innermost_left_step _ _ _ _ _ _ Hne) in Hres. subst res.
    iDestruct (path_down m AVL_RIGHT l rt k v lt with "Ht HC") as "[Ht HC]"; [rewrite height_node; lia|].
    iApply ("IHr" $! fuel (Frame AVL_RIGHT l k v lt :: D) with "[] [] [] Ht HC HΦ");
      iPureIntro; [done|lia|lia].
  - destruct (decide (lt = Leaf)) as [->|Hne]; [wp_pures; subst res; iApply ("HΦ" with "Ht HC")|].
    destruct (tptr_Some lt Hne) as [p Hp]. rewrite Hp. wp_pures. rewrite -Hp.
    rewrite (innermost_right_step _ _ _ _ _ _ Hne) in Hres. subst res.
    iDestruct (path_down m AVL_LEFT l lt k v rt with "Ht HC") as "[Ht HC]"; [rewrite height_node; lia|].
    iApply ("IHl" $! fuel (Frame AVL_LEFT l k v rt :: D) with "[] [] [] Ht HC HΦ");
      iPureIntro; [done|lia|lia].
Qed.

Lemma match_ptrs {A} (p q : ptr) (x y : A) :
  p ≠ NULL ∨ q ≠ NULL → match p, q with NULL, NULL => x | _, _ => y end = y.
Proof. destruct p, q; [done..|]. by intros [[]|[]]. Qed.

Lemma top_cons hole hole' D f C : top hole (D ++ f :: C) = top hole' (D ++ f :: C).
Proof. by rewrite !top_app. Qed.

Lemma set_root_id p tr : root_node tr = p → set_root p tr = tr.
Proof. intros <-. by destruct tr. Qed.

Lemma path_cons_app D (f : frame) C : ∃ f' C', D ++ f :: C = f' :: C'.
Proof. destruct D; simpl; eauto. Qed.

(** The bounds on a tree in its context that the removal of a node relies on. *)
Definition bounded (m : Z) (tr : AVLTree) (t : tree) (C : zipper) : Prop :=
  root_node tr = top (tptr t) C ∧ (size (plug t C) < m)%Z ∧ (m ≤ BIG)%Z.

Lemma wp_get_replacement m fuel tr t l lt k v rt C (Φ : ptr * AVLTree → hProp AVLTreeNode) :
  let s := taller t in let F := Frame s l k v (subtree (opp s) t) in
  t = Node l lt k v rt → subtree s t ≠ Leaf → bounded m tr t C → (height t < Z.of_nat fuel)%Z →
  atree (up C NULL) t -∗ path m (Some l) C NULL -∗
  (∀ rl ra rk rv rb D,
     ⌈ innermost s (subtree s t) [] = (Node rl ra rk rv rb, D) ∧
       plug (Node rl ra rk rv rb) (D ++ F :: C) = plug t C ⌉ -∗
     rl ↦ anode s (tptr (subtree s (Node rl ra rk rv rb))) NULL (up (D ++ F :: C) NULL) rk rv
            (height (Node rl ra rk rv rb)) -∗
     path m (tptr (subtree s (Node rl ra rk rv rb))) (D ++ F :: C) NULL -∗
     atree (up (D ++ F :: C) NULL) (subtree s (Node rl ra rk rv rb)) -∗ Φ (Some rl, tr)) -∗
  wp (avl_tree_node_get_replacement fuel tr (Some l)) Φ.
Proof.
  iIntros (s F Htn Hne (Hroot & Hsize & Hm) Hfuel) "Ht HC HΦ".
  pose proof (height_size t) as Hhs. pose proof (size_plug t C) as Hsp.
  assert (node s l (subtree s t) k v (subtree (opp s) t) = t) as Hnode by by eapply node_subtree.
  rewrite /avl_tree_node_get_replacement.
  iEval (rewrite (atree_subtrees AVL_LEFT _ t l k v lt rt Htn)) in "Ht".
  iDestruct "Ht" as "(Hl & Hlt & Hrt)". wp_load. rewrite match_ptrs; last first.
  { destruct s; apply tptr_Some in Hne as [p Hp]; [left|right]; by rewrite Hp. }
  wp_bind. iApply (wp_reads with "Hlt"); [apply reads_tree|]. iIntros "Hlt".
  wp_bind. iApply (wp_reads with "Hrt"); [apply reads_tree|]. iIntros "Hrt".
  wp_load.
  iAssert (atree (up C NULL) (node s l (subtree s t) k v (subtree (opp s) t)))
    with "[Hl Hlt Hrt]" as "Ht".
  { rewrite Hnode (atree_subtrees AVL_LEFT _ t l k v lt rt Htn). iFrame. }
  iDestruct (path_down m with "Ht HC") as "[Ht HC]"; [rewrite Hnode; lia|].
  change (if bool_decide (height (subtree AVL_LEFT t) < height (subtree AVL_RIGHT t))%Z
          then AVL_RIGHT else AVL_LEFT) with (taller t). fold s F.
  rewrite (_ : child s _ = tptr (subtree s t)); [|by destruct s].
  wp_bind. assert (height (subtree s t) < height t)%Z as Hlower.
  { rewrite -{2}Hnode height_node. lia. }
  destruct (innermost_spec s (subtree s t) [] Hne)
    as (rl & ra & rk & rv & rb & D & Hin & Hopp & Hplug & _).
  iApply (wp_innermost m fuel s (subtree s t) [] (F :: C) with "Ht HC"); [done|lia|lia|].
  rewrite Hin right_id_L. set (r := Node rl ra rk rv rb) in *. iIntros "Ht HC".
  assert (plug r (D ++ F :: C) = plug t C) as Hplug'.
  { rewrite plug_app Hplug /= /fill /=. by rewrite Hnode. }
  rewrite -Hplug' in Hsize. pose proof (small_plug _ _ _ Hsize) as Hsmall.
  pose proof (height_size t). pose proof (height_nonneg (subtree s r)).
  iEval (rewrite (atree_subtrees s _ r rl rk rv ra rb eq_refl) Hopp) in "Ht".
  iDestruct "Ht" as "(Hr & Ht & _)". change (tptr r) with (Some rl). wp_load.
  rewrite child_anode.
  assert (root_node tr = top (Some rl) (D ++ F :: C)) as Hroot'.
  { rewrite Hroot Htn (top_app _ D) /=. done. }
  assert (height (subtree s r) < m)%Z as Hhr.
  { pose proof (size_plug r (D ++ F :: C)). pose proof (height_size r).
    enough (height (subtree s r) < height r)%Z by lia.
    pose proof (height_node s rl (subtree s r) rk rv (subtree (opp s) r)) as Hh.
    rewrite (node_subtree s rl rk rv r ra rb eq_refl) in Hh. lia. }
  wp_bind. iApply (wp_replace_tree m with "Hr HC Ht"); [by destruct s|done..|].
  iIntros "Hr HC Ht". rewrite set_root_id; [|rewrite Hroot'; apply top_cons].
  wp_load. wp_bind. destruct (path_cons_app D F C) as (f' & C' & HDC).
  iAssert (path m (tptr (subtree s r)) (f' :: C') NULL) with "[HC]" as "HC"; [by rewrite -HDC|].
  iAssert (atree (up (f' :: C') NULL) (subtree s r)) with "[Ht]" as "Ht"; [by rewrite -HDC|].
  rewrite (_ : a_parent _ = up (f' :: C') NULL); [|rewrite -HDC; by destruct s].
  rewrite HDC in Hsmall. iApply (wp_update_hole m with "HC Ht"); [done..|].
  iIntros "HC Ht". rewrite -HDC. wp_pures.
  iApply ("HΦ" $! rl ra rk rv rb D with "[//] Hr HC Ht").
Qed.

Lemma taller_leaf l lt k v rt :
  subtree (taller (Node l lt k v rt)) (Node l lt k v rt) = Leaf → lt = Leaf ∧ rt = Leaf.
Proof.
  assert (∀ t, (height t ≤ 0)%Z → t = Leaf) as Hz.
  { intros [|l' a k' v' b] H; [done|]. simpl in H.
    pose proof (height_nonneg a). pose proof (height_nonneg b). lia. }
  pose proof (height_nonneg lt). pose proof (height_nonneg rt).
  rewrite /taller. case_bool_decide as Hc; simpl in *; intros ->; simpl in Hc; [lia|].
  split; [done|]. apply Hz. lia.
Qed.

Lemma length_plug t C : (Z.of_nat (length C) ≤ height (plug t C))%Z.
Proof.
  rewrite height_plug. pose proof (height_nonneg t) as Ht. revert Ht. generalize (height t).
  assert (∀ n, (0 ≤ n)%Z → (n + Z.of_nat (length C) ≤ path_height n C)%Z) as Hp.
  { induction C as [|f C IH]; intros n Hn; simpl; [lia|].
    specialize (IH (1 + Z.max n (height (f_other f)))%Z). lia. }
  intros n Hn. specialize (Hp n Hn). lia.
Qed.

Lemma size_detach l lt k v rt C t' C' :
  detach (Node l lt k v rt) C = (t', C') → size (plug t' C') = (size (plug (Node l lt k v rt) C) - 1)%Z.
Proof.
  intros Hd. pose proof (detach_spec l lt k v rt C) as Hs. rewrite Hd in Hs. destruct Hs as [Hs _].
  rewrite /size Hs elements_plug /= !length_app /=. lia.
Qed.

Lemma length_detach l lt k v rt C t' C' :
  detach (Node l lt k v rt) C = (t', C') →
  (Z.of_nat (length C') ≤ height (Node l lt k v rt) + Z.of_nat (length C))%Z.
Proof.
  rewrite /detach. set (t := Node l lt k v rt). set (s := taller t).
  destruct (decide (subtree s t = Leaf)) as [->|Hne].
  { simpl. intros [= <- <-]. pose proof (height_nonneg t). simpl in *. lia. }
  destruct (innermost_spec s (subtree s t) [] Hne)
    as (rl & ra & rk & rv & rb & D & -> & _ & Hplug & _). intros [= <- <-].
  pose proof (length_plug (Node rl ra rk rv rb) D) as HD. rewrite Hplug in HD.
  pose proof (height_node s l (subtree s t) k v (subtree (opp s) t)) as Hh.
  rewrite (node_subtree s l k v t lt rt eq_refl) in Hh.
  rewrite right_id_L length_app. cbn [length]. lia.
Qed.

(** The end of [avl_tree_remove_node]. *)
Lemma wp_remove_end fuel tr l n t' C' (Φ : AVLTree → hProp AVLTreeNode) :
  root_node tr = top (tptr t') C' → (size (plug t' C') < BIG - 1)%Z → length C' < fuel →
  (0 < num_nodes tr ≤ BIG)%Z →
  l ↦ n -∗ atree (up C' NULL) t' -∗ path BIG (tptr t') C' NULL -∗
  (atree NULL (rebalance t' C') -∗
   Φ (set_root (tptr (rebalance t' C')) (set_num (num_nodes tr - 1) tr))) -∗
  wp (_ ← free (Some l);
      num ← chk (num_nodes tr - 1)%Z;
      avl_tree_balance_to_root fuel (set_num num tr) (up C' NULL)) Φ.
Proof.
  iIntros (Hroot Hsize Hfuel Hnum) "Hl Ht HC HΦ". wp_free. wp_bind. iApply wp_chk.
  { rewrite /BIG in Hnum. int_tac. }
  iApply (wp_balance_to_root fuel (set_num (num_nodes tr - 1) tr) t' C' with "Ht HC HΦ"); done.
Qed.

Lemma wp_remove_node_leaf fuel tr l k v C (Φ : AVLTree → hProp AVLTreeNode) :
  let t := Node l Leaf k v Leaf in
  bounded (BIG - 2) tr t C → (height t + Z.of_nat (length C) < Z.of_nat fuel)%Z →
  (0 < num_nodes tr ≤ BIG)%Z →
  atree (up C NULL) t -∗ path (BIG - 2) (Some l) C NULL -∗
  (atree NULL (rebalance Leaf C) -∗
   Φ (set_root (tptr (rebalance Leaf C)) (set_num (num_nodes tr - 1) tr))) -∗
  wp (avl_tree_remove_node fuel tr (Some l)) Φ.
Proof.
  iIntros (t (Hroot & Hsize & _) Hfuel Hnum) "(Hl & _ & _) HC HΦ".
  pose proof (height_nonneg t). rewrite /avl_tree_remove_node /avl_tree_node_get_replacement. wp_load. wp_pures.
  iApply (wp_replace_tree (BIG - 2) tr l _ C (Some l) Leaf with "Hl HC []");
    [done|done|by eapply small_plug|done|done|done|].
  iIntros "Hl HC _". wp_load. iApply wp_ret. simpl.
  iApply (wp_remove_end fuel (set_root (top NULL C) tr) l _ Leaf C with "Hl [] [HC]"); simpl;
    [done| |lia|done|done|iApply (path_mono with "HC"); lia|].
  { rewrite (size_detach l Leaf k v Leaf C Leaf C eq_refl) -/t. lia. }
  by iIntros "Ht"; iApply "HΦ".
Qed.

Lemma wp_remove_node_inner fuel tr t l lt k v rt C (Φ : AVLTree → hProp AVLTreeNode) :
  t = Node l lt k v rt → subtree (taller t) t ≠ Leaf →
  bounded (BIG - 2) tr t C → (height t + Z.of_nat (length C) < Z.of_nat fuel)%Z →
  (0 < num_nodes tr ≤ BIG)%Z →
  atree (up C NULL) t -∗ path (BIG - 2) (Some l) C NULL -∗
  (atree NULL (remove_at t C) -∗
   Φ (set_root (tptr (remove_at t C)) (set_num (num_nodes tr - 1) tr))) -∗
  wp (avl_tree_remove_node fuel tr (Some l)) Φ.
Proof.
  iIntros (Ht Hne Hbd Hfuel Hnum) "Ht HC HΦ".
  rewrite /avl_tree_remove_node. set (s := taller t). wp_bind.
  iApply (wp_get_replacement (BIG - 2) fuel tr t l lt k v rt C with "Ht HC"); [done|done|done|lia|].
  iIntros (rl ra rk rv rb D). fold s. set (r := Node rl ra rk rv rb).
  iIntros "%Hr Hr HC Ht". destruct Hr as [Hin Hplug]. simpl.
  destruct Hbd as (Hroot & Hsize & _).
  rewrite -Hplug in Hsize. pose proof (small_plug _ _ _ Hsize) as Hsmall.
  (* the path splits at the removed node *)
  iEval (rewrite path_app /=) in "HC". iDestruct "HC" as "(HD & (%h & %Hh & Hl & Ho) & HC)". simpl.
  set (o := subtree (opp s) t) in *. set (c := subtree s r).
  iAssert ⌜(if bool_decide (up D (Some l) = Some l) then Some rl else up D (Some l)) =
    up D (Some rl)⌝%I as %Hstart.
  { destruct D as [|f D]; simpl; [by rewrite bool_decide_eq_true_2|].
    iDestruct "HD" as "[(%h' & _ & Hf & _) _]".
    iDestruct (pointsto_ne with "Hf Hl") as %?. rewrite bool_decide_eq_false_2 //. congruence. }
  wp_load. rewrite (_ : a_parent _ = up D (Some l)); [|rewrite up_app; by destruct s].
  rewrite Hstart. rewrite up_app. simpl up.
  iApply (wp_copy_children s l rl _ _ (atree (up D (Some rl)) c ∗ path (BIG - 2) (tptr c) D (Some rl))
    (atree (Some rl) o) with "Hl Hr [Ht HD] [Ho]").
  { rewrite child_anode. iApply (wp_relink_path with "Ht HD"). by iIntros "$". }
  { rewrite child_anode_opp. iApply (wp_relink_tree with "Ho"). by iIntros "$". }
  iIntros "Hl Hr [Ht HD] Ho". wp_load. wp_store.
  rewrite (_ : put_height _ _ = anode s (top (tptr c) D) (tptr o) (up D (Some l)) rk rv h);
    [|by subst c; simpl; destruct s].
  assert (Forall (λ f, height (f_other f) < BIG - 2)%Z C ∧ (height o < BIG - 2)%Z) as [HsC Hso].
  { apply Forall_app in Hsmall as [_ Hs]. inversion Hs; subst. done. }
  wp_bind. iApply (wp_replace_cell (BIG - 1) tr l _ C rl with "Hl [HC] Hr").
  { by destruct s. }
  { by rewrite Hroot Ht. }
  { eapply Forall_impl; [exact HsC|]. simpl. intros. lia. }
  { assert (a_height (anode s (top (tptr c) D) (tptr o) (up D (Some l)) rk rv h) = h) as ->
      by by destruct s. lia. }
  { lia. }
  { iApply (path_mono with "HC"). lia. }
  iIntros "Hl HC Hr". rewrite put_parent_anode. iApply wp_ret. simpl.
  set (C' := D ++ Frame s rl rk rv o :: C).
  assert (detach t C = (c, C')) as Hdet by (by rewrite /detach -/s Hin).
  rewrite (_ : up D (Some rl) = up C' NULL); [|by rewrite /C' up_app].
  iApply (wp_remove_end fuel (set_root (top (Some rl) C) tr) l _ c C' with "Hl [Ht] [HC HD Hr Ho]").
  { by rewrite /C' top_app. }
  { rewrite Ht in Hdet. rewrite (size_detach _ _ _ _ _ _ _ _ Hdet) -Ht -Hplug. lia. }
  { rewrite Ht in Hdet, Hfuel. pose proof (length_detach _ _ _ _ _ _ _ _ Hdet). lia. }
  { done. }
  { rewrite /C' up_app. iFrame. }
  { rewrite /C' path_app /=. iSplitL "HD"; [iApply (path_mono with "HD"); lia|].
    iSplitR "HC"; [|iApply (path_mono with "HC"); lia]. iExists h. iFrame. iPureIntro. lia. }
  iIntros "Ht". rewrite /remove_at Hdet. by iApply "HΦ".
Qed.

Lemma avl_tree_remove_node_spec fuel tr t l lt k v rt C (Φ : AVLTree → hProp AVLTreeNode) :
  t = Node l lt k v rt → bounded (BIG - 2) tr t C →
  (height t + Z.of_nat (length C) < Z.of_nat fuel)%Z → (0 < num_nodes tr ≤ BIG)%Z →
  atree (up C NULL) t -∗ path (BIG - 2) (Some l) C NULL -∗
  (atree NULL (remove_at t C) -∗
   Φ (set_root (tptr (remove_at t C)) (set_num (num_nodes tr - 1) tr))) -∗
  wp (avl_tree_remove_node fuel tr (Some l)) Φ.
Proof.
  intros Ht Hbd Hfuel Hnum. destruct (decide (subtree (taller t) t = Leaf)) as [He|He].
  - rewrite Ht in He. apply taller_leaf in He as [-> ->]. subst t.
    by apply wp_remove_node_leaf.
  - by eapply wp_remove_node_inner.
Qed.
