(* ===== verification/AvlOps.v ===== *)
(** * AvlOps: the operations of avl-tree.c

    [avltree tr kvs]: memory holds an ordered, balanced tree whose entries are
    [kvs] in order.  The operations are specified on [kvs] alone; the iteration
    bounds are logarithmic in its length. *)
From stdpp Require Import base gmap list numbers sorting.
From iris.proofmode Require Import proofmode.
From S2P Require Import Prelude Memory Compare AvlTree AvlSpec AvlProofs.

(** ** The tree behind its entries *)

Definition avltree (tr : AVLTree) (kvs : list (value * value)) : hProp AVLTreeNode :=
  ∃ t, ⌈ root_node tr = tptr t ∧ elements t = kvs ∧ balanced t ∧
         sorted (compare_func tr) kvs ∧ num_nodes tr = Z.of_nat (length kvs) ⌉ ∗
       atree NULL t.

(** Room for the counter and the heights. *)
Definition roomy (kvs : list (value * value)) : Prop := (Z.of_nat (length kvs) < BIG - 2)%Z.

Lemma avltree_intro tr t kvs :
  root_node tr = tptr t → elements t = kvs → balanced t → sorted (compare_func tr) kvs →
  num_nodes tr = Z.of_nat (length kvs) → atree NULL t ⊢ avltree tr kvs.
Proof. iIntros (?????) "Ht". iExists t. by iFrame. Qed.

Section ops.
Context `{Allocator AVLTreeNode}.
Implicit Types kvs : list (value * value).

Lemma avl_tree_new_spec cmp :
  {{ emp }} avl_tree_new cmp
  {{ r, match r with
        | None => ⌈ can_fail ⌉
        | Some tr => ⌈ compare_func tr = cmp ⌉ ∗ avltree tr []
        end }}.
Proof.
  apply triple_wp. iIntros "_". rewrite /avl_tree_new. wp_malloc_array; wp_pures; [|done].
  iSplit; [done|]. iApply (avltree_intro _ Leaf); try done. constructor.
Qed.

(** C16. [avl_tree_insert] puts the entry after the entries with keys below or equal
    and before the others; the tree stays ordered and balanced.  It changes
    nothing when the node cannot be allocated. *)
Theorem avl_tree_insert_correct fuel tr key v kvs `{!CompareFunc (compare_func tr)} :
  (avl_depth (length kvs) ≤ fuel) → roomy kvs →
  {{ avltree tr kvs }} avl_tree_insert fuel tr key v
  {{ r, match r.1 with
        | NULL => ⌈ can_fail ⌉ ∗ ⌈ r.2 = tr ⌉ ∗ avltree tr kvs
        | Some _ => ∃ lo hi,
            ⌈ kvs = lo ++ hi ⌉ ∗
            ⌈ Forall (λ e, ¬ compare_func tr key e.1 < 0)%Z lo ⌉ ∗
            ⌈ Forall (λ e, compare_func tr key e.1 < 0)%Z hi ⌉ ∗
            ⌈ compare_func r.2 = compare_func tr ⌉ ∗ avltree r.2 (lo ++ (key, v) :: hi)
        end }}.
Proof.
  intros Hfuel Hroom. apply triple_wp. iIntros "(%t & %Ht & Ht)".
  destruct Ht as (Hroot & Hel & Hbal & Hsort & Hnum). pose proof (avl_depth_height t Hbal) as Hd.
  rewrite Hel in Hd. rewrite /avl_tree_insert.
  set (D := descend (compare_func tr) key t []).
  pose proof (length_descend (compare_func tr) key t []) as HD. simpl in HD. fold D in HD.
  pose proof (plug_descend (compare_func tr) key t []) as Hplug. fold D in Hplug. simpl in Hplug.
  wp_bind. iApply (wp_insert_walk fuel tr key t [] with "Ht"); [lia|done|done|]. fold D.
  iIntros "HC". pose proof (height_plug Leaf D) as Hph. rewrite Hplug in Hph.
  change (height Leaf) with 0%Z in Hph.
  assert (size t = Z.of_nat (length kvs)) as Hsz by by rewrite /size Hel.
  wp_malloc n as "Hn"; last first.
  { wp_pures. ipures. iApply (avltree_intro _ t); try done.
    rewrite -Hplug atree_plug /=. rewrite left_id. iFrame. }
  do 6 wp_store. wp_bind.
  iDestruct (xpath_path BIG with "HC") as "HC"; [lia| |].
  { rewrite -Hph. pose proof (height_size t). rewrite /roomy in Hroom. lia. }
  assert (root_node tr = top NULL D) as Htop.
  { rewrite Hroot -{1}Hplug. apply tptr_plug. }
  iApply (wp_write_hole with "HC"); [done|]. iIntros "HC". wp_bind.
  assert (size (plug (Node n Leaf key v Leaf) D) = size t + 1)%Z as Hsz'.
  { rewrite -Hplug /size !elements_plug !length_app /=. lia. }
  iApply (wp_balance_to_root fuel _ (Node n Leaf key v Leaf) D with "[Hn] HC").
  { lia. }
  { done. }
  { rewrite Hsz'. rewrite /roomy in Hroom. lia. }
  { simpl. by iFrame. }
  iIntros "Ht". simpl. iApply wp_bind. iApply wp_chk.
  { rewrite /roomy in Hroom. change INT_MAX with (BIG + 2)%Z. rewrite Hnum /INT_MIN. lia. }
  wp_pures.
  destruct (insert_tree_spec (compare_func tr) n key v t) as (lo & hi & Hkvs & Hins & Hlo & Hhi & Hs & Hb);
    [by rewrite Hel|done|].
  iExists lo, hi. rewrite -Hel. ipures. rewrite -Hins.
  iApply (avltree_intro with "Ht"); try done. simpl. rewrite Hnum Hins -Hel Hkvs !length_app /=. lia.
Qed.
(** ** Search *)
Lemma seek_node cmp key t C r D :
  seek cmp key t C = (r, D) → plug r D = plug t C ∧
  (length D + height r ≤ length C + height t)%Z.
Proof.
  intros Hs. split; [by rewrite -(plug_seek cmp key t C) Hs|]. revert C Hs.
  induction t as [|l lt IHl k v rt IHr]; intros C Hs; simpl in Hs |- *; [by simplify_eq|].
  pose proof (height_nonneg lt). pose proof (height_nonneg rt).
  repeat case_bool_decide; [simplify_eq; simpl; lia| |].
  - specialize (IHl _ Hs). simpl in IHl. lia.
  - specialize (IHr _ Hs). simpl in IHr. lia.
Qed.

(** What a search in an ordered tree finds. *)
Definition search_result (tr : AVLTree) kvs (key : value) (p : ptr) : hProp AVLTreeNode :=
  match p with
  | NULL => ⌈ Forall (λ e, compare_func tr key e.1 ≠ 0)%Z kvs ⌉ ∗ avltree tr kvs
  | Some l => ∃ t lt k v rt C,
      ⌈ t = Node l lt k v rt ∧ elements (plug t C) = kvs ∧ balanced (plug t C) ∧
        root_node tr = tptr (plug t C) ∧ compare_func tr key k = 0%Z ∧
        sorted (compare_func tr) kvs ∧ num_nodes tr = Z.of_nat (length kvs) ∧
        (length C + height t < avl_depth (length kvs))%Z ⌉ ∗
      atree (up C NULL) t ∗ xpath (height t) (Some l) C NULL
  end.

Lemma avl_tree_lookup_node_spec fuel tr key kvs `{!CompareFunc (compare_func tr)} :
  (avl_depth (length kvs) ≤ fuel) →
  {{ avltree tr kvs }} avl_tree_lookup_node fuel tr key {{ p, search_result tr kvs key p }}.
Proof.
  intros Hfuel. apply triple_wp. iIntros "(%t & %Ht & Ht)".
  destruct Ht as (Hroot & Hel & Hbal & Hsort & Hnum). pose proof (avl_depth_height t Hbal) as Hd.
  rewrite Hel in Hd. rewrite /avl_tree_lookup_node Hroot.
  iApply (wp_lookup_node fuel tr key t [] with "Ht"); [lia|done|].
  destruct (seek (compare_func tr) key t []) as [r D] eqn:Hs. iIntros "Ht HC".
  destruct (seek_node _ _ _ _ _ _ Hs) as [Hplug Hlen]. simpl in Hplug, Hlen.
  destruct r as [|l lt k v rt]; simpl tptr; rewrite /search_result.
  - iSplit; [iPureIntro|iApply (avltree_intro _ t); [done..|]; rewrite -Hplug atree_plug; by iFrame].
    rewrite -Hel -[t]/(plug t []). apply (seek_missing _ key t []).
    { by rewrite /= Hel. } { constructor. } { constructor. } by rewrite Hs.
  - iExists (Node l lt k v rt), lt, k, v, rt, D. iFrame. iPureIntro.
    rewrite Hplug. split_and!; try done; [by eapply seek_found|lia].
Qed.

(** [avl_tree_lookup] returns a value stored under an equal key, and the null
    value exactly when there is no such entry; the number of steps is
    logarithmic. *)
Theorem avl_tree_lookup_correct fuel tr key kvs `{!CompareFunc (compare_func tr)} :
  (avl_depth (length kvs) ≤ fuel) →
  {{ avltree tr kvs }} avl_tree_lookup fuel tr key
  {{ r, ⌈ (∃ k, (k, r) ∈ kvs ∧ compare_func tr key k = 0%Z) ∨
          (r = VNULL ∧ Forall (λ e, compare_func tr key e.1 ≠ 0)%Z kvs) ⌉ ∗ avltree tr kvs }}.
Proof.
  intros Hfuel. apply triple_wp. iIntros "H". rewrite /avl_tree_lookup. wp_bind.
  iApply (triple_use with "H"); [by apply avl_tree_lookup_node_spec|]. iIntros ([l|]); simpl.
  - iIntros "(%t & %lt & %k & %v & %rt & %C & %HT & Ht & HC)".
    destruct HT as (Ht & Hel & Hbal & Hroot & Hk & Hsort & Hnum & _).
    iAssert (atree (up C NULL) (Node l lt k v rt)) with "[Ht]" as "Ht"; [by rewrite -Ht|].
    simpl. iDestruct "Ht" as "(Hl & Ht)". wp_load. wp_pures. iSplit.
    { iPureIntro. left. exists k. split; [|done]. rewrite -Hel elements_plug Ht /=.
      rewrite !elem_of_app elem_of_cons. auto. }
    iApply (avltree_intro _ (plug t C)); [done..|]. rewrite atree_plug Ht. iFrame.
  - iIntros "[%Hno Ht]". wp_pures. iFrame. iPureIntro. by right.
Qed.

(** C17. [avl_tree_remove] takes one entry with an equal key out, frees its node and
    returns 1; without one it returns 0 and changes nothing.  The tree stays
    ordered and balanced. *)
Theorem avl_tree_remove_correct fuel tr key kvs `{!CompareFunc (compare_func tr)} :
  (avl_depth (length kvs) ≤ fuel) → roomy kvs →
  {{ avltree tr kvs }} avl_tree_remove fuel tr key
  {{ r, (⌈ r.1 = 1%Z ⌉ ∗ ∃ lo k v hi,
           ⌈ kvs = lo ++ (k, v) :: hi ⌉ ∗ ⌈ compare_func tr key k = 0%Z ⌉ ∗
           ⌈ compare_func r.2 = compare_func tr ⌉ ∗ avltree r.2 (lo ++ hi)) ∨
        (⌈ r.1 = 0%Z ⌉ ∗ ⌈ r.2 = tr ⌉ ∗
           ⌈ Forall (λ e, compare_func tr key e.1 ≠ 0)%Z kvs ⌉ ∗ avltree tr kvs) }}.
Proof.
  intros Hfuel Hroom. apply triple_wp. iIntros "H". rewrite /avl_tree_remove. wp_bind.
  iApply (triple_use with "H"); [by apply avl_tree_lookup_node_spec|]. iIntros ([l|]); simpl; last first.
  { iIntros "[%Hno Ht]". wp_pures. iRight. ipures. done. }
  iIntros "(%t & %lt & %k & %v & %rt & %C & %HT & Ht & HC)".
  destruct HT as (Ht & Hel & Hbal & Hroot & Hk & Hsort & Hnum & Hlen).
  pose proof (height_plug t C) as Hpt. pose proof (height_size (plug t C)) as Hps.
  assert (size (plug t C) = Z.of_nat (length kvs)) as Hsz by by rewrite /size Hel.
  rewrite /roomy in Hroom. pose proof (height_nonneg t).
  iDestruct (xpath_path (BIG - 2) with "HC") as "HC"; [done|lia|]. wp_bind.
  iApply (avl_tree_remove_node_spec fuel tr t l lt k v rt C with "Ht HC").
  { done. }
  { split_and!; [|lia|done]. rewrite Hroot tptr_plug. done. }
  { lia. }
  { pose proof (size_plug t C) as Hsp. rewrite {1}Ht (size_node AVL_LEFT) in Hsp.
    pose proof (size_nonneg lt). pose proof (size_nonneg rt). lia. }
  iIntros "Ht". wp_pures. iLeft. ipures. subst t.
  destruct (remove_at_spec (compare_func tr) l lt k v rt C) as (lo & hi & Hlo & Hrem & Hs & Hb).
  iExists lo, k, v, hi. rewrite -Hel Hlo. ipures. rewrite -Hrem. rewrite Hel in Hs.
  iApply (avltree_intro with "Ht"); try done.
  - by apply Hb.
  - simpl. rewrite Hrem. by apply Hs.
  - simpl. rewrite Hnum Hrem -Hel Hlo !length_app /=. lia.
Qed.

(** ** Freeing and listing the tree *)
Lemma avl_tree_free_subtree_spec fuel p t :
  (height t < Z.of_nat fuel)%Z →
  {{ atree p t }} avl_tree_free_subtree fuel (tptr t) {{ _, emp }}.
Proof.
  intros Hfuel. apply triple_wp.
  revert p t Hfuel. induction fuel as [|fuel IH]; intros p t Hfuel; iIntros "Ht".
  { pose proof (height_nonneg t). lia. }
  destruct t as [|l lt k v rt]; simpl in *; [by wp_pures|].
  iDestruct "Ht" as "(Hl & Hlt & Hrt)". wp_load.
  wp_bind. iApply (triple_use with "Hlt"); [apply triple_wp, IH; lia|]. iIntros (_) "_".
  wp_load. wp_bind. iApply (triple_use with "Hrt"); [apply triple_wp, IH; lia|]. iIntros (_) "_".
  by wp_free.
Qed.

(** [avl_tree_free] frees every node of the tree. *)
Theorem avl_tree_free_correct fuel tr kvs :
  (avl_depth (length kvs) ≤ fuel) →
  {{ avltree tr kvs }} avl_tree_free fuel tr {{ _, emp }}.
Proof.
  intros Hfuel. apply triple_wp. iIntros "(%t & %Ht & Ht)".
  destruct Ht as (Hroot & Hel & Hbal & _). pose proof (avl_depth_height t Hbal) as Hd.
  rewrite Hel in Hd. rewrite /avl_tree_free Hroot.
  iApply (triple_use with "Ht"); [apply avl_tree_free_subtree_spec; lia|]. by iIntros.
Qed.

Lemma avl_tree_to_array_add_subtree_spec fuel p t ks m :
  (height t < Z.of_nat fuel)%Z → (Z.of_nat (length ks) + size t ≤ INT_MAX)%Z →
  {{ atree p t }}
    avl_tree_to_array_add_subtree fuel (tptr t) (filled ks (length (elements t) + m)) (Z.of_nat (length ks))
  {{ r, ⌈ r = (filled (ks ++ (elements t).*1) m, Z.of_nat (length (ks ++ (elements t).*1))) ⌉ ∗
        atree p t }}.
Proof.
  intros Hfuel. revert p t ks m Hfuel.
  induction fuel as [|fuel IH]; intros p t ks m Hfuel Hmax; apply triple_wp; iIntros "Ht".
  { pose proof (height_nonneg t). lia. }
  destruct t as [|l lt k v rt]; simpl in Hfuel |- *.
  { wp_pures. rewrite right_id_L. by iFrame. }
  iDestruct "Ht" as "(Hl & Hlt & Hrt)". wp_load.
  rewrite (size_node AVL_LEFT) in Hmax. pose proof (size_nonneg rt). pose proof (size_nonneg lt).
  rewrite length_app /= -assoc_L. iApply wp_bind.
  iApply (triple_use with "Hlt"); [apply IH; lia|]. iIntros (r) "[-> Hlt]". simpl.
  wp_load. wp_bind. iApply wp_aset_filled. wp_bind.
  assert (length (elements lt).*1 = length (elements lt)) as Hlen by apply length_fmap.
  rewrite /size in Hmax. iApply wp_chk; [rewrite !length_app Hlen; int_tac|].
  replace (Z.of_nat (length (ks ++ (elements lt).*1)) + 1)%Z
    with (Z.of_nat (length ((ks ++ (elements lt).*1) ++ [k]))) by (rewrite !length_app /=; lia).
  iApply (triple_use with "Hrt"); [apply IH; [lia|rewrite /size !length_app Hlen /=; lia]|].
  iIntros (r) "[-> Hrt]". iFrame. rewrite fmap_app /= -!assoc_L /=. done.
Qed.

(** [avl_tree_to_array] lists the keys in order and writes every cell of the
    array.  (The interface announces the values.) *)
Theorem avl_tree_to_array_correct fuel tr kvs :
  (avl_depth (length kvs) ≤ fuel) → (Z.of_nat (length kvs) ≤ INT_MAX)%Z →
  {{ avltree tr kvs }} avl_tree_to_array fuel tr
  {{ r, match r with
        | None => ⌈ can_fail ⌉
        | Some array => ⌈ array = Some <$> kvs.*1 ⌉ ∗ ⌈ sorted (compare_func tr) kvs ⌉
        end ∗ avltree tr kvs }}.
Proof.
  intros Hfuel Hmax. apply triple_wp. iIntros "(%t & %Ht & Ht)".
  destruct Ht as (Hroot & Hel & Hbal & Hsort & Hnum). pose proof (avl_depth_height t Hbal) as Hd.
  rewrite Hel in Hd. rewrite /avl_tree_to_array.
  wp_malloc_array; wp_pures; last first.
  { iSplit; [done|]. by iApply (avltree_intro _ t). }
  rewrite Hroot Hnum Nat2Z.id -Hel.
  pose proof (avl_tree_to_array_add_subtree_spec fuel NULL t [] 0) as Hs.
  rewrite Nat.add_0_r in Hs. iApply (triple_use with "Ht"); [apply Hs; [lia|simpl; rewrite /size Hel; lia]|].
  iIntros (r) "[-> Ht]". wp_pures. rewrite /filled /= right_id_L Hel.
  iSplitR; [by iSplit|]. by iApply (avltree_intro _ t).
Qed.

(** The height of the root stays logarithmic in the number of entries. *)
Theorem avl_tree_height_bound tr kvs :
  {{ avltree tr kvs }} avl_tree_subtree_height (avl_tree_root_node tr)
  {{ h, ⌈ 0 ≤ h ∧ 2 ^ (h / 2) ≤ Z.of_nat (length kvs) + 1 ⌉%Z ∗ avltree tr kvs }}.
Proof.
  apply triple_wp. iIntros "(%t & %Ht & Ht)".
  destruct Ht as (Hroot & Hel & Hbal & Hsort & Hnum). pose proof (balanced_height t Hbal) as Hd.
  pose proof (height_nonneg t). rewrite /avl_tree_root_node Hroot.
  iApply (wp_reads with "Ht"); [apply reads_tree|]. iIntros "Ht". iSplit.
  - iPureIntro. by rewrite Hel in Hd.
  - by iApply (avltree_intro _ t).
Qed.
End ops.

(** ** Runs on concrete trees *)

Module Runs.
Fixpoint atree_cells (p : ptr) (t : tree) : gmap loc AVLTreeNode :=
  match t with
  | Leaf => ∅
  | Node l lt k v rt =>
      {[l := ANode (tptr lt) (tptr rt) p k v (height t)]} ∪
      (atree_cells (Some l) lt ∪ atree_cells (Some l) rt)
  end.

Fixpoint locs (t : tree) : list loc :=
  match t with
  | Leaf => []
  | Node l lt _ _ rt => l :: locs lt ++ locs rt
  end.

Lemma atree_cells_dom p t l : l ∉ locs t → atree_cells p t !! l = None.
Proof.
  revert p. induction t as [|l' lt IHl k v rt IHr]; intros p; simpl; [done|].
  intros [Hne [H1 H2]%not_elem_of_app]%not_elem_of_cons. apply lookup_union_None. split.
  - by apply lookup_singleton_ne.
  - apply lookup_union_None. auto.
Qed.

Lemma holds_atree p t : NoDup (locs t) → holds (atree p t) (atree_cells p t).
Proof.
  revert p. induction t as [|l lt IHl k v rt IHr]; intros p; simpl; [done|].
  intros [Hl (H1 & H12 & H2)%NoDup_app]%NoDup_cons. apply not_elem_of_app in Hl as [Hl1 Hl2].
  apply holds_sep. eexists _, _. split_and!; [done| |done|].
  - apply map_disjoint_singleton_l_2, lookup_union_None. split; by apply atree_cells_dom.
  - apply holds_sep. eexists _, _. split_and!; [done| |by apply IHl|by apply IHr].
    apply map_disjoint_spec. intros i x y Hx Hy.
    destruct (decide (i ∈ locs lt)) as [Hi|Hi].
    + by rewrite atree_cells_dom in Hy; [|apply H12].
    + by rewrite atree_cells_dom in Hx.
Qed.

Definition leaf (l : loc) (k v : value) : tree := Node l Leaf k v Leaf.

(** Keys 10, 20 and 30 with values 1, 2 and 3. *)
Definition three : tree := Node 1%positive (leaf 2%positive 10%Z 1%Z) 20%Z 2%Z (leaf 3%positive 30%Z 3%Z).
Definition tree3 : AVLTree :=
  {| root_node := Some 1%positive; compare_func := Z.sub; num_nodes := 3%Z |}.
Definition kvs3 : list (value * value) := [(10, 1); (20, 2); (30, 3)]%Z.
Definition heap3 : gmap loc AVLTreeNode := atree_cells NULL three.

#[global] Instance sub_compare : CompareFunc Z.sub.
Proof. split; intros; lia. Qed.

Lemma tree3_holds : holds (avltree tree3 kvs3) heap3.
Proof.
  eapply holds_mono.
  { apply (avltree_intro tree3 three kvs3); try done. repeat constructor; done. }
  apply holds_atree. by apply (bool_decide_unpack _).
Qed.

#[local] Instance alloc : Allocator AVLTreeNode := total_alloc (ANode NULL NULL NULL 0%Z 0%Z 0%Z).

Lemma avl_tree_insert_correct_witness :
  ∃ r h t, avl_tree_insert 10 tree3 25%Z 4%Z (Mem heap3 0) = Ok (r, Mem h t) ∧ is_Some r.1 ∧
    num_nodes r.2 = 4%Z.
Proof.
  destruct (triple_run _ _ _ heap3 0 (avl_tree_insert_correct 10 tree3 25%Z 4%Z kvs3
    ltac:(vm_compute; lia) ltac:(by vm_compute)) tree3_holds) as (r & h & t & E & _).
  exists r, h, t. split; [exact E|]. revert E. vm_compute. intros [= <- <- <-].
  split; [by eexists|done].
Defined.

Lemma avl_tree_remove_correct_witness :
  ∃ r h t, avl_tree_remove 10 tree3 20%Z (Mem heap3 0) = Ok (r, Mem h t) ∧ r.1 = 1%Z ∧ dom h = {[2%positive; 3%positive]}.
Proof.
  destruct (triple_run _ _ _ heap3 0 (avl_tree_remove_correct 10 tree3 20%Z kvs3
    ltac:(vm_compute; lia) ltac:(by vm_compute)) tree3_holds) as (r & h & t & E & _).
  exists r, h, t. split; [exact E|]. revert E. vm_compute. intros [= <- <- <-]. by split.
Defined.

Lemma avl_tree_lookup_correct_witness :
  ∃ h t, avl_tree_lookup 10 tree3 30%Z (Mem heap3 0) = Ok (3%Z, Mem h t).
Proof.
  destruct (triple_run _ _ _ heap3 0 (avl_tree_lookup_correct 10 tree3 30%Z kvs3
    ltac:(vm_compute; lia)) tree3_holds) as (r & h & t & E & _).
  exists h, t. rewrite E. revert E. vm_compute. by intros [= <- _ _].
Defined.

Lemma avl_tree_to_array_correct_witness :
  ∃ h t, avl_tree_to_array 10 tree3 (Mem heap3 0) = Ok (Some [Some 10; Some 20; Some 30]%Z, Mem h t).
Proof.
  destruct (triple_run _ _ _ heap3 0 (avl_tree_to_array_correct 10 tree3 kvs3
    ltac:(vm_compute; lia) ltac:(vm_compute; discriminate)) tree3_holds) as (r & h & t & E & _).
  exists h, t. rewrite E. revert E. vm_compute. by intros [= <- _ _].
Defined.

Lemma avl_tree_free_correct_witness :
  ∃ t, avl_tree_free 10 tree3 (Mem heap3 0) = Ok (tt, Mem ∅ t).
Proof.
  destruct (triple_run _ _ _ heap3 0 (avl_tree_free_correct 10 tree3 kvs3
    ltac:(vm_compute; lia)) tree3_holds) as ([] & h & t & E & ->).
  exists t. exact E.
Defined.
End Runs.
