(* ===== verification/Blocks.v ===== *)
(** * Blocks: arrays obtained from malloc

    A store whose cells are whole arrays: allocation, reallocation, release and
    accesses with their bounds, and the rules of the weakest precondition for
    them.  The components that keep their data in one array (array list, binary
    heap, Bloom filter, ring buffer) run on this store. *)
From stdpp Require Import base gmap list numbers.
From iris.proofmode Require Import proofmode.
From S2P Require Import Prelude Memory.

(** A block of elements; [None] is an element that was never written. *)
Definition block : Type := array value.

Section operations.
Context `{Allocator block}.

(** [malloc(n * size)]. *)
Definition block_malloc (n : Z) : M block ptr :=
  p ← malloc;
  match p with
  | NULL => mret NULL
  | Some _ => _ ← assign p (replicate (Z.to_nat n) None); mret p
  end.

(** [calloc(n, size)], also [malloc] followed by [memset] with 0. *)
Definition block_calloc (n : Z) : M block ptr :=
  p ← malloc;
  match p with
  | NULL => mret NULL
  | Some _ => _ ← assign p (replicate (Z.to_nat n) (Some 0%Z)); mret p
  end.

(** [realloc(p, n * size)]: the contents move to a new block, the old one is
    released; when the request is refused the old block stays. *)
Definition block_realloc (p : ptr) (n : Z) : M block ptr :=
  b ← deref p;
  q ← malloc;
  match q with
  | NULL => mret NULL
  | Some _ =>
      _ ← assign q (resize (Z.to_nat n) None b);
      _ ← free p;
      mret q
  end.
End operations.

(** [p[i]] as an rvalue and [p[i] = x]. *)
Definition block_get (p : ptr) (i : Z) : M block value :=
  b ← deref p;
  x ← aget b i;
  match x with
  | Some v => mret v
  | None => fail Uninitialised
  end.
Definition block_set (p : ptr) (i : Z) (x : value) : M block unit :=
  b ← deref p; b ← aset b i (Some x); assign p b.

(** [memmove(&p[dst], &p[src], n * size)]; a negative [n] is a huge size. *)
Definition moved (b : block) (dst src n : nat) : block :=
  take dst b ++ take n (drop src b) ++ drop (dst + n) b.
Definition block_move (p : ptr) (dst src n : Z) : M block unit :=
  b ← deref p;
  if bool_decide (0 ≤ dst ∧ 0 ≤ src ∧ 0 ≤ n ∧
                  dst + n ≤ Z.of_nat (length b) ∧ src + n ≤ Z.of_nat (length b))%Z
  then assign p (moved b (Z.to_nat dst) (Z.to_nat src) (Z.to_nat n))
  else fail OutOfBounds.

(** [memcpy(&dst[i], &src[j], n)] between different blocks; the regions of one
    block must not overlap, so copies within a block are refused. *)
Definition copied (d s : block) (i j n : nat) : block :=
  take i d ++ take n (drop j s) ++ drop (i + n) d.
Definition block_copy (dst : ptr) (i : Z) (src : ptr) (j n : Z) : M block unit :=
  d ← deref dst;
  s ← deref src;
  if bool_decide (dst = src) then fail WildAccess
  else if bool_decide (0 ≤ i ∧ 0 ≤ j ∧ 0 ≤ n ∧
                       i + n ≤ Z.of_nat (length d) ∧ j + n ≤ Z.of_nat (length s))%Z
  then assign dst (copied d s (Z.to_nat i) (Z.to_nat j) (Z.to_nat n))
  else fail OutOfBounds.

Section rules.
Context `{Allocator block}.

Lemma wp_block_malloc n (Φ : ptr → hProp block) :
  (∀ p, match p with
        | NULL => ⌈ can_fail ⌉
        | Some l => l ↦ replicate (Z.to_nat n) None
        end -∗ Φ p) -∗ wp (block_malloc n) Φ.
Proof.
  iIntros "HΦ". rewrite /block_malloc. wp_malloc l as "Hl".
  - wp_store. wp_pures. by iApply "HΦ".
  - wp_pures. by iApply "HΦ".
Qed.

Lemma wp_block_calloc n (Φ : ptr → hProp block) :
  (∀ p, match p with
        | NULL => ⌈ can_fail ⌉
        | Some l => l ↦ replicate (Z.to_nat n) (Some 0%Z)
        end -∗ Φ p) -∗ wp (block_calloc n) Φ.
Proof.
  iIntros "HΦ". rewrite /block_calloc. wp_malloc l as "Hl".
  - wp_store. wp_pures. by iApply "HΦ".
  - wp_pures. by iApply "HΦ".
Qed.

Lemma block_calloc_run n m l m' :
  block_calloc n m = Ok (Some l, m') → cells m' !! l = Some (replicate (Z.to_nat n) (Some 0%Z)).
Proof.
  intros ([p|] & m1 & Hm & E)%bind_ok; [|done].
  apply bind_ok in E as ([] & m2 & Ha & [= <- <-]). revert Ha. rewrite /assign /=.
  case_match; [|done]. intros [= <-]. by rewrite /= lookup_insert_eq.
Qed.

Lemma wp_block_realloc l b n (Φ : ptr → hProp block) :
  l ↦ b -∗
  (∀ p, match p with
        | NULL => ⌈ can_fail ⌉ ∗ l ↦ b
        | Some l => l ↦ resize (Z.to_nat n) None b
        end -∗ Φ p) -∗ wp (block_realloc (Some l) n) Φ.
Proof.
  iIntros "Hl HΦ". rewrite /block_realloc. wp_load. wp_malloc q as "Hq".
  - wp_store. wp_free. wp_pures. by iApply "HΦ".
  - wp_pures. iApply "HΦ". by iFrame.
Qed.
End rules.

Lemma wp_block_get l b i x (Φ : value → hProp block) :
  (0 ≤ i)%Z → b !! Z.to_nat i = Some (Some x) →
  l ↦ b -∗ (l ↦ b -∗ Φ x) -∗ wp (block_get (Some l) i) Φ.
Proof.
  iIntros (Hi Hx) "Hl HΦ". rewrite /block_get. wp_load. wp_bind. iApply wp_aget; [done..|].
  wp_pures. by iApply "HΦ".
Qed.

Lemma wp_block_set l b i x (Φ : unit → hProp block) :
  (0 ≤ i < Z.of_nat (length b))%Z →
  l ↦ b -∗ (l ↦ <[Z.to_nat i := Some x]> b -∗ Φ tt) -∗ wp (block_set (Some l) i x) Φ.
Proof.
  iIntros (Hi) "Hl HΦ". rewrite /block_set. wp_load. wp_bind. iApply wp_aset; [done|].
  wp_store. by iApply "HΦ".
Qed.

Lemma wp_block_move l b dst src n (Φ : unit → hProp block) :
  (0 ≤ dst)%Z → (0 ≤ src)%Z → (0 ≤ n)%Z →
  (dst + n ≤ Z.of_nat (length b))%Z → (src + n ≤ Z.of_nat (length b))%Z →
  l ↦ b -∗ (l ↦ moved b (Z.to_nat dst) (Z.to_nat src) (Z.to_nat n) -∗ Φ tt) -∗
  wp (block_move (Some l) dst src n) Φ.
Proof.
  iIntros (?????) "Hl HΦ". rewrite /block_move. wp_load.
  rewrite bool_decide_eq_true_2; [|done]. wp_store. by iApply "HΦ".
Qed.

Lemma wp_block_copy l m d s i j n (Φ : unit → hProp block) :
  (0 ≤ i)%Z → (0 ≤ j)%Z → (0 ≤ n)%Z →
  (i + n ≤ Z.of_nat (length d))%Z → (j + n ≤ Z.of_nat (length s))%Z →
  l ↦ d -∗ m ↦ s -∗
  (l ↦ copied d s (Z.to_nat i) (Z.to_nat j) (Z.to_nat n) -∗ m ↦ s -∗ Φ tt) -∗
  wp (block_copy (Some l) i (Some m) j n) Φ.
Proof.
  iIntros (?????) "Hl Hm HΦ". rewrite /block_copy. wp_load. wp_load.
  iDestruct (pointsto_ne with "Hl Hm") as %?.
  rewrite bool_decide_eq_false_2; [|congruence]. rewrite bool_decide_eq_true_2; [|done].
  wp_store. iApply ("HΦ" with "Hl Hm").
Qed.

Lemma block_get_outside l b i m :
  cells m !! l = Some b → (Z.of_nat (length b) ≤ i)%Z → block_get (Some l) i m = Err OutOfBounds.
Proof.
  intros Hl Hi. rewrite /block_get (bind_run _ _ _ _ _ (deref_run _ _ _ Hl)).
  apply bind_err. rewrite /aget. case_bool_decide; [|done]. by rewrite lookup_ge_None_2; [|lia].
Qed.

(** *** Blocks with a filled prefix *)

(** [xs] in front of cells that may hold anything. *)
Definition holding (xs : list value) (junk : block) : block := (Some <$> xs) ++ junk.

Lemma length_holding xs junk : length (holding xs junk) = length xs + length junk.
Proof. by rewrite length_app length_fmap. Qed.

Lemma holding_lookup xs junk i x : xs !! i = Some x → holding xs junk !! i = Some (Some x).
Proof. intros Hx. rewrite /holding lookup_app_l; [by rewrite list_lookup_fmap Hx|].
  rewrite length_fmap. by eapply lookup_lt_Some. Qed.

Lemma holding_insert xs junk i x :
  i < length xs → <[i := Some x]> (holding xs junk) = holding (<[i := x]> xs) junk.
Proof.
  intros Hi. rewrite /holding insert_app_l; [|by rewrite length_fmap].
  by rewrite list_fmap_insert.
Qed.

Lemma holding_grow xs junk n :
  (Z.of_nat (length (holding xs junk)) ≤ n)%Z →
  ∃ junk', resize (Z.to_nat n) None (holding xs junk) = holding xs junk' ∧
    Z.of_nat (length (holding xs junk')) = n.
Proof.
  intros Hn. exists (junk ++ replicate (Z.to_nat n - length (holding xs junk)) None).
  rewrite resize_ge; [|lia]. split; [by rewrite /holding assoc_L|].
  rewrite /holding !length_app length_replicate. rewrite /holding length_app in Hn |- *. lia.
Qed.

Lemma wp_holding_get l xs junk i x (Φ : value → hProp block) :
  (0 ≤ i)%Z → xs !! Z.to_nat i = Some x →
  l ↦ holding xs junk -∗ (l ↦ holding xs junk -∗ Φ x) -∗ wp (block_get (Some l) i) Φ.
Proof. intros Hi Hx. apply wp_block_get; [done|]. by apply holding_lookup. Qed.

Lemma wp_holding_set l xs junk i x (Φ : unit → hProp block) :
  (0 ≤ i < Z.of_nat (length xs))%Z →
  l ↦ holding xs junk -∗ (l ↦ holding (<[Z.to_nat i := x]> xs) junk -∗ Φ tt) -∗
  wp (block_set (Some l) i x) Φ.
Proof.
  iIntros (Hi) "Hl HΦ". iApply (wp_block_set with "Hl"); [rewrite length_holding; lia|].
  rewrite holding_insert; [done|lia].
Qed.

(** *** Opening and closing a gap *)
Lemma moved_gap (A B J : block) c x :
  <[length A := x]> (moved (A ++ B ++ c :: J) (length A + 1) (length A) (length B)) = A ++ x :: B ++ J.
Proof.
  rewrite /moved take_app_add drop_app_length take_app_length.
  rewrite -(Nat.add_assoc (length A)) drop_app_add (drop_app _ (c :: J)).
  rewrite drop_ge; [|lia]. rewrite Nat.add_sub /=.
  assert (∃ r, take 1 (B ++ c :: J) = [r]) as [r ->] by (destruct B; simpl; by eexists).
  by rewrite -assoc_L insert_app_r_alt // Nat.sub_diag.
Qed.

Lemma moved_close (A B C J : block) :
  ∃ J', moved (A ++ B ++ C ++ J) (length A) (length A + length B) (length C) = A ++ C ++ J' ∧
    length J' = length B + length J.
Proof.
  eexists. split.
  - rewrite /moved take_app_length drop_app_add drop_app_length take_app_length. done.
  - rewrite length_drop !length_app. lia.
Qed.

Lemma holding_gap xs c junk i x :
  i ≤ length xs →
  <[i := Some x]> (moved (holding xs (c :: junk)) (i + 1) i (length xs - i)) =
    holding (take i xs ++ x :: drop i xs) junk.
Proof.
  intros Hi. pose proof (moved_gap (Some <$> take i xs) (Some <$> drop i xs) junk c (Some x)) as Hm.
  rewrite !length_fmap length_take length_drop Nat.min_l // in Hm.
  rewrite assoc_L -fmap_app take_drop in Hm. rewrite /holding Hm fmap_app /=. by rewrite -assoc_L.
Qed.

Lemma holding_close xs junk i n :
  i + n ≤ length xs →
  ∃ junk', moved (holding xs junk) i (i + n) (length xs - (i + n)) =
    holding (take i xs ++ drop (i + n) xs) junk' ∧ length junk' = n + length junk.
Proof.
  intros Hi. destruct (moved_close (Some <$> take i xs) (Some <$> take n (drop i xs))
    (Some <$> drop (i + n) xs) junk) as (junk' & Hm & Hlen).
  rewrite !length_fmap !length_take !length_drop Nat.min_l in Hm, Hlen; [|lia..].
  exists junk'. split; [|lia].
  rewrite /holding fmap_app -assoc_L -Hm. f_equal; [|lia].
  rewrite !assoc_L -!fmap_app -(drop_drop xs n i) -assoc_L !take_drop. done.
Qed.

(** *** Copies, cell by cell *)
Lemma length_copied (d s : block) i j n :
  i + n ≤ length d → j + n ≤ length s → length (copied d s i j n) = length d.
Proof. intros. rewrite /copied !length_app !length_take !length_drop. lia. Qed.

Lemma lookup_copied (d s : block) i j n p :
  i + n ≤ length d → j + n ≤ length s →
  copied d s i j n !! p = if decide (i ≤ p < i + n) then s !! (p - i + j) else d !! p.
Proof.
  intros Hd Hs. rewrite /copied.
  assert (length (take i d) = i) as H1 by (rewrite length_take; lia).
  assert (length (take n (drop j s)) = n) as H2 by (rewrite length_take length_drop; lia).
  case_decide as Hp.
  - rewrite lookup_app_r; [|lia]. rewrite lookup_app_l; [|lia].
    rewrite lookup_take_lt; [|lia]. rewrite lookup_drop. f_equal. lia.
  - destruct (decide (p < i)).
    + rewrite lookup_app_l; [|lia]. by rewrite lookup_take_lt.
    + rewrite lookup_app_r; [|lia]. rewrite lookup_app_r; [|lia]. rewrite lookup_drop. f_equal. lia.
Qed.
