(* ===== verification/ArrayList.v ===== *)
(** * ArrayList: arraylist.c

    The automatically growing array: one block from malloc, of which the first
    [al_length] elements are in use.  The operations are shown to be the list
    operations insert, delete range, search, clear and sort. *)
From stdpp Require Import base gmap list numbers sorting.
From iris.proofmode Require Import proofmode.
From S2P Require Import Prelude Memory Compare Blocks.

(** [struct _ArrayList]. *)
Record ArrayList := { al_data : ptr; al_length : Z; al_alloced : Z }.

Definition set_length (n : Z) (al : ArrayList) : ArrayList :=
  {| al_data := al_data al; al_length := n; al_alloced := al_alloced al |}.

Section arraylist_c.
Context `{Allocator block}.

Definition arraylist_new (length : Z) : M block (option ArrayList) :=
  let length := if bool_decide (length ≤ 0)%Z then 16%Z else length in
  granted ← malloc_array;
  if negb granted then mret None
  else
    p ← block_malloc length;
    match p with
    | NULL => mret None
    | Some _ => mret (Some {| al_data := p; al_length := 0; al_alloced := length |})
    end.

(** [None] is the null pointer. *)
Definition arraylist_free (al : option ArrayList) : M block unit :=
  match al with
  | None => mret tt
  | Some al => free (al_data al)
  end.

Definition arraylist_enlarge (al : ArrayList) : M block (bool * ArrayList) :=
  newsize ← chk (al_alloced al * 2)%Z;
  data ← block_realloc (al_data al) newsize;
  match data with
  | NULL => mret (false, al)
  | Some _ => mret (true, {| al_data := data; al_length := al_length al; al_alloced := newsize |})
  end.

Definition arraylist_insert (al : ArrayList) (index : Z) (data : value) :
    M block (Z * ArrayList) :=
  if bool_decide (index < 0 ∨ index > al_length al)%Z then mret (0%Z, al)
  else
    needed ← chk (al_length al + 1)%Z;
    '(ok, al) ← (if bool_decide (needed > al_alloced al)%Z then arraylist_enlarge al
                 else mret (true, al));
    if negb ok then mret (0%Z, al)
    else
      _ ← block_move (al_data al) (index + 1) index (al_length al - index);
      _ ← block_set (al_data al) index data;
      length ← chk (al_length al + 1)%Z;
      mret (1%Z, set_length length al).

Definition arraylist_append (al : ArrayList) (data : value) : M block (Z * ArrayList) :=
  arraylist_insert al (al_length al) data.

Definition arraylist_prepend (al : ArrayList) (data : value) : M block (Z * ArrayList) :=
  arraylist_insert al 0 data.

Definition arraylist_remove_range (al : ArrayList) (index length : Z) : M block ArrayList :=
  if bool_decide (index < 0)%Z || bool_decide (length < 0)%Z then mret al
  else
    last ← chk (index + length)%Z;
    if bool_decide (last > al_length al)%Z then mret al
    else
      _ ← block_move (al_data al) index last (al_length al - last);
      length ← chk (al_length al - length)%Z;
      mret (set_length length al).

Definition arraylist_remove (al : ArrayList) (index : Z) : M block ArrayList :=
  arraylist_remove_range al index 1.

(** The [for] loop, with as many rounds as elements. *)
Definition arraylist_index_of (al : ArrayList) (callback : value → value → Z) (data : value) :
    M block Z :=
  loop (S (Z.to_nat (al_length al))) (λ i,
    if bool_decide (i < al_length al)%Z then
      x ← block_get (al_data al) i;
      if bool_decide (callback x data ≠ 0)%Z then mret (inr i)
      else i ← chk (i + 1)%Z; mret (inl i)
    else mret (inr (-1)%Z)) 0%Z.

Definition arraylist_clear (al : ArrayList) : ArrayList := set_length 0 al.

(** One round of the partition loop; [base] is the offset of [list_data] in the
    array, the state is [list1_length]. *)
Definition arraylist_partition (data : ptr) (base : Z) (compare_func : value → value → Z)
    (pivot : value) (i list1_length : Z) : M block Z :=
  x ← block_get data (base + i);
  if bool_decide (compare_func x pivot < 0)%Z then
    tmp ← block_get data (base + i);
    y ← block_get data (base + list1_length);
    _ ← block_set data (base + i) y;
    _ ← block_set data (base + list1_length) tmp;
    chk (list1_length + 1)%Z
  else mret list1_length.

Fixpoint arraylist_sort_internal (fuel : nat) (data : ptr) (base list_length : Z)
    (compare_func : value → value → Z) : M block unit :=
  match fuel with
  | O => fail OutOfFuel
  | S fuel =>
      if bool_decide (list_length <= 1)%Z then mret tt
      else
        pivot ← block_get data (base + (list_length - 1));
        list1_length ← for_loop (Z.to_nat (list_length - 1)) 0
                         (arraylist_partition data base compare_func pivot) 0%Z;
        list2_length ← chk (list_length - list1_length - 1)%Z;
        x ← block_get data (base + list1_length);
        _ ← block_set data (base + (list_length - 1)) x;
        _ ← block_set data (base + list1_length) pivot;
        _ ← arraylist_sort_internal fuel data base list1_length compare_func;
        arraylist_sort_internal fuel data (base + (list1_length + 1)) list2_length compare_func
  end.

Definition arraylist_sort (fuel : nat) (al : ArrayList) (compare_func : value → value → Z) :
    M block unit :=
  arraylist_sort_internal fuel (al_data al) 0 (al_length al) compare_func.
End arraylist_c.

(** ** Representation *)

Section proofs.
Context `{Allocator block}.
Implicit Types xs : list value.

(** The array list [al] holds [xs]. *)
Definition arraylist (al : ArrayList) xs : hProp block :=
  ∃ l junk, ⌈ al_data al = Some l ∧ al_length al = Z.of_nat (length xs) ∧
              al_alloced al = Z.of_nat (length (holding xs junk)) ∧ (0 < al_alloced al)%Z ⌉ ∗
            l ↦ holding xs junk.

Lemma arraylist_new_spec n :
  {{ emp }} arraylist_new n
  {{ r, match r with
        | None => ⌈ can_fail ⌉
        | Some al => arraylist al [] ∗ ⌈ al_alloced al = if bool_decide (n ≤ 0)%Z then 16%Z else n ⌉
        end }}.
Proof.
  apply triple_wp. iIntros "_". rewrite /arraylist_new.
  wp_malloc_array; [|wp_pures; done].
  set (m := if bool_decide (n ≤ 0)%Z then 16%Z else n).
  assert (0 < m)%Z by (subst m; case_bool_decide; lia).
  wp_bind. iApply wp_block_malloc. iIntros ([l|]) "Hl"; wp_pures; [|done].
  iSplit; [|done]. iExists l, (replicate (Z.to_nat m) None). iFrame. iPureIntro.
  rewrite /holding /= length_replicate. split_and!; [done|done|lia|done].
Qed.

Lemma arraylist_free_spec al xs :
  {{ arraylist al xs }} arraylist_free (Some al) {{ _, emp }}.
Proof.
  apply triple_wp. iIntros "(%l & %junk & %Hal & Hl)".
  destruct Hal as (Hd & _). rewrite /arraylist_free Hd. wp_free. done.
Qed.

(** *** Insertion and deletion *)
Lemma arraylist_intro al xs l junk :
  al_data al = Some l → al_length al = Z.of_nat (length xs) →
  al_alloced al = Z.of_nat (length (holding xs junk)) → (0 < al_alloced al)%Z →
  l ↦ holding xs junk ⊢ arraylist al xs.
Proof. iIntros (????) "Hl". iExists l, junk. by iFrame. Qed.

(** The capacity after an insertion: doubled when the array was full. *)
Definition grown (al al' : ArrayList) xs : Prop :=
  al_alloced al' = if bool_decide (Z.of_nat (length xs) = al_alloced al) then (al_alloced al * 2)%Z
                   else al_alloced al.

Lemma arraylist_enlarge_spec al xs :
  (al_alloced al * 2 ≤ INT_MAX)%Z →
  {{ arraylist al xs }} arraylist_enlarge al
  {{ r, if r.1 then ⌈ al_alloced r.2 = (al_alloced al * 2)%Z ⌉ ∗ arraylist r.2 xs
        else ⌈ can_fail ⌉ ∗ ⌈ r.2 = al ⌉ ∗ arraylist al xs }}.
Proof.
  intros Hmax. apply triple_wp. iIntros "(%l & %junk & %Hal & Hl)".
  destruct Hal as (Hd & Hlen & Hcap & Hpos). rewrite /arraylist_enlarge Hd.
  wp_chk. wp_bind. iApply (wp_block_realloc with "Hl"). iIntros ([q|]) "Hq"; wp_pures.
  - destruct (holding_grow xs junk (al_alloced al * 2)) as (junk' & Hr & Hn); [lia|].
    rewrite Hr. iSplit; [done|]. iApply (arraylist_intro with "Hq"); simpl; [done..|lia|lia].
  - iDestruct "Hq" as "[$ Hl]". iSplit; [done|]. by iApply (arraylist_intro with "Hl").
Qed.

(** [arraylist_insert] puts the value at the index, moving the rest up and
    doubling the block when it is full.  It fails, changing nothing, when the
    index is outside the list or the larger block is refused. *)
Theorem arraylist_insert_correct al xs index data :
  (al_alloced al * 2 ≤ INT_MAX)%Z →
  {{ arraylist al xs }} arraylist_insert al index data
  {{ r, (⌈ r.1 = 1%Z ⌉ ∗ ⌈ 0 ≤ index ≤ Z.of_nat (length xs) ⌉%Z ∗ ⌈ grown al r.2 xs ⌉ ∗
         arraylist r.2 (take (Z.to_nat index) xs ++ data :: drop (Z.to_nat index) xs)) ∨
        (⌈ r.1 = 0%Z ⌉ ∗ ⌈ r.2 = al ⌉ ∗
         ⌈ ¬ (0 ≤ index ≤ Z.of_nat (length xs))%Z ∨
           can_fail ∧ Z.of_nat (length xs) = al_alloced al ⌉ ∗ arraylist al xs) }}.
Proof.
  intros Hmax. apply triple_wp. iIntros "H". rewrite /arraylist_insert.
  iAssert ⌜al_length al = Z.of_nat (length xs) ∧ (al_length al ≤ al_alloced al)%Z ∧
    (0 < al_alloced al)%Z⌝%I as %(Hlen & Hle & Hpos).
  { iDestruct "H" as "(%l & %junk & %Hal & _)". iPureIntro. rewrite length_holding in Hal. lia. }
  case_bool_decide as Hidx.
  { wp_pures. iRight. ipures. done. }
  wp_chk. iApply wp_bind.
  iApply (wp_wand _ (λ r : bool * ArrayList, if r.1
    then ⌈ grown al r.2 xs ⌉ ∗ ⌈ Z.of_nat (length xs) < al_alloced r.2 ⌉%Z ∗ arraylist r.2 xs
    else ⌈ can_fail ∧ Z.of_nat (length xs) = al_alloced al ⌉ ∗ ⌈ r.2 = al ⌉ ∗ arraylist al xs)%I
    with "[H]").
  { rewrite /grown. case_bool_decide as Hfull.
    - iApply (triple_use with "H"); [by apply arraylist_enlarge_spec|].
      iIntros ([[] al']) "H"; simpl.
      + iDestruct "H" as "[%Hal H]". iFrame. rewrite Hal bool_decide_eq_true_2; [|lia].
        iSplit; [done|]. iPureIntro. lia.
      + iDestruct "H" as "(%Hcan & -> & H)". iFrame. iPureIntro. split; [split; [done|lia]|done].
    - wp_pures. rewrite bool_decide_eq_false_2; [|lia]. iFrame. iSplit; [done|]. iPureIntro. simpl. lia. }
  iIntros ([[] al']) "H"; simpl; last first.
  { iDestruct "H" as "(%Hcan & -> & H)". wp_pures. iRight. ipures. done. }
  iDestruct "H" as "(%Hg & %Hroom & %l & %junk & %Hal & Hl)". destruct Hal as (Hd & Hlen' & Hcap & Hpos').
  rewrite length_holding in Hcap. destruct junk as [|c junk]; [simpl in Hcap; lia|].
  rewrite Hd. wp_bind. iApply (wp_block_move with "Hl"); [lia|lia|lia| | |];
    [rewrite length_holding; simpl in *; lia..|]. iIntros "Hl". wp_bind.
  replace (Z.to_nat (index + 1)) with (Z.to_nat index + 1) by lia.
  replace (Z.to_nat (al_length al' - index)) with (length xs - Z.to_nat index) by lia.
  iApply (wp_block_set with "Hl").
  { rewrite /moved !length_app !length_take !length_drop length_holding. simpl. lia. }
  rewrite holding_gap; [|lia]. iIntros "Hl". wp_chk. wp_pures. iLeft. ipures.
  assert (length (take (Z.to_nat index) xs ++ data :: drop (Z.to_nat index) xs) = S (length xs)) as Hs.
  { rewrite length_app /= -Nat.add_succ_comm /= -length_app take_drop. done. }
  iApply (arraylist_intro with "Hl"); simpl; [done| |rewrite length_holding; simpl in Hcap; lia|done].
  rewrite Hs. lia.
Qed.

(** The range is inside the list. *)
Definition in_range (index len : Z) xs : bool :=
  bool_decide (0 ≤ index ∧ 0 ≤ len ∧ index + len ≤ Z.of_nat (length xs))%Z.

(** [arraylist_remove_range] deletes the range when it lies inside the list and
    changes nothing otherwise, provided the end of the range is an [int]. *)
Theorem arraylist_remove_range_correct al xs index len :
  (index < 0 ∨ len < 0 ∨ index + len ≤ INT_MAX)%Z → (Z.of_nat (length xs) ≤ INT_MAX)%Z →
  {{ arraylist al xs }} arraylist_remove_range al index len
  {{ al', if in_range index len xs
          then ⌈ al_alloced al' = al_alloced al ⌉ ∗
               arraylist al' (take (Z.to_nat index) xs ++ drop (Z.to_nat index + Z.to_nat len) xs)
          else ⌈ al' = al ⌉ ∗ arraylist al xs }}.
Proof.
  intros Hover Hmax. apply triple_wp. iIntros "H".
  rewrite /arraylist_remove_range /in_range.
  case_bool_decide as H1; simpl; [wp_pures; rewrite bool_decide_eq_false_2; [by iFrame|lia]|].
  case_bool_decide as H2; simpl; [wp_pures; rewrite bool_decide_eq_false_2; [by iFrame|lia]|].
  iDestruct "H" as "(%l & %junk & %Hal & Hl)". destruct Hal as (Hd & Hlen & Hcap & Hpos).
  wp_chk. case_bool_decide as H3.
  { wp_pures. rewrite bool_decide_eq_false_2; [|lia]. iSplit; [done|].
    by iApply (arraylist_intro with "Hl"). }
  rewrite bool_decide_eq_true_2; [|lia]. rewrite length_holding in Hcap.
  rewrite Hd. wp_bind. iApply (wp_block_move with "Hl"); [lia|lia|lia|rewrite length_holding; lia..|].
  iIntros "Hl". wp_chk. wp_pures.
  destruct (holding_close xs junk (Z.to_nat index) (Z.to_nat len)) as (junk' & Hm & Hj); [lia|].
  replace (Z.to_nat (index + len)) with (Z.to_nat index + Z.to_nat len) by lia.
  replace (Z.to_nat (al_length al - (index + len))) with
    (length xs - (Z.to_nat index + Z.to_nat len)) by lia.
  rewrite Hm. iSplit; [done|]. iApply (arraylist_intro with "Hl"); simpl; try done.
  - rewrite length_app length_take length_drop. lia.
  - rewrite length_holding length_app length_take length_drop. lia.
Qed.

(** *** Search *)

(** The index of the first accepted element. *)
Fixpoint first_index (P : value → Z) xs (i : Z) : Z :=
  match xs with
  | [] => -1
  | x :: xs => if bool_decide (P x ≠ 0)%Z then i else first_index P xs (i + 1)
  end.

Lemma index_of_loop fuel al l pre xs junk (callback : value → value → Z) data :
  al_data al = Some l → al_length al = Z.of_nat (length (pre ++ xs)) →
  (al_length al ≤ INT_MAX)%Z → length xs < fuel →
  {{ l ↦ holding (pre ++ xs) junk }}
    loop fuel (λ i,
      if bool_decide (i < al_length al)%Z then
        x ← block_get (al_data al) i;
        if bool_decide (callback x data ≠ 0)%Z then mret (inr i)
        else i ← chk (i + 1)%Z; mret (inl i)
      else mret (inr (-1)%Z)) (Z.of_nat (length pre))
  {{ r, ⌈ r = first_index (λ x, callback x data) xs (Z.of_nat (length pre)) ⌉ ∗
        l ↦ holding (pre ++ xs) junk }}.
Proof.
  intros Hd Hlen Hmax. revert fuel pre Hlen.
  induction xs as [|x xs IH]; intros [|fuel] pre Hlen Hf; simpl in Hf; try lia;
    apply triple_wp; iIntros "Hl"; wp_loop; rewrite length_app /= in Hlen.
  { rewrite bool_decide_eq_false_2; [|lia]. wp_pures. by iFrame. }
  rewrite bool_decide_eq_true_2; [|lia]. rewrite Hd. wp_bind.
  iApply (wp_holding_get with "Hl"); [lia|by rewrite Nat2Z.id list_lookup_middle|].
  iIntros "Hl". case_bool_decide as Hx; [wp_pures; by iFrame|]. wp_chk. wp_pures.
  specialize (IH fuel (pre ++ [x])). rewrite -assoc_L /= Hd in IH.
  replace (Z.of_nat (length pre) + 1)%Z with (Z.of_nat (length (pre ++ [x])))
    by (rewrite length_app /=; lia).
  iApply (triple_use with "Hl"); [apply IH; [rewrite length_app /=; lia|lia]|]. by iIntros.
Qed.

(** [arraylist_index_of] returns the index of the first accepted element, or -1. *)
Theorem arraylist_index_of_correct al xs callback data :
  (Z.of_nat (length xs) ≤ INT_MAX)%Z →
  {{ arraylist al xs }} arraylist_index_of al callback data
  {{ r, ⌈ r = first_index (λ x, callback x data) xs 0 ⌉ ∗ arraylist al xs }}.
Proof.
  intros Hmax. apply triple_wp. iIntros "(%l & %junk & %Hal & Hl)".
  destruct Hal as (Hd & Hlen & Hcap & Hpos). rewrite /arraylist_index_of.
  iApply (triple_use with "Hl"); [apply (index_of_loop _ al l [] xs junk); try done; lia|].
  iIntros (r) "[-> Hl]". iSplit; [done|]. by iApply (arraylist_intro with "Hl").
Qed.

(** *** Sorting *)

Section sorting.
Context (cmp : value → value → Z) `{!CompareFunc cmp}.
Implicit Types less more rest P Q : list value.

Lemma seg_lookup P xs Q i :
  i < length xs → (P ++ xs ++ Q) !! (length P + i) = xs !! i.
Proof.
  intros Hi. rewrite lookup_app_r; [|lia]. rewrite Nat.add_sub' lookup_app_l; [done|lia].
Qed.

Lemma wp_seg_get l P xs Q junk (i : nat) x (Φ : value → hProp block) :
  xs !! i = Some x →
  l ↦ holding (P ++ xs ++ Q) junk -∗ (l ↦ holding (P ++ xs ++ Q) junk -∗ Φ x) -∗
  wp (block_get (Some l) (Z.of_nat (length P) + Z.of_nat i)) Φ.
Proof.
  intros Hx. apply wp_holding_get; [lia|]. rewrite -Nat2Z.inj_add Nat2Z.id seg_lookup //.
  by eapply lookup_lt_Some.
Qed.

Lemma wp_seg_set l P xs Q junk (i : nat) x (Φ : unit → hProp block) :
  i < length xs →
  l ↦ holding (P ++ xs ++ Q) junk -∗ (l ↦ holding (P ++ <[i := x]> xs ++ Q) junk -∗ Φ tt) -∗
  wp (block_set (Some l) (Z.of_nat (length P) + Z.of_nat i) x) Φ.
Proof.
  iIntros (Hi) "Hl HΦ". iApply (wp_holding_set with "Hl"); [rewrite !length_app; lia|].
  rewrite -Nat2Z.inj_add Nat2Z.id insert_app_r insert_app_l //.
Qed.

(** Exchanging [x] with the first element after [less]. *)
Lemma swap_first less more x rest :
  ∃ y more', (less ++ more ++ x :: rest) !! length less = Some y ∧ more' ≡ₚ more ∧
    <[length less := x]> (<[length less + length more := y]> (less ++ more ++ x :: rest)) =
      less ++ x :: more' ++ rest.
Proof.
  destruct more as [|y more].
  - exists x, []. rewrite list_lookup_middle // Nat.add_0_r /=. split_and!; [done|done|].
    by rewrite !list_insert_id // ?list_lookup_middle.
  - exists y, (more ++ [y]). split_and!.
    + by rewrite list_lookup_middle.
    + by rewrite Permutation_app_comm.
    + rewrite insert_app_r /=. rewrite (insert_app_r_alt less _ (length less)) // Nat.sub_diag /=.
      do 2 f_equal. rewrite insert_app_r_alt // Nat.sub_diag /=. by rewrite -assoc_L.
Qed.

(** What the loop has established: elements below the pivot first. *)
Definition split (p : value) less more : Prop :=
  Forall (λ x, cmp x p < 0)%Z less ∧ Forall (λ x, ¬ cmp x p < 0)%Z more.

Lemma partition_spec l P Q junk p less more rest :
  (Z.of_nat (length (less ++ more ++ rest)) < INT_MAX)%Z → split p less more →
  {{ l ↦ holding (P ++ (less ++ more ++ rest ++ [p]) ++ Q) junk }}
    for_loop (length rest) (Z.of_nat (length less + length more))
      (arraylist_partition (Some l) (Z.of_nat (length P)) cmp p) (Z.of_nat (length less))
  {{ r, ∃ less' more', ⌈ r = Z.of_nat (length less') ⌉ ∗ ⌈ split p less' more' ⌉ ∗
        ⌈ less' ++ more' ≡ₚ less ++ more ++ rest ⌉ ∗
        l ↦ holding (P ++ (less' ++ more' ++ [p]) ++ Q) junk }}.
Proof.
  revert less more. induction rest as [|x rest IH]; intros less more Hmax Hs; apply triple_wp;
    iIntros "Hl"; simpl for_loop.
  { wp_pures. iExists less, more. rewrite right_id_L. ipures. done. }
  rewrite /arraylist_partition. rewrite -/(arraylist_partition _ _ _ _).
  assert ((less ++ more ++ (x :: rest) ++ [p]) !! (length less + length more) = Some x) as Hx.
  { rewrite assoc_L -length_app. by apply list_lookup_middle. }
  assert (length less + length more < length (less ++ more ++ (x :: rest) ++ [p])) as Hlt
    by by eapply lookup_lt_Some.
  wp_bind. iApply (wp_seg_get with "Hl"); [done|]. iIntros "Hl". case_bool_decide as Hc.
  - wp_bind. iApply (wp_seg_get with "Hl"); [done|]. iIntros "Hl".
    destruct (swap_first less more x (rest ++ [p])) as (y & more' & Hy & Hp & Hswap).
    wp_bind. iApply (wp_seg_get with "Hl"); [done|]. iIntros "Hl".
    wp_bind. iApply (wp_seg_set with "Hl"); [done|]. iIntros "Hl".
    wp_bind. iApply (wp_seg_set with "Hl"); [rewrite length_insert; lia|]. iIntros "Hl".
    rewrite Hswap. wp_chk; [rewrite length_app in Hmax; int_tac|].
    pose proof (Permutation_length Hp) as Hlen. destruct Hs as [Hsl Hsm].
    replace (Z.of_nat (length less) + 1)%Z with (Z.of_nat (length (less ++ [x])))
      by (rewrite length_app /=; lia).
    replace (Z.of_nat (length less + length more) + 1)%Z
      with (Z.of_nat (length (less ++ [x]) + length more')) by (rewrite length_app /=; lia).
    rewrite (_ : less ++ x :: more' ++ rest ++ [p] = (less ++ [x]) ++ more' ++ rest ++ [p]);
      [|by rewrite -assoc_L].
    iApply (triple_use with "Hl"); [apply IH|].
    { rewrite !length_app /= in Hmax |- *. lia. }
    { split; [apply Forall_app; by split; [|constructor]|by rewrite Hp]. }
    iIntros (r) "(%less' & %more'' & -> & %Hs & %Hperm & Hl)". iExists less', more''. ipures.
    iSplit; [iPureIntro|done]. rewrite Hperm Hp -!assoc_L /=. by rewrite Permutation_middle.
  - wp_pures. destruct Hs as [Hsl Hsm].
    replace (Z.of_nat (length less + length more) + 1)%Z
      with (Z.of_nat (length less + length (more ++ [x]))) by (rewrite length_app /=; lia).
    rewrite (_ : less ++ more ++ x :: rest ++ [p] = less ++ (more ++ [x]) ++ rest ++ [p]);
      [|by rewrite -assoc_L].
    iApply (triple_use with "Hl"); [apply IH|].
    { rewrite !length_app /= in Hmax |- *. lia. }
    { split; [done|]. apply Forall_app; by split; [|constructor]. }
    iIntros (r) "(%less' & %more'' & -> & %Hs & %Hperm & Hl)". iExists less', more''. ipures.
    iSplit; [iPureIntro|done]. rewrite Hperm. by rewrite -!assoc_L.
Qed.

Lemma split_sorted p less more less' more' :
  split p less more → less' ≡ₚ less → more' ≡ₚ more →
  StronglySorted (cmp_le cmp) less' → StronglySorted (cmp_le cmp) more' →
  StronglySorted (cmp_le cmp) (less' ++ p :: more').
Proof.
  intros [Hl Hm] Pl Pm Sl Sm. apply StronglySorted_pivot; [apply _|done|done|..].
  - rewrite Pl. eapply Forall_impl; [exact Hl|]. intros x Hx. rewrite /cmp_le /=. simpl in Hx. lia.
  - rewrite Pm. eapply Forall_impl; [exact Hm|]. intros x Hx. simpl in Hx. apply cmp_flip_le; [done|]. lia.
Qed.

Lemma arraylist_sort_internal_spec fuel l P xs Q junk :
  length xs < fuel → (Z.of_nat (length xs) ≤ INT_MAX)%Z →
  {{ l ↦ holding (P ++ xs ++ Q) junk }}
    arraylist_sort_internal fuel (Some l) (Z.of_nat (length P)) (Z.of_nat (length xs)) cmp
  {{ _, ∃ ys, ⌈ ys ≡ₚ xs ⌉ ∗ ⌈ StronglySorted (cmp_le cmp) ys ⌉ ∗ l ↦ holding (P ++ ys ++ Q) junk }}.
Proof.
  revert P xs Q. induction fuel as [|fuel IH]; intros P xs Q Hf Hmax; [lia|].
  apply triple_wp; iIntros "Hl"; simpl. case_bool_decide as Hshort.
  { wp_pures. iExists xs. ipures. iSplit; [iPureIntro|done].
    destruct xs as [|? [|]]; [by repeat constructor..|simpl in Hshort; lia]. }
  destruct xs as [|p front _] using rev_ind; [simpl in Hshort; lia|].
  rewrite length_app /= in Hf Hmax Hshort |- *.
  replace (Z.of_nat (length front + 1) - 1)%Z with (Z.of_nat (length front)) by lia.
  wp_bind. iApply (wp_seg_get with "Hl"); [by apply list_lookup_middle|]. iIntros "Hl".
  rewrite Nat2Z.id. wp_bind.
  iApply (triple_use with "Hl"); [apply (partition_spec l P Q junk p [] [] front);
    [simpl; lia|by split]|].
  iIntros (r) "(%less & %more & -> & %Hs & %Hp & Hl)". simpl in Hp.
  pose proof (Permutation_length Hp) as Hlen. rewrite length_app in Hlen.
  wp_chk. destruct (swap_first less more p []) as (y & more' & Hy & Hpm & Hswap).
  pose proof (Permutation_length Hpm) as Hlm.
  wp_bind. iApply (wp_seg_get with "Hl"); [done|]. iIntros "Hl". wp_bind.
  replace (Z.of_nat (length front)) with (Z.of_nat (length less + length more)) by lia.
  iApply (wp_seg_set with "Hl"); [rewrite !length_app /=; lia|]. iIntros "Hl". wp_bind.
  iApply (wp_seg_set with "Hl"); [rewrite length_insert !length_app /=; lia|]. iIntros "Hl".
  rewrite Hswap right_id_L -assoc_L /=. wp_bind.
  iApply (triple_use with "Hl"); [apply IH; lia|]. iIntros (_) "(%less' & %Hpl & %Hsl & Hl)".
  pose proof (Permutation_length Hpl) as Hll.
  replace (Z.of_nat (length P) + (Z.of_nat (length less) + 1))%Z
    with (Z.of_nat (length (P ++ less' ++ [p]))) by (rewrite !length_app /=; lia).
  replace (Z.of_nat (length front + 1) - Z.of_nat (length less) - 1)%Z
    with (Z.of_nat (length more')) by lia.
  rewrite (_ : P ++ less' ++ p :: more' ++ Q = (P ++ less' ++ [p]) ++ more' ++ Q);
    [|by rewrite -!assoc_L].
  iApply (triple_use with "Hl"); [apply IH; lia|]. iIntros (_) "(%ys & %Hpy & %Hsy & Hl)".
  iExists (less' ++ p :: ys). rewrite -!assoc_L /=. iSplit; [iPureIntro|iSplit; [iPureIntro|done]].
  - rewrite Hpl Hpy Hpm -Permutation_middle -Hp. by rewrite Permutation_cons_append.
  - eapply split_sorted; [exact Hs|done|by rewrite Hpy|done|done].
Qed.

(** C34. [arraylist_sort] permutes the elements in place and sorts them. *)
Theorem arraylist_sort_correct fuel al xs :
  length xs < fuel → (Z.of_nat (length xs) ≤ INT_MAX)%Z →
  {{ arraylist al xs }} arraylist_sort fuel al cmp
  {{ _, ∃ ys, ⌈ ys ≡ₚ xs ⌉ ∗ ⌈ StronglySorted (cmp_le cmp) ys ⌉ ∗ arraylist al ys }}.
Proof.
  intros Hf Hmax. apply triple_wp. iIntros "(%l & %junk & %Hal & Hl)".
  destruct Hal as (Hd & Hlen & Hcap & Hpos). rewrite /arraylist_sort Hd Hlen.
  pose proof (arraylist_sort_internal_spec fuel l [] xs [] junk Hf Hmax) as Hs.
  rewrite right_id_L in Hs. iApply (triple_use with "Hl"); [exact Hs|].
  iIntros (_) "(%ys & %Hp & %Hsort & Hl)". iExists ys. ipures. rewrite right_id_L /=.
  pose proof (Permutation_length Hp) as Hpl.
  iApply (arraylist_intro with "Hl"); [done|by rewrite Hpl| |done].
  rewrite Hcap !length_holding Hpl. done.
Qed.
End sorting.
End proofs.

(** The end of a range is computed before it is compared: a huge length does
    not make [arraylist_remove_range] return, it overflows. *)
Theorem arraylist_remove_range_overflow `{Allocator block} al index len m :
  (0 ≤ index)%Z → (0 ≤ len)%Z → (INT_MAX < index + len)%Z →
  arraylist_remove_range al index len m = Err IntOverflow.
Proof.
  intros Hi Hl Hover. rewrite /arraylist_remove_range.
  rewrite !bool_decide_eq_false_2; [|lia..]. simpl.
  rewrite /mbind /M_bind /chk /int_ok bool_decide_eq_false_2; [done|lia].
Qed.

(** ** Runs on concrete arrays *)

Module Runs.
#[local] Instance alloc : Allocator block := total_alloc [].

Definition three : list value := [30; 10; 20]%Z.
Definition al3 : ArrayList := {| al_data := Some 1%positive; al_length := 3; al_alloced := 4 |}.
Definition heap3 : gmap loc block := {[1%positive := holding three [None]]}.

#[local] Instance sub_compare : CompareFunc Z.sub.
Proof. split; intros; lia. Qed.

Lemma al3_holds : holds (arraylist al3 three) heap3.
Proof. by eapply holds_mono; [apply (arraylist_intro al3 three 1%positive [None])|]. Qed.

Lemma arraylist_insert_correct_witness :
  ∃ al h t, arraylist_insert al3 1 40 (Mem heap3 0) = Ok ((1%Z, al), Mem h t) ∧
    h !! 1%positive = Some (Some <$> [30; 40; 10; 20]%Z).
Proof.
  destruct (triple_run _ _ _ heap3 0 (arraylist_insert_correct al3 three 1 40 ltac:(by vm_compute))
    al3_holds) as ([r al] & h & t & E & _).
  exists al, h, t. revert E. vm_compute. intros [= <- <- <- <-]. by split.
Defined.

Lemma arraylist_remove_range_correct_witness :
  ∃ al h t, arraylist_remove_range al3 0 2 (Mem heap3 0) = Ok (al, Mem h t) ∧ al_length al = 1%Z.
Proof.
  destruct (triple_run _ _ _ heap3 0 (arraylist_remove_range_correct al3 three 0 2
    ltac:(by right; right) ltac:(by vm_compute)) al3_holds) as (al & h & t & E & _).
  exists al, h, t. revert E. vm_compute. intros [= <- <- <-]. by split.
Defined.

Lemma arraylist_index_of_correct_witness :
  ∃ h t, arraylist_index_of al3 (λ x y, if bool_decide (x = y) then 1 else 0)%Z 20 (Mem heap3 0) =
    Ok (2%Z, Mem h t).
Proof.
  destruct (triple_run _ _ _ heap3 0 (arraylist_index_of_correct al3 three
    (λ x y, if bool_decide (x = y) then 1 else 0)%Z 20 ltac:(by vm_compute)) al3_holds)
    as (r & h & t & E & _).
  exists h, t. revert E. vm_compute. by intros [= <- <- <-].
Defined.

Lemma arraylist_sort_correct_witness :
  ∃ h t, arraylist_sort 4 al3 Z.sub (Mem heap3 0) = Ok (tt, Mem h t) ∧
    h !! 1%positive = Some (holding [10; 20; 30]%Z [None]).
Proof.
  destruct (triple_run _ _ _ heap3 0 (arraylist_sort_correct Z.sub 4 al3 three
    ltac:(by vm_compute; lia) ltac:(by vm_compute)) al3_holds) as ([] & h & t & E & _).
  exists h, t. revert E. vm_compute. intros [= <- <-]. by split.
Defined.

Lemma arraylist_remove_range_overflow_witness :
  arraylist_remove_range al3 1 INT_MAX (Mem heap3 0) = Err IntOverflow.
Proof. apply arraylist_remove_range_overflow; by vm_compute. Defined.
End Runs.
