(* ===== verification/BinaryHeap.v ===== *)
(** * BinaryHeap: binary-heap.c

    The priority queue on an array: [binary_heap_insert] moves a hole up to the
    place of the new value, [binary_heap_pop] moves a hole down from the top.
    Both are shown to keep the heap order and the values, and pop to return a
    least value for the order of the heap. *)
From stdpp Require Import base gmap list numbers sorting.
From iris.proofmode Require Import proofmode.
From S2P Require Import Prelude Memory Compare Blocks.

(** [BinaryHeapType]. *)
Inductive BinaryHeapType : Set := BINARY_HEAP_TYPE_MIN | BINARY_HEAP_TYPE_MAX.

(** [struct _BinaryHeap]. *)
Record BinaryHeap := {
  heap_type : BinaryHeapType;
  values : ptr;
  num_values : Z;
  alloced_size : Z;
  compare_func : value → value → Z
}.

Definition set_values (p : ptr) (size : Z) (heap : BinaryHeap) : BinaryHeap :=
  {| heap_type := heap_type heap; values := p; num_values := num_values heap;
     alloced_size := size; compare_func := compare_func heap |}.
Definition set_num_values (n : Z) (heap : BinaryHeap) : BinaryHeap :=
  {| heap_type := heap_type heap; values := values heap; num_values := n;
     alloced_size := alloced_size heap; compare_func := compare_func heap |}.

Section binary_heap_c.
Context `{Allocator block}.

(** The negation of the smallest [int] overflows. *)
Definition binary_heap_cmp (heap : BinaryHeap) (data1 data2 : value) : M block Z :=
  match heap_type heap with
  | BINARY_HEAP_TYPE_MIN => mret (compare_func heap data1 data2)
  | BINARY_HEAP_TYPE_MAX => chk (- compare_func heap data1 data2)%Z
  end.

Definition binary_heap_new (heap_type : BinaryHeapType) (compare_func : value → value → Z) :
    M block (option BinaryHeap) :=
  granted ← malloc_array;
  if negb granted then mret None
  else
    p ← block_malloc 16;
    match p with
    | NULL => mret None
    | Some _ => mret (Some {| heap_type := heap_type; values := p; num_values := 0;
                              alloced_size := 16; compare_func := compare_func |})
    end.

Definition binary_heap_free (heap : BinaryHeap) : M block unit := free (values heap).

(** [while (index > 0)]: the final index. *)
Definition binary_heap_percolate_up (fuel : nat) (heap : BinaryHeap) (v : value) :
    Z → M block Z :=
  loop fuel (λ index,
    if bool_decide (index > 0)%Z then
      let parent := ((index - 1) ÷ 2)%Z in
      x ← block_get (values heap) parent;
      c ← binary_heap_cmp heap x v;
      if bool_decide (c < 0)%Z then mret (inr index)
      else
        x ← block_get (values heap) parent;
        _ ← block_set (values heap) index x;
        mret (inl parent)
    else mret (inr index)).

Definition binary_heap_insert (fuel : nat) (heap : BinaryHeap) (v : value) :
    M block (Z * BinaryHeap) :=
  '(ok, heap) ←
    (if bool_decide (num_values heap >= alloced_size heap)%Z then
       newsize ← chk (alloced_size heap * 2)%Z;
       new_values ← block_realloc (values heap) newsize;
       match new_values with
       | NULL => mret (false, heap)
       | Some _ => mret (true, set_values new_values newsize heap)
       end
     else mret (true, heap));
  if negb ok then mret (0%Z, heap)
  else
    let index := num_values heap in
    num ← chk (num_values heap + 1)%Z;
    let heap := set_num_values num heap in
    index ← binary_heap_percolate_up fuel heap v index;
    _ ← block_set (values heap) index v;
    mret (1%Z, heap).

(** [child < num_values && binary_heap_cmp(x, values[child]) > 0]. *)
Definition binary_heap_above (heap : BinaryHeap) (x : M block value) (child : Z) : M block bool :=
  if bool_decide (child < num_values heap)%Z then
    a ← x;
    b ← block_get (values heap) child;
    c ← binary_heap_cmp heap a b;
    mret (bool_decide (c > 0)%Z)
  else mret false.

(** [next_index], or [None] when the value stays at the current index. *)
Definition binary_heap_next_index (heap : BinaryHeap) (new_value : value) (child1 child2 : Z) :
    M block (option Z) :=
  left_less ← binary_heap_above heap (mret new_value) child1;
  if left_less : bool then
    right_less ← binary_heap_above heap (block_get (values heap) child1) child2;
    mret (Some (if right_less : bool then child2 else child1))
  else
    right_less ← binary_heap_above heap (mret new_value) child2;
    mret (if right_less : bool then Some child2 else None).

(** [for (;;)]. *)
Definition binary_heap_percolate_down (fuel : nat) (heap : BinaryHeap) (new_value : value) :
    Z → M block unit :=
  loop fuel (λ index,
    child1 ← chk (index * 2 + 1)%Z;
    child2 ← chk (index * 2 + 2)%Z;
    next ← binary_heap_next_index heap new_value child1 child2;
    match next with
    | None => _ ← block_set (values heap) index new_value; mret (inr tt)
    | Some next_index =>
        x ← block_get (values heap) next_index;
        _ ← block_set (values heap) index x;
        mret (inl next_index)
    end).

Definition binary_heap_pop (fuel : nat) (heap : BinaryHeap) : M block (value * BinaryHeap) :=
  if bool_decide (num_values heap = 0)%Z then mret (VNULL, heap)
  else
    result ← block_get (values heap) 0;
    new_value ← block_get (values heap) (num_values heap - 1);
    num ← chk (num_values heap - 1)%Z;
    let heap := set_num_values num heap in
    _ ← binary_heap_percolate_down fuel heap new_value 0;
    mret (result, heap).

Definition binary_heap_num_entries (heap : BinaryHeap) : Z := num_values heap.
End binary_heap_c.

(** ** Heap order on lists *)

Definition parent (i : nat) : nat := (i - 1) / 2.

Lemma parent_lt i : 0 < i → parent i < i.
Proof. intros. apply Nat.Div0.div_lt_upper_bound. lia. Qed.

Lemma parent_children i k : 0 < i → parent i = k ↔ i = 2 * k + 1 ∨ i = 2 * k + 2.
Proof.
  intros Hi. rewrite /parent. pose proof (Nat.div_mod_eq (i - 1) 2).
  pose proof (Nat.mod_upper_bound (i - 1) 2). lia.
Qed.

Lemma parent_quot i : 0 < i → ((Z.of_nat i - 1) ÷ 2)%Z = Z.of_nat (parent i).
Proof.
  intros Hi. rewrite Z.quot_div_nonneg; [|lia..]. rewrite /parent Nat2Z.inj_div.
  f_equal. lia.
Qed.

Section order.
Context (cmp : value → value → Z) `{!CompareFunc cmp}.
Implicit Types ys : list value.

Definition ord ys (i j : nat) : Prop :=
  ∀ x y, ys !! i = Some x → ys !! j = Some y → cmp_le cmp x y.

Definition heap ys : Prop := ∀ i, 0 < i → ord ys (parent i) i.

(** Everywhere but at [k] towards its parent. *)
Definition heap_up ys (k : nat) : Prop :=
  (∀ i, 0 < i → i ≠ k → ord ys (parent i) i) ∧
  (∀ i, 0 < k → 0 < i → parent i = k → ord ys (parent k) i).

(** Everywhere but at [k] towards its children. *)
Definition heap_down ys (k : nat) : Prop :=
  (∀ i, 0 < i → parent i ≠ k → ord ys (parent i) i) ∧
  (∀ i, 0 < k → 0 < i → parent i = k → ord ys (parent k) i).

Definition swap ys (i j : nat) (x y : value) : list value := <[j := y]> (<[i := x]> ys).

Lemma lookup_swap ys i j x y m :
  i < length ys → j < length ys →
  swap ys i j x y !! m = if decide (m = j) then Some y else if decide (m = i) then Some x else ys !! m.
Proof.
  intros Hi Hj. rewrite /swap. case_decide; [subst|].
  - apply list_lookup_insert_eq. by rewrite length_insert.
  - rewrite list_lookup_insert_ne //. case_decide; [subst|].
    + by apply list_lookup_insert_eq.
    + by rewrite list_lookup_insert_ne.
Qed.

Lemma swap_perm ys i j x y : ys !! i = Some y → ys !! j = Some x → swap ys i j x y ≡ₚ ys.
Proof. intros Hi Hj. by apply Permutation_insert_swap. Qed.

Lemma heap_up_end ys k v :
  heap_up ys k → ys !! k = Some v →
  (0 < k → ∃ x, ys !! parent k = Some x ∧ cmp_le cmp x v) → heap ys.
Proof.
  intros [H1 _] Hk Hp i Hi. destruct (decide (i = k)) as [->|Hne]; [|by apply H1].
  destruct (Hp Hi) as (x & Hx & Hle). intros a b Ha Hb. by simplify_eq.
Qed.

Lemma heap_up_step ys k v x :
  0 < k → heap_up ys k → ys !! k = Some v → ys !! parent k = Some x → cmp_le cmp v x →
  heap_up (swap ys k (parent k) x v) (parent k).
Proof.
  intros Hk [H1 H2] Hv Hx Hle. pose proof (parent_lt k Hk).
  pose proof (lookup_lt_Some _ _ _ Hv). pose proof (lookup_lt_Some _ _ _ Hx).
  split.
  - intros i Hi Hne a b. rewrite !lookup_swap //. intros Ha Hb.
    repeat case_decide; simplify_eq; try lia; try done.
    + transitivity x; [done|]. eapply (H1 i); congruence.
    + eapply (H2 i); congruence.
    + eapply (H1 i); congruence.
  - intros i Hp Hi Hpar a b. rewrite !lookup_swap //. intros Ha.
    pose proof (parent_lt i Hi). pose proof (parent_lt (parent k) Hp).
    assert (cmp_le cmp a x).
    { repeat case_decide; simplify_eq; try lia. eapply (H1 (parent k)); (lia || congruence). }
    intros Hb. repeat case_decide; simplify_eq; try lia; try done.
    transitivity x; [done|]. eapply (H1 i); congruence.
Qed.

Lemma heap_down_end ys k v :
  heap_down ys k → ys !! k = Some v →
  (∀ i y, 0 < i → parent i = k → ys !! i = Some y → cmp_le cmp v y) → heap ys.
Proof.
  intros [H1 _] Hk Hc i Hi. destruct (decide (parent i = k)) as [Hp|Hne]; [|by apply H1].
  intros a b Ha Hb. rewrite Hp in Ha. simplify_eq. by eapply Hc.
Qed.

Lemma heap_down_step ys k c v x :
  0 < c → parent c = k → heap_down ys k → ys !! k = Some v → ys !! c = Some x →
  cmp_le cmp x v → (∀ i, 0 < i → parent i = k → ord ys c i) →
  heap_down (swap ys k c x v) c.
Proof.
  intros Hc Hpar [H1 H2] Hv Hx Hle Hmin. pose proof (parent_lt c Hc).
  pose proof (lookup_lt_Some _ _ _ Hv). pose proof (lookup_lt_Some _ _ _ Hx).
  split.
  - intros i Hi Hne a b. rewrite !lookup_swap //. intros Ha Hb. pose proof (parent_lt i Hi).
    repeat case_decide; simplify_eq; try lia; try done.
    + eapply (H2 c); (lia || congruence).
    + eapply (Hmin i); congruence.
    + eapply (H1 i); congruence.
  - intros i _ Hi Hpi a b. rewrite !lookup_swap //. intros Ha Hb. pose proof (parent_lt i Hi).
    repeat case_decide; simplify_eq; try lia.
    eapply (H1 i); [done|lia|done|done].
Qed.

(** The top is a least value. *)
Lemma heap_top ys x i y : heap ys → ys !! 0 = Some x → ys !! i = Some y → cmp_le cmp x y.
Proof.
  intros Hh Hx. revert y. induction (lt_wf i) as [i _ IH]. intros y Hy.
  destruct (decide (i = 0)) as [->|Hi].
  { simplify_eq. rewrite /cmp_le. rewrite (cmp_refl cmp). done. }
  pose proof (parent_lt i ltac:(lia)) as Hp.
  destruct (lookup_lt_is_Some_2 ys (parent i)) as [z Hz].
  { apply lookup_lt_Some in Hy. lia. }
  transitivity z; [by eapply IH|]. eapply (Hh i); [lia|done|done].
Qed.
End order.

(** ** The loops *)

(** The order of the heap. *)
Definition heap_order (h : BinaryHeap) (x y : value) : Z :=
  match heap_type h with
  | BINARY_HEAP_TYPE_MIN => compare_func h x y
  | BINARY_HEAP_TYPE_MAX => (- compare_func h x y)%Z
  end.

#[global] Instance heap_order_compare h `{!CompareFunc (compare_func h)} :
  CompareFunc (heap_order h).
Proof.
  rewrite /heap_order. destruct (heap_type h); [done|by apply reverse_compare].
Qed.

(** Cell [k] of the block is about to be overwritten; the others hold [ys]. *)
Definition agrees (b : block) (ys : list value) (k : nat) : Prop :=
  length ys ≤ length b ∧ ∀ j y, j ≠ k → ys !! j = Some y → b !! j = Some (Some y).

Lemma agrees_holding xs junk k : agrees (holding xs junk) xs k.
Proof.
  split; [rewrite length_holding; lia|]. intros j y _. apply holding_lookup.
Qed.

Lemma agrees_fill b ys k v :
  agrees b ys k → ys !! k = Some v →
  <[k := Some v]> b = holding ys (drop (length ys) b).
Proof.
  intros [Hlen Hb] Hk. apply list_eq. intros j. rewrite /holding.
  pose proof (lookup_lt_Some _ _ _ Hk).
  destruct (decide (j < length ys)) as [Hj|Hj].
  - rewrite lookup_app_l ?length_fmap // list_lookup_fmap.
    destruct (lookup_lt_is_Some_2 ys j Hj) as [y Hy]. rewrite Hy /=.
    destruct (decide (j = k)) as [->|Hne].
    + simplify_eq. apply list_lookup_insert_eq. lia.
    + rewrite list_lookup_insert_ne //. by apply Hb.
  - rewrite list_lookup_insert_ne; [|lia]. rewrite lookup_app_r ?length_fmap; [|lia].
    rewrite lookup_drop. f_equal. lia.
Qed.

Lemma agrees_move b ys k c x v :
  agrees b ys k → ys !! k = Some v → ys !! c = Some x → c ≠ k →
  agrees (<[k := Some x]> b) (swap ys k c x v) c.
Proof.
  intros [Hlen Hb] Hk Hc Hne. pose proof (lookup_lt_Some _ _ _ Hk).
  pose proof (lookup_lt_Some _ _ _ Hc). split.
  { by rewrite /swap !length_insert. }
  intros j y Hj. rewrite lookup_swap //. rewrite decide_False //. case_decide; intros Hy; simplify_eq.
  - apply list_lookup_insert_eq. lia.
  - rewrite list_lookup_insert_ne //. by apply Hb.
Qed.

Section loops.
Context `{Allocator block} (h : BinaryHeap) (l : loc) `{!CompareFunc (compare_func h)}.
Context (Hvalues : values h = Some l) (Hint : ∀ x y, int_ok (heap_order h x y) = true).
Abbreviation cmp := (heap_order h).

Lemma wp_binary_heap_cmp x y (Φ : Z → hProp block) :
  Φ (cmp x y) ⊢ wp (binary_heap_cmp h x y) Φ.
Proof.
  iIntros "HΦ". rewrite /binary_heap_cmp. pose proof (Hint x y) as Hi. rewrite /heap_order in Hi |- *.
  destruct (heap_type h); [by wp_pures|]. rewrite /chk Hi. by wp_pures.
Qed.

Lemma wp_agrees_get b ys k j y (Φ : value → hProp block) :
  agrees b ys k → j ≠ k → ys !! j = Some y →
  l ↦ b -∗ (l ↦ b -∗ Φ y) -∗ wp (block_get (Some l) (Z.of_nat j)) Φ.
Proof. intros [_ Hb] Hne Hy. apply wp_block_get; [lia|]. rewrite Nat2Z.id. by apply Hb. Qed.

Lemma percolate_up_spec fuel v b ys k :
  k < fuel → agrees b ys k → ys !! k = Some v → heap_up cmp ys k →
  {{ l ↦ b }} binary_heap_percolate_up fuel h v (Z.of_nat k)
  {{ r, ∃ k' b' ys', ⌈ r = Z.of_nat k' ⌉ ∗ ⌈ ys' ≡ₚ ys ∧ heap cmp ys' ∧ agrees b' ys' k' ∧
          ys' !! k' = Some v ∧ length b' = length b ⌉ ∗ l ↦ b' }}.
Proof.
  revert b ys k. induction fuel as [|fuel IH]; intros b ys k Hf Hb Hv Hh; [lia|].
  apply triple_wp; iIntros "Hl". rewrite /binary_heap_percolate_up. wp_loop.
  case_bool_decide as Hk; last first.
  { assert (k = 0) as -> by lia. wp_pures. iExists 0, b, ys. ipures. iFrame. iPureIntro.
    split_and!; try done. apply (heap_up_end cmp ys 0 v); [done|done|lia]. }
  rewrite parent_quot; [|lia]. pose proof (parent_lt k ltac:(lia)) as Hp.
  destruct (lookup_lt_is_Some_2 ys (parent k)) as [x Hx]; [apply lookup_lt_Some in Hv; lia|].
  rewrite Hvalues. wp_bind. iApply (wp_agrees_get with "Hl"); [done|lia|done|]. iIntros "Hl".
  wp_bind. iApply wp_binary_heap_cmp. case_bool_decide as Hc.
  - wp_pures. iExists k, b, ys. ipures. iFrame. iPureIntro. split_and!; try done.
    eapply heap_up_end; [done|done|]. intros _. exists x. split; [done|].
    apply cmp_lt_le. lia.
  - wp_bind. iApply (wp_agrees_get with "Hl"); [done|lia|done|]. iIntros "Hl".
    pose proof (proj1 Hb). pose proof (lookup_lt_Some _ _ _ Hv). wp_bind. iApply (wp_block_set with "Hl"); [lia|].
    rewrite Nat2Z.id. iIntros "Hl". wp_pures.
    specialize (IH (<[k := Some x]> b) (swap ys k (parent k) x v) (parent k)).
    rewrite /binary_heap_percolate_up Hvalues in IH.
    iApply (triple_use with "Hl"); [apply IH|].
    + lia.
    + apply agrees_move; [done|done|done|lia].
    + rewrite lookup_swap ?decide_True //. lia.
    + apply heap_up_step; [apply _|lia|done|done|done|]. apply cmp_flip_le; [apply _|lia].
    + iIntros (r) "(%k' & %b' & %ys' & -> & %Hall & Hl)". destruct Hall as (Hp' & ? & ? & ? & Hlb).
      iExists k', b', ys'. ipures. iFrame. iPureIntro. rewrite length_insert in Hlb.
      split_and!; try done. rewrite Hp'. by apply swap_perm.
Qed.

(** [x] is above the value at [c], if there is one. *)
Definition above (ys : list value) (x : value) (c : nat) : bool :=
  match ys !! c with
  | Some y => bool_decide (cmp x y > 0)%Z
  | None => false
  end.

(** The child that [binary_heap_pop] goes on with. *)
Definition next_child (ys : list value) (k : nat) (v : value) : option nat :=
  let c1 := 2 * k + 1 in
  let c2 := 2 * k + 2 in
  if above ys v c1 then
    Some (if above ys (default VNULL (ys !! c1)) c2 then c2 else c1)
  else if above ys v c2 then Some c2 else None.

Lemma above_true ys x c : above ys x c = true → ∃ y, ys !! c = Some y ∧ cmp_le cmp y x.
Proof.
  rewrite /above. destruct (ys !! c) as [y|]; [|done]. intros ?%bool_decide_eq_true.
  exists y. split; [done|]. apply cmp_lt_le, (cmp_antisym (cmp := cmp)). lia.
Qed.

Lemma above_false ys x c y : above ys x c = false → ys !! c = Some y → cmp_le cmp x y.
Proof.
  rewrite /above. intros Ha Hy. rewrite Hy in Ha. apply bool_decide_eq_false in Ha. rewrite /cmp_le. lia.
Qed.

Lemma next_child_spec ys k v :
  match next_child ys k v with
  | None => ∀ i y, 0 < i → parent i = k → ys !! i = Some y → cmp_le cmp v y
  | Some c => ∃ x, ys !! c = Some x ∧ 0 < c ∧ parent c = k ∧ cmp_le cmp x v ∧
                   ∀ i, 0 < i → parent i = k → ord cmp ys c i
  end.
Proof.
  assert (parent (2 * k + 1) = k) as P1 by (apply parent_children; lia).
  assert (parent (2 * k + 2) = k) as P2 by (apply parent_children; lia).
  rewrite /next_child. destruct (above ys v (2 * k + 1)) eqn:A1.
  - apply above_true in A1 as (y1 & Hy1 & Hle1). rewrite Hy1. cbn [from_option id].
    destruct (above ys y1 (2 * k + 2)) eqn:A2.
    + apply above_true in A2 as (y2 & Hy2 & Hle2). exists y2. split_and!; [done|lia|done| |].
      { by transitivity y1. }
      intros i Hi Hpar; destruct (proj1 (parent_children i k Hi) Hpar) as [->| ->]; intros a b Ha Hb; simplify_eq; [done|].
      rewrite /cmp_le (cmp_refl cmp). done.
    + exists y1. split_and!; [done|lia|done|done|].
      intros i Hi Hpar; destruct (proj1 (parent_children i k Hi) Hpar) as [->| ->]; intros a b Ha Hb; simplify_eq; [|by eapply above_false].
      rewrite /cmp_le (cmp_refl cmp). done.
  - destruct (above ys v (2 * k + 2)) eqn:A2.
    + apply above_true in A2 as (y2 & Hy2 & Hle2). exists y2. split_and!; [done|lia|done|done|].
      intros i Hi Hpar; destruct (proj1 (parent_children i k Hi) Hpar) as [->| ->]; intros a b Ha Hb; simplify_eq.
      * transitivity v; [done|]. by eapply above_false.
      * rewrite /cmp_le (cmp_refl cmp). done.
    + intros i y Hi Hpar Hy. by destruct (proj1 (parent_children i k Hi) Hpar) as [->| ->];
        (eapply above_false; [|exact Hy]).
Qed.

Context (ys0 : list value) (Hnum : num_values h = Z.of_nat (length ys0)).

Lemma wp_above b ys k c x (X : M block value) (Φ : bool → hProp block) :
  length ys = length ys0 → agrees b ys k → c ≠ k →
  (∀ Ψ : value → hProp block, l ↦ b -∗ (l ↦ b -∗ Ψ x) -∗ wp X Ψ) →
  l ↦ b -∗ (l ↦ b -∗ Φ (above ys x c)) -∗ wp (binary_heap_above h X (Z.of_nat c)) Φ.
Proof.
  iIntros (Hlen Hb Hc HX) "Hl HΦ". rewrite /binary_heap_above /above Hnum -Hlen.
  case_bool_decide as Hlt.
  - destruct (lookup_lt_is_Some_2 ys c) as [y Hy]; [lia|]. rewrite Hy Hvalues.
    wp_bind. iApply (HX with "Hl"). iIntros "Hl".
    wp_bind. iApply (wp_agrees_get with "Hl"); [done|done|done|]. iIntros "Hl".
    wp_bind. iApply wp_binary_heap_cmp. wp_pures. by iApply "HΦ".
  - rewrite lookup_ge_None_2; [|lia]. wp_pures. by iApply "HΦ".
Qed.

Lemma wp_next_index b ys k v (Φ : option Z → hProp block) :
  length ys = length ys0 → agrees b ys k →
  l ↦ b -∗ (l ↦ b -∗ Φ (Z.of_nat <$> next_child ys k v)) -∗
  wp (binary_heap_next_index h v (Z.of_nat (2 * k + 1)) (Z.of_nat (2 * k + 2))) Φ.
Proof.
  iIntros (Hlen Hb) "Hl HΦ".
  assert (∀ (y : value) (Ψ : value → hProp block), l ↦ b -∗ (l ↦ b -∗ Ψ y) -∗ wp (mret y) Ψ) as Hret.
  { intros y Ψ. iIntros "Hl HΨ". wp_pures. by iApply "HΨ". }
  rewrite /binary_heap_next_index /next_child. wp_bind.
  iApply (wp_above with "Hl"); [done|done|lia|apply Hret|]. iIntros "Hl".
  destruct (above ys v (2 * k + 1)) eqn:A1; iApply wp_bind.
  - apply above_true in A1 as (y1 & Hy1 & _). rewrite Hy1. cbn [from_option id].
    iApply (wp_above _ _ k _ y1 with "Hl"); [done|done|lia| |].
    { intros Ψ. rewrite Hvalues. by apply (wp_agrees_get _ ys k); [|lia|]. }
    iIntros "Hl". iApply wp_ret. iSpecialize ("HΦ" with "Hl").
    by destruct (above ys y1 (2 * k + 2)).
  - iApply (wp_above with "Hl"); [done|done|lia|apply Hret|]. iIntros "Hl". iApply wp_ret.
    iSpecialize ("HΦ" with "Hl"). by destruct (above ys v (2 * k + 2)).
Qed.

Lemma percolate_down_spec fuel v b ys k :
  length ys - k < fuel → length ys = length ys0 → (2 * Z.of_nat (length ys0) ≤ INT_MAX)%Z →
  agrees b ys k → ys !! k = Some v → heap_down cmp ys k →
  {{ l ↦ b }} binary_heap_percolate_down fuel h v (Z.of_nat k)
  {{ _, ∃ ys' junk, ⌈ ys' ≡ₚ ys ∧ heap cmp ys' ∧ length (holding ys' junk) = length b ⌉ ∗
        l ↦ holding ys' junk }}.
Proof.
  revert b ys k. induction fuel as [|fuel IH]; intros b ys k Hf Hlen Hmax Hb Hv Hh; [lia|].
  pose proof (lookup_lt_Some _ _ _ Hv). pose proof (proj1 Hb).
  apply triple_wp; iIntros "Hl". rewrite /binary_heap_percolate_down. wp_loop.
  wp_chk. wp_chk.
  replace (Z.of_nat k * 2 + 1)%Z with (Z.of_nat (2 * k + 1)) by lia.
  replace (Z.of_nat k * 2 + 2)%Z with (Z.of_nat (2 * k + 2)) by lia.
  wp_bind. iApply (wp_next_index with "Hl"); [done|done|]. iIntros "Hl".
  pose proof (next_child_spec ys k v) as Hnext. rewrite Hvalues.
  destruct (next_child ys k v) as [c|]; simpl; wp_bind.
  - destruct Hnext as (x & Hx & Hc & Hpar & Hle & Hmin). pose proof (parent_lt c Hc).
    pose proof (lookup_lt_Some _ _ _ Hx).
    iApply (wp_agrees_get with "Hl"); [done|lia|done|]. iIntros "Hl". wp_bind.
    iApply (wp_block_set with "Hl"); [lia|]. rewrite Nat2Z.id. iIntros "Hl". wp_pures.
    specialize (IH (<[k := Some x]> b) (swap ys k c x v) c).
    rewrite /binary_heap_percolate_down Hvalues in IH.
    iApply (triple_use with "Hl"); [apply IH|].
    + rewrite /swap !length_insert. lia.
    + by rewrite /swap !length_insert.
    + done.
    + apply agrees_move; [done|done|done|lia].
    + rewrite lookup_swap ?decide_True //.
    + by apply heap_down_step.
    + iIntros ([]) "(%ys' & %junk & %Hall & Hl)". destruct Hall as (Hp & ? & Hlj).
      iExists ys', junk. iFrame. iPureIntro. rewrite length_insert in Hlj.
      split_and!; [|done|done]. rewrite Hp. by apply swap_perm.
  - iApply (wp_block_set with "Hl"); [lia|]. rewrite Nat2Z.id (agrees_fill b ys k v) //.
    iIntros "Hl". wp_pures. iExists ys, _. iFrame. iPureIntro. split_and!; [done| |].
    + by eapply heap_down_end.
    + rewrite length_holding length_drop. lia.
Qed.
End loops.

(** ** The heap as a bag of values *)

Section operations.
Context `{Allocator block}.
Implicit Types xs : list value.

(** The heap [h] holds the values [xs], in some order. *)
Definition binheap (h : BinaryHeap) xs : hProp block :=
  ∃ l ys junk, ⌈ values h = Some l ∧ num_values h = Z.of_nat (length ys) ∧
      alloced_size h = Z.of_nat (length (holding ys junk)) ∧ (0 < alloced_size h)%Z ∧
      ys ≡ₚ xs ∧ heap (heap_order h) ys ⌉ ∗
    l ↦ holding ys junk.

(** The comparison function can be negated, and the indices stay in [int]. *)
Definition heap_ok (h : BinaryHeap) : Prop :=
  (∀ x y, int_ok (heap_order h x y) = true) ∧ (2 * alloced_size h ≤ INT_MAX)%Z.

Lemma binheap_intro h xs l ys junk :
  values h = Some l → num_values h = Z.of_nat (length ys) →
  alloced_size h = Z.of_nat (length (holding ys junk)) → (0 < alloced_size h)%Z →
  ys ≡ₚ xs → heap (heap_order h) ys → l ↦ holding ys junk ⊢ binheap h xs.
Proof. iIntros (??????) "Hl". iExists l, ys, junk. by iFrame. Qed.

Lemma binary_heap_new_spec t cmp :
  {{ emp }} binary_heap_new t cmp
  {{ r, match r with
        | None => ⌈ can_fail ⌉
        | Some h => ⌈ heap_type h = t ∧ compare_func h = cmp ⌉ ∗ binheap h []
        end }}.
Proof.
  apply triple_wp. iIntros "_". rewrite /binary_heap_new.
  wp_malloc_array; [|wp_pures; done].
  wp_bind. iApply wp_block_malloc. iIntros ([l|]) "Hl"; wp_pures; [|done].
  iSplit; [done|]. iApply (binheap_intro _ [] l [] (replicate 16 None) with "Hl"); try done.
Qed.

Lemma binary_heap_free_spec h xs : {{ binheap h xs }} binary_heap_free h {{ _, emp }}.
Proof.
  apply triple_wp. iIntros "(%l & %ys & %junk & %Hh & Hl)". destruct Hh as (Hv & _).
  rewrite /binary_heap_free Hv. wp_free. done.
Qed.

Lemma heap_snoc cmp ys v : heap cmp ys → heap_up cmp (ys ++ [v]) (length ys).
Proof.
  intros Hh. split.
  - intros i Hi Hne a b Ha Hb. pose proof (parent_lt i Hi).
    pose proof (lookup_lt_Some _ _ _ Hb) as Hlt. rewrite length_app /= in Hlt.
    rewrite lookup_app_l in Ha; [|lia]. rewrite lookup_app_l in Hb; [|lia]. by eapply (Hh i).
  - intros i _ Hi Hp a b _ Hb. pose proof (parent_lt i Hi).
    apply lookup_lt_Some in Hb. rewrite length_app /= in Hb. lia.
Qed.

(** The part of [binary_heap_insert] that makes room. *)
Lemma binary_heap_room h xs :
  (2 * alloced_size h ≤ INT_MAX)%Z →
  {{ binheap h xs }}
    (if bool_decide (num_values h >= alloced_size h)%Z then
       newsize ← chk (alloced_size h * 2)%Z;
       new_values ← block_realloc (values h) newsize;
       match new_values with
       | NULL => mret (false, h)
       | Some _ => mret (true, set_values new_values newsize h)
       end
     else mret (true, h))
  {{ r, if r.1 then ⌈ ∃ p n, r.2 = set_values p n h ⌉ ∗ ⌈ num_values r.2 < alloced_size r.2 ⌉%Z ∗
               ⌈ alloced_size r.2 ≤ 2 * alloced_size h ⌉%Z ∗ binheap r.2 xs
        else ⌈ can_fail ⌉ ∗ ⌈ r.2 = h ⌉ ∗ binheap h xs }}.
Proof.
  intros Hmax. apply triple_wp. iIntros "(%l & %ys & %junk & %Hh & Hl)".
  destruct Hh as (Hv & Hn & Hcap & Hpos & Hp & Hheap). case_bool_decide as Hfull.
  - wp_chk. rewrite Hv. wp_bind. iApply (wp_block_realloc with "Hl").
    rewrite length_holding in Hcap. iIntros ([q|]) "Hq"; wp_pures.
    + destruct (holding_grow ys junk (alloced_size h * 2)) as (junk' & Hr & Hl'); [rewrite length_holding; lia|].
      rewrite Hr. iSplit; [iPureIntro; by do 2 eexists|]. simpl. iSplit; [iPureIntro; lia|].
      iSplit; [iPureIntro; lia|].
      iApply (binheap_intro with "Hq"); simpl; try done; lia.
    + iDestruct "Hq" as "[$ Hl]". iSplit; [done|].
      iApply (binheap_intro with "Hl"); try done. by rewrite length_holding.
  - wp_pures. iSplit; [iPureIntro; exists (values h), (alloced_size h); by destruct h|]. simpl.
    rewrite length_holding in Hcap. iSplit; [iPureIntro; lia|]. iSplit; [iPureIntro; lia|].
    iApply (binheap_intro with "Hl"); try done. by rewrite length_holding.
Qed.

(** [binary_heap_insert] adds the value, or fails, changing nothing, when the
    larger array is refused. *)
Theorem binary_heap_insert_correct fuel h xs v `{!CompareFunc (compare_func h)} :
  length xs < fuel → heap_ok h →
  {{ binheap h xs }} binary_heap_insert fuel h v
  {{ r, (⌈ r.1 = 1%Z ⌉ ∗ ⌈ heap_order r.2 = heap_order h ⌉ ∗ binheap r.2 (v :: xs)) ∨
        (⌈ r.1 = 0%Z ⌉ ∗ ⌈ r.2 = h ⌉ ∗ ⌈ can_fail ⌉ ∗ binheap h xs) }}.
Proof.
  intros Hf [Hint Hmax]. apply triple_wp. iIntros "H". rewrite /binary_heap_insert. iApply wp_bind.
  iApply (triple_use with "H"); [by apply binary_heap_room|]. iIntros ([[] h']) "H"; simpl; last first.
  { iDestruct "H" as "(%Hcan & -> & H)". wp_pures. iRight. by ipures. }
  iDestruct "H" as "([%p [%n ->]] & %Hroom & %Hcap2 & %l & %ys & %junk & %Hh & Hl)".
  destruct Hh as (Hv & Hn & Hcap & Hpos & Hp & Hheap). simpl in *.
  rewrite length_holding in Hcap. destruct junk as [|c junk]; [simpl in Hcap; lia|].
  pose proof (Permutation_length Hp) as Hlen. simpl in Hcap.
  wp_chk. wp_bind. rewrite Hn Hv.
  set (h' := set_num_values _ _).
  assert (agrees (holding ys (c :: junk)) (ys ++ [v]) (length ys)) as Hag.
  { split; [rewrite length_holding length_app /=; lia|]. intros j y Hne Hy.
    pose proof (lookup_lt_Some _ _ _ Hy) as Hlt. rewrite length_app /= in Hlt.
    apply holding_lookup. rewrite lookup_app_l in Hy; [done|lia]. }
  iApply (triple_use with "Hl"); [apply (percolate_up_spec h' l) with (ys := ys ++ [v])|].
  { done. } { exact Hint. } { lia. } { done. } { by apply list_lookup_middle. }
  { by apply heap_snoc. }
  iIntros (r) "(%k & %b & %ys' & -> & %Hall & Hl)". destruct Hall as (Hp' & Hh' & Hb & Hk & Hlb).
  pose proof (lookup_lt_Some _ _ _ Hk). pose proof (proj1 Hb). wp_bind.
  iApply (wp_block_set with "Hl"); [lia|]. rewrite Nat2Z.id (agrees_fill b ys' k v) //. iIntros "Hl".
  pose proof (Permutation_length Hp') as Hl'. rewrite length_app /= in Hl'.
  wp_pures. iLeft. ipures. iApply (binheap_intro with "Hl"); simpl; [done|lia| |done| |done].
  - rewrite length_holding length_drop Hlb length_holding /=. lia.
  - rewrite Hp' Hp. by rewrite Permutation_app_comm.
Qed.

(** Popping the last value. *)
Lemma percolate_down_empty fuel h l v b `{!CompareFunc (compare_func h)} :
  values h = Some l → num_values h = 0%Z → (∀ x y, int_ok (heap_order h x y) = true) → 0 < length b →
  {{ l ↦ b }} binary_heap_percolate_down (S fuel) h v 0 {{ _, l ↦ <[0 := Some v]> b }}.
Proof.
  intros Hv Hn Hint Hb. apply triple_wp. iIntros "Hl". rewrite /binary_heap_percolate_down. wp_loop.
  wp_chk. wp_chk. wp_bind.
  iApply (wp_next_index h l Hv Hint [] Hn b [] 0 v with "Hl"); [done|by split; [simpl; lia|]|].
  iIntros "Hl". rewrite Hv. simpl. wp_bind. iApply (wp_block_set with "Hl"); [lia|]. iIntros "Hl".
  by wp_pures.
Qed.

Lemma heap_replace_top cmp r mid v : heap cmp (r :: mid ++ [v]) → heap_down cmp (v :: mid) 0.
Proof.
  intros Hh. split; [|intros; lia]. intros i Hi Hp a b Ha Hb.
  destruct (parent i) as [|p] eqn:Hpi; [done|]. destruct i as [|i]; [lia|]. simpl in Ha, Hb.
  eapply (Hh (S i)); [done| |]; rewrite ?Hpi /=; by apply lookup_app_l_Some.
Qed.

(** C32. [binary_heap_pop] removes and returns a least value, the null value when the
    heap is empty. *)
Theorem binary_heap_pop_correct fuel h xs `{!CompareFunc (compare_func h)} :
  length xs < fuel → heap_ok h →
  {{ binheap h xs }} binary_heap_pop fuel h
  {{ r, ⌈ heap_order r.2 = heap_order h ∧ alloced_size r.2 = alloced_size h ⌉ ∗
        match xs with
        | [] => ⌈ r = (VNULL, h) ⌉ ∗ binheap h []
        | _ => ∃ rest, ⌈ xs ≡ₚ r.1 :: rest ⌉ ∗ ⌈ Forall (cmp_le (heap_order h) r.1) rest ⌉ ∗
                 binheap r.2 rest
        end }}.
Proof.
  intros Hf [Hint Hmax]. apply triple_wp. iIntros "(%l & %ys & %junk & %Hh & Hl)".
  destruct Hh as (Hv & Hn & Hcap & Hpos & Hp & Hheap). rewrite /binary_heap_pop.
  pose proof (Permutation_length Hp) as Hlen. case_bool_decide as Hz.
  { destruct ys as [|]; [|simpl in *; lia]. destruct xs as [|]; [|done]. wp_pures. ipures. by iApply (binheap_intro with "Hl"). }
  destruct ys as [|v front _] using rev_ind; [done|]. clear Hz.
  rewrite length_app /= in Hlen Hn. rewrite length_holding length_app /= in Hcap. rewrite Hn Hv.
  assert (∃ r, (front ++ [v]) !! 0 = Some r) as [r Hr] by (destruct front; simpl; eauto).
  destruct xs as [|x xs]; [simpl in Hlen; lia|]. simpl in Hf, Hlen.
  wp_bind. iApply (wp_holding_get with "Hl"); [lia|done|]. iIntros "Hl". wp_bind.
  iApply (wp_holding_get with "Hl"); [lia| |].
  { replace (Z.to_nat _) with (length front) by lia. by apply list_lookup_middle. }
  iIntros "Hl". wp_chk. replace (Z.of_nat (length front + 1) - 1)%Z with (Z.of_nat (length front)) by lia.
  set (h' := set_num_values _ h). wp_bind.
  assert (∀ rest, front ++ [v] ≡ₚ r :: rest → Forall (cmp_le (heap_order h) r) rest) as Hleast.
  { intros rest Hrest. apply Forall_forall. intros y Hy.
    assert (y ∈ front ++ [v]) as [i Hi]%list_elem_of_lookup by (rewrite Hrest; by right).
    apply (heap_top (heap_order h) (front ++ [v]) r i y); done. }
  destruct front as [|r' mid]; simpl in *; simplify_eq.
  - destruct fuel as [|fuel]; [lia|].
    iApply (triple_use with "Hl"); [apply (percolate_down_empty fuel h' l r); try done; rewrite length_holding /=; lia|].
    iIntros (_) "Hl". wp_pures. iSplit; [done|]. iExists []. rewrite Hp. iSplit; [done|].
    iSplit; [iPureIntro; by apply Hleast|].
    by iApply (binheap_intro h' [] l [] (Some r :: junk) with "Hl").
  - iApply (triple_use with "Hl"); [apply (percolate_down_spec h' l) with (ys0 := v :: mid) (ys := v :: mid) (k := 0)|].
    { done. } { exact Hint. } { done. } { simpl. lia. } { done. }
    { simpl. lia. }
    { split; [rewrite length_holding /= length_app /=; lia|]. intros [|j] y Hj Hy; [done|].
      apply holding_lookup. simpl in *. by apply lookup_app_l_Some. }
    { done. }
    { by eapply heap_replace_top. }
    iIntros (_) "(%ys' & %junk' & %Hall & Hl)". destruct Hall as (Hp' & Hh' & Hlj).
    wp_pures. iSplit; [done|]. iExists (v :: mid).
    assert (r :: mid ++ [v] ≡ₚ r :: v :: mid) as Hrest by by rewrite Permutation_app_comm.
    rewrite -Hp. iSplit; [done|]. iSplit; [iPureIntro; by apply Hleast|].
    pose proof (Permutation_length Hp') as Hl'. simpl in Hl'.
    iApply (binheap_intro with "Hl"); simpl; try done; [lia|].
    rewrite Hlj length_holding /= length_app /=. lia.
Qed.
End operations.

(** ** Runs on concrete heaps *)

Module Runs.
#[local] Instance alloc : Allocator block := total_alloc [].

(** A comparison with results -1, 0 and 1. *)
Definition compare (x y : value) : Z :=
  (if bool_decide (x = y) then 0 else if bool_decide (x < y) then -1 else 1)%Z.

#[local] Instance compare_ok : CompareFunc compare.
Proof. split; intros; unfold compare in *; repeat case_bool_decide; lia. Qed.

Definition heap2 (t : BinaryHeapType) : BinaryHeap :=
  {| heap_type := t; values := Some 1%positive; num_values := 2%Z; alloced_size := 4%Z; compare_func := compare |}.
Definition cells2 (xs : list value) : gmap loc block := {[1%positive := holding xs [None; None]]}.

Lemma heap2_ok t : heap_ok (heap2 t).
Proof.
  split; [|done]. intros x y. rewrite /heap_order /= /compare.
  destruct t; repeat case_bool_decide; done.
Qed.

Lemma heap2_holds t x y :
  cmp_le (heap_order (heap2 t)) x y → holds (binheap (heap2 t) [x; y]) (cells2 [x; y]).
Proof.
  intros Hle. eapply holds_mono;
    [apply (binheap_intro (heap2 t) [x; y] 1%positive [x; y] [None; None]); try done|done].
  intros [|[|i]] Hi a b Ha Hb; [lia|by simplify_eq/=|done].
Qed.

Lemma binary_heap_insert_correct_witness :
  ∃ h m t, binary_heap_insert 3 (heap2 BINARY_HEAP_TYPE_MIN) 5 (Mem (cells2 [10; 20]%Z) 0) =
    Ok ((1%Z, h), Mem m t) ∧ m !! 1%positive = Some (holding [5; 20; 10]%Z [None]).
Proof.
  destruct (triple_run _ _ _ (cells2 [10; 20]%Z) 0 (binary_heap_insert_correct 3
    (heap2 BINARY_HEAP_TYPE_MIN) [10; 20]%Z 5 ltac:(simpl; lia) (heap2_ok _))
    (heap2_holds BINARY_HEAP_TYPE_MIN 10 20 ltac:(by vm_compute)))
    as ([r h] & m & t & E & _).
  exists h, m, t. revert E. vm_compute. intros [= <- <- <- <-]. by split.
Defined.

Lemma binary_heap_pop_correct_witness :
  ∃ h m t, binary_heap_pop 3 (heap2 BINARY_HEAP_TYPE_MAX) (Mem (cells2 [20; 10]%Z) 0) =
    Ok ((20%Z, h), Mem m t) ∧ num_values h = 1%Z.
Proof.
  destruct (triple_run _ _ _ (cells2 [20; 10]%Z) 0 (binary_heap_pop_correct 3
    (heap2 BINARY_HEAP_TYPE_MAX) [20; 10]%Z ltac:(simpl; lia) (heap2_ok _))
    (heap2_holds BINARY_HEAP_TYPE_MAX 20 10 ltac:(by vm_compute)))
    as ([r h] & m & t & E & _).
  exists h, m, t. revert E. vm_compute. intros [= <- <- <- <-]. by split.
Defined.
End Runs.
