(* ===== verification/BloomFilter.v ===== *)
(** * BloomFilter: bloom-filter.c

    The Bloom filter as a table of bits packed into bytes.  Insertion sets the
    bits of a value, a query tests them; both are stated on the bits, from which
    the absence of false negatives follows.  Sizes are [unsigned int] with their
    wrap-around. *)
From stdpp Require Import base gmap list numbers.
From iris.proofmode Require Import proofmode.
From S2P Require Import Prelude Memory Blocks.

(** [salts]. *)
Definition salts : list Z := [
  0x5cee4612; 0xb5587b1c; 0xa250f2b0; 0xa3bf6d2a;
  0x7a81bd1a; 0x92888d7f; 0x1dc977c7; 0xedc96624;
  0x920c85d9; 0xf16066b3; 0xc6f0d4b3; 0x2b76eb86;
  0xcacb3893; 0x493d81c5; 0xf5a133ac; 0x039740bf;
  0x162b8224; 0xf841de90; 0xc3e5090d; 0x3bce93a7;
  0xf1860334; 0xe832b5f1; 0xf5b6535b; 0xe4cf4fa6;
  0x8357b769; 0x1442b07a; 0x21c5863d; 0xabc0d846;
  0x6dc0d77a; 0x23a3992c; 0xe12179ba; 0xd81d1e23;
  0xcff4727b; 0xe957ecfb; 0xee8f391a; 0x426efa23;
  0x3a34ff2c; 0x8b875d94; 0x34fd0f63; 0xf159daae;
  0xaabab8b3; 0xa83a07ba; 0x4e54fb33; 0xfb82fab8;
  0x2ae2888f; 0xd1a307a8; 0xbe33322d; 0x87c73f86;
  0x7270fa7e; 0x68673c55; 0x2c8026d0; 0xead8e422;
  0xa3ee5132; 0xecb67767; 0x1c3b1ae5; 0x47adf5b6;
  0xf4518d30; 0x46e62797; 0x9889aa76; 0x1405aadf;
  0xf62f9124; 0x5c435ac5; 0x35b8dfe3; 0x651c08c5]%Z.

(** [struct _BloomFilter]; the hash function is a code address. *)
Record BloomFilter := {
  hash_func : Z;
  table : ptr;
  table_size : Z;
  num_functions : Z
}.

Section bloom_filter_c.
Context `{Allocator block}.
(** The client's hash functions, by address. *)
Context (call_hash : Z → value → Z).

(** [(table_size + 7) / 8] on [unsigned int]. *)
Definition array_size (size : Z) : Z := (u32 (size + 7) `div` 8)%Z.

Definition bloom_filter_new (size hash_func num_functions : Z) : M block (option BloomFilter) :=
  if bool_decide (num_functions > Z.of_nat (length salts))%Z then mret None
  else
    granted ← malloc_array;
    if negb granted then mret None
    else
      p ← block_calloc (array_size size);
      match p with
      | NULL => mret None
      | Some _ => mret (Some {| hash_func := hash_func; table := p; table_size := size;
                                num_functions := num_functions |})
      end.

Definition bloom_filter_free (f : BloomFilter) : M block unit := free (table f).

(** [index], the bit of the [i]-th hash. *)
Definition bloom_filter_index (f : BloomFilter) (hash i : Z) : M block Z :=
  salt ← aget salts i;
  let subhash := Z.lxor hash salt in
  if bool_decide (table_size f = 0)%Z then fail DivByZero
  else mret (u32 (subhash `mod` table_size f))%Z.

Definition bloom_filter_insert (f : BloomFilter) (v : value) : M block unit :=
  let hash := call_hash (hash_func f) v in
  for_loop (Z.to_nat (num_functions f)) 0 (λ i _,
    index ← bloom_filter_index f hash i;
    b ← block_get (table f) (index `div` 8);
    block_set (table f) (index `div` 8)
      (Z.land (Z.lor b (Z.shiftl 1 (index `mod` 8))) 255)) tt.

Definition bloom_filter_query (f : BloomFilter) (v : value) : M block Z :=
  let hash := call_hash (hash_func f) v in
  loop (S (Z.to_nat (num_functions f))) (λ i,
    if bool_decide (i < num_functions f)%Z then
      index ← bloom_filter_index f hash i;
      b ← block_get (table f) (index `div` 8);
      let bit := Z.shiftl 1 (index `mod` 8) in
      if bool_decide (Z.land b bit = 0)%Z then mret (inr 0%Z)
      else mret (inl (u32 (i + 1)))
    else mret (inr 1%Z)) 0%Z.

Definition bloom_filter_read (f : BloomFilter) (array : ptr) : M block unit :=
  block_copy array 0 (table f) 0 (array_size (table_size f)).

Definition bloom_filter_load (f : BloomFilter) (array : ptr) : M block unit :=
  block_copy (table f) 0 array 0 (array_size (table_size f)).

(** The shared shape of the two set operations: [op] combines the bytes. *)
Definition bloom_filter_combine (op : Z → Z → Z) (filter1 filter2 : BloomFilter) :
    M block (option BloomFilter) :=
  if bool_decide (table_size filter1 ≠ table_size filter2 ∨
                  num_functions filter1 ≠ num_functions filter2 ∨
                  hash_func filter1 ≠ hash_func filter2)
  then mret None
  else
    result ← bloom_filter_new (table_size filter1) (hash_func filter1) (num_functions filter1);
    match result with
    | None => mret None
    | Some result =>
        _ ← for_loop (Z.to_nat (array_size (table_size filter1))) 0 (λ i _,
              a ← block_get (table filter1) i;
              b ← block_get (table filter2) i;
              block_set (table result) i (op a b)) tt;
        mret (Some result)
    end.

Definition bloom_filter_union (filter1 filter2 : BloomFilter) : M block (option BloomFilter) :=
  bloom_filter_combine Z.lor filter1 filter2.

Definition bloom_filter_intersection (filter1 filter2 : BloomFilter) :
    M block (option BloomFilter) :=
  bloom_filter_combine Z.land filter1 filter2.
End bloom_filter_c.

(** ** Bits *)

(** Bit [p] of a table. *)
Definition bit (bytes : list Z) (p : Z) : bool :=
  Z.testbit (default 0%Z (bytes !! Z.to_nat (p `div` 8))) (p `mod` 8).

Definition byte (b : Z) : Prop := (0 ≤ b < 256)%Z.

Lemma set_bit_byte b k : byte (Z.land (Z.lor b (Z.shiftl 1 k)) 255).
Proof.
  rewrite /byte (Z.land_ones _ 8) //. apply Z.mod_pos_bound. done.
Qed.

Lemma set_bit_spec b k j :
  (0 ≤ k)%Z → (0 ≤ j < 8)%Z →
  Z.testbit (Z.land (Z.lor b (Z.shiftl 1 k)) 255) j = Z.testbit b j || bool_decide (j = k).
Proof.
  intros Hk Hj. rewrite (Z.land_ones _ 8) // Z.mod_pow2_bits_low; [|lia].
  rewrite Z.lor_spec Z.shiftl_1_l. f_equal. rewrite Z.pow2_bits_eqb //.
  case_bool_decide as E; [subst; apply Z.eqb_refl|]. apply Z.eqb_neq. lia.
Qed.

Lemma test_bit_spec b k : (0 ≤ k)%Z → Z.land b (Z.shiftl 1 k) = 0%Z ↔ Z.testbit b k = false.
Proof.
  intros Hk. rewrite Z.shiftl_1_l. split; intros E.
  - assert (Z.testbit (Z.land b (2 ^ k)) k = Z.testbit b k) as <-.
    { rewrite Z.land_spec Z.pow2_bits_true // andb_true_r. done. }
    by rewrite E Z.bits_0.
  - apply Z.bits_inj'. intros n Hn. rewrite Z.land_spec Z.pow2_bits_eqb // Z.bits_0.
    destruct (Z.eqb_spec k n) as [->|]; [by rewrite E|apply andb_false_r].
Qed.

Lemma bit_index p q :
  (0 ≤ p)%Z → (0 ≤ q)%Z → p = q ↔ (p `div` 8 = q `div` 8 ∧ p `mod` 8 = q `mod` 8)%Z.
Proof.
  intros Hp Hq. split; [by intros ->|]. intros [Hd Hm].
  rewrite (Z.div_mod p 8) // (Z.div_mod q 8) // Hd Hm. done.
Qed.

(** Setting bit [q] of a table. *)
Lemma bit_insert bytes b q p :
  (0 ≤ q)%Z → (0 ≤ p)%Z → bytes !! Z.to_nat (q `div` 8) = Some b →
  bit (<[Z.to_nat (q `div` 8) := Z.land (Z.lor b (Z.shiftl 1 (q `mod` 8))) 255%Z]> bytes) p =
    bit bytes p || bool_decide (p = q).
Proof.
  intros Hq Hp Hb. pose proof (lookup_lt_Some _ _ _ Hb).
  pose proof (Z.div_pos p 8 Hp ltac:(lia)). pose proof (Z.div_pos q 8 Hq ltac:(lia)).
  pose proof (Z.mod_pos_bound p 8 ltac:(lia)). pose proof (Z.mod_pos_bound q 8 ltac:(lia)).
  rewrite /bit. destruct (decide (p `div` 8 = q `div` 8)%Z) as [E|E].
  - rewrite E list_lookup_insert_eq // Hb /= set_bit_spec; [|lia|lia]. f_equal.
    apply bool_decide_ext. rewrite (bit_index p q) // E. tauto.
  - rewrite list_lookup_insert_ne; [|lia].
    rewrite (bool_decide_eq_false_2 (p = q)); [by rewrite orb_false_r|]. by intros ->.
Qed.

Section proofs.
Context `{Allocator block} (call_hash : Z → value → Z).
Implicit Types (f : BloomFilter) (B : Z → bool) (v : value).

(** Sizes for which the table has a bit for every index. *)
Definition sizes_ok (size num : Z) : Prop :=
  (0 < size)%Z ∧ (size + 7 < UINT_MOD)%Z ∧ (0 ≤ num ≤ Z.of_nat (length salts))%Z.

(** The filter [f] with the bits [B]. *)
Definition bloom f B : hProp block :=
  ∃ l bytes, ⌈ table f = Some l ∧ Z.of_nat (length bytes) = array_size (table_size f) ∧
      Forall byte bytes ∧ sizes_ok (table_size f) (num_functions f) ∧
      (∀ p, 0 ≤ p < 8 * Z.of_nat (length bytes) → bit bytes p = B p)%Z ⌉ ∗
    l ↦ holding bytes [].

(** The bits of a value. *)
Definition bits_of f v : list Z :=
  (λ salt, Z.lxor (call_hash (hash_func f) v) salt `mod` table_size f)%Z <$>
    take (Z.to_nat (num_functions f)) salts.

Lemma array_size_bound f p :
  sizes_ok (table_size f) (num_functions f) → (0 ≤ p < table_size f)%Z →
  (0 ≤ p `div` 8 < array_size (table_size f))%Z ∧ (p < 8 * array_size (table_size f))%Z.
Proof.
  intros (Hpos & Hmax & _) Hp. rewrite /array_size u32_id; [|lia].
  pose proof (Z.div_mod (table_size f + 7) 8 ltac:(lia)).
  pose proof (Z.mod_pos_bound (table_size f + 7) 8 ltac:(lia)).
  pose proof (Z.div_mod p 8 ltac:(lia)). pose proof (Z.mod_pos_bound p 8 ltac:(lia)). lia.
Qed.

Lemma wp_index f v i salt (Φ : Z → hProp block) :
  sizes_ok (table_size f) (num_functions f) → salts !! i = Some salt →
  (let q := Z.lxor (call_hash (hash_func f) v) salt `mod` table_size f in
   ⌈ 0 ≤ q < table_size f ⌉ -∗ Φ q)%Z ⊢
  wp (bloom_filter_index f (call_hash (hash_func f) v) (Z.of_nat i)) Φ.
Proof.
  iIntros ((Hpos & Hmax & Hnum) Hsalt) "HΦ". rewrite /bloom_filter_index. wp_bind.
  iApply wp_aget; [lia|by rewrite Nat2Z.id|]. rewrite bool_decide_eq_false_2; [|lia].
  pose proof (Z.mod_pos_bound (Z.lxor (call_hash (hash_func f) v) salt) (table_size f) Hpos).
  rewrite u32_id; [|lia]. wp_pures. iApply "HΦ". by iPureIntro.
Qed.

Lemma bloom_filter_new_spec size hash num :
  (num ≤ Z.of_nat (length salts))%Z → sizes_ok size num →
  {{ emp }} bloom_filter_new size hash num
  {{ r, match r with
        | None => ⌈ can_fail ⌉
        | Some f => ⌈ hash_func f = hash ∧ table_size f = size ∧ num_functions f = num ⌉ ∗
                    bloom f (λ _, false)
        end }}.
Proof.
  intros Hn Hok. apply triple_wp. iIntros "_". rewrite /bloom_filter_new.
  rewrite bool_decide_eq_false_2; [|lia]. wp_malloc_array; [|by wp_pures].
  wp_bind. iApply wp_block_calloc. iIntros ([l|]) "Hl"; wp_pures; [|done]. iSplit; [done|].
  set (bytes := replicate (Z.to_nat (array_size size)) 0%Z).
  iExists l, bytes. iSplit; [iPureIntro|].
  - destruct Hok as (? & ? & ?). split_and!; simpl; try done.
    + rewrite length_replicate. rewrite Z2Nat.id // /array_size. apply Z.div_pos; [|lia].
      apply u32_range.
    + by apply Forall_replicate.
    + intros p Hp. rewrite /bit /bytes. destruct (_ !! _) eqn:E; [|apply Z.bits_0].
      apply lookup_replicate in E as [-> _]. apply Z.bits_0.
  - rewrite /holding right_id_L /bytes fmap_replicate. done.
Qed.

(** *** Insertion and query *)
Lemma insert_loop f v l n i bytes :
  i + n ≤ length salts → sizes_ok (table_size f) (num_functions f) →
  table f = Some l → Z.of_nat (length bytes) = array_size (table_size f) → Forall byte bytes →
  {{ l ↦ holding bytes [] }}
    for_loop n (Z.of_nat i) (λ i _,
      index ← bloom_filter_index f (call_hash (hash_func f) v) i;
      b ← block_get (table f) (index `div` 8);
      block_set (table f) (index `div` 8)
        (Z.land (Z.lor b (Z.shiftl 1 (index `mod` 8))) 255)) tt
  {{ _, ∃ bytes', ⌈ length bytes' = length bytes ∧ Forall byte bytes' ∧
          ∀ p, (0 ≤ p)%Z → bit bytes' p = bit bytes p || bool_decide (p ∈
            (λ salt, Z.lxor (call_hash (hash_func f) v) salt `mod` table_size f)%Z <$>
              take n (drop i salts)) ⌉ ∗
        l ↦ holding bytes' [] }}.
Proof.
  intros Hin Hok Ht. revert i bytes Hin. induction n as [|n IH]; intros i bytes Hin Hlen Hb;
    apply triple_wp; iIntros "Hl"; simpl for_loop.
  { wp_pures. iExists bytes. iFrame. iPureIntro. split_and!; [done|done|]. intros p _.
    by rewrite orb_false_r. }
  destruct (lookup_lt_is_Some_2 salts i) as [salt Hs]; [lia|].
  wp_bind. iApply (wp_index f v i salt); [done|done|]. simpl.
  set (q := (Z.lxor (call_hash (hash_func f) v) salt `mod` table_size f)%Z). iIntros "%Hq".
  destruct (array_size_bound f q Hok Hq) as [Hd _].
  destruct (lookup_lt_is_Some_2 bytes (Z.to_nat (q `div` 8))) as [b Hbq]; [lia|].
  rewrite Ht. wp_bind. iApply (wp_holding_get with "Hl"); [lia|done|]. iIntros "Hl".
  wp_bind. iApply (wp_holding_set with "Hl"); [lia|]. iIntros "Hl".
  set (bytes' := <[_ := _]> bytes).
  replace (Z.of_nat i + 1)%Z with (Z.of_nat (S i)) by lia. specialize (IH (S i) bytes').
  rewrite Ht in IH. iApply (triple_use with "Hl"); [apply IH|].
  - lia.
  - by rewrite /bytes' length_insert.
  - apply Forall_insert; [done|]. apply set_bit_byte.
  - iIntros ([]) "(%bytes'' & %Hall & Hl)". destruct Hall as (Hl & Hf & Hbits).
    iExists bytes''. iFrame. iPureIntro. rewrite Hl /bytes' length_insert. split_and!; [done|done|].
    intros p Hp. rewrite Hbits // bit_insert //; [|lia]. rewrite (drop_S _ _ _ Hs) /=.
    rewrite -orb_assoc. f_equal. rewrite -bool_decide_or. apply bool_decide_ext.
    by rewrite elem_of_cons.
Qed.

Lemma bloom_intro f B l bytes :
  table f = Some l → Z.of_nat (length bytes) = array_size (table_size f) → Forall byte bytes →
  sizes_ok (table_size f) (num_functions f) →
  (∀ p, 0 ≤ p < 8 * Z.of_nat (length bytes) → bit bytes p = B p)%Z →
  l ↦ holding bytes [] ⊢ bloom f B.
Proof. iIntros (?????) "Hl". iExists l, bytes. by iFrame. Qed.

(** The bits after an insertion. *)
Definition with_bits f v B : Z → bool := λ p, B p || bool_decide (p ∈ bits_of f v).

Lemma bloom_filter_insert_spec f B v :
  {{ bloom f B }} bloom_filter_insert call_hash f v {{ _, bloom f (with_bits f v B) }}.
Proof.
  apply triple_wp. iIntros "(%l & %bytes & %Hf & Hl)". destruct Hf as (Ht & Hlen & Hb & Hok & Hbits).
  rewrite /bloom_filter_insert. pose proof Hok as (_ & _ & Hnum).
  iApply (triple_use with "Hl"); [apply (insert_loop f v l _ 0); [lia|done..]|].
  iIntros ([]) "(%bytes' & %Hall & Hl)". destruct Hall as (Hl' & Hb' & Hbits').
  iApply (bloom_intro with "Hl"); [done|by rewrite Hl'|done|done|].
  intros p Hp. rewrite Hl' in Hp. rewrite Hbits' ?Hbits //. lia.
Qed.

Lemma query_loop f v l bytes rest i fuel :
  sizes_ok (table_size f) (num_functions f) → table f = Some l →
  Z.of_nat (length bytes) = array_size (table_size f) →
  rest = take (Z.to_nat (num_functions f) - i) (drop i salts) → i ≤ Z.to_nat (num_functions f) →
  length rest < fuel →
  {{ l ↦ holding bytes [] }}
    loop fuel (λ i,
      if bool_decide (i < num_functions f)%Z then
        index ← bloom_filter_index f (call_hash (hash_func f) v) i;
        b ← block_get (table f) (index `div` 8);
        let bit := Z.shiftl 1 (index `mod` 8) in
        if bool_decide (Z.land b bit = 0)%Z then mret (inr 0%Z)
        else mret (inl (u32 (i + 1)))
      else mret (inr 1%Z)) (Z.of_nat i)
  {{ r, ⌈ r = if forallb (bit bytes)
                ((λ salt, Z.lxor (call_hash (hash_func f) v) salt `mod` table_size f)%Z <$> rest)
              then 1%Z else 0%Z ⌉ ∗ l ↦ holding bytes [] }}.
Proof.
  intros Hok Ht Hlen. pose proof Hok as (_ & _ & Hnum).
  assert (Z.of_nat (length salts) = 64)%Z as Hsalts by done.
  revert i fuel. induction rest as [|salt rest IH]; intros i fuel Hrest Hi Hf;
    (destruct fuel as [|fuel]; [simpl in Hf; lia|]); apply triple_wp; iIntros "Hl"; wp_loop.
  { assert (length (take (Z.to_nat (num_functions f) - i) (drop i salts)) = 0) as Hz by by rewrite -Hrest.
    rewrite length_take length_drop in Hz. rewrite bool_decide_eq_false_2; [|lia].
    wp_pures. by iFrame. }
  assert (length (take (Z.to_nat (num_functions f) - i) (drop i salts)) = S (length rest)) as Hz
    by by rewrite -Hrest.
  rewrite length_take length_drop in Hz. rewrite bool_decide_eq_true_2; [|lia].
  destruct (lookup_lt_is_Some_2 salts i) as [salt' Hs]; [lia|].
  rewrite (drop_S _ _ _ Hs) in Hrest.
  replace (Z.to_nat (num_functions f) - i) with (S (Z.to_nat (num_functions f) - S i)) in Hrest by lia.
  simpl in Hrest. injection Hrest as -> Hrest. wp_bind.
  iApply (wp_index f v i salt'); [done|done|]. simpl.
  set (q := (Z.lxor (call_hash (hash_func f) v) salt' `mod` table_size f)%Z). iIntros "%Hq".
  destruct (array_size_bound f q Hok Hq) as [Hd _].
  destruct (lookup_lt_is_Some_2 bytes (Z.to_nat (q `div` 8))) as [b Hbq]; [lia|].
  rewrite Ht. wp_bind. iApply (wp_holding_get with "Hl"); [lia|done|]. iIntros "Hl".
  assert (bit bytes q = Z.testbit b (q `mod` 8)) as Hbit by by rewrite /bit Hbq.
  pose proof (Z.mod_pos_bound q 8 ltac:(lia)). pose proof (test_bit_spec b (q `mod` 8) ltac:(lia)) as Htest.
  rewrite Hbit. case_bool_decide as Hz0; wp_pures.
  - rewrite (_ : Z.testbit b _ = false); [by iFrame|by apply Htest].
  - destruct (Z.testbit b (q `mod` 8)) eqn:Hb; [|by destruct Hz0; apply Htest].
    rewrite u32_id; [|unfold UINT_MOD; lia].
    replace (Z.of_nat i + 1)%Z with (Z.of_nat (S i)) by lia. specialize (IH (S i) fuel).
    rewrite Ht in IH. simpl. iApply (triple_use with "Hl"); [apply IH; [done|lia|simpl in Hf; lia]|].
    by iIntros.
Qed.

Lemma bloom_filter_query_spec f B v :
  {{ bloom f B }} bloom_filter_query call_hash f v
  {{ r, ⌈ r = if forallb B (bits_of f v) then 1%Z else 0%Z ⌉ ∗ bloom f B }}.
Proof.
  apply triple_wp. iIntros "(%l & %bytes & %Hf & Hl)". destruct Hf as (Ht & Hlen & Hb & Hok & Hbits).
  rewrite /bloom_filter_query. pose proof Hok as (_ & _ & Hnum).
  iApply (triple_use with "Hl");
    [apply (query_loop f v l bytes (take (Z.to_nat (num_functions f)) salts) 0); try done;
     [by rewrite Nat.sub_0_r|lia|rewrite length_take; lia]|].
  iIntros (r) "[-> Hl]". iSplit; [iPureIntro|by iApply (bloom_intro with "Hl")].
  rewrite -/(bits_of f v).
  assert (forallb (bit bytes) (bits_of f v) = forallb B (bits_of f v)) as ->; [|done].
  apply Bool.eq_iff_eq_true. rewrite !forallb_forall.
  assert (∀ p, In p (bits_of f v) → bit bytes p = B p) as Heq.
  { intros p Hp%list_elem_of_In. apply list_elem_of_fmap in Hp as (salt & -> & _). apply Hbits.
    pose proof (Z.mod_pos_bound (Z.lxor (call_hash (hash_func f) v) salt) (table_size f)
      ltac:(by destruct Hok)) as Hq.
    destruct (array_size_bound f _ Hok Hq) as [_ ?]. lia. }
  split; intros Hall p Hp; [rewrite -Heq //|rewrite Heq //]; by apply Hall.
Qed.

(** *** Insertions followed by a query *)

Fixpoint bloom_filter_inserts f (vs : list value) : M block unit :=
  match vs with
  | [] => mret tt
  | v :: vs => _ ← bloom_filter_insert call_hash f v; bloom_filter_inserts f vs
  end.

Definition all_bits f (vs : list value) B : Z → bool := foldl (λ B v, with_bits f v B) B vs.

Lemma bloom_filter_inserts_spec f B vs :
  {{ bloom f B }} bloom_filter_inserts f vs {{ _, bloom f (all_bits f vs B) }}.
Proof.
  apply triple_wp. iIntros "H". iInduction vs as [|v vs] "IH" forall (B); simpl; [by wp_pures|].
  wp_bind. iApply (triple_use with "H"); [apply bloom_filter_insert_spec|]. iIntros (_) "H".
  by iApply "IH".
Qed.

Lemma all_bits_iff f vs B p :
  all_bits f vs B p = true ↔ B p = true ∨ ∃ v, v ∈ vs ∧ p ∈ bits_of f v.
Proof.
  rewrite /all_bits. revert B. induction vs as [|v vs IH]; intros B; simpl.
  - split; [by left|]. intros [?|(v & Hv & _)]; [done|]. by apply not_elem_of_nil in Hv.
  - rewrite IH /with_bits orb_true_iff bool_decide_eq_true.
    split; [intros [[HB|Hp]|(w & Hw & Hp)]|intros [HB|(w & [->|Hw]%elem_of_cons & Hp)]]; eauto.
    + right. exists v. split; [by left|done].
    + right. exists w. split; [by right|done].
Qed.

(** A value that was inserted is always reported; the answer 0 proves that a
    value was not inserted, and the answer 1 has a reason in the table. *)
Theorem bloom_filter_no_false_negative f B vs v :
  {{ bloom f B }} (_ ← bloom_filter_inserts f vs; bloom_filter_query call_hash f v)
  {{ r, ⌈ v ∈ vs → r = 1%Z ⌉ ∗ ⌈ r = 0%Z ∨ r = 1%Z ⌉ ∗
        ⌈ r = 1%Z ↔ ∀ p, p ∈ bits_of f v → B p = true ∨ ∃ w, w ∈ vs ∧ p ∈ bits_of f w ⌉ ∗
        bloom f (all_bits f vs B) }}.
Proof.
  apply triple_wp. iIntros "H". wp_bind.
  iApply (triple_use with "H"); [apply bloom_filter_inserts_spec|]. iIntros (_) "H".
  iApply (triple_use with "H"); [apply bloom_filter_query_spec|]. iIntros (r) "[-> $]".
  assert (forallb (all_bits f vs B) (bits_of f v) = true ↔
    ∀ p, p ∈ bits_of f v → B p = true ∨ ∃ w, w ∈ vs ∧ p ∈ bits_of f w) as Hall.
  { rewrite forallb_forall. setoid_rewrite <-list_elem_of_In. by setoid_rewrite all_bits_iff. }
  destruct (forallb (all_bits f vs B) (bits_of f v)) eqn:E; iPureIntro.
  - split_and!; [done|by right|]. rewrite -Hall. done.
  - assert (¬ ∀ p, p ∈ bits_of f v → B p = true ∨ ∃ w, w ∈ vs ∧ p ∈ bits_of f w) as Hn
      by by rewrite -Hall.
    split_and!; [|by left|by split; [|intros Hq; destruct Hn]].
    intros Hv. destruct Hn. intros p Hp. right. by exists v.
Qed.

(** *** Set operations *)

(** [op] acts on the bits of bytes as [bop]. *)
Definition bitwise (op : Z → Z → Z) (bop : bool → bool → bool) : Prop :=
  bop false false = false ∧
  (∀ a b, byte a → byte b → byte (op a b)) ∧
  ∀ a b j, Z.testbit (op a b) j = bop (Z.testbit a j) (Z.testbit b j).

Lemma byte_ones a : byte a ↔ a = Z.land a (Z.ones 8).
Proof.
  rewrite Z.land_ones // /byte. split; intros Ha; [by rewrite Z.mod_small|].
  rewrite Ha. by apply Z.mod_pos_bound.
Qed.

Lemma bitwise_lor : bitwise Z.lor orb.
Proof.
  split_and!; [done| |apply Z.lor_spec]. intros a b Ha%byte_ones Hb%byte_ones. apply byte_ones.
  by rewrite Z.land_lor_distr_l -Ha -Hb.
Qed.

Lemma bitwise_land : bitwise Z.land andb.
Proof.
  split_and!; [done| |apply Z.land_spec]. intros a b Ha%byte_ones Hb%byte_ones. apply byte_ones.
  by rewrite -Z.land_assoc -Hb.
Qed.

Definition combined (op : Z → Z → Z) (xs ys : list Z) : list Z := zip_with op xs ys.

Lemma combine_loop op l1 l2 l xs ys done todo1 todo2 n :
  length todo1 = n → length todo2 = n → length xs = length ys →
  {{ l1 ↦ holding (xs ++ todo1) [] ∗ l2 ↦ holding (ys ++ todo2) [] ∗
     l ↦ holding (combined op xs ys ++ done) [] ∗ ⌈ length done = n ⌉ }}
    for_loop n (Z.of_nat (length xs)) (λ i _,
      a ← block_get (Some l1) i;
      b ← block_get (Some l2) i;
      block_set (Some l) i (op a b)) tt
  {{ _, l1 ↦ holding (xs ++ todo1) [] ∗ l2 ↦ holding (ys ++ todo2) [] ∗
        l ↦ holding (combined op (xs ++ todo1) (ys ++ todo2)) [] }}.
Proof.
  revert xs ys done todo1 todo2.
  induction n as [|n IH]; intros xs ys dn [|a todo1] [|b todo2] H1 H2 Hlen; try done;
    apply triple_wp; iIntros "(Hl1 & Hl2 & Hl & %Hd)"; simpl for_loop.
  { destruct dn; [|done]. wp_pures. rewrite !right_id_L. iFrame. }
  destruct dn as [|c dn]; [done|]. simpl in *.
  assert (length (combined op xs ys) = length xs) as Hc by (rewrite length_zip_with; lia).
  wp_bind. iApply (wp_holding_get with "Hl1"); [lia|by rewrite Nat2Z.id list_lookup_middle|]. iIntros "Hl1".
  wp_bind. iApply (wp_holding_get with "Hl2"); [lia|by rewrite Nat2Z.id list_lookup_middle|]. iIntros "Hl2".
  wp_bind. iApply (wp_holding_set with "Hl"); [rewrite length_app /=; lia|]. iIntros "Hl".
  rewrite Nat2Z.id insert_app_r_alt Hc // Nat.sub_diag /=.
  specialize (IH (xs ++ [a]) (ys ++ [b]) dn todo1 todo2).
  replace (Z.of_nat (length xs) + 1)%Z with (Z.of_nat (length (xs ++ [a])))
    by (rewrite length_app /=; lia).
  rewrite -!assoc_L /= in IH.
  iApply (triple_use with "[Hl1 Hl2 Hl]"); [apply IH; [lia|lia|rewrite !length_app /=; lia]|iFrame|].
  - rewrite /combined zip_with_app // -assoc_L. iFrame. iPureIntro. lia.
  - by iIntros ([]) "$".
Qed.

Lemma combined_byte op bop xs ys :
  bitwise op bop → Forall byte xs → Forall byte ys → Forall byte (combined op xs ys).
Proof.
  intros (_ & Hop & _) Hxs. revert ys. induction Hxs as [|x xs Hx Hxs IH]; intros ys Hys; [constructor|].
  destruct Hys as [|y ys Hy Hys]; constructor; [by apply Hop|by apply IH].
Qed.

Lemma combined_bit op bop xs ys p :
  bitwise op bop → length xs = length ys → bit (combined op xs ys) p = bop (bit xs p) (bit ys p).
Proof.
  intros (Hz & _ & Hbits) Hlen. rewrite /bit /combined lookup_zip_with.
  destruct (xs !! _) as [x|] eqn:Ex, (ys !! _) as [y|] eqn:Ey; simpl.
  - apply Hbits.
  - apply lookup_lt_Some in Ex. apply lookup_ge_None in Ey. lia.
  - apply lookup_lt_Some in Ey. apply lookup_ge_None in Ex. lia.
  - by rewrite !Z.bits_0 Hz.
Qed.

(** The filters were created with the same parameters. *)
Definition same_parameters f1 f2 : Prop :=
  table_size f1 = table_size f2 ∧ num_functions f1 = num_functions f2 ∧ hash_func f1 = hash_func f2.

Lemma bloom_filter_combine_spec op bop f1 f2 B1 B2 :
  bitwise op bop →
  {{ bloom f1 B1 ∗ bloom f2 B2 }} bloom_filter_combine op f1 f2
  {{ r, match r with
        | None => ⌈ ¬ same_parameters f1 f2 ∨ can_fail ⌉
        | Some f => ⌈ same_parameters f1 f2 ∧ same_parameters f1 f ⌉ ∗
                    bloom f (λ p, bop (B1 p) (B2 p))
        end ∗ bloom f1 B1 ∗ bloom f2 B2 }}.
Proof.
  intros Hop. apply triple_wp. iIntros "[H1 H2]". rewrite /bloom_filter_combine.
  case_bool_decide as Hsame.
  { wp_pures. iFrame. iPureIntro. left. rewrite /same_parameters. tauto. }
  assert (same_parameters f1 f2) as (Hs & Hn & Hh) by (unfold same_parameters; lia).
  iDestruct "H1" as "(%l1 & %xs & %Hf1 & Hl1)". destruct Hf1 as (Ht1 & Hlen1 & Hb1 & Hok1 & Hbits1).
  iDestruct "H2" as "(%l2 & %ys & %Hf2 & Hl2)". destruct Hf2 as (Ht2 & Hlen2 & Hb2 & Hok2 & Hbits2).
  wp_bind. iApply (triple_use with "[]"); [by apply bloom_filter_new_spec; [destruct Hok1; lia|]|done|].
  iIntros ([f|]) "H"; last first.
  { iDestruct "H" as %Hcan. wp_pures. iSplit; [by iRight|].
    iSplitL "Hl1"; [by iApply (bloom_intro with "Hl1")|by iApply (bloom_intro with "Hl2")]. }
  iDestruct "H" as "(%Hpar & %l & %zs & %Hf & Hl)". destruct Hpar as (Hh' & Hs' & Hn').
  destruct Hf as (Ht & Hlen & _ & Hok & _).
  assert (length xs = length ys) as Hxy by (rewrite -Hs in Hlen2; lia).
  wp_bind. rewrite Ht1 Ht2 Ht.
  iApply (triple_use with "[Hl1 Hl2 Hl]");
    [apply (combine_loop op l1 l2 l [] [] zs xs ys (Z.to_nat (array_size (table_size f1))));
     [lia|lia|done]|iFrame; iPureIntro; rewrite Hs' in Hlen; lia|].
  iIntros (_) "(Hl1 & Hl2 & Hl)". wp_pures.
  assert (length (combined op xs ys) = length xs) as Hc by (rewrite length_zip_with; lia).
  iSplitL "Hl".
  - iSplit; [iPureIntro; by rewrite /same_parameters Hs' Hn' Hh'|].
    iApply (bloom_intro with "Hl"); [done|by rewrite Hc Hs'|by eapply combined_byte|done|].
    intros p Hp. rewrite Hc in Hp. erewrite combined_bit; [|done|done].
    rewrite Hbits1 // Hbits2 //. by rewrite -Hxy.
  - iSplitL "Hl1"; [by iApply (bloom_intro with "Hl1")|by iApply (bloom_intro with "Hl2")].
Qed.

(** The union has the bits of either filter; neither filter changes.  There is
    no result for filters with different parameters. *)
Theorem bloom_filter_union_correct f1 f2 B1 B2 :
  {{ bloom f1 B1 ∗ bloom f2 B2 }} bloom_filter_union f1 f2
  {{ r, match r with
        | None => ⌈ ¬ same_parameters f1 f2 ∨ can_fail ⌉
        | Some f => ⌈ same_parameters f1 f2 ∧ same_parameters f1 f ⌉ ∗
                    bloom f (λ p, B1 p || B2 p)
        end ∗ bloom f1 B1 ∗ bloom f2 B2 }}.
Proof. exact (bloom_filter_combine_spec _ _ f1 f2 B1 B2 bitwise_lor). Qed.

(** The intersection has the bits that both filters have. *)
Theorem bloom_filter_intersection_correct f1 f2 B1 B2 :
  {{ bloom f1 B1 ∗ bloom f2 B2 }} bloom_filter_intersection f1 f2
  {{ r, match r with
        | None => ⌈ ¬ same_parameters f1 f2 ∨ can_fail ⌉
        | Some f => ⌈ same_parameters f1 f2 ∧ same_parameters f1 f ⌉ ∗
                    bloom f (λ p, B1 p && B2 p)
        end ∗ bloom f1 B1 ∗ bloom f2 B2 }}.
Proof. exact (bloom_filter_combine_spec _ _ f1 f2 B1 B2 bitwise_land). Qed.

(** *** Reading and loading the table *)

(** A filter whose table is read into a buffer and loaded into another filter
    of the same size gives that filter the same bits. *)
Theorem bloom_filter_read_load f1 f2 B1 B2 l buf :
  table_size f1 = table_size f2 → (array_size (table_size f1) ≤ Z.of_nat (length buf))%Z →
  {{ bloom f1 B1 ∗ bloom f2 B2 ∗ l ↦ buf }}
    (_ ← bloom_filter_read f1 (Some l); bloom_filter_load f2 (Some l))
  {{ _, bloom f1 B1 ∗ bloom f2 B1 ∗ ∃ bytes,
        l ↦ holding bytes (drop (length bytes) buf) }}.
Proof.
  intros Hs Hbuf. apply triple_wp. iIntros "(H1 & H2 & Hl)".
  iDestruct "H1" as "(%l1 & %xs & %Hf1 & Hl1)". destruct Hf1 as (Ht1 & Hlen1 & Hb1 & Hok1 & Hbits1).
  iDestruct "H2" as "(%l2 & %ys & %Hf2 & Hl2)". destruct Hf2 as (Ht2 & Hlen2 & Hb2 & Hok2 & Hbits2).
  rewrite /bloom_filter_read /bloom_filter_load Ht1 Ht2 -Hs -Hlen1. rewrite -Hs -Hlen1 in Hlen2.
  wp_bind. iApply (wp_block_copy with "Hl Hl1"); [lia|lia|lia|lia|rewrite length_holding /=; lia|].
  iIntros "Hl Hl1". rewrite Nat2Z.id /copied /= drop_0.
  rewrite (take_ge (holding xs [])); [|rewrite length_holding /=; lia].
  assert (holding xs [] ++ drop (length xs) buf = holding xs (drop (length xs) buf)) as ->.
  { by rewrite /holding right_id_L. }
  iApply (wp_block_copy with "Hl2 Hl"); [lia|lia|lia|rewrite length_holding /=; lia
    |rewrite length_holding; lia|].
  iIntros "Hl2 Hl". rewrite Nat2Z.id /copied /= drop_0.
  rewrite /holding take_app_length' ?length_fmap // (drop_ge (_ ++ [])); [|rewrite length_app length_fmap /=; lia].
  iSplitL "Hl1"; [by iApply (bloom_intro with "Hl1")|].
  iSplitL "Hl2"; [iApply (bloom_intro with "Hl2"); try done; rewrite -Hs; lia|].
  iExists xs. done.
Qed.
End proofs.

(** *** The wrap-around of the table size *)

(** Rounding the largest sizes up to bytes wraps around: the table is empty, and
    the first insertion writes outside it. *)
Theorem bloom_filter_size_overflow `{Allocator block} call_hash size hash num v m f m' :
  (UINT_MOD - 7 ≤ size < UINT_MOD)%Z → (0 < num)%Z →
  bloom_filter_new size hash num m = Ok (Some f, m') →
  bloom_filter_insert call_hash f v m' = Err OutOfBounds.
Proof.
  intros Hsize Hnum. rewrite /bloom_filter_new. case_bool_decide as Hn; [done|].
  assert (array_size size = 0%Z) as Hz.
  { rewrite /array_size /u32. replace (size + 7)%Z with (size + 7 - UINT_MOD + 1 * UINT_MOD)%Z by lia.
    rewrite Z_mod_plus_full Z.mod_small; [|int_tac]. apply Z.div_small. lia. }
  rewrite Hz. intros (granted & m1 & _ & E)%bind_ok. destruct granted; [|done]. simpl in E.
  apply bind_ok in E as ([l|] & m2 & Hc & [= <- <-]). apply block_calloc_run in Hc.
  rewrite /bloom_filter_insert /=. destruct (Z.to_nat num) as [|n] eqn:En; [lia|]. simpl.
  apply bind_err. rewrite (bind_run _ _ m2 (u32 (Z.lxor (call_hash hash v) 0x5cee4612 `mod` size)) m2).
  - apply bind_err, (block_get_outside l []); [done|]. apply Z.div_pos; [apply u32_range|done].
  - rewrite /bloom_filter_index (bind_run _ _ m2 0x5cee4612%Z m2) //=.
    rewrite bool_decide_eq_false_2; [done|int_tac].
Qed.

(** ** Runs on concrete filters *)

Module Runs.
#[local] Instance alloc : Allocator block := total_alloc [].

(** One hash function, at address 1; sixteen bits, two of them per value. *)
Definition hash (address v : Z) : Z := v.
Definition filter16 (l : loc) : BloomFilter :=
  {| hash_func := 1; table := Some l; table_size := 16; num_functions := 2 |}.
Definition heap16 : gmap loc block := {[1%positive := holding [0; 0]%Z []]}.

Lemma filter16_holds l (b1 b2 : Z) :
  byte b1 → byte b2 →
  holds (bloom (filter16 l) (bit [b1; b2])) {[l := holding [b1; b2] []]}.
Proof.
  intros H1 H2.
  assert (Forall byte [b1; b2]) as Hb by (apply Forall_cons; split; [done|by apply Forall_singleton]).
  eapply holds_mono; [by apply (bloom_intro (filter16 l) _ l [b1; b2])|done].
Qed.

Lemma bloom_filter_size_overflow_witness :
  ∃ f m, bloom_filter_new (UINT_MOD - 1) 1 2 (Mem ∅ 0) = Ok (Some f, m) ∧
    bloom_filter_insert hash f 5 m = Err OutOfBounds.
Proof.
  destruct (bloom_filter_new (UINT_MOD - 1) 1 2 (Mem ∅ 0)) as [[[f|] m]|] eqn:E; [|done|done].
  exists f, m. split; [done|].
  apply (bloom_filter_size_overflow hash (UINT_MOD - 1) 1 2 5 (Mem ∅ 0) f m); [by vm_compute|done|exact E].
Defined.

Lemma bloom_filter_read_load_witness :
  ∃ h t, (_ ← bloom_filter_read (filter16 1%positive) (Some 3%positive);
          bloom_filter_load (filter16 2%positive) (Some 3%positive))
    (Mem ({[1%positive := holding [5; 6]%Z []]} ∪
          ({[2%positive := holding [0; 0]%Z []]} ∪ {[3%positive := [None; None; None]]})) 0) =
    Ok (tt, Mem h t) ∧ h !! 2%positive = Some (holding [5; 6]%Z []).
Proof.
  destruct (triple_run _ _ _
    ({[1%positive := holding [5; 6]%Z []]} ∪
      ({[2%positive := holding [0; 0]%Z []]} ∪ {[3%positive := [None; None; None]]})) 0
    (bloom_filter_read_load (filter16 1%positive) (filter16 2%positive) (bit [5; 6]%Z) (bit [0; 0]%Z) 3%positive
      [None; None; None] eq_refl ltac:(by vm_compute))) as ([] & h & t & E & _).
  { apply holds_sep. eexists _, _. split_and!; [done|by apply map_disjoint_singleton_l_2|
      by apply filter16_holds|].
    apply holds_sep. eexists _, _. split_and!; [done|by apply map_disjoint_singleton_l_2|
      by apply filter16_holds|done]. }
  exists h, t. revert E. vm_compute. intros [= <- <-]. by split.
Defined.
End Runs.
