(* ===== verification/CycleQueue.v ===== *)
(** * CycleQueue: cycle_queue.c

    The ring buffer of bytes with [uint32_t] indices.  One cell is kept free.
    The sizes are always right, and a transfer that does not reach the end of
    the buffer is first-in first-out; a transfer that does skips the last cell,
    which its counterpart only undoes when it crosses at the same place. *)
From stdpp Require Import base gmap list numbers.
From iris.proofmode Require Import proofmode.
From S2P Require Import Prelude Memory Blocks.

(** [CycleQueuePri]. *)
Record CycleQueue := { cq_head : Z; cq_tail : Z; cq_size : Z; cq_buf : ptr }.

Definition set_head (head : Z) (q : CycleQueue) : CycleQueue :=
  {| cq_head := head; cq_tail := cq_tail q; cq_size := cq_size q; cq_buf := cq_buf q |}.
Definition set_tail (tail : Z) (q : CycleQueue) : CycleQueue :=
  {| cq_head := cq_head q; cq_tail := tail; cq_size := cq_size q; cq_buf := cq_buf q |}.

(** [thiz] is the object, or [None] for the null pointer; -1 is returned as an
    unsigned number. *)
Definition cycle_queue_get_free_size (thiz : option CycleQueue) : Z :=
  match thiz with
  | None => u32 (-1)
  | Some pri =>
      if bool_decide (cq_head pri = cq_tail pri) then u32 (cq_size pri - 1)
      else if bool_decide (cq_head pri > cq_tail pri)%Z
      then u32 (u32 (cq_size pri - u32 (cq_head pri - cq_tail pri)) - 1)
      else u32 (u32 (cq_tail pri - cq_head pri) - 1)
  end.

Definition cycle_queue_get_data_size (thiz : option CycleQueue) : Z :=
  match thiz with
  | None => u32 (-1)
  | Some pri =>
      if bool_decide (cq_head pri >= cq_tail pri)%Z then u32 (cq_head pri - cq_tail pri)
      else u32 (u32 (cq_size pri - cq_tail pri) + cq_head pri)
  end.

Section cycle_queue_c.
Context `{Allocator block}.

(** [x % y] on [uint32_t]. *)
Definition umod (x y : Z) : M block Z :=
  if bool_decide (y = 0)%Z then fail DivByZero else mret (x `mod` y)%Z.

Definition cycle_queue_write (thiz : option CycleQueue) (data : ptr) (data_len : Z) :
    M block (Z * option CycleQueue) :=
  match thiz, data with
  | None, _ | _, NULL => mret ((-1)%Z, thiz)
  | Some pri, Some _ =>
      let free_size := cycle_queue_get_free_size thiz in
      if bool_decide (free_size < data_len)%Z then mret ((-1)%Z, thiz)
      else
        _ ← (if bool_decide (u32 (cq_head pri + data_len) <= u32 (cq_size pri - 1))%Z
             then block_copy (cq_buf pri) (cq_head pri) data 0 data_len
             else
               let part1 := u32 (u32 (cq_size pri - 1) - cq_head pri) in
               _ ← block_copy (cq_buf pri) (cq_head pri) data 0 part1;
               block_copy (cq_buf pri) 0 data part1 (u32 (data_len - part1)));
        head ← umod (u32 (cq_head pri + data_len)) (cq_size pri);
        mret (0%Z, Some (set_head head pri))
  end.

(** [buf_len] is the value behind the pointer, [None] when the pointer is null;
    the result carries its new value. *)
Definition cycle_queue_read (thiz : option CycleQueue) (buf : ptr) (buf_len : option Z) :
    M block (Z * option Z * option CycleQueue) :=
  match thiz, buf, buf_len with
  | Some pri, Some _, Some len =>
      if bool_decide (len <= 0)%Z then mret ((-1)%Z, buf_len, thiz)
      else
        let data_size := cycle_queue_get_data_size thiz in
        if bool_decide (data_size = 0)%Z then mret (0%Z, Some 0%Z, thiz)
        else
          let read_len := if bool_decide (data_size < len)%Z then data_size else len in
          _ ← (if bool_decide (u32 (cq_tail pri + read_len) <= u32 (cq_size pri - 1))%Z
               then block_copy buf 0 (cq_buf pri) (cq_tail pri) read_len
               else
                 let part1 := u32 (u32 (cq_size pri - 1) - cq_tail pri) in
                 _ ← block_copy buf 0 (cq_buf pri) (cq_tail pri) part1;
                 block_copy buf part1 (cq_buf pri) 0 (u32 (read_len - part1)));
          tail ← umod (u32 (cq_tail pri + read_len)) (cq_size pri);
          mret (0%Z, Some read_len, Some (set_tail tail pri))
  | _, _, _ => mret ((-1)%Z, buf_len, thiz)
  end.

(** [malloc] and [memset] of the buffer are one [block_calloc]. *)
Definition cycle_queue_create (size : Z) : M block (option CycleQueue) :=
  if bool_decide (size > 0)%Z then
    granted ← malloc_array;
    if negb granted then mret None
    else
      buf ← block_calloc size;
      match buf with
      | NULL => mret None
      | Some _ => mret (Some {| cq_head := 0; cq_tail := 0; cq_size := size; cq_buf := buf |})
      end
  else mret None.

(** [free(thiz)] releases the object, which is not a cell here; the result is
    the object the caller still has.  The buffer is not released. *)
Definition cycle_queue_destroy (thiz : option CycleQueue) : M block (option CycleQueue) :=
  match thiz with
  | None => mret thiz
  | Some _ => mret None
  end.
End cycle_queue_c.

(** ** The sizes *)

Definition cq_ok (q : CycleQueue) : Prop :=
  (0 ≤ cq_head q < cq_size q ∧ 0 ≤ cq_tail q < cq_size q ∧ cq_size q < UINT_MOD)%Z.

(** The number of bytes in the buffer. *)
Definition used (q : CycleQueue) : Z := ((cq_head q - cq_tail q) `mod` cq_size q)%Z.

Lemma used_cases q :
  cq_ok q →
  used q = if bool_decide (cq_head q >= cq_tail q)%Z then (cq_head q - cq_tail q)%Z
           else (cq_size q - cq_tail q + cq_head q)%Z.
Proof.
  intros (Hh & Ht & Hs). rewrite /used. case_bool_decide.
  - apply Z.mod_small. lia.
  - symmetry. apply Z.mod_unique with (-1)%Z; lia.
Qed.

Lemma used_range q : cq_ok q → (0 ≤ used q < cq_size q)%Z.
Proof. intros (Hh & Ht & Hs). apply Z.mod_pos_bound. lia. Qed.

Lemma data_size_used q : cq_ok q → cycle_queue_get_data_size (Some q) = used q.
Proof.
  intros Hok. rewrite (used_cases q Hok). destruct Hok as (Hh & Ht & Hs). simpl.
  case_bool_decide; rewrite !u32_id; (done || lia).
Qed.

Lemma free_size_used q : cq_ok q → cycle_queue_get_free_size (Some q) = (cq_size q - 1 - used q)%Z.
Proof.
  intros Hok. rewrite (used_cases q Hok). destruct Hok as (Hh & Ht & Hs). simpl.
  repeat case_bool_decide; rewrite !u32_id; lia.
Qed.

(** The free size and the data size are exact: together they are one less than
    the size of the buffer. *)
Theorem cycle_queue_sizes q :
  cq_ok q →
  (cycle_queue_get_free_size (Some q) + cycle_queue_get_data_size (Some q) = cq_size q - 1 ∧
   0 ≤ cycle_queue_get_data_size (Some q) ≤ cq_size q - 1)%Z.
Proof.
  intros Hok. rewrite free_size_used // data_size_used //. pose proof (used_range q Hok). lia.
Qed.

(** ** The buffer as a sequence of bytes *)
Lemma mod_cases x s :
  (0 ≤ x < 2 * s)%Z → (x `mod` s = if bool_decide (x < s) then x else x - s)%Z.
Proof.
  intros Hx. case_bool_decide; [apply Z.mod_small; lia|].
  symmetry. apply Z.mod_unique with 1%Z; lia.
Qed.

(** [xs] lies in the buffer from the tail on, around the end. *)
Definition stored (b : block) (q : CycleQueue) (xs : list Z) : Prop :=
  ∀ i x, xs !! i = Some x →
    b !! Z.to_nat ((cq_tail q + Z.of_nat i) `mod` cq_size q) = Some (Some x).

(** A transfer of [n] bytes from [start] stays before the end of the buffer. *)
Definition short (q : CycleQueue) (start n : Z) : Prop := (start + n < cq_size q)%Z.

#[global] Instance short_dec q start n : Decision (short q start n).
Proof. rewrite /short. apply _. Defined.

Section proofs.
Context `{Allocator block}.
Implicit Types (q : CycleQueue) (xs ys : list Z) (b : block).

Definition cyclequeue q xs : hProp block :=
  ∃ l b, ⌈ cq_buf q = Some l ∧ cq_ok q ∧ Z.of_nat (length b) = cq_size q ∧
           used q = Z.of_nat (length xs) ∧ stored b q xs ⌉ ∗ l ↦ b.

Lemma cycle_queue_create_spec size :
  (size < UINT_MOD)%Z →
  {{ emp }} cycle_queue_create size
  {{ r, match r with
        | None => ⌈ (size ≤ 0)%Z ∨ can_fail ⌉
        | Some q => ⌈ cq_size q = size ⌉ ∗ cyclequeue q []
        end }}.
Proof.
  intros Hs. apply triple_wp. iIntros "_". rewrite /cycle_queue_create.
  case_bool_decide as Hp; [|wp_pures; iPureIntro; left; lia].
  wp_malloc_array; [|wp_pures; by iRight].
  wp_bind. iApply wp_block_calloc. iIntros ([l|]) "Hl"; wp_pures; [|by iRight].
  iSplit; [done|]. iExists l, _. iFrame. iPureIntro. rewrite /cq_ok /used /=.
  split_and!; try done; try lia. rewrite length_replicate. lia.
Qed.

Lemma stored_append b q xs ys junk :
  cq_ok q → Z.of_nat (length b) = cq_size q → used q = Z.of_nat (length xs) → stored b q xs →
  (used q + Z.of_nat (length ys) < cq_size q)%Z → short q (cq_head q) (Z.of_nat (length ys)) →
  let q' := set_head (cq_head q + Z.of_nat (length ys)) q in
  let b' := copied b (holding ys junk) (Z.to_nat (cq_head q)) 0 (length ys) in
  cq_ok q' ∧ Z.of_nat (length b') = cq_size q' ∧
  used q' = Z.of_nat (length (xs ++ ys)) ∧ stored b' q' (xs ++ ys).
Proof.
  intros Hok Hb Hu Hst Hroom Hshort. pose proof (used_cases q Hok) as Hc.
  pose proof Hok as (Hh & Ht & Hs). rewrite /short in Hshort.
  assert (cq_ok (set_head (cq_head q + Z.of_nat (length ys)) q)) as Hok'.
  { rewrite /cq_ok /=. lia. }
  assert (Z.to_nat (cq_head q) + length ys ≤ length b) as Hin by lia.
  assert (0 + length ys ≤ length (holding ys junk)) as Hin' by (rewrite length_holding; lia).
  split_and!; [done|by rewrite length_copied| |].
  - rewrite (used_cases _ Hok') /= length_app. repeat case_bool_decide; lia.
  - intros i x Hx. rewrite lookup_copied //. simpl.
    rewrite mod_cases; [|apply lookup_lt_Some in Hx; rewrite length_app in Hx; lia].
    apply lookup_app_Some in Hx as [Hx|[Hi Hx]]; pose proof (lookup_lt_Some _ _ _ Hx) as Hlt.
    + rewrite decide_False; [|repeat case_bool_decide; lia].
      specialize (Hst i x Hx). rewrite mod_cases in Hst; [done|lia].
    + rewrite decide_True; [|repeat case_bool_decide; lia].
      rewrite -(holding_lookup ys junk _ x Hx). f_equal. repeat case_bool_decide; lia.
Qed.

(** A write that does not reach the end of the buffer appends the bytes; one for
    which there is no room is refused. *)
Lemma cycle_queue_write_short q xs m ys junk :
  short q (cq_head q) (Z.of_nat (length ys)) ∨ (cq_size q ≤ used q + Z.of_nat (length ys))%Z →
  {{ cyclequeue q xs ∗ m ↦ holding ys junk }}
    cycle_queue_write (Some q) (Some m) (Z.of_nat (length ys))
  {{ r, m ↦ holding ys junk ∗
        if bool_decide (used q + Z.of_nat (length ys) < cq_size q)%Z
        then ∃ q', ⌈ r = (0%Z, Some q') ⌉ ∗ ⌈ cq_tail q' = cq_tail q ∧ cq_size q' = cq_size q ⌉ ∗
             cyclequeue q' (xs ++ ys)
        else ⌈ r = ((-1)%Z, Some q) ⌉ ∗ cyclequeue q xs }}.
Proof.
  intros Hcase. apply triple_wp. iIntros "[(%l & %b & %Hq & Hl) Hm]".
  destruct Hq as (Hbuf & Hok & Hb & Hu & Hst). pose proof Hok as (Hh & Ht & Hs).
  rewrite /cycle_queue_write (free_size_used q Hok).
  case_bool_decide as Hfull.
  { wp_pures. iFrame. rewrite bool_decide_eq_false_2; [|lia]. iSplit; [done|].
    iExists l, b. by iFrame. }
  rewrite (bool_decide_eq_true_2 (_ < cq_size q)%Z); [|lia].
  destruct Hcase as [Hshort|]; [|lia]. pose proof Hshort as Hshort'. rewrite /short in Hshort'.
  rewrite (u32_id (cq_head q + _)); [|lia]. rewrite (u32_id (cq_size q - 1)); [|lia].
  rewrite bool_decide_eq_true_2; [|lia]. rewrite Hbuf.
  wp_bind. iApply (wp_block_copy with "Hl Hm"); [lia|lia|lia|lia|rewrite length_holding; lia|].
  iIntros "Hl Hm". rewrite /umod bool_decide_eq_false_2; [|lia]. wp_pures.
  rewrite Z.mod_small; [|lia]. rewrite Nat2Z.id. iFrame "Hm". iExists _. iSplit; [done|]. iSplit; [done|].
  destruct (stored_append b q xs ys junk) as (? & ? & ? & ?); try done; [lia|].
  iExists l, _. iFrame. by iPureIntro.
Qed.

Lemma stored_take b q xs k o :
  cq_ok q → Z.of_nat (length b) = cq_size q → used q = Z.of_nat (length xs) → stored b q xs →
  k ≤ length xs → k ≤ length o → short q (cq_tail q) (Z.of_nat k) →
  let q' := set_tail (cq_tail q + Z.of_nat k) q in
  copied o b 0 (Z.to_nat (cq_tail q)) k = holding (take k xs) (drop k o) ∧
  cq_ok q' ∧ used q' = Z.of_nat (length (drop k xs)) ∧ stored b q' (drop k xs).
Proof.
  intros Hok Hb Hu Hst Hk Ho Hshort. pose proof (used_cases q Hok) as Hc.
  pose proof Hok as (Hh & Ht & Hs). rewrite /short in Hshort.
  assert (cq_ok (set_tail (cq_tail q + Z.of_nat k) q)) as Hok' by (rewrite /cq_ok /=; lia).
  split_and!; [|done| |].
  - rewrite /copied /holding /=. f_equal. apply list_eq. intros i.
    destruct (decide (i < k)) as [Hi|Hi].
    + rewrite lookup_take_lt // lookup_drop list_lookup_fmap lookup_take_lt //.
      destruct (lookup_lt_is_Some_2 xs i) as [x Hx]; [lia|]. rewrite Hx /=.
      rewrite -(Hst i x Hx) mod_cases; [|lia]. rewrite bool_decide_eq_true_2; [|lia]. f_equal. lia.
    + rewrite !lookup_ge_None_2 //; rewrite ?length_fmap length_take ?length_drop; lia.
  - rewrite (used_cases _ Hok') /= length_drop. repeat case_bool_decide; lia.
  - intros i x Hx. rewrite lookup_drop in Hx. rewrite -(Hst _ _ Hx) /=. do 3 f_equal. lia.
Qed.

(** A read that does not reach the end of the buffer takes the oldest bytes, as
    many as are asked for and available. *)
Lemma cycle_queue_read_short q xs m o len :
  let k := Z.min len (Z.of_nat (length xs)) in
  (0 < len)%Z → (k ≤ Z.of_nat (length o))%Z → short q (cq_tail q) k →
  {{ cyclequeue q xs ∗ m ↦ o }} cycle_queue_read (Some q) (Some m) (Some len)
  {{ r, ∃ q', ⌈ r = (0%Z, Some k, Some q') ⌉ ∗ cyclequeue q' (drop (Z.to_nat k) xs) ∗
        m ↦ holding (take (Z.to_nat k) xs) (drop (Z.to_nat k) o) }}.
Proof.
  intros k Hlen Ho Hshort. apply triple_wp. iIntros "[(%l & %b & %Hq & Hl) Hm]".
  destruct Hq as (Hbuf & Hok & Hb & Hu & Hst). pose proof Hok as (Hh & Ht & Hs).
  rewrite /cycle_queue_read (data_size_used q Hok).
  rewrite (bool_decide_eq_false_2 (len <= 0)%Z); [|lia]. case_bool_decide as Hempty.
  { assert (k = 0%Z) as -> by lia. wp_pures. iExists q. iSplit; [done|]. rewrite /holding /=.
    iSplitL "Hl"; [iExists l, b; by iFrame|done]. }
  assert ((if bool_decide (used q < len)%Z then used q else len) = k) as ->.
  { case_bool_decide; lia. }
  pose proof Hshort as Hshort'. rewrite /short in Hshort'.
  rewrite (u32_id (cq_tail q + _)); [|lia]. rewrite (u32_id (cq_size q - 1)); [|lia].
  rewrite bool_decide_eq_true_2; [|lia]. rewrite Hbuf.
  wp_bind. iApply (wp_block_copy with "Hm Hl"); [lia|lia|lia|lia|lia|].
  iIntros "Hm Hl". rewrite /umod bool_decide_eq_false_2; [|lia]. wp_pures.
  rewrite Z.mod_small; [|lia].
  destruct (stored_take b q xs (Z.to_nat k) o) as (Hcopy & Hok' & Hu' & Hst'); try done; [lia|lia| |].
  { rewrite /short Z2Nat.id; [done|lia]. }
  rewrite Z2Nat.id in Hok' Hu' Hst'; [|lia]. rewrite Hcopy. iExists _. iSplit; [done|].
  iSplitL "Hl"; [iExists l, b; by iFrame|done].
Qed.

(** ** Crossing the end *)

(** The two copies of a transfer of [n] bytes that crosses the end at [h]. *)
Definition part1 (q : CycleQueue) (h : Z) : nat := Z.to_nat (cq_size q - 1 - h).
Definition cross_in (b : block) (ys : list Z) junk (h p : nat) : block :=
  copied (copied b (holding ys junk) h 0 p) (holding ys junk) 0 p (length ys - p).
Definition cross_out (o b : block) (n h p : nat) : block :=
  copied (copied o b 0 h p) b p 0 (n - p).

(** What one crossing transfer puts in, the other at the same place gets out. *)
Lemma cross_roundtrip b o ys junk h p :
  p ≤ length ys → h + p < length b → length ys - p ≤ h → length ys ≤ length o →
  cross_out o (cross_in b ys junk h p) (length ys) h p = holding ys (drop (length ys) o).
Proof.
  intros Hp Hh Hn Ho. rewrite /cross_out /cross_in.
  assert (length (holding ys junk) = length ys + length junk) as Hl by apply length_holding.
  assert (length (copied b (holding ys junk) h 0 p) = length b) as Hl1 by (apply length_copied; lia).
  set (b2 := copied (copied b (holding ys junk) h 0 p) (holding ys junk) 0 p (length ys - p)).
  assert (length b2 = length b) as Hl2 by (rewrite /b2 length_copied; lia).
  assert (length (copied o b2 0 h p) = length o) as Hl3 by (apply length_copied; lia).
  apply list_eq. intros i. rewrite lookup_copied; [|lia..].
  assert (∀ j, length ys ≤ j → holding ys (drop (length ys) o) !! j = o !! j) as Hrest.
  { intros j Hj. rewrite /holding lookup_app_r ?length_fmap // lookup_drop. f_equal. lia. }
  assert (∀ j z, j < length ys → holding ys z !! j = (Some <$> ys) !! j) as Hin.
  { intros j z Hj. rewrite /holding lookup_app_l ?length_fmap //. }
  case_decide as H1.
  - rewrite /b2 lookup_copied; [|lia..]. rewrite decide_True; [|lia]. rewrite !Hin; [|lia..].
    f_equal. lia.
  - rewrite lookup_copied; [|lia..]. case_decide as H2; [|rewrite Hrest; [done|lia]].
    rewrite /b2 lookup_copied; [|lia..]. rewrite decide_False; [|lia].
    rewrite lookup_copied; [|lia..]. rewrite decide_True; [|lia]. rewrite !Hin; [|lia..].
    f_equal. lia.
Qed.

Lemma crossing_free q l b m ys junk (Φ : Z * option CycleQueue → hProp block) :
  cq_buf q = Some l → cq_ok q → Z.of_nat (length b) = cq_size q → used q = 0%Z →
  (Z.of_nat (length ys) < cq_size q)%Z → ¬ short q (cq_head q) (Z.of_nat (length ys)) →
  (2 * cq_size q ≤ UINT_MOD)%Z →
  l ↦ b -∗ m ↦ holding ys junk -∗
  (l ↦ cross_in b ys junk (Z.to_nat (cq_head q)) (part1 q (cq_head q)) -∗ m ↦ holding ys junk -∗
   Φ (0%Z, Some (set_head ((cq_head q + Z.of_nat (length ys)) `mod` cq_size q) q))) -∗
  wp (cycle_queue_write (Some q) (Some m) (Z.of_nat (length ys))) Φ.
Proof.
  iIntros (Hbuf Hok Hb Hu Hn Hcross Hbig) "Hl Hm HΦ". rewrite /short in Hcross.
  pose proof Hok as (Hh & Ht & Hs). rewrite /cycle_queue_write (free_size_used q Hok).
  rewrite bool_decide_eq_false_2; [|lia].
  rewrite (u32_id (cq_head q + _)); [|lia]. rewrite (u32_id (cq_size q - 1)); [|lia].
  rewrite bool_decide_eq_false_2; [|lia]. rewrite (u32_id (cq_size q - 1 - _)); [|lia].
  rewrite u32_id; [|lia]. rewrite Hbuf. iApply wp_bind. wp_bind.
  pose proof (length_holding ys junk).
  iApply (wp_block_copy with "Hl Hm"); [lia|lia|lia|lia|lia|]. iIntros "Hl Hm".
  iApply (wp_block_copy with "Hl Hm"); [lia|lia|lia|rewrite length_copied; lia|lia|]. iIntros "Hl Hm".
  rewrite /umod bool_decide_eq_false_2; [|lia]. wp_pures.
  iApply ("HΦ" with "[Hl] Hm"). rewrite /cross_in /part1.
  replace (length ys - Z.to_nat (cq_size q - 1 - cq_head q)) with
    (Z.to_nat (Z.of_nat (length ys) - (cq_size q - 1 - cq_head q))) by lia. done.
Qed.

Lemma crossing_read q l b m o n len (Φ : Z * option Z * option CycleQueue → hProp block) :
  cq_buf q = Some l → cq_ok q → Z.of_nat (length b) = cq_size q → used q = Z.of_nat n →
  0 < n → (Z.of_nat n ≤ len)%Z → n ≤ length o →
  ¬ short q (cq_tail q) (Z.of_nat n) → (2 * cq_size q ≤ UINT_MOD)%Z →
  m ↦ o -∗ l ↦ b -∗
  (m ↦ cross_out o b n (Z.to_nat (cq_tail q)) (part1 q (cq_tail q)) -∗ l ↦ b -∗
   Φ (0%Z, Some (Z.of_nat n), Some (set_tail ((cq_tail q + Z.of_nat n) `mod` cq_size q) q))) -∗
  wp (cycle_queue_read (Some q) (Some m) (Some len)) Φ.
Proof.
  iIntros (Hbuf Hok Hb Hu Hpos Hlen Ho Hcross Hbig) "Hm Hl HΦ". rewrite /short in Hcross.
  pose proof Hok as (Hh & Ht & Hs). pose proof (used_range q Hok).
  rewrite /cycle_queue_read (data_size_used q Hok).
  rewrite (bool_decide_eq_false_2 (len <= 0)%Z); [|lia].
  rewrite (bool_decide_eq_false_2 (used q = 0)%Z); [|lia].
  assert ((if bool_decide (used q < len)%Z then used q else len) = Z.of_nat n) as ->.
  { case_bool_decide; lia. }
  rewrite (u32_id (cq_tail q + _)); [|lia]. rewrite (u32_id (cq_size q - 1)); [|lia].
  rewrite bool_decide_eq_false_2; [|lia]. rewrite (u32_id (cq_size q - 1 - _)); [|lia].
  rewrite u32_id; [|lia]. rewrite Hbuf. iApply wp_bind. wp_bind.
  iApply (wp_block_copy with "Hm Hl"); [lia|lia|lia|lia|lia|]. iIntros "Hm Hl".
  iApply (wp_block_copy with "Hm Hl"); [lia|lia|lia|rewrite length_copied; lia|lia|]. iIntros "Hm Hl".
  rewrite /umod bool_decide_eq_false_2; [|lia]. wp_pures.
  iApply ("HΦ" with "[Hm] Hl"). rewrite /cross_out /part1.
  replace (n - Z.to_nat (cq_size q - 1 - cq_tail q)) with
    (Z.to_nat (Z.of_nat n - (cq_size q - 1 - cq_tail q))) by lia. done.
Qed.

(** Bytes come out in the order in which they went in, whatever the queue
    already held, as long as no transfer reaches the end of the buffer. *)
Theorem cycle_queue_fifo q xs ys m junk m' o len :
  let k := Z.min len (Z.of_nat (length (xs ++ ys))) in
  (Z.of_nat (length (xs ++ ys)) < cq_size q)%Z → short q (cq_head q) (Z.of_nat (length ys)) →
  (0 < len)%Z → (k ≤ Z.of_nat (length o))%Z → short q (cq_tail q) k →
  {{ cyclequeue q xs ∗ m ↦ holding ys junk ∗ m' ↦ o }}
    ('(r, thiz) ← cycle_queue_write (Some q) (Some m) (Z.of_nat (length ys));
     cycle_queue_read thiz (Some m') (Some len))
  {{ r, ∃ q', ⌈ r = (0%Z, Some k, Some q') ⌉ ∗ cyclequeue q' (drop (Z.to_nat k) (xs ++ ys)) ∗
        m ↦ holding ys junk ∗
        m' ↦ holding (take (Z.to_nat k) (xs ++ ys)) (drop (Z.to_nat k) o) }}.
Proof.
  intros k Hroom Hw Hlen Ho Hr. apply triple_wp. iIntros "(Hq & Hm & Hm')".
  iAssert ⌜used q = Z.of_nat (length xs)⌝%I as %Hu.
  { iDestruct "Hq" as "(%l & %b & %Hq & _)". iPureIntro. apply Hq. }
  wp_bind. iApply (triple_use with "[Hq Hm]");
    [apply (cycle_queue_write_short q xs m ys junk); by left|iSplitL "Hq"; done|].
  iIntros (r) "[Hm H]". rewrite bool_decide_eq_true_2; [|rewrite Hu; rewrite length_app in Hroom; lia].
  iDestruct "H" as "(%q' & -> & %Hq' & Hq)". destruct Hq' as [Htl Hsz].
  iApply (triple_use with "[Hq Hm']");
    [apply (cycle_queue_read_short q' (xs ++ ys) m' o len); [done|done|by rewrite /short Htl Hsz]
    |iSplitL "Hq"; done|].
  iIntros (r) "(%q'' & -> & Hq & Hm')". iExists q''. iSplit; [done|].
  iSplitL "Hq"; [done|]. iSplitL "Hm"; done.
Qed.

(** C35. Through an empty queue every sequence of bytes that fits comes back intact,
    also when it crosses the end of the buffer. *)
Theorem cycle_queue_write_read q ys m junk m' o len :
  (0 < Z.of_nat (length ys) < cq_size q)%Z → (Z.of_nat (length ys) ≤ len)%Z →
  length ys ≤ length o → (2 * cq_size q ≤ UINT_MOD)%Z →
  {{ cyclequeue q [] ∗ m ↦ holding ys junk ∗ m' ↦ o }}
    ('(r, thiz) ← cycle_queue_write (Some q) (Some m) (Z.of_nat (length ys));
     cycle_queue_read thiz (Some m') (Some len))
  {{ r, ∃ q', ⌈ r = (0%Z, Some (Z.of_nat (length ys)), Some q') ⌉ ∗ cyclequeue q' [] ∗
        m ↦ holding ys junk ∗ m' ↦ holding ys (drop (length ys) o) }}.
Proof.
  intros Hn Hlen Ho Hbig. apply triple_wp. iIntros "(Hq & Hm & Hm')".
  iDestruct "Hq" as "(%l & %b & %Hq & Hl)". destruct Hq as (Hbuf & Hok & Hb & Hu & Hst).
  pose proof Hok as (Hh & Ht & Hs). pose proof (used_cases q Hok) as Hc. rewrite Hu /= in Hc.
  assert (cq_head q = cq_tail q) as Heq by (case_bool_decide; lia).
  destruct (decide (short q (cq_head q) (Z.of_nat (length ys)))) as [Hshort|Hcross].
  - wp_bind. iApply (triple_use with "[Hl Hm]");
      [apply (cycle_queue_write_short q [] m ys junk); by left|iSplitL "Hl"; [iExists l, b; by iFrame|done]|].
    iIntros (r) "[Hm H]". rewrite bool_decide_eq_true_2; [|rewrite Hu /=; lia].
    iDestruct "H" as "(%q' & -> & %Hq' & Hq)". destruct Hq' as [Htl Hsz].
    assert (Z.min len (Z.of_nat (length ([] ++ ys))) = Z.of_nat (length ys)) as Hmin by (simpl; lia).
    pose proof (cycle_queue_read_short q' ([] ++ ys) m' o len) as Hread. rewrite Hmin in Hread.
    iApply (triple_use with "[Hq Hm']");
      [apply Hread; [lia|lia|by rewrite /short Htl Hsz -Heq]|iSplitL "Hq"; done|].
    iIntros (r) "(%q'' & -> & Hq & Hm')". rewrite Nat2Z.id /= firstn_all drop_all. iExists q''.
    iSplit; [done|]. iSplitL "Hq"; [done|]. iSplitL "Hm"; done.
  - wp_bind. iApply (crossing_free q l with "Hl Hm"); try done; [lia|]. iIntros "Hl Hm".
    set (q' := set_head _ q). set (b' := cross_in _ _ _ _ _).
    pose proof Hcross as Hcross'. rewrite /short in Hcross'.
    assert (length b' = length b) as Hb'.
    { pose proof (length_holding ys junk). rewrite /b' /cross_in /part1 !length_copied; lia. }
    pose proof (Z.mod_pos_bound (cq_head q + Z.of_nat (length ys)) (cq_size q) ltac:(lia)).
    assert (cq_ok q') as Hok' by (rewrite /cq_ok /=; lia).
    assert (used q' = Z.of_nat (length ys)) as Hu'.
    { rewrite (used_cases q' Hok') /= mod_cases; [|lia]. repeat case_bool_decide; lia. }
    iApply (crossing_read q' l b' m' o (length ys) with "Hm' Hl"); try done; [|lia| |].
    { by rewrite Hb'. }
    { rewrite /short /= -Heq. done. }
    iIntros "Hm' Hl". iExists (set_tail (cq_head q') q'). iSplit.
    { iPureIntro. rewrite /q' /= Heq. done. }
    rewrite /q' /= /b' Heq cross_roundtrip; [|rewrite /part1; lia..].
    iSplitL "Hl"; [|iSplitL "Hm"; done]. iExists l, _. iFrame. iPureIntro.
    split_and!; [done|rewrite /cq_ok /= -Heq; lia| | |done].
    + rewrite -Heq -/b' Hb'. done.
    + rewrite /used /= Z.sub_diag Zmod_0_l. done.
Qed.
(** Destroying a queue releases the object alone: the buffer stays allocated,
    and no one holds a pointer to it. *)
Lemma cycle_queue_destroy_leak q xs :
  {{ cyclequeue q xs }} cycle_queue_destroy (Some q)
  {{ r, ⌈ r = None ⌉ ∗ ∃ l b, ⌈ cq_buf q = Some l ⌉ ∗ l ↦ b }}.
Proof.
  apply triple_wp. iIntros "(%l & %b & %Hq & Hl)". wp_pures. iSplit; [done|].
  iExists l, b. iFrame. iPureIntro. apply Hq.
Qed.
End proofs.

(** ** Runs on concrete heaps *)

Module Runs.
#[local] Instance alloc : Allocator block := total_alloc [].

(** A queue of eight cells that was written and read up to some cell, the
    caller's bytes, and four places to read to. *)
Definition eight (at_ : Z) : CycleQueue :=
  {| cq_head := at_; cq_tail := at_; cq_size := 8; cq_buf := Some 1%positive |}.
Definition cells3 (ys : list Z) : gmap loc block :=
  {[1%positive := replicate 8 (Some 0%Z)]} ∪
  ({[2%positive := holding ys []]} ∪ {[3%positive := replicate 4 (Some 0%Z)]}).

Lemma eight_ok a : (0 ≤ a < 8)%Z → cq_ok (eight a).
Proof. intros Ha. rewrite /cq_ok /= /UINT_MOD. lia. Qed.

Lemma eight_holds a ys :
  (0 ≤ a < 8)%Z →
  holds (cyclequeue (eight a) [] ∗ 2%positive ↦ holding ys [] ∗ 3%positive ↦ replicate 4 (Some 0%Z))%I
    (cells3 ys).
Proof.
  intros Ha. rewrite /cells3. apply holds_sep.
  eexists _, _. split; [reflexivity|]. split; [by apply map_disjoint_singleton_l_2|]. split.
  - eapply (holds_mono (1%positive ↦ replicate 8 (Some 0%Z))); [|done].
    iIntros "Hl". iExists _, _. iFrame. iPureIntro. split; [done|]. split; [by apply eight_ok|].
    split_and!; [done|by rewrite /used /= Z.sub_diag|done].
  - apply holds_sep. eexists _, _. split; [reflexivity|]. split; [by apply map_disjoint_singleton_l_2|done].
Qed.

Lemma cycle_queue_sizes_witness :
  (cycle_queue_get_free_size (Some (eight 3)) + cycle_queue_get_data_size (Some (eight 3)) = 7 ∧
   0 ≤ cycle_queue_get_data_size (Some (eight 3)) ≤ 7)%Z.
Proof. apply (cycle_queue_sizes (eight 3)). apply eight_ok. lia. Defined.

Lemma cycle_queue_fifo_witness :
  ∃ q m t, ('(r, thiz) ← cycle_queue_write (Some (eight 1)) (Some 2%positive) 3;
            cycle_queue_read thiz (Some 3%positive) (Some 2%Z)) (Mem (cells3 [1; 2; 3]%Z) 0) =
    Ok ((0%Z, Some 2%Z, Some q), Mem m t) ∧
    m !! 3%positive = Some (holding [1; 2]%Z [Some 0; Some 0]%Z) ∧ cq_tail q = 3%Z.
Proof.
  destruct (triple_run _ _ _ (cells3 [1; 2; 3]%Z) 0 (cycle_queue_fifo (eight 1) [] [1; 2; 3]%Z
    2%positive [] 3%positive (replicate 4 (Some 0%Z)) 2 ltac:(simpl; lia) ltac:(by vm_compute)
    ltac:(lia) ltac:(simpl; lia) ltac:(by vm_compute)) (eight_holds 1 _ ltac:(lia)))
    as (r & h & t & E & _).
  exists (set_tail 3 (set_head 4 (eight 1))), h, t. revert E. vm_compute. intros [= <- <- <-]. by split.
Defined.

Lemma cycle_queue_write_read_witness :
  ∃ q m t, ('(r, thiz) ← cycle_queue_write (Some (eight 5)) (Some 2%positive) 4;
            cycle_queue_read thiz (Some 3%positive) (Some 4%Z)) (Mem (cells3 [1; 2; 3; 4]%Z) 0) =
    Ok ((0%Z, Some 4%Z, Some q), Mem m t) ∧
    m !! 3%positive = Some (holding [1; 2; 3; 4]%Z []) ∧ cq_tail q = 1%Z.
Proof.
  destruct (triple_run _ _ _ (cells3 [1; 2; 3; 4]%Z) 0 (cycle_queue_write_read (eight 5) [1; 2; 3; 4]%Z
    2%positive [] 3%positive (replicate 4 (Some 0%Z)) 4 ltac:(simpl; lia) ltac:(simpl; lia)
    ltac:(simpl; lia) ltac:(by vm_compute)) (eight_holds 5 _ ltac:(lia)))
    as (r & h & t & E & _).
  exists (set_tail 1 (set_head 1 (eight 5))), h, t. revert E. vm_compute. intros [= <- <- <-]. by split.
Defined.

(** When the read stops elsewhere than the write did, the byte at the crossing
    is read twice and the last one is lost: of 1, 2, 3, 4 written at cell five
    the first three come out as 1, 2, 3, and the next one as 3. *)
Lemma cycle_queue_crossing_repeats :
  match ('(_, q) ← cycle_queue_write (Some (eight 5)) (Some 2%positive) 4;
         '(_, _, q) ← cycle_queue_read q (Some 3%positive) (Some 3%Z);
         a ← block_get (Some 3%positive) 0; b ← block_get (Some 3%positive) 1;
         c ← block_get (Some 3%positive) 2;
         '(_, _, q) ← cycle_queue_read q (Some 3%positive) (Some 1%Z);
         d ← block_get (Some 3%positive) 0;
         mret [a; b; c; d]) (Mem (cells3 [1; 2; 3; 4]%Z) 0)
  with Ok (bytes, _) => bytes = [1; 2; 3; 3]%Z | Err _ => False end.
Proof. vm_compute. reflexivity. Qed.
End Runs.
