(* ===== verification/Trie.v ===== *)
(** * Trie: the code of trie.c

    Nodes with 256 links each, a counter of the keys that run through the node
    and the value of the key that ends there.  A string is the list of the
    [char]s from the pointer to its end, terminator included; [char] is signed,
    as on the platforms the program is built for, and it is the index into the
    links.  TrieNodes holds the invariant, TrieOps the proofs. *)
From stdpp Require Import base gmap list numbers.
From iris.proofmode Require Import proofmode.
From S2P Require Import Prelude Memory.

Record TrieNode := TNode { t_data : value; t_use_count : Z; t_next : list ptr }.

Definition put_data (v : value) (n : TrieNode) : TrieNode := TNode v (t_use_count n) (t_next n).
Definition put_use (u : Z) (n : TrieNode) : TrieNode := TNode (t_data n) u (t_next n).
Definition put_next (next : list ptr) (n : TrieNode) : TrieNode :=
  TNode (t_data n) (t_use_count n) next.

Record Trie := { root_node : ptr }.

(** A [TrieNode *] stored in a [TrieValue], and back. *)
Definition address (p : ptr) : value := match p with NULL => VNULL | Some l => Z.pos l end.
Definition pointer (v : value) : ptr := match v with Z.pos l => Some l | _ => NULL end.

(** The all-zero node. *)
Definition zero_node : TrieNode := TNode VNULL 0 (replicate 256 NULL).

(** A place that holds a link: a [TrieNode **]. *)
Inductive tslot : Set :=
  | TRoot
  | TNext (node : ptr) (c : Z).

Definition read_tslot (trie : Trie) (s : tslot) : M TrieNode ptr :=
  match s with
  | TRoot => mret (root_node trie)
  | TNext node c => n ← deref node; aget (t_next n) c
  end.
Definition write_tslot (trie : Trie) (s : tslot) (p : ptr) : M TrieNode Trie :=
  match s with
  | TRoot => mret {| root_node := p |}
  | TNext node c =>
      n ← deref node; next ← aset (t_next n) c p; _ ← assign node (put_next next n); mret trie
  end.

(** [*p], which is a fault beyond the end of the string. *)
Definition read_char (p : list Z) : M TrieNode Z :=
  match p with [] => fail OutOfBounds | c :: _ => mret c end.

(** Conversion of an [unsigned int] to [int]. *)
Definition to_int (z : Z) : Z := if bool_decide (z <= INT_MAX)%Z then z else (z - UINT_MOD)%Z.

(** [trie_free_list_push(&list, node)] returns the new list,
    [trie_free_list_pop(&list)] the node and the new list. *)
Definition trie_free_list_push (list node : ptr) : M TrieNode ptr :=
  _ ← modify node (put_data (address list)); mret node.

Definition trie_free_list_pop (list : ptr) : M TrieNode (ptr * ptr) :=
  n ← deref list; mret (list, pointer (t_data n)).

(** The [for] loop over the children of a node. *)
Definition trie_push_children (node : ptr) (free_list : ptr) : M TrieNode ptr :=
  for_loop 256 0 (λ i free_list,
    n ← deref node;
    child ← aget (t_next n) i;
    match child with
    | NULL => mret free_list
    | Some _ => trie_free_list_push free_list child
    end) free_list.

Definition trie_free (fuel : nat) (trie : Trie) : M TrieNode unit :=
  free_list ← match root_node trie with
              | NULL => mret NULL
              | Some _ => trie_free_list_push NULL (root_node trie)
              end;
  loop fuel (λ free_list,
    match free_list with
    | NULL => mret (inr tt)
    | Some _ =>
        '(node, free_list) ← trie_free_list_pop free_list;
        free_list ← trie_push_children node free_list;
        _ ← free node;
        mret (inl free_list)
    end) free_list.

(** The [for] loop of [trie_find_end] from [node] and [p] on. *)
Fixpoint trie_find_walk (node : ptr) (p : list Z) : M TrieNode ptr :=
  match p with
  | [] => fail OutOfBounds
  | c :: p' =>
      if bool_decide (c = 0)%Z then mret node
      else
        match node with
        | NULL => mret NULL
        | Some _ => n ← deref node; next ← aget (t_next n) c; trie_find_walk next p'
        end
  end.

Definition trie_find_end (trie : Trie) (key : list Z) : M TrieNode ptr :=
  trie_find_walk (root_node trie) key.

(** The loop of [trie_insert_rollback]; [prev_ptr] is [None] when it is null. *)
Fixpoint trie_rollback_walk (trie : Trie) (node : ptr) (prev_ptr : option tslot) (p : list Z) :
    M TrieNode Trie :=
  match node with
  | NULL => mret trie
  | Some _ =>
      match p with
      | [] => fail OutOfBounds
      | c :: p' =>
          let next_prev_ptr := TNext node c in
          next_node ← read_tslot trie next_prev_ptr;
          _ ← modify node (λ n, put_use (u32 (t_use_count n - 1)) n);
          n ← deref node;
          if bool_decide (t_use_count n = 0)%Z then
            _ ← free node;
            trie ← match prev_ptr with
                   | None => mret trie
                   | Some s => write_tslot trie s NULL
                   end;
            trie_rollback_walk trie next_node None p'
          else trie_rollback_walk trie next_node (Some next_prev_ptr) p'
      end
  end.

Definition trie_insert_rollback (trie : Trie) (key : list Z) : M TrieNode Trie :=
  trie_rollback_walk trie (root_node trie) (Some TRoot) key.

(** [++node->use_count]. *)
Definition bump_use (n : TrieNode) : TrieNode := put_use (u32 (t_use_count n + 1)) n.

Section trie_c.
Context `{Allocator TrieNode}.

Definition trie_new : M TrieNode (option Trie) :=
  granted ← malloc_array;
  if negb granted then mret None else mret (Some {| root_node := NULL |}).

(** One round of the loop of [trie_insert] up to the test for the end of the
    string: the node at [*rover], or [NULL] when it could not be created. *)
Definition trie_enter (trie : Trie) (rover : tslot) : M TrieNode (ptr * Trie) :=
  node ← read_tslot trie rover;
  match node with
  | Some _ => _ ← modify node bump_use; mret (node, trie)
  | NULL =>
      node ← calloc zero_node;
      match node with
      | NULL => mret (NULL, trie)
      | Some _ =>
          _ ← modify node (put_data VNULL);
          trie ← write_tslot trie rover node;
          _ ← modify node bump_use;
          mret (node, trie)
      end
  end.

(** The loop of [trie_insert] with the pointer [p] into [key]. *)
Fixpoint trie_insert_walk (trie : Trie) (key : list Z) (v : value) (rover : tslot) (p : list Z) :
    M TrieNode (Z * Trie) :=
  '(node, trie) ← trie_enter trie rover;
  match node with
  | NULL => trie ← trie_insert_rollback trie key; mret (0%Z, trie)
  | Some _ =>
      match p with
      | [] => fail OutOfBounds
      | c :: p' =>
          if bool_decide (c = 0)%Z then _ ← modify node (put_data v); mret (1%Z, trie)
          else trie_insert_walk trie key v (TNext node c) p'
      end
  end.

Definition trie_insert (trie : Trie) (key : list Z) (v : value) : M TrieNode (Z * Trie) :=
  if bool_decide (v = VNULL) then mret (0%Z, trie)
  else
    node ← trie_find_end trie key;
    present ← match node with
              | NULL => mret false
              | Some _ => n ← deref node; mret (bool_decide (t_data n ≠ VNULL))
              end;
    if (present : bool) then _ ← modify node (put_data v); mret (1%Z, trie)
    else trie_insert_walk trie key v TRoot key.
End trie_c.

(** The loop of [trie_remove]. *)
Fixpoint trie_remove_walk (trie : Trie) (node : ptr) (last_next_ptr : option tslot) (p : list Z) :
    M TrieNode Trie :=
  match p with
  | [] => fail OutOfBounds
  | c :: p' =>
      n ← deref node;
      next ← aget (t_next n) c;
      _ ← modify node (λ n, put_use (u32 (t_use_count n - 1)) n);
      n ← deref node;
      '(last_next_ptr, trie) ←
        (if bool_decide (t_use_count n <= 0)%Z then
           _ ← free node;
           match last_next_ptr with
           | None => mret (None, trie)
           | Some s => trie ← write_tslot trie s NULL; mret (None, trie)
           end
         else mret (last_next_ptr, trie));
      if bool_decide (c = 0)%Z then mret trie
      else
        let last_next_ptr := match last_next_ptr with
                             | None => None
                             | Some _ => Some (TNext node c)
                             end in
        trie_remove_walk trie next last_next_ptr p'
  end.

Definition trie_remove (trie : Trie) (key : list Z) : M TrieNode (Z * Trie) :=
  node ← trie_find_end trie key;
  present ← match node with
            | NULL => mret false
            | Some _ => n ← deref node; mret (bool_decide (t_data n ≠ VNULL))
            end;
  if (present : bool) then
    _ ← modify node (put_data VNULL);
    trie ← trie_remove_walk trie (root_node trie) (Some TRoot) key;
    mret (1%Z, trie)
  else mret (0%Z, trie).

Definition trie_lookup (trie : Trie) (key : list Z) : M TrieNode value :=
  node ← trie_find_end trie key;
  match node with
  | Some _ => n ← deref node; mret (t_data n)
  | NULL => mret VNULL
  end.

Definition trie_num_entries (trie : Trie) : M TrieNode Z :=
  match root_node trie with
  | NULL => mret 0%Z
  | Some _ => n ← deref (root_node trie); mret (to_int (t_use_count n))
  end.
