(* ===== verification/TrieNodes.v ===== *)
(** * TrieNodes: the nodes of a trie as a finite map

    The nodes are indexed by their path from the root, written backwards, so
    that the parent of [c :: p] is [p] and the keys of the map [m] are reversed
    strings.  [trie_nodes] says which nodes there are and what they hold; it is
    also true in the middle of an insertion or a removal, when the counters on
    part of the way to one key are one ahead of the keys. *)
From stdpp Require Import base gmap list numbers.
From iris.proofmode Require Import proofmode.
From S2P Require Import Prelude Memory Trie.

Abbreviation path := (list Z).
Abbreviation nodes := (gmap path (loc * TrieNode)).

Definition node_at (R : nodes) (p : path) : ptr := fst <$> R !! p.

Lemma node_at_Some R p l n : R !! p = Some (l, n) → node_at R p = Some l.
Proof. rewrite /node_at. by intros ->. Qed.

Lemma node_at_None R p : R !! p = None → node_at R p = NULL.
Proof. rewrite /node_at. by intros ->. Qed.

(** The number of keys below [p]. *)
Definition passing (m : gmap path value) (p : path) : nat :=
  size (filter (λ kv, p `suffix_of` kv.1) m).

(** 1 on the way to [key] at the depths from [i] to [d]. *)
Definition on_way (key : path) (i d : nat) (p : path) : nat :=
  if decide (p `suffix_of` key ∧ i ≤ length p < d) then 1 else 0.

Record trie_nodes (root : ptr) (R : nodes) (m : gmap path value) (X : path → nat) : Prop := {
  tn_root : root = node_at R [];
  tn_dom p : is_Some (R !! p) ↔ 0 < passing m p + X p;
  tn_length p l n : R !! p = Some (l, n) → length (t_next n) = 256;
  tn_next p l n c : R !! p = Some (l, n) → (0 ≤ c < 256)%Z →
    t_next n !! Z.to_nat c = Some (node_at R (c :: p));
  tn_use p l n : R !! p = Some (l, n) → t_use_count n = Z.of_nat (passing m p + X p);
  tn_data p l n : R !! p = Some (l, n) → t_data n = default VNULL (m !! p)
}.

(** ** Counting *)
Lemma passing_empty p : passing ∅ p = 0.
Proof. by rewrite /passing map_filter_empty map_size_empty. Qed.

Lemma passing_insert m k v p :
  m !! k = None →
  passing (<[k := v]> m) p = passing m p + if decide (p `suffix_of` k) then 1 else 0.
Proof.
  intros Hk. rewrite /passing map_filter_insert /=. case_decide as Hp.
  - rewrite map_size_insert_None; [lia|]. by apply map_lookup_filter_None_2; left.
  - by rewrite delete_id // Nat.add_0_r.
Qed.

Lemma passing_update m k v v' p :
  m !! k = Some v → passing (<[k := v']> m) p = passing m p.
Proof.
  intros Hk. rewrite -{2}(insert_delete_id m k v Hk) -insert_delete_eq.
  by rewrite !passing_insert // lookup_delete_eq.
Qed.

Lemma passing_delete m k v p :
  m !! k = Some v →
  passing m p = passing (delete k m) p + if decide (p `suffix_of` k) then 1 else 0.
Proof.
  intros Hk. rewrite -{1}(insert_delete_id m k v Hk) passing_insert // lookup_delete_eq //.
Qed.

Lemma passing_le m q p : q `suffix_of` p → passing m p ≤ passing m q.
Proof.
  intros Hq. apply map_subseteq_size, map_filter_subseteq_ext. intros k v _ Hp. simpl in *.
  by trans p.
Qed.

Lemma passing_root m : passing m [] = size m.
Proof.
  rewrite /passing map_filter_id //. intros k v _. apply suffix_nil.
Qed.

Lemma passing_pos m k v : m !! k = Some v → 0 < passing m k.
Proof. intros Hk. rewrite (passing_delete m k v) // decide_True //. lia. Qed.

Lemma passing_inv m p : 0 < passing m p → ∃ k, is_Some (m !! k) ∧ p `suffix_of` k.
Proof.
  intros Hp. destruct (map_choose (filter (λ kv, p `suffix_of` kv.1) m)) as (k & v & Hk).
  { intros Hf. rewrite /passing Hf map_size_empty in Hp. lia. }
  apply map_lookup_filter_Some in Hk as [Hk Hs]. exists k. split; [by eexists|done].
Qed.

Lemma passing_size m p : passing m p ≤ size m.
Proof. rewrite -passing_root. apply passing_le, suffix_nil. Qed.

(** The paths between [p] and [key]. *)
Lemma suffix_same_length (p q key : path) :
  p `suffix_of` key → q `suffix_of` key → length p = length q → p = q.
Proof.
  intros [a ->] [b Hb] Hl. apply app_inj_2 in Hb; [by destruct Hb|done].
Qed.

Lemma on_way_out key i d p : d ≤ i → on_way key i d p = 0.
Proof. intros Hi. rewrite /on_way decide_False //. lia. Qed.

Lemma on_way_all key p :
  on_way key 0 (S (length key)) p = if decide (p `suffix_of` key) then 1 else 0.
Proof.
  rewrite /on_way. apply decide_ext. split; [by intros []|].
  intros Hp. split; [done|]. apply suffix_length in Hp. lia.
Qed.

Lemma on_way_eq key i d p : p `suffix_of` key → i ≤ length p < d → on_way key i d p = 1.
Proof. intros. by rewrite /on_way decide_True. Qed.

Lemma on_way_before key i p : on_way key i (length p) p = 0.
Proof. rewrite /on_way decide_False //. lia. Qed.

Lemma on_way_after key d p : on_way key (S (length p)) d p = 0.
Proof. rewrite /on_way decide_False //. lia. Qed.

(** Counting one node more, at the end or at the start, changes nothing else. *)
Lemma on_way_end key i p q :
  p `suffix_of` key → q ≠ p → on_way key i (S (length p)) q = on_way key i (length p) q.
Proof.
  intros Hp Hq. rewrite /on_way. apply decide_ext.
  split; intros [? ?]; (split; [done|]); [|lia].
  destruct (decide (length q = length p)) as [Hl|]; [|lia].
  by destruct Hq; eapply suffix_same_length.
Qed.

Lemma on_way_start key d p q :
  p `suffix_of` key → q ≠ p → on_way key (length p) d q = on_way key (S (length p)) d q.
Proof.
  intros Hp Hq. rewrite /on_way. apply decide_ext.
  split; intros [? ?]; (split; [done|]); [|lia].
  destruct (decide (length q = length p)) as [Hl|]; [|lia].
  by destruct Hq; eapply suffix_same_length.
Qed.

(** ** Changing a link *)

(** The link that leads to [p] becomes [x]; there is none when the parent is
    not there, and the one of the root is the trie's. *)
Definition link (p : path) (x : ptr) (R : nodes) : nodes :=
  match p with
  | [] => R
  | c :: q => alter (λ ln, (ln.1, put_next (<[Z.to_nat c := x]> (t_next ln.2)) ln.2)) q R
  end.
Definition link_root (p : path) (x root : ptr) : ptr := match p with [] => x | _ => root end.

(** The last character of the path is an index of the links. *)
Definition indexed (p : path) : Prop := match p with [] => True | c :: _ => (0 ≤ c < 256)%Z end.

Lemma cons_ne (c : Z) (p : path) : c :: p ≠ p.
Proof. intros Hc. apply (f_equal length) in Hc. simpl in Hc. lia. Qed.

Lemma node_at_link p x R q : node_at (link p x R) q = node_at R q.
Proof.
  destruct p as [|c p]; simpl; [done|]. rewrite /node_at. destruct (decide (q = p)) as [->|Hq].
  - rewrite lookup_alter_eq. by destruct (R !! p).
  - by rewrite lookup_alter_ne.
Qed.

Lemma link_is_Some p x R q : is_Some (link p x R !! q) ↔ is_Some (R !! q).
Proof.
  assert (∀ R' : nodes, is_Some (R' !! q) ↔ is_Some (node_at R' q)) as Hn.
  { intros R'. by rewrite /node_at fmap_is_Some. }
  by rewrite (Hn R) -(node_at_link p x) -Hn.
Qed.

Lemma link_lookup_eq p x R : link p x R !! p = R !! p.
Proof. destruct p as [|c p]; simpl; [done|]. apply lookup_alter_ne, not_eq_sym, cons_ne. Qed.

(** A node after the change. *)
Lemma link_lookup p x R q l n' :
  indexed p → (∀ l n, R !! q = Some (l, n) → length (t_next n) = 256) →
  link p x R !! q = Some (l, n') →
  ∃ n, R !! q = Some (l, n) ∧ t_data n' = t_data n ∧ t_use_count n' = t_use_count n ∧
    length (t_next n') = 256 ∧
    ∀ c, (0 ≤ c < 256)%Z →
      t_next n' !! Z.to_nat c = if decide (c :: q = p) then Some x else t_next n !! Z.to_nat c.
Proof.
  intros Hp Hlen. destruct p as [|c0 p]; simpl in *.
  { intros HR. exists n'. split_and!; [done|done|done|by eapply Hlen|done]. }
  destruct (decide (q = p)) as [->|Hq].
  - rewrite lookup_alter_eq. destruct (R !! p) as [[l0 n]|] eqn:HR; [|done]. intros [= <- <-].
    exists n. specialize (Hlen _ _ eq_refl). split_and!; [done|done|done|by rewrite length_insert|].
    intros c Hc. simpl. case_decide as He; simplify_eq.
    + apply list_lookup_insert_eq. lia.
    + apply list_lookup_insert_ne. intros ?. apply He. f_equal. lia.
  - rewrite lookup_alter_ne //. intros HR. exists n'. split_and!; [done|done|done|by eapply Hlen|].
    intros c _. rewrite decide_False //. by intros [= _ ->].
Qed.

(** ** Steps of the invariant *)

Section steps.
Context (root : ptr) (R : nodes) (m : gmap path value) (X : path → nat).
Context (HR : trie_nodes root R m X).

Lemma nodes_ext X' : (∀ p, X' p = X p) → trie_nodes root R m X'.
Proof.
  intros HX. destruct HR as [H1 H2 H3 H4 H5 H6].
  split; [done| |done|done| |done]; setoid_rewrite HX; done.
Qed.

(** A node without keys below it has no child. *)
Lemma nodes_absent p q :
  R !! p = None → p `suffix_of` q → X q = 0 → R !! q = None.
Proof.
  intros Hp Hq HX. apply eq_None_not_Some. rewrite (tn_dom _ _ _ _ HR) HX.
  pose proof (passing_le m _ _ Hq). rewrite eq_None_not_Some (tn_dom _ _ _ _ HR) in Hp. lia.
Qed.

(** A node changes its counter or its value, together with the map. *)
Lemma nodes_update m' X' p l n n' :
  R !! p = Some (l, n) → t_next n' = t_next n →
  t_use_count n' = Z.of_nat (passing m' p + X' p) → 0 < passing m' p + X' p →
  t_data n' = default VNULL (m' !! p) →
  (∀ q, q ≠ p → passing m' q + X' q = passing m q + X q ∧ m' !! q = m !! q) →
  trie_nodes root (<[p := (l, n')]> R) m' X'.
Proof.
  intros Hp Hnext Huse Hpos Hdata Hrest. destruct HR as [H1 H2 H3 H4 H5 H6].
  assert (∀ q, node_at (<[p := (l, n')]> R) q = node_at R q) as Hat.
  { intros q. rewrite /node_at lookup_insert. case_decide; [|done]. subst. by rewrite Hp. }
  split.
  - by rewrite Hat.
  - intros q. rewrite lookup_insert. case_decide as Hq; subst; [done|].
    destruct (Hrest q) as [-> _]; [done|]. apply H2.
  - intros q l0 n0. rewrite lookup_insert. case_decide; intros ?; simplify_eq; [|by eapply H3].
    rewrite Hnext. by eapply H3.
  - intros q l0 n0 c. rewrite lookup_insert Hat. case_decide; intros ?; simplify_eq; [|by eapply H4].
    rewrite Hnext. by eapply H4.
  - intros q l0 n0. rewrite lookup_insert. case_decide; intros ?; simplify_eq; [done|].
    destruct (Hrest q) as [-> _]; [done|]. by eapply H5.
  - intros q l0 n0. rewrite lookup_insert. case_decide; intros ?; simplify_eq; [done|].
    destruct (Hrest q) as [_ ->]; [done|]. by eapply H6.
Qed.

(** A node appears or disappears, and the link to it changes with it. *)
Lemma nodes_relink R' X' p :
  indexed p → (∀ q, q ≠ p → R' !! q = link p (node_at R' p) R !! q) →
  (is_Some (R' !! p) ↔ 0 < passing m p + X' p) →
  (∀ l n, R' !! p = Some (l, n) →
    length (t_next n) = 256 ∧
    (∀ c, (0 ≤ c < 256)%Z → t_next n !! Z.to_nat c = Some (node_at R (c :: p))) ∧
    t_use_count n = Z.of_nat (passing m p + X' p) ∧ t_data n = default VNULL (m !! p)) →
  (∀ q, q ≠ p → X' q = X q) →
  trie_nodes (link_root p (node_at R' p) root) R' m X'.
Proof.
  intros Hp HR' Hdom Hnode HX. destruct HR as [H1 H2 H3 H4 H5 H6].
  assert (∀ q, q ≠ p → node_at R' q = node_at R q) as Hat.
  { intros q Hq. by rewrite -(node_at_link p (node_at R' p) R q) {1 2}/node_at HR'. }
  assert (∀ q l n', q ≠ p → R' !! q = Some (l, n') → ∃ n, R !! q = Some (l, n) ∧
    t_data n' = t_data n ∧ t_use_count n' = t_use_count n ∧ length (t_next n') = 256 ∧
    ∀ c, (0 ≤ c < 256)%Z → t_next n' !! Z.to_nat c =
      if decide (c :: q = p) then Some (node_at R' p) else t_next n !! Z.to_nat c) as Hother.
  { intros q l n' Hq Hl. rewrite HR' // in Hl. by apply link_lookup in Hl; [|done|apply H3]. }
  split.
  - destruct p as [|c p]; simpl; [done|]. by rewrite Hat.
  - intros q. destruct (decide (q = p)) as [->|Hq]; [done|]. by rewrite HR' // link_is_Some H2 HX.
  - intros q l n Hl. destruct (decide (q = p)) as [->|Hq]; [by eapply Hnode|].
    by destruct (Hother q l n Hq Hl) as (n0 & _ & _ & _ & ? & _).
  - intros q l n c Hl Hc. destruct (decide (q = p)) as [->|Hq].
    { destruct (Hnode l n Hl) as (_ & Hn & _). rewrite Hn // Hat //. apply cons_ne. }
    destruct (Hother q l n Hq Hl) as (n0 & Hl0 & _ & _ & _ & ->); [|done].
    case_decide as Hcp; [by rewrite Hcp|]. by rewrite (H4 _ _ _ _ Hl0 Hc) Hat.
  - intros q l n Hl. destruct (decide (q = p)) as [->|Hq]; [by eapply Hnode|].
    destruct (Hother q l n Hq Hl) as (n0 & Hl0 & _ & -> & _). by rewrite (H5 _ _ _ Hl0) HX.
  - intros q l n Hl. destruct (decide (q = p)) as [->|Hq]; [by eapply Hnode|].
    destruct (Hother q l n Hq Hl) as (n0 & Hl0 & -> & _). by rewrite (H6 _ _ _ Hl0).
Qed.
End steps.

(** *** The steps of the operations *)

Section key.
Context (key : path) (root : ptr) (m : gmap path value).
Implicit Types (R : nodes) (p : path).

(** [bump_use] on the next node of an insertion. *)
Lemma enter_present R p l n :
  p `suffix_of` key → (Z.of_nat (size m) + 1 < UINT_MOD)%Z →
  trie_nodes root R m (on_way key 0 (length p)) → R !! p = Some (l, n) →
  trie_nodes root (<[p := (l, bump_use n)]> R) m (on_way key 0 (S (length p))).
Proof.
  intros Hp Hs HR Hl. pose proof (passing_size m p).
  eapply (nodes_update _ _ _ _ HR); [done|done| | | |].
  - rewrite /= (tn_use _ _ _ _ HR _ _ _ Hl) on_way_before on_way_eq; [|done|lia]. rewrite u32_id; lia.
  - rewrite on_way_eq; [lia|done|lia].
  - apply (tn_data _ _ _ _ HR _ _ _ Hl).
  - intros q Hq. by rewrite on_way_end.
Qed.

(** A new node on the way of an insertion. *)
Lemma enter_absent R p l :
  p `suffix_of` key → indexed p → trie_nodes root R m (on_way key 0 (length p)) → R !! p = None →
  trie_nodes (link_root p (Some l) root)
    (<[p := (l, bump_use (put_data VNULL zero_node))]> (link p (Some l) R)) m
    (on_way key 0 (S (length p))).
Proof.
  intros Hp Hi HR Hl. set (R' := <[p := _]> _).
  assert (node_at R' p = Some l) as Hat by by rewrite /node_at lookup_insert_eq.
  assert (passing m p = 0) as Hpass.
  { rewrite eq_None_not_Some (tn_dom _ _ _ _ HR) in Hl. lia. }
  rewrite -Hat. eapply (nodes_relink _ _ _ _ HR); [done| | | |].
  - intros q Hq. by rewrite Hat /R' lookup_insert_ne.
  - rewrite /R' lookup_insert_eq on_way_eq; [|done|lia]. split; [lia|by eexists].
  - intros l' n. rewrite /R' lookup_insert_eq. intros [= <- <-].
    split; [by rewrite length_replicate|]. split; [|split].
    + intros c Hc. change (t_next _) with (replicate 256 (NULL : ptr)).
      rewrite lookup_replicate_2; [|lia]. f_equal. rewrite /node_at.
      rewrite (nodes_absent _ _ _ _ HR p (c :: p)) //; [by apply suffix_cons_r|].
      rewrite /on_way decide_False //. simpl. lia.
    + rewrite on_way_eq; [by rewrite Hpass|done|lia].
    + destruct (m !! p) eqn:Hm; [|done]. apply passing_pos in Hm. lia.
  - intros q Hq. by rewrite on_way_end.
Qed.

(** The end of an insertion and the start of a removal. *)
Lemma set_value R l n v :
  m !! key = None → trie_nodes root R m (on_way key 0 (S (length key))) → R !! key = Some (l, n) →
  trie_nodes root (<[key := (l, put_data v n)]> R) (<[key := v]> m) (λ _, 0).
Proof.
  intros Hm HR Hl.
  assert (∀ q, passing (<[key := v]> m) q + 0 = passing m q + on_way key 0 (S (length key)) q) as Hq.
  { intros q. by rewrite on_way_all passing_insert // Nat.add_0_r. }
  eapply (nodes_update _ _ _ _ HR); [done|done| | | |].
  - by rewrite Hq (tn_use _ _ _ _ HR _ _ _ Hl).
  - by rewrite Hq -(tn_dom _ _ _ _ HR) Hl.
  - by rewrite /= lookup_insert_eq.
  - intros q Hne. by rewrite Hq lookup_insert_ne.
Qed.

Lemma clear_value R l n v :
  m !! key = Some v → trie_nodes root R m (λ _, 0) → R !! key = Some (l, n) →
  trie_nodes root (<[key := (l, put_data VNULL n)]> R) (delete key m) (on_way key 0 (S (length key))).
Proof.
  intros Hm HR Hl.
  assert (∀ q, passing (delete key m) q + on_way key 0 (S (length key)) q = passing m q + 0) as Hq.
  { intros q. by rewrite on_way_all (passing_delete m key v) // Nat.add_0_r. }
  eapply (nodes_update _ _ _ _ HR); [done|done| | | |].
  - by rewrite Hq (tn_use _ _ _ _ HR _ _ _ Hl).
  - by rewrite Hq -(tn_dom _ _ _ _ HR) Hl.
  - by rewrite /= lookup_delete_eq.
  - intros q Hne. by rewrite Hq lookup_delete_ne.
Qed.

Lemma replace_value R l n v v' :
  m !! key = Some v → trie_nodes root R m (λ _, 0) → R !! key = Some (l, n) →
  trie_nodes root (<[key := (l, put_data v' n)]> R) (<[key := v']> m) (λ _, 0).
Proof.
  intros Hm HR Hl.
  eapply (nodes_update _ _ _ _ HR); [done|done| | | |].
  - by rewrite (passing_update m key v) // (tn_use _ _ _ _ HR _ _ _ Hl).
  - by rewrite (passing_update m key v) // -(tn_dom _ _ _ _ HR) Hl.
  - by rewrite /= lookup_insert_eq.
  - intros q Hne. by rewrite (passing_update m key v) // lookup_insert_ne.
Qed.

(** One node of a removal, or of the undoing of an insertion: its counter goes
    down, and the node goes when it is 0. *)
Lemma leave_kept R p l n d :
  p `suffix_of` key → length p < d → 0 < passing m p → (Z.of_nat (size m) + 1 < UINT_MOD)%Z →
  trie_nodes root R m (on_way key (length p) d) → R !! p = Some (l, n) →
  trie_nodes root (<[p := (l, put_use (u32 (t_use_count n - 1)) n)]> R) m (on_way key (S (length p)) d).
Proof.
  intros Hp Hd Hpos Hs HR Hl. pose proof (passing_size m p).
  eapply (nodes_update _ _ _ _ HR); [done|done| | | |].
  - rewrite /= (tn_use _ _ _ _ HR _ _ _ Hl) on_way_after on_way_eq; [|done|lia]. rewrite u32_id; lia.
  - lia.
  - apply (tn_data _ _ _ _ HR _ _ _ Hl).
  - intros q Hq. by rewrite (on_way_start key d p).
Qed.

Lemma leave_dropped R p d :
  p `suffix_of` key → indexed p → length p < d → passing m p = 0 →
  trie_nodes root R m (on_way key (length p) d) →
  trie_nodes (link_root p NULL root) (link p NULL (delete p R)) m (on_way key (S (length p)) d).
Proof.
  intros Hp Hi Hd Hpos HR. set (R' := link p NULL _).
  assert (R' !! p = None) as Hnone by by rewrite /R' link_lookup_eq lookup_delete_eq.
  assert (node_at R' p = NULL) as Hat by by rewrite /node_at Hnone.
  rewrite -Hat. eapply (nodes_relink _ _ _ _ HR); [done| | | |].
  - intros q Hq. rewrite Hat /R'. destruct p as [|c p]; simpl; [by rewrite lookup_delete_ne|].
    rewrite !lookup_alter !lookup_delete_ne //. apply cons_ne.
  - rewrite Hnone Hpos on_way_after. split; [by intros []|lia].
  - by rewrite Hnone.
  - intros q Hq. by rewrite (on_way_start key d p).
Qed.

Definition drop_use (n : TrieNode) : TrieNode := put_use (u32 (t_use_count n - 1)) n.

Lemma leave_node R p l n d :
  p `suffix_of` key → indexed p → length p < d → (Z.of_nat (size m) + 1 < UINT_MOD)%Z →
  trie_nodes root R m (on_way key (length p) d) → R !! p = Some (l, n) →
  if decide (passing m p = 0) then
    t_use_count (drop_use n) = 0%Z ∧
    trie_nodes (link_root p NULL root) (link p NULL (delete p R)) m (on_way key (S (length p)) d)
  else
    (0 < t_use_count (drop_use n))%Z ∧
    trie_nodes root (<[p := (l, drop_use n)]> R) m (on_way key (S (length p)) d).
Proof.
  intros Hp Hi Hd Hs HR Hl. pose proof (passing_size m p).
  assert (t_use_count n = Z.of_nat (passing m p + 1)) as Huse.
  { by rewrite (tn_use _ _ _ _ HR _ _ _ Hl) on_way_eq; [|done|lia]. }
  case_decide as Hz.
  - split; [by rewrite /= Huse Hz|]. by apply leave_dropped.
  - split; [rewrite /= Huse u32_id; lia|]. apply leave_kept; try done. lia.
Qed.
End key.
