(* ===== verification/TrieOps.v ===== *)
(** * TrieOps: correctness of trie.c

    The trie represents a finite map from strings to non-null values.  Insertion,
    removal and lookup are those of the map, also when an allocation fails in the
    middle of an insertion; the counters, the links and the set of nodes always
    fit the map. *)
From stdpp Require Import base gmap list numbers.
From iris.proofmode Require Import proofmode.
From S2P Require Import Prelude Memory Trie TrieNodes.

(** ** Access to the nodes *)

Section access.
Implicit Types (R : nodes) (p : path).

Definition own_nodes R : hProp TrieNode := [∗ map] ln ∈ R, ln.1 ↦ ln.2.

(** The place of the link to [p]. *)
Definition slot_of R p : option tslot :=
  match p with
  | [] => Some TRoot
  | c :: q => match R !! q with Some (l, _) => Some (TNext (Some l) c) | None => None end
  end.

Lemma wp_node_deref R p l n Φ :
  R !! p = Some (l, n) → own_nodes R -∗ (own_nodes R -∗ Φ n) -∗ wp (deref (Some l)) Φ.
Proof.
  iIntros (Hp) "HR HΦ". iDestruct (big_sepM_lookup_acc with "HR") as "[Hl HR]"; [done|]. simpl.
  iApply (wp_deref with "Hl"). iIntros "Hl". iApply "HΦ". by iApply "HR".
Qed.

Lemma wp_node_assign R p l n n' Φ :
  R !! p = Some (l, n) → own_nodes R -∗ (own_nodes (<[p := (l, n')]> R) -∗ Φ tt) -∗
  wp (assign (Some l) n') Φ.
Proof.
  iIntros (Hp) "HR HΦ". iDestruct (big_sepM_insert_acc with "HR") as "[Hl HR]"; [done|]. simpl.
  iApply (wp_assign with "Hl"). iIntros "Hl". iApply "HΦ". by iApply ("HR" $! (l, n')).
Qed.

Lemma wp_node_modify R p l n f Φ :
  R !! p = Some (l, n) → own_nodes R -∗ (own_nodes (<[p := (l, f n)]> R) -∗ Φ tt) -∗
  wp (modify (Some l) f) Φ.
Proof.
  iIntros (Hp) "HR HΦ". iApply wp_bind. iApply (wp_node_deref with "HR"); [done|]. iIntros "HR".
  by iApply (wp_node_assign with "HR").
Qed.

Lemma wp_node_free R p l n Φ :
  R !! p = Some (l, n) → own_nodes R -∗ (own_nodes (delete p R) -∗ Φ tt) -∗ wp (free (Some l)) Φ.
Proof.
  iIntros (Hp) "HR HΦ". iDestruct (big_sepM_delete with "HR") as "[Hl HR]"; [done|]. simpl.
  iApply (wp_free with "Hl"). by iApply "HΦ".
Qed.

(** [*rover] and [*rover = x]. *)
Lemma wp_link_read R p s root m X Φ :
  trie_nodes root R m X → indexed p → slot_of R p = Some s →
  own_nodes R -∗ (own_nodes R -∗ Φ (node_at R p)) -∗
  wp (read_tslot {| root_node := root |} s) Φ.
Proof.
  iIntros (HR Hp Hs) "HR HΦ". destruct p as [|c q]; simplify_eq/=.
  { iApply wp_ret. rewrite (tn_root _ _ _ _ HR). by iApply "HΦ". }
  destruct (R !! q) as [[l n]|] eqn:Hq; simplify_eq/=. wp_bind.
  iApply (wp_node_deref with "HR"); [done|]. iIntros "HR".
  iApply (wp_aget _ _ (node_at R (c :: q))); [lia|by eapply (tn_next _ _ _ _ HR)|]. by iApply "HΦ".
Qed.

Lemma wp_link_write R p s root x Φ :
  (∀ q l n, R !! q = Some (l, n) → length (t_next n) = 256) → indexed p → slot_of R p = Some s →
  own_nodes R -∗ (own_nodes (link p x R) -∗ Φ {| root_node := link_root p x root |}) -∗
  wp (write_tslot {| root_node := root |} s x) Φ.
Proof.
  iIntros (HR Hp Hs) "HR HΦ". destruct p as [|c q]; simplify_eq/=.
  { iApply wp_ret. by iApply "HΦ". }
  destruct (R !! q) as [[l n]|] eqn:Hq; simplify_eq/=. wp_bind.
  iApply (wp_node_deref with "HR"); [done|]. iIntros "HR". wp_bind.
  iApply wp_aset; [rewrite (HR _ _ _ Hq); lia|]. wp_bind.
  iApply (wp_node_assign with "HR"); [done|]. iIntros "HR". iApply wp_ret.
  assert (<[q := (l, put_next (<[Z.to_nat c := x]> (t_next n)) n)]> R = link (c :: q) x R) as ->.
  { apply map_eq. intros i. rewrite /= lookup_insert lookup_alter. case_decide; [|done]. subst. by rewrite Hq. }
  by iApply "HΦ".
Qed.

(** Without a parent there is no link to change. *)
Lemma no_slot R p x root :
  slot_of R p = None → link p x R = R ∧ link_root p x root = root.
Proof.
  destruct p as [|c q]; [done|]. simpl. intros Hs. split; [|done]. apply map_eq. intros i.
  rewrite lookup_alter. case_decide; [|done]. subst. by destruct (R !! i) as [[]|].
Qed.

Lemma slot_delete R p : slot_of (delete p R) p = slot_of R p.
Proof.
  destruct p as [|c q]; [done|]. simpl. rewrite lookup_delete_ne //. apply cons_ne.
Qed.
End access.
#[global] Arguments slot_of : simpl never.
#[global] Arguments read_tslot : simpl never.
#[global] Arguments write_tslot : simpl never.

(** ** Strings *)

(** The characters 1 to 127 followed by the terminator. *)
Definition ascii (s : list Z) : Prop := Forall (λ c, 0 < c < 128)%Z s.
Definition cstring (s : list Z) : list Z := s ++ [0%Z].

(** The remaining string [s] and the way [p] that was walked. *)
Lemma suffix_walked (s : list Z) (p : path) : p `suffix_of` reverse s ++ p.
Proof. by apply suffix_app_r. Qed.

Section operations.
Context `{Allocator TrieNode}.
Implicit Types (R : nodes) (p : path) (m : gmap path value) (s : list Z).

(** *** Searching *)
Lemma find_walk_spec root R m s p Φ :
  trie_nodes root R m (λ _, 0) → ascii s →
  own_nodes R -∗ (own_nodes R -∗ Φ (node_at R (reverse s ++ p))) -∗
  wp (trie_find_walk (node_at R p) (cstring s)) Φ.
Proof.
  intros HR Hs. revert p. induction Hs as [|c s Hc Hs IH]; iIntros (p) "HR HΦ"; simpl.
  { iApply wp_ret. by iApply "HΦ". }
  rewrite bool_decide_eq_false_2; [|lia]. rewrite reverse_cons -assoc_L /=.
  destruct (R !! p) as [[l n]|] eqn:Hp.
  - rewrite (node_at_Some _ _ _ _ Hp). wp_bind. iApply (wp_node_deref with "HR"); [done|]. iIntros "HR". wp_bind.
    iApply (wp_aget _ _ (node_at R (c :: p))); [lia|eapply (tn_next _ _ _ _ HR); [done|lia]|].
    by iApply (IH with "HR").
  - rewrite (node_at_None _ _ Hp). iApply wp_ret.
    assert (R !! (reverse s ++ c :: p) = None) as Hnone.
    { apply (nodes_absent _ _ _ _ HR p); [done| |done].
      exists (reverse s ++ [c]). by rewrite -assoc_L. }
    rewrite (node_at_None _ _ Hnone). by iApply "HΦ".
Qed.

Lemma find_end_spec root R m s Φ :
  trie_nodes root R m (λ _, 0) → ascii s →
  own_nodes R -∗ (own_nodes R -∗ Φ (node_at R (reverse s))) -∗
  wp (trie_find_end {| root_node := root |} (cstring s)) Φ.
Proof.
  iIntros (HR Hs) "HR HΦ". rewrite /trie_find_end /= (tn_root _ _ _ _ HR).
  iApply (find_walk_spec with "HR"); [done..|]. by rewrite right_id_L.
Qed.

(** The test whether the key is there. *)
Lemma present_spec root R m (key : path) (Φ : bool → hProp TrieNode) :
  trie_nodes root R m (λ _, 0) → (∀ k v, m !! k = Some v → v ≠ VNULL) →
  own_nodes R -∗ (own_nodes R -∗ Φ (if m !! key is Some _ then true else false)) -∗
  wp (match node_at R key with
      | NULL => mret false
      | Some _ => n ← deref (node_at R key); mret (bool_decide (t_data n ≠ VNULL))
      end) Φ.
Proof.
  iIntros (HR Hm) "HR HΦ". destruct (R !! key) as [[l n]|] eqn:Hk.
  - rewrite (node_at_Some _ _ _ _ Hk). wp_bind. iApply (wp_node_deref with "HR"); [done|]. iIntros "HR".
    iApply wp_ret. rewrite (tn_data _ _ _ _ HR _ _ _ Hk).
    destruct (m !! key) as [v|] eqn:E; simpl; [|by iApply "HΦ"].
    rewrite bool_decide_eq_true_2; [by iApply "HΦ"|by eapply Hm].
  - rewrite (node_at_None _ _ Hk). iApply wp_ret.
    destruct (m !! key) as [v|] eqn:E; [|by iApply "HΦ"]. apply passing_pos in E.
    rewrite eq_None_not_Some (tn_dom _ _ _ _ HR) in Hk. lia.
Qed.

(** *** Leaving: the loops of removal and of the undoing of an insertion *)

(** The slot of the next node, when this one is kept and when it is not. *)
Lemma slot_next R c p l n : R !! p = Some (l, n) → slot_of R (c :: p) = Some (TNext (Some l) c).
Proof. rewrite /slot_of. by intros ->. Qed.

Lemma slot_next_dropped R c p : slot_of (link p NULL (delete p R)) (c :: p) = None.
Proof. by rewrite /slot_of link_lookup_eq lookup_delete_eq. Qed.

(** [*prev_ptr = NULL] after the node was freed. *)
Lemma wp_clear_link R p root o Φ :
  (∀ q l n, R !! q = Some (l, n) → length (t_next n) = 256) → indexed p → slot_of R p = o →
  own_nodes R -∗ (own_nodes (link p NULL R) -∗ Φ {| root_node := link_root p NULL root |}) -∗
  wp (match o with
      | None => mret {| root_node := root |}
      | Some s => write_tslot {| root_node := root |} s NULL
      end) Φ.
Proof.
  iIntros (HR Hp Ho) "HR HΦ". destruct o as [s|]; [by iApply (wp_link_write with "HR")|].
  destruct (no_slot R p NULL root Ho) as [Hl Hr]. rewrite Hl Hr. iApply wp_ret. by iApply "HΦ".
Qed.

Lemma node_lengths root R m X p q l n :
  trie_nodes root R m X → delete p R !! q = Some (l, n) → length (t_next n) = 256.
Proof. intros HR [_ Hq]%lookup_delete_Some. by eapply (tn_length _ _ _ _ HR). Qed.

Lemma parent_kept root R m X c p :
  trie_nodes root R m X → 0 < passing m (c :: p) → is_Some (slot_of R (c :: p)).
Proof.
  intros HR Hpos. rewrite /slot_of.
  assert (is_Some (R !! p)) as [[l n] ->]; [|by eexists].
  apply (tn_dom _ _ _ _ HR).
  assert (passing m (c :: p) ≤ passing m p); [|lia]. by apply passing_le, suffix_cons_r.
Qed.

(** The next node on the way is still there. *)
Lemma next_on_way (key : path) root R m i d p :
  trie_nodes root R m (on_way key i d) → p `suffix_of` key → i ≤ length p < d →
  ∃ l n, R !! p = Some (l, n) ∧ node_at R p = Some l.
Proof.
  intros HR Hp Hd. assert (is_Some (R !! p)) as [[l n] Hl].
  { apply (tn_dom _ _ _ _ HR). rewrite on_way_eq; [lia|done|lia]. }
  exists l, n. split; [done|]. by eapply node_at_Some.
Qed.

(** One node of [trie_remove]; [k] is the rest of the loop. *)
Lemma remove_step (key : path) root R m p l n c (k : ptr → option tslot → Trie → M TrieNode Trie) Φ :
  p `suffix_of` key → indexed p → (0 ≤ c < 128)%Z → (Z.of_nat (size m) + 1 < UINT_MOD)%Z →
  trie_nodes root R m (on_way key (length p) (S (length key))) → R !! p = Some (l, n) →
  own_nodes R -∗
  (∀ R' root' last,
    ⌈ trie_nodes root' R' m (on_way key (S (length p)) (S (length key))) ⌉ -∗
    ⌈ slot_of R' (c :: p) = (λ _, TNext (Some l) c) <$> last ⌉ -∗
    ⌈ node_at R' (c :: p) = node_at R (c :: p) ⌉ -∗
    own_nodes R' -∗ wp (k (node_at R (c :: p)) last {| root_node := root' |}) Φ) -∗
  wp (n ← deref (Some l);
      next ← aget (t_next n) c;
      _ ← modify (Some l) drop_use;
      n ← deref (Some l);
      '(last_next_ptr, trie) ←
        (if bool_decide (t_use_count n <= 0)%Z then
           _ ← free (Some l);
           match slot_of R p with
           | None => mret (None, {| root_node := root |})
           | Some s => trie ← write_tslot {| root_node := root |} s NULL; mret (None, trie)
           end
         else mret (slot_of R p, {| root_node := root |}));
      k next last_next_ptr trie) Φ.
Proof.
  iIntros (Hp Hi Hc Hs HR Hl) "HR HΦ".
  pose proof (leave_node key root m R p l n (S (length key)) Hp Hi) as Hstep.
  specialize (Hstep ltac:(apply suffix_length in Hp; lia) Hs HR Hl).
  wp_bind. iApply (wp_node_deref with "HR"); [done|]. iIntros "HR".
  wp_bind. iApply (wp_aget _ _ (node_at R (c :: p))); [lia|eapply (tn_next _ _ _ _ HR); [done|lia]|].
  wp_bind. iApply (wp_node_modify with "HR"); [done|]. iIntros "HR".
  wp_bind. iApply (wp_node_deref _ p l (drop_use n) with "HR"); [by rewrite lookup_insert_eq|]. iIntros "HR".
  case_decide as Hz; destruct Hstep as [Huse HR'].
  - rewrite bool_decide_eq_true_2; [|lia]. wp_bind.
    iApply (wp_node_free _ p l (drop_use n) with "HR"); [by rewrite lookup_insert_eq|]. iIntros "HR".
    rewrite delete_insert_eq -(slot_delete R p).
    iAssert (own_nodes (link p NULL (delete p R)) -∗
      wp (k (node_at R (c :: p)) None {| root_node := link_root p NULL root |}) Φ)%I with "[HΦ]" as "HΦ".
    { iApply "HΦ"; iPureIntro; [done|by rewrite slot_next_dropped|].
      rewrite node_at_link /node_at lookup_delete_ne //. apply not_eq_sym, cons_ne. }
    destruct (slot_of (delete p R) p) as [s|] eqn:Ho.
    + wp_bind. iApply (wp_link_write with "HR"); [intros *; by eapply node_lengths|done|done|].
      iIntros "HR". wp_pures. by iApply "HΦ".
    + destruct (no_slot (delete p R) p NULL root Ho) as [Hln Hr]. wp_pures.
      rewrite Hln Hr. by iApply "HΦ".
  - rewrite bool_decide_eq_false_2; [|lia]. wp_pures.
    iApply ("HΦ" with "[] [] [] HR"); iPureIntro; [done| |].
    + rewrite (slot_next _ c p l (drop_use n)); [|by rewrite lookup_insert_eq].
      destruct p as [|c' q]; [done|].
      destruct (parent_kept _ _ _ _ c' q HR) as [s ->]; [lia|done].
    + rewrite /node_at lookup_insert_ne //. apply not_eq_sym, cons_ne.
Qed.

Lemma remove_walk_spec (key : path) s root R m p :
  key = reverse s ++ p → ascii s → indexed p → (Z.of_nat (size m) + 1 < UINT_MOD)%Z →
  trie_nodes root R m (on_way key (length p) (S (length key))) →
  {{ own_nodes R }}
    trie_remove_walk {| root_node := root |} (node_at R p) (slot_of R p) (cstring s)
  {{ t, ∃ R', ⌈ trie_nodes (root_node t) R' m (λ _, 0) ⌉ ∗ own_nodes R' }}.
Proof.
  intros Hkey Hs. revert root R p Hkey. induction Hs as [|c s Hc Hs IH];
    intros root R p Hkey Hi Hsize HR; apply triple_wp; iIntros "HR".
  all: assert (p `suffix_of` key) as Hp by (rewrite Hkey; apply suffix_walked).
  all: destruct (next_on_way key root R m (length p) (S (length key)) p) as (l & n & Hl & ->);
    [done|done|rewrite Hkey length_app; lia|]; simpl.
  - iApply (remove_step key root R m p l n 0 (λ _ _ trie, mret trie) with "HR"); try done.
    iIntros (R' root' last HR' Hlast Hat) "HR". wp_pures. iExists R'. iFrame. iPureIntro.
    eapply nodes_ext; [exact HR'|]. intros q. symmetry. apply on_way_out. by rewrite Hkey.
  - iApply (remove_step key root R m p l n c with "HR"); try done; [lia|].
    iIntros (R' root' last HR' Hlast Hat) "HR". rewrite bool_decide_eq_false_2; [|lia].
    assert (match last with None => None | Some _ => Some (TNext (Some l) c) end =
      slot_of R' (c :: p)) as -> by (by rewrite Hlast; destruct last).
    rewrite -Hat.
    iApply (triple_use with "HR"); [apply IH; try done|].
    + by rewrite Hkey reverse_cons -assoc_L.
    + simpl. lia.
    + by iIntros (t) "?".
Qed.

(** *** Insertion *)
Lemma rollback_walk_spec (key : path) s root R m p q0 :
  key = reverse s ++ p → ascii s → indexed p → (Z.of_nat (size m) + 1 < UINT_MOD)%Z →
  q0 `suffix_of` key → passing m q0 = 0 → length p ≤ length q0 →
  trie_nodes root R m (on_way key (length p) (length q0)) →
  {{ own_nodes R }}
    trie_rollback_walk {| root_node := root |} (node_at R p) (slot_of R p) (cstring s)
  {{ t, ∃ R', ⌈ trie_nodes (root_node t) R' m (λ _, 0) ⌉ ∗ own_nodes R' }}.
Proof.
  intros Hkey Hs Hi Hsize Hq0 Hfree. revert root R p Hkey Hi.
  induction Hs as [|c s Hc Hs IH]; intros root R p Hkey Hi Hle HR; apply triple_wp; iIntros "HR".
  all: assert (p `suffix_of` key) as Hp by (rewrite Hkey; apply suffix_walked).
  all: pose proof (suffix_length _ _ Hq0) as Hlen.
  all: destruct (decide (length p = length q0)) as [Hend|Hne];
    [rewrite (node_at_None R p); [|apply eq_None_not_Some; rewrite (tn_dom _ _ _ _ HR);
       rewrite (suffix_same_length p q0 key) // Hfree on_way_before; lia];
     wp_pures; iExists R; iFrame; iPureIntro; eapply nodes_ext; [exact HR|];
     intros q; symmetry; apply on_way_out; lia|].
  { rewrite Hkey /= in Hlen. lia. }
  destruct (next_on_way key root R m (length p) (length q0) p) as (l & n & Hl & ->); [done|done|lia|].
  simpl. pose proof (leave_node key root m R p l n (length q0) Hp Hi ltac:(lia) Hsize HR Hl) as Hstep.
  iApply wp_bind.
  iApply (wp_link_read R (c :: p) with "HR"); [done|simpl; lia|by eapply slot_next|].
  iIntros "HR". wp_bind. iApply (wp_node_modify with "HR"); [done|]. iIntros "HR".
  wp_bind. iApply (wp_node_deref _ p l (drop_use n) with "HR"); [by rewrite lookup_insert_eq|]. iIntros "HR".
  assert (key = reverse s ++ c :: p) as Hkey' by by rewrite Hkey reverse_cons -assoc_L.
  case_decide as Hz; destruct Hstep as [Huse HR'].
  - rewrite bool_decide_eq_true_2; [|done]. wp_bind.
    iApply (wp_node_free _ p l (drop_use n) with "HR"); [by rewrite lookup_insert_eq|]. iIntros "HR".
    rewrite delete_insert_eq. iApply wp_bind.
    iApply (wp_clear_link with "HR"); [intros *; by eapply node_lengths|done|apply slot_delete|].
    iIntros "HR". rewrite -(slot_next_dropped R c p).
    replace (node_at R (c :: p)) with (node_at (link p NULL (delete p R)) (c :: p)).
    2: { rewrite node_at_link /node_at lookup_delete_ne //. apply not_eq_sym, cons_ne. }
    iApply (triple_use with "HR"); [apply IH; try done; simpl; lia|]. by iIntros (t) "?".
  - rewrite bool_decide_eq_false_2; [|lia].
    rewrite -(slot_next (<[p := (l, drop_use n)]> R) c p l (drop_use n)); [|by rewrite lookup_insert_eq].
    replace (node_at R (c :: p)) with (node_at (<[p := (l, drop_use n)]> R) (c :: p)).
    2: { rewrite /node_at lookup_insert_ne //. apply not_eq_sym, cons_ne. }
    iApply (triple_use with "HR"); [apply IH; try done; simpl; lia|]. by iIntros (t) "?".
Qed.

Lemma enter_spec (key : path) root R m p rover :
  p `suffix_of` key → indexed p → (Z.of_nat (size m) + 1 < UINT_MOD)%Z →
  trie_nodes root R m (on_way key 0 (length p)) → slot_of R p = Some rover →
  {{ own_nodes R }} trie_enter {| root_node := root |} rover
  {{ r, match r.1 with
        | Some l => ∃ R' n, ⌈ R' !! p = Some (l, n) ⌉ ∗ own_nodes R' ∗
            ⌈ trie_nodes (root_node r.2) R' m (on_way key 0 (S (length p))) ⌉
        | NULL => ⌈ can_fail ⌉ ∗ ⌈ R !! p = None ⌉ ∗ ⌈ r.2 = {| root_node := root |} ⌉ ∗ own_nodes R
        end }}.
Proof.
  intros Hp Hi Hs HR Hrover. apply triple_wp. iIntros "HR". rewrite /trie_enter. iApply wp_bind.
  iApply (wp_link_read with "HR"); [done..|]. iIntros "HR".
  destruct (R !! p) as [[l n]|] eqn:Hl.
  - rewrite (node_at_Some _ _ _ _ Hl). iApply wp_bind. iApply (wp_node_modify with "HR"); [done|].
    iIntros "HR". wp_pures. iExists _, (bump_use n). iFrame "HR". iPureIntro.
    split; [by rewrite lookup_insert_eq|]. by apply enter_present.
  - rewrite (node_at_None _ _ Hl). wp_calloc l as "Hl"; [|wp_pures; by iFrame].
    wp_store. iApply wp_bind.
    iApply (wp_link_write with "HR"); [apply (tn_length _ _ _ _ HR)|done|done|]. iIntros "HR".
    wp_store. wp_pures. iExists _, (bump_use (put_data VNULL zero_node)).
    iAssert (own_nodes (<[p := (l, bump_use (put_data VNULL zero_node))]> (link p (Some l) R)))
      with "[Hl HR]" as "$".
    { iApply big_sepM_insert; [by rewrite link_lookup_eq|]. iFrame. }
    iPureIntro. split; [by rewrite lookup_insert_eq|]. by apply enter_absent.
Qed.

Lemma rollback_spec s root R m p :
  ascii s → p `suffix_of` reverse s → (Z.of_nat (size m) + 1 < UINT_MOD)%Z → R !! p = None →
  trie_nodes root R m (on_way (reverse s) 0 (length p)) →
  {{ own_nodes R }} trie_insert_rollback {| root_node := root |} (cstring s)
  {{ t, ∃ R', ⌈ trie_nodes (root_node t) R' m (λ _, 0) ⌉ ∗ own_nodes R' }}.
Proof.
  intros Hs Hp Hsize Hnone HR.
  rewrite /trie_insert_rollback /= (tn_root _ _ _ _ HR).
  apply (rollback_walk_spec (reverse s) s (node_at R []) R m [] p); try done.
  - by rewrite right_id_L.
  - rewrite eq_None_not_Some (tn_dom _ _ _ _ HR) in Hnone. lia.
  - simpl. lia.
  - by rewrite -(tn_root _ _ _ _ HR).
Qed.

Lemma insert_walk_spec s0 s root R m v p rover :
  reverse s0 = reverse s ++ p → ascii s0 → ascii s → indexed p →
  (Z.of_nat (size m) + 1 < UINT_MOD)%Z → m !! reverse s0 = None →
  trie_nodes root R m (on_way (reverse s0) 0 (length p)) → slot_of R p = Some rover →
  {{ own_nodes R }}
    trie_insert_walk {| root_node := root |} (cstring s0) v rover (cstring s)
  {{ r, ∃ R', own_nodes R' ∗
        ((⌈ r.1 = 1%Z ⌉ ∗ ⌈ trie_nodes (root_node r.2) R' (<[reverse s0 := v]> m) (λ _, 0) ⌉) ∨
         (⌈ r.1 = 0%Z ⌉ ∗ ⌈ can_fail ⌉ ∗ ⌈ trie_nodes (root_node r.2) R' m (λ _, 0) ⌉)) }}.
Proof.
  intros Hkey Hs0 Hs. revert root R p rover Hkey.
  induction Hs as [|c s Hc Hs IH]; intros root R p rover Hkey Hi Hsize Hm HR Hrover;
    apply triple_wp; iIntros "HR"; simpl; iApply wp_bind.
  all: assert (p `suffix_of` reverse s0) as Hp by (rewrite Hkey; apply suffix_walked).
  all: iApply (triple_use with "HR"); [by apply (enter_spec (reverse s0))|];
    iIntros ([[l|] [root']]) "H"; simpl.
  2, 4: iDestruct "H" as "(%Hfail & %Hnone & %Ht & HR)"; rewrite Ht; iApply wp_bind;
    iApply (triple_use with "HR"); [by apply (rollback_spec s0 root R m p)|];
    iIntros (t) "(%R' & %HR' & HR)"; wp_pures; iExists R'; iFrame; iRight; by ipures.
  - iDestruct "H" as "(%R' & %n & %Hl & HR & %HR')". iApply wp_bind.
    iApply (wp_node_modify with "HR"); [done|]. iIntros "HR". wp_pures. iExists _. iFrame.
    iLeft. iSplit; [done|]. iPureIntro. simpl in Hkey. rewrite Hkey in Hm HR' |- *. by apply set_value.
  - iDestruct "H" as "(%R' & %n & %Hl & HR & %HR')". rewrite bool_decide_eq_false_2; [|lia].
    iApply (triple_use with "HR"); [apply (IH _ _ (c :: p)); try done|].
    + by rewrite Hkey reverse_cons -assoc_L.
    + simpl. lia.
    + by eapply slot_next.
    + by iIntros (r) "?".
Qed.

(** ** The trie as a map from strings *)

(** What a trie can hold. *)
Definition storable (m : gmap (list Z) value) : Prop :=
  ∀ k v, m !! k = Some v → v ≠ VNULL ∧ ascii k.

Lemma storable_insert m k v : v ≠ VNULL → ascii k → storable m → storable (<[k := v]> m).
Proof.
  intros Hv Hk Hm k' v'. rewrite lookup_insert. case_decide; [by intros [= <-]; subst|apply Hm].
Qed.

Lemma storable_delete m k : storable m → storable (delete k m).
Proof. intros Hm k' v' [_ Hk]%lookup_delete_Some. by eapply Hm. Qed.

Definition trie_map (t : Trie) (m : gmap (list Z) value) : hProp TrieNode :=
  ∃ R, ⌈ trie_nodes (root_node t) R (kmap reverse m) (λ _, 0) ⌉ ∗
       ⌈ storable m ⌉ ∗ own_nodes R.

Lemma trie_map_intro root R m :
  trie_nodes root R (kmap reverse m) (λ _, 0) → storable m →
  own_nodes R ⊢ trie_map {| root_node := root |} m.
Proof. iIntros (HR Hm) "HR". iExists R. by iFrame. Qed.

Lemma empty_nodes : trie_nodes NULL ∅ (kmap reverse (∅ : gmap (list Z) value)) (λ _, 0).
Proof.
  split; try done. intros p. rewrite lookup_empty kmap_empty passing_empty. split; [by intros []|lia].
Qed.

Lemma trie_new_spec :
  {{ emp }} trie_new {{ r, match r with None => ⌈ can_fail ⌉ | Some t => trie_map t ∅ end }}.
Proof.
  apply triple_wp. iIntros "_". rewrite /trie_new. wp_malloc_array; wp_pures; [|done].
  iApply (trie_map_intro NULL ∅); [apply empty_nodes|done|by rewrite /own_nodes big_sepM_empty].
Qed.

Lemma size_kmap_reverse m : size (kmap reverse m : gmap path value) = size m.
Proof.
  induction m as [|k v m Hk IH] using map_ind; [by rewrite kmap_empty !map_size_empty|].
  rewrite kmap_insert !map_size_insert_None ?lookup_kmap //. by rewrite IH.
Qed.

Lemma indexed_reverse s : ascii s → indexed (reverse s).
Proof.
  intros Hs. destruct (reverse s) as [|c p] eqn:E; [done|]. simpl.
  assert (c ∈ s) as Hc by (rewrite -elem_of_reverse E; by left).
  rewrite /ascii Forall_forall in Hs. specialize (Hs c Hc). lia.
Qed.

Lemma non_null_kmap m :
  storable m →
  ∀ k v, (kmap reverse m : gmap path value) !! k = Some v → v ≠ VNULL.
Proof.
  intros Hm k v Hk. rewrite -(reverse_involutive k) (lookup_kmap reverse) in Hk. by eapply Hm.
Qed.

Definition room (m : gmap (list Z) value) : Prop := (Z.of_nat (size m) + 1 < UINT_MOD)%Z.

Lemma trie_insert_spec t m s v :
  ascii s → room m →
  {{ trie_map t m }} trie_insert t (cstring s) v
  {{ r, if decide (v = VNULL) then ⌈ r.1 = 0%Z ⌉ ∗ trie_map r.2 m
        else (⌈ r.1 = 1%Z ⌉ ∗ trie_map r.2 (<[s := v]> m)) ∨
             (⌈ r.1 = 0%Z ⌉ ∗ ⌈ can_fail ⌉ ∗ ⌈ m !! s = None ⌉ ∗ trie_map r.2 m) }}.
Proof.
  intros Hs Hsize. apply triple_wp. destruct t as [root]. iIntros "(%R & %HR & %Hm & HR)".
  rewrite /trie_insert. case_decide as Hv.
  { rewrite bool_decide_eq_true_2 //. wp_pures. iSplit; [done|]. by iApply (trie_map_intro with "HR"). }
  rewrite bool_decide_eq_false_2 //. rewrite /room -size_kmap_reverse in Hsize.
  iApply wp_bind. iApply (find_end_spec with "HR"); [done..|]. iIntros "HR".
  iApply wp_bind. iApply (present_spec with "HR"); [done|by apply non_null_kmap|].
  iIntros "HR". rewrite lookup_kmap. destruct (m !! s) as [w|] eqn:Hw.
  - assert (is_Some (R !! reverse s)) as [[l n] Hl].
    { apply (tn_dom _ _ _ _ HR). rewrite -(lookup_kmap reverse) in Hw. apply passing_pos in Hw. lia. }
    rewrite (node_at_Some _ _ _ _ Hl). iApply wp_bind. iApply (wp_node_modify with "HR"); [done|].
    iIntros "HR". wp_pures. iLeft. iSplit; [done|]. iApply (trie_map_intro with "HR").
    + rewrite kmap_insert. eapply replace_value; [by rewrite lookup_kmap|done|done].
    + by apply storable_insert.
  - iApply (triple_use with "HR").
    { apply (insert_walk_spec s s root R (kmap reverse m) v []); try done.
      - by rewrite right_id_L.
      - by rewrite lookup_kmap.
      - eapply nodes_ext; [done|]. intros p. by apply on_way_out. }
    iIntros ([r [root']]) "(%R' & HR & [[-> %HR']|(-> & %Hfail & %HR')])"; simpl.
    + iLeft. iSplit; [done|]. iApply (trie_map_intro with "HR"); [by rewrite kmap_insert|].
      by apply storable_insert.
    + iRight. ipures. by iApply (trie_map_intro with "HR").
Qed.

Lemma trie_remove_spec t m s :
  ascii s → room m →
  {{ trie_map t m }} trie_remove t (cstring s)
  {{ r, ⌈ r.1 = if m !! s is Some _ then 1%Z else 0%Z ⌉ ∗ trie_map r.2 (delete s m) }}.
Proof.
  intros Hs Hsize. apply triple_wp. destruct t as [root]. iIntros "(%R & %HR & %Hm & HR)".
  rewrite /trie_remove. rewrite /room -size_kmap_reverse in Hsize.
  iApply wp_bind. iApply (find_end_spec with "HR"); [done..|]. iIntros "HR".
  iApply wp_bind. iApply (present_spec with "HR"); [done|by apply non_null_kmap|].
  iIntros "HR". rewrite lookup_kmap. destruct (m !! s) as [w|] eqn:Hw.
  - assert (is_Some (R !! reverse s)) as [[l n] Hl].
    { apply (tn_dom _ _ _ _ HR). rewrite -(lookup_kmap reverse) in Hw. apply passing_pos in Hw. lia. }
    rewrite (node_at_Some _ _ _ _ Hl). iApply wp_bind. iApply (wp_node_modify with "HR"); [done|].
    iIntros "HR". iApply wp_bind.
    assert (trie_nodes root (<[reverse s := (l, put_data VNULL n)]> R) (delete (reverse s) (kmap reverse m))
      (on_way (reverse s) 0 (S (length (reverse s))))) as HR'.
    { eapply clear_value; [by rewrite lookup_kmap|done|done]. }
    assert (size (delete (reverse s) (kmap reverse m : gmap path value)) ≤ size (kmap reverse m : gmap path value)) as Hle.
    { apply map_subseteq_size, delete_subseteq. }
    iApply (triple_use with "HR").
    { rewrite /= {2}(tn_root _ _ _ _ HR').
      eapply (remove_walk_spec (reverse s) s root _ (delete (reverse s) (kmap reverse m)) []); try done; [by rewrite right_id_L|lia]. }
    iIntros ([root']) "(%R' & %HR'' & HR)". wp_pures. iSplit; [done|].
    iApply (trie_map_intro with "HR"); [by rewrite kmap_delete|].
    by apply storable_delete.
  - wp_pures. iSplit; [done|]. rewrite delete_id //. by iApply (trie_map_intro with "HR").
Qed.

Lemma trie_lookup_spec t m s :
  ascii s →
  {{ trie_map t m }} trie_lookup t (cstring s) {{ r, ⌈ r = default VNULL (m !! s) ⌉ ∗ trie_map t m }}.
Proof.
  intros Hs. apply triple_wp. destruct t as [root]. iIntros "(%R & %HR & %Hm & HR)".
  rewrite /trie_lookup. iApply wp_bind. iApply (find_end_spec with "HR"); [done..|]. iIntros "HR".
  destruct (R !! reverse s) as [[l n]|] eqn:Hl.
  - rewrite (node_at_Some _ _ _ _ Hl). iApply wp_bind. iApply (wp_node_deref with "HR"); [done|].
    iIntros "HR". wp_pures. rewrite (tn_data _ _ _ _ HR _ _ _ Hl) lookup_kmap. iSplit; [done|].
    by iApply (trie_map_intro with "HR").
  - rewrite (node_at_None _ _ Hl). wp_pures. iSplit; [|by iApply (trie_map_intro with "HR")].
    iPureIntro. destruct (m !! s) eqn:E; [|done]. rewrite -(lookup_kmap reverse) in E. apply passing_pos in E.
    rewrite eq_None_not_Some (tn_dom _ _ _ _ HR) in Hl. lia.
Qed.

Lemma trie_num_entries_spec t m :
  {{ trie_map t m }} trie_num_entries t {{ r, ⌈ r = to_int (Z.of_nat (size m)) ⌉ ∗ trie_map t m }}.
Proof.
  apply triple_wp. destruct t as [root]. iIntros "(%R & %HR & %Hm & HR)".
  simpl in HR. rewrite /trie_num_entries /= {1 2}(tn_root _ _ _ _ HR) -size_kmap_reverse -passing_root.
  destruct (R !! []) as [[l n]|] eqn:Hl.
  - rewrite (node_at_Some _ _ _ _ Hl). iApply wp_bind. iApply (wp_node_deref with "HR"); [done|].
    iIntros "HR". wp_pures. rewrite (tn_use _ _ _ _ HR _ _ _ Hl) Nat.add_0_r. iSplit; [done|].
    by iApply (trie_map_intro with "HR").
  - rewrite (node_at_None _ _ Hl). wp_pures. iSplit; [|by iApply (trie_map_intro with "HR")].
    iPureIntro. rewrite eq_None_not_Some (tn_dom _ _ _ _ HR) in Hl.
    by replace (passing (kmap reverse m) []) with 0 by lia.
Qed.
End operations.

(** ** Sequences of calls *)

Inductive trie_op : Set :=
  | TInsert (key : list Z) (v : value)
  | TRemove (key : list Z)
  | TLookup (key : list Z)
  | TNumEntries.

(** What one call does to the abstract map. *)
Inductive map_step (fails : Prop) : trie_op → gmap (list Z) value → Z → gmap (list Z) value → Prop :=
  | step_insert s v m : v ≠ VNULL → map_step fails (TInsert s v) m 1 (<[s := v]> m)
  | step_insert_null s m : map_step fails (TInsert s VNULL) m 0 m
  | step_insert_fail s v m : fails → m !! s = None → map_step fails (TInsert s v) m 0 m
  | step_remove s v m : m !! s = Some v → map_step fails (TRemove s) m 1 (delete s m)
  | step_remove_none s m : m !! s = None → map_step fails (TRemove s) m 0 m
  | step_lookup s m : map_step fails (TLookup s) m (default VNULL (m !! s)) m
  | step_num m : map_step fails TNumEntries m (Z.of_nat (size m)) m.

Inductive map_run (fails : Prop) :
    list trie_op → gmap (list Z) value → list Z → gmap (list Z) value → Prop :=
  | run_nil m : map_run fails [] m [] m
  | run_cons o os m r m' rs m'' :
      map_step fails o m r m' → map_run fails os m' rs m'' → map_run fails (o :: os) m (r :: rs) m''.

Definition op_ascii (o : trie_op) : Prop :=
  match o with TInsert s _ | TRemove s | TLookup s => ascii s | TNumEntries => True end.

#[global] Instance op_ascii_dec o : Decision (op_ascii o).
Proof. destruct o; unfold op_ascii, ascii; apply _. Defined.

Section calls.
Context `{Allocator TrieNode}.

(** One call, with its result. *)
Definition trie_call (o : trie_op) (t : Trie) : M TrieNode (Z * Trie) :=
  match o with
  | TInsert s v => trie_insert t (cstring s) v
  | TRemove s => trie_remove t (cstring s)
  | TLookup s => v ← trie_lookup t (cstring s); mret (v, t)
  | TNumEntries => n ← trie_num_entries t; mret (n, t)
  end.

Fixpoint trie_calls (os : list trie_op) (t : Trie) : M TrieNode (list Z * Trie) :=
  match os with
  | [] => mret ([], t)
  | o :: os => '(r, t) ← trie_call o t; '(rs, t) ← trie_calls os t; mret (r :: rs, t)
  end.

Lemma map_step_size fails o m r m' : map_step fails o m r m' → size m' ≤ S (size m).
Proof.
  intros Hs. inv Hs; try lia.
  - rewrite map_size_insert. case_match; simpl; lia.
  - assert (size (delete s m) ≤ size m); [|lia]. apply map_subseteq_size, delete_subseteq.
Qed.

Lemma trie_call_spec o t m :
  op_ascii o → (Z.of_nat (size m) < INT_MAX)%Z →
  {{ trie_map t m }} trie_call o t
  {{ r, ∃ m', ⌈ map_step can_fail o m r.1 m' ⌉ ∗ trie_map r.2 m' }}.
Proof.
  intros Ho Hsize. assert (room m) as Hroom by (rewrite /room; int_tac).
  apply triple_wp. iIntros "H". destruct o as [s v|s|s|]; simpl in *.
  - iApply (triple_use with "H"); [by apply trie_insert_spec|]. iIntros ([r t']) "H"; simpl.
    case_decide as Hv; [iDestruct "H" as "[-> H]"|iDestruct "H" as "[[-> H]|(-> & %Hf & %Hk & H)]"].
    + iExists m. iFrame. iPureIntro. rewrite Hv. constructor.
    + iExists _. iFrame. iPureIntro. by constructor.
    + iExists m. iFrame. iPureIntro. by apply step_insert_fail.
  - iApply (triple_use with "H"); [by apply trie_remove_spec|]. iIntros ([r t']) "[%Hr H]"; simpl in *.
    subst r. iExists (delete s m). iFrame. iPureIntro. destruct (m !! s) eqn:Hs; [by econstructor|].
    rewrite delete_id //. by apply step_remove_none.
  - wp_bind. iApply (triple_use with "H"); [by apply trie_lookup_spec|]. iIntros (r) "[-> H]".
    wp_pures. iExists m. iFrame. iPureIntro. constructor.
  - wp_bind. iApply (triple_use with "H"); [by apply trie_num_entries_spec|]. iIntros (r) "[-> H]".
    wp_pures. iExists m. iFrame. iPureIntro. rewrite /to_int bool_decide_eq_true_2; [constructor|lia].
Qed.

Lemma trie_calls_spec os t m :
  Forall op_ascii os → (Z.of_nat (size m) + Z.of_nat (length os) ≤ INT_MAX)%Z →
  {{ trie_map t m }} trie_calls os t
  {{ r, ∃ m', ⌈ map_run can_fail os m r.1 m' ⌉ ∗ trie_map r.2 m' }}.
Proof.
  intros Hos. revert t m. induction Hos as [|o os Ho Hos IH]; intros t m Hsize; apply triple_wp;
    iIntros "H"; simpl in *.
  { wp_pures. iExists m. iFrame. iPureIntro. constructor. }
  wp_bind. iApply (triple_use with "H"); [apply trie_call_spec; [done|lia]|].
  iIntros ([r t']) "(%m' & %Hstep & H)". wp_bind. pose proof (map_step_size _ _ _ _ _ Hstep).
  iApply (triple_use with "H"); [apply IH; lia|]. iIntros ([rs t'']) "(%m'' & %Hrun & H)". wp_pures.
  iExists m''. iFrame. iPureIntro. by econstructor.
Qed.

(** *** Bytes from 128 on *)

(** A [char] is signed: such a byte is a negative index.  The call faults when its search gets there,
    that is, when what stands before the byte starts one of the keys. *)
Definition call_key (o : trie_op) : option (list Z) :=
  match o with
  | TInsert s v => if bool_decide (v = VNULL) then None else Some s
  | TRemove s | TLookup s => Some s
  | TNumEntries => None
  end.

Definition reaches_high_byte (m : gmap (list Z) value) (o : trie_op) : Prop :=
  ∃ s c rest, call_key o = Some (s ++ c :: rest) ∧ ascii s ∧ (-128 ≤ c < 0)%Z ∧
    ∃ k, is_Some (m !! k) ∧ s `prefix_of` k.

Lemma own_nodes_cell R p l n h : R !! p = Some (l, n) → holds (own_nodes R) h → h !! l = Some n.
Proof.
  intros Hp Hh. apply (holds_mono _ (l ↦ n ∗ (l ↦ n -∗ own_nodes R))) in Hh.
  2: { iIntros "H". iApply (big_sepM_lookup_acc (λ _ ln, ln.1 ↦ ln.2)%I R p (l, n) Hp with "H"). }
  apply holds_sep in Hh as (h1 & h2 & -> & _ & ->%holds_pointsto & _). by apply lookup_singleton_union.
Qed.

Lemma find_walk_high root R m s p c rest h tick :
  trie_nodes root R m (λ _, 0) → ascii s → (-128 ≤ c < 0)%Z → is_Some (R !! (reverse s ++ p)) →
  holds (own_nodes R) h → trie_find_walk (node_at R p) (s ++ c :: rest) (Mem h tick) = Err OutOfBounds.
Proof.
  intros HR Hs Hc Hin Hh. revert p Hin. induction Hs as [|d s Hd Hs IH]; intros p Hin; simpl.
  - rewrite bool_decide_eq_false_2; [|lia]. destruct Hin as [[l n] Hp]. rewrite (node_at_Some _ _ _ _ Hp).
    rewrite (bind_run _ _ _ n (Mem h tick)); [|by eapply deref_run, own_nodes_cell].
    apply bind_err. by rewrite /aget bool_decide_eq_false_2; [|lia].
  - rewrite bool_decide_eq_false_2; [|lia]. rewrite reverse_cons -assoc_L /= in Hin.
    destruct (R !! p) as [[l n]|] eqn:Hp.
    2: { exfalso. assert (R !! (reverse s ++ d :: p) = None) as Hnone; [|rewrite Hnone in Hin; by destruct Hin].
         apply (nodes_absent _ _ _ _ HR p); [done| |done]. exists (reverse s ++ [d]). by rewrite -assoc_L. }
    rewrite (node_at_Some _ _ _ _ Hp).
    rewrite (bind_run _ _ _ n (Mem h tick)); [|by eapply deref_run, own_nodes_cell].
    rewrite (bind_run _ _ _ (node_at R (d :: p)) (Mem h tick)); [by apply IH|].
    rewrite /aget bool_decide_eq_true_2; [|lia]. by rewrite (tn_next _ _ _ _ HR _ _ _ _ Hp); [|lia].
Qed.

Lemma find_end_high t m s c rest k h tick :
  ascii s → (-128 ≤ c < 0)%Z → is_Some (m !! k) → s `prefix_of` k → holds (trie_map t m) h →
  trie_find_end t (cstring (s ++ c :: rest)) (Mem h tick) = Err OutOfBounds.
Proof.
  intros Hs Hc [v Hk] Hpre Hh. destruct t as [root]. apply holds_exist in Hh as [R Hh].
  apply holds_pure_sep in Hh as [HR Hh]. apply holds_pure_sep in Hh as [_ Hh]. simpl in HR.
  rewrite /trie_find_end /cstring -assoc_L /= (tn_root _ _ _ _ HR).
  eapply find_walk_high; [done..| |done]. rewrite right_id_L. apply (tn_dom _ _ _ _ HR). rewrite Nat.add_0_r.
  assert (0 < passing (kmap reverse m : gmap path value) (reverse k)) as Hpass.
  { apply (passing_pos _ _ v). by rewrite lookup_kmap. }
  eapply Nat.lt_le_trans; [exact Hpass|]. apply passing_le.
  destruct Hpre as [l ->]. exists (reverse l). by rewrite reverse_app.
Qed.

Lemma trie_call_high o t m h tick :
  reaches_high_byte m o → holds (trie_map t m) h → trie_call o t (Mem h tick) = Err OutOfBounds.
Proof.
  intros (s & c & rest & Ho & Hs & Hc & k & Hk & Hpre) Hh.
  destruct o as [s' v|s'|s'|]; simpl in Ho; [|simplify_eq..|done].
  - case_bool_decide as Hv; simplify_eq. simpl. rewrite /trie_insert bool_decide_eq_false_2 //.
    apply bind_err. by eapply find_end_high.
  - simpl. rewrite /trie_remove. apply bind_err. by eapply find_end_high.
  - simpl. rewrite /trie_lookup. apply bind_err, bind_err. by eapply find_end_high.
Qed.

(** C2. On strings of the characters 1 to 127, every sequence of at most [INT_MAX] calls on a trie is a run of the finite
    map from strings to values: an insertion binds the key, or fails because an allocation was
    refused and then leaves the map as it was; removal, lookup and the number
    of entries are those of the map.  With other bytes a call leaves the array of links: it faults as soon as its search
    gets to the byte. *)
Theorem trie_refines_map os t m :
  (Forall op_ascii os → (Z.of_nat (size m) + Z.of_nat (length os) ≤ INT_MAX)%Z →
   {{ trie_map t m }} trie_calls os t
   {{ r, ∃ m', ⌈ map_run can_fail os m r.1 m' ⌉ ∗ trie_map r.2 m' }}) ∧
  ∀ o h tick, reaches_high_byte m o → holds (trie_map t m) h → trie_call o t (Mem h tick) = Err OutOfBounds.
Proof. split; [apply trie_calls_spec|intros o h tick; apply trie_call_high]. Qed.
End calls.

(** A [char] is signed: a byte from 128 on is a negative index, and the search
    for a string that starts with one reads before the links of the root. *)
Theorem trie_lookup_high_byte root n c s m :
  cells m !! root = Some n → (-128 ≤ c < 0)%Z →
  trie_lookup {| root_node := Some root |} (cstring (c :: s)) m = Err OutOfBounds.
Proof.
  intros Hroot Hc. rewrite /trie_lookup /trie_find_end /=. rewrite bool_decide_eq_false_2; [|lia].
  apply bind_err. rewrite (bind_run _ _ m n m); [|by apply deref_run]. apply bind_err.
  by rewrite /aget bool_decide_eq_false_2; [|lia].
Qed.

(** ** Runs *)

Module Runs.
(** The third request is refused. *)
#[local] Instance three_nodes : Allocator TrieNode := bounded_alloc 3 zero_node.

Definition calls : list trie_op :=
  [TInsert [97; 98] 5; TInsert [97] 6; TInsert [97; 99] 7; TNumEntries; TLookup [97; 98];
   TRemove [97; 98]; TLookup [97; 98]; TLookup [97]; TNumEntries]%Z.

Lemma empty_trie_holds : holds (trie_map {| root_node := NULL |} ∅) ∅.
Proof.
  apply (holds_mono emp); [|done]. iIntros "_".
  iApply (trie_map_intro NULL ∅ ∅); [apply empty_nodes|done|by rewrite /own_nodes big_sepM_empty].
Qed.

Lemma trie_refines_map_witness :
  ∃ t h n, trie_calls calls {| root_node := NULL |} (Mem ∅ 0) =
    Ok (([1; 1; 0; 2; 5; 1; 0; 6; 1]%Z, t), Mem h n) ∧ size h = 2.
Proof.
  destruct (triple_run _ _ _ ∅ 0 (proj1 (trie_refines_map calls {| root_node := NULL |} ∅)
    ltac:(by apply (bool_decide_unpack _)) ltac:(by vm_compute)) empty_trie_holds)
    as ([rs t] & h & n & E & _).
  exists t, h, n. revert E. vm_compute. intros [= <- <- <- <-]. by split.
Defined.

Lemma trie_lookup_high_byte_witness :
  trie_lookup {| root_node := Some 1%positive |} (cstring [-61; -87]%Z)
    (Mem {[1%positive := zero_node]} 0) = Err OutOfBounds.
Proof. apply (trie_lookup_high_byte _ zero_node); [done|lia]. Defined.
End Runs.
