(* ===== verification/TrieFree.v ===== *)
(** * TrieFree: trie_free of trie.c

    The nodes are released without recursion: those still to be visited form a
    list threaded through their value fields.  Every node is released once, and
    the number of rounds is the number of nodes. *)
From stdpp Require Import base gmap list numbers.
From iris.proofmode Require Import proofmode.
From S2P Require Import Prelude Memory Trie TrieNodes TrieOps.

(** The free list is threaded through the value fields: it starts at [head] and
    goes through the nodes at [stack]. *)
Fixpoint chained (R : nodes) (stack : list path) (head : ptr) : Prop :=
  match stack with
  | [] => head = NULL
  | p :: stack => ∃ l n, R !! p = Some (l, n) ∧ head = Some l ∧ chained R stack (pointer (t_data n))
  end.

Definition linked (R : nodes) : Prop := ∀ p l n, R !! p = Some (l, n) →
  length (t_next n) = 256 ∧
  ∀ c, (0 ≤ c < 256)%Z → t_next n !! Z.to_nat c = Some (node_at R (c :: p)).

(** Between two rounds: every node that is left is in the free list or has its
    parent among the nodes that are left. *)
Record unvisited (R : nodes) (stack : list path) (head : ptr) : Prop := {
  uv_chained : chained R stack head;
  uv_NoDup : NoDup stack;
  uv_linked : linked R;
  uv_cover p : is_Some (R !! p) →
    p ∈ stack ∨ ∃ c q, p = c :: q ∧ (0 ≤ c < 256)%Z ∧ is_Some (R !! q);
  uv_top c q : c :: q ∈ stack → R !! q = None
}.

(** While the children of [s] are added, from [i] on. *)
Record visiting (R : nodes) (stack : list path) (head : ptr) (s : path) (i : Z) : Prop := {
  vi_chained : chained R stack head;
  vi_NoDup : NoDup (s :: stack);
  vi_linked : linked R;
  vi_cover p : is_Some (R !! p) →
    p ∈ s :: stack ∨ ∃ c q, p = c :: q ∧ (0 ≤ c < 256)%Z ∧ is_Some (R !! q) ∧ (q = s → i ≤ c)%Z;
  vi_top c q : c :: q ∈ s :: stack → R !! q = None ∨ q = s ∧ (c < i)%Z
}.

Lemma pointer_address p : pointer (address p) = p.
Proof. by destruct p. Qed.

Lemma chained_insert R stack head p x :
  p ∉ stack → chained R stack head → chained (<[p := x]> R) stack head.
Proof.
  revert head. induction stack as [|q stack IH]; intros head; simpl; [done|].
  intros [Hne Hp]%not_elem_of_cons (l & n & Hq & Hh & Hc). exists l, n.
  rewrite lookup_insert_ne //. auto.
Qed.

Lemma chained_delete R stack head p :
  p ∉ stack → chained R stack head → chained (delete p R) stack head.
Proof.
  revert head. induction stack as [|q stack IH]; intros head; simpl; [done|].
  intros [Hne Hp]%not_elem_of_cons (l & n & Hq & Hh & Hc). exists l, n.
  rewrite lookup_delete_ne //. auto.
Qed.

(** A new value field changes no link. *)
Lemma node_at_put (R : nodes) p l n v q :
  R !! p = Some (l, n) → node_at (<[p := (l, put_data v n)]> R) q = node_at R q.
Proof. intros Hl. rewrite /node_at lookup_insert. case_decide; [|done]. subst. by rewrite Hl. Qed.

Lemma linked_put (R : nodes) p l n v :
  R !! p = Some (l, n) → linked R → linked (<[p := (l, put_data v n)]> R).
Proof.
  intros Hl HR q l0 n0. setoid_rewrite node_at_put; [|done]. rewrite lookup_insert. case_decide as Hp.
  - intros [= <- <-]. subst q. by apply (HR _ l n).
  - by apply HR.
Qed.

Lemma is_Some_put (R : nodes) p l n v q :
  R !! p = Some (l, n) → is_Some (<[p := (l, put_data v n)]> R !! q) ↔ is_Some (R !! q).
Proof.
  intros Hl. rewrite lookup_insert. case_decide; [|done]. subst. rewrite Hl. split; by eexists.
Qed.

(** The list before the first round. *)
Lemma unvisited_start (root : ptr) (R : nodes) (m : gmap (list Z) value) l n :
  storable m → trie_nodes root R (kmap reverse m) (λ _, 0) → R !! [] = Some (l, n) →
  unvisited (<[[] := (l, put_data VNULL n)]> R) [[]] (Some l).
Proof.
  intros Hm HR Hl. split.
  - exists l, (put_data VNULL n). by rewrite lookup_insert_eq.
  - apply NoDup_singleton.
  - apply linked_put; [done|]. intros p l0 n0 Hp. split; [by eapply (tn_length _ _ _ _ HR)|].
    intros c Hc. by eapply (tn_next _ _ _ _ HR).
  - intros p Hp. rewrite is_Some_put // in Hp. destruct p as [|c p]; [left; by left|]. right. exists c, p.
    rewrite is_Some_put //. rewrite (tn_dom _ _ _ _ HR) Nat.add_0_r in Hp |- *.
    split; [done|]. rewrite (tn_dom _ _ _ _ HR) Nat.add_0_r. split.
    + apply passing_inv in Hp as (k & [v Hk] & [r Hr]).
      rewrite -(reverse_involutive k) (lookup_kmap reverse) in Hk. apply Hm in Hk as [_ Hk].
      rewrite /ascii Forall_reverse Hr in Hk. apply Forall_app in Hk as [_ Hk]. inv Hk. lia.
    + assert (passing (kmap reverse m) (c :: p) ≤ passing (kmap reverse m) p); [|lia].
      by apply passing_le, suffix_cons_r.
  - intros c q Hq%list_elem_of_singleton. done.
Qed.

Lemma visit_start R s stack head :
  unvisited R (s :: stack) head →
  ∃ l n, R !! s = Some (l, n) ∧ head = Some l ∧ visiting R stack (pointer (t_data n)) s 0.
Proof.
  intros [(l & n & Hs & Hh & Hc) H2 H3 H4 H5]. exists l, n. split; [done|]. split; [done|].
  split; [done|done|done| |].
  - intros p [Hp|(c & q & -> & Hc' & Hq)]%H4; [by left|]. right. exists c, q. split_and!; try done; lia.
  - intros c q Hq. left. by eapply H5.
Qed.

(** One child. *)
Lemma visit_none R stack head s i :
  visiting R stack head s i → node_at R (i :: s) = NULL → visiting R stack head s (i + 1).
Proof.
  intros [H1 H2 H3 H4 H5] Hnone. split; [done|done|done| |].
  - intros p Hp. destruct (H4 p Hp) as [?|(c & q & -> & Hc & Hq & Hi)]; [by left|].
    right. exists c, q. split_and!; [done|lia|lia|done|]. intros ->.
    destruct (decide (c = i)) as [->|]; [|specialize (Hi eq_refl); lia].
    apply fmap_None in Hnone. rewrite Hnone in Hp. by destruct Hp.
  - intros c q [?|[-> ?]]%H5; [by left|]. right. split; [done|lia].
Qed.

Lemma visit_some R stack head s i l n :
  visiting R stack head s i → is_Some (R !! s) → R !! (i :: s) = Some (l, n) →
  visiting (<[i :: s := (l, put_data (address head) n)]> R) ((i :: s) :: stack) (Some l) s (i + 1).
Proof.
  intros [H1 H2 H3 H4 H5] Hs Hl. set (R' := <[_ := _]> R).
  assert (∀ q, is_Some (R' !! q) ↔ is_Some (R !! q)) as Hdom by (intros q; by apply is_Some_put).
  assert (i :: s ∉ s :: stack) as Hfresh.
  { intros [Hn|[_ ?]]%H5; [|lia]. rewrite Hn in Hs. by destruct Hs. }
  split.
  - exists l, (put_data (address head) n). rewrite /R' lookup_insert_eq /= pointer_address.
    split_and!; [done|done|]. apply chained_insert; [|done].
    by apply not_elem_of_cons in Hfresh as [_ ?].
  - apply NoDup_cons in H2 as [??]. apply not_elem_of_cons in Hfresh as [??].
    rewrite !NoDup_cons not_elem_of_cons. by split_and!; [apply not_eq_sym| | |].
  - by apply linked_put.
  - intros p Hp. apply Hdom in Hp. destruct (H4 p Hp) as [Hin|(c & q & -> & Hc & Hq & Hi)].
    { left. apply elem_of_cons in Hin as [->|]; [by left|right; by right]. }
    destruct (decide (q = s ∧ c = i)) as [[-> ->]|Hne]; [left; right; by left|].
    right. exists c, q. rewrite Hdom. split_and!; [done|lia|lia|done|]. intros ->.
    specialize (Hi eq_refl). destruct (decide (c = i)) as [->|]; [by destruct Hne|lia].
  - intros c q Hin. rewrite !elem_of_cons in Hin.
    assert (R' !! q = None ↔ R !! q = None) as -> by by rewrite !eq_None_not_Some Hdom.
    destruct Hin as [Hin|[[= -> ->]|Hin]].
    + destruct (H5 c q) as [?|[-> ?]]; [rewrite Hin; by left|by left|]. right. split; [done|lia].
    + right. split; [done|lia].
    + destruct (H5 c q) as [?|[-> ?]]; [by right|by left|]. right. split; [done|lia].
Qed.

Lemma visit_end R stack head s :
  visiting R stack head s 256 → unvisited (delete s R) stack head.
Proof.
  intros [H1 H2 H3 H4 H5]. apply NoDup_cons in H2 as [Hs H2]. split; [by apply chained_delete|done| | |].
  - intros p l n [Hne Hp]%lookup_delete_Some. destruct (H3 _ _ _ Hp) as [? Hn]. split; [done|].
    intros c Hc. rewrite (Hn c Hc) /node_at. do 2 f_equal. symmetry. apply lookup_delete_ne. intros ->.
    destruct (H5 c p) as [Hnone|[Heq _]]; [by left|by rewrite Hp in Hnone|by eapply cons_ne].
  - intros p [ln [Hne Hp]%lookup_delete_Some].
    destruct (H4 p) as [Hin|(c & q & -> & Hc & Hq & Hi)]; [by eexists| |].
    { left. by apply elem_of_cons in Hin as [->|]. }
    right. exists c, q. split_and!; [done|lia|lia|]. rewrite lookup_delete_ne //. intros <-.
    specialize (Hi eq_refl). lia.
  - intros c q Hin. apply lookup_delete_None. destruct (H5 c q) as [?|[-> _]]; [by right|by right|by left].
Qed.

(** ** The loops *)

Section freeing.
Context `{Allocator TrieNode}.

Lemma push_children_spec s l n k i R stack head :
  Z.of_nat k = (256 - i)%Z → (0 ≤ i)%Z → R !! s = Some (l, n) → visiting R stack head s i →
  {{ own_nodes R }}
    for_loop k i (λ i free_list,
      n ← deref (Some l);
      child ← aget (t_next n) i;
      match child with
      | NULL => mret free_list
      | Some _ => trie_free_list_push free_list child
      end) head
  {{ head', ∃ R' stack', ⌈ visiting R' stack' head' s 256 ⌉ ∗ ⌈ R' !! s = Some (l, n) ⌉ ∗
        ⌈ size R' = size R ⌉ ∗ own_nodes R' }}.
Proof.
  revert i R stack head. induction k as [|k IH]; intros i R stack head Hk Hi Hs Hv;
    apply triple_wp; iIntros "HR"; simpl.
  { wp_pures. iExists R, stack. iFrame. replace 256%Z with i by lia. by ipures. }
  destruct (vi_linked _ _ _ _ _ Hv s l n Hs) as [Hlen Hnext].
  wp_bind. iApply (wp_node_deref with "HR"); [done|]. iIntros "HR". wp_bind.
  iApply (wp_aget _ _ (node_at R (i :: s))); [lia|apply Hnext; lia|].
  destruct (R !! (i :: s)) as [[l' n']|] eqn:Hl.
  - rewrite (node_at_Some _ _ _ _ Hl) /trie_free_list_push. wp_bind.
    iApply (wp_node_modify with "HR"); [done|]. iIntros "HR". wp_pures.
    iApply (triple_use with "HR").
    { apply (IH (i + 1)%Z _ ((i :: s) :: stack)); [lia|lia| |].
      - rewrite lookup_insert_ne //. apply cons_ne.
      - apply visit_some; [done|by rewrite Hs|done]. }
    iIntros (head') "(%R' & %stack' & Hv' & Hs' & %Hsize & HR)". iExists R', stack'. iFrame.
    iPureIntro. rewrite Hsize map_size_insert_Some //.
  - rewrite (node_at_None _ _ Hl). wp_pures.
    iApply (triple_use with "HR").
    { apply (IH (i + 1)%Z R stack); [lia|lia|done|]. apply visit_none; [done|by apply node_at_None]. }
    iIntros (head') "$".
Qed.

Lemma free_loop fuel R stack head :
  size R < fuel → unvisited R stack head →
  {{ own_nodes R }}
    loop fuel (λ free_list : ptr,
      match free_list with
      | NULL => mret (inr tt)
      | Some _ =>
          '(node, free_list) ← trie_free_list_pop free_list;
          free_list ← trie_push_children node free_list;
          _ ← free node;
          mret (inl free_list)
      end) head
  {{ _, emp }}.
Proof.
  revert R stack head. induction fuel as [|fuel IH]; intros R stack head Hf Hv; [lia|].
  apply triple_wp. iIntros "HR". wp_loop. destruct stack as [|s stack].
  - pose proof (uv_chained _ _ _ Hv) as Hh. simpl in Hh. subst head. wp_pures.
    assert (R = ∅) as ->; [|by rewrite /own_nodes big_sepM_empty].
    assert (∀ k p, length p = k → R !! p = None) as Hnone.
    { induction k as [|k IHk]; intros p Hp; apply eq_None_not_Some; intros Hin;
        destruct (uv_cover _ _ _ Hv p Hin) as [?%elem_of_nil|(c & q & -> & _ & Hq)]; try done.
      rewrite (IHk q) in Hq; [by destruct Hq|]. simpl in Hp. lia. }
    apply map_eq. intros p. rewrite lookup_empty. by apply (Hnone (length p)).
  - destruct (visit_start _ _ _ _ Hv) as (l & n & Hs & -> & Hv'). rewrite /trie_free_list_pop.
    wp_bind. iApply (wp_node_deref with "HR"); [done|]. iIntros "HR". wp_pures.
    iApply (triple_use with "HR"); [by apply (push_children_spec s l n 256 0 R stack)|].
    iIntros (head') "(%R' & %stack' & %Hv'' & %Hs' & %Hsize & HR)". wp_bind.
    iApply (wp_node_free with "HR"); [done|]. iIntros "HR". wp_pures.
    iApply (triple_use with "HR"); [apply (IH _ stack'); [|by apply visit_end]|by iIntros].
    rewrite -(insert_delete_id R' s _ Hs') map_size_insert_None ?lookup_delete_eq // in Hsize. lia.
Qed.

(** ** The number of nodes *)

(** The prefixes of a reversed string. *)
Fixpoint ways (p : path) : list path :=
  p :: match p with [] => [] | _ :: q => ways q end.

Lemma ways_suffix p q : q `suffix_of` p → q ∈ ways p.
Proof.
  induction p as [|c p IH]; simpl.
  - intros ->%suffix_nil_inv. by left.
  - intros [[|c' r] Hq]; simplify_eq/=; [by left|]. right. apply IH. by exists r.
Qed.

Lemma length_ways p : length (ways p) = S (length p).
Proof. induction p as [|c p IH]; simpl; [done|]. by rewrite IH. Qed.

(** Enough for every string of the map and all its prefixes. *)
Definition total_length (m : gmap (list Z) value) : nat :=
  sum_list ((λ kv : list Z * value, S (length kv.1)) <$> map_to_list m).

Lemma nodes_bound (root : ptr) (R : nodes) (m : gmap (list Z) value) :
  trie_nodes root R (kmap reverse m) (λ _, 0) → size R ≤ total_length m.
Proof.
  intros HR. set (ps := map_to_list m ≫= λ kv, ways (reverse kv.1)).
  assert (length ps = total_length m) as <-.
  { rewrite /ps /total_length. induction (map_to_list m) as [|[k v] kvs IH]; [done|].
    rewrite bind_cons length_app IH length_ways length_reverse. done. }
  rewrite -size_dom. trans (size (list_to_set ps : gset path)); last first.
  { clear. induction ps as [|p ps IH]; [done|]. rewrite list_to_set_cons size_union_alt size_singleton.
    assert (size ((list_to_set ps : gset path) ∖ {[p]}) ≤ size (list_to_set ps : gset path)); [|simpl; lia].
    apply subseteq_size. by intros q [? _]%elem_of_difference. }
  apply subseteq_size. intros p Hp. apply elem_of_dom in Hp. rewrite (tn_dom _ _ _ _ HR) in Hp.
  rewrite Nat.add_0_r in Hp. apply passing_inv in Hp as (k & [v Hk] & Hs).
  apply elem_of_list_to_set, list_elem_of_bind. exists (reverse k, v). split.
  - simpl. rewrite reverse_involutive. by apply ways_suffix.
  - apply elem_of_map_to_list. by rewrite -(lookup_kmap (M2 := gmap path) reverse) reverse_involutive.
Qed.

(** C30. [trie_free] releases every node, in as many rounds as there are prefixes of
    keys at most. *)
Theorem trie_free_correct fuel t m :
  total_length m < fuel → {{ trie_map t m }} trie_free fuel t {{ _, emp }}.
Proof.
  intros Hf. apply triple_wp. destruct t as [root]. iIntros "(%R & %HR & %Hm & HR)".
  pose proof (nodes_bound _ _ _ HR) as Hb. rewrite /trie_free /=.
  pose proof (tn_root _ _ _ _ HR) as Hroot. simpl in Hroot. rewrite Hroot.
  assert (linked R) as Hlinked.
  { intros p l n Hl. split; [by eapply (tn_length _ _ _ _ HR)|]. intros c Hc. by eapply (tn_next _ _ _ _ HR). }
  destruct (R !! []) as [[l n]|] eqn:Hl.
  - rewrite (node_at_Some _ _ _ _ Hl) /trie_free_list_push. wp_bind.
    iApply (wp_node_modify with "HR"); [done|]. iIntros "HR". wp_pures.
    iApply (triple_use with "HR"); [apply (free_loop _ _ [[]])|by iIntros].
    + rewrite map_size_insert_Some; [lia|by rewrite Hl].
    + by eapply unvisited_start.
  - rewrite (node_at_None _ _ Hl). wp_pures.
    iApply (triple_use with "HR"); [apply (free_loop _ _ []); [lia|]|by iIntros].
    assert (R = ∅) as ->; [|split; [done|constructor|by intros ? ? ?|by intros ? []|by intros ? ? ?%elem_of_nil]].
    apply map_eq. intros p. rewrite lookup_empty. by eapply nodes_absent; [|exact Hl|apply suffix_nil|].
Qed.
End freeing.

(** ** Runs *)

Module Runs.
#[local] Instance grant : Allocator TrieNode := total_alloc zero_node.

Lemma trie_free_correct_witness :
  ∃ t h n n', trie_insert {| root_node := NULL |} (cstring [97; 98]%Z) 5%Z (Mem ∅ 0) = Ok ((1%Z, t), Mem h n) ∧
    size h = 3 ∧ trie_free 10 t (Mem h n) = Ok (tt, Mem ∅ n').
Proof.
  destruct (triple_run _ _ _ ∅ 0 (trie_insert_spec {| root_node := NULL |} ∅ [97; 98]%Z 5%Z
    ltac:(by apply (bool_decide_unpack _)) ltac:(by vm_compute)) TrieOps.Runs.empty_trie_holds)
    as ([r t] & h & n & E & HQ).
  destruct (decide (5%Z = VNULL)); [done|]. rewrite holds_or !holds_pure_sep /= in HQ.
  destruct HQ as [[-> HQ]|[_ [Hfail _]]]; [|by apply total_alloc_no_fail in Hfail].
  destruct (triple_run _ _ _ h n (trie_free_correct 10 t (<[[97; 98]%Z := 5%Z]> ∅) ltac:(vm_compute; repeat constructor)) HQ)
    as ([] & h' & n' & E' & ->).
  exists t, h, n, n'. split; [done|]. split; [|done]. revert E. vm_compute. by intros [= _ <- _].
Defined.
End Runs.
