(* ===== verification/BinomialHeap.v ===== *)
(** * BinomialHeap: the code of binomial-heap.c

    Reference-counted binomial trees that the merge of two heaps shares between
    the old and the new array of roots.  A cell of memory is a tree or an array of
    trees; the counters are [unsigned short].  BinomialGraph holds the invariant of
    the shared trees, BinomialOps the proofs. *)
From stdpp Require Import base gmap list numbers.
From iris.proofmode Require Import proofmode.
From S2P Require Import Prelude Memory.

(** [BinomialHeapType]. *)
Inductive BinomialHeapType : Set := BINOMIAL_HEAP_TYPE_MIN | BINOMIAL_HEAP_TYPE_MAX.

(** [struct _BinomialTree]. *)
Record BinomialTree := BTree {
  b_value : value; b_order : Z; b_refcount : Z; b_subtrees : ptr
}.

(** A block: a tree, or an array of pointers to trees. *)
Inductive bcell := Tree (t : BinomialTree) | Roots (a : array ptr).

(** A [BinomialTree **]: an array from malloc, or the address of a variable. *)
Inductive tree_array := ArrayAt (p : ptr) | AddressOf (tree : ptr).

(** [struct _BinomialHeap]. *)
Record BinomialHeap := {
  heap_type : BinomialHeapType;
  compare_func : value → value → Z;
  num_values : Z;
  roots : tree_array;
  roots_length : Z
}.

Definition set_num (n : Z) (heap : BinomialHeap) : BinomialHeap :=
  {| heap_type := heap_type heap; compare_func := compare_func heap; num_values := n;
     roots := roots heap; roots_length := roots_length heap |}.
Definition set_roots (r : tree_array) (n : Z) (heap : BinomialHeap) : BinomialHeap :=
  {| heap_type := heap_type heap; compare_func := compare_func heap;
     num_values := num_values heap; roots := r; roots_length := n |}.

Definition put_value (v : value) (t : BinomialTree) : BinomialTree :=
  BTree v (b_order t) (b_refcount t) (b_subtrees t).
Definition put_order (n : Z) (t : BinomialTree) : BinomialTree :=
  BTree (b_value t) n (b_refcount t) (b_subtrees t).
Definition put_refcount (n : Z) (t : BinomialTree) : BinomialTree :=
  BTree (b_value t) (b_order t) n (b_subtrees t).
Definition put_subtrees (p : ptr) (t : BinomialTree) : BinomialTree :=
  BTree (b_value t) (b_order t) (b_refcount t) p.

(** Wrap-around of [unsigned short]. *)
Definition u16 (z : Z) : Z := (z mod 65536)%Z.

(** *** Accesses *)

Definition deref_tree (p : ptr) : M bcell BinomialTree :=
  c ← deref p; match c with Tree t => mret t | Roots _ => fail WildAccess end.
Definition modify_tree (p : ptr) (f : BinomialTree → BinomialTree) : M bcell unit :=
  t ← deref_tree p; assign p (Tree (f t)).

Definition deref_roots (p : ptr) : M bcell (array ptr) :=
  c ← deref p; match c with Roots a => mret a | Tree _ => fail WildAccess end.

(** [a[i]] and [a[i] = tree]. *)
Definition read_root (a : tree_array) (i : Z) : M bcell ptr :=
  match a with
  | ArrayAt p =>
      a ← deref_roots p;
      x ← aget a i;
      match x with Some tree => mret tree | None => fail Uninitialised end
  | AddressOf tree => if bool_decide (i = 0)%Z then mret tree else fail OutOfBounds
  end.
Definition write_root (p : ptr) (i : Z) (tree : ptr) : M bcell unit :=
  a ← deref_roots p; a ← aset a i (Some tree); assign p (Roots a).

(** [memcpy] of the first [n] pointers; nothing is accessed when there are none. *)
Definition copy_roots (dst src : ptr) (n : Z) : M bcell unit :=
  if bool_decide (n = 0)%Z then mret tt
  else
    s ← deref_roots src;
    d ← deref_roots dst;
    if bool_decide (0 ≤ n ≤ Z.of_nat (length s) ∧ n ≤ Z.of_nat (length d))%Z
    then assign dst (Roots (take (Z.to_nat n) s ++ drop (Z.to_nat n) d))
    else fail OutOfBounds.

Definition free_roots (a : tree_array) : M bcell unit :=
  match a with ArrayAt p => free p | AddressOf _ => fail WildAccess end.

Section binomial_heap_c.
Context `{Allocator bcell}.

(** [malloc(sizeof(BinomialTree))]: the fields are arbitrary. *)
Definition malloc_tree : M bcell ptr :=
  p ← malloc;
  match p with
  | NULL => mret NULL
  | Some _ =>
      c ← deref p;
      _ ← assign p (Tree (match c with Tree t => t | Roots _ => BTree VNULL 0 0 NULL end));
      mret p
  end.

(** [malloc(sizeof(BinomialTree * ) * n)]. *)
Definition malloc_roots (n : Z) : M bcell ptr :=
  p ← malloc;
  match p with
  | NULL => mret NULL
  | Some _ => _ ← assign p (Roots (replicate (Z.to_nat n) None)); mret p
  end.

Definition binomial_heap_cmp (heap : BinomialHeap) (data1 data2 : value) : M bcell Z :=
  match heap_type heap with
  | BINOMIAL_HEAP_TYPE_MIN => mret (compare_func heap data1 data2)
  | BINOMIAL_HEAP_TYPE_MAX => chk (- compare_func heap data1 data2)%Z
  end.

Definition binomial_tree_ref (tree : ptr) : M bcell unit :=
  match tree with
  | NULL => mret tt
  | Some _ => modify_tree tree (λ t, put_refcount (u16 (b_refcount t + 1)) t)
  end.

(** The recursion goes down the orders; [fuel] bounds its depth. *)
Fixpoint binomial_tree_unref (fuel : nat) (tree : ptr) : M bcell unit :=
  match fuel with
  | O => fail OutOfFuel
  | S fuel =>
      match tree with
      | NULL => mret tt
      | Some _ =>
          _ ← modify_tree tree (λ t, put_refcount (u16 (b_refcount t - 1)) t);
          t ← deref_tree tree;
          if bool_decide (b_refcount t = 0)%Z then
            _ ← for_loop (Z.to_nat (b_order t)) 0 (λ i _,
                  t ← deref_tree tree;
                  sub ← read_root (ArrayAt (b_subtrees t)) i;
                  binomial_tree_unref fuel sub) tt;
            t ← deref_tree tree;
            _ ← free (b_subtrees t);
            free tree
          else mret tt
      end
  end.

(** The new tree of [binomial_tree_merge], [tree1] having the smaller root. *)
Definition binomial_tree_attach (tree1 tree2 : ptr) : M bcell ptr :=
  new_tree ← malloc_tree;
  match new_tree with
  | NULL => mret NULL
  | Some _ =>
      _ ← modify_tree new_tree (put_refcount 0);
      t1 ← deref_tree tree1;
      _ ← modify_tree new_tree (put_order (u16 (b_order t1 + 1)));
      _ ← modify_tree new_tree (put_value (b_value t1));
      n ← deref_tree new_tree;
      subtrees ← malloc_roots (b_order n);
      _ ← modify_tree new_tree (put_subtrees subtrees);
      match subtrees with
      | NULL => _ ← free new_tree; mret NULL
      | Some _ =>
          t1 ← deref_tree tree1;
          _ ← copy_roots subtrees (b_subtrees t1) (b_order t1);
          n ← deref_tree new_tree;
          _ ← write_root subtrees (b_order n - 1) tree2;
          _ ← for_loop (Z.to_nat (b_order n)) 0 (λ i _,
                n ← deref_tree new_tree;
                sub ← read_root (ArrayAt (b_subtrees n)) i;
                binomial_tree_ref sub) tt;
          mret new_tree
      end
  end.

Definition binomial_tree_merge (heap : BinomialHeap) (tree1 tree2 : ptr) : M bcell ptr :=
  t1 ← deref_tree tree1;
  t2 ← deref_tree tree2;
  c ← binomial_heap_cmp heap (b_value t1) (b_value t2);
  if bool_decide (c > 0)%Z then binomial_tree_attach tree2 tree1
  else binomial_tree_attach tree1 tree2.

Definition binomial_heap_merge_undo (fuel : nat) (new_roots : ptr) (count : Z) : M bcell unit :=
  _ ← for_loop (Z.to_nat (count + 1)) 0 (λ i _,
        tree ← read_root (ArrayAt new_roots) i;
        binomial_tree_unref fuel tree) tt;
  free new_roots.

(** [i < heap->roots_length && heap->roots[i] != NULL]: the tree to add to
    [vals]. *)
Definition binomial_root_at (heap : BinomialHeap) (i : Z) : M bcell (list ptr) :=
  if bool_decide (i < roots_length heap)%Z then
    tree ← read_root (roots heap) i;
    mret (match tree with NULL => [] | Some _ => [tree] end)
  else mret [].

(** One round of the ripple-carry addition: [inl] carries on with the new
    [new_roots_length] and [carry], [inr] leaves the function with 0. *)
Definition binomial_merge_round (fuel : nat) (heap other : BinomialHeap) (new_roots : ptr)
    (i new_roots_length : Z) (carry : ptr) : M bcell (Z * ptr + unit) :=
  val1 ← binomial_root_at heap i;
  val2 ← binomial_root_at other i;
  let vals := val1 ++ val2 ++ match carry with NULL => [] | Some _ => [carry] end in
  let num_vals := Z.of_nat (length vals) in
  new_roots_length ←
    (if bool_decide (Z.land num_vals 1 ≠ 0)%Z then
       tree ← aget vals (num_vals - 1);
       _ ← write_root new_roots i tree;
       _ ← binomial_tree_ref tree;
       mret (i + 1)%Z
     else _ ← write_root new_roots i NULL; mret new_roots_length);
  '(failed, new_carry) ←
    (if bool_decide (Z.land num_vals 2 ≠ 0)%Z then
       val0 ← aget vals 0;
       val1 ← aget vals 1;
       new_carry ← binomial_tree_merge heap val0 val1;
       mret (bool_decide (new_carry = NULL), new_carry)
     else mret (false, NULL));
  if failed : bool then
    _ ← binomial_heap_merge_undo fuel new_roots i;
    _ ← binomial_tree_unref fuel carry;
    mret (inr tt)
  else
    _ ← binomial_tree_unref fuel carry;
    _ ← binomial_tree_ref new_carry;
    mret (inl (new_roots_length, new_carry)).

(** [for (i=0; i<max; ++i)], from [i] on. *)
Fixpoint binomial_merge_rounds (fuel : nat) (heap other : BinomialHeap) (new_roots : ptr)
    (n : nat) (i new_roots_length : Z) (carry : ptr) : M bcell (Z + unit) :=
  match n with
  | O => mret (inl new_roots_length)
  | S n =>
      r ← binomial_merge_round fuel heap other new_roots i new_roots_length carry;
      match r with
      | inl (new_roots_length, carry) =>
          binomial_merge_rounds fuel heap other new_roots n (i + 1) new_roots_length carry
      | inr tt => mret (inr tt)
      end
  end.

(** The result of the function and [*heap]. *)
Definition binomial_heap_merge (fuel : nat) (heap other : BinomialHeap) : M bcell (Z * BinomialHeap) :=
  max ← (if bool_decide (roots_length heap > roots_length other)%Z
         then chk (roots_length heap + 1)%Z else chk (roots_length other + 1)%Z);
  new_roots ← malloc_roots max;
  match new_roots with
  | NULL => mret (0%Z, heap)
  | Some _ =>
      r ← binomial_merge_rounds fuel heap other new_roots (Z.to_nat max) 0 0 NULL;
      match r with
      | inr tt => mret (0%Z, heap)
      | inl new_roots_length =>
          _ ← for_loop (Z.to_nat (roots_length heap)) 0 (λ i _,
                tree ← read_root (roots heap) i;
                match tree with NULL => mret tt | Some _ => binomial_tree_unref fuel tree end) tt;
          _ ← free_roots (roots heap);
          mret (1%Z, set_roots (ArrayAt new_roots) new_roots_length heap)
      end
  end.

Definition binomial_heap_new (heap_type : BinomialHeapType) (compare_func : value → value → Z) :
    M bcell (option BinomialHeap) :=
  granted ← malloc_array;
  if negb granted then mret None
  else mret (Some {| heap_type := heap_type; compare_func := compare_func; num_values := 0;
                     roots := ArrayAt NULL; roots_length := 0 |}).

Definition binomial_heap_free (fuel : nat) (heap : BinomialHeap) : M bcell unit :=
  _ ← for_loop (Z.to_nat (roots_length heap)) 0 (λ i _,
        tree ← read_root (roots heap) i;
        binomial_tree_unref fuel tree) tt;
  free_roots (roots heap).

Definition binomial_heap_insert (fuel : nat) (heap : BinomialHeap) (v : value) :
    M bcell (Z * BinomialHeap) :=
  new_tree ← malloc_tree;
  match new_tree with
  | NULL => mret (0%Z, heap)
  | Some _ =>
      _ ← modify_tree new_tree (put_value v);
      _ ← modify_tree new_tree (put_order 0);
      _ ← modify_tree new_tree (put_refcount 1);
      _ ← modify_tree new_tree (put_subtrees NULL);
      let fake_heap := {| heap_type := heap_type heap; compare_func := compare_func heap;
                          num_values := 1; roots := AddressOf new_tree; roots_length := 1 |} in
      '(result, heap) ← binomial_heap_merge fuel heap fake_heap;
      heap ← (if bool_decide (result ≠ 0)%Z
              then num ← chk (num_values heap + 1)%Z; mret (set_num num heap) else mret heap);
      _ ← binomial_tree_unref fuel new_tree;
      mret (result, heap)
  end.

(** The loop that finds the index of the least root, -1 at the start. *)
Definition binomial_heap_lesser (heap : BinomialHeap) (i least : Z) : M bcell Z :=
  tree ← read_root (roots heap) i;
  match tree with
  | NULL => mret least
  | Some _ =>
      if bool_decide (least < 0)%Z then mret i
      else
        t ← deref_tree tree;
        least_tree ← read_root (roots heap) least;
        t' ← deref_tree least_tree;
        c ← binomial_heap_cmp heap (b_value t) (b_value t');
        mret (if bool_decide (c < 0)%Z then i else least)
  end.
Definition binomial_heap_least (heap : BinomialHeap) : M bcell Z :=
  for_loop (Z.to_nat (roots_length heap)) 0 (binomial_heap_lesser heap) (-1)%Z.

Definition root_block (a : tree_array) : ptr := match a with ArrayAt p => p | AddressOf _ => NULL end.

(** The number of values of the second fake heap is never set and never read. *)
Definition binomial_heap_pop (fuel : nat) (heap : BinomialHeap) : M bcell (value * BinomialHeap) :=
  if bool_decide (num_values heap = 0)%Z then mret (VNULL, heap)
  else
    least ← binomial_heap_least heap;
    least_tree ← read_root (roots heap) least;
    _ ← write_root (root_block (roots heap)) least NULL;
    t ← deref_tree least_tree;
    let fake_heap := {| heap_type := heap_type heap; compare_func := compare_func heap;
                        num_values := 0; roots := ArrayAt (b_subtrees t);
                        roots_length := b_order t |} in
    '(merged, heap) ← binomial_heap_merge fuel heap fake_heap;
    if bool_decide (merged ≠ 0)%Z then
      t ← deref_tree least_tree;
      _ ← binomial_tree_unref fuel least_tree;
      num ← chk (num_values heap - 1)%Z;
      mret (b_value t, set_num num heap)
    else
      _ ← write_root (root_block (roots heap)) least least_tree;
      mret (VNULL, heap).

Definition binomial_heap_num_entries (heap : BinomialHeap) : Z := num_values heap.
End binomial_heap_c.
