(* ===== verification/BinomialGraph.v ===== *)
(** * BinomialGraph: the shared trees of binomial-heap.c

    The trees form a graph whose nodes count the references to them: from other
    nodes, and from outside ([E], with multiplicity).  [wf] is the invariant that
    the counters are right, that what is referenced is there, and that every tree
    is binomial and heap-ordered.  Taking, dropping and absorbing references are
    the steps; [tree_nodes] reads off the values below a node, which no step
    changes for a node that stays. *)
From stdpp Require Import base gmap list numbers.
From iris.proofmode Require Import proofmode.
From S2P Require Import Prelude Memory.

Record bnode := BNode { n_value : value; n_rc : nat; n_arr : ptr; n_subs : list loc }.
Abbreviation graph := (gmap loc bnode).

Definition set_rc (rc : nat) (n : bnode) : bnode := BNode (n_value n) rc (n_arr n) (n_subs n).

(** Equal up to the counter. *)
Definition same (n n' : bnode) : Prop :=
  n_value n = n_value n' ∧ n_arr n = n_arr n' ∧ n_subs n = n_subs n'.

#[global] Instance same_equivalence : Equivalence same.
Proof.
  split.
  - by intros n.
  - by intros n n' (? & ? & ?).
  - intros n1 n2 n3 (? & ? & ?) (? & ? & ?). split_and!; congruence.
Qed.

Lemma same_set_rc rc n : same n (set_rc rc n).
Proof. done. Qed.

(** ** Occurrences *)

Definition occ (l : loc) (ls : list loc) : nat := length (filter (λ x, x = l) ls).

Lemma occ_cons l x ls : occ l (x :: ls) = (if decide (x = l) then 1 else 0) + occ l ls.
Proof. rewrite /occ filter_cons. by case_decide. Qed.

Lemma occ_app l ls ls' : occ l (ls ++ ls') = occ l ls + occ l ls'.
Proof. by rewrite /occ filter_app length_app. Qed.

#[global] Instance occ_perm l : Proper ((≡ₚ) ==> (=)) (occ l).
Proof. intros ls ls' Hp. by rewrite /occ Hp. Qed.

Lemma occ_length l ls : occ l ls ≤ length ls.
Proof. apply length_filter. Qed.

Lemma occ_elem l ls : l ∈ ls ↔ 0 < occ l ls.
Proof.
  induction ls as [|x ls IH]; [rewrite elem_of_nil /occ /=; lia|].
  rewrite elem_of_cons IH occ_cons. case_decide; subst; [lia|]. split; [intros [->|]; [done|lia]|right; lia].
Qed.

Lemma occ_NoDup l ls : NoDup ls → occ l ls ≤ 1.
Proof.
  induction 1 as [|x ls Hx _ IH]; [rewrite /occ /=; lia|]. rewrite occ_cons. case_decide; [|lia].
  subst. rewrite occ_elem in Hx. lia.
Qed.

Lemma occ_submseteq l ls ls' : ls ⊆+ ls' → occ l ls ≤ occ l ls'.
Proof. intros [k ->]%submseteq_Permutation. rewrite occ_app. lia. Qed.

Lemma occ_Permutation ls ls' : (∀ l, occ l ls = occ l ls') → ls ≡ₚ ls'.
Proof.
  revert ls'. induction ls as [|x ls IH]; intros ls' Hocc.
  - destruct ls' as [|y ls']; [done|]. specialize (Hocc y). rewrite occ_cons decide_True // in Hocc.
  - assert (x ∈ ls') as (l1 & l2 & ->)%list_elem_of_split.
    { apply occ_elem. rewrite -Hocc occ_cons decide_True //. lia. }
    rewrite -Permutation_middle. apply perm_skip, IH. intros l. specialize (Hocc l).
    rewrite occ_app !occ_cons in Hocc. rewrite occ_app. lia.
Qed.

(** Rearrangements of concatenations. *)
Ltac perm_occ :=
  apply occ_Permutation; let l := fresh "l" in intros l; rewrite ?(occ_app, occ_cons);
  try (change (occ l []) with 0); lia.

(** ** References between nodes *)

Definition subs_of (G : graph) (l : loc) : list loc :=
  match G !! l with Some n => n_subs n | None => [] end.

Definition refs (G : graph) (c : loc) : nat :=
  occ c (map_to_list G ≫= λ ln, n_subs ln.2).

Lemma refs_empty c : refs ∅ c = 0.
Proof. by rewrite /refs map_to_list_empty. Qed.

Lemma refs_insert G l n c : G !! l = None → refs (<[l := n]> G) c = occ c (n_subs n) + refs G c.
Proof. intros Hl. by rewrite /refs map_to_list_insert // bind_cons occ_app. Qed.

Lemma refs_delete G l n c : G !! l = Some n → refs G c = occ c (n_subs n) + refs (delete l G) c.
Proof. intros Hl. by rewrite -{1}(insert_delete_id G l n Hl) refs_insert ?lookup_delete_eq. Qed.

Lemma refs_update G l n n' c :
  G !! l = Some n → n_subs n' = n_subs n → refs (<[l := n']> G) c = refs G c.
Proof.
  intros Hl Hs. rewrite -insert_delete_eq refs_insert ?lookup_delete_eq //.
  by rewrite Hs (refs_delete G l n).
Qed.

Lemma refs_elem G l n c : G !! l = Some n → c ∈ n_subs n → 0 < refs G c.
Proof. intros Hl Hc. rewrite (refs_delete G l n) //. apply occ_elem in Hc. lia. Qed.

Lemma refs_parent G c : 0 < refs G c → ∃ l n, G !! l = Some n ∧ c ∈ n_subs n.
Proof.
  intros Hc. apply occ_elem, list_elem_of_bind in Hc as ([l n] & Hc & Hl).
  exists l, n. split; [by apply elem_of_map_to_list|done].
Qed.

Lemma refs_subs_of G c : refs G c = occ c ((map_to_list G).*1 ≫= subs_of G).
Proof.
  rewrite /refs. f_equal.
  assert (∀ kvs, (∀ l n, (l, n) ∈ kvs → G !! l = Some n) →
    (kvs ≫= λ ln, n_subs ln.2) = kvs.*1 ≫= subs_of G) as Hbind.
  { induction kvs as [|[l n] kvs IH]; intros Hin; [done|]. rewrite fmap_cons !bind_cons.
    rewrite IH; [|intros l' n' ?; apply Hin; by right]. f_equal.
    rewrite /subs_of (Hin l n) //. by left. }
  apply Hbind. intros l n. by rewrite elem_of_map_to_list.
Qed.

(** ** The invariant *)

Section graph.
Context (le : value → value → Prop) `{!PreOrder le}.
Implicit Types (G : graph) (E : list loc) (n : bnode).

Record wf G E : Prop := {
  wf_rc l n : G !! l = Some n → n_rc n = refs G l + occ l E;
  wf_ext l : l ∈ E → is_Some (G !! l);
  wf_sub l n i c : G !! l = Some n → n_subs n !! i = Some c →
    ∃ nc, G !! c = Some nc ∧ length (n_subs nc) = i ∧ le (n_value n) (n_value nc)
}.

Lemma wf_Permutation G E E' : E ≡ₚ E' → wf G E → wf G E'.
Proof.
  intros Hp [H1 H2 H3]. split; [|by setoid_rewrite <-Hp|done].
  intros l n Hl. rewrite -Hp. by apply H1.
Qed.

#[global] Instance wf_proper G : Proper ((≡ₚ) ==> iff) (wf G).
Proof. intros E E' Hp. by split; apply wf_Permutation. Qed.

Lemma wf_sub_elem G E l n c :
  wf G E → G !! l = Some n → c ∈ n_subs n →
  ∃ nc, G !! c = Some nc ∧ length (n_subs nc) < length (n_subs n) ∧ le (n_value n) (n_value nc).
Proof.
  intros HG Hl [i Hi]%list_elem_of_lookup. destruct (wf_sub _ _ HG _ _ _ _ Hl Hi) as (nc & ? & Hlen & ?).
  exists nc. apply lookup_lt_Some in Hi. split_and!; [done|lia|done].
Qed.

Lemma subs_NoDup G E l n : wf G E → G !! l = Some n → NoDup (n_subs n).
Proof.
  intros HG Hl. apply NoDup_alt. intros i j c Hi Hj.
  destruct (wf_sub _ _ HG _ _ _ _ Hl Hi) as (nc & Hc & <- & _).
  destruct (wf_sub _ _ HG _ _ _ _ Hl Hj) as (nc' & Hc' & <- & _). congruence.
Qed.

(** Every tree is referenced. *)
Definition live G (fresh : option loc) : Prop :=
  ∀ l n, G !! l = Some n → n_rc n = 0 → fresh = Some l.

(** *** Steps *)

(** Nodes go, counters change. *)
Definition shrinks G G' : Prop :=
  (∀ l n', G' !! l = Some n' → ∃ n, G !! l = Some n ∧ same n n' ∧
    n_rc n' ≤ n_rc n ∧ (n_rc n' = 0 → n_rc n = 0)) ∧
  (∀ c, refs G' c ≤ refs G c) ∧
  (∀ l n, G !! l = Some n → n_rc n = 0 → G' !! l = Some n).

(** Nodes stay, counters change. *)
Definition keeps G G' : Prop :=
  ∀ l n, G !! l = Some n → ∃ n', G' !! l = Some n' ∧ same n n'.

Lemma shrinks_refl G : shrinks G G.
Proof. split; [|by split; [intros c; lia|]]. intros l n Hl. exists n. by split_and!. Qed.

Lemma shrinks_trans G1 G2 G3 : shrinks G1 G2 → shrinks G2 G3 → shrinks G1 G3.
Proof.
  intros (H12 & Hr12 & Hd12) (H23 & Hr23 & Hd23).
  split; [|split; [intros c; specialize (Hr12 c); specialize (Hr23 c); lia|auto]].
  intros l n3 Hl. destruct (H23 l n3 Hl) as (n2 & Hl2 & Hs2 & ? & Hz2).
  destruct (H12 l n2 Hl2) as (n1 & Hl1 & Hs1 & ? & Hz1).
  exists n1. split; [done|]. split; [by trans n2|]. split; [lia|auto].
Qed.

Lemma shrinks_live G G' fresh : shrinks G G' → live G fresh → live G' fresh.
Proof. intros [Hs _] HG l n' Hl Hz. destruct (Hs l n' Hl) as (n & Hn & _ & _ & Hz'). eapply HG; eauto. Qed.

Lemma set_rc_lookup G l n rc l' n' :
  G !! l = Some n → <[l := set_rc rc n]> G !! l' = Some n' →
  ∃ n0, G !! l' = Some n0 ∧ same n0 n' ∧ n_rc n' = if decide (l = l') then rc else n_rc n0.
Proof.
  intros Hl. rewrite lookup_insert. case_decide as Hc; [intros [= <-]; subst; by exists n|].
  intros ?. by exists n'.
Qed.

Lemma keeps_set_rc G l n rc : G !! l = Some n → keeps G (<[l := set_rc rc n]> G).
Proof.
  intros Hl l' n' Hl'. rewrite lookup_insert. case_decide as Hc; [|by exists n'].
  subst. rewrite Hl in Hl'. injection Hl' as <-. by exists (set_rc rc n).
Qed.

(** A change of one counter that follows the references. *)
Lemma wf_set_rc G l n rc E E' :
  wf G E → G !! l = Some n → (rc + occ l E = n_rc n + occ l E')%nat →
  (∀ c, c ≠ l → occ c E' = occ c E) → wf (<[l := set_rc rc n]> G) E'.
Proof.
  intros [H1 H2 H3] Hl Hrc Hother. split.
  - intros l' n' Hl'. rewrite (refs_update G l n) //.
    destruct (set_rc_lookup _ _ _ _ _ _ Hl Hl') as (n0 & Hn0 & _ & ->). pose proof (H1 l' n0 Hn0) as Hrc'.
    case_decide as Hc; [|rewrite Hother; [done|by apply not_eq_sym]]. subst.
    rewrite Hl in Hn0. injection Hn0 as <-. lia.
  - intros l' Hl'. rewrite lookup_insert_is_Some'. destruct (decide (l = l')) as [|Hne]; [by left|right].
    apply H2. apply occ_elem. rewrite -Hother; [by apply occ_elem|by apply not_eq_sym].
  - intros l' n' i c Hl' Hi. destruct (set_rc_lookup _ _ _ _ _ _ Hl Hl') as (n0 & Hn0 & (Hv & _ & Hs) & _).
    rewrite -Hs in Hi. destruct (H3 _ _ _ _ Hn0 Hi) as (nc & Hc & Hlen & Hle).
    destruct (keeps_set_rc G l n rc Hl c nc Hc) as (nc' & Hc' & Hv' & _ & Hs').
    exists nc'. rewrite -Hs' -Hv' -Hv. done.
Qed.

(** [binomial_tree_ref] takes a reference. *)
Lemma wf_ref G l n E :
  wf G E → G !! l = Some n → wf (<[l := set_rc (S (n_rc n)) n]> G) (l :: E).
Proof.
  intros HG Hl. eapply wf_set_rc; [done|done| |].
  - rewrite occ_cons decide_True //. lia.
  - intros c Hc. rewrite occ_cons decide_False; [done|by apply not_eq_sym].
Qed.

(** [binomial_tree_unref] drops one of several references. *)
Lemma wf_unref G l n rc E :
  wf G (l :: E) → G !! l = Some n → n_rc n = S rc → wf (<[l := set_rc rc n]> G) E.
Proof.
  intros HG Hl Hrc. eapply wf_set_rc; [done|done| |].
  - rewrite occ_cons decide_True // Hrc. lia.
  - intros c Hc. rewrite occ_cons decide_False; [done|by apply not_eq_sym].
Qed.

Lemma shrinks_unref G l n rc :
  G !! l = Some n → n_rc n = S rc → 0 < rc → shrinks G (<[l := set_rc rc n]> G).
Proof.
  intros Hl Hn Hrc. split; [|split; [intros c; by rewrite (refs_update G l n)|]].
  2: { intros l' n' Hl' Hz. rewrite lookup_insert_ne //. intros ->. simplify_eq. lia. }
  intros l' n' Hl'. destruct (set_rc_lookup _ _ _ _ _ _ Hl Hl') as (n0 & Hn0 & Hs & ->).
  exists n0. split; [done|]. split; [done|]. case_decide; [|by split].
  subst. rewrite Hl in Hn0. injection Hn0 as <-. lia.
Qed.

(** The last reference: the references of the node become external. *)
Lemma wf_release G l n E :
  wf G (l :: E) → G !! l = Some n → n_rc n = 1 → wf (delete l G) (n_subs n ++ E).
Proof.
  intros [H1 H2 H3] Hl Hrc. pose proof (H1 l n Hl) as Hl1. rewrite Hrc occ_cons decide_True // in Hl1.
  assert (l ∉ E) as HlE by (rewrite occ_elem; lia).
  assert (∀ l' n', G !! l' = Some n' → l ∉ n_subs n') as Hsubs.
  { intros l' n' Hl' Hin. pose proof (refs_elem _ _ _ _ Hl' Hin). lia. }
  split.
  - intros l' n' [Hne Hl']%lookup_delete_Some. rewrite (H1 l' n' Hl') (refs_delete G l n) //.
    rewrite occ_app occ_cons decide_False //. lia.
  - intros l' [Hin|Hin]%elem_of_app; rewrite lookup_delete_is_Some.
    + split; [by intros <-; eapply Hsubs|]. apply list_elem_of_lookup in Hin as [i Hi].
      destruct (H3 _ _ _ _ Hl Hi) as (nc & ? & _). by exists nc.
    + split; [by intros <-|]. apply H2. by right.
  - intros l' n' i c [Hne Hl']%lookup_delete_Some Hi. destruct (H3 _ _ _ _ Hl' Hi) as (nc & Hc & Hlen & Hle).
    exists nc. rewrite lookup_delete_ne //. intros <-. eapply Hsubs; [exact Hl'|].
    by eapply list_elem_of_lookup_2.
Qed.

Lemma shrinks_release G l n : G !! l = Some n → n_rc n ≠ 0 → shrinks G (delete l G).
Proof.
  intros Hl Hrc. split; [|split; [intros c; rewrite (refs_delete G l n) //; lia|]].
  2: { intros l' n' Hl' Hz. rewrite lookup_delete_ne //. intros ->. by simplify_eq. }
  intros l' n' [_ Hl']%lookup_delete_Some. exists n'. by split_and!.
Qed.

(** A new node takes over external references. *)
Lemma wf_absorb G l n E :
  wf G (n_subs n ++ E) → G !! l = None → n_rc n = 0 →
  (∀ i c, n_subs n !! i = Some c →
    ∃ nc, G !! c = Some nc ∧ length (n_subs nc) = i ∧ le (n_value n) (n_value nc)) →
  wf (<[l := n]> G) E.
Proof.
  intros [H1 H2 H3] Hl Hrc Hsubs.
  assert (∀ c, is_Some (G !! c) → c ≠ l) as Hne by (by intros c [? Hc] ->; rewrite Hl in Hc).
  assert (∀ c i (v : value), (∃ nc', G !! c = Some nc' ∧ length (n_subs nc') = i ∧ le v (n_value nc')) →
    ∃ nc', <[l := n]> G !! c = Some nc' ∧ length (n_subs nc') = i ∧ le v (n_value nc')) as Hold.
  { intros c i v (nc' & Hc & ?). exists nc'. rewrite lookup_insert_ne //. apply not_eq_sym, Hne. by eexists. }
  split.
  - intros l' n'. rewrite lookup_insert refs_insert //. case_decide as Hc.
    + intros [= <-]. subst l'. rewrite Hrc.
      assert (l ∉ n_subs n ++ E) as Hout by (intros Hin; by apply (Hne l (H2 l Hin))).
      rewrite occ_elem occ_app in Hout.
      assert (refs G l = 0); [|lia]. destruct (refs G l) eqn:Hr; [done|].
      destruct (refs_parent G l) as (p & np & Hp & Hin); [lia|].
      apply list_elem_of_lookup in Hin as [i Hi]. destruct (H3 _ _ _ _ Hp Hi) as (? & Hx & _).
      by rewrite Hl in Hx.
    + intros Hl'. rewrite (H1 l' n' Hl') occ_app. lia.
  - intros l' Hin. rewrite lookup_insert_is_Some'. right. apply H2, elem_of_app. by right.
  - intros l' n' i c. rewrite lookup_insert. case_decide.
    + intros [= <-] Hi. by apply Hold, Hsubs.
    + intros Hl' Hi. eapply Hold. by eapply H3.
Qed.

Lemma keeps_insert G l n : G !! l = None → keeps G (<[l := n]> G).
Proof.
  intros Hl l' n' Hl'. exists n'. rewrite lookup_insert_ne //. by intros ->; rewrite Hl in Hl'.
Qed.

Lemma keeps_trans G1 G2 G3 : keeps G1 G2 → keeps G2 G3 → keeps G1 G3.
Proof.
  intros H12 H23 l n1 Hl. destruct (H12 l n1 Hl) as (n2 & Hl2 & ?).
  destruct (H23 l n2 Hl2) as (n3 & Hl3 & ?). exists n3. split; [done|by trans n2].
Qed.

Lemma keeps_refl G : keeps G G.
Proof. intros l n Hl. by exists n. Qed.

(** Counters go up. *)
Definition bumps G G' : Prop :=
  keeps G G' ∧ (∀ l, G !! l = None → G' !! l = None) ∧ (∀ c, refs G' c = refs G c) ∧
  (∀ l n', G' !! l = Some n' → n_rc n' = 0 → ∃ n, G !! l = Some n ∧ n_rc n = 0).

Lemma bumps_refl G : bumps G G.
Proof. split; [apply keeps_refl|]. split_and!; [done|done|]. intros l n Hl Hz. by exists n. Qed.

Lemma bumps_trans G1 G2 G3 : bumps G1 G2 → bumps G2 G3 → bumps G1 G3.
Proof.
  intros (Hk1 & Hd1 & Hr1 & Hz1) (Hk2 & Hd2 & Hr2 & Hz2). split; [by eapply keeps_trans|].
  split_and!; [auto|intros c; by rewrite Hr2|].
  intros l n3 Hl Hz. destruct (Hz2 l n3 Hl Hz) as (n2 & Hl2 & Hzz). by eapply Hz1.
Qed.

Lemma bumps_set_rc G l n : G !! l = Some n → bumps G (<[l := set_rc (S (n_rc n)) n]> G).
Proof.
  intros Hl. split; [by apply keeps_set_rc|]. split_and!.
  - intros l' Hl'. rewrite lookup_insert_ne //. by intros ->; rewrite Hl in Hl'.
  - intros c. by apply (refs_update G l n).
  - intros l' n'. rewrite lookup_insert. case_decide; [by intros [= <-]|]. intros ? ?. by exists n'.
Qed.

(** [l] is a new tree with the value of [t1], its subtrees and [t2]. *)
Record attached G G' (l : loc) (t1 t2 : loc) : Prop := {
  at_fresh : G !! l = None;
  at_node : ∃ n1 n, G !! t1 = Some n1 ∧ G' !! l = Some n ∧ n_value n = n_value n1 ∧
    n_subs n = n_subs n1 ++ [t2] ∧ n_rc n = 0;
  at_keeps : keeps G G';
  at_dom l' : l' ≠ l → G !! l' = None → G' !! l' = None;
  at_refs c : refs G' c ≤ refs G c + 1;
  at_live l' n' : l' ≠ l → G' !! l' = Some n' → n_rc n' = 0 → ∃ n, G !! l' = Some n ∧ n_rc n = 0
}.

Lemma attach_step G G1 E l a t1 t2 n1 n2 :
  let n := BNode (n_value n1) 0 a (n_subs n1 ++ [t2]) in
  wf G E → G !! t1 = Some n1 → G !! t2 = Some n2 →
  length (n_subs n2) = length (n_subs n1) → le (n_value n1) (n_value n2) →
  G !! l = None → bumps G G1 → wf G1 ((n_subs n1 ++ [t2]) ++ E) →
  wf (<[l := n]> G1) E ∧ attached G (<[l := n]> G1) l t1 t2.
Proof.
  intros n HG H1 H2 Hord Hle Hl (Hk & Hd & Hr & Hz) HG1.
  assert (wf (<[l := n]> G1) E) as HG2.
  { apply wf_absorb; [done|by apply Hd|done|]. intros i c. rewrite /= lookup_app_Some.
    intros [Hi|[Hi Hc]].
    - destruct (wf_sub _ _ HG _ _ _ _ H1 Hi) as (nc & Hc & Hlen & Hlec).
      destruct (Hk c nc Hc) as (nc' & Hc' & Hv & _ & Hs). exists nc'. rewrite -Hs -Hv. done.
    - apply list_lookup_singleton_Some in Hc as [Hz0 <-].
      destruct (Hk t2 n2 H2) as (n2' & H2' & Hv & _ & Hs). exists n2'. rewrite -Hs -Hv.
      split_and!; [done|lia|done]. }
  split; [done|]. split.
  - done.
  - exists n1, n. by rewrite lookup_insert_eq.
  - eapply keeps_trans; [exact Hk|]. by apply keeps_insert, Hd.
  - intros l' Hne Hl'. rewrite lookup_insert_ne; [by apply Hd|by apply not_eq_sym].
  - intros c. rewrite refs_insert; [|by apply Hd]. rewrite Hr.
    pose proof (occ_NoDup c _ (subs_NoDup _ _ l n HG2 ltac:(by rewrite lookup_insert_eq))). lia.
  - intros l' n' Hne. rewrite lookup_insert_ne; [|by apply not_eq_sym]. apply Hz.
Qed.

(** *** The values below a node *)
Lemma order_ind G E (P : loc → bnode → Prop) :
  wf G E →
  (∀ l n, G !! l = Some n → (∀ c nc, c ∈ n_subs n → G !! c = Some nc → P c nc) → P l n) →
  ∀ l n, G !! l = Some n → P l n.
Proof.
  intros HG HP. assert (∀ k l n, length (n_subs n) < k → G !! l = Some n → P l n) as Hk.
  { induction k as [|k IH]; intros l n Hlen Hl; [lia|]. apply HP; [done|]. intros c nc Hin Hc.
    destruct (wf_sub_elem _ _ _ _ _ HG Hl Hin) as (nc' & Hc' & Hlt & _).
    apply IH; [|done]. rewrite Hc in Hc'. injection Hc' as <-. lia. }
  intros l n. apply (Hk (S (length (n_subs n)))). lia.
Qed.

Fixpoint nodes_up (k : nat) G (l : loc) : list (loc * value) :=
  match k with
  | O => []
  | S k =>
      match G !! l with
      | None => []
      | Some n => (l, n_value n) :: (n_subs n ≫= nodes_up k G)
      end
  end.

Definition tree_nodes G (l : loc) : list (loc * value) := nodes_up (S (length (subs_of G l))) G l.

Lemma bind_ext_elem {A B} (f g : A → list B) ls : (∀ x, x ∈ ls → f x = g x) → ls ≫= f = ls ≫= g.
Proof.
  induction ls as [|x ls IH]; intros Hfg; [done|]. rewrite !bind_cons Hfg; [|by left].
  rewrite IH //. intros y Hy. apply Hfg. by right.
Qed.

Lemma fmap_of_bind {A B C} (f : A → list B) (g : B → C) ls : g <$> (ls ≫= f) = ls ≫= λ x, g <$> f x.
Proof. induction ls as [|x ls IH]; [done|]. by rewrite !bind_cons fmap_app IH. Qed.

Lemma nodes_up_enough G E k l n :
  wf G E → G !! l = Some n → length (n_subs n) < k → nodes_up k G l = tree_nodes G l.
Proof.
  intros HG Hl. revert k. revert l n Hl.
  apply (order_ind G E (λ l n, ∀ k, length (n_subs n) < k → nodes_up k G l = tree_nodes G l) HG).
  intros l n Hl IH [|k] Hk; [lia|]. rewrite /tree_nodes /= Hl /subs_of Hl. f_equal.
  apply bind_ext_elem. intros c Hc. destruct (wf_sub_elem _ _ _ _ _ HG Hl Hc) as (nc & Hnc & Hlt & _).
  rewrite (IH c nc Hc Hnc k); [|lia]. by rewrite (IH c nc Hc Hnc (length (n_subs n))).
Qed.

Lemma tree_nodes_unfold G E l n :
  wf G E → G !! l = Some n → tree_nodes G l = (l, n_value n) :: (n_subs n ≫= tree_nodes G).
Proof.
  intros HG Hl. rewrite /tree_nodes /= Hl /subs_of Hl. f_equal.
  apply bind_ext_elem. intros c Hc. destruct (wf_sub_elem _ _ _ _ _ HG Hl Hc) as (nc & Hnc & Hlt & _).
  by apply (nodes_up_enough G E _ c nc).
Qed.

(** Nodes that stay have the same values below them. *)
Lemma tree_nodes_agree G E G' E' l n n' :
  wf G E → wf G' E' →
  (∀ l n n', G !! l = Some n → G' !! l = Some n' → same n n') →
  G !! l = Some n → G' !! l = Some n' → tree_nodes G' l = tree_nodes G l.
Proof.
  intros HG HG' Hs Hl. revert n'. revert l n Hl.
  apply (order_ind G E (λ l n, ∀ n', G' !! l = Some n' → tree_nodes G' l = tree_nodes G l) HG).
  intros l n Hl IH n' Hl'.
  rewrite (tree_nodes_unfold G E l n) // (tree_nodes_unfold G' E' l n') //.
  destruct (Hs l n n' Hl Hl') as (-> & _ & Hsubs). f_equal. rewrite -Hsubs.
  apply bind_ext_elem. intros c Hc. destruct (wf_sub_elem _ _ _ _ _ HG Hl Hc) as (nc & Hnc & _).
  rewrite Hsubs in Hc. destruct (wf_sub_elem _ _ _ _ _ HG' Hl' Hc) as (nc' & Hnc' & _).
  rewrite -Hsubs in Hc. by eapply IH.
Qed.

Lemma tree_nodes_fst G E l n :
  wf G E → G !! l = Some n → (tree_nodes G l).*1 ≡ₚ l :: ((tree_nodes G l).*1 ≫= subs_of G).
Proof.
  intros HG. revert l n.
  apply (order_ind G E (λ l n, (tree_nodes G l).*1 ≡ₚ l :: ((tree_nodes G l).*1 ≫= subs_of G)) HG).
  intros l n Hl IH. rewrite (tree_nodes_unfold G E l n) // fmap_cons bind_cons /=.
  apply perm_skip. assert (subs_of G l = n_subs n) as -> by by rewrite /subs_of Hl.
  assert (∀ cs, (∀ c, c ∈ cs → c ∈ n_subs n) →
    (cs ≫= tree_nodes G).*1 ≡ₚ cs ++ ((cs ≫= tree_nodes G).*1 ≫= subs_of G)) as Hcs; [|by apply Hcs].
  induction cs as [|c cs IHc]; intros Hin; [done|].
  rewrite bind_cons fmap_app bind_app /=.
  destruct (wf_sub_elem G E l n c HG Hl) as (nc & Hnc & _); [apply Hin; by left|].
  rewrite {1}(IH c nc) //; [|apply Hin; by left].
  rewrite {1}IHc; [|intros c' ?; apply Hin; by right].
  simpl. apply perm_skip. rewrite !assoc_L. apply Permutation_app_tail. by rewrite Permutation_app_comm.
Qed.

Lemma tree_nodes_alive G E l n x :
  wf G E → G !! l = Some n → x ∈ (tree_nodes G l).*1 → is_Some (G !! x).
Proof.
  intros HG. revert l n.
  apply (order_ind G E (λ l n, x ∈ (tree_nodes G l).*1 → is_Some (G !! x)) HG).
  intros l n Hl IH. rewrite (tree_nodes_unfold G E l n) // fmap_cons elem_of_cons.
  intros [->|Hx]; [by eexists|]. rewrite fmap_of_bind in Hx. apply list_elem_of_bind in Hx as (c & Hx & Hc).
  destruct (wf_sub_elem _ _ _ _ _ HG Hl Hc) as (nc & Hnc & _). by eapply IH.
Qed.

Lemma tree_nodes_order G E l n x :
  wf G E → G !! l = Some n → x ∈ (tree_nodes G l).*2 → le (n_value n) x.
Proof.
  intros HG. revert l n.
  apply (order_ind G E (λ l n, x ∈ (tree_nodes G l).*2 → le (n_value n) x) HG).
  intros l n Hl IH. rewrite (tree_nodes_unfold G E l n) // fmap_cons elem_of_cons.
  intros [->|Hx]; [done|]. rewrite fmap_of_bind in Hx. apply list_elem_of_bind in Hx as (c & Hx & Hc).
  destruct (wf_sub_elem _ _ _ _ _ HG Hl Hc) as (nc & Hnc & _ & Hle). trans (n_value nc); [done|].
  by eapply IH.
Qed.

(** A tree of order [k] has [2^k] values. *)
Lemma tree_nodes_length G E l n :
  wf G E → G !! l = Some n → length (tree_nodes G l) = 2 ^ length (n_subs n).
Proof.
  intros HG. revert l n.
  apply (order_ind G E (λ l n, length (tree_nodes G l) = 2 ^ length (n_subs n)) HG).
  intros l n Hl IH. rewrite (tree_nodes_unfold G E l n) //=.
  assert (∀ k, k ≤ length (n_subs n) → S (length (take k (n_subs n) ≫= tree_nodes G)) = 2 ^ k) as Hk.
  { induction k as [|k IHk]; intros Hk; [done|].
    destruct (lookup_lt_is_Some_2 (n_subs n) k) as [c Hc]; [lia|].
    rewrite (take_S_r _ _ c) // bind_app length_app /= right_id_L.
    destruct (wf_sub _ _ HG _ _ _ _ Hl Hc) as (nc & Hnc & Hlen & _).
    rewrite (IH c nc) ?Hlen //; [|by eapply list_elem_of_lookup_2]. specialize (IHk ltac:(lia)). lia. }
  specialize (Hk (length (n_subs n)) ltac:(done)). by rewrite firstn_all in Hk.
Qed.

(** *** Forests *)

Definition forest G (ls : list loc) : list (loc * value) := ls ≫= tree_nodes G.

Definition alive G (ls : list loc) : Prop := ∀ l, l ∈ ls → is_Some (G !! l).

#[global] Instance forest_perm G : Proper ((≡ₚ) ==> (≡ₚ)) (forest G).
Proof. intros ls ls' Hp. rewrite /forest. by rewrite Hp. Qed.

Lemma forest_app G ls ls' : forest G (ls ++ ls') = forest G ls ++ forest G ls'.
Proof. apply bind_app. Qed.

Lemma forest_cons G l ls : forest G (l :: ls) = tree_nodes G l ++ forest G ls.
Proof. apply bind_cons. Qed.

Lemma forest_fst G E ls :
  wf G E → alive G ls → (forest G ls).*1 ≡ₚ ls ++ ((forest G ls).*1 ≫= subs_of G).
Proof.
  intros HG. induction ls as [|l ls IH]; intros Hls; [done|].
  rewrite forest_cons fmap_app bind_app /=. destruct (Hls l) as [n Hl]; [by left|].
  rewrite {1}(tree_nodes_fst G E l n) // {1}IH; [|intros x ?; apply Hls; by right].
  simpl. apply perm_skip. rewrite !assoc_L. apply Permutation_app_tail. by rewrite Permutation_app_comm.
Qed.

Lemma forest_alive G E ls x : wf G E → alive G ls → x ∈ (forest G ls).*1 → is_Some (G !! x).
Proof.
  intros HG Hls. rewrite /forest fmap_of_bind. intros (l & Hx & Hl)%list_elem_of_bind.
  destruct (Hls l Hl) as [n Hn]. by eapply tree_nodes_alive.
Qed.

Lemma forest_agree G E G' E' ls :
  wf G E → wf G' E' → (∀ l n n', G !! l = Some n → G' !! l = Some n' → same n n') →
  alive G ls → alive G' ls → forest G' ls = forest G ls.
Proof.
  intros HG HG' Hs Hls Hls'. apply bind_ext_elem. intros l Hl.
  destruct (Hls l Hl) as [n Hn]. destruct (Hls' l Hl) as [n' Hn']. by eapply tree_nodes_agree.
Qed.

Lemma orders_bounded G : ∃ b, ∀ l n, G !! l = Some n → length (n_subs n) < b.
Proof.
  induction G as [|l n G Hl [b Hb]] using map_ind.
  - exists 0. intros l n. by rewrite lookup_empty.
  - exists (b `max` S (length (n_subs n))). intros l' n'. rewrite lookup_insert. case_decide.
    + intros [= <-]. lia.
    + intros ?%Hb. lia.
Qed.

(** Every tree is below an external reference. *)
Lemma forest_reach G E l :
  wf G E → live G None → is_Some (G !! l) → l ∈ (forest G E).*1.
Proof.
  intros HG Hlive. destruct (orders_bounded G) as [b Hb].
  assert (∀ k l n, G !! l = Some n → b ≤ k + length (n_subs n) → l ∈ (forest G E).*1) as Hk.
  { induction k as [|k IH]; intros l' n Hl Hord; [specialize (Hb _ _ Hl); lia|].
    rewrite (forest_fst G E E) //; [|exact (wf_ext _ _ HG)].
    apply elem_of_app. destruct (decide (l' ∈ E)) as [|HE]; [by left|]. right.
    rewrite occ_elem in HE. destruct (decide (n_rc n = 0)) as [Hz|]; [by specialize (Hlive _ _ Hl Hz)|].
    pose proof (wf_rc _ _ HG _ _ Hl). destruct (refs_parent G l') as (p & np & Hp & Hin); [lia|].
    apply list_elem_of_bind. exists p. split; [by rewrite /subs_of Hp|].
    apply (IH p np); [done|]. destruct (wf_sub_elem _ _ _ _ _ HG Hp Hin) as (n' & Hl' & Hlt & _).
    rewrite Hl in Hl'. injection Hl' as <-. lia. }
  intros [n Hl]. eapply (Hk b); [done|lia].
Qed.

(** In a forest without sharing every tree has one parent at most. *)
Lemma refs_one G E c :
  wf G E → live G None → NoDup (forest G E).*1 → refs G c ≤ 1.
Proof.
  intros HG Hlive Hnd. rewrite refs_subs_of.
  assert ((map_to_list G).*1 ⊆+ (forest G E).*1) as Hsub.
  { apply NoDup_submseteq; [apply NoDup_fst_map_to_list|]. intros l Hl.
    apply list_elem_of_fmap in Hl as ([l' n] & -> & Hin). apply elem_of_map_to_list in Hin.
    apply forest_reach; [done|done|by eexists]. }
  trans (occ c ((forest G E).*1 ≫= subs_of G)).
  { apply occ_submseteq. apply submseteq_Permutation in Hsub as [k ->]. rewrite bind_app.
    by apply submseteq_inserts_r. }
  trans (occ c (forest G E).*1); [|by apply occ_NoDup].
  rewrite {2}(forest_fst G E E) //; [|exact (wf_ext _ _ HG)]. rewrite occ_app. lia.
Qed.

(** *** Several steps *)

(** Nodes that are there before and after are the same up to the counter. *)
Definition evolves G G' : Prop := ∀ l n n', G !! l = Some n → G' !! l = Some n' → same n n'.

Lemma evolves_steps G1 G2 G3 G4 :
  keeps G1 G2 → shrinks G2 G3 → bumps G3 G4 → evolves G1 G4.
Proof.
  intros Hk [Hs _] (Hk' & Hd & _) l n n' Hl Hl'.
  destruct (Hk l n Hl) as (n2 & Hl2 & Hn2).
  destruct (G3 !! l) as [n3|] eqn:Hl3; [|by rewrite Hd in Hl'].
  destruct (Hs l n3 Hl3) as (n2' & Hl2' & Hn3 & _). destruct (Hk' l n3 Hl3) as (n4 & Hl4 & Hn4).
  simplify_eq. trans n2; [done|]. by trans n3.
Qed.

(** The new tree has the values of the two trees it was made of. *)
Lemma attached_nodes G E G' E' l a b :
  wf G E → wf G' E' → attached G G' l a b → is_Some (G !! b) →
  ∃ v ns, forest G [a; b] = (a, v) :: ns ∧ tree_nodes G' l = (l, v) :: ns.
Proof.
  intros HG HG' [Hfresh (n1 & n & H1 & Hn & Hv & Hs & _) Hk _ _ _] Hb.
  assert (alive G (n_subs n1 ++ [b])) as Halive.
  { intros c [Hc|Hc%list_elem_of_singleton]%elem_of_app; [|by subst].
    destruct (wf_sub_elem _ _ _ _ _ HG H1 Hc) as (nc & ? & _). by exists nc. }
  exists (n_value n1), (forest G (n_subs n1 ++ [b])). split.
  - by rewrite forest_cons (tree_nodes_unfold G E a n1) // forest_app.
  - rewrite (tree_nodes_unfold G' E' l n) // Hs Hv. f_equal. eapply forest_agree; [done|done| |done|].
    + intros x nx nx' Hx Hx'. destruct (Hk x nx Hx) as (nx2 & Hx2 & ?). by simplify_eq.
    + intros x Hx. destruct (Halive x Hx) as [nx Hnx]. destruct (Hk x nx Hnx) as (nx' & ? & _). by exists nx'.
Qed.

(** The trees [a] and [b] of a forest give way to the tree made of them. *)
Lemma attached_forest G E G' E' l a b ls xs :
  wf G E → wf G' E' → attached G G' l a b → evolves G G' →
  alive G (a :: b :: ls) → alive G' ls →
  NoDup (forest G (a :: b :: ls)).*1 → (forest G (a :: b :: ls)).*2 ≡ₚ xs →
  NoDup (forest G' (l :: ls)).*1 ∧ (forest G' (l :: ls)).*2 ≡ₚ xs.
Proof.
  intros HG HG' Hat Hev Hal Hal'.
  assert (is_Some (G !! b)) as Hb by (apply Hal; right; by left).
  destruct (attached_nodes _ _ _ _ _ _ _ HG HG' Hat Hb) as (v & ns & H1 & H2).
  assert (forest G (a :: b :: ls) = (a, v) :: ns ++ forest G ls) as ->.
  { change (a :: b :: ls) with ([a; b] ++ ls). by rewrite forest_app H1. }
  assert (alive G ls) as Hals by (intros x Hx; apply Hal; right; by right).
  rewrite forest_cons H2 (forest_agree G E G' E' ls) //.
  assert (l ∉ (ns ++ forest G ls).*1) as Hl.
  { rewrite fmap_app elem_of_app. intros Hin.
    assert (is_Some (G !! l)) as [? Hx]; [|by rewrite (at_fresh _ _ _ _ _ Hat) in Hx].
    destruct Hin as [Hin|Hin]; [|by eapply forest_alive].
    eapply (forest_alive G E [a; b]); [done| |rewrite H1 fmap_cons; by right].
    intros x [->|[->|[]%elem_of_nil]%elem_of_cons]%elem_of_cons; [apply Hal; by left|done]. }
  rewrite -app_comm_cons !fmap_cons /= !NoDup_cons. intros [_ Hnd] Hxs. done.
Qed.
End graph.
