(* ===== verification/BinomialRefs.v ===== *)
(** * BinomialRefs: references to the trees in memory

    [own_graph G] owns the nodes of a graph and their arrays of subtrees.  Taking a
    reference, dropping one (with everything that goes with it) and merging two
    trees are shown to be the steps of BinomialGraph. *)
From stdpp Require Import base gmap list numbers.
From iris.proofmode Require Import proofmode.
From S2P Require Import Prelude Memory Compare BinomialHeap BinomialGraph.

(** ** Ownership *)

Definition tree_of (n : bnode) : BinomialTree :=
  BTree (n_value n) (Z.of_nat (length (n_subs n))) (Z.of_nat (n_rc n)) (n_arr n).

(** An array that starts with the pointers [rs]. *)
Definition own_array (p : ptr) (rs : list ptr) (rest : array ptr) : hProp bcell :=
  match p with
  | Some a => a ↦ Roots ((Some <$> rs) ++ rest)
  | NULL => ⌈ rs = [] ⌉
  end.

Definition own_node (l : loc) (n : bnode) : hProp bcell :=
  l ↦ Tree (tree_of n) ∗ own_array (n_arr n) (Some <$> n_subs n) [].

Definition own_graph (G : graph) : hProp bcell := [∗ map] l ↦ n ∈ G, own_node l n.

Lemma wp_deref_tree l t (Φ : BinomialTree → hProp bcell) :
  l ↦ Tree t -∗ (l ↦ Tree t -∗ Φ t) -∗ wp (deref_tree (Some l)) Φ.
Proof.
  iIntros "Hl HΦ". rewrite /deref_tree. wp_load. iApply wp_ret. by iApply "HΦ".
Qed.

Lemma wp_modify_tree l t f (Φ : unit → hProp bcell) :
  l ↦ Tree t -∗ (l ↦ Tree (f t) -∗ Φ tt) -∗ wp (modify_tree (Some l) f) Φ.
Proof.
  iIntros "Hl HΦ". rewrite /modify_tree. wp_bind. iApply (wp_deref_tree with "Hl"). iIntros "Hl".
  by iApply (wp_assign with "Hl").
Qed.

Lemma wp_read_array p rs rest i x (Φ : ptr → hProp bcell) :
  rs !! i = Some x →
  own_array p rs rest -∗ (own_array p rs rest -∗ Φ x) -∗ wp (read_root (ArrayAt p) (Z.of_nat i)) Φ.
Proof.
  iIntros (Hi) "Ha HΦ". destruct p as [a|]; simpl; last first.
  { iDestruct "Ha" as %->. done. }
  rewrite /deref_roots. wp_load. wp_pures.
  iApply (wp_aget _ _ (Some x)); [lia| |iApply wp_ret; by iApply "HΦ"].
  rewrite Nat2Z.id lookup_app_l ?length_fmap; [by rewrite list_lookup_fmap Hi|by eapply lookup_lt_Some].
Qed.

Lemma wp_free_array p rs rest (Φ : unit → hProp bcell) :
  own_array p rs rest -∗ Φ tt -∗ wp (free p) Φ.
Proof.
  iIntros "Ha HΦ". destruct p as [a|]; simpl; [by iApply (wp_free with "Ha")|].
  iDestruct "Ha" as "_". change (free NULL) with (mret tt : M bcell unit). by iApply wp_ret.
Qed.

Lemma wp_write_array a cells i x (Φ : unit → hProp bcell) :
  i < length cells →
  a ↦ Roots cells -∗ (a ↦ Roots (<[i := Some x]> cells) -∗ Φ tt) -∗
  wp (write_root (Some a) (Z.of_nat i) x) Φ.
Proof.
  iIntros (Hi) "Ha HΦ". rewrite /write_root /deref_roots. wp_load. wp_pures.
  iApply wp_aset; [lia|]. rewrite Nat2Z.id. by iApply (wp_assign with "Ha").
Qed.

Lemma wp_copy_roots p rs dst cells (Φ : unit → hProp bcell) :
  length rs ≤ length cells →
  own_array p rs [] -∗ dst ↦ Roots cells -∗
  (own_array p rs [] -∗ dst ↦ Roots ((Some <$> rs) ++ drop (length rs) cells) -∗ Φ tt) -∗
  wp (copy_roots (Some dst) p (Z.of_nat (length rs))) Φ.
Proof.
  iIntros (Hlen) "Ha Hd HΦ". rewrite /copy_roots. destruct rs as [|x rs].
  { rewrite bool_decide_eq_true_2 //. iApply wp_ret. by iApply ("HΦ" with "Ha"). }
  rewrite bool_decide_eq_false_2 //. destruct p as [a|]; simpl; [|by iDestruct "Ha" as %?].
  rewrite /deref_roots right_id_L. wp_load. wp_pures. wp_load. wp_pures.
  rewrite bool_decide_eq_true_2; [|rewrite /= length_fmap; simpl in Hlen; lia].
  rewrite Nat2Z.id firstn_all2; [|apply le_n_S, Nat.eq_le_incl, length_fmap].
  iApply (wp_assign with "Hd"). iIntros "Hd". by iApply ("HΦ" with "Ha").
Qed.

Section allocation.
Context `{Allocator bcell}.

Lemma wp_malloc_tree (Φ : ptr → hProp bcell) :
  (∀ p, match p with NULL => ⌈ can_fail ⌉ | Some l => ∃ t, l ↦ Tree t end -∗ Φ p) -∗ wp malloc_tree Φ.
Proof.
  iIntros "HΦ". rewrite /malloc_tree. wp_malloc l as "Hl"; [|iApply wp_ret; by iApply "HΦ"].
  wp_load. wp_store. iApply wp_ret. iApply "HΦ". by iExists _.
Qed.

Lemma wp_malloc_roots n (Φ : ptr → hProp bcell) :
  (∀ p, match p with NULL => ⌈ can_fail ⌉ | Some a => a ↦ Roots (replicate (Z.to_nat n) None) end -∗ Φ p) -∗
  wp (malloc_roots n) Φ.
Proof.
  iIntros "HΦ". rewrite /malloc_roots. wp_malloc l as "Hl"; [|iApply wp_ret; by iApply "HΦ"].
  wp_store. iApply wp_ret. by iApply "HΦ".
Qed.
End allocation.

Section graphs.
Context (le : value → value → Prop) `{!PreOrder le}.
Implicit Types (G : graph) (E : list loc) (n : bnode).

Lemma graph_take G l n :
  G !! l = Some n → own_graph G ⊢ own_node l n ∗ own_graph (delete l G).
Proof. intros Hl. by rewrite /own_graph big_sepM_delete. Qed.

Lemma graph_put G l n : G !! l = None → own_node l n -∗ own_graph G -∗ own_graph (<[l := n]> G).
Proof. iIntros (Hl) "Hn HG". rewrite /own_graph big_sepM_insert //. iFrame. Qed.

Lemma wp_graph_deref G l n Φ :
  G !! l = Some n → own_graph G -∗ (own_graph G -∗ Φ (tree_of n)) -∗ wp (deref_tree (Some l)) Φ.
Proof.
  iIntros (Hl) "HG HΦ". iDestruct (big_sepM_lookup_acc with "HG") as "[[Hl Ha] HG]"; [done|].
  iApply (wp_deref_tree with "Hl"). iIntros "Hl". iApply "HΦ". iApply "HG". iFrame.
Qed.

Lemma wp_graph_set_rc G l n rc f Φ :
  G !! l = Some n → f (tree_of n) = tree_of (set_rc rc n) →
  own_graph G -∗ (own_graph (<[l := set_rc rc n]> G) -∗ Φ tt) -∗ wp (modify_tree (Some l) f) Φ.
Proof.
  iIntros (Hl Hf) "HG HΦ". iDestruct (big_sepM_insert_acc with "HG") as "[[Hl Ha] HG]"; [done|].
  iApply (wp_modify_tree with "Hl"). iIntros "Hl". rewrite Hf. iApply "HΦ".
  iApply ("HG" $! (set_rc rc n)). iFrame.
Qed.

Lemma graph_fresh G l c : l ↦ c -∗ own_graph G -∗ ⌜G !! l = None⌝.
Proof.
  iIntros "Hl HG". destruct (G !! l) as [n|] eqn:Hn; [|done].
  iDestruct (big_sepM_lookup_acc with "HG") as "[[Hl' _] _]"; [done|].
  by iDestruct (pointsto_ne with "Hl Hl'") as %?.
Qed.

(** *** [binomial_tree_ref] *)
Lemma ref_spec G l n E Φ :
  wf le G E → G !! l = Some n → (Z.of_nat (n_rc n) + 1 < 65536)%Z →
  own_graph G -∗ (own_graph (<[l := set_rc (S (n_rc n)) n]> G) -∗ Φ tt) -∗
  wp (binomial_tree_ref (Some l)) Φ.
Proof.
  iIntros (HG Hl Hrc) "HG HΦ". iApply (wp_graph_set_rc with "HG"); [done| |done].
  rewrite /put_refcount /tree_of /=. f_equal. rewrite /u16 Z.mod_small; lia.
Qed.

(** *** [binomial_tree_unref] *)

Definition small G : Prop := ∀ l n, G !! l = Some n → (Z.of_nat (n_rc n) < 65536)%Z.

Lemma shrinks_small G G' : shrinks G G' → small G → small G'.
Proof. intros [Hs _] HG l n' Hl. destruct (Hs l n' Hl) as (n & Hn & _ & Hle & _). apply HG in Hn. lia. Qed.

(** What a call with this bound on the depth does. *)
Definition unref_ok (fuel : nat) : Prop := ∀ G l n E,
  wf le G (l :: E) → small G → G !! l = Some n → length (n_subs n) < fuel →
  {{ own_graph G }} binomial_tree_unref fuel (Some l)
  {{ _, ∃ G', ⌈ wf le G' E ⌉ ∗ ⌈ shrinks G G' ⌉ ∗ own_graph G' }}.

Definition ptrs (rs : list ptr) : list loc := omap id rs.

Lemma ptrs_Some ls : ptrs (Some <$> ls) = ls.
Proof. rewrite /ptrs. induction ls as [|c cs IH]; [done|]. simpl. f_equal. exact IH. Qed.

(** The loops that drop a reference to every tree of an array; [R] is what the
    loop reads the array from. *)
Lemma unref_loop fuel (R : hProp bcell) body rs k G E :
  unref_ok fuel → (rs ≠ [] → 0 < fuel) →
  (∀ i x Φ, k ≤ i → rs !! (i - k) = Some x →
    R -∗ (R -∗ wp (binomial_tree_unref fuel x) Φ) -∗ wp (body (Z.of_nat i) tt) Φ) →
  wf le G (ptrs rs ++ E) → small G →
  (∀ l n, l ∈ ptrs rs → G !! l = Some n → length (n_subs n) < fuel) →
  {{ R ∗ own_graph G }} for_loop (length rs) (Z.of_nat k) body tt
  {{ _, R ∗ ∃ G', ⌈ wf le G' E ⌉ ∗ ⌈ shrinks G G' ⌉ ∗ own_graph G' }}.
Proof.
  intros Hun Hpos. revert k G. induction rs as [|x rs IH]; intros k G Hbody HG Hs Hord;
    apply triple_wp; iIntros "[HR HG]"; simpl.
  { iApply wp_ret. iFrame "HR". iExists G. iFrame. iPureIntro. split; [done|apply shrinks_refl]. }
  iApply wp_bind. iApply (Hbody k x with "HR"); [done|by rewrite Nat.sub_diag|]. iIntros "HR".
  assert (∀ i x Φ, S k ≤ i → rs !! (i - S k) = Some x →
    R -∗ (R -∗ wp (binomial_tree_unref fuel x) Φ) -∗ wp (body (Z.of_nat i) tt) Φ) as Hbody'.
  { intros i y Φ Hi Hy. apply Hbody; [lia|]. by replace (i - k) with (S (i - S k)) by lia. }
  assert (rs ≠ [] → 0 < fuel) as Hpos' by (intros _; by apply Hpos).
  replace (Z.of_nat k + 1)%Z with (Z.of_nat (S k)) by lia. destruct x as [l|].
  - destruct (wf_ext _ _ _ HG l) as [n Hl]; [by left|].
    iApply (triple_use with "HG"); [apply (Hun G l n (ptrs rs ++ E)); [exact HG|done|done|]|].
    { apply (Hord l); [by left|done]. }
    iIntros ([]) "(%G1 & %HG1 & %Hs1 & HG)".
    iApply (triple_use with "[HR HG]"); [apply (IH Hpos' (S k) G1); [done|done|by eapply shrinks_small|]|by iFrame|].
    { intros l' n' Hin Hl'. destruct Hs1 as [Hs1 _]. destruct (Hs1 l' n' Hl') as (n0 & Hn0 & (_ & _ & <-) & _).
      apply (Hord l'); [by right|done]. }
    iIntros (_) "[$ (%G2 & %HG2 & %Hs2 & HG)]". iExists G2. iFrame. iPureIntro.
    split; [done|by eapply shrinks_trans].
  - assert (binomial_tree_unref fuel NULL = mret tt) as ->.
    { specialize (Hpos ltac:(done)). destruct fuel; [lia|done]. }
    iApply wp_ret.
    iApply (triple_use with "[HR HG]"); [by apply (IH Hpos' (S k) G)|by iFrame|by iIntros (_) "$"].
Qed.

Lemma unref_all fuel : unref_ok fuel.
Proof.
  induction fuel as [|fuel IH]; intros G l n E HG Hs Hl Hord; [lia|].
  apply triple_wp. iIntros "HG". simpl.
  pose proof (wf_rc _ _ _ HG _ _ Hl) as Hrc. rewrite occ_cons decide_True // in Hrc.
  destruct (n_rc n) as [|rc] eqn:Hn; [lia|]. wp_bind.
  iApply (wp_graph_set_rc _ l n rc with "HG"); [done| |].
  { rewrite /put_refcount /tree_of /= Hn. f_equal. pose proof (Hs l n Hl). rewrite /u16 Z.mod_small; lia. }
  iIntros "HG". wp_bind.
  iApply (wp_graph_deref _ l (set_rc rc n) with "HG"); [by rewrite lookup_insert_eq|]. iIntros "HG".
  destruct rc as [|rc].
  - rewrite bool_decide_eq_true_2 //.
    iDestruct (graph_take _ l with "HG") as "[[Hl Ha] HG]"; [by rewrite lookup_insert_eq|].
    rewrite delete_insert_eq. wp_bind.
    simpl. rewrite Nat2Z.id -{1}(length_fmap Some (n_subs n)).
    iApply (triple_use with "[Hl Ha HG]").
    { apply (unref_loop fuel (own_node l (set_rc 0 n)) _ (Some <$> n_subs n) 0 (delete l G) E); [done| | | | |].
      - intros Hne. destruct (n_subs n); [done|]. simpl in Hord. lia.
      - intros i x Φ _ Hx. rewrite Nat.sub_0_r in Hx. iIntros "[Hl Ha] HΦ". iApply wp_bind.
        iApply (wp_deref_tree with "Hl"). iIntros "Hl". iApply wp_bind.
        iApply (wp_read_array with "Ha"); [done|]. iIntros "Ha". iApply "HΦ". iFrame.
      - rewrite ptrs_Some. by apply wf_release.
      - eapply shrinks_small; [eapply shrinks_release; [done|by rewrite Hn]|done].
      - intros c nc. rewrite ptrs_Some. intros Hc [_ Hnc]%lookup_delete_Some.
        destruct (wf_sub_elem _ _ _ _ _ _ HG Hl Hc) as (nc' & Hnc' & Hlt & _).
        rewrite Hnc in Hnc'. injection Hnc' as <-. lia. }
    { iFrame. }
    iIntros (_) "[[Hl Ha] (%G' & %HG' & %Hs' & HG)]". wp_bind.
    iApply (wp_deref_tree with "Hl"). iIntros "Hl". simpl. iApply wp_bind.
    iApply (wp_free_array with "Ha"). iApply (wp_free with "Hl"). iExists G'. iFrame. iPureIntro.
    split; [done|]. eapply shrinks_trans; [eapply shrinks_release; [done|by rewrite Hn]|done].
  - rewrite bool_decide_eq_false_2 //. iApply wp_ret. iExists _. iFrame. iPureIntro.
    split; [by apply wf_unref|by eapply shrinks_unref; [| |lia]].
Qed.

(** The loop that takes a reference to every subtree of a new tree. *)
Lemma ref_loop (R : hProp bcell) body cs k K G E :
  (∀ i c Φ, k ≤ i → cs !! (i - k) = Some c →
    R -∗ (R -∗ wp (binomial_tree_ref (Some c)) Φ) -∗ wp (body (Z.of_nat i) tt) Φ) →
  wf le G E → alive G cs → (∀ c, refs G c ≤ K) →
  (Z.of_nat (K + length E + length cs) < 65536)%Z →
  {{ R ∗ own_graph G }} for_loop (length cs) (Z.of_nat k) body tt
  {{ _, R ∗ ∃ G', ⌈ wf le G' (cs ++ E) ⌉ ∗ ⌈ bumps G G' ⌉ ∗ own_graph G' }}.
Proof.
  revert k G E. induction cs as [|c cs IH]; intros k G E Hbody HG Hcs HK Hbound;
    apply triple_wp; iIntros "[HR HG]"; simpl.
  { iApply wp_ret. iFrame "HR". iExists G. iFrame. iPureIntro. split; [done|apply bumps_refl]. }
  iApply wp_bind. iApply (Hbody k c with "HR"); [done|by rewrite Nat.sub_diag|]. iIntros "HR".
  destruct (Hcs c) as [n Hc]; [by left|]. pose proof (wf_rc _ _ _ HG _ _ Hc) as Hrc.
  pose proof (HK c). pose proof (occ_length c E). simpl in Hbound.
  iApply (ref_spec with "HG"); [done|done|lia|]. iIntros "HG".
  replace (Z.of_nat k + 1)%Z with (Z.of_nat (S k)) by lia.
  set (G1 := <[c := _]> G).
  assert (bumps G G1) as Hb by by apply bumps_set_rc.
  iApply (triple_use with "[HR HG]"); [apply (IH (S k) G1 (c :: E))|by iFrame|].
  - intros i y Φ Hi Hy. apply Hbody; [lia|]. by replace (i - k) with (S (i - S k)) by lia.
  - by apply wf_ref.
  - intros y Hy. destruct (Hcs y) as [ny Hny]; [by right|]. destruct Hb as [Hk _].
    destruct (Hk y ny Hny) as (ny' & ? & _). by exists ny'.
  - intros y. destruct Hb as (_ & _ & -> & _). apply HK.
  - simpl. lia.
  - iIntros (_) "[$ (%G2 & %HG2 & %Hb2 & HG)]". iExists G2. iFrame. iPureIntro.
    split; [|by eapply bumps_trans]. eapply wf_Permutation; [|exact HG2]. by rewrite -Permutation_middle.
Qed.

(** *** [binomial_tree_attach] *)
Lemma attach_spec `{Allocator bcell} G E t1 t2 n1 n2 K :
  wf le G E → G !! t1 = Some n1 → G !! t2 = Some n2 →
  length (n_subs n2) = length (n_subs n1) → le (n_value n1) (n_value n2) →
  (∀ c, refs G c ≤ K) → (Z.of_nat (K + length E + length (n_subs n1) + 1) < 65536)%Z →
  {{ own_graph G }} binomial_tree_attach (Some t1) (Some t2)
  {{ r, match r with
        | NULL => ⌈ can_fail ⌉ ∗ own_graph G
        | Some l => ∃ G', ⌈ wf le G' E ⌉ ∗ ⌈ attached G G' l t1 t2 ⌉ ∗ own_graph G'
        end }}.
Proof.
  intros HG H1 H2 Hord Hle HK Hbound. apply triple_wp. iIntros "HG".
  rewrite /binomial_tree_attach. wp_bind. iApply wp_malloc_tree. iIntros ([l|]) "Hl"; last first.
  { wp_pures. by iFrame. }
  iDestruct "Hl" as (t) "Hl". iDestruct (graph_fresh with "Hl HG") as %Hfresh.
  wp_bind. iApply (wp_modify_tree with "Hl"). iIntros "Hl".
  wp_bind. iApply (wp_graph_deref with "HG"); [done|]. iIntros "HG".
  wp_bind. iApply (wp_modify_tree with "Hl"). iIntros "Hl".
  wp_bind. iApply (wp_modify_tree with "Hl"). iIntros "Hl".
  wp_bind. iApply (wp_deref_tree with "Hl"). iIntros "Hl". simpl.
  assert (u16 (Z.of_nat (length (n_subs n1)) + 1) = Z.of_nat (S (length (n_subs n1)))) as ->.
  { rewrite /u16 Z.mod_small; lia. }
  wp_bind. iApply wp_malloc_roots. iIntros ([a|]) "Ha"; last first.
  { wp_bind. iApply (wp_modify_tree with "Hl"). iIntros "Hl". simpl. wp_bind.
    iApply (wp_free with "Hl"). wp_pures. by iFrame. }
  rewrite Nat2Z.id. wp_bind. iApply (wp_modify_tree with "Hl"). iIntros "Hl". simpl.
  wp_bind. iApply (wp_graph_deref with "HG"); [done|]. iIntros "HG". simpl.
  iDestruct (graph_take G t1 n1 with "HG") as "[[Ht1 Harr] HG]"; [done|].
  wp_bind. rewrite -(length_fmap Some (n_subs n1)).
  iApply (wp_copy_roots with "Harr Ha"); [rewrite /= length_replicate; lia|]. iIntros "Harr Ha".
  iAssert (own_graph G) with "[Ht1 Harr HG]" as "HG".
  { rewrite /own_graph (big_sepM_delete _ G t1) //. iFrame. }
  wp_bind. iApply (wp_deref_tree with "Hl"). iIntros "Hl". simpl.
  set (k := length (Some <$> n_subs n1)).
  assert (drop k (None :: replicate k None) = [None : option ptr]) as ->.
  { change (None :: replicate k None) with (replicate (S k) (None : option ptr)).
    rewrite drop_replicate. by replace (S k - k) with 1 by lia. }
  wp_bind. replace (Z.of_nat (S k) - 1)%Z with (Z.of_nat k) by lia.
  iApply (wp_write_array with "Ha"); [rewrite length_app length_fmap /=; lia|]. iIntros "Ha".
  assert (<[k := Some (Some t2)]> ((Some <$> (Some <$> n_subs n1)) ++ [None]) =
    (Some <$> (Some <$> (n_subs n1 ++ [t2]))) ++ []) as ->.
  { rewrite right_id_L !fmap_app /k insert_app_r_alt; [|by rewrite !length_fmap].
    by rewrite !length_fmap Nat.sub_diag. }
  assert (Z.of_nat (S k) = Z.of_nat (length (n_subs n1 ++ [t2]))) as ->.
  { rewrite length_app /k length_fmap /=. lia. }
  wp_bind. rewrite Nat2Z.id.
  iApply (triple_use with "[Hl Ha HG]").
  { apply (ref_loop (l ↦ Tree (BTree (n_value n1) (Z.of_nat (length (n_subs n1 ++ [t2]))) 0 (Some a)) ∗
      own_array (Some a) (Some <$> (n_subs n1 ++ [t2])) []) _ (n_subs n1 ++ [t2]) 0 K G E);
      [|done| |done|rewrite length_app /=; lia].
    - intros i c Φ _ Hc. rewrite Nat.sub_0_r in Hc. iIntros "[Hl Ha] HΦ". iApply wp_bind.
      iApply (wp_deref_tree with "Hl"). iIntros "Hl". iApply wp_bind.
      iApply (wp_read_array with "Ha"); [by rewrite list_lookup_fmap Hc|]. iIntros "Ha".
      iApply "HΦ". iFrame.
    - intros c [Hc|Hc%list_elem_of_singleton]%elem_of_app; [|subst; by eexists].
      destruct (wf_sub_elem _ _ _ _ _ _ HG H1 Hc) as (nc & ? & _). by exists nc. }
  { iFrame. }
  iIntros (_) "[[Hl Ha] (%G1 & %HG1 & %Hb & HG)]". wp_pures.
  destruct (attach_step le G G1 E l (Some a) t1 t2 n1 n2) as [HG2 Hat]; try done.
  iExists _. iSplit; [done|]. iSplit; [done|].
  iApply (graph_put with "[Hl Ha] HG"); [by apply Hb|]. rewrite /own_node. iFrame.
Qed.
End graphs.
