(* ===== verification/BinomialSum.v ===== *)
(** * BinomialSum: the ripple-carry addition of two binomial heaps

    [summing] is the invariant of the loop in binomial_heap_merge: the new roots
    so far, the carry and the old roots that are left form a forest without
    sharing that holds all values, while the trees of the old arrays stay
    untouched; [merge_spec] is the contract of the whole function, which undoes
    everything when an allocation is refused. *)
From stdpp Require Import base gmap list numbers.
From iris.proofmode Require Import proofmode.
From S2P Require Import Prelude Memory Compare BinomialHeap BinomialGraph BinomialRefs.

(** ** Arrays of roots *)

(** The tree at an index of an array, if there is one. *)
Definition head_at (rs : list ptr) (i : nat) : list loc :=
  match rs !! i with Some (Some l) => [l] | _ => [] end.

Lemma ptrs_app rs rs' : ptrs (rs ++ rs') = ptrs rs ++ ptrs rs'.
Proof. apply omap_app. Qed.

Lemma ptrs_drop rs i : ptrs (drop i rs) = head_at rs i ++ ptrs (drop (S i) rs).
Proof.
  rewrite /head_at. destruct (rs !! i) as [x|] eqn:Hx.
  - rewrite (drop_S _ x) //. by destruct x.
  - apply lookup_ge_None in Hx. rewrite !drop_ge; [done|lia..].
Qed.

Lemma head_at_elem rs i l : l ∈ head_at rs i → rs !! i = Some (Some l).
Proof.
  rewrite /head_at. destruct (rs !! i) as [[l'|]|]; [|by intros ?%elem_of_nil..].
  by intros ->%list_elem_of_singleton.
Qed.

Lemma elem_of_ptrs rs l : l ∈ ptrs rs ↔ Some l ∈ rs.
Proof. rewrite /ptrs list_elem_of_omap. split; [|by exists (Some l)].
  intros (x & Hx & Heq). unfold id in Heq. by subst. Qed.

(** The [i]-th tree has order [i]. *)
Definition order_at (G : graph) (rs : list ptr) : Prop :=
  ∀ i l, rs !! i = Some (Some l) → ∃ n, G !! l = Some n ∧ length (n_subs n) = i.

Lemma order_at_alive G rs : order_at G rs → alive G (ptrs rs).
Proof.
  intros Ho l [i Hi]%elem_of_ptrs%list_elem_of_lookup. destruct (Ho i l Hi) as (n & ? & _). by exists n.
Qed.

(** ** The invariant of the loop *)

Section sum.
Context (le : value → value → Prop) `{!PreOrder le}.
(** The roots of the two heaps, the array of the second one, the references of
    the caller, the trees at the start, and the values. *)
Context (rs1 rs2 : list ptr) (other : tree_array) (E0 : list loc) (G0 : graph) (xs : list value).

(** The second heap is a new tree, or the subtrees of a tree the caller holds. *)
Definition other_ok (G : graph) : Prop :=
  match other with
  | AddressOf tree => ∃ l n, tree = Some l ∧ rs2 = [tree] ∧ l ∈ E0 ∧ G !! l = Some n ∧ n_subs n = []
  | ArrayAt p => ∃ t n, t ∈ E0 ∧ G !! t = Some n ∧ n_arr n = p ∧ rs2 = Some <$> n_subs n
  end.

Lemma other_order G E : wf le G E → other_ok G → order_at G rs2.
Proof.
  intros HG. rewrite /other_ok. destruct other as [p|tree].
  - intros (t & n & _ & Ht & _ & ->) i l. rewrite list_lookup_fmap. intros (c & Hi & [= <-])%fmap_Some.
    destruct (wf_sub _ _ _ HG _ _ _ _ Ht Hi) as (nc & ? & ? & _). by exists nc.
  - intros (l & n & -> & -> & _ & Hl & Hs) [|i] l'; [|done]. intros [= <-]. exists n. by rewrite Hs.
Qed.

Definition left_roots (nrs : list ptr) (carry : ptr) : list loc :=
  ptrs nrs ++ ptrs [carry] ++ ptrs (drop (length nrs) rs1) ++ ptrs (drop (length nrs) rs2).

Definition references (nrs : list ptr) (carry : ptr) : list loc :=
  ptrs rs1 ++ E0 ++ ptrs nrs ++ ptrs [carry].

(** What the caller holds is as it was. *)
Record untouched (G : graph) : Prop := {
  un_keep l n : l ∈ ptrs rs1 ++ E0 → G0 !! l = Some n → ∃ n', G !! l = Some n' ∧ same n n';
  un_nodes l : l ∈ ptrs rs1 ++ E0 → tree_nodes G l = tree_nodes G0 l
}.

Record summing (G : graph) (nrs : list ptr) (carry : ptr) : Prop := {
  su_wf : wf le G (references nrs carry);
  su_live : live G None;
  su_refs c : refs G c ≤ S (length nrs);
  su_nrs : order_at G nrs;
  su_carry l : carry = Some l → ∃ n, G !! l = Some n ∧ length (n_subs n) = length nrs;
  su_untouched : untouched G;
  su_NoDup : NoDup (forest G (left_roots nrs carry)).*1;
  su_values : (forest G (left_roots nrs carry)).*2 ≡ₚ xs
}.

Context (HG0 : wf le G0 (ptrs rs1 ++ E0)) (Ho1 : order_at G0 rs1) (Ho2 : other_ok G0).

Lemma untouched_order1 G : untouched G → order_at G rs1.
Proof.
  intros Hun i l Hi. destruct (Ho1 i l Hi) as (n & Hl & Hlen).
  destruct (un_keep _ Hun l n) as (n' & ? & (_ & _ & Hs)); [|done|exists n'; by rewrite -Hs].
  apply elem_of_app. left. apply elem_of_ptrs. by eapply list_elem_of_lookup_2.
Qed.

Lemma untouched_other G : untouched G → other_ok G.
Proof.
  intros Hun. move: Ho2. rewrite /other_ok. destruct other as [p|tree].
  - intros (t & n & Ht & Hn & Ha & Hs).
    destruct (un_keep _ Hun t n) as (n' & ? & (_ & Ha' & Hs')); [apply elem_of_app; by right|done|].
    exists t, n'. by rewrite -Ha' -Hs'.
  - intros (l & n & -> & -> & Ht & Hn & Hs).
    destruct (un_keep _ Hun l n) as (n' & ? & (_ & _ & Hs')); [apply elem_of_app; by right|done|].
    exists l, n'. by rewrite -Hs'.
Qed.

(** From one state to a later one. *)
Lemma untouched_evolves G E G' E' :
  wf le G (ptrs rs1 ++ E0 ++ E) → wf le G' (ptrs rs1 ++ E0 ++ E') → evolves G G' →
  untouched G → untouched G'.
Proof.
  intros HG HG' Hev Hun. rewrite !assoc_L in HG HG'.
  assert (∀ l, l ∈ ptrs rs1 ++ E0 → ∃ n n', G !! l = Some n ∧ G' !! l = Some n' ∧ same n n') as Hboth.
  { intros l Hl. destruct (wf_ext _ _ _ HG l) as [n Hn]; [apply elem_of_app; by left|].
    destruct (wf_ext _ _ _ HG' l) as [n' Hn']; [apply elem_of_app; by left|].
    exists n, n'. split_and!; [done|done|by eapply Hev]. }
  split.
  - intros l n Hl Hn. destruct (un_keep _ Hun l n Hl Hn) as (n1 & Hn1 & Hs).
    destruct (Hboth l Hl) as (n1' & n2 & ? & Hn2 & ?). simplify_eq. exists n2. split; [done|]. by trans n1.
  - intros l Hl. rewrite -(un_nodes _ Hun l Hl). destruct (Hboth l Hl) as (n1 & n2 & ? & ? & ?).
    by eapply tree_nodes_agree.
Qed.

Lemma sum_start :
  live G0 None → (∀ c, refs G0 c ≤ 1) → NoDup (forest G0 (ptrs rs1 ++ ptrs rs2)).*1 →
  (forest G0 (ptrs rs1 ++ ptrs rs2)).*2 ≡ₚ xs → summing G0 [] NULL.
Proof.
  intros Hl Hr Hnd Hv. split; try done.
  - rewrite /references /= !right_id_L. done.
  - split; [|done]. intros l n _ Hn. by exists n.
Qed.

(** One more root. *)
Lemma sum_next G nrs carry G' stored carry' :
  summing G nrs carry → wf le G' (references (nrs ++ [stored]) carry') → live G' None →
  (∀ c, refs G' c ≤ S (refs G c)) → evolves G G' →
  (∀ l, stored = Some l → ∃ n, G' !! l = Some n ∧ length (n_subs n) = length nrs) →
  (∀ l, carry' = Some l → ∃ n, G' !! l = Some n ∧ length (n_subs n) = S (length nrs)) →
  NoDup (forest G' (left_roots (nrs ++ [stored]) carry')).*1 →
  (forest G' (left_roots (nrs ++ [stored]) carry')).*2 ≡ₚ xs →
  summing G' (nrs ++ [stored]) carry'.
Proof.
  intros [H1 H2 H3 H4 H5 H6 H7 H8] HG' Hlive Hrefs Hev Hst Hc Hnd Hv. split; try done.
  - intros c. specialize (Hrefs c). specialize (H3 c). rewrite length_app /=. lia.
  - intros i l. rewrite lookup_app_Some. intros [Hi|[Hi Hl]].
    + destruct (H4 i l Hi) as (n & Hn & Hlen).
      destruct (wf_ext _ _ _ HG' l) as [n' Hn'].
      { rewrite /references ptrs_app !elem_of_app !elem_of_ptrs. right. right. left. left.
        by eapply list_elem_of_lookup_2. }
      exists n'. split; [done|]. destruct (Hev l n n' Hn Hn') as (_ & _ & <-). done.
    + apply list_lookup_singleton_Some in Hl as [Hz ->]. destruct (Hst l eq_refl) as (n & ? & ?).
      exists n. split; [done|lia].
  - intros l Hl. rewrite length_app /= Nat.add_1_r. by apply Hc.
  - eapply untouched_evolves; [exact H1|exact HG'|done|done].
Qed.
End sum.

(** ** The comparison *)

(** The order of the heap: the client's, or its reverse. *)
Definition heap_order (h : BinomialHeap) (x y : value) : Z :=
  match heap_type h with
  | BINOMIAL_HEAP_TYPE_MIN => compare_func h x y
  | BINOMIAL_HEAP_TYPE_MAX => (- compare_func h x y)%Z
  end.

#[global] Instance heap_order_compare h `{!CompareFunc (compare_func h)} :
  CompareFunc (heap_order h).
Proof.
  rewrite /heap_order. destruct (heap_type h); [done|by apply reverse_compare].
Qed.

(** The results of the comparison and their negations are [int]s. *)
Definition cmp_int (h : BinomialHeap) : Prop :=
  ∀ x y, (INT_MIN ≤ heap_order h x y ≤ INT_MAX)%Z.

Lemma wp_heap_cmp `{Allocator bcell} h x y (Φ : Z → hProp bcell) :
  cmp_int h → Φ (heap_order h x y) ⊢ wp (binomial_heap_cmp h x y) Φ.
Proof.
  iIntros (Hint) "HΦ". rewrite /binomial_heap_cmp. specialize (Hint x y). rewrite /heap_order in Hint |- *.
  destruct (heap_type h); [by iApply wp_ret|]. by iApply wp_chk.
Qed.

(** ** The code of one round *)

(** The value that stays and the two that are merged, of at most three. *)
Definition stored_of (vs : list loc) : ptr :=
  match vs with [a] => Some a | [_; _; c] => Some c | _ => NULL end.
Definition pair_of (vs : list loc) : list loc :=
  match vs with [a; b] | [a; b; _] => [a; b] | _ => [] end.

Lemma pair_stored vs : length vs ≤ 3 → vs = pair_of vs ++ ptrs [stored_of vs].
Proof. destruct vs as [|a [|b [|c [|]]]]; simpl; (done || lia). Qed.

Lemma wp_store_root a nrs x k (Φ : unit → hProp bcell) :
  own_array (Some a) nrs (replicate (S k) None) -∗
  (own_array (Some a) (nrs ++ [x]) (replicate k None) -∗ Φ tt) -∗
  wp (write_root (Some a) (Z.of_nat (length nrs)) x) Φ.
Proof.
  iIntros "Ha HΦ". iApply (wp_write_array with "Ha"); [rewrite length_app length_fmap /=; lia|].
  iIntros "Ha". iApply "HΦ". rewrite /own_array insert_app_r_alt ?length_fmap // Nat.sub_diag /=.
  by rewrite fmap_app -assoc_L.
Qed.

Section round.
Context `{Allocator bcell}.
Context (h : BinomialHeap) `{!CompareFunc (compare_func h)} (Hint : cmp_int h).
Let le := cmp_le (heap_order h).
Implicit Types (G : graph) (E : list loc).

Lemma merge_trees_spec G E t1 t2 n1 n2 K :
  wf le G E → G !! t1 = Some n1 → G !! t2 = Some n2 →
  length (n_subs n2) = length (n_subs n1) →
  (∀ c, refs G c ≤ K) → (Z.of_nat (K + length E + length (n_subs n1) + 1) < 65536)%Z →
  {{ own_graph G }} binomial_tree_merge h (Some t1) (Some t2)
  {{ r, match r with
        | NULL => ⌈ can_fail ⌉ ∗ own_graph G
        | Some l => ∃ G' a b, ⌈ [a; b] ≡ₚ [t1; t2] ⌉ ∗ ⌈ wf le G' E ⌉ ∗ ⌈ attached G G' l a b ⌉ ∗ own_graph G'
        end }}.
Proof.
  intros HG H1 H2 Hord HK Hbound. apply triple_wp. iIntros "HG". rewrite /binomial_tree_merge.
  wp_bind. iApply (wp_graph_deref with "HG"); [done|]. iIntros "HG".
  wp_bind. iApply (wp_graph_deref with "HG"); [done|]. iIntros "HG".
  wp_bind. iApply wp_heap_cmp; [done|]. simpl. case_bool_decide as Hc.
  - iApply (triple_use with "HG"); [apply (attach_spec le G E t2 t1 n2 n1 K); try done; [|lia]|].
    { rewrite /le /cmp_le. by apply cmp_flip_le; [apply _|lia]. }
    iIntros ([l|]) "Hr"; [|done]. iDestruct "Hr" as (G') "(%HG' & %Hat & HG)".
    iExists G', t2, t1. iFrame. iPureIntro. split_and!; [by rewrite Permutation_swap|done|done].
  - iApply (triple_use with "HG"); [apply (attach_spec le G E t1 t2 n1 n2 K); try done|].
    iIntros ([l|]) "Hr"; [|done]. iDestruct "Hr" as (G') "(%HG' & %Hat & HG)".
    iExists G', t1, t2. by iFrame.
Qed.

(** A root is stored. *)
Lemma store_spec G E a nrs k L vs K :
  wf le G E → alive G vs → length vs ≤ 3 → (∀ c, refs G c ≤ K) →
  (Z.of_nat (K + length E) + 1 < 65536)%Z →
  let vals : list ptr := Some <$> vs in
  {{ own_array (Some a) nrs (replicate (S k) None) ∗ own_graph G }}
    (if bool_decide (Z.land (Z.of_nat (length vals)) 1 ≠ 0)%Z then
       tree ← aget vals (Z.of_nat (length vals) - 1);
       _ ← write_root (Some a) (Z.of_nat (length nrs)) tree;
       _ ← binomial_tree_ref tree;
       mret (Z.of_nat (length nrs) + 1)%Z
     else _ ← write_root (Some a) (Z.of_nat (length nrs)) NULL; mret L)
  {{ r, ∃ G', ⌈ r = if stored_of vs is Some _ then (Z.of_nat (length nrs) + 1)%Z else L ⌉ ∗
        ⌈ wf le G' (ptrs [stored_of vs] ++ E) ⌉ ∗ ⌈ bumps G G' ⌉ ∗
        own_array (Some a) (nrs ++ [stored_of vs]) (replicate k None) ∗ own_graph G' }}.
Proof.
  intros HG Hvs Hlen HK Hbound vals. apply triple_wp. iIntros "[Ha HG]".
  assert (∀ x (Φ : Z → hProp bcell), x ∈ vs →
    own_array (Some a) nrs (replicate (S k) None) -∗ own_graph G -∗
    (∀ G', ⌈ wf le G' (x :: E) ⌉ -∗ ⌈ bumps G G' ⌉ -∗
      own_array (Some a) (nrs ++ [Some x]) (replicate k None) -∗ own_graph G' -∗
      Φ (Z.of_nat (length nrs) + 1)%Z) -∗
    wp (_ ← write_root (Some a) (Z.of_nat (length nrs)) (Some x);
        _ ← binomial_tree_ref (Some x);
        mret (Z.of_nat (length nrs) + 1)%Z) Φ) as Hstore.
  { intros x Φ Hx. iIntros "Ha HG HΦ". destruct (Hvs x Hx) as [n Hn].
    pose proof (wf_rc _ _ _ HG _ _ Hn). pose proof (HK x). pose proof (occ_length x E).
    wp_bind. iApply (wp_store_root with "Ha"). iIntros "Ha".
    wp_bind. iApply (ref_spec with "HG"); [done|done|lia|]. iIntros "HG". wp_pures.
    iApply ("HΦ" with "[] [] Ha HG"); iPureIntro; [by apply wf_ref|by apply bumps_set_rc]. }
  assert (∀ (Φ : Z → hProp bcell),
    own_array (Some a) nrs (replicate (S k) None) -∗
    (own_array (Some a) (nrs ++ [NULL]) (replicate k None) -∗ Φ L) -∗
    wp (_ ← write_root (Some a) (Z.of_nat (length nrs)) NULL; mret L) Φ) as Hnull.
  { intros Φ. iIntros "Ha HΦ". wp_bind. iApply (wp_store_root with "Ha"). iIntros "Ha". wp_pures. by iApply "HΦ". }
  destruct vs as [|x [|y [|z [|]]]]; simpl in Hlen; try lia; subst vals.
  - rewrite bool_decide_eq_false_2; [|by vm_compute]. iApply (Hnull with "Ha"). iIntros "Ha".
    iExists G. iFrame. iPureIntro. split_and!; [done|done|apply bumps_refl].
  - rewrite bool_decide_eq_true_2; [|by vm_compute]. wp_bind. iApply (wp_aget _ _ (Some x)); [done|done|].
    iApply (Hstore with "Ha HG"); [by left|]. iIntros (G' HG' Hb) "Ha HG". iExists G'. by iFrame.
  - rewrite bool_decide_eq_false_2; [|by vm_compute; intros []]. iApply (Hnull with "Ha"). iIntros "Ha".
    iExists G. iFrame. iPureIntro. split_and!; [done|done|apply bumps_refl].
  - rewrite bool_decide_eq_true_2; [|by vm_compute]. wp_bind. iApply (wp_aget _ _ (Some z)); [done|done|].
    iApply (Hstore with "Ha HG"); [right; right; by left|].
    iIntros (G' HG' Hb) "Ha HG". iExists G'. by iFrame.
Qed.

(** Two values become the carry. *)
Lemma carry_spec G E vs k K :
  wf le G E → length vs ≤ 3 → (∀ v, v ∈ vs → ∃ n, G !! v = Some n ∧ length (n_subs n) = k) →
  (∀ c, refs G c ≤ K) → (Z.of_nat (K + length E + k + 1) < 65536)%Z →
  let vals : list ptr := Some <$> vs in
  {{ own_graph G }}
    (if bool_decide (Z.land (Z.of_nat (length vals)) 2 ≠ 0)%Z then
       val0 ← aget vals 0;
       val1 ← aget vals 1;
       new_carry ← binomial_tree_merge h val0 val1;
       mret (bool_decide (new_carry = NULL), new_carry)
     else mret (false, NULL))
  {{ r, match pair_of vs with
        | [] => ⌈ r = (false, NULL) ⌉ ∗ own_graph G
        | _ => (⌈ r = (true, NULL) ⌉ ∗ ⌈ can_fail ⌉ ∗ own_graph G) ∨
               ∃ G' l a b, ⌈ r = (false, Some l) ⌉ ∗ ⌈ [a; b] ≡ₚ pair_of vs ⌉ ∗ ⌈ wf le G' E ⌉ ∗
                 ⌈ attached G G' l a b ⌉ ∗ own_graph G'
        end }}.
Proof.
  intros HG Hlen Hvs HK Hbound vals. apply triple_wp. iIntros "HG".
  assert (∀ x y rest (Φ : bool * ptr → hProp bcell), vs = x :: y :: rest →
    own_graph G -∗
    ((⌈ can_fail ⌉ -∗ own_graph G -∗ Φ (true, NULL)) ∧
     (∀ G' l a b, ⌈ [a; b] ≡ₚ [x; y] ⌉ -∗ ⌈ wf le G' E ⌉ -∗ ⌈ attached G G' l a b ⌉ -∗ own_graph G' -∗
        Φ (false, Some l))) -∗
    wp (val0 ← aget vals 0; val1 ← aget vals 1; new_carry ← binomial_tree_merge h val0 val1;
        mret (bool_decide (new_carry = NULL), new_carry)) Φ) as Hmerge.
  { intros x y rest Φ Hx. iIntros "HG HΦ". rewrite /vals Hx.
    destruct (Hvs x) as (nx & Hnx & Hox); [rewrite Hx; by left|].
    destruct (Hvs y) as (ny & Hny & Hoy); [rewrite Hx; right; by left|].
    wp_bind. iApply (wp_aget _ _ (Some x)); [done|done|].
    wp_bind. iApply (wp_aget _ _ (Some y)); [done|done|].
    wp_bind. iApply (triple_use with "HG"); [apply (merge_trees_spec G E x y nx ny K); try done; lia|].
    iIntros ([l|]) "Hr"; wp_pures.
    - iDestruct "Hr" as (G' a b) "(%Hp & %HG' & %Hat & HG)". iDestruct "HΦ" as "[_ HΦ]".
      by iApply ("HΦ" with "[] [] [] HG").
    - iDestruct "Hr" as "[%Hf HG]". iDestruct "HΦ" as "[HΦ _]". by iApply ("HΦ" with "[] HG"). }
  destruct vs as [|x [|y [|z [|]]]]; simpl in Hlen; try lia; subst vals.
  1, 2: rewrite bool_decide_eq_false_2; [|by vm_compute; intros []]; wp_pures; by iFrame.
  all: rewrite bool_decide_eq_true_2; [|by vm_compute];
    iApply (Hmerge with "HG"); [done|]; iSplit;
    [iIntros (Hf) "HG"; iLeft; by iFrame
    |iIntros (G' l a b Hp HG' Hat) "HG"; iRight; iExists G', l, a, b; by iFrame].
Qed.

(** *** The trees of an array *)
Lemma root_at_spec p rs rest i hh (Φ : list ptr → hProp bcell) :
  roots hh = ArrayAt p → roots_length hh = Z.of_nat (length rs) →
  own_array p rs rest -∗ (own_array p rs rest -∗ Φ (Some <$> head_at rs i)) -∗
  wp (binomial_root_at hh (Z.of_nat i)) Φ.
Proof.
  iIntros (Hr Hl) "Ha HΦ". rewrite /binomial_root_at Hr Hl /head_at.
  destruct (rs !! i) as [x|] eqn:Hx.
  - rewrite bool_decide_eq_true_2; [|apply lookup_lt_Some in Hx; lia].
    wp_bind. iApply (wp_read_array with "Ha"); [done|]. iIntros "Ha". wp_pures.
    iSpecialize ("HΦ" with "Ha"). by destruct x.
  - rewrite bool_decide_eq_false_2; [|apply lookup_ge_None in Hx; lia]. wp_pures. by iApply "HΦ".
Qed.

Lemma other_at_spec rs2 E0 G i hh (Φ : list ptr → hProp bcell) :
  other_ok rs2 (roots hh) E0 G → roots_length hh = Z.of_nat (length rs2) →
  own_graph G -∗ (own_graph G -∗ Φ (Some <$> head_at rs2 i)) -∗
  wp (binomial_root_at hh (Z.of_nat i)) Φ.
Proof.
  rewrite /other_ok. destruct (roots hh) as [p|tree] eqn:Hr.
  - intros (t & n & _ & Ht & <- & ->) Hl. iIntros "HG HΦ".
    iDestruct (big_sepM_lookup_acc with "HG") as "[[Htl Ha] HG]"; [done|].
    iApply (root_at_spec with "Ha"); [done|done|]. iIntros "Ha". iApply "HΦ". iApply "HG". iFrame.
  - intros (l & n & -> & -> & _) Hl. iIntros "HG HΦ". rewrite /binomial_root_at Hr Hl /head_at.
    destruct i as [|i].
    + rewrite bool_decide_eq_true_2 //. wp_pures. by iApply "HΦ".
    + rewrite bool_decide_eq_false_2; [|simpl; lia]. wp_pures. by iApply "HΦ".
Qed.
End round.
