(* ===== verification/BinomialMerge.v ===== *)
(** * BinomialMerge: binomial_heap_merge

    Every round of the loop is a step of the sum of BinomialSum, a refused
    allocation undoes all rounds so far; the whole function merges the trees of two
    heaps and drops the old array of roots. *)
From stdpp Require Import base gmap list numbers.
From iris.proofmode Require Import proofmode environments.
From S2P Require Import Prelude Memory Compare BinomialHeap BinomialGraph BinomialRefs BinomialSum.

(** ** Steps of the sum *)

Section steps.
Context (le : value → value → Prop) `{!PreOrder le}.
Context (rs1 rs2 : list ptr) (other : tree_array) (E0 : list loc) (G0 : graph) (xs : list value).
Context (HG0 : wf le G0 (ptrs rs1 ++ E0)) (Ho1 : order_at G0 rs1) (Ho2 : other_ok rs2 other E0 G0).

Abbreviation summing := (summing le rs1 rs2 E0 G0 xs).
Abbreviation untouched := (untouched rs1 E0 G0).
Abbreviation left_roots := (left_roots rs1 rs2).
Abbreviation references := (references rs1 E0).

(** The values that are added in this round. *)
Definition addends (nrs : list ptr) (carry : ptr) : list loc :=
  head_at rs1 (length nrs) ++ head_at rs2 (length nrs) ++ ptrs [carry].

Definition remaining (i : nat) : list loc := ptrs (drop i rs1) ++ ptrs (drop i rs2).

Lemma left_roots_split nrs carry :
  left_roots nrs carry ≡ₚ addends nrs carry ++ ptrs nrs ++ remaining (S (length nrs)).
Proof.
  rewrite /BinomialSum.left_roots /addends /remaining !(ptrs_drop _ (length nrs)).
  perm_occ.
Qed.

Lemma left_roots_snoc nrs stored carry :
  left_roots (nrs ++ [stored]) carry =
    (ptrs nrs ++ ptrs [stored]) ++ ptrs [carry] ++ remaining (S (length nrs)).
Proof. rewrite /BinomialSum.left_roots length_app /= Nat.add_1_r ptrs_app. done. Qed.

Lemma remaining_alive G E i : wf le G E → untouched G → alive G (remaining i).
Proof.
  intros HG Hun.
  assert (∀ rs l, order_at G rs → l ∈ ptrs (drop i rs) → is_Some (G !! l)) as Hdrop.
  { intros rs l Ho Hl. apply (order_at_alive _ _ Ho). apply elem_of_ptrs. apply elem_of_ptrs in Hl.
    rewrite -(take_drop i rs) elem_of_app. by right. }
  intros l [Hl|Hl]%elem_of_app; eapply Hdrop; try exact Hl.
  - by eapply untouched_order1.
  - eapply other_order; [exact HG|]. by eapply untouched_other.
Qed.

Lemma references_wf G E E' l : wf le G E' → E' ≡ₚ E → l ∈ E → is_Some (G !! l).
Proof. intros HG Hp Hl. apply (wf_ext _ _ _ HG). by rewrite Hp. Qed.

Lemma addends_order G nrs carry v :
  summing G nrs carry → v ∈ addends nrs carry →
  ∃ n, G !! v = Some n ∧ length (n_subs n) = length nrs.
Proof.
  intros HS. pose proof (su_untouched _ _ _ _ _ _ _ _ _ HS) as Hun.
  rewrite /addends !elem_of_app. intros [Hv|[Hv|Hv]].
  - apply head_at_elem in Hv. by eapply untouched_order1.
  - apply head_at_elem in Hv. eapply other_order; [apply HS|by eapply untouched_other|done].
  - apply (su_carry _ _ _ _ _ _ _ _ _ HS). destruct carry; [|by apply elem_of_nil in Hv].
    by apply list_elem_of_singleton in Hv as ->.
Qed.

Lemma left_roots_alive G nrs carry : summing G nrs carry → alive G (left_roots nrs carry).
Proof.
  intros HS l. rewrite left_roots_split elem_of_app (elem_of_app (ptrs nrs)). intros [Hl|[Hl|Hl]].
  - destruct (addends_order _ _ _ _ HS Hl) as (n & ? & _). by exists n.
  - by apply (order_at_alive _ _ (su_nrs _ _ _ _ _ _ _ _ _ HS)).
  - by eapply remaining_alive; [apply HS|apply (su_untouched _ _ _ _ _ _ _ _ _ HS)|].
Qed.

Lemma addends_length nrs carry : length (addends nrs carry) ≤ 3.
Proof.
  assert (∀ rs, length (head_at rs (length nrs)) ≤ 1) as Hh.
  { intros rs. rewrite /head_at. repeat case_match; simpl; lia. }
  rewrite /addends !length_app. pose proof (Hh rs1). pose proof (Hh rs2). destruct carry; simpl; lia.
Qed.

Lemma stored_order G nrs carry G' l carry' :
  summing G nrs carry → evolves G G' → wf le G' (references (nrs ++ [Some l]) carry') →
  l ∈ addends nrs carry → ∃ n, G' !! l = Some n ∧ length (n_subs n) = length nrs.
Proof.
  intros HS Hev HG' Hl. destruct (addends_order _ _ _ _ HS Hl) as (n & Hn & Hlen).
  destruct (wf_ext _ _ _ HG' l) as [n' Hn'].
  { rewrite /BinomialSum.references ptrs_app !elem_of_app. right. right. left. right. by left. }
  exists n'. split; [done|]. destruct (Hev l n n' Hn Hn') as (_ & _ & <-). done.
Qed.

Lemma bumps_live G G1 : bumps G G1 → live G None → live G1 None.
Proof.
  intros (_ & _ & _ & Hb) HG l n Hl Hz. destruct (Hb l n Hl Hz) as (n0 & Hn0 & Hz0). by eapply HG.
Qed.

(** A round without a carry out. *)
Lemma sum_plain G nrs carry G1 G' stored :
  summing G nrs carry → addends nrs carry = ptrs [stored] → bumps G G1 → shrinks G1 G' →
  wf le G' (references (nrs ++ [stored]) NULL) → summing G' (nrs ++ [stored]) NULL.
Proof.
  intros HS Hadd Hb Hs HG'. pose proof HS as [H1 H2 H3 H4 H5 H6 H7 H8].
  assert (evolves G G') as Hev by (eapply evolves_steps; [apply Hb|exact Hs|apply bumps_refl]).
  assert (untouched G') as Hun.
  { eapply untouched_evolves; [exact H1|exact HG'|done|done]. }
  assert (left_roots (nrs ++ [stored]) NULL ≡ₚ left_roots nrs carry) as Hperm.
  { rewrite (left_roots_split nrs carry) Hadd left_roots_snoc. change (ptrs [NULL]) with ([] : list loc). perm_occ. }
  assert (forest G' (left_roots (nrs ++ [stored]) NULL) ≡ₚ forest G (left_roots nrs carry)) as Hforest.
  { rewrite -Hperm. rewrite (forest_agree le G _ G' _ _ H1 HG' Hev); [done| |].
    - intros l. rewrite Hperm. by apply left_roots_alive.
    - intros l. rewrite left_roots_snoc -ptrs_app elem_of_app (elem_of_app (ptrs [NULL])).
      intros [Hl|[Hl|Hl]].
      + apply (wf_ext _ _ _ HG'). rewrite /BinomialSum.references !elem_of_app. auto.
      + by apply elem_of_nil in Hl.
      + by eapply remaining_alive. }
  eapply (sum_next le rs1 rs2 E0 G0 xs G nrs carry); try done.
  - eapply shrinks_live; [exact Hs|]. by eapply bumps_live.
  - intros c. destruct Hb as (_ & _ & Hr & _). destruct Hs as (_ & Hr' & _). rewrite -Hr.
    specialize (Hr' c). lia.
  - intros l ->. eapply stored_order; try done. rewrite Hadd. by left.
  - by rewrite Hforest.
  - by rewrite Hforest.
Qed.

(** A round whose first two values are merged into the carry out. *)
Lemma sum_merged G nrs carry G1 E1 G2 E2 G3 stored l a b n :
  summing G nrs carry → addends nrs carry ≡ₚ [a; b] ++ ptrs [stored] → bumps G G1 → wf le G1 E1 →
  wf le G2 E2 → attached G1 G2 l a b → shrinks G2 G3 → G3 !! l = Some n →
  let G' := <[l := set_rc (S (n_rc n)) n]> G3 in
  wf le G' (references (nrs ++ [stored]) (Some l)) → summing G' (nrs ++ [stored]) (Some l).
Proof.
  intros HS Hadd Hb HG1 HG2 Hat Hs Hl G' HG'. pose proof HS as [H1 H2 H3 H4 H5 H6 H7 H8].
  assert (keeps G G2) as Hk by (eapply keeps_trans; [apply Hb|apply Hat]).
  assert (bumps G3 G') as Hb' by by apply bumps_set_rc.
  assert (evolves G G') as Hev by by eapply evolves_steps.
  assert (evolves G2 G') as Hev2 by (eapply evolves_steps; [apply keeps_refl|done|done]).
  assert (untouched G') as Hun by (eapply untouched_evolves; [exact H1|exact HG'|done|done]).
  set (ls := ptrs (nrs ++ [stored]) ++ remaining (S (length nrs))).
  assert (left_roots nrs carry ≡ₚ a :: b :: ls) as Hperm.
  { rewrite left_roots_split Hadd /ls ptrs_app. perm_occ. }
  assert (left_roots (nrs ++ [stored]) (Some l) ≡ₚ l :: ls) as Hperm'.
  { rewrite left_roots_snoc /ls ptrs_app. change (ptrs [Some l]) with [l]. perm_occ. }
  assert (alive G (a :: b :: ls)) as HalG.
  { intros x. rewrite -Hperm. by apply left_roots_alive. }
  assert (alive G1 (a :: b :: ls)) as HalG1.
  { intros x Hx. destruct (HalG x Hx) as [nx Hnx]. destruct Hb as [Hb _].
    destruct (Hb x nx Hnx) as (nx' & ? & _). by exists nx'. }
  assert (forest G1 (a :: b :: ls) = forest G (a :: b :: ls)) as Hf1.
  { eapply forest_agree; [exact H1|exact HG1| |done|done].
    eapply evolves_steps; [apply Hb|apply shrinks_refl|apply bumps_refl]. }
  assert (alive G2 ls) as HalG2.
  { intros x Hx. destruct (HalG1 x) as [nx Hnx]; [right; by right|].
    destruct (at_keeps _ _ _ _ _ Hat x nx Hnx) as (nx' & ? & _). by exists nx'. }
  destruct (attached_forest le G1 E1 G2 E2 l a b ls xs HG1 HG2 Hat) as [Hnd Hv]; try done.
  { eapply evolves_steps; [apply Hat|apply shrinks_refl|apply bumps_refl]. }
  { by rewrite Hf1 -Hperm. }
  { by rewrite Hf1 -Hperm. }
  destruct (at_node _ _ _ _ _ Hat) as (na & nl & Hna & Hnl & _ & Hsubs & Hz).
  assert (forest G' (l :: ls) = forest G2 (l :: ls)) as Hf2.
  { eapply forest_agree; [exact HG2|exact HG'|done| |].
    - intros x [->|Hx]%elem_of_cons; [by eexists|by apply HalG2].
    - intros x Hx. rewrite -Hperm' in Hx. revert x Hx. intros x.
      rewrite left_roots_snoc -ptrs_app elem_of_app (elem_of_app (ptrs [Some l])).
      intros [Hx|[Hx|Hx]]; [| |by eapply remaining_alive].
      + apply (wf_ext _ _ _ HG'). rewrite /BinomialSum.references !elem_of_app. auto.
      + apply (wf_ext _ _ _ HG'). rewrite /BinomialSum.references !elem_of_app. auto. }
  eapply (sum_next le rs1 rs2 E0 G0 xs G nrs carry); try done.
  - intros x nx Hx Hzx. rewrite lookup_insert in Hx. case_decide as Hxl; [by simplify_eq|].
    destruct Hs as (Hs & _). destruct (Hs x nx Hx) as (nx2 & Hx2 & _ & _ & Hz2).
    destruct (at_live _ _ _ _ _ Hat x nx2) as (nx1 & Hx1 & Hz1); [by apply not_eq_sym|done|by apply Hz2|].
    by eapply (bumps_live G G1).
  - intros c. destruct Hb as (_ & _ & Hr & _). destruct Hs as (_ & Hr' & _).
    destruct Hb' as (_ & _ & Hr'' & _). specialize (Hr' c). pose proof (at_refs _ _ _ _ _ Hat c) as Hr3.
    rewrite Hr in Hr3. rewrite Hr''. lia.
  - intros x ->. eapply stored_order; try done. rewrite Hadd. apply elem_of_app. right. by left.
  - intros x [= <-]. exists (set_rc (S (n_rc n)) n). split; [by rewrite lookup_insert_eq|].
    destruct Hs as (Hs & _). destruct (Hs l n Hl) as (n2 & Hn2 & (_ & _ & Heq2) & _). simplify_eq.
    cbn [n_subs set_rc]. rewrite -Heq2 Hsubs length_app /=.
    destruct (addends_order G nrs carry a HS) as (na0 & Hna0 & Hlen); [rewrite Hadd; by left|].
    destruct Hb as [Hb _]. destruct (Hb a na0 Hna0) as (na1 & Hna1 & (_ & _ & Heq)). simplify_eq.
    rewrite -Heq. lia.
  - by rewrite Hperm' Hf2.
  - by rewrite Hperm' Hf2.
Qed.
End steps.

(** ** One round of the loop *)
Lemma small_intro le G E K :
  wf le G E → (∀ c, refs G c ≤ K) → (Z.of_nat (K + length E) < 65536)%Z → small G.
Proof.
  intros HG HK Hb l n Hl. rewrite (wf_rc _ _ _ HG _ _ Hl).
  pose proof (HK l). pose proof (occ_length l E). lia.
Qed.

Lemma ptrs_length rs : length (ptrs rs) ≤ length rs.
Proof.
  induction rs as [|[l|] rs IH]; [done| |].
  - change (S (length (ptrs rs)) ≤ S (length rs)). lia.
  - change (length (ptrs rs) ≤ S (length rs)). lia.
Qed.

Section rounds.
Context `{Allocator bcell}.
Context (h hh : BinomialHeap) `{!CompareFunc (compare_func h)} (Hint : cmp_int h).
Context (rs1 rs2 : list ptr) (E0 : list loc) (G0 : graph) (xs : list value) (p1 : ptr) (fuel : nat).
Let le := cmp_le (heap_order h).
Abbreviation summing := (summing le rs1 rs2 E0 G0 xs).
Abbreviation untouched := (untouched rs1 E0 G0).
Abbreviation references := (references rs1 E0).
Abbreviation addends := (addends rs1 rs2).

Context (HG0 : wf le G0 (ptrs rs1 ++ E0)) (Ho1 : order_at G0 rs1)
  (Ho2 : other_ok rs2 (roots hh) E0 G0).
Context (Hr1 : roots h = ArrayAt p1) (Hl1 : roots_length h = Z.of_nat (length rs1))
  (Hl2 : roots_length hh = Z.of_nat (length rs2)).
(** One more than the longer array. *)
Let max := S (length rs1 `max` length rs2).
Context (Hfuel : max < fuel)
  (Hsmall : (Z.of_nat (5 * max + length E0) < 65535)%Z).

Lemma references_length nrs carry :
  length (references nrs carry) ≤ length rs1 + length E0 + length nrs + 1.
Proof.
  rewrite /BinomialSum.references !length_app. pose proof (ptrs_length rs1).
  pose proof (ptrs_length nrs). pose proof (ptrs_length [carry]) as Hc. cbn [length] in Hc. lia.
Qed.

(** A reference that may be null is dropped. *)
Lemma unref_ptr G E x :
  wf le G (ptrs [x] ++ E) → small G →
  (∀ l n, x = Some l → G !! l = Some n → length (n_subs n) < fuel) →
  {{ own_graph G }} binomial_tree_unref fuel x
  {{ _, ∃ G', ⌈ wf le G' E ⌉ ∗ ⌈ shrinks G G' ⌉ ∗ own_graph G' }}.
Proof.
  intros HG Hs Hord. destruct x as [l|].
  - destruct (wf_ext _ _ _ HG l) as [n Hl]; [by left|].
    apply (unref_all le fuel G l n E HG Hs Hl). by apply (Hord l).
  - apply triple_wp. iIntros "HG". destruct fuel; [lia|]. iApply wp_ret. iExists G. iFrame.
    iPureIntro. split; [done|apply shrinks_refl].
Qed.

(** The state when an allocation is refused. *)
Definition undone : hProp bcell :=
  (⌈ can_fail ⌉ ∗ ∃ G', ⌈ wf le G' (ptrs rs1 ++ E0) ⌉ ∗ ⌈ live G' None ⌉ ∗ ⌈ untouched G' ⌉ ∗
   ⌈ small G' ⌉ ∗ own_graph G')%I.

Lemma undo_spec a rs rest G E :
  wf le G (ptrs rs ++ E) → small G → order_at G rs → length rs < fuel →
  {{ own_array (Some a) rs rest ∗ own_graph G }}
    binomial_heap_merge_undo fuel (Some a) (Z.of_nat (length rs) - 1)
  {{ _, ∃ G', ⌈ wf le G' E ⌉ ∗ ⌈ shrinks G G' ⌉ ∗ own_graph G' }}.
Proof.
  intros HG Hs Ho Hlen. apply triple_wp. iIntros "Ha". rewrite /binomial_heap_merge_undo.
  replace (Z.to_nat _) with (length rs) by lia. iApply wp_bind.
  iApply (triple_use with "Ha").
  { apply (unref_loop le fuel (own_array (Some a) rs rest) _ rs 0 G E); try done.
    - by apply unref_all.
    - lia.
    - intros i x Φ _ Hx. rewrite Nat.sub_0_r in Hx. iIntros "Ha HΦ". iApply wp_bind.
      by iApply (wp_read_array with "Ha").
    - intros l n [i Hi]%elem_of_ptrs%list_elem_of_lookup Hl.
      destruct (Ho i l Hi) as (n' & Hn' & Hi'). simplify_eq. apply lookup_lt_Some in Hi. lia. }
  iIntros (_) "[Ha (%G' & %HG' & %Hs' & HG)]". iApply (wp_free_array _ (rs) with "Ha").
  iExists G'. by iFrame.
Qed.

Lemma summing_untouched G nrs carry : summing G nrs carry → untouched G.
Proof. by intros []. Qed.

(** What is left when the sum is given up. *)
Lemma undone_intro G nrs carry G1 G' :
  summing G nrs carry → bumps G G1 → shrinks G1 G' → wf le G' (ptrs rs1 ++ E0) →
  live G' None ∧ untouched G'.
Proof.
  intros HS Hb Hs HG'. split.
  - eapply shrinks_live; [exact Hs|]. eapply bumps_live; [exact Hb|by destruct HS].
  - eapply (untouched_evolves le rs1 E0 G0 G (ptrs nrs ++ ptrs [carry]) G' []);
      [by destruct HS|by rewrite !right_id_L| |by destruct HS].
    eapply evolves_steps; [apply Hb|exact Hs|apply bumps_refl].
Qed.

(** An order survives the steps. *)
Lemma order_at_evolves G G' E rs :
  wf le G' (ptrs rs ++ E) → evolves G G' → order_at G rs → order_at G' rs.
Proof.
  intros HG' Hev Ho i l Hi. destruct (Ho i l Hi) as (n & Hn & Hlen).
  destruct (wf_ext _ _ _ HG' l) as [n' Hn'].
  { apply elem_of_app. left. apply elem_of_ptrs. by eapply list_elem_of_lookup_2. }
  exists n'. split; [done|]. by destruct (Hev l n n' Hn Hn') as (_ & _ & <-).
Qed.

Lemma round_failed G nrs carry G1 a stored :
  summing G nrs carry → bumps G G1 → length nrs < max →
  wf le G1 (ptrs [stored] ++ references nrs carry) →
  (∀ l, stored = Some l → l ∈ addends nrs carry) → can_fail →
  {{ own_array (Some a) (nrs ++ [stored]) (replicate (max - S (length nrs)) None) ∗ own_graph G1 }}
    (_ ← binomial_heap_merge_undo fuel (Some a) (Z.of_nat (length nrs));
     _ ← binomial_tree_unref fuel carry;
     mret (inr tt : Z * ptr + unit))
  {{ r, ⌈ r = inr tt ⌉ ∗ undone }}.
Proof.
  intros HS Hb Hlen HG1 Hst Hfail. apply triple_wp. iIntros "Ha".
  pose proof HS as [H1 H2 H3 H4 H5 H6 H7 H8].
  assert (evolves G G1) as Hev.
  { eapply evolves_steps; [apply Hb|apply shrinks_refl|apply bumps_refl]. }
  assert (∀ c, refs G1 c ≤ S (length nrs)) as HK by (intros c; destruct Hb as (_ & _ & -> & _); apply H3).
  pose proof (references_length nrs carry) as Hrl.
  assert (wf le G1 (ptrs (nrs ++ [stored]) ++ (ptrs [carry] ++ ptrs rs1 ++ E0))) as HG1'.
  { eapply wf_Permutation; [|exact HG1]. rewrite /BinomialSum.references ptrs_app. perm_occ. }
  assert (small G1) as Hsm.
  { apply (small_intro le G1 _ (S (length nrs)) HG1 HK). rewrite length_app.
    pose proof (ptrs_length [stored]) as Hc. cbn [length] in Hc. lia. }
  assert (order_at G1 (nrs ++ [stored])) as Ho.
  { intros i l. rewrite lookup_app_Some. intros [Hi|[Hi Hl]].
    - eapply (order_at_evolves G G1); [|exact Hev|done|done].
      eapply wf_Permutation; [|exact HG1].
      instantiate (1 := ptrs [stored] ++ ptrs [carry] ++ ptrs rs1 ++ E0).
      rewrite /BinomialSum.references. perm_occ.
    - apply list_lookup_singleton_Some in Hl as [Hz ->].
      destruct (addends_order le rs1 rs2 (roots hh) E0 G0 xs Ho1 Ho2 _ _ _ l HS (Hst l eq_refl)) as (n & Hn & Hln).
      destruct Hb as [Hb _]. destruct (Hb l n Hn) as (n' & Hn' & (_ & _ & Heq)).
      exists n'. split; [done|]. rewrite -Heq. lia. }
  iApply wp_bind. replace (Z.of_nat (length nrs)) with (Z.of_nat (length (nrs ++ [stored])) - 1)%Z
    by (rewrite length_app /=; lia).
  iApply (triple_use with "Ha").
  { apply (undo_spec a (nrs ++ [stored]) _ G1 _ HG1' Hsm Ho). rewrite length_app /=. lia. }
  iIntros (_) "(%G2 & %HG2 & %Hs2 & HG)". iApply wp_bind.
  iApply (triple_use with "HG").
  { apply (unref_ptr G2 _ carry HG2); [by eapply shrinks_small|].
    intros l n -> Hl. destruct (H5 l eq_refl) as (n0 & Hn0 & Hord).
    destruct Hs2 as (Hs2 & _). destruct (Hs2 l n Hl) as (n1 & Hn1 & (_ & _ & <-) & _).
    destruct (Hev l n0 n1 Hn0 Hn1) as (_ & _ & <-). lia. }
  iIntros (_) "(%G3 & %HG3 & %Hs3 & HG)". wp_pures. iSplit; [done|]. iSplit; [done|].
  destruct (undone_intro G nrs carry G1 G3 HS Hb) as [Hl Hu]; [by eapply shrinks_trans|done|].
  iExists G3. iFrame. iPureIntro. split_and!; [done|done|done|].
  eapply shrinks_small; [exact Hs3|]. by eapply shrinks_small.
Qed.

Context (rest1 : array ptr).

Definition round_done (G : graph) (nrs : list ptr) (carry : ptr) (a : loc) (L : Z)
    (r : Z * ptr + unit) : hProp bcell :=
  (∃ G' stored carry',
   ⌈ r = inl (if stored is Some _ then (Z.of_nat (length nrs) + 1)%Z else L, carry') ⌉ ∗
   ⌈ summing G' (nrs ++ [stored]) carry' ⌉ ∗
   ⌈ length (addends nrs carry) ≤ 1 → carry' = NULL ⌉ ∗
   own_array (Some a) (nrs ++ [stored]) (replicate (max - S (length nrs)) None) ∗
   own_graph G')%I.

(** The end of a round: the old carry is dropped. *)
Lemma round_plain G nrs carry G1 a L stored :
  summing G nrs carry → bumps G G1 → length nrs < max →
  wf le G1 (ptrs [stored] ++ references nrs carry) → addends nrs carry = ptrs [stored] →
  small G1 →
  {{ own_array (Some a) (nrs ++ [stored]) (replicate (max - S (length nrs)) None) ∗ own_graph G1 }}
    (_ ← binomial_tree_unref fuel carry;
     _ ← binomial_tree_ref NULL;
     mret (inl (if stored is Some _ then (Z.of_nat (length nrs) + 1)%Z else L, NULL) : Z * ptr + unit))
  {{ r, round_done G nrs carry a L r }}.
Proof.
  intros HS Hb Hlen HG1 Hadd Hsm. apply triple_wp. iIntros "[Ha HG]".
  pose proof HS as [H1 H2 H3 H4 H5 H6 H7 H8].
  iApply wp_bind. iApply (triple_use with "HG").
  { apply (unref_ptr G1 (references (nrs ++ [stored]) NULL) carry); [|done|].
    - eapply wf_Permutation; [|exact HG1]. rewrite /BinomialSum.references ptrs_app.
      change (ptrs [NULL]) with ([] : list loc). perm_occ.
    - intros l n -> Hl. destruct (H5 l eq_refl) as (n0 & Hn0 & Hord). destruct Hb as [Hb _].
      destruct (Hb l n0 Hn0) as (n1 & Hn1 & (_ & _ & Heq)). simplify_eq. rewrite -Heq. lia. }
  iIntros (_) "(%G3 & %HG3 & %Hs3 & HG)". wp_pures. iExists G3, stored, NULL. iFrame.
  iPureIntro. split_and!; [done| |done].
  by eapply (sum_plain le rs1 rs2 (roots hh)).
Qed.

(** The end of a round: the merged tree becomes the carry. *)
Lemma round_merged G nrs carry G1 G2 a L stored l x y :
  summing G nrs carry → bumps G G1 → length nrs < max →
  wf le G1 (ptrs [stored] ++ references nrs carry) →
  wf le G2 (ptrs [stored] ++ references nrs carry) →
  attached G1 G2 l x y → addends nrs carry ≡ₚ [x; y] ++ ptrs [stored] → small G2 →
  {{ own_array (Some a) (nrs ++ [stored]) (replicate (max - S (length nrs)) None) ∗ own_graph G2 }}
    (_ ← binomial_tree_unref fuel carry;
     _ ← binomial_tree_ref (Some l);
     mret (inl (if stored is Some _ then (Z.of_nat (length nrs) + 1)%Z else L, Some l) : Z * ptr + unit))
  {{ r, round_done G nrs carry a L r }}.
Proof.
  intros HS Hb Hlen HG1 HG2 Hat Hadd Hsm. apply triple_wp. iIntros "[Ha HG]".
  pose proof HS as [H1 H2 H3 H4 H5 H6 H7 H8].
  iApply wp_bind. iApply (triple_use with "HG").
  { apply (unref_ptr G2 (references (nrs ++ [stored]) NULL) carry); [|done|].
    - eapply wf_Permutation; [|exact HG2]. rewrite /BinomialSum.references ptrs_app.
      change (ptrs [NULL]) with ([] : list loc). perm_occ.
    - intros l' n -> Hl. destruct (H5 l' eq_refl) as (n0 & Hn0 & Hord). destruct Hb as [Hb _].
      destruct (Hb l' n0 Hn0) as (n1 & Hn1 & (_ & _ & Heq)).
      destruct (at_keeps _ _ _ _ _ Hat l' n1 Hn1) as (n2 & Hn2 & (_ & _ & Heq2)). simplify_eq.
      rewrite -Heq2 -Heq. lia. }
  iIntros (_) "(%G3 & %HG3 & %Hs3 & HG)".
  destruct (at_node _ _ _ _ _ Hat) as (nx & nl & Hnx & Hnl & _ & _ & Hz).
  assert (G3 !! l = Some nl) as Hl3 by by apply Hs3.
  iApply wp_bind. iApply (ref_spec le G3 l nl with "HG"); [exact HG3|done|lia|]. iIntros "HG".
  wp_pures. iExists _, stored, (Some l). iFrame "HG Ha". iPureIntro. split_and!; [done| |].
  - apply (sum_merged le rs1 rs2 (roots hh) E0 G0 xs Ho1 Ho2 G nrs carry G1 _ G2 _ G3 stored l x y nl
      HS Hadd Hb HG1 HG2 Hat Hs3 Hl3).
    eapply wf_Permutation; [|by eapply wf_ref].
    rewrite /BinomialSum.references ptrs_app. change (ptrs [NULL]) with ([] : list loc).
    change (ptrs [Some l]) with [l]. perm_occ.
  - intros Hle. rewrite Hadd length_app /= in Hle. lia.
Qed.

Lemma addends_ptrs nrs carry :
  (Some <$> head_at rs1 (length nrs)) ++ (Some <$> head_at rs2 (length nrs)) ++
    match carry with NULL => [] | Some _ => [carry] end = Some <$> addends nrs carry.
Proof. rewrite /BinomialMerge.addends !fmap_app. by destruct carry. Qed.

Lemma round_sizes G nrs carry G1 :
  summing G nrs carry → bumps G G1 → length nrs < max →
  (∀ c, refs G1 c ≤ S (length nrs)) ∧
  (Z.of_nat (2 * length nrs + 5 + length (references nrs carry)) < 65536)%Z ∧
  (∀ v, v ∈ addends nrs carry → ∃ n, G1 !! v = Some n ∧ length (n_subs n) = length nrs).
Proof.
  intros HS Hb Hlen. pose proof (references_length nrs carry) as Hrl. split; [|split; [lia|]].
  - intros c. destruct Hb as (_ & _ & -> & _). by destruct HS.
  - intros v Hv. destruct (addends_order le rs1 rs2 (roots hh) E0 G0 xs Ho1 Ho2 _ _ _ v HS Hv) as (n & Hn & Hl).
    destruct Hb as [Hb _]. destruct (Hb v n Hn) as (n' & Hn' & (_ & _ & Heq)).
    exists n'. by rewrite -Heq.
Qed.

Lemma round_spec G nrs carry a L :
  summing G nrs carry → length nrs < max →
  {{ own_array p1 rs1 rest1 ∗ own_array (Some a) nrs (replicate (max - length nrs) None) ∗ own_graph G }}
    binomial_merge_round fuel h hh (Some a) (Z.of_nat (length nrs)) L carry
  {{ r, own_array p1 rs1 rest1 ∗ ((⌈ r = inr tt ⌉ ∗ undone) ∨ round_done G nrs carry a L r) }}.
Proof.
  intros HS Hlen. apply triple_wp. iIntros "(Hr & Ha & HG)". rewrite /binomial_merge_round.
  pose proof HS as [H1 H2 H3 H4 H5 H6 H7 H8].
  pose proof (references_length nrs carry) as Hrl.
  pose proof (addends_length rs1 rs2 nrs carry) as Hal.
  iApply wp_bind. iApply (root_at_spec with "Hr"); [done|done|]. iIntros "Hr".
  iApply wp_bind. iApply (other_at_spec with "HG"); [by eapply untouched_other|done|]. iIntros "HG".
  rewrite addends_ptrs.
  iApply wp_bind. replace (max - length nrs) with (S (max - S (length nrs))) by lia.
  rewrite length_fmap -(length_fmap (Some : loc → ptr)).
  iApply (triple_use with "[Ha HG]").
  { apply (store_spec h G _ a nrs (max - S (length nrs)) L (addends nrs carry) (S (length nrs)) H1);
      [|done|done|lia].
    intros v Hv. destruct (addends_order le rs1 rs2 (roots hh) E0 G0 xs Ho1 Ho2 _ _ _ v HS Hv) as (n & ? & _).
    by exists n. }
  { iFrame. }
  iIntros (r) "(%G1 & -> & %HG1 & %Hb & Ha & HG)".
  destruct (round_sizes G nrs carry G1 HS Hb Hlen) as (HK & Hov & Hord).
  pose proof (pair_stored (addends nrs carry) Hal) as Hps. set (stored := stored_of _) in *.
  assert (length (ptrs [stored] ++ references nrs carry) ≤ S (length (references nrs carry))) as Hpl.
  { rewrite length_app. pose proof (ptrs_length [stored]) as Hc. cbn [length] in Hc. lia. }
  assert (small G1) as Hsm by (eapply small_intro; [exact HG1|exact HK|lia]).
  iApply wp_bind. iApply (triple_use with "HG").
  { apply (carry_spec h Hint G1 _ (addends nrs carry) (length nrs) (S (length nrs)) HG1 Hal Hord HK). lia. }
  iIntros (r) "Hr'". destruct (pair_of (addends nrs carry)) as [|x ps] eqn:Hpair.
  - iDestruct "Hr'" as "[-> HG]". simpl.
    iApply (triple_use with "[Ha HG]"); [by apply (round_plain G nrs carry G1 a L stored)|by iFrame|].
    iIntros (r) "Hd". iFrame "Hr". by iRight.
  - iDestruct "Hr'" as "[(-> & %Hfail & HG)|(%G2 & %l & %y & %z & -> & %Hperm & %HG2 & %Hat & HG)]"; simpl.
    + iApply (triple_use with "[Ha HG]"); [apply (round_failed G nrs carry G1 a stored); try done|by iFrame|].
      { intros l Hl. rewrite Hps Hl elem_of_app. right. by left. }
      iIntros (r) "Hd". iFrame "Hr". by iLeft.
    + iApply (triple_use with "[Ha HG]"); [apply (round_merged G nrs carry G1 G2 a L stored l y z); try done|by iFrame|].
      { by rewrite Hperm -Hps. }
      { eapply (small_intro le G2 _ (S (S (length nrs)))); [exact HG2| |lia].
        intros c. pose proof (at_refs _ _ _ _ _ Hat c). specialize (HK c). lia. }
      iIntros (r) "Hd". iFrame "Hr". by iRight.
Qed.

(** *** All rounds *)

(** [L] is one more than the index of the last tree. *)
Definition tail_at (nrs : list ptr) (L : Z) : Prop := ∃ k : nat,
  L = Z.of_nat k ∧ k ≤ length nrs ∧ ptrs (drop k nrs) = [] ∧
  (0 < k → ∃ l : loc, nrs !! (k - 1) = Some (Some l)).

Lemma tail_at_snoc nrs L stored :
  tail_at nrs L →
  tail_at (nrs ++ [stored]) (if stored is Some _ then (Z.of_nat (length nrs) + 1)%Z else L).
Proof.
  intros (k & -> & Hk & Hnil & Hlast). destruct stored as [l|].
  - exists (S (length nrs)). rewrite length_app /=. split; [lia|]. split; [lia|]. split.
    + rewrite drop_ge //. rewrite length_app /=. lia.
    + intros _. exists l. rewrite Nat.sub_0_r lookup_app_r // Nat.sub_diag //.
  - exists k. rewrite length_app /=. split; [done|]. split; [lia|]. split.
    + rewrite drop_app_le // ptrs_app Hnil //.
    + intros Hpos. destruct (Hlast Hpos) as [l Hl]. exists l. by apply lookup_app_l_Some.
Qed.

Lemma addends_last nrs carry : max = S (length nrs) → length (addends nrs carry) ≤ 1.
Proof.
  intros Hlen. rewrite /BinomialMerge.addends /head_at.
  rewrite !lookup_ge_None_2; [|lia..]. destruct carry; simpl; lia.
Qed.

Lemma rounds_spec n G nrs carry a L :
  summing G nrs carry → length nrs + n = max → tail_at nrs L → (n = 0 → carry = NULL) →
  {{ own_array p1 rs1 rest1 ∗ own_array (Some a) nrs (replicate n None) ∗ own_graph G }}
    binomial_merge_rounds fuel h hh (Some a) n (Z.of_nat (length nrs)) L carry
  {{ r, own_array p1 rs1 rest1 ∗ ((⌈ r = inr tt ⌉ ∗ undone) ∨
        ∃ G' nrs' L', ⌈ r = inl L' ⌉ ∗ ⌈ summing G' nrs' NULL ⌉ ∗ ⌈ length nrs' = max ⌉ ∗
          ⌈ tail_at nrs' L' ⌉ ∗ own_array (Some a) nrs' [] ∗ own_graph G') }}.
Proof.
  revert G nrs carry L. induction n as [|n IH]; intros G nrs carry L HS Hlen Htail Hcarry;
    apply triple_wp; iIntros "(Hr & Ha & HG)"; simpl.
  { iApply wp_ret. iFrame "Hr". iRight. iExists G, nrs, L. rewrite -(Hcarry eq_refl). iFrame.
    iPureIntro. split_and!; [done|done|lia|done]. }
  iApply wp_bind. iApply (triple_use with "[Hr Ha HG]"); [apply (round_spec G nrs carry a L HS); lia| |].
  { iFrame. by replace (max - length nrs) with (S n) by lia. }
  iIntros (r) "(Hr & [[-> Hu]|(%G' & %stored & %carry' & -> & %HS' & %Hnull & Ha & HG)])"; simpl.
  { iApply wp_ret. iFrame "Hr". iLeft. by iFrame. }
  replace (length rs1 `max` length rs2 - length nrs) with n by lia.
  assert (length (nrs ++ [stored]) = S (length nrs)) as Hlen' by (rewrite length_app /=; lia).
  replace (Z.of_nat (length nrs) + 1)%Z with (Z.of_nat (length (nrs ++ [stored]))) by lia.
  iApply (triple_use with "[Hr Ha HG]"); [apply IH; [exact HS'|lia| |]|by iFrame|by iIntros (r) "$"].
  - pose proof (tail_at_snoc nrs L stored Htail) as Ht.
    by replace (Z.of_nat (length nrs) + 1)%Z with (Z.of_nat (length (nrs ++ [stored]))) in Ht by lia.
  - intros ->. apply Hnull, addends_last. lia.
Qed.

(** *** The whole function *)

(** The result of a merge. *)
Record merged (G : graph) (rs : list ptr) : Prop := {
  me_wf : wf le G (ptrs rs ++ E0);
  me_live : live G None;
  me_small : small G;
  me_order : order_at G rs;
  me_last : rs = [] ∨ ∃ l : loc, last rs = Some (Some l);
  me_NoDup : NoDup (forest G (ptrs rs)).*1;
  me_values : (forest G (ptrs rs)).*2 ≡ₚ xs;
  me_keep l n : l ∈ E0 → G0 !! l = Some n → ∃ n', G !! l = Some n' ∧ same n n'
}.

Lemma summing_merged G nrs k G' :
  summing G nrs NULL → length nrs = max → k ≤ length nrs → ptrs (drop k nrs) = [] →
  (0 < k → ∃ l : loc, nrs !! (k - 1) = Some (Some l)) → shrinks G G' →
  small G' → wf le G' (E0 ++ ptrs nrs) → merged G' (take k nrs).
Proof.
  intros HS Hlen Hk Hnil Hlast Hs Hsm HG'. pose proof HS as [H1 H2 H3 H4 H5 H6 H7 H8].
  assert (ptrs (take k nrs) = ptrs nrs) as Htake.
  { by rewrite -{2}(take_drop k nrs) ptrs_app Hnil right_id_L. }
  assert (evolves G G') as Hev.
  { eapply evolves_steps; [apply keeps_refl|exact Hs|apply bumps_refl]. }
  assert (BinomialSum.left_roots rs1 rs2 nrs NULL = ptrs nrs) as Hleft.
  { rewrite /BinomialSum.left_roots Hlen !drop_ge; [|lia..]. by rewrite /= !right_id_L. }
  assert (forest G' (ptrs nrs) = forest G (ptrs nrs)) as Hforest.
  { eapply forest_agree; [exact H1|exact HG'|done|by apply order_at_alive|].
    intros l Hl. apply (wf_ext _ _ _ HG'), elem_of_app. by right. }
  rewrite Hleft in H7 H8. split; rewrite ?Htake ?Hforest //.
  - by rewrite (comm (++)).
  - by eapply shrinks_live.
  - intros i l Hi. apply lookup_take_Some in Hi as [Hi _]. destruct (H4 i l Hi) as (n & Hn & Hl).
    destruct (wf_ext _ _ _ HG' l) as [n' Hn'].
    { apply elem_of_app. right. apply elem_of_ptrs. by eapply list_elem_of_lookup_2. }
    exists n'. split; [done|]. by destruct (Hev l n n' Hn Hn') as (_ & _ & <-).
  - destruct k as [|k]; [by left|]. right. destruct Hlast as [l Hl]; [lia|]. exists l.
    rewrite last_lookup length_take_le // /=. rewrite lookup_take_lt; [|lia].
    by replace (S k - 1) with k in Hl by lia.
  - intros l n Hl Hn. destruct (un_keep _ _ _ _ H6 l n) as (n1 & Hn1 & Hs1);
      [apply elem_of_app; by right|done|].
    destruct (wf_ext _ _ _ HG' l) as [n' Hn']; [apply elem_of_app; by left|].
    exists n'. split; [done|]. trans n1; [done|by eapply Hev].
Qed.

(** The old roots are dropped. *)
Lemma drop_roots_spec G E :
  wf le G (ptrs rs1 ++ E) → small G → order_at G rs1 →
  {{ own_array p1 rs1 rest1 ∗ own_graph G }}
    for_loop (Z.to_nat (roots_length h)) 0 (λ i _,
      tree ← read_root (roots h) i;
      match tree with NULL => mret tt | Some _ => binomial_tree_unref fuel tree end) tt
  {{ _, own_array p1 rs1 rest1 ∗ ∃ G', ⌈ wf le G' E ⌉ ∗ ⌈ shrinks G G' ⌉ ∗ own_graph G' }}.
Proof.
  intros HG Hs Ho. apply triple_wp. iIntros "Ha". rewrite Hr1 Hl1 Nat2Z.id.
  iApply (triple_use with "Ha").
  { apply (unref_loop le fuel (own_array p1 rs1 rest1) _ rs1 0 G E); try done.
    - by apply unref_all.
    - lia.
    - intros i x Φ _ Hx. rewrite Nat.sub_0_r in Hx. iIntros "Ha HΦ". iApply wp_bind.
      iApply (wp_read_array with "Ha"); [done|]. iIntros "Ha". iSpecialize ("HΦ" with "Ha").
      destruct x; [done|]. by destruct fuel; [lia|].
    - intros l n [i Hi]%elem_of_ptrs%list_elem_of_lookup Hl.
      destruct (Ho i l Hi) as (n' & Hn' & Hi'). simplify_eq. apply lookup_lt_Some in Hi. lia. }
  by iIntros ([]) "Ha".
Qed.

(** Either nothing has changed for the caller, or the first heap holds the
    trees of both. *)
Lemma merge_spec :
  live G0 None → NoDup (forest G0 (ptrs rs1 ++ E0)).*1 →
  NoDup (forest G0 (ptrs rs1 ++ ptrs rs2)).*1 → (forest G0 (ptrs rs1 ++ ptrs rs2)).*2 ≡ₚ xs →
  {{ own_array p1 rs1 rest1 ∗ own_graph G0 }} binomial_heap_merge fuel h hh
  {{ r, (⌈ r = (0%Z, h) ⌉ ∗ own_array p1 rs1 rest1 ∗ undone) ∨
        ∃ G' a rs' rest', ⌈ r = (1%Z, set_roots (ArrayAt (Some a)) (Z.of_nat (length rs')) h) ⌉ ∗
          ⌈ merged G' rs' ⌉ ∗ own_array (Some a) rs' rest' ∗ own_graph G' }}.
Proof.
  intros Hlive Hnd0 Hnd Hxs. apply triple_wp. iIntros "[Hr HG]". rewrite /binomial_heap_merge.
  assert (∀ Φ : Z → hProp bcell, Φ (Z.of_nat max) ⊢ wp (if bool_decide (roots_length h > roots_length hh)%Z
    then chk (roots_length h + 1)%Z else chk (roots_length hh + 1)%Z) Φ) as Hmax.
  { intros Φ. iIntros "HΦ". rewrite Hl1 Hl2. case_bool_decide; (iApply wp_chk; [int_tac|]);
      (lazymatch goal with |- envs_entails _ (Φ ?z) => replace z with (Z.of_nat max) by lia end; done). }
  iApply wp_bind. iApply Hmax. iApply wp_bind. iApply wp_malloc_roots. rewrite Nat2Z.id.
  iIntros ([a|]) "Ha"; last first.
  { iApply wp_ret. iLeft. iSplit; [done|]. iFrame "Hr". iDestruct "Ha" as %Hf. iSplit; [done|].
    iExists G0. iFrame. iPureIntro. split_and!; [done|done| |].
    - split; [|done]. intros l n _ Hn. by exists n.
    - eapply (small_intro le _ _ 1); [exact HG0|intros c; by apply (refs_one le G0 (ptrs rs1 ++ E0))|].
      rewrite length_app. pose proof (ptrs_length rs1). lia. }
  iApply wp_bind. iApply (triple_use with "[Hr Ha HG]").
  { apply (rounds_spec max G0 [] NULL a 0); [|done| |done].
    2: { exists 0. split_and!; [done|simpl; lia|done|lia]. }
    apply sum_start; try done. intros c. by apply (refs_one le G0 (ptrs rs1 ++ E0)). }
  { iFrame. }
  iIntros (r) "(Hr & [[-> Hu]|(%G' & %nrs & %L & -> & %HS & %Hlen & %Htail & Ha & HG)])"; simpl.
  { iApply wp_ret. iLeft. by iFrame. }
  destruct Htail as (k & -> & Hk & Hnil & Hlast). pose proof HS as [H1 H2 H3 H4 H5 H6 H7 H8].
  assert (references nrs NULL = ptrs rs1 ++ (E0 ++ ptrs nrs)) as Href.
  { by rewrite /BinomialSum.references /= right_id_L. }
  pose proof (references_length nrs NULL) as Hrl. rewrite Href in H1 Hrl.
  iAssert (own_array (Some a) (take k nrs) (Some <$> drop k nrs : list (option ptr))) with "[Ha]" as "Ha".
  { by rewrite /own_array right_id_L -fmap_app take_drop. }
  assert (small G') as Hsm by (eapply (small_intro le _ _ (S max)); [exact H1| |lia]; by rewrite -Hlen).
  iApply wp_bind. iApply (triple_use with "[Hr HG]").
  { apply (drop_roots_spec G' _ H1 Hsm). by eapply untouched_order1. }
  { iFrame. }
  iIntros ([]) "(Hr & %G2 & %HG2 & %Hs2 & HG)". rewrite Hr1. iApply wp_bind.
  iApply (wp_free_array with "Hr"). iApply wp_ret. iRight.
  iExists G2, a, (take k nrs), (Some <$> drop k nrs : list (option ptr)). iFrame. iPureIntro. split.
  - by rewrite length_take_le.
  - apply (summing_merged G' nrs k G2); try done. by eapply shrinks_small.
Qed.
End rounds.
