(* ===== verification/BinomialOps.v ===== *)
(** * BinomialOps: the operations of binomial-heap.c

    [stable] describes the trees of a heap between two calls: a forest without
    sharing whose [i]-th tree has order [i], every counter being the number of
    references.  An insertion or a removal is one merge (BinomialMerge) between two
    stable states. *)
From stdpp Require Import base gmap list numbers.
From iris.proofmode Require Import proofmode environments.
From S2P Require Import Prelude Memory Compare BinomialHeap BinomialGraph BinomialRefs BinomialSum.
From S2P Require Import BinomialMerge.

(** ** Stable states *)

Section stable.
Context (le : value → value → Prop) `{!PreOrder le}.
Implicit Types (G : graph) (E : list loc) (rs : list ptr).

(** The roots [rs] hold the values [xs]; [E] are further references. *)
Record stable E G rs (xs : list value) : Prop := {
  st_wf : wf le G (ptrs rs ++ E);
  st_live : live G None;
  st_order : order_at G rs;
  st_last : rs = [] ∨ ∃ l : loc, last rs = Some (Some l);
  st_NoDup : NoDup (forest G (ptrs rs)).*1;
  st_values : (forest G (ptrs rs)).*2 ≡ₚ xs
}.

Lemma merged_stable h E0 G0 xs G rs :
  le = cmp_le (heap_order h) → merged h E0 G0 xs G rs → stable E0 G rs xs.
Proof. intros Hle []. split; rewrite ?Hle //. Qed.

(** References are dropped. *)
Lemma stable_shrinks E E' G G' rs xs :
  stable E G rs xs → shrinks G G' → wf le G' (ptrs rs ++ E') → stable E' G' rs xs.
Proof.
  intros [H1 H2 H3 H4 H5 H6] Hs HG'.
  assert (evolves G G') as Hev.
  { eapply evolves_steps; [apply keeps_refl|exact Hs|apply bumps_refl]. }
  assert (forest G' (ptrs rs) = forest G (ptrs rs)) as Hf.
  { eapply forest_agree; [exact H1|exact HG'|done|by apply order_at_alive|].
    intros l Hl. apply (wf_ext _ _ _ HG'), elem_of_app. by left. }
  split; rewrite ?Hf //; [by eapply shrinks_live|].
  intros i l Hi. destruct (H3 i l Hi) as (n & Hn & Hlen).
  destruct (wf_ext _ _ _ HG' l) as [n' Hn'].
  { apply elem_of_app. left. apply elem_of_ptrs. by eapply list_elem_of_lookup_2. }
  exists n'. split; [done|]. by destruct (Hev l n n' Hn Hn') as (_ & _ & <-).
Qed.

(** A merge that was undone. *)
Lemma untouched_stable rs1 E0 E G0 G rs xs :
  stable E G0 rs xs → ptrs rs ⊆ ptrs rs1 ++ E0 → untouched rs1 E0 G0 G →
  wf le G (ptrs rs ++ E) → live G None → stable E G rs xs.
Proof.
  intros [H1 H2 H3 H4 H5 H6] Hsub [Hk Hn] HG Hl.
  assert (forest G (ptrs rs) = forest G0 (ptrs rs)) as Hf.
  { apply bind_ext_elem. intros l Hin. by apply Hn, Hsub. }
  split; rewrite ?Hf //. intros i l Hi. destruct (H3 i l Hi) as (n & Hln & Hlen).
  destruct (Hk l n) as (n' & ? & (_ & _ & Heq)); [|done|exists n'; by rewrite -Heq].
  apply Hsub, elem_of_ptrs. by eapply list_elem_of_lookup_2.
Qed.

(** A new tree of order 0. *)
Lemma stable_leaf G rs xs l v a :
  stable [] G rs xs → G !! l = None →
  let G0 := <[l := BNode v 1 a []]> G in
  stable [l] G0 rs xs ∧ NoDup (forest G0 (ptrs rs ++ [l])).*1 ∧
  (forest G0 (ptrs rs ++ [l])).*2 ≡ₚ v :: xs.
Proof.
  intros [H1 H2 H3 H4 H5 H6] Hl G0. rewrite right_id_L in H1.
  pose proof (order_at_alive _ _ H3) as Hal.
  assert (l ∉ ptrs rs) as Hnin.
  { intros Hin. destruct (Hal l Hin) as [n Hn]. congruence. }
  assert (refs G l = 0) as Hr0.
  { destruct (refs G l) as [|k] eqn:Hr; [done|]. destruct (refs_parent G l) as (l' & n & Hn & Hin); [lia|].
    destruct (wf_sub_elem _ _ _ _ _ _ H1 Hn Hin) as (nc & ? & _). congruence. }
  assert (wf le G0 (ptrs rs ++ [l])) as HG0.
  { split.
    - intros l' n'. rewrite lookup_insert refs_insert // occ_app occ_cons. case_decide as Hc.
      + intros [= <-]. subst. rewrite Hr0 /=.
        assert (occ l' (ptrs rs) = 0) as ->; [|done]. rewrite occ_elem in Hnin. lia.
      + intros Hn'. rewrite (wf_rc _ _ _ H1 l' n' Hn') /=. change (occ l' []) with 0. lia.
    - intros l' [Hin|Hin%list_elem_of_singleton]%elem_of_app; subst.
      + rewrite lookup_insert_ne; [by apply Hal|]. by intros ->.
      + rewrite lookup_insert_eq. by eexists.
    - intros l' n' i c. rewrite lookup_insert. case_decide; [by intros [= <-]|].
      intros Hn' Hi. destruct (wf_sub _ _ _ H1 _ _ _ _ Hn' Hi) as (nc & ? & ? & ?). exists nc.
      rewrite lookup_insert_ne //. by intros ->; congruence. }
  assert (forest G0 (ptrs rs) = forest G (ptrs rs)) as Hf.
  { eapply (forest_agree le G _ G0); [exact H1|exact HG0| |done|].
    - intros l' n n' Hn. rewrite lookup_insert_ne; [by intros ?; simplify_eq|]. intros ->; congruence.
    - intros l' Hin. apply (wf_ext _ _ _ HG0), elem_of_app. by left. }
  assert (forest G0 [l] = [(l, v)]) as Hfl.
  { rewrite forest_cons (tree_nodes_unfold le G0 _ l (BNode v 1 a []) HG0) ?lookup_insert_eq //. }
  rewrite !forest_app Hf Hfl !fmap_app. split; [split|split]; rewrite ?Hf //.
  - intros l' n'. rewrite lookup_insert. case_decide; [by intros [= <-]|]. intros. by eapply H2.
  - intros i l' Hi. destruct (H3 i l' Hi) as (n & Hn & ?). exists n. rewrite lookup_insert_ne //.
    intros ->; congruence.
  - apply NoDup_app. split; [done|]. split; [|apply NoDup_singleton].
    intros x Hx ->%list_elem_of_singleton.
    destruct (forest_alive le G _ _ l H1 Hal Hx) as [n Hn]. congruence.
  - rewrite (comm (++)) /=. by rewrite H6.
Qed.

(** The number of roots. *)
Lemma stable_length E G rs xs :
  stable E G rs xs → rs ≠ [] → 2 ^ (length rs - 1) ≤ length xs.
Proof.
  intros [H1 H2 H3 H4 H5 H6] Hne. destruct H4 as [|[l Hlast]]; [done|].
  rewrite last_lookup in Hlast. replace (pred (length rs)) with (length rs - 1) in Hlast by lia.
  destruct (H3 _ _ Hlast) as (n & Hn & Hlen).
  rewrite -H6 length_fmap -Hlen -(tree_nodes_length le G _ l n H1 Hn).
  assert (l ∈ ptrs rs) as (l1 & l2 & ->)%list_elem_of_split.
  { apply elem_of_ptrs. by eapply list_elem_of_lookup_2. }
  rewrite forest_app forest_cons !length_app. lia.
Qed.

Lemma stable_roots E G rs xs :
  stable E G rs xs → (Z.of_nat (length xs) ≤ INT_MAX)%Z → length rs ≤ 31.
Proof.
  intros HS Hle. destruct (decide (rs = [])) as [->|Hne]; [simpl; lia|].
  pose proof (stable_length _ _ _ _ HS Hne) as Hp.
  assert (length rs - 1 < 31); [|lia].
  apply (Nat.pow_lt_mono_r_iff 2); [lia|].
  assert (Z.of_nat (2 ^ 31) = 2147483648)%Z as H31 by (rewrite Nat2Z.inj_pow //).
  unfold INT_MAX in Hle. lia.
Qed.
End stable.

(** ** The heap in memory *)

Definition binomial (h : BinomialHeap) (xs : list value) : hProp bcell :=
  (∃ p rs rest G, ⌈ roots h = ArrayAt p ∧ roots_length h = Z.of_nat (length rs) ∧
     num_values h = Z.of_nat (length xs) ⌉ ∗
   ⌈ stable (cmp_le (heap_order h)) [] G rs xs ⌉ ∗ own_array p rs rest ∗ own_graph G)%I.

(** The settings of the heap stay. *)
Definition same_heap (h h' : BinomialHeap) : Prop :=
  heap_type h' = heap_type h ∧ compare_func h' = compare_func h.

Section operations.
Context `{Allocator bcell}.
Context (h : BinomialHeap) `{!CompareFunc (compare_func h)} (Hint : cmp_int h).
(** More than any number of roots. *)
Context (fuel : nat) (Hfuel : 33 ≤ fuel).
Let le := cmp_le (heap_order h).

Lemma binomial_intro h' p rs rest G xs :
  same_heap h h' → roots h' = ArrayAt p → roots_length h' = Z.of_nat (length rs) →
  num_values h' = Z.of_nat (length xs) → stable le [] G rs xs →
  own_array p rs rest -∗ own_graph G -∗ binomial h' xs.
Proof.
  iIntros ([Ht Hc] Hp Hl Hn HS) "Ha HG". iExists p, rs, rest, G. iFrame. iPureIntro.
  split; [done|]. rewrite /heap_order Ht Hc. exact HS.
Qed.

Lemma stable_small E G rs xs :
  stable le E G rs xs → NoDup (forest G (ptrs rs ++ E)).*1 → (Z.of_nat (length xs) ≤ INT_MAX)%Z →
  length E ≤ 100 → small G.
Proof.
  intros HS Hnd Hn HE. pose proof (stable_roots _ _ _ _ _ HS Hn) as Hrs.
  eapply (small_intro le G _ 1); [by destruct HS| |].
  - intros c. eapply (refs_one le); [by destruct HS|by destruct HS|done].
  - rewrite length_app. pose proof (ptrs_length rs). lia.
Qed.

(** The last reference of the caller is dropped. *)
Lemma drop_tree_spec l n G rs xs :
  stable le [l] G rs xs → small G → G !! l = Some n → length (n_subs n) < fuel →
  {{ own_graph G }} binomial_tree_unref fuel (Some l)
  {{ _, ∃ G', ⌈ stable le [] G' rs xs ⌉ ∗ own_graph G' }}.
Proof.
  intros HS Hsm Hl Hord. apply triple_wp. iIntros "HG".
  iApply (triple_use with "HG").
  { apply (unref_all le fuel G l n (ptrs rs)); try done.
    destruct HS as [HG _ _ _ _ _]. by rewrite (comm (++)) in HG. }
  iIntros (_) "(%G' & %HG' & %Hs & HG)". iExists G'. iFrame. iPureIntro.
  eapply stable_shrinks; [exact HS|done|by rewrite right_id_L].
Qed.

Lemma insert_finish h' xs l n p G rs rest (r : Z) :
  same_heap h h' → roots h' = ArrayAt p → roots_length h' = Z.of_nat (length rs) →
  num_values h' = Z.of_nat (length xs) → stable le [l] G rs xs → small G →
  G !! l = Some n → length (n_subs n) < fuel →
  {{ own_array p rs rest ∗ own_graph G }}
    (_ ← binomial_tree_unref fuel (Some l); mret (r, h'))
  {{ r', ⌈ r' = (r, h') ⌉ ∗ binomial h' xs }}.
Proof.
  intros Hs Hp Hl Hn HS Hsm Hln Hord. apply triple_wp. iIntros "[Ha HG]". iApply wp_bind.
  iApply (triple_use with "HG"); [by apply (drop_tree_spec l n G rs xs)|].
  iIntros (_) "(%G' & %HS' & HG)". iApply wp_ret. iSplit; [done|].
  by iApply (binomial_intro with "Ha HG").
Qed.

Lemma insert_spec xs v :
  (Z.of_nat (length xs) < INT_MAX)%Z →
  {{ binomial h xs }} binomial_heap_insert fuel h v
  {{ r, (⌈ r.1 = 1%Z ⌉ ∗ ⌈ same_heap h r.2 ⌉ ∗ binomial r.2 (v :: xs)) ∨
        (⌈ r = (0%Z, h) ⌉ ∗ ⌈ can_fail ⌉ ∗ binomial h xs) }}.
Proof.
  intros Hmax. apply triple_wp. iIntros "(%p & %rs & %rest & %G & (%Hr & %Hl & %Hn) & %HS & Ha & HG)".
  pose proof (stable_roots _ _ _ _ _ HS (Z.lt_le_incl _ _ Hmax)) as Hrs.
  rewrite /binomial_heap_insert. iApply wp_bind. iApply wp_malloc_tree. iIntros ([l|]) "Hl"; last first.
  { iDestruct "Hl" as %Hf. iApply wp_ret. iRight. iSplit; [done|]. iSplit; [done|].
    by iApply (binomial_intro with "Ha HG"). }
  iDestruct "Hl" as (t) "Hl". iDestruct (graph_fresh with "Hl HG") as %Hfresh.
  do 4 (iApply wp_bind; iApply (wp_modify_tree with "Hl"); iIntros "Hl"). simpl.
  destruct (stable_leaf le G rs xs l v NULL HS Hfresh) as (HS0 & Hnd & Hv).
  set (n := BNode v 1 NULL []) in *. set (G0 := <[l := n]> G) in *.
  iAssert (own_graph G0) with "[Hl HG]" as "HG".
  { iApply (graph_put with "[Hl] HG"); [done|]. rewrite /own_node /=. by iFrame. }
  set (hh := {| heap_type := _ |}). pose proof HS0 as [HG0 Hlive0 Ho0 _ _ _].
  iApply wp_bind. iApply (triple_use with "[Ha HG]").
  { apply (merge_spec h hh Hint rs [Some l] [l] G0 (v :: xs) p fuel HG0 Ho0); try done.
    - exists l, n. rewrite lookup_insert_eq. split_and!; [done|done|by left|done|done].
    - simpl. lia.
    - simpl. lia. }
  { iFrame. }
  iIntros (r) "[(-> & Ha & %Hf & (%G' & %HG' & %Hlive & %Hun & %Hsm & HG))|
    (%G' & %a & %rs' & %rest' & -> & %Hme & Ha & HG)]".
  - iApply wp_bind. iApply wp_ret.
    assert (stable le [l] G' rs xs) as HS'.
    { eapply (untouched_stable le rs [l] [l] G0); try done. intros x Hx. apply elem_of_app. by left. }
    destruct (un_keep _ _ _ _ Hun l n) as (n' & Hn' & (_ & _ & Hsub)).
    { apply elem_of_app. right. by left. } { apply lookup_insert_eq. }
    iApply (triple_use with "[Ha HG]").
    { apply (insert_finish h xs l n' p G' rs rest 0); try done. rewrite -Hsub /=. lia. }
    { iFrame. }
    iIntros (r) "(-> & H)". iRight. by iFrame.
  - pose proof (merged_stable le _ _ _ _ _ _ eq_refl Hme) as HS'.
    destruct (me_keep _ _ _ _ _ _ Hme l n) as (n' & Hn' & (_ & _ & Hsub)); [by left|apply lookup_insert_eq|].
    iApply wp_bind. simpl. iApply wp_bind. iApply wp_chk; [int_tac|]. iApply wp_ret.
    iApply (triple_use with "[Ha HG]").
    { apply (insert_finish _ (v :: xs) l n' (Some a) G' rs' rest' 1); try done.
      - simpl. lia.
      - by destruct Hme.
      - rewrite -Hsub /=. lia. }
    { iFrame. }
    iIntros (r) "(-> & H)". iLeft. by iFrame.
Qed.

(** *** The least root *)

(** The index [z] of a least root among the first [i], -1 when there is none. *)
Definition least_upto (G : graph) (rs : list ptr) (i : nat) (z : Z) : Prop :=
  (z = (-1)%Z ∧ ptrs (take i rs) = []) ∨
  ∃ (j : nat) (l : loc) n, z = Z.of_nat j ∧ rs !! j = Some (Some l) ∧ G !! l = Some n ∧
    ∀ (l' : loc) n', l' ∈ ptrs (take i rs) → G !! l' = Some n' → le (n_value n) (n_value n').

Lemma take_ptrs rs i (x : ptr) : rs !! i = Some x → ptrs (take (S i) rs) = ptrs (take i rs) ++ ptrs [x].
Proof. intros Hx. by rewrite (take_S_r _ _ x) // ptrs_app. Qed.

Lemma least_upto_next G rs i z l n (least : Z) :
  rs !! i = Some (Some l) → G !! l = Some n → least_upto G rs i z →
  least = (match z with Zneg _ => Z.of_nat i | _ => least end) →
  (∀ j l' n', z = Z.of_nat j → rs !! j = Some (Some l') → G !! l' = Some n' →
    least = if bool_decide (heap_order h (n_value n) (n_value n') < 0)%Z then Z.of_nat i else z) →
  least_upto G rs (S i) least.
Proof.
  intros Hi Hl Hz Hneg Hpos. right. destruct Hz as [[-> Hnil]|(j & l' & n' & -> & Hj & Hl' & Hle)].
  - exists i, l, n. split_and!; [done|done|done|]. intros x nx. rewrite (take_ptrs _ _ (Some l)) // Hnil.
    intros ->%list_elem_of_singleton. rewrite Hl. by intros [= <-].
  - specialize (Hpos j l' n' eq_refl Hj Hl'). case_bool_decide as Hc; subst least.
    + exists i, l, n. split_and!; [done|done|done|]. intros x nx. rewrite (take_ptrs _ _ (Some l)) //.
      intros [Hx| ->%list_elem_of_singleton]%elem_of_app Hnx; [|by simplify_eq].
      trans (n_value n'); [|by eapply Hle]. rewrite /le /cmp_le. lia.
    + exists j, l', n'. split_and!; [done|done|done|]. intros x nx. rewrite (take_ptrs _ _ (Some l)) //.
      intros [Hx| ->%list_elem_of_singleton]%elem_of_app Hnx; [by eapply Hle|]. simplify_eq.
      rewrite /le /cmp_le. by apply cmp_flip_le; [apply _|lia].
Qed.

Lemma lesser_spec p rs rest G i z :
  roots h = ArrayAt p → alive G (ptrs rs) → i < length rs → least_upto G rs i z →
  {{ own_array p rs rest ∗ own_graph G }} binomial_heap_lesser h (Z.of_nat i) z
  {{ z', ⌈ least_upto G rs (S i) z' ⌉ ∗ own_array p rs rest ∗ own_graph G }}.
Proof.
  intros Hr Hal Hi Hz. apply triple_wp. iIntros "[Ha HG]". rewrite /binomial_heap_lesser Hr.
  destruct (lookup_lt_is_Some_2 rs i) as [x Hx]; [done|].
  iApply wp_bind. iApply (wp_read_array with "Ha"); [done|]. iIntros "Ha".
  destruct x as [l|]; last first.
  { iApply wp_ret. iFrame. iPureIntro.
    rewrite /least_upto (take_ptrs _ _ NULL) //. change (ptrs [NULL]) with ([] : list loc).
    by rewrite right_id_L. }
  destruct (Hal l) as [n Hn]; [apply elem_of_ptrs; by eapply list_elem_of_lookup_2|].
  destruct Hz as [[-> Hnil]|(j & l' & n' & -> & Hj & Hl' & Hle)].
  - rewrite bool_decide_eq_true_2 //. iApply wp_ret. iFrame. iPureIntro.
    eapply (least_upto_next G rs i (-1)); try done; [by left|]. intros j; lia.
  - rewrite bool_decide_eq_false_2; [|lia]. iApply wp_bind.
    iApply (wp_graph_deref with "HG"); [done|]. iIntros "HG". iApply wp_bind.
    iApply (wp_read_array with "Ha"); [done|]. iIntros "Ha". iApply wp_bind.
    iApply (wp_graph_deref with "HG"); [done|]. iIntros "HG". iApply wp_bind.
    iApply wp_heap_cmp; [done|]. simpl. iApply wp_ret. iFrame. iPureIntro.
    eapply (least_upto_next G rs i (Z.of_nat j)); try done; [right; by exists j, l', n'|by destruct j|].
    intros j' l2 n2 ->%Nat2Z.inj ? ?. by simplify_eq.
Qed.

Lemma least_loop p rs rest G k i z :
  roots h = ArrayAt p → alive G (ptrs rs) → i + k = length rs → least_upto G rs i z →
  {{ own_array p rs rest ∗ own_graph G }} for_loop k (Z.of_nat i) (binomial_heap_lesser h) z
  {{ z', ⌈ least_upto G rs (length rs) z' ⌉ ∗ own_array p rs rest ∗ own_graph G }}.
Proof.
  intros Hr Hal. revert i z. induction k as [|k IH]; intros i z Hk Hz; apply triple_wp; iIntros "H"; simpl.
  { iApply wp_ret. iFrame. iPureIntro. by replace (length rs) with i by lia. }
  iApply wp_bind. iApply (triple_use with "H"); [apply (lesser_spec p rs rest G i z Hr Hal); [lia|done]|].
  iIntros (z') "[%Hz' H]". replace (Z.of_nat i + 1)%Z with (Z.of_nat (S i)) by lia.
  iApply (triple_use with "H"); [apply (IH (S i) z'); [lia|done]|by iIntros (z'') "$"].
Qed.

(** *** Removal *)
Lemma ptrs_take_out rs j (l : loc) :
  rs !! j = Some (Some l) → ptrs rs ≡ₚ ptrs (<[j := NULL]> rs) ++ [l].
Proof.
  intros Hj. pose proof (lookup_lt_Some _ _ _ Hj) as Hlt.
  rewrite (insert_take_drop rs j NULL Hlt) -{1}(take_drop_middle rs j (Some l) Hj) !ptrs_app.
  change (Some l :: drop (S j) rs) with ([Some l] ++ drop (S j) rs).
  change (NULL :: drop (S j) rs) with ([NULL] ++ drop (S j) rs). rewrite !ptrs_app.
  change (ptrs [Some l]) with [l]. change (ptrs [NULL]) with ([] : list loc). perm_occ.
Qed.

(** The values left when a least root goes. *)
Lemma least_removed G rs xs j (l : loc) n :
  stable le [] G rs xs → rs !! j = Some (Some l) → G !! l = Some n →
  (∀ (l' : loc) n', l' ∈ ptrs rs → G !! l' = Some n' → le (n_value n) (n_value n')) →
  let left := ptrs (<[j := NULL]> rs) ++ n_subs n in
  NoDup (forest G left).*1 ∧ xs ≡ₚ n_value n :: (forest G left).*2 ∧
  Forall (le (n_value n)) (forest G left).*2.
Proof.
  intros [H1 H2 H3 H4 H5 H6] Hj Hl Hle left. rewrite right_id_L in H1.
  assert (forest G (ptrs rs) ≡ₚ (l, n_value n) :: forest G left) as Hf.
  { rewrite (ptrs_take_out rs j l) // (comm (++)) forest_cons (tree_nodes_unfold le G _ l n H1 Hl).
    rewrite /= /left forest_app. by rewrite (comm (++)). }
  split_and!.
  - rewrite Hf in H5. by apply NoDup_cons in H5 as [_ ?].
  - by rewrite -H6 Hf.
  - apply Forall_forall. intros y Hy.
    assert (y ∈ (forest G (ptrs rs)).*2) as Hin by (rewrite Hf; by right).
    rewrite /forest fmap_of_bind in Hin. apply list_elem_of_bind in Hin as (l' & Hy' & Hl').
    destruct (order_at_alive _ _ H3 l' Hl') as [n' Hn'].
    trans (n_value n'); [by eapply Hle|]. exact (tree_nodes_order le G _ l' n' y H1 Hn' Hy').
Qed.

Lemma wp_set_root a rs rest j x (Φ : unit → hProp bcell) :
  j < length rs → own_array (Some a) rs rest -∗
  (own_array (Some a) (<[j := x]> rs) rest -∗ Φ tt) -∗
  wp (write_root (Some a) (Z.of_nat j) x) Φ.
Proof.
  iIntros (Hj) "Ha HΦ". iApply (wp_write_array with "Ha"); [rewrite length_app length_fmap; lia|].
  iIntros "Ha". iApply "HΦ". rewrite /own_array list_fmap_insert insert_app_l // length_fmap //.
Qed.

Definition popped (xs : list value) (r : value * BinomialHeap) : hProp bcell :=
  match xs with
  | [] => ⌈ r = (VNULL, h) ⌉ ∗ binomial h []
  | _ => (⌈ r = (VNULL, h) ⌉ ∗ ⌈ can_fail ⌉ ∗ binomial h xs) ∨
         ∃ rest, ⌈ xs ≡ₚ r.1 :: rest ⌉ ∗ ⌈ Forall (cmp_le (heap_order h) r.1) rest ⌉ ∗
           ⌈ same_heap h r.2 ⌉ ∗ binomial r.2 rest
  end%I.

(** The merge of the other trees with the subtrees of the least one. *)
Lemma pop_merge_spec a rs rest G xs j (l : loc) n (num : Z) :
  let left := ptrs (<[j := NULL]> rs) ++ n_subs n in
  let hh := {| heap_type := heap_type h; compare_func := compare_func h; num_values := num;
               roots := ArrayAt (n_arr n); roots_length := Z.of_nat (length (n_subs n)) |} in
  roots h = ArrayAt (Some a) → roots_length h = Z.of_nat (length rs) → length rs ≤ 31 →
  stable le [] G rs xs → rs !! j = Some (Some l) → G !! l = Some n →
  NoDup (forest G left).*1 →
  {{ own_array (Some a) (<[j := NULL]> rs) rest ∗ own_graph G }} binomial_heap_merge fuel h hh
  {{ r, (⌈ r = (0%Z, h) ⌉ ∗ ⌈ can_fail ⌉ ∗ own_array (Some a) (<[j := NULL]> rs) rest ∗
         ∃ G', ⌈ stable le [] G' rs xs ⌉ ∗ own_graph G') ∨
        ∃ G' b rs' rest' n',
          ⌈ r = (1%Z, set_roots (ArrayAt (Some b)) (Z.of_nat (length rs')) h) ⌉ ∗
          ⌈ stable le [l] G' rs' (forest G left).*2 ⌉ ∗ ⌈ small G' ⌉ ∗ ⌈ G' !! l = Some n' ⌉ ∗
          ⌈ same n n' ⌉ ∗ own_array (Some b) rs' rest' ∗ own_graph G' }}.
Proof.
  intros left hh Hr Hl Hlen HS Hj Hln Hnd. pose proof HS as [H1 H2 H3 H4 H5 H6].
  pose proof (lookup_lt_Some _ _ _ Hj) as Hlt. pose proof (ptrs_take_out rs j l Hj) as Hp.
  assert (length (n_subs n) = j) as Hsubs.
  { destruct (H3 _ _ Hj) as (n' & Hn' & <-). by simplify_eq. }
  rewrite right_id_L in H1. assert (wf le G (ptrs (<[j := NULL]> rs) ++ [l])) as HG by by rewrite -Hp.
  apply triple_wp. iIntros "H". iApply (triple_use with "H").
  { apply (merge_spec h hh Hint (<[j := NULL]> rs) (Some <$> n_subs n) [l] G (forest G left).*2
      (Some a) fuel HG); rewrite ?ptrs_Some //.
    - intros i x. rewrite list_lookup_insert. case_decide; [by intros [=]|]. apply H3.
    - exists l, n. split_and!; [by left|done|done|done].
    - by rewrite length_insert.
    - by rewrite length_fmap.
    - rewrite length_insert length_fmap. lia.
    - rewrite length_insert length_fmap /=. lia.
    - by rewrite -Hp. }
  iIntros (r) "[(-> & Ha & %Hf & (%G' & %HG' & %Hlive & %Hun & %Hsm & HG))|
    (%G' & %b & %rs' & %rest' & -> & %Hme & Ha & HG)]".
  - iLeft. iFrame "Ha". iSplit; [done|]. iSplit; [done|]. iExists G'. iFrame. iPureIntro.
    eapply (untouched_stable le (<[j := NULL]> rs) [l] [] G); [done| |done| |done].
    + intros x. by rewrite Hp.
    + by rewrite right_id_L Hp.
  - iRight. destruct (me_keep _ _ _ _ _ _ Hme l n) as (n' & Hn' & Hsame); [by left|done|].
    iExists G', b, rs', rest', n'. iFrame. iPureIntro. split_and!; [done| |by destruct Hme|done|done].
    exact (merged_stable le _ _ _ _ _ _ eq_refl Hme).
Qed.

Lemma pop_spec xs :
  (Z.of_nat (length xs) ≤ INT_MAX)%Z →
  {{ binomial h xs }} binomial_heap_pop fuel h {{ r, popped xs r }}.
Proof.
  intros Hmax. apply triple_wp. iIntros "(%p & %rs & %rest & %G & (%Hr & %Hl & %Hn) & %HS & Ha & HG)".
  pose proof (stable_roots _ _ _ _ _ HS Hmax) as Hrs. pose proof HS as [H1 H2 H3 H4 H5 H6].
  rewrite /binomial_heap_pop Hn. case_bool_decide as Hz.
  { destruct xs; [|done]. iApply wp_ret. simpl. iSplit; [done|]. by iApply (binomial_intro with "Ha HG"). }
  assert (∃ x xs', xs = x :: xs') as (x0 & xs0 & Hxs) by (destruct xs; [done|eauto]).
  iApply wp_bind. iApply (triple_use with "[Ha HG]").
  { rewrite /binomial_heap_least Hl Nat2Z.id.
    apply (least_loop p rs rest G (length rs) 0 (-1)%Z Hr); [by apply order_at_alive|done|by left]. }
  { iFrame. }
  iIntros (z) "(%Hleast & Ha & HG)". rewrite /least_upto firstn_all in Hleast.
  destruct Hleast as [[_ Hnil]|(j & l & n & -> & Hj & Hln & Hle)].
  { rewrite Hnil Hxs in H6. by apply Permutation_nil_cons in H6. }
  destruct (least_removed G rs xs j l n HS Hj Hln Hle) as (Hnd & Hperm & Hall).
  pose proof (lookup_lt_Some _ _ _ Hj) as Hlt.
  destruct p as [a|]; last first.
  { iDestruct "Ha" as %->. done. }
  rewrite Hr. simpl root_block. iApply wp_bind.
  iApply (wp_read_array with "Ha"); [done|]. iIntros "Ha". iApply wp_bind.
  iApply (wp_set_root with "Ha"); [done|]. iIntros "Ha". iApply wp_bind.
  iApply (wp_graph_deref with "HG"); [done|]. iIntros "HG". simpl.
  iApply wp_bind. iApply (triple_use with "[Ha HG]").
  { by apply (pop_merge_spec a rs rest G xs j l n 0). }
  { iFrame. }
  iIntros (r) "[(-> & %Hf & Ha & (%G' & %HS' & HG))|
    (%G' & %b & %rs' & %rest' & %n' & -> & %HS' & %Hsm & %Hln' & %Hsame & Ha & HG)]"; simpl.
  - rewrite Hr. simpl root_block. iApply wp_bind.
    iApply (wp_set_root with "Ha"); [by rewrite length_insert|]. iIntros "Ha". iApply wp_ret.
    rewrite list_insert_insert_eq list_insert_id //. rewrite /popped Hxs. iLeft. iSplit; [done|].
    iSplit; [done|]. rewrite -Hxs. by iApply (binomial_intro with "Ha HG").
  - iApply wp_bind. iApply (wp_graph_deref with "HG"); [done|]. iIntros "HG". iApply wp_bind.
    destruct Hsame as (Hv & _ & Hsubs). iApply (triple_use with "HG").
    { apply (drop_tree_spec l n' G' rs' _ HS' Hsm Hln'). rewrite -Hsubs.
      destruct (H3 _ _ Hj) as (n0 & ? & ?). simplify_eq. lia. }
    iIntros (_) "(%G2 & %HS2 & HG)". iApply wp_bind.
    pose proof (Permutation_length Hperm) as Hlen. simpl in Hlen.
    iApply wp_chk; [int_tac|]. iApply wp_ret. rewrite /popped Hxs. iRight. rewrite -Hxs /=.
    iExists _. rewrite -Hv. iSplit; [done|]. iSplit; [done|]. iSplit; [done|].
    iApply (binomial_intro _ (Some b) rs' rest' G2 with "Ha HG"); try done. simpl. lia.
Qed.

Lemma free_spec xs :
  (Z.of_nat (length xs) ≤ INT_MAX)%Z →
  {{ binomial h xs }} binomial_heap_free fuel h {{ _, emp }}.
Proof.
  intros Hmax. apply triple_wp. iIntros "(%p & %rs & %rest & %G & (%Hr & %Hl & %Hn) & %HS & Ha & HG)".
  pose proof (stable_roots _ _ _ _ _ HS Hmax) as Hrs.
  assert (small G) as Hsm by (eapply stable_small; [exact HS| |done|simpl; lia]; rewrite right_id_L; by destruct HS).
  pose proof HS as [H1 H2 H3 H4 H5 H6].
  rewrite /binomial_heap_free Hr Hl Nat2Z.id. iApply wp_bind. iApply (triple_use with "[Ha HG]").
  { apply (unref_loop le fuel (own_array p rs rest) _ rs 0 G []); try done.
    - by apply unref_all.
    - lia.
    - intros i x Φ _ Hx. rewrite Nat.sub_0_r in Hx. iIntros "Ha HΦ". iApply wp_bind.
      by iApply (wp_read_array with "Ha").
    - intros l n [i Hi]%elem_of_ptrs%list_elem_of_lookup Hln.
      destruct (H3 i l Hi) as (n' & Hn' & Hi'). simplify_eq. apply lookup_lt_Some in Hi. lia. }
  { iFrame. }
  iIntros (_) "[Ha (%G' & %HG' & %Hs & HG)]". simpl. iApply (wp_free_array with "Ha").
  assert (G' = ∅) as ->; [|by rewrite /own_graph big_sepM_empty].
  apply map_empty. intros l. destruct (G' !! l) as [n|] eqn:Hln; [|done]. exfalso.
  assert (l ∈ (forest G' []).*1) as Hin.
  { apply (forest_reach le G' [] l HG'); [by eapply shrinks_live|by eexists]. }
  by apply elem_of_nil in Hin.
Qed.
End operations.

(** ** Properties *)

(** C4. [binomial_heap_insert] adds the value, or fails, changing nothing, when an
    allocation is refused. *)
Theorem binomial_heap_insert_correct `{Allocator bcell} fuel h xs v `{!CompareFunc (compare_func h)} :
  cmp_int h → 33 ≤ fuel → (Z.of_nat (length xs) < INT_MAX)%Z →
  {{ binomial h xs }} binomial_heap_insert fuel h v
  {{ r, (⌈ r.1 = 1%Z ⌉ ∗ ⌈ same_heap h r.2 ⌉ ∗ binomial r.2 (v :: xs)) ∨
        (⌈ r = (0%Z, h) ⌉ ∗ ⌈ can_fail ⌉ ∗ binomial h xs) }}.
Proof. intros Hint Hfuel. by apply insert_spec. Qed.

(** C11. [binomial_heap_pop] removes and returns a least value; on an empty heap, and
    when an allocation is refused, it returns the null value and changes nothing. *)
Theorem binomial_heap_pop_correct `{Allocator bcell} fuel h xs `{!CompareFunc (compare_func h)} :
  cmp_int h → 33 ≤ fuel → (Z.of_nat (length xs) ≤ INT_MAX)%Z →
  {{ binomial h xs }} binomial_heap_pop fuel h
  {{ r, match xs with
        | [] => ⌈ r = (VNULL, h) ⌉ ∗ binomial h []
        | _ => (⌈ r = (VNULL, h) ⌉ ∗ ⌈ can_fail ⌉ ∗ binomial h xs) ∨
               ∃ rest, ⌈ xs ≡ₚ r.1 :: rest ⌉ ∗ ⌈ Forall (cmp_le (heap_order h) r.1) rest ⌉ ∗
                 ⌈ same_heap h r.2 ⌉ ∗ binomial r.2 rest
        end }}.
Proof. intros Hint Hfuel. by apply pop_spec. Qed.

(** [binomial_heap_free] frees every tree of the heap, shared or not, exactly
    once. *)
Theorem binomial_heap_free_correct `{Allocator bcell} fuel h xs `{!CompareFunc (compare_func h)} :
  33 ≤ fuel → (Z.of_nat (length xs) ≤ INT_MAX)%Z →
  {{ binomial h xs }} binomial_heap_free fuel h {{ _, emp }}.
Proof. intros Hfuel. by apply free_spec. Qed.

Module Runs.
#[local] Instance alloc : Allocator bcell := total_alloc (Roots []).

(** A comparison with results -1, 0 and 1. *)
Definition compare (x y : value) : Z :=
  (if bool_decide (x = y) then 0 else if bool_decide (x < y) then -1 else 1)%Z.

#[local] Instance compare_ok : CompareFunc compare.
Proof. split; intros; unfold compare in *; repeat case_bool_decide; lia. Qed.

Definition heap0 (t : BinomialHeapType) : BinomialHeap :=
  {| heap_type := t; compare_func := compare; num_values := 0%Z; roots := ArrayAt NULL; roots_length := 0%Z |}.

Lemma heap0_int t : cmp_int (heap0 t).
Proof.
  intros x y. rewrite /heap_order /= /compare. destruct t; repeat case_bool_decide; done.
Qed.

Lemma heap0_holds t : holds (binomial (heap0 t) []) ∅.
Proof.
  eapply holds_mono; [|by apply holds_emp]. iIntros "_". iExists NULL, [], [], ∅.
  iSplit; [done|]. iSplit.
  - iPureIntro. split; [|done|done|by left|constructor|done].
    split; [done|by intros l ?%elem_of_nil|done].
  - rewrite /own_graph big_sepM_empty. by iSplit.
Qed.

Lemma binomial_heap_insert_correct_witness :
  match binomial_heap_insert 33 (heap0 BINOMIAL_HEAP_TYPE_MIN) 7 (Mem ∅ 0) with
  | Ok (r, Mem m _) => r.1 = 1%Z ∧ num_values r.2 = 1%Z ∧ size m = 2
  | Err _ => False
  end.
Proof.
  destruct (triple_run _ _ _ ∅ 0 (binomial_heap_insert_correct 33 (heap0 BINOMIAL_HEAP_TYPE_MIN) [] 7
    (heap0_int _) ltac:(done) ltac:(done)) (heap0_holds _)) as (r & m & t & E & _).
  rewrite E. revert E. vm_compute. intros [= <- <- <-]. by split_and!.
Defined.

(** A heap filled by insertions. *)
Fixpoint fill (t : BinomialHeapType) (vs : list value) : M bcell BinomialHeap :=
  match vs with
  | [] => mret (heap0 t)
  | v :: vs => h ← fill t vs; '(_, h) ← binomial_heap_insert 33 h v; mret h
  end.

Lemma same_heap_ok t h : same_heap (heap0 t) h → CompareFunc (compare_func h) ∧ cmp_int h.
Proof.
  intros [Ht Hc]. rewrite /cmp_int /heap_order Ht Hc. split; [apply _|]. exact (heap0_int t).
Qed.

Lemma fill_holds t vs :
  length vs ≤ 1000 → ∃ h m n, fill t vs (Mem ∅ 0) = Ok (h, Mem m n) ∧ same_heap (heap0 t) h ∧
    holds (binomial h vs) m.
Proof.
  induction vs as [|v vs IH]; intros Hlen; [by exists (heap0 t), ∅, 0; repeat split; apply heap0_holds|].
  simpl in Hlen. destruct IH as (h & m & n & E & Hs & Hh); [lia|].
  destruct (same_heap_ok t h Hs) as [Hc Hint].
  destruct (triple_run _ _ _ m n (insert_spec h Hint 33 (le_n _) vs v ltac:(int_tac)) Hh)
    as ([r h'] & m' & n' & E' & [Hok|Hfail]%holds_or).
  - apply holds_pure_sep in Hok as [_ Hok]. apply holds_pure_sep in Hok as [[Ht' Hc'] Hok].
    exists h', m', n'. destruct Hs as [Ht Hc0]. split; [|split; [|done]].
    + by rewrite /= (bind_run _ _ _ _ _ E) (bind_run _ _ _ _ _ E').
    + split; [by rewrite Ht'|by rewrite Hc'].
  - apply holds_pure_sep in Hfail as [_ Hfail]. apply holds_pure_sep in Hfail as [Hf _].
    by apply total_alloc_no_fail in Hf.
Qed.

Lemma binomial_heap_pop_correct_witness :
  match (h ← fill BINOMIAL_HEAP_TYPE_MAX [3; 8; 5]%Z; binomial_heap_pop 33 h) (Mem ∅ 0) with
  | Ok (r, Mem m _) => r.1 = 8%Z ∧ num_values r.2 = 2%Z
  | Err _ => False
  end.
Proof.
  destruct (fill_holds BINOMIAL_HEAP_TYPE_MAX [3; 8; 5]%Z ltac:(simpl; lia)) as (h & m & n & E & Hs & Hh).
  destruct (same_heap_ok _ h Hs) as [Hc Hint].
  destruct (triple_run _ _ _ m n (binomial_heap_pop_correct 33 h [3; 8; 5]%Z Hint (le_n _) ltac:(done)) Hh)
    as (r & m' & n' & E' & _).
  rewrite (bind_run _ _ _ _ _ E) E'.
  assert ((h ← fill BINOMIAL_HEAP_TYPE_MAX [3; 8; 5]%Z; binomial_heap_pop 33 h) (Mem ∅ 0) = Ok (r, Mem m' n'))
    as E2 by by rewrite (bind_run _ _ _ _ _ E).
  revert E2. vm_compute. intros [= <- <- <-]. by split.
Defined.

Lemma binomial_heap_free_correct_witness :
  match (h ← fill BINOMIAL_HEAP_TYPE_MIN [3; 8; 5]%Z; binomial_heap_free 33 h) (Mem ∅ 0) with
  | Ok (_, Mem m _) => m = ∅
  | Err _ => False
  end.
Proof.
  destruct (fill_holds BINOMIAL_HEAP_TYPE_MIN [3; 8; 5]%Z ltac:(simpl; lia)) as (h & m & n & E & Hs & Hh).
  destruct (same_heap_ok _ h Hs) as [Hc Hint].
  destruct (triple_run _ _ _ m n (binomial_heap_free_correct 33 h [3; 8; 5]%Z (le_n _) ltac:(done)) Hh)
    as (r & m' & n' & E' & Hm%holds_emp).
  by rewrite (bind_run _ _ _ _ _ E) E'.
Defined.
End Runs.
