(* ===== verification/PthreadCond.v ===== *)
(** * PthreadCond: the producer and the consumers of pthread_cond.c

    A step of the demo is one statement of one thread; threads interleave freely.
    The mutex and the condition variable behave as POSIX describes them: a lock is
    taken when it is free, [pthread_cond_wait] gives the mutex up and blocks in one
    step, [pthread_cond_signal] unblocks one of the threads that are blocked, and a
    blocked thread may also wake up without a signal ([spurious]).  The sleeps do not
    order anything. *)
From stdpp Require Import base gmap list numbers relations ssreflect.
From S2P Require Import Prelude.

(** ** The state *)

Definition CONSUMERS_COUNT : Z := 2.
Definition PRODUCERS_COUNT : Z := 1.

(** What a thread does next. *)
Inductive pc : Set :=
  (* consume *)
  | CStart | CLock | CTest | CWait | CBlocked | CWoken | CTake | CUnlock
  (* produce *)
  | PStart | PLock | PTest | PCount | PReady | PSignal | PUnlock.

(** What [pthread_cond_demo] does next. *)
Inductive main_pc : Set := MConsumer | MConsumerNext | MProducer | MProducerNext | MReturned.

#[global] Instance pc_eq_dec : EqDecision pc.
Proof. solve_decision. Defined.

(** [indices] records what the threads read through their argument, which is the
    address of [i]: nothing when [i] is dead.  [consumed] counts the products. *)
Record state := State {
  g_mutex : option nat;
  nready : Z;
  var : Z;
  threads : list pc;
  main : main_pc;
  demo_i : Z;
  indices : gmap nat (option Z);
  consumed : Z
}.

Definition start : state := State None 0 2 [] MConsumer 0 ∅ 0.

(** Thread [t] goes on. *)
Definition go (t : nat) (p : pc) (s : state) : state :=
  State (g_mutex s) (nready s) (var s) (<[t := p]> (threads s)) (main s) (demo_i s) (indices s) (consumed s).
Definition set_mutex (m : option nat) (s : state) : state :=
  State m (nready s) (var s) (threads s) (main s) (demo_i s) (indices s) (consumed s).
Definition set_nready (n : Z) (s : state) : state :=
  State (g_mutex s) n (var s) (threads s) (main s) (demo_i s) (indices s) (consumed s).
Definition set_var (v : Z) (s : state) : state :=
  State (g_mutex s) (nready s) v (threads s) (main s) (demo_i s) (indices s) (consumed s).
Definition count_product (s : state) : state :=
  State (g_mutex s) (nready s) (var s) (threads s) (main s) (demo_i s) (indices s) (consumed s + 1).
Definition set_main (m : main_pc) (i : Z) (s : state) : state :=
  State (g_mutex s) (nready s) (var s) (threads s) m i (indices s) (consumed s).

(** [int idx = *(int * )arg]. *)
Definition read_index (t : nat) (s : state) : state :=
  State (g_mutex s) (nready s) (var s) (threads s) (main s) (demo_i s)
    (<[t := match main s with MReturned => None | _ => Some (demo_i s) end]> (indices s)) (consumed s).

(** ** The steps, as the list of the states that may follow *)

Definition pthread_mutex_lock (t : nat) (p : pc) (s : state) : list state :=
  match g_mutex s with None => [set_mutex (Some t) (go t p s)] | Some _ => [] end.

Definition blocked (s : state) : list nat :=
  filter (λ t, threads s !! t = Some CBlocked) (seq 0 (length (threads s))).

Definition pthread_cond_signal (s : state) : list state :=
  match blocked s with
  | [] => [s]
  | ts => (λ t, go t CWoken s) <$> ts
  end.

Definition consume (spurious : bool) (t : nat) (p : pc) (s : state) : list state :=
  match p with
  | CStart => [read_index t (go t CLock s)]
  | CLock => pthread_mutex_lock t CTest s
  | CTest => [go t (if bool_decide (nready s ≤ 0)%Z then CWait else CTake) s]
  | CWait => [set_mutex None (go t CBlocked s)]
  | CBlocked => if spurious then [go t CWoken s] else []
  | CWoken => pthread_mutex_lock t CTest s
  | CTake => [count_product (set_nready (nready s - 1) (go t CUnlock s))]
  | CUnlock => [set_mutex None (go t CLock s)]
  | _ => []
  end.

Definition produce (t : nat) (p : pc) (s : state) : list state :=
  match p with
  | PStart => [read_index t (go t PLock s)]
  | PLock => pthread_mutex_lock t PTest s
  | PTest => [go t (if bool_decide (var s > 0)%Z then PCount else PUnlock) s]
  | PCount => [set_var (var s - 1) (go t PReady s)]
  | PReady => [set_nready (nready s + 5) (go t PSignal s)]
  | PSignal => go t PUnlock <$> pthread_cond_signal s
  | PUnlock => [set_mutex None (go t PLock s)]
  | _ => []
  end.

(** [pthread_create], whose result the demo ignores, may fail. *)
Definition pthread_create (p : pc) (s : state) : list state :=
  [s; State (g_mutex s) (nready s) (var s) (threads s ++ [p]) (main s) (demo_i s) (indices s) (consumed s)].

Definition pthread_cond_demo (s : state) : list state :=
  match main s with
  | MConsumer =>
      if bool_decide (demo_i s < CONSUMERS_COUNT)%Z
      then set_main MConsumerNext (demo_i s) <$> pthread_create CStart s
      else [set_main MProducer 0 s]
  | MConsumerNext => [set_main MConsumer (demo_i s + 1) s]
  | MProducer =>
      if bool_decide (demo_i s < PRODUCERS_COUNT)%Z
      then set_main MProducerNext (demo_i s) <$> pthread_create PStart s
      else [set_main MReturned (demo_i s) s]
  | MProducerNext => [set_main MProducer (demo_i s + 1) s]
  | MReturned => []
  end.

Definition thread_step (spurious : bool) (t : nat) (s : state) : list state :=
  match threads s !! t with
  | Some p => consume spurious t p s ++ produce t p s
  | None => []
  end.

Definition next (spurious : bool) (s : state) : list state :=
  pthread_cond_demo s ++ (seq 0 (length (threads s)) ≫= λ t, thread_step spurious t s).

Definition step (spurious : bool) (s s' : state) : Prop := s' ∈ next spurious s.
Definition reachable (spurious : bool) (s : state) : Prop := rtc (step spurious) start s.

(** A schedule: which of the possible states follows. *)
Fixpoint run (spurious : bool) (schedule : list nat) (s : state) : option state :=
  match schedule with
  | [] => Some s
  | k :: schedule => s' ← next spurious s !! k; run spurious schedule s'
  end.

(** ** The invariant *)

(** Between a lock and the unlock. *)
Definition critical (p : pc) : bool :=
  match p with
  | CTest | CWait | CTake | CUnlock | PTest | PCount | PReady | PSignal | PUnlock => true
  | _ => false
  end.
Definition consumer (p : pc) : bool :=
  match p with
  | CStart | CLock | CTest | CWait | CBlocked | CWoken | CTake | CUnlock => true
  | _ => false
  end.
(** Blocked, or about to block. *)
Definition asleep (p : pc) : bool := match p with CWait | CBlocked => true | _ => false end.

(** What the owner of the mutex knows. *)
Definition knows (p : pc) (s : state) : Prop :=
  match p with
  | CWait => nready s ≤ 0
  | CTake => 0 < nready s
  | PCount => 0 < var s
  | _ => True
  end%Z.

(** The products that are neither in [var] nor in [nready]. *)
Definition pending (s : state) : Z :=
  match t ← g_mutex s; threads s !! t with Some PReady => 5 | _ => 0 end.

Definition someone (P : pc → bool) (s : state) : Prop := ∃ t p, threads s !! t = Some p ∧ P p = true.

(** A product that is there has a consumer who is awake, or will be signalled. *)
Definition attended (s : state) : Prop :=
  (0 < nready s)%Z → someone asleep s →
  someone (λ p, bool_decide (p = PSignal)) s ∨ someone (λ p, consumer p && negb (asleep p)) s.

Record ok (s : state) : Prop := {
  ok_mutex t p : threads s !! t = Some p → critical p = true ↔ g_mutex s = Some t;
  ok_owner t : g_mutex s = Some t → is_Some (threads s !! t);
  ok_knows t p : threads s !! t = Some p → knows p s;
  ok_range : (0 ≤ nready s)%Z ∧ (0 ≤ var s)%Z ∧ (0 ≤ consumed s)%Z;
  ok_sum : (nready s + consumed s + 5 * var s + pending s = 10)%Z;
  ok_attended : attended s
}.

(** *** Moves of one thread *)
Lemma someone_at P s t p : threads s !! t = Some p → P p = true → someone P s.
Proof. intros. by exists t, p. Qed.

Definition pend (p : pc) : Z := match p with PReady => 5 | _ => 0 end.

Lemma pending_owner s t p : g_mutex s = Some t → threads s !! t = Some p → pending s = pend p.
Proof. intros Hm Ht. by rewrite /pending Hm /= Ht. Qed.

Lemma pending_move s t p p' (m' : option nat) n v mp i ix c :
  ok s → threads s !! t = Some p →
  m' = (if critical p' then Some t else if critical p then None else g_mutex s) →
  (critical p' = true → critical p = true ∨ g_mutex s = None) →
  (pending (State m' n v (<[t := p']> (threads s)) mp i ix c) + pend p = pending s + pend p')%Z.
Proof.
  intros Hok Ht -> Hcrit. pose proof (lookup_lt_Some _ _ _ Ht) as Hlt.
  destruct (critical p) eqn:Hp.
  - rewrite (pending_owner s t p) //; [|by apply (ok_mutex _ Hok t p Ht)].
    destruct (critical p') eqn:Hp'; [|rewrite {1}/pending /=; destruct p'; simplify_eq/=; lia].
    rewrite (pending_owner _ t p') //=; [lia|by rewrite list_lookup_insert_eq].
  - destruct (critical p') eqn:Hp'.
    + destruct Hcrit as [|Hnone]; [done|done|]. rewrite (pending_owner _ t p') //=; [|by rewrite list_lookup_insert_eq].
      rewrite /pending Hnone /=. destruct p; simpl in *; (done || lia).
    + assert (∀ q, critical q = false → pend q = 0%Z) as Hpend by (intros []; done).
      rewrite !Hpend //. f_equal. rewrite /pending /=. destruct (g_mutex s) as [t'|] eqn:Hm; [|done]. simpl.
      rewrite list_lookup_insert_ne //. intros <-. apply (ok_mutex _ Hok t p Ht) in Hm. congruence.
Qed.

(** Thread [t] goes from [p] to [p'] while the shared variables become [m'],
    [n] and [v], and [c] products have been consumed. *)
Lemma move_ok s t p p' (m' : option nat) n v mp i ix c :
  ok s → threads s !! t = Some p →
  m' = (if critical p' then Some t else if critical p then None else g_mutex s) →
  (critical p' = true → critical p = true ∨ g_mutex s = None) →
  let s' := State m' n v (<[t := p']> (threads s)) mp i ix c in
  knows p' s' → (critical p = false → n = nready s ∧ v = var s) →
  (0 ≤ n)%Z → (0 ≤ v)%Z → (0 ≤ c)%Z → (n + c + 5 * v + pend p' = nready s + consumed s + 5 * var s + pend p)%Z → attended s' → ok s'.
Proof.
  intros Hok Ht Hm Hcrit s' Hk Hsame Hn Hv Hc Hsum Hatt.
  pose proof (pending_move s t p p' m' n v mp i ix c Hok Ht Hm Hcrit) as Hpend. pose proof Hok as [H1 H2 H3 H4 H5 H6].
  pose proof (lookup_lt_Some _ _ _ Ht) as Hlt. pose proof (H1 t p Ht) as Hpt.
  assert (∀ t' q, t ≠ t' → threads s !! t' = Some q → critical q = true ↔ m' = Some t') as Hother.
  { intros t' q Hne Hq. rewrite (H1 t' q Hq) Hm. destruct (critical p') eqn:Hp'.
    - destruct (Hcrit eq_refl) as [Hcp|Hnone].
      + apply Hpt in Hcp. split; [intros; simplify_eq|by intros [=]].
      + rewrite Hnone. split; [done|by intros [=]].
    - destruct (critical p) eqn:Hp; [|done]. destruct Hpt as [Hpt _]. rewrite (Hpt eq_refl).
      split; [by intros [=]|done]. }
  split; simpl; try done; try (unfold s'; lia).
  - intros t' q. rewrite list_lookup_insert. case_decide as Hc'.
    + intros [= <-]. destruct Hc' as [<- _]. rewrite Hm. destruct (critical p'); [done|].
      split; [done|]. destruct (critical p); [done|]. intros Hq. by apply Hpt in Hq.
    + apply Hother. intros ->. by apply Hc'.
  - intros t' Hm'. destruct (decide (t = t')) as [<-|Hne]; [rewrite list_lookup_insert_eq; [by eexists|done]|].
    rewrite list_lookup_insert_ne //. apply H2. rewrite Hm' in Hm.
    destruct (critical p'); [by simplify_eq|]. by destruct (critical p).
  - intros t' q. rewrite list_lookup_insert. case_decide as Hc'; [by intros [= <-]|].
    intros Hq. assert (t ≠ t') as Hne by (intros ->; by apply Hc').
    destruct (critical q) eqn:Hcq; [|by destruct q].
    assert (critical p = false) as Hcp.
    { destruct (critical p); [|done]. apply (H1 t' q Hq) in Hcq. destruct Hpt as [Hpt _].
      rewrite (Hpt eq_refl) in Hcq. by simplify_eq. }
    destruct (Hsame Hcp) as [-> ->]. specialize (H3 t' q Hq). by destruct q.
Qed.

(** The threads that stay where they are. *)
Lemma someone_insert P s t p p' m' n v mp i ix c :
  threads s !! t = Some p → someone P s → P p = false ∨ P p' = true →
  someone P (State m' n v (<[t := p']> (threads s)) mp i ix c).
Proof.
  intros Ht (t' & q & Hq & HP) Hor. pose proof (lookup_lt_Some _ _ _ Ht).
  destruct (decide (t = t')) as [<-|Hne].
  - simplify_eq. destruct Hor as [?|?]; [congruence|]. exists t, p'. simpl. by rewrite list_lookup_insert_eq.
  - exists t', q. simpl. by rewrite list_lookup_insert_ne.
Qed.

Lemma someone_insert_inv P s t p p' m' n v mp i ix c :
  threads s !! t = Some p → someone P (State m' n v (<[t := p']> (threads s)) mp i ix c) →
  P p' = false ∨ P p = true → someone P s.
Proof.
  intros Ht (t' & q & Hq & HP) Hor. simpl in Hq. rewrite list_lookup_insert in Hq.
  case_decide as Hc; [|by exists t', q]. simplify_eq. destruct Hor as [?|?]; [congruence|]. by exists t, p.
Qed.

(** A move that does not fall asleep and is not the signal leaves nobody
    unattended. *)
Lemma attended_move s t p p' m' n v mp i ix c :
  ok s → threads s !! t = Some p → (n ≤ nready s)%Z →
  (asleep p' = true → asleep p = true ∨ (n ≤ 0)%Z) → p ≠ PSignal →
  consumer p = consumer p' → attended (State m' n v (<[t := p']> (threads s)) mp i ix c).
Proof.
  intros Hok Ht Hn Hsleep Hsig Hcons Hpos Hs. simpl in Hpos.
  destruct (asleep p') eqn:Hp'.
  - destruct (Hsleep eq_refl) as [Hp|?]; [|lia].
    destruct (ok_attended _ Hok) as [Hsg|Haw]; [lia|by eapply someone_at| |].
    + left. eapply someone_insert; [done|exact Hsg|]. left. by apply bool_decide_eq_false_2.
    + right. eapply someone_insert; [done|exact Haw|]. left. rewrite Hp. by destruct (consumer p).
  - destruct (consumer p') eqn:Hc.
    + right. exists t, p'. simpl. rewrite list_lookup_insert_eq ?Hc ?Hp' //. by eapply lookup_lt_Some.
    + destruct (ok_attended _ Hok) as [Hsg|Haw]; [lia|eapply someone_insert_inv; [done|exact Hs|by left]| |].
      * left. eapply someone_insert; [done|exact Hsg|]. left. by apply bool_decide_eq_false_2.
      * right. eapply someone_insert; [done|exact Haw|]. left. by rewrite Hcons.
Qed.

(** *** Every step keeps the invariant *)

(** One move: the shared variables are read off the new state. *)
Ltac move_tac :=
  unfold go, set_mutex, set_nready, set_var, count_product, read_index; simpl;
  eapply move_ok;
    [eassumption|eassumption
    |simpl; first [done|match goal with Hok : ok _, Ht : threads _ !! _ = Some _ |- _ =>
                          by apply (ok_mutex _ Hok _ _ Ht) end]
    |simpl; auto|simpl; try (done || lia)|simpl; try done
    |simpl; try lia|simpl; try lia|simpl; try lia|simpl; try lia|].
Ltac awake_tac :=
  eapply attended_move; [eassumption|eassumption|simpl; lia|simpl; try done; auto|done|done].

Lemma consume_ok sp s t p s' :
  ok s → threads s !! t = Some p → s' ∈ consume sp t p s → ok s'.
Proof.
  intros Hok Ht. pose proof Hok as [H1 H2 H3 (Hn & Hv & Hc) H5 H6]. pose proof (H3 t p Ht) as Hk.
  destruct p; simpl in Hk |- *; rewrite /pthread_mutex_lock ?elem_of_nil //.
  - intros ->%list_elem_of_singleton. move_tac. awake_tac.
  - destruct (g_mutex s) eqn:Hm; [by intros ?%elem_of_nil|]. intros ->%list_elem_of_singleton.
    move_tac. awake_tac.
  - intros ->%list_elem_of_singleton. case_bool_decide as Hz; move_tac; awake_tac.
  - intros ->%list_elem_of_singleton. move_tac. awake_tac.
  - destruct sp; [|by intros ?%elem_of_nil]. intros ->%list_elem_of_singleton. move_tac. awake_tac.
  - destruct (g_mutex s) eqn:Hm; [by intros ?%elem_of_nil|]. intros ->%list_elem_of_singleton.
    move_tac. awake_tac.
  - intros ->%list_elem_of_singleton. move_tac. awake_tac.
  - intros ->%list_elem_of_singleton. move_tac. awake_tac.
Qed.

Lemma blocked_nil s : blocked s = [] → ∀ t, threads s !! t ≠ Some CBlocked.
Proof.
  intros Hb t Ht. assert (t ∈ blocked s) as Hin; [|rewrite Hb in Hin; by apply elem_of_nil in Hin].
  apply list_elem_of_filter. split; [done|]. apply elem_of_seq. apply lookup_lt_Some in Ht. lia.
Qed.

Lemma blocked_elem s t : t ∈ blocked s → threads s !! t = Some CBlocked.
Proof. by intros [? _]%list_elem_of_filter. Qed.

(** The signal is given with the mutex held, so that nobody is about to block. *)
Lemma signal_nobody s t :
  ok s → threads s !! t = Some PSignal → blocked s = [] → ¬ someone asleep s.
Proof.
  intros Hok Ht Hb (t' & q & Hq & Hsleep). destruct q; try done.
  - assert (g_mutex s = Some t') as Hm by by apply (ok_mutex _ Hok t' CWait Hq).
    assert (g_mutex s = Some t) by by apply (ok_mutex _ Hok t PSignal Ht). by simplify_eq.
  - by eapply blocked_nil.
Qed.

Lemma produce_ok s t p s' :
  ok s → threads s !! t = Some p → s' ∈ produce t p s → ok s'.
Proof.
  intros Hok Ht. pose proof Hok as [H1 H2 H3 (Hn & Hv & Hc) H5 H6]. pose proof (H3 t p Ht) as Hk.
  pose proof (lookup_lt_Some _ _ _ Ht) as Hlt.
  destruct p; simpl in Hk |- *; rewrite /pthread_mutex_lock ?elem_of_nil //.
  - intros ->%list_elem_of_singleton. move_tac. awake_tac.
  - destruct (g_mutex s) eqn:Hm; [by intros ?%elem_of_nil|]. intros ->%list_elem_of_singleton.
    move_tac. awake_tac.
  - intros ->%list_elem_of_singleton. case_bool_decide as Hz; move_tac; awake_tac.
  - intros ->%list_elem_of_singleton. move_tac. awake_tac.
  - intros ->%list_elem_of_singleton. move_tac. intros _ _. left. exists t, PSignal.
    by rewrite /= list_lookup_insert_eq.
  - rewrite /pthread_cond_signal. destruct (blocked s) as [|t0 ts] eqn:Hb.
    + intros ->%list_elem_of_singleton. move_tac. intros _ Hs. exfalso.
      apply (signal_nobody s t Hok Ht Hb). by eapply someone_insert_inv; [exact Ht|exact Hs|left].
    + rewrite -Hb. intros (s1 & -> & (t' & -> & Hin)%list_elem_of_fmap)%list_elem_of_fmap.
      apply blocked_elem in Hin. pose proof (lookup_lt_Some _ _ _ Hin) as Hlt'.
      assert (t ≠ t') as Hne by (intros ->; simplify_eq).
      assert (ok (go t' CWoken s)) as Hok1 by (move_tac; awake_tac).
      assert (threads (go t' CWoken s) !! t = Some PSignal) as Ht1 by by rewrite /= list_lookup_insert_ne.
      eapply move_ok; [exact Hok1|exact Ht1|simpl..]; try done; try lia; [by apply (H1 t PSignal)|].
      intros _ _. right. exists t', CWoken. simpl.
      rewrite list_lookup_insert_ne // list_lookup_insert_eq //.
  - intros ->%list_elem_of_singleton. move_tac. awake_tac.
Qed.

(** A new thread. *)
Lemma create_ok s p mp i :
  ok s → p = CStart ∨ p = PStart →
  ok (State (g_mutex s) (nready s) (var s) (threads s ++ [p]) mp i (indices s) (consumed s)).
Proof.
  intros [H1 H2 H3 H4 H5 H6] Hp.
  assert (∀ t q, (threads s ++ [p]) !! t = Some q → threads s !! t = Some q ∨ q = p ∧ t = length (threads s)) as Hl.
  { intros t q [Hq|[Hle Hq]]%lookup_app_Some; [by left|]. right.
    apply list_lookup_singleton_Some in Hq as [? ->]. split; [done|lia]. }
  assert (∀ t q, threads s !! t = Some q → (threads s ++ [p]) !! t = Some q) as Hkeep.
  { intros t q. apply lookup_app_l_Some. }
  assert (pending (State (g_mutex s) (nready s) (var s) (threads s ++ [p]) mp i (indices s) (consumed s)) =
    pending s) as Hpend.
  { rewrite /pending /=. destruct (g_mutex s) as [t|] eqn:Hm; [|done]. simpl.
    destruct (H2 t eq_refl) as [q Hq]. by rewrite Hq (Hkeep t q Hq). }
  split; simpl; try done; rewrite ?Hpend //.
  - intros t q [Hq|[-> ->]]%Hl; [by apply H1|]. split; [by destruct Hp; subst|].
    intros [q Hq]%H2. by apply lookup_lt_Some, Nat.lt_irrefl in Hq.
  - intros t [q Hq]%H2. eexists. by apply Hkeep.
  - intros t q [Hq|[-> ->]]%Hl; [|by destruct Hp; subst]. specialize (H3 t q Hq). by destruct q.
  - intros Hpos (t & q & Hq & Hs). apply Hl in Hq as [Hq|[-> _]]; [|by destruct Hp; subst].
    destruct H6 as [(t' & q' & ? & ?)|(t' & q' & ? & ?)]; [done|by exists t, q| |];
      [left|right]; exists t', q'; (split; [by apply Hkeep|done]).
Qed.

Lemma main_ok s mp i : ok s → ok (set_main mp i s).
Proof. intros [H1 H2 H3 H4 H5 H6]. by split. Qed.

Lemma demo_ok s s' : ok s → s' ∈ pthread_cond_demo s → ok s'.
Proof.
  intros Hok. rewrite /pthread_cond_demo /pthread_create.
  destruct (main s); try case_bool_decide; simpl; rewrite ?elem_of_cons ?elem_of_nil;
    intros Hs; destruct_or?; subst; try done; try by apply main_ok.
  - apply (create_ok s CStart MConsumerNext); [done|by left].
  - apply (create_ok s PStart MProducerNext); [done|by right].
Qed.

Lemma step_cases sp s s' :
  step sp s s' → s' ∈ pthread_cond_demo s ∨
    ∃ t p, threads s !! t = Some p ∧ s' ∈ consume sp t p s ++ produce t p s.
Proof.
  rewrite /step /next elem_of_app list_elem_of_bind. intros [Hd|(t & Ht & _)]; [by left|right].
  rewrite /thread_step in Ht. destruct (threads s !! t) as [p|] eqn:Hp; [|by apply elem_of_nil in Ht].
  by exists t, p.
Qed.

Lemma step_ok sp s s' : ok s → step sp s s' → ok s'.
Proof.
  intros Hok [Hd|(t & p & Ht & [Hc|Hp]%elem_of_app)]%step_cases;
    [by eapply demo_ok|by eapply consume_ok|by eapply produce_ok].
Qed.

Lemma start_ok : ok start.
Proof. by split; try done; intros ? (? & ? & ? & ?). Qed.

Lemma steps_ok sp s s' : rtc (step sp) s s' → ok s → ok s'.
Proof. induction 1 as [|s1 s2 s3 Hs _ IH]; [done|]. intros Hok. by eapply IH, step_ok. Qed.

Lemma reachable_ok sp s : reachable sp s → ok s.
Proof. intros Hr. by eapply steps_ok, start_ok. Qed.

(** *** Progress *)

(** How far a thread is from its next product; the counter that is left bounds
    what a producer may still do. *)
Definition distance (v : Z) (p : pc) : Z :=
  match p with
  | CStart => 8 | CLock => 7 | CWoken => 7 | CTest => 6 | CTake => 5 | CWait => 5 | CBlocked => 4
  | CUnlock => 8
  | PStart => if bool_decide (0 < v) then 16 else 0
  | PLock => if bool_decide (0 < v) then 15 else 0
  | PTest => if bool_decide (0 < v) then 14 else 6
  | PCount => 10 | PReady => 21 | PSignal => 20
  | PUnlock => if bool_decide (0 < v) then 16 else 5
  end%Z.

Definition distances (v : Z) (ps : list pc) : Z := foldr (λ p, Z.add (distance v p)) 0%Z ps.

Definition measure (s : state) : Z :=
  (20 * (10 - consumed s) + 20 * var s + distances (var s) (threads s))%Z.

Lemma distance_nonneg v p : (0 ≤ distance v p)%Z.
Proof. destruct p; simpl; try case_bool_decide; lia. Qed.

Lemma distances_nonneg v ps : (0 ≤ distances v ps)%Z.
Proof. induction ps as [|p ps IH]; simpl; [done|]. pose proof (distance_nonneg v p). lia. Qed.

Lemma distances_insert v t p p' ps :
  ps !! t = Some p → (distances v (<[t := p']> ps) + distance v p = distances v ps + distance v p')%Z.
Proof.
  revert t. induction ps as [|q ps IH]; intros [|t] Ht; simplify_eq/=; [lia|].
  specialize (IH t Ht). rewrite /distances /= -!/(distances _ _). lia.
Qed.

Lemma distances_mono v v' ps : (v' ≤ v)%Z → (distances v' ps ≤ distances v ps)%Z.
Proof.
  intros Hv. induction ps as [|p ps IH]; simpl; [done|].
  assert (distance v' p ≤ distance v p)%Z; [|lia].
  destruct p; simpl; repeat case_bool_decide; lia.
Qed.

Lemma thread_next sp s t p s' :
  threads s !! t = Some p → s' ∈ consume sp t p s ++ produce t p s → step sp s s'.
Proof.
  intros Ht Hs. rewrite /step /next elem_of_app. right. apply list_elem_of_bind. exists t.
  split; [by rewrite /thread_step Ht|]. apply elem_of_seq. apply lookup_lt_Some in Ht. lia.
Qed.

Definition closer (s : state) : Prop :=
  ∃ s', step false s s' ∧ (measure s' < measure s)%Z.

Lemma step_closer s t p p' s' :
  threads s !! t = Some p → s' ∈ consume false t p s ++ produce t p s →
  threads s' = <[t := p']> (threads s) → (var s' ≤ var s)%Z →
  (distance (var s) p' + 20 * (var s' + consumed s) < distance (var s) p + 20 * (var s + consumed s'))%Z →
  closer s.
Proof.
  intros Ht Hs Hth Hv Hd. exists s'. split; [by eapply thread_next|].
  rewrite /measure Hth. pose proof (distances_mono _ _ (<[t := p']> (threads s)) Hv).
  pose proof (distances_insert (var s) t p p' _ Ht). lia.
Qed.

Lemma consumer_closer s t p :
  threads s !! t = Some p → consumer p = true → p ≠ CBlocked →
  critical p = true ∨ g_mutex s = None → closer s.
Proof.
  intros Ht Hc Hb Hm.
  assert (p = CLock ∨ p = CWoken → closer s) as Hlock.
  { intros Hp. apply (step_closer s t p CTest (set_mutex (Some t) (go t CTest s)) Ht); [|done|simpl; lia|simpl].
    - apply elem_of_app. left. destruct Hm as [Hm|Hm]; [by destruct Hp; subst|].
      destruct Hp; subst; rewrite /= /pthread_mutex_lock Hm; by left.
    - destruct Hp; subst; simpl; lia. }
  destruct p; try done; try (apply Hlock; auto; fail).
  - eapply (step_closer s t _ CLock _ Ht); [by left|by simpl|simpl; lia|simpl; lia].
  - eapply (step_closer s t _ (if bool_decide (nready s ≤ 0)%Z then CWait else CTake) _ Ht);
      [by left|by simpl|simpl; lia|simpl; case_bool_decide; simpl; lia].
  - eapply (step_closer s t _ CBlocked _ Ht); [by left|by simpl|simpl; lia|simpl; lia].
  - eapply (step_closer s t _ CUnlock _ Ht); [by left|by simpl|simpl; lia|simpl; lia].
  - eapply (step_closer s t _ CLock _ Ht); [by left|by simpl|simpl; lia|simpl; lia].
Qed.

Lemma signal_closer s t : threads s !! t = Some PSignal → closer s.
Proof.
  intros Ht. destruct (blocked s) as [|t' ts] eqn:Hb.
  - eapply (step_closer s t PSignal PUnlock (go t PUnlock s)); [exact Ht| |simpl; done|simpl; lia|simpl; case_bool_decide; lia].
    rewrite /= /pthread_cond_signal Hb. by left.
  - exists (go t PUnlock (go t' CWoken s)). assert (threads s !! t' = Some CBlocked) as Ht'.
    { apply blocked_elem. rewrite Hb. by left. }
    assert (t ≠ t') as Hne by (intros ->; simplify_eq). split.
    + eapply thread_next; [exact Ht|]. rewrite /= /pthread_cond_signal Hb. by left.
    + rewrite /measure /=. pose proof (distances_insert (var s) t' CBlocked CWoken _ Ht').
      pose proof (distances_insert (var s) t PSignal PUnlock (<[t' := CWoken]> (threads s))) as Hd.
      rewrite list_lookup_insert_ne // in Hd. specialize (Hd Ht). simpl in *. case_bool_decide; lia.
Qed.

Lemma producer_closer s t p :
  threads s !! t = Some p → consumer p = false →
  critical p = true ∨ g_mutex s = None ∧ (0 < var s)%Z → closer s.
Proof.
  intros Ht Hc Hm. destruct p; try done.
  - destruct Hm as [|[Hm Hv]]; [done|]. eapply (step_closer s t _ PLock); [exact Ht|by left|simpl; done|simpl; lia|].
    rewrite /= !bool_decide_eq_true_2 //. lia.
  - destruct Hm as [|[Hm Hv]]; [done|]. eapply (step_closer s t _ PTest (set_mutex (Some t) (go t PTest s))); [exact Ht| |simpl; done|simpl; lia|].
    + rewrite /= /pthread_mutex_lock Hm. by left.
    + rewrite /= !bool_decide_eq_true_2 //. lia.
  - eapply (step_closer s t _ (if bool_decide (var s > 0)%Z then PCount else PUnlock));
      [exact Ht|by left|simpl; done|simpl; lia|].
    simpl. repeat case_bool_decide; simpl; repeat case_bool_decide; lia.
  - eapply (step_closer s t _ PReady); [exact Ht|by left|simpl; done|simpl; lia|simpl; lia].
  - eapply (step_closer s t _ PSignal); [exact Ht|by left|simpl; done|simpl; lia|simpl; lia].
  - by eapply signal_closer.
  - eapply (step_closer s t _ PLock); [exact Ht|by left|simpl; done|simpl; lia|].
    simpl. repeat case_bool_decide; lia.
Qed.

(** As long as products are left, some thread brings the next one closer. *)
Lemma progress s :
  ok s → someone consumer s → someone (λ p, negb (consumer p)) s → (consumed s < 10)%Z → closer s.
Proof.
  intros Hok (tc & pc & Hpc & Hc) (tp & pp & Hpp & Hp) Hlt. apply negb_true_iff in Hp.
  destruct (g_mutex s) as [t|] eqn:Hm.
  - destruct (ok_owner _ Hok t Hm) as [p Ht].
    assert (critical p = true) as Hcrit by by apply (ok_mutex _ Hok t p Ht).
    destruct (consumer p) eqn:Hcp; [eapply consumer_closer; [exact Ht|done| |by left]; by intros ->|].
    eapply producer_closer; [exact Ht|done|by left].
  - assert (pending s = 0%Z) as Hpend by by rewrite /pending Hm.
    pose proof (ok_sum _ Hok) as Hsum. rewrite Hpend in Hsum.
    destruct (ok_range _ Hok) as (Hn & Hv & _).
    destruct (decide (0 < var s)%Z) as [Hpos|Hz].
    { eapply producer_closer; [exact Hpp|done|by right]. }
    assert (∃ t p, threads s !! t = Some p ∧ consumer p = true ∧ p ≠ CBlocked) as (t & p & Ht & Hcp & Hb).
    { destruct (decide (pc = CBlocked)) as [->|]; [|by exists tc, pc].
      destruct (ok_attended _ Hok) as [(t & p & Ht & Hs)|(t & p & Ht & Ha)]; [lia|by exists tc, CBlocked| |].
      - apply bool_decide_eq_true in Hs as ->.
        assert (g_mutex s = Some t) by by apply (ok_mutex _ Hok t PSignal Ht). congruence.
      - apply andb_true_iff in Ha as [? ?]. exists t, p. split_and!; [done|done|by intros ->]. }
    eapply consumer_closer; [exact Ht|done|done|by right].
Qed.

(** A thread keeps its part. *)
Definition parts (s s' : state) : Prop :=
  ∀ t p, threads s !! t = Some p → ∃ p', threads s' !! t = Some p' ∧ consumer p' = consumer p.

Lemma parts_insert s t p p' s' :
  threads s !! t = Some p → threads s' = <[t := p']> (threads s) → consumer p' = consumer p → parts s s'.
Proof.
  intros Ht Hs Hc t' q Hq. rewrite Hs list_lookup_insert. pose proof (lookup_lt_Some _ _ _ Ht).
  case_decide as Hd; [|by exists q]. destruct Hd as [-> _]. simplify_eq. by exists p'.
Qed.

Lemma parts_trans s1 s2 s3 : parts s1 s2 → parts s2 s3 → parts s1 s3.
Proof.
  intros H12 H23 t p Ht. destruct (H12 t p Ht) as (p2 & H2 & <-). by apply H23.
Qed.

Lemma lock_parts t p p' s s' :
  threads s !! t = Some p → consumer p' = consumer p → s' ∈ pthread_mutex_lock t p' s → parts s s'.
Proof.
  rewrite /pthread_mutex_lock. intros Ht Hc. destruct (g_mutex s); [by intros ?%elem_of_nil|].
  intros ->%list_elem_of_singleton. by eapply (parts_insert s t p p').
Qed.

Lemma signal_parts s s' : s' ∈ pthread_cond_signal s → parts s s'.
Proof.
  rewrite /pthread_cond_signal. destruct (blocked s) as [|t ts] eqn:Hb.
  - intros ->%list_elem_of_singleton t p Ht. by exists p.
  - rewrite -Hb. intros (t' & -> & Hin%blocked_elem)%list_elem_of_fmap. by apply (parts_insert s t' _ CWoken _ Hin).
Qed.

Lemma step_parts sp s s' : step sp s s' → parts s s'.
Proof.
  intros [Hd|(t & p & Ht & Hs)]%step_cases.
  - intros t p Ht. exists p. split; [|done]. revert Hd.
    rewrite /pthread_cond_demo /pthread_create.
    destruct (main s); try case_bool_decide; simpl; rewrite ?elem_of_cons ?elem_of_nil;
      intros Hs; destruct_or?; subst; first [done|exact Ht|by apply lookup_app_l_Some].
  - revert Hs. destruct p; simpl; rewrite ?right_id_L ?elem_of_nil //; try (by apply (lock_parts t _ _ _ _ Ht));
      try (intros ->%list_elem_of_singleton; by eapply (parts_insert s t _ _ _ Ht)).
    + intros ->%list_elem_of_singleton. case_bool_decide; by eapply (parts_insert s t _ _ _ Ht).
    + destruct sp; [|by intros ?%elem_of_nil]. intros ->%list_elem_of_singleton. by eapply (parts_insert s t _ _ _ Ht).
    + intros ->%list_elem_of_singleton. case_bool_decide; by eapply (parts_insert s t _ _ _ Ht).
    + intros (s1 & -> & Hs1%signal_parts)%list_elem_of_fmap. destruct (Hs1 t _ Ht) as (p1 & Ht1 & Hc1).
      eapply parts_trans; [exact Hs1|]. by eapply (parts_insert s1 t p1).
Qed.

Lemma parts_someone P s s' :
  (∀ p p', consumer p' = consumer p → P p = P p') → parts s s' → someone P s → someone P s'.
Proof.
  intros HP Hs (t & p & Ht & Hp). destruct (Hs t p Ht) as (p' & Ht' & Hc). exists t, p'.
  split; [done|]. by rewrite -(HP p p').
Qed.

Lemma measure_nonneg s : ok s → (0 ≤ measure s)%Z.
Proof.
  intros Hok. pose proof (ok_sum _ Hok). destruct (ok_range _ Hok) as (? & ? & ?).
  pose proof (distances_nonneg (var s) (threads s)). rewrite /measure.
  assert (0 ≤ pending s)%Z; [|lia]. rewrite /pending. repeat case_match; lia.
Qed.

Lemma all_consumed s :
  ok s → someone consumer s → someone (λ p, negb (consumer p)) s →
  ∃ s', rtc (step false) s s' ∧ consumed s' = 10%Z.
Proof.
  remember (Z.to_nat (measure s)) as k eqn:Hk. revert s Hk.
  induction k as [k IH] using lt_wf_ind. intros s -> Hok Hc Hp.
  pose proof (ok_sum _ Hok). destruct (ok_range _ Hok) as (? & ? & ?).
  assert (0 ≤ pending s)%Z by (rewrite /pending; repeat case_match; lia).
  destruct (decide (consumed s = 10)%Z) as [|Hne]; [by exists s|].
  destruct (progress s) as (s1 & Hs1 & Hm); [done..|lia|].
  pose proof (step_ok _ _ _ Hok Hs1) as Hok1. pose proof (step_parts _ _ _ Hs1) as Hparts.
  pose proof (measure_nonneg _ Hok1).
  destruct (IH (Z.to_nat (measure s1))) with (s := s1) as (s' & Hs' & Hdone); [lia|done|done| | |].
  - eapply parts_someone; [|done|done]. by intros p p' ->.
  - eapply parts_someone; [|done|done]. by intros p p' ->.
  - exists s'. split; [|done]. by eapply rtc_l.
Qed.

(** ** Properties *)

(** C8. At most one thread is between a lock and the unlock, the counters stay in
    their ranges, and no product is lost or made up: what is ready, consumed and
    still to be produced sums up to ten. *)
Theorem cond_demo_safe spurious s :
  reachable spurious s →
  (∀ t t' p p', threads s !! t = Some p → threads s !! t' = Some p' →
     critical p = true → critical p' = true → t = t') ∧
  (0 ≤ nready s ≤ 10 ∧ 0 ≤ var s ≤ 2)%Z ∧
  (nready s + consumed s + 5 * var s + pending s = 10)%Z.
Proof.
  intros Hok%reachable_ok. pose proof (ok_sum _ Hok). destruct (ok_range _ Hok) as (? & ? & ?).
  assert (0 ≤ pending s)%Z by (rewrite /pending; repeat case_match; lia).
  split; [|split; [lia|done]].
  intros t t' p p' Ht Ht' Hp Hp'. apply (ok_mutex _ Hok t p Ht) in Hp. apply (ok_mutex _ Hok t' p' Ht') in Hp'.
  congruence.
Qed.

(** C9. No wake-up is lost: while the mutex is free and a product is ready, a
    blocked consumer is not the only one, some consumer is awake. *)
Theorem cond_demo_no_lost_wakeup spurious s :
  reachable spurious s → g_mutex s = None → (0 < nready s)%Z → someone asleep s →
  someone (λ p, consumer p && negb (asleep p)) s.
Proof.
  intros Hok%reachable_ok Hm Hn Hs. destruct (ok_attended _ Hok Hn Hs) as [(t & p & Ht & Hp)|]; [|done].
  apply bool_decide_eq_true in Hp as ->.
  assert (g_mutex s = Some t) by by apply (ok_mutex _ Hok t PSignal Ht). congruence.
Qed.

(** C10. The demo never gets stuck: from every state it reaches with a consumer and a
    producer, all ten products can be consumed, without any spurious wake-up. *)
Theorem cond_demo_progress spurious s :
  reachable spurious s → someone consumer s → someone (λ p, negb (consumer p)) s →
  ∃ s', rtc (step false) s s' ∧ consumed s' = 10%Z.
Proof. intros Hok%reachable_ok. by apply all_consumed. Qed.

Lemma run_reachable sp ks s s' : run sp ks s = Some s' → rtc (step sp) s s'.
Proof.
  revert s. induction ks as [|k ks IH]; intros s Hr; simplify_eq/=; [done|].
  destruct (next sp s !! k) as [s1|] eqn:Hs; [|done].
  eapply rtc_l; [by eapply list_elem_of_lookup_2|by apply IH].
Qed.

(** The threads read their index through the address of the loop variable of
    [pthread_cond_demo]: the first consumer may read the index of the second one,
    and the producer the variable of a function that has returned. *)
Theorem cond_demo_index_race :
  ∃ s, reachable false s ∧ threads s !! 0 = Some CLock ∧ threads s !! 2 = Some PLock ∧
    indices s !! 0 = Some (Some 1%Z) ∧ indices s !! 2 = Some None.
Proof.
  destruct (run false [1; 0; 2; 1; 0; 0; 1; 0; 0; 2] start) as [s|] eqn:Hr; [|by vm_compute in Hr].
  exists s. split; [by eapply run_reachable|]. revert Hr. vm_compute. intros [= <-]. by split_and!.
Qed.

Module Runs.
(** One consumer is blocked, the producer has signalled the other one. *)
Definition signalled : state :=
  default start (run false ([1; 0; 1; 0; 0; 1; 0; 0] ++ replicate 15 0) start).

Lemma signalled_reachable : reachable false signalled.
Proof.
  rewrite /signalled. destruct (run false _ start) as [s|] eqn:Hr; [by eapply run_reachable|by vm_compute in Hr].
Qed.

Lemma cond_demo_safe_witness : (nready signalled = 5 ∧ 0 ≤ nready signalled ≤ 10 ∧ 0 ≤ var signalled ≤ 2)%Z.
Proof.
  split; [by vm_compute|]. by destruct (cond_demo_safe false signalled signalled_reachable) as (_ & Hr & _).
Defined.

Lemma cond_demo_no_lost_wakeup_witness :
  threads signalled = [CWoken; CBlocked; PLock] ∧ someone (λ p, consumer p && negb (asleep p)) signalled.
Proof.
  split; [by vm_compute|]. apply (cond_demo_no_lost_wakeup false signalled signalled_reachable);
    [by vm_compute|by vm_compute|by exists 1, CBlocked].
Defined.

Lemma cond_demo_progress_witness :
  consumed signalled = 0%Z ∧ ∃ s', rtc (step false) signalled s' ∧ consumed s' = 10%Z.
Proof.
  split; [by vm_compute|]. apply (cond_demo_progress false signalled signalled_reachable);
    [by exists 0, CWoken|by exists 2, PLock].
Defined.
End Runs.
