(* ===== verification/Variants.v ===== *)
(** * Variants: components that share one memory

    The containers run on a memory of cells of their own type.  A program that
    uses several of them has one memory, whose cells are the variants of a sum
    type.  [lift] runs a function of a component on the memory of the program;
    [embed P] says of the program's cells what [P] says of the component's; and
    the triple of a function carries over ([triple_lift]). *)
From stdpp Require Import base gmap list numbers.
From iris.proofmode Require Import proofmode.
From S2P Require Import Prelude Memory.

(** The cells of type [N] among those of type [B]; [variant_junk] is what a read
    through a pointer of the wrong type gives. *)
Class Variant (N B : Type) := {
  variant : N → B;
  as_variant : B → option N;
  variant_junk : N;
  as_variant_variant n : as_variant (variant n) = Some n;
  as_variant_Some b n : as_variant b = Some n → b = variant n
}.

Section lift.
Context {N B : Type} `{!Variant N B}.

(** A cell of the program, seen by the component. *)
Definition view (b : B) : N := default variant_junk (as_variant b).

(** The cell that the component leaves where the program had [old]; what is not
    a cell of the component stays. *)
Definition put_back (old : option B) (n : N) : B :=
  match old with
  | Some b => match as_variant b with Some _ => variant n | None => b end
  | None => variant n
  end.

(** The program's allocator serves the component. *)
Definition variant_alloc `{Allocator B} : Allocator N := {|
  alloc_choose := alloc_choose (N := B);
  alloc_junk t := view (alloc_junk t);
  alloc_fresh := alloc_fresh (N := B)
|}.

Definition lift {A} `{Allocator B} (c : Allocator N → M N A) : M B A := λ m,
  match c variant_alloc (Mem (view <$> cells m) (ticks m)) with
  | Ok (a, m') =>
      Ok (a, Mem (map_imap (λ l n, Some (put_back (cells m !! l) n)) (cells m')) (ticks m'))
  | Err f => Err f
  end.

Lemma view_variant n : view (variant n) = n.
Proof. by rewrite /view as_variant_variant. Qed.

Lemma view_cells (h : gmap loc N) : view <$> (variant <$> h) = h.
Proof.
  rewrite -map_fmap_compose -{2}(map_fmap_id h). apply map_fmap_ext.
  intros l n _. apply view_variant.
Qed.

Lemma put_back_view b : put_back (Some b) (view b) = b.
Proof.
  rewrite /put_back /view. destruct (as_variant b) eqn:E; [|done].
  symmetry. by apply as_variant_Some.
Qed.

Lemma put_back_variant (o : option N) n : put_back (variant <$> o) n = variant n.
Proof. destruct o; [|done]. by rewrite /= as_variant_variant. Qed.

(** The component changed its own cells from [h] to [h'] and left the frame. *)
Lemma put_back_frame (h h' : gmap loc N) (hf : gmap loc B) :
  h' ##ₘ (view <$> hf) → (variant <$> h) ##ₘ hf →
  map_imap (λ l n, Some (put_back (((variant <$> h) ∪ hf) !! l) n)) (h' ∪ (view <$> hf)) =
    (variant <$> h') ∪ hf.
Proof.
  intros Hd Hd'. apply map_eq. intros l. rewrite map_lookup_imap !lookup_union !lookup_fmap.
  destruct (h' !! l) as [n|] eqn:Hn; simpl.
  - assert (hf !! l = None) as ->.
    { destruct (hf !! l) as [b|] eqn:Hb; [|done]. exfalso.
      apply (map_disjoint_spec h' (view <$> hf)) with l n (view b) in Hd; [done..|].
      by rewrite lookup_fmap Hb. }
    rewrite /= !(right_id_L None union) put_back_variant. done.
  - destruct (hf !! l) as [b|] eqn:Hb; [|by rewrite !(left_id_L None union)].
    assert (h !! l = None) as ->.
    { destruct (h !! l) as [n|] eqn:Hl; [|done]. exfalso.
      apply (map_disjoint_spec (variant <$> h) hf) with l (variant n) b in Hd'; [done| |done].
      by rewrite lookup_fmap Hl. }
    rewrite !(left_id_L None union). exact (f_equal Some (put_back_view b)).
Qed.

(** ** Assertions *)

Definition embed (P : hProp N) : hProp B :=
  HProp (λ h, ∃ h' : gmap loc N, h = variant <$> h' ∧ holds P h').

Lemma holds_embed P (h : gmap loc N) : holds P h → holds (embed P) (variant <$> h).
Proof. intros HP. by exists h. Qed.

Lemma triple_lift {A} `{Allocator B} (P : hProp N) (c : Allocator N → M N A) (Q : A → hProp N) :
  triple P (c variant_alloc) Q → triple (embed P) (lift c) (λ a, embed (Q a)).
Proof.
  intros Hc h hf t Hd (hN & -> & HP).
  assert (hN ##ₘ (view <$> hf)) as HdN.
  { rewrite -(view_cells hN). by apply map_disjoint_fmap. }
  destruct (Hc hN (view <$> hf) t HdN HP) as (a & h' & t' & E & Hd' & HQ).
  exists a, (variant <$> h'), t'. split; [|split].
  - rewrite /lift /= map_fmap_union view_cells E /=. by rewrite put_back_frame.
  - apply map_disjoint_dom. rewrite dom_fmap_L. apply map_disjoint_dom in Hd'.
    by rewrite dom_fmap_L in Hd'.
  - by exists h'.
Qed.

Lemma embed_mono P Q : (P ⊢ Q) → embed P ⊢ embed Q.
Proof. intros [HPQ]. split. intros h (h' & -> & HP). exists h'. auto. Qed.

Lemma variant_inj (h1 h2 : gmap loc N) : variant <$> h1 = variant <$> h2 → h1 = h2.
Proof. intros E. by rewrite -(view_cells h1) E view_cells. Qed.

Lemma embed_sep P Q : embed (P ∗ Q) ⊣⊢ embed P ∗ embed Q.
Proof.
  apply bi.equiv_entails. split; split.
  - intros h (h' & -> & (h1 & h2 & -> & Hd & HP & HQ)).
    exists (variant <$> h1), (variant <$> h2). rewrite map_fmap_union.
    split; [done|]. split; [by apply map_disjoint_fmap|]. split; by eexists.
  - intros h (? & ? & -> & Hd & (h1 & -> & HP) & (h2 & -> & HQ)).
    exists (h1 ∪ h2). rewrite map_fmap_union. split; [done|]. exists h1, h2.
    split; [done|]. split; [|done]. rewrite -(view_cells h1) -(view_cells h2).
    by apply map_disjoint_fmap.
Qed.

Lemma embed_emp : embed emp ⊣⊢ emp.
Proof.
  apply bi.equiv_entails. split; split.
  - intros h (h' & -> & ->). by rewrite /holds /= fmap_empty.
  - intros h ->. exists ∅. by rewrite fmap_empty.
Qed.

Lemma embed_pure φ : embed ⌈ φ ⌉ ⊣⊢ ⌈ φ ⌉.
Proof.
  apply bi.equiv_entails. split; split.
  - intros h (h' & -> & [Hφ ->]%holds_pure). apply holds_pure. by rewrite fmap_empty.
  - intros h [Hφ ->]%holds_pure. exists ∅. rewrite fmap_empty. split; [done|].
    by apply holds_pure.
Qed.

Lemma embed_exist {A} (F : A → hProp N) : embed (∃ a, F a) ⊣⊢ ∃ a, embed (F a).
Proof.
  apply bi.equiv_entails. split; split.
  - intros h (h' & -> & [a Ha]). exists a. by exists h'.
  - intros h [a (h' & -> & Ha)]. exists h'. split; [done|]. by exists a.
Qed.

Lemma embed_or P Q : embed (P ∨ Q) ⊣⊢ embed P ∨ embed Q.
Proof.
  apply bi.equiv_entails. split; split.
  - intros h (h' & -> & [HP|HQ]); [left|right]; by exists h'.
  - intros h [(h' & -> & HP)|(h' & -> & HQ)]; exists h'; (split; [done|]); [by left|by right].
Qed.

Lemma embed_pointsto l n : embed (l ↦ n) ⊣⊢ l ↦ variant n.
Proof.
  apply bi.equiv_entails. split; split.
  - intros h (h' & -> & ->). by rewrite /holds /= map_fmap_singleton.
  - intros h ->. exists {[l := n]}. by rewrite map_fmap_singleton.
Qed.

(** A lifted function, run by the triple of the component. *)
Lemma lift_use {A} `{Allocator B} (P : hProp N) (c : Allocator N → M N A) (Q : A → hProp N) Φ :
  triple P (c variant_alloc) Q →
  embed P -∗ (∀ a, embed (Q a) -∗ Φ a) -∗ wp (lift c) Φ.
Proof. iIntros (Hc) "HP HΦ". iApply (triple_use with "HP HΦ"). by apply triple_lift. Qed.
End lift.

(** [embed] pushed down to the cells. *)
Ltac embeds := rewrite ?embed_exist ?embed_sep ?embed_pure ?embed_emp ?embed_or ?embed_pointsto.
