(* ===== verification/Epoll.v ===== *)
(** * Epoll: the code of epoll.c

    A wrapper around the epoll system calls.  A global list, under a lock, holds
    a block per epoll descriptor, and the block a hash table from descriptors to
    event blocks; the kernel gets the address of the event block with the
    registration.  The memory of the program has list entries, table entries and
    the blocks of this file ([ecell]); list.c and hash-table.c are run on it by
    [lift].

    The globals, and the system calls so far, are the [state] that is passed and
    returned.  The kernel is outside: what the newest call returns is a function
    of all calls ([kernel]).  The keys of the hash tables are addresses of [int]
    variables, hashed and compared by reading them: [int_at] are the values of
    the variables at the time of a call, the parameters of the called function
    being added to it. *)
From stdpp Require Import base gmap list numbers.
From iris.proofmode Require Import proofmode.
From S2P Require Import Prelude Memory Compare Chain Buckets HashTable DChain DList Variants.

(** ** Data *)

(** [void *] values that are addresses of blocks. *)
Definition addr (p : ptr) : value := match p with NULL => VNULL | Some l => Zpos l end.
Definition at_addr (v : value) : ptr := match v with Zpos l => Some l | _ => NULL end.

Record EpollEvent := {
  ev_eplfd : Z;
  ev_fd : Z;
  ev_callback : value;
  ev_data : ptr;
  ev_len : Z
}.
Record BsaeEpoll := { epoll_fd : Z; p_event_hash : option HashTable }.

Inductive ecell :=
  | ListCell (c : ListEntry)
  | TableCell (c : HashTableEntry)
  | EpollCell (b : BsaeEpoll)
  | EventCell (e : EpollEvent)
  | DataCell (bytes : array Z).

Definition as_list_cell (b : ecell) : option ListEntry :=
  match b with ListCell c => Some c | _ => None end.
Definition as_table_cell (b : ecell) : option HashTableEntry :=
  match b with TableCell c => Some c | _ => None end.

#[export] Instance list_variant : Variants.Variant ListEntry ecell.
Proof. refine {| variant := ListCell; as_variant := as_list_cell;
  variant_junk := DNode VNULL NULL NULL |}; [done|by intros [] ? [= ->]]. Defined.
#[export] Instance table_variant : Variants.Variant HashTableEntry ecell.
Proof. refine {| variant := TableCell; as_variant := as_table_cell;
  variant_junk := Cell (VNULL, VNULL) NULL |}; [done|by intros [] ? [= ->]]. Defined.

(** The block a pointer to a [BsaeEpoll], an [EpollEvent] leads to. *)
Definition read_epoll (p : ptr) : M ecell BsaeEpoll :=
  c ← deref p;
  match c with EpollCell b => mret b | _ => fail WildAccess end.
Definition read_event (p : ptr) : M ecell EpollEvent :=
  c ← deref p;
  match c with EventCell e => mret e | _ => fail WildAccess end.

Inductive kernel_call :=
  | KEpollCreate
  | KEpollCtl (epfd op event_fd : Z) (data : ptr)
  | KEpollWait (epfd maxevents timeout : Z)
  | KClose (fd : Z)
  | KTimerCreate
  | KTimerSet (tfd value_s value_ns interval_s interval_ns : Z)
  | KClockGet
  | KThreadCreate
  | KEventFd
  | KWrite (fd event : Z)
  | KRead (fd : Z).

#[export] Instance kernel_call_eq_dec : EqDecision kernel_call.
Proof. solve_decision. Defined.

Record state := {
  g_p_epoll_list : ptr;
  g_epoll_list_lock : bool;
  kernel_calls : list kernel_call
}.
Definition set_list (l : ptr) (st : state) : state :=
  {| g_p_epoll_list := l; g_epoll_list_lock := g_epoll_list_lock st;
     kernel_calls := kernel_calls st |}.
Definition set_lock (b : bool) (st : state) : state :=
  {| g_p_epoll_list := g_p_epoll_list st; g_epoll_list_lock := b;
     kernel_calls := kernel_calls st |}.
Definition add_call (c : kernel_call) (st : state) : state :=
  {| g_p_epoll_list := g_p_epoll_list st; g_epoll_list_lock := g_epoll_list_lock st;
     kernel_calls := c :: kernel_calls st |}.

Definition EPOLL_CTL_ADD : Z := 1.
Definition EPOLL_CTL_DEL : Z := 2.
Definition EPOLL_CTL_MOD : Z := 3.

(** [int_at] with the variable at [a] holding [z]. *)
Definition bind_int (a : value) (z : Z) (int_at : value → Z) : value → Z :=
  λ x, if bool_decide (x = a) then z else int_at x.

(** A table whose callbacks, int_hash and int_equal, read the variables as they
    are now. *)
Definition at_call (int_at : value → Z) (ht : HashTable) : HashTable :=
  {| table := table ht; table_size := table_size ht; hash_func := int_hash int_at;
     equal_func := int_equal int_at; key_free_func := key_free_func ht;
     value_free_func := value_free_func ht; entries := entries ht;
     prime_index := prime_index ht; calls := [] |}.

Section epoll_c.
Context `{Allocator ecell}.
Context (fuel : nat).
(** The result of the newest system call, the head of the list. *)
Context (kernel : list kernel_call → Z).

Definition syscall (c : kernel_call) (st : state) : Z * state :=
  (kernel (c :: kernel_calls st), add_call c st).

(** The macros [SAFE_CLOSE] and [SAFE_FREE]. *)
Definition safe_close (fd : Z) (st : state) : Z * state :=
  if bool_decide (fd > 0)%Z then ((-1)%Z, (syscall (KClose fd) st).2) else (fd, st).
Definition safe_free (p : ptr) : M ecell unit :=
  match p with
  | NULL => mret tt
  | Some _ => free p
  end.

(** [base_rwlock_wrlock], [base_rwlock_unlock] on [g_epoll_list_lock], by one
    thread. *)
Definition base_rwlock_wrlock (st : state) : M ecell state :=
  if g_epoll_list_lock st then fail Deadlock else mret (set_lock true st).
Definition base_rwlock_unlock (st : state) : M ecell state := mret (set_lock false st).

Definition base_epoll_free_event_block (p_data : value) : M ecell unit :=
  if bool_decide (p_data = VNULL) then mret tt
  else
    let p_evt_block := at_addr p_data in
    e ← read_event p_evt_block;
    _ ← match ev_data e with
        | NULL => mret tt
        | Some _ =>
            _ ← free (ev_data e);
            assign p_evt_block (EventCell {| ev_eplfd := ev_eplfd e; ev_fd := ev_fd e;
              ev_callback := ev_callback e; ev_data := NULL; ev_len := ev_len e |})
        end;
    free p_evt_block.

(** The calls that a table made to its free functions; only the one for values
    is registered. *)
Fixpoint run_calls (cs : list free_call) : M ecell unit :=
  match cs with
  | [] => mret tt
  | KeyFree _ :: cs => run_calls cs
  | ValueFree v :: cs => _ ← base_epoll_free_event_block v; run_calls cs
  end.

Definition base_epoll_free_event_hash (int_at : value → Z) (p_event_hash : option HashTable) :
    M ecell unit :=
  match p_event_hash with
  | None => fail NullDeref
  | Some ht =>
      cs ← lift (λ _, hash_table_free fuel (at_call int_at ht));
      run_calls cs
  end.

Definition base_epoll_list_equal (int_at : value → Z) (value1 value2 : value) : M ecell Z :=
  if bool_decide (value1 = VNULL) then fail AssertFailed
  else if bool_decide (value2 = VNULL) then fail AssertFailed
  else
    p_epoll ← read_epoll (at_addr value1);
    mret (if bool_decide (epoll_fd p_epoll = int_at value2) then 1%Z else 0%Z).

(** The callback as [list_find_data] sees it: the walk also ends at an entry on
    which the callback faults. *)
Definition list_equal_in (m : mem ecell) (int_at : value → Z) (value1 value2 : value) : Z :=
  match base_epoll_list_equal int_at value1 value2 m with
  | Ok (z, _) => z
  | Err _ => 1%Z
  end.

(** [list_find_data(g_p_epoll_list, base_epoll_list_equal, &epfd)]; the fault of
    the callback on the entry where the walk ended is that of the whole. *)
Definition find_epoll (list : ptr) (int_at : value → Z) (p_epfd : value) : M ecell ptr :=
  peek (λ m,
    p_node ← lift (λ _, list_find_data fuel list (list_equal_in m int_at) p_epfd);
    match p_node with
    | NULL => mret NULL
    | Some _ =>
        e ← lift (λ _, deref p_node);
        _ ← base_epoll_list_equal int_at (d_data e) p_epfd;
        mret p_node
    end).

(** An operation on [p_epoll->p_event_hash], with the calls it makes. *)
Definition on_event_hash {A} (p_epoll : ptr) (int_at : value → Z)
    (op : Allocator HashTableEntry → HashTable → M HashTableEntry (A * HashTable)) : M ecell A :=
  b ← read_epoll p_epoll;
  match p_event_hash b with
  | None => fail NullDeref
  | Some ht =>
      '(r, ht) ← lift (λ alloc, op alloc (at_call int_at ht));
      _ ← run_calls (calls ht);
      _ ← assign p_epoll (EpollCell {| epoll_fd := epoll_fd b; p_event_hash := Some ht |});
      mret r
  end.

Definition base_epoll_create (int_at : value → Z) (st : state) : M ecell (Z * state) :=
  let '(eplfd, st) := syscall KEpollCreate st in
  if bool_decide (eplfd ≤ 0)%Z then mret ((-1)%Z, st)
  else
    p_hash ← lift (λ _, hash_table_new (int_hash int_at) (int_equal int_at));
    match p_hash with
    | None => mret (safe_close eplfd st)
    | Some ht =>
        let ht := hash_table_register_free_functions ht false true in
        p_epoll ← malloc;
        match p_epoll with
        | NULL => mret (safe_close eplfd st)
        | Some _ =>
            _ ← assign p_epoll (EpollCell {| epoll_fd := 0; p_event_hash := None |});
            _ ← assign p_epoll (EpollCell {| epoll_fd := eplfd; p_event_hash := None |});
            _ ← assign p_epoll (EpollCell {| epoll_fd := eplfd; p_event_hash := Some ht |});
            st ← base_rwlock_wrlock st;
            '(_, l) ← lift (λ _, list_append fuel (g_p_epoll_list st) (addr p_epoll));
            st ← base_rwlock_unlock (set_list l st);
            mret (eplfd, st)
        end
    end.

(** [p_epfd]: the address of the parameter. *)
Definition base_epoll_close (int_at : value → Z) (p_epfd : value) (epfd : Z) (st : state) :
    M ecell state :=
  let int_at := bind_int p_epfd epfd int_at in
  if bool_decide (epfd = -1)%Z then mret st
  else
    st ← base_rwlock_wrlock st;
    p_node ← find_epoll (g_p_epoll_list st) int_at p_epfd;
    match p_node with
    | NULL =>
        st ← base_rwlock_unlock st;
        mret (safe_close epfd st).2
    | Some _ =>
        e ← lift (λ _, deref p_node);
        let p_epoll := at_addr (d_data e) in
        '(_, l) ← lift (λ _, list_remove_entry (g_p_epoll_list st) p_node);
        st ← base_rwlock_unlock (set_list l st);
        b ← read_epoll p_epoll;
        _ ← base_epoll_free_event_hash int_at (p_event_hash b);
        _ ← safe_free p_epoll;
        mret (safe_close epfd st).2
    end.

(** The part that ADD and MOD have in common: the new event block, its
    registration with the kernel, and its entry in the table.  The result is
    [ret] and [p_evt_blk]. *)
Definition add_event_block (int_at : value → Z) (p_epoll : ptr) (epfd op event_fd : Z)
    (p_event_fd : value) (p_epoll_type : option EpollEvent) (st : state) :
    M ecell (Z * ptr * state) :=
  p_evt_blk ← malloc;
  match p_evt_blk with
  | NULL => mret ((-1)%Z, NULL, st)
  | Some _ =>
      _ ← assign p_evt_blk (EventCell {| ev_eplfd := 0; ev_fd := 0; ev_callback := VNULL;
                                         ev_data := NULL; ev_len := 0 |});
      match p_epoll_type with
      | None => fail NullDeref
      | Some e =>
          _ ← assign p_evt_blk (EventCell e);
          let '(ret, st) := syscall (KEpollCtl epfd op event_fd p_evt_blk) st in
          if bool_decide (ret ≠ 0)%Z then mret ((-1)%Z, p_evt_blk, st)
          else
            _ ← on_event_hash p_epoll int_at (λ _ ht,
                  hash_table_insert fuel ht p_event_fd (addr p_evt_blk));
            mret (ret, p_evt_blk, st)
      end
  end.

Definition remove_event_block (int_at : value → Z) (p_epoll : ptr) (p_event_fd : value) :
    M ecell Z :=
  on_event_hash p_epoll int_at (λ _ ht, hash_table_remove fuel ht p_event_fd).

(** The [switch]; the result is [ret] and [p_evt_blk].  For DEL the kernel is
    given an event that it does not read. *)
Definition ctl_switch (int_at : value → Z) (p_epoll : ptr) (epfd op event_fd : Z)
    (p_event_fd : value) (p_epoll_type : option EpollEvent) (st : state) :
    M ecell (Z * ptr * state) :=
  if bool_decide (op = EPOLL_CTL_ADD) then
    add_event_block int_at p_epoll epfd op event_fd p_event_fd p_epoll_type st
  else if bool_decide (op = EPOLL_CTL_DEL) then
    let '(ret, st) := syscall (KEpollCtl epfd op event_fd NULL) st in
    _ ← remove_event_block int_at p_epoll p_event_fd;
    mret (ret, NULL, st)
  else if bool_decide (op = EPOLL_CTL_MOD) then
    _ ← remove_event_block int_at p_epoll p_event_fd;
    add_event_block int_at p_epoll epfd op event_fd p_event_fd p_epoll_type st
  else mret (0%Z, NULL, st).

(** From the label [EXIT] on. *)
Definition ctl_exit (r : Z * ptr * state) : M ecell (Z * state) :=
  let '(ret, p_evt_blk, st) := r in
  st ← base_rwlock_unlock st;
  _ ← (if bool_decide (ret = -1)%Z then safe_free p_evt_blk else mret tt);
  mret (ret, st).

(** [p_epfd], [p_event_fd]: the addresses of the parameters; [p_epoll_type]: the
    event block that the caller points to. *)
Definition base_epoll_ctl (int_at : value → Z) (p_epfd p_event_fd : value)
    (epfd op event_fd : Z) (p_epoll_type : option EpollEvent) (st : state) :
    M ecell (Z * state) :=
  let int_at := bind_int p_epfd epfd (bind_int p_event_fd event_fd int_at) in
  if bool_decide (epfd ≤ 0)%Z then fail AssertFailed
  else if bool_decide (event_fd ≤ 0)%Z then fail AssertFailed
  else
    st ← base_rwlock_wrlock st;
    p_node ← find_epoll (g_p_epoll_list st) int_at p_epfd;
    r ← match p_node with
        | NULL => mret (0%Z, NULL, st)
        | Some _ =>
            e ← lift (λ _, deref p_node);
            ctl_switch int_at (at_addr (d_data e)) epfd op event_fd p_event_fd p_epoll_type st
        end;
    ctl_exit r.

(** [events] is null or not; what the kernel writes there is not kept. *)
Definition base_epoll_wait (epfd : Z) (events : bool) (maxevents timeout : Z) (st : state) :
    Z * state :=
  if bool_decide (epfd < 0)%Z || negb events then ((-1)%Z, st)
  else syscall (KEpollWait epfd maxevents timeout) st.

Definition base_epoll_init (st : state) : state := set_lock false st.
Definition base_epoll_fini (st : state) : state := st.

(** *** The thread that waits for events *)

(** What the newest [epoll_wait] wrote: flags and registered addresses. *)
Context (delivered : list kernel_call → list (Z * ptr)).
(** The functions behind the [callback] fields, applied to their arguments. *)
Context (callback : value → ptr → Z → state → M ecell state).

Definition EPOLLIN : Z := 1.
Definition EPOLLERR : Z := 8.
Definition EPOLLHUP : Z := 16.
Definition MX_EVNTS : Z := 10.

Definition flagged (flag events : Z) : bool := bool_decide (Z.land flag events ≠ 0)%Z.

(** [epoll_data->callback(epoll_data, sizeof(epoll_data))] *)
Definition call_event (epoll_data : ptr) (st : state) : M ecell state :=
  e ← read_event epoll_data;
  callback (ev_callback e) epoll_data 8 st.

(** The [for] loop over the [n] events, [call] being the call of the callback; the
    result tells whether it was left for the label [EXIT]. *)
Fixpoint handle_events (call : ptr → state → M ecell state) (n : nat) (evnts : list (Z * ptr))
    (st : state) : M ecell (bool * state) :=
  match n, evnts with
  | O, _ => mret (false, st)
  | S n, [] => fail Uninitialised
  | S n, (events, epoll_data) :: evnts =>
      if flagged EPOLLIN events then
        match epoll_data with
        | NULL => handle_events call n evnts st
        | Some _ =>
            st ← call epoll_data st;
            handle_events call n evnts st
        end
      else if flagged EPOLLHUP events then mret (true, st)
      else if flagged EPOLLERR events then mret (true, st)
      else handle_events call n evnts st
  end.

Definition epoll_thread (eplfd : Z) (st : state) : M ecell state :=
  st ← loop fuel (λ st,
    let '(n, st) := base_epoll_wait eplfd true MX_EVNTS 0 st in
    if bool_decide (n < 0)%Z then mret (inr st)
    else
      '(stop, st) ← handle_events call_event (Z.to_nat n) (delivered (kernel_calls st)) st;
      mret (if stop : bool then inr st else inl st)) st;
  mret (add_call (KClose eplfd) st).
End epoll_c.
