(* ===== verification/EpollOps.v ===== *)
(** * EpollOps: correctness of epoll.c

    [epolls hd ds]: memory holds the global list and, for every open epoll
    descriptor, its block, its hash table and the event blocks that the table
    binds.  The keys of a table are addresses of variables; a description keeps
    what the variables held when the table was last used ([e_ints]), and the
    operations on the table ask that its keys read the same now.  The operations
    are shown to do to the descriptions [ds] what they do to memory, on every
    branch. *)
From stdpp Require Import base gmap list numbers.
From iris.proofmode Require Import proofmode.
From S2P Require Import Prelude Memory Compare Chain Buckets HashTable DChain DList Variants Epoll.

(** An event block with the bytes of its data, and where it is; the key under
    which the table has it. *)
Abbreviation event := (loc * (EpollEvent * array Z))%type.
Abbreviation binding := (value * event)%type.

(** An epoll descriptor: its list node, its block, the descriptor itself, its
    table, what the keys of the table read, and the bindings. *)
Record epoll := {
  e_node : loc;
  e_block : loc;
  e_fd : Z;
  e_table : HashTable;
  e_ints : value → Z;
  e_events : list binding
}.

(** The pairs in the table. *)
Definition pair_of (b : binding) : KeyValue := (b.1, addr (Some b.2.1)).
Definition entry_of (d : epoll) : loc * value := (e_node d, addr (Some (e_block d))).

(** The bindings of a key and the others, the keys being read by [int_at]. *)
Definition bound (int_at : value → Z) (k : value) (evs : list binding) : list binding :=
  filter (λ b, int_at b.1 = int_at k) evs.
Definition others (int_at : value → Z) (k : value) (evs : list binding) : list binding :=
  filter (λ b, int_at b.1 ≠ int_at k) evs.

(** The data an event block takes over; without any the bytes do not matter. *)
Definition own_data (d : ptr) (bytes : array Z) : hProp ecell :=
  match d with
  | NULL => emp
  | Some l => l ↦ DataCell bytes
  end.
Definition own_event (b : event) : hProp ecell :=
  b.1 ↦ EventCell b.2.1 ∗ own_data (ev_data b.2.1) b.2.2.
Definition own_events (evs : list binding) : hProp ecell := [∗ list] b ∈ evs, own_event b.2.

(** The table of a descriptor and its events. *)
Definition own_table (int_at : value → Z) (ht : HashTable) (evs : list binding) : hProp ecell :=
  ⌈ key_free_func ht = false ∧ value_free_func ht = true ⌉ ∗
  embed (hashtable (at_call int_at ht) (pair_of <$> evs)) ∗ own_events evs.

Definition own_epoll (d : epoll) : hProp ecell :=
  e_block d ↦ EpollCell {| epoll_fd := e_fd d; p_event_hash := Some (e_table d) |} ∗
  own_table (e_ints d) (e_table d) (e_events d).

Definition epolls (hd : ptr) (ds : list epoll) : hProp ecell :=
  ⌈ hd = start (entry_of <$> ds) NULL ⌉ ∗
  embed (dchain NULL (entry_of <$> ds) NULL) ∗ [∗ list] d ∈ ds, own_epoll d.

(** ** Reading the keys *)

(** It only matters what the keys of a table read. *)
Lemma hashtable_ints int1 int2 ht kvs :
  (∀ kv, kv ∈ kvs → int1 kv.1 = int2 kv.1) →
  hashtable (at_call int1 ht) kvs ⊢ hashtable (at_call int2 ht) kvs.
Proof.
  intros Hkv. iIntros "(%bs & %Hok & %Hp & H)". iExists bs. iFrame. iPureIntro. split; [|done].
  destruct Hok as [? ? ? ? Hpl Hd ? ?]. split; try done.
  - intros i es e Hi He. rewrite -(Hpl i es e Hi He) /= /int_hash Hkv //.
    rewrite Hp. apply list_elem_of_fmap. exists e. split; [done|].
    apply list_elem_of_In, in_concat. exists es. split; apply list_elem_of_In; [|done].
    by eapply list_elem_of_lookup_2.
  - intros k. destruct (hit fst (equal_func (at_call int2 ht)) k (payloads bs)) as [|x xs] eqn:E;
      [simpl; lia|].
    assert (x ∈ hit fst (equal_func (at_call int2 ht)) k (payloads bs)) as Hx.
    { rewrite E. by left. }
    apply list_elem_of_filter in Hx as [Hxk Hx]. rewrite -E.
    specialize (Hd x.1). rewrite /hit in Hd |- *. etrans; [|exact Hd]. apply Nat.eq_le_incl. f_equal.
    apply filter_agree. intros y Hy.
    simpl in Hxk |- *. rewrite /int_equal in Hxk |- *. rewrite -!Hp in Hx, Hy.
    rewrite !(Hkv _ Hx) !(Hkv _ Hy).
    repeat case_bool_decide; split; intros; try done; congruence.
Qed.

Lemma own_table_ints int1 int2 ht evs :
  (∀ b, b ∈ evs → int1 b.1 = int2 b.1) → own_table int1 ht evs ⊢ own_table int2 ht evs.
Proof.
  iIntros (Hb) "($ & H & $)". iApply (embed_mono with "H"). apply hashtable_ints.
  intros kv (b & -> & Hin)%list_elem_of_fmap. by apply Hb.
Qed.

Section proofs.
Context `{Allocator ecell}.
Context (fuel : nat).

(** ** Blocks *)
Lemma wp_read_epoll l b (Φ : BsaeEpoll → hProp ecell) :
  l ↦ EpollCell b -∗ (l ↦ EpollCell b -∗ Φ b) -∗ wp (read_epoll (Some l)) Φ.
Proof. iIntros "Hl HΦ". rewrite /read_epoll. wp_load. wp_pures. by iApply "HΦ". Qed.

Lemma wp_read_event l e (Φ : EpollEvent → hProp ecell) :
  l ↦ EventCell e -∗ (l ↦ EventCell e -∗ Φ e) -∗ wp (read_event (Some l)) Φ.
Proof. iIntros "Hl HΦ". rewrite /read_event. wp_load. wp_pures. by iApply "HΦ". Qed.

(** An event block goes with its data. *)
Lemma free_event_block_spec b :
  {{ own_event b }} base_epoll_free_event_block (addr (Some b.1)) {{ _, emp }}.
Proof.
  destruct b as [l [e bytes]]. apply triple_wp. iIntros "[Hl Hd]". simpl.
  rewrite /base_epoll_free_event_block bool_decide_eq_false_2; [|done]. simpl.
  wp_bind. iApply (wp_read_event with "Hl"). iIntros "Hl".
  destruct (ev_data e) as [d|] eqn:E; simpl.
  - wp_free. wp_store. wp_free. done.
  - wp_pures. wp_free. done.
Qed.

Lemma run_calls_spec evs :
  {{ own_events evs }} run_calls ((λ b, ValueFree (pair_of b).2) <$> evs) {{ _, emp }}.
Proof.
  induction evs as [|b evs IH]; apply triple_wp; iIntros "H"; simpl; [by wp_pures|].
  rewrite /own_events /=. iDestruct "H" as "[Hb H]".
  wp_call free_event_block_spec with "Hb". iIntros (_) "_".
  iApply (triple_use with "H"); [exact IH|]. by iIntros (_) "_".
Qed.

(** The calls of a table with the registered function. *)
Lemma release_calls_pairs ht evs :
  key_free_func ht = false → value_free_func ht = true →
  flat_map (release_calls ht) (pair_of <$> evs) = (λ b, ValueFree (pair_of b).2) <$> evs.
Proof.
  intros Hk Hv. induction evs as [|b evs IH]; [done|].
  by rewrite /= IH /release_calls Hk Hv.
Qed.
Lemma overwrite_calls_pairs ht evs :
  key_free_func ht = false → value_free_func ht = true →
  flat_map (overwrite_calls ht) (pair_of <$> evs) = (λ b, ValueFree (pair_of b).2) <$> evs.
Proof.
  intros Hk Hv. induction evs as [|b evs IH]; [done|].
  by rewrite /= IH /overwrite_calls Hk Hv.
Qed.

(** Keys of pairs and of bindings. *)
Lemma hit_pairs int_at ht k evs :
  hit fst (equal_func (at_call int_at ht)) k (pair_of <$> evs) = pair_of <$> bound int_at k evs.
Proof.
  induction evs as [|b evs IH]; [done|]. rewrite /hit /bound /= !filter_cons.
  rewrite -/(hit fst (int_equal int_at) k (pair_of <$> evs)) -/(bound int_at k evs) IH.
  rewrite /int_equal /=. repeat case_decide; case_bool_decide; try done; lia.
Qed.
Lemma miss_pairs int_at ht k evs :
  miss fst (equal_func (at_call int_at ht)) k (pair_of <$> evs) = pair_of <$> others int_at k evs.
Proof.
  induction evs as [|b evs IH]; [done|]. rewrite /miss /others /= !filter_cons.
  rewrite -/(miss fst (int_equal int_at) k (pair_of <$> evs)) -/(others int_at k evs) IH.
  rewrite /int_equal /=. repeat case_decide; case_bool_decide; try done; lia.
Qed.
Lemma own_events_split int_at k evs :
  own_events evs ⊢ own_events (bound int_at k evs) ∗ own_events (others int_at k evs).
Proof.
  rewrite /own_events -big_sepL_app /bound /others.
  rewrite {1}(filter_app_complement (λ b : binding, int_at b.1 = int_at k) evs). done.
Qed.

(** ** The hash tables of events *)
Lemma hashtable_at_call int_at ht kvs :
  hash_func ht = int_hash int_at → equal_func ht = int_equal int_at →
  hashtable ht kvs ⊢ hashtable (at_call int_at ht) kvs.
Proof.
  iIntros (Hh He) "(%bs & %Hok & %Hp & H)". iExists bs. iFrame. iPureIntro. split; [|done].
  rewrite /ht_ok /= -Hh -He. exact Hok.
Qed.

(** The table after an operation that kept its callbacks. *)
Lemma own_table_after int_at ht ht' evs :
  key_free_func ht = false → value_free_func ht = true → same_client (at_call int_at ht) ht' →
  embed (hashtable ht' (pair_of <$> evs)) ∗ own_events evs ⊢ own_table int_at ht' evs.
Proof.
  iIntros (Hk Hv (Hh & He & Hk' & Hv')) "[H $]". iSplit.
  - iPureIntro. by rewrite Hk' Hv' /= Hk Hv.
  - iApply (embed_mono with "H"). by apply hashtable_at_call.
Qed.

(** What an insertion leaves: the new binding, or the table as it was. *)
Definition after_insert (int_at : value → Z) (ht : HashTable) (k : value) (b : event)
    (evs : list binding) : hProp ecell :=
  own_table int_at ht ((k, b) :: others int_at k evs) ∨
  ⌈ @can_fail ecell _ ⌉ ∗ own_table int_at ht evs ∗ own_event b.

Definition table_room (evs : list binding) : Prop :=
  length evs < fuel ∧ (3 * length evs < max_prime)%Z.

Lemma insert_event_spec int_at l fd ht evs k b :
  table_room evs →
  {{ l ↦ EpollCell {| epoll_fd := fd; p_event_hash := Some ht |} ∗ own_table int_at ht evs ∗
     own_event b }}
  on_event_hash (Some l) int_at (λ _ ht, hash_table_insert fuel ht k (addr (Some b.1)))
  {{ _, ∃ ht', l ↦ EpollCell {| epoll_fd := fd; p_event_hash := Some ht' |} ∗
        after_insert int_at ht' k b evs }}.
Proof.
  intros [Hf Hmax]. apply triple_wp. iIntros "(Hl & ([%Hk %Hv] & Ht & Hev) & Hb)".
  rewrite /on_event_hash. wp_bind. iApply (wp_read_epoll with "Hl"). iIntros "Hl". simpl.
  wp_bind. iApply (lift_use with "Ht").
  { apply hash_table_insert_spec; [apply _|by rewrite length_fmap..]. }
  iIntros ([r ht']) "Ht". iEval (embeds) in "Ht". iDestruct "Ht" as "[%Hsame Ht]". wp_pures.
  iDestruct "Ht" as "[Ht|Ht]"; iEval (rewrite /inserted /refused; embeds) in "Ht".
  - iDestruct "Ht" as "(_ & %Hc & Ht)".
    rewrite Hc (hit_pairs int_at ht) overwrite_calls_pairs //. simpl app.
    rewrite (miss_pairs int_at ht). iDestruct (own_events_split int_at k with "Hev") as "[Hold Hev]".
    wp_bind. iApply (triple_use with "Hold"); [apply run_calls_spec|]. iIntros (_) "_".
    wp_store. wp_pures. iExists ht'. iFrame "Hl". iLeft.
    iApply own_table_after; [done..|]. by iFrame.
  - iDestruct "Ht" as "(_ & %Hfail & %Hc & Ht)". rewrite Hc /=. wp_pures. wp_store. wp_pures.
    iExists ht'. iFrame "Hl". iRight. iFrame "Hb". iSplit; [done|].
    iApply own_table_after; [done..|]. by iFrame.
Qed.

Lemma remove_event_spec int_at l fd ht evs k :
  length evs < fuel → (length evs ≤ INT_MAX)%Z →
  {{ l ↦ EpollCell {| epoll_fd := fd; p_event_hash := Some ht |} ∗ own_table int_at ht evs }}
  remove_event_block fuel int_at (Some l) k
  {{ r, ∃ ht', ⌈ r = length (bound int_at k evs) ⌉ ∗
        l ↦ EpollCell {| epoll_fd := fd; p_event_hash := Some ht' |} ∗
        own_table int_at ht' (others int_at k evs) }}.
Proof.
  intros Hf Hmax. apply triple_wp. iIntros "(Hl & ([%Hk %Hv] & Ht & Hev))".
  rewrite /remove_event_block /on_event_hash. wp_bind. iApply (wp_read_epoll with "Hl").
  iIntros "Hl". simpl. wp_bind. iApply (lift_use with "Ht").
  { apply hash_table_remove_spec; [apply _|by rewrite length_fmap..]. }
  iIntros ([r ht']) "Ht". iEval (embeds) in "Ht".
  iDestruct "Ht" as "(%Hsame & %Hr & %Hc & Ht)". wp_pures.
  rewrite Hc (hit_pairs int_at ht) release_calls_pairs //. simpl app. rewrite (miss_pairs int_at ht).
  iDestruct (own_events_split int_at k with "Hev") as "[Hold Hev]".
  wp_bind. iApply (triple_use with "Hold"); [apply run_calls_spec|]. iIntros (_) "_".
  wp_store. wp_pures. iExists ht'. iFrame "Hl". iSplit.
  { iPureIntro. by rewrite Hr (hit_pairs int_at ht) length_fmap. }
  iApply own_table_after; [done..|]. by iFrame.
Qed.

(** The release of a table does not look at the keys. *)
Lemma free_event_hash_spec int_at ints ht evs :
  length evs < fuel →
  {{ own_table ints ht evs }} base_epoll_free_event_hash fuel int_at (Some ht) {{ _, emp }}.
Proof.
  intros Hf. apply triple_wp. iIntros "([%Hk %Hv] & Ht & Hev)".
  rewrite /base_epoll_free_event_hash. wp_bind.
  iDestruct (embed_mono _ _ (hashtable_chained _ _) with "Ht") as "Ht".
  iApply (lift_use with "Ht").
  { apply (hash_table_free_spec fuel (at_call int_at ht)). by rewrite length_fmap. }
  iIntros (cs) "Ht". iEval (embeds) in "Ht". iDestruct "Ht" as (order) "Ht".
  iEval (embeds) in "Ht". iDestruct "Ht" as "[%Hp %Hc]".
  apply Permutation_map_inv in Hp as (evs' & -> & Hp).
  rewrite Hc /= release_calls_pairs //. rewrite /own_events Hp.
  iApply (triple_use with "Hev"); [apply run_calls_spec|]. by iIntros (_) "_".
Qed.

(** ** The list of descriptors *)

(** The description the code works on: the first with the descriptor. *)
Definition first_epoll (fd : Z) (ds : list epoll) : option epoll :=
  head (filter (λ d, e_fd d = fd) ds).

Lemma first_epoll_Some fd ds d :
  first_epoll fd ds = Some d → ∃ ds1 ds2, ds = ds1 ++ d :: ds2 ∧ e_fd d = fd.
Proof.
  rewrite /first_epoll. intros Hd.
  assert (d ∈ filter (λ d, e_fd d = fd) ds) as [Hfd Hin]%list_elem_of_filter.
  { destruct (filter _ ds); [done|]. injection Hd as ->. left. }
  apply list_elem_of_split in Hin as (ds1 & ds2 & ->). by exists ds1, ds2.
Qed.

Lemma sep_lookup l (c : ecell) P h : holds (l ↦ c ∗ P) h → h !! l = Some c.
Proof. intros (h1 & h2 & -> & _ & -> & _). apply lookup_singleton_union. Qed.

Lemma block_at hd ds d h :
  holds (epolls hd ds) h → d ∈ ds →
  h !! e_block d = Some (EpollCell {| epoll_fd := e_fd d; p_event_hash := Some (e_table d) |}).
Proof.
  intros Hh (ds1 & ds2 & ->)%list_elem_of_split. apply (sep_lookup _ _ True).
  apply (holds_mono (epolls hd (ds1 ++ d :: ds2))); [|done].
  iIntros "(_ & _ & H)". rewrite big_sepL_app /=. iDestruct "H" as "(_ & [$ _] & _)".
Qed.

Lemma read_epoll_run l b m :
  cells m !! l = Some (EpollCell b) → read_epoll (Some l) m = Ok (b, m).
Proof. intros Hl. rewrite /read_epoll. by rewrite (bind_run _ _ _ _ _ (deref_run _ _ _ Hl)). Qed.

(** The callback on the entries of the list. *)
Lemma find_callback int_at hd ds h hf t p_epfd :
  p_epfd ≠ VNULL → holds (epolls hd ds) h →
  fst <$> head (filter (λ e, list_equal_in (Mem (h ∪ hf) t) int_at e.2 p_epfd ≠ 0%Z)
                  (entry_of <$> ds)) =
  e_node <$> first_epoll (int_at p_epfd) ds.
Proof.
  intros Hp Hh. pose proof (λ d, block_at _ _ d _ Hh) as Hb. clear Hh.
  rewrite /first_epoll. induction ds as [|d ds IH]; [done|]. rewrite /= !filter_cons.
  assert (list_equal_in (Mem (h ∪ hf) t) int_at (entry_of d).2 p_epfd =
    if bool_decide (e_fd d = int_at p_epfd) then 1%Z else 0%Z) as ->.
  { rewrite /list_equal_in /base_epoll_list_equal bool_decide_eq_false_2; [|done].
    rewrite bool_decide_eq_false_2 //. erewrite bind_run; last first.
    { apply read_epoll_run, lookup_union_Some_l, Hb. left. }
    done. }
  case_bool_decide as Hd; repeat case_decide; try done.
  apply IH. intros d' Hd'. apply Hb. by right.
Qed.

Lemma entry_deref_spec es1 l a es2 :
  {{ dchain NULL (es1 ++ (l, a) :: es2) NULL }} deref (Some l) {{ n,
    ⌈ d_data n = a ⌉ ∗ dchain NULL (es1 ++ (l, a) :: es2) NULL }}.
Proof.
  apply triple_wp. iIntros "H". iEval (rewrite dchain_app /=) in "H".
  iDestruct "H" as "(H1 & Hl & H2)". wp_load. iSplit; [done|]. rewrite dchain_app /=. iFrame.
Qed.

Lemma find_epoll_spec int_at hd ds p_epfd :
  length ds < fuel → p_epfd ≠ VNULL →
  {{ epolls hd ds }} find_epoll fuel hd int_at p_epfd {{ r,
    ⌈ r = e_node <$> first_epoll (int_at p_epfd) ds ⌉ ∗ epolls hd ds }}.
Proof.
  intros Hf Hp. apply triple_wp. rewrite /find_epoll. apply wp_peek. intros h hf t Hd Hh.
  iIntros "(-> & Hc & Hds)". wp_bind. iApply (lift_use with "Hc").
  { apply list_find_data_spec. by rewrite length_fmap. }
  iIntros (r) "Hc". iEval (embeds) in "Hc". iDestruct "Hc" as "[-> Hc]".
  rewrite (find_callback _ _ _ _ _ _ _ Hp Hh).
  destruct (first_epoll (int_at p_epfd) ds) as [d|] eqn:E; simpl; [|wp_pures; by iFrame].
  apply first_epoll_Some in E as (ds1 & ds2 & -> & Hfd). rewrite fmap_app /=.
  wp_bind. iApply (lift_use with "Hc"); [apply entry_deref_spec|].
  iIntros (e) "Hc". iEval (embeds) in "Hc". iDestruct "Hc" as "[-> Hc]".
  rewrite /base_epoll_list_equal bool_decide_eq_false_2 // bool_decide_eq_false_2 //=.
  iEval (rewrite big_sepL_app /=) in "Hds". iDestruct "Hds" as "(Hds1 & [Hb Ht] & Hds2)".
  wp_bind. iApply (wp_read_epoll with "Hb"). iIntros "Hb". wp_pures.
  iSplit; [done|]. rewrite /epolls fmap_app big_sepL_app /=. iFrame. done.
Qed.

(** The description [d] with another table. *)
Definition with_events (ints : value → Z) (ht : HashTable) (evs : list binding) (d : epoll) : epoll :=
  {| e_node := e_node d; e_block := e_block d; e_fd := e_fd d; e_table := ht;
     e_ints := ints; e_events := evs |}.

Lemma first_epoll_mid fd ds1 d ds2 :
  Forall (λ d, e_fd d ≠ fd) ds1 → e_fd d = fd → first_epoll fd (ds1 ++ d :: ds2) = Some d.
Proof.
  intros Hds Hd. rewrite /first_epoll filter_app. induction Hds as [|d' ds1 Hd' _ IH].
  - by rewrite /= filter_cons_True.
  - by rewrite filter_cons_False.
Qed.

Lemma first_epoll_None fd ds : Forall (λ d, e_fd d ≠ fd) ds → first_epoll fd ds = None.
Proof.
  rewrite /first_epoll. induction 1 as [|d ds Hd _ IH]; [done|]. by rewrite filter_cons_False.
Qed.

(** The same description, when the keys read the same. *)
Lemma own_epoll_ints ints d :
  (∀ b, b ∈ e_events d → e_ints d b.1 = ints b.1) →
  own_epoll d ⊢ own_epoll (with_events ints (e_table d) (e_events d) d).
Proof. iIntros (Hb) "[$ Ht]". by iApply own_table_ints. Qed.

(** Working on one descriptor of the list. *)
Lemma epolls_focus hd ds1 d ds2 :
  epolls hd (ds1 ++ d :: ds2) ⊢
  own_epoll d ∗
  (∀ ints ht evs, own_epoll (with_events ints ht evs d) -∗
             epolls hd (ds1 ++ with_events ints ht evs d :: ds2)).
Proof.
  iIntros "(-> & Hc & H)". iEval (rewrite big_sepL_app /=) in "H".
  iDestruct "H" as "(H1 & $ & H2)". iIntros (ints ht evs) "Hd".
  rewrite /epolls big_sepL_app !fmap_app /=. by iFrame.
Qed.

(** Its node. *)
Lemma wp_entry_deref hd ds1 d ds2 (Φ : ListEntry → hProp ecell) :
  epolls hd (ds1 ++ d :: ds2) -∗
  (∀ n, ⌈ d_data n = addr (Some (e_block d)) ⌉ -∗ epolls hd (ds1 ++ d :: ds2) -∗ Φ n) -∗
  wp (lift (λ _, deref (Some (e_node d)))) Φ.
Proof.
  iIntros "(-> & Hc & H) HΦ". iEval (rewrite fmap_app /=) in "Hc".
  iApply (lift_use with "Hc"); [apply entry_deref_spec|]. iIntros (n) "Hc".
  iEval (embeds) in "Hc". iDestruct "Hc" as "[%Hn Hc]". iApply "HΦ"; [done|].
  iSplit; [done|]. rewrite fmap_app /=. iFrame.
Qed.

Context (kernel : list kernel_call → Z).

(** What [add_event_block] does, [r] being what it returns and [evs'] the
    events of the descriptor afterwards. *)
Definition block_outcome (int_at : value → Z) (c : ptr → kernel_call) (k : value) (e : EpollEvent)
    (bytes : array Z) (evs evs' : list binding) (st : state) (r : Z * ptr * state) : hProp ecell :=
  ⌈ @can_fail ecell _ ∧ r = ((-1)%Z, NULL, st) ∧ evs' = evs ⌉ ∗ own_data (ev_data e) bytes ∨
  ∃ l, let st' := add_call (c (Some l)) st in
    let ret := kernel (kernel_calls st') in
    (⌈ ret ≠ 0%Z ∧ r = ((-1)%Z, Some l, st') ∧ evs' = evs ⌉ ∗ own_event (l, (e, bytes))) ∨
    ⌈ ret = 0%Z ∧ r = (0%Z, Some l, st') ⌉ ∗
    (⌈ evs' = (k, (l, (e, bytes))) :: others int_at k evs ⌉ ∨
     ⌈ @can_fail ecell _ ∧ evs' = evs ⌉ ∗ own_event (l, (e, bytes))).

Lemma add_event_block_spec int_at d ht evs epfd op event_fd k e bytes st :
  table_room evs →
  {{ own_epoll (with_events int_at ht evs d) ∗ own_data (ev_data e) bytes }}
  add_event_block fuel kernel int_at (Some (e_block d)) epfd op event_fd k (Some e) st
  {{ r, ∃ ht' evs', own_epoll (with_events int_at ht' evs' d) ∗
        block_outcome int_at (KEpollCtl epfd op event_fd) k e bytes evs evs' st r }}.
Proof.
  intros Hroom. apply triple_wp. iIntros "([Hb Ht] & Hd)". rewrite /add_event_block.
  wp_malloc l as "Hl"; last first.
  { wp_pures. iExists ht, evs. iFrame "Hb Ht". iLeft. by iFrame. }
  wp_store. wp_store. simpl. case_bool_decide as Hret; wp_pures.
  { iExists ht, evs. iFrame "Hb Ht". iRight. iExists l. iLeft. by iFrame. }
  wp_bind. iApply (triple_use with "[Hb Ht Hl Hd]").
  { by apply (insert_event_spec int_at (e_block d) (e_fd d) ht evs k (l, (e, bytes))). }
  { iFrame "Hb Ht". rewrite /own_event. iFrame. }
  iIntros (z) "(%ht' & Hb & [Ht|(%Hfail & Ht & Hev)])"; wp_pures; iExists ht'.
  - iExists ((k, (l, (e, bytes))) :: others int_at k evs). iFrame "Hb Ht". iRight. iExists l. iRight.
    iSplit; [iPureIntro; by rewrite Hret|]. by iLeft.
  - iExists evs. iFrame "Hb Ht". iRight. iExists l. iRight.
    iSplit; [iPureIntro; by rewrite Hret|]. iRight. by iFrame.
Qed.

(** ** base_epoll_ctl *)

(** The variables that the keys can point to, in a call of [base_epoll_ctl]. *)
Definition ctl_ints (int_at : value → Z) (p_epfd p_event_fd : value) (epfd event_fd : Z) :
    value → Z :=
  bind_int p_epfd epfd (bind_int p_event_fd event_fd int_at).

(** What a call leaves of the globals. *)
Definition unlocked (st st' : state) : Prop :=
  g_p_epoll_list st' = g_p_epoll_list st ∧ g_epoll_list_lock st' = false.

(** The outcomes of a registration: the event block [(l, (e, bytes))] takes the place of
    those with an equal key; or the call fails, and the caller keeps its data; or
    the kernel has the event block but there was no room for it in the table. *)
Definition registration (int_at : value → Z) (c : ptr → kernel_call) (k : value) (e : EpollEvent)
    (bytes : array Z) (evs evs' : list binding) (st st' : state) (ret : Z) : hProp ecell :=
  ⌈ @can_fail ecell _ ∧ ret = (-1)%Z ∧ kernel_calls st' = kernel_calls st ∧ evs' = evs ⌉ ∗
    own_data (ev_data e) bytes ∨
  ∃ l, ⌈ kernel_calls st' = c (Some l) :: kernel_calls st ⌉ ∗
    (⌈ kernel (kernel_calls st') ≠ 0%Z ∧ ret = (-1)%Z ∧ evs' = evs ⌉ ∗ own_data (ev_data e) bytes ∨
     ⌈ kernel (kernel_calls st') = 0%Z ∧ ret = 0%Z ⌉ ∗
     (⌈ evs' = (k, (l, (e, bytes))) :: others int_at k evs ⌉ ∨
      ⌈ @can_fail ecell _ ∧ evs' = evs ⌉ ∗ own_event (l, (e, bytes)))).

Lemma ctl_exit_spec int_at c k e bytes evs evs' st st0 r :
  unlocked st0 (set_lock false st) → kernel_calls st = kernel_calls st0 →
  {{ block_outcome int_at c k e bytes evs evs' st r }} ctl_exit r {{ '(ret, st'),
    ⌈ unlocked st0 st' ⌉ ∗ registration int_at c k e bytes evs evs' st0 st' ret }}.
Proof.
  intros Hst Hc. apply triple_wp. rewrite /block_outcome /registration /=.
  iIntros "[[%Hr Hd]|(%l & [[%Hr [Hl Hd]]|[%Hr H]])]";
    [destruct Hr as (Hf & -> & ->)|destruct Hr as (Hr & -> & ->)|destruct Hr as (Hr & ->)];
    rewrite /ctl_exit /base_rwlock_unlock; wp_pures.
  - iSplit; [done|]. iLeft. by iFrame.
  - wp_free. wp_pures. iSplit; [done|]. iRight. iExists l. rewrite /= Hc.
    iSplit; [done|]. iLeft. rewrite /= -Hc. by iFrame.
  - iSplit; [done|]. iRight. iExists l. rewrite /= Hc. iSplit; [done|]. iRight.
    rewrite /= -Hc. by iFrame.
Qed.

Section ctl.
Context (int_at : value → Z) (p_epfd p_event_fd : value) (epfd event_fd : Z).
Let ints : value → Z := ctl_ints int_at p_epfd p_event_fd epfd event_fd.

(** What the call needs: positive descriptors, addresses of variables, the lock
    free, [d] the first of the list with the descriptor, and its keys readable. *)
Definition ctl_ready (st : state) (ds1 : list epoll) (d : epoll) (ds2 : list epoll) : Prop :=
  (0 < epfd)%Z ∧ (0 < event_fd)%Z ∧ p_epfd ≠ VNULL ∧ g_epoll_list_lock st = false ∧
  length (ds1 ++ d :: ds2) < fuel ∧ Forall (λ d, e_fd d ≠ epfd) ds1 ∧ e_fd d = epfd ∧
  ∀ b, b ∈ e_events d → e_ints d b.1 = ints b.1.

(** From the call to the switch. *)
Lemma wp_ctl_start st ds1 d ds2 op ev (Φ : Z * state → hProp ecell) :
  ctl_ready st ds1 d ds2 →
  epolls (g_p_epoll_list st) (ds1 ++ d :: ds2) -∗
  (epolls (g_p_epoll_list st) (ds1 ++ d :: ds2) -∗
   wp (ctl_switch fuel kernel ints (Some (e_block d)) epfd op event_fd p_event_fd ev
         (set_lock true st)) (λ r, wp (ctl_exit r) Φ)) -∗
  wp (base_epoll_ctl fuel kernel int_at p_epfd p_event_fd epfd op event_fd ev st) Φ.
Proof.
  iIntros ((He & Hev & Hp & Hlock & Hf & Hds1 & Hd & Hints)) "H HΦ".
  rewrite /base_epoll_ctl !bool_decide_eq_false_2; [|lia..]. rewrite /base_rwlock_wrlock Hlock.
  rewrite -/(ctl_ints int_at p_epfd p_event_fd epfd event_fd) -/ints. wp_pures.
  wp_bind. iApply (triple_use with "H"); [by apply find_epoll_spec|]. iIntros (r) "[-> H]".
  replace (ints p_epfd) with epfd by (by rewrite /ints /ctl_ints /bind_int bool_decide_eq_true_2).
  rewrite (first_epoll_mid _ _ _ _ Hds1 Hd) /=. iApply wp_bind. wp_bind.
  iApply (wp_entry_deref with "H"). iIntros (n ->) "H". by iApply "HΦ".
Qed.

(** ADD: see [registration]; nothing but the table of the descriptor changes. *)
Lemma base_epoll_ctl_add_spec st ds1 d ds2 e bytes :
  ctl_ready st ds1 d ds2 → table_room (e_events d) →
  {{ epolls (g_p_epoll_list st) (ds1 ++ d :: ds2) ∗ own_data (ev_data e) bytes }}
  base_epoll_ctl fuel kernel int_at p_epfd p_event_fd epfd EPOLL_CTL_ADD event_fd (Some e) st
  {{ '(ret, st'), ∃ ht' evs', ⌈ unlocked st st' ⌉ ∗
     registration ints (KEpollCtl epfd EPOLL_CTL_ADD event_fd) p_event_fd e bytes (e_events d)
       evs' st st' ret ∗
     epolls (g_p_epoll_list st) (ds1 ++ with_events ints ht' evs' d :: ds2) }}.
Proof.
  intros Hready Hroom. apply triple_wp. iIntros "[H Hd]".
  iApply (wp_ctl_start with "H"); [done|]. iIntros "H".
  iDestruct (epolls_focus with "H") as "[Hep H]". rewrite /ctl_switch /=.
  iDestruct (own_epoll_ints ints with "Hep") as "Hep"; [apply Hready|].
  iApply (triple_use with "[Hep Hd]").
  { by apply (add_event_block_spec ints d (e_table d) (e_events d)). }
  { by iFrame. }
  iIntros (r) "(%ht' & %evs' & Hep & Hr)".
  iApply (triple_use with "Hr"); [by apply (ctl_exit_spec _ _ _ _ _ _ _ (set_lock true st) st)|].
  iIntros ([ret st']) "[%Hu Hr]". iExists ht', evs'. iSplit; [done|]. iFrame "Hr".
  by iApply "H".
Qed.

Lemma wp_ctl_exit_ok (ret : Z) st (Φ : Z * state → hProp ecell) :
  Φ (ret, set_lock false st) -∗ wp (ctl_exit (ret, NULL, st)) Φ.
Proof. iIntros "H". rewrite /ctl_exit /base_rwlock_unlock. wp_pures. case_bool_decide; by wp_pures. Qed.

(** DEL: the event block goes, whatever the kernel answers. *)
Lemma base_epoll_ctl_del_spec st ds1 d ds2 ev :
  ctl_ready st ds1 d ds2 → length (e_events d) < fuel → (length (e_events d) ≤ INT_MAX)%Z →
  {{ epolls (g_p_epoll_list st) (ds1 ++ d :: ds2) }}
  base_epoll_ctl fuel kernel int_at p_epfd p_event_fd epfd EPOLL_CTL_DEL event_fd ev st
  {{ '(ret, st'), ∃ ht', ⌈ unlocked st st' ⌉ ∗
     ⌈ kernel_calls st' = KEpollCtl epfd EPOLL_CTL_DEL event_fd NULL :: kernel_calls st ∧
       ret = kernel (kernel_calls st') ⌉ ∗
     epolls (g_p_epoll_list st)
       (ds1 ++ with_events ints ht' (others ints p_event_fd (e_events d)) d :: ds2) }}.
Proof.
  intros Hready Hf Hmax. apply triple_wp. iIntros "H".
  iApply (wp_ctl_start with "H"); [done|]. iIntros "H".
  iDestruct (epolls_focus with "H") as "[Hep H]". rewrite /ctl_switch /=.
  iDestruct (own_epoll_ints ints with "Hep") as "Hep"; [apply Hready|].
  wp_bind. iApply (triple_use with "Hep"); [by apply remove_event_spec|].
  iIntros (r) "(%ht' & _ & Hep)". iApply wp_ret. iApply wp_ctl_exit_ok. iExists ht'.
  iSplit; [done|]. iSplit; [done|]. iApply "H". by iFrame.
Qed.

(** MOD: the old event block is freed first, and the registration that follows
    can fail like that of ADD. *)
Lemma base_epoll_ctl_mod_spec st ds1 d ds2 e bytes :
  ctl_ready st ds1 d ds2 → table_room (e_events d) →
  {{ epolls (g_p_epoll_list st) (ds1 ++ d :: ds2) ∗ own_data (ev_data e) bytes }}
  base_epoll_ctl fuel kernel int_at p_epfd p_event_fd epfd EPOLL_CTL_MOD event_fd (Some e) st
  {{ '(ret, st'), ∃ ht' evs', ⌈ unlocked st st' ⌉ ∗
     registration ints (KEpollCtl epfd EPOLL_CTL_MOD event_fd) p_event_fd e bytes
       (others ints p_event_fd (e_events d)) evs' st st' ret ∗
     epolls (g_p_epoll_list st) (ds1 ++ with_events ints ht' evs' d :: ds2) }}.
Proof.
  intros Hready Hroom. apply triple_wp. iIntros "[H Hd]".
  assert (length (others ints p_event_fd (e_events d)) ≤ length (e_events d)) as Hlen
    by apply length_filter.
  pose proof Hroom as [Hf Hmax]. rewrite /max_prime in Hmax.
  iApply (wp_ctl_start with "H"); [done|]. iIntros "H".
  iDestruct (epolls_focus with "H") as "[Hep H]". rewrite /ctl_switch /=.
  iDestruct (own_epoll_ints ints with "Hep") as "Hep"; [apply Hready|].
  wp_bind. iApply (triple_use with "Hep").
  { apply (remove_event_spec ints (e_block d) (e_fd d) (e_table d) (e_events d)); [done|int_tac]. }
  iIntros (r) "(%ht & _ & Hep)".
  iApply (triple_use with "[Hep Hd]").
  { apply (add_event_block_spec ints d ht (others ints p_event_fd (e_events d))).
    rewrite /table_room /max_prime. lia. }
  { by iFrame. }
  iIntros (r') "(%ht' & %evs' & Hep & Hr)".
  iApply (triple_use with "Hr"); [by apply (ctl_exit_spec _ _ _ _ _ _ _ (set_lock true st) st)|].
  iIntros ([ret st']) "[%Hu Hr]". iExists ht', evs'. iSplit; [done|]. iFrame "Hr".
  by iApply "H".
Qed.

(** A descriptor that base_epoll_create did not return: nothing happens, and the
    result is that of success. *)
Lemma base_epoll_ctl_unknown st ds op ev :
  (0 < epfd)%Z → (0 < event_fd)%Z → p_epfd ≠ VNULL → g_epoll_list_lock st = false →
  length ds < fuel → Forall (λ d, e_fd d ≠ epfd) ds →
  {{ epolls (g_p_epoll_list st) ds }}
  base_epoll_ctl fuel kernel int_at p_epfd p_event_fd epfd op event_fd ev st
  {{ r, ⌈ r = (0%Z, st) ⌉ ∗ epolls (g_p_epoll_list st) ds }}.
Proof.
  intros ? ? Hp Hlock Hf Hds. apply triple_wp. iIntros "H".
  rewrite /base_epoll_ctl !bool_decide_eq_false_2; [|lia..]. rewrite /base_rwlock_wrlock Hlock.
  rewrite -/(ctl_ints int_at p_epfd p_event_fd epfd event_fd) -/ints. wp_pures.
  wp_bind. iApply (triple_use with "H"); [by apply find_epoll_spec|]. iIntros (r) "[-> H]".
  replace (ints p_epfd) with epfd by (by rewrite /ints /ctl_ints /bind_int bool_decide_eq_true_2).
  rewrite first_epoll_None //=. wp_bind. iApply wp_ret. iApply wp_ctl_exit_ok.
  iFrame. iPureIntro. destruct st. simpl in Hlock. by subst.
Qed.
(** C21. [base_epoll_ctl] with ADD or MOD, for positive descriptors and the lock free.  For a descriptor in the list, when the
    variables behind the keys of its table hold what they held when the keys were stored, there are three outcomes.  It returns
    -1, an allocation or the kernel having refused, and the caller keeps the data.  It returns 0 with the event block bound to
    the descriptor in place of those with an equal key, and the kernel has its address.  Or it returns 0 and the kernel has
    the address of the block, but the table had no room for it and nobody owns it.  MOD has removed the old event block in
    any case; nothing else changes, and the lock is free.  For a descriptor that is not in the list nothing happens, and the
    result is 0 too. *)
Theorem base_epoll_ctl_register_correct op e :
  op = EPOLL_CTL_ADD ∨ op = EPOLL_CTL_MOD →
  (∀ st ds1 d ds2 bytes, ctl_ready st ds1 d ds2 → table_room (e_events d) →
    {{ epolls (g_p_epoll_list st) (ds1 ++ d :: ds2) ∗ own_data (ev_data e) bytes }}
    base_epoll_ctl fuel kernel int_at p_epfd p_event_fd epfd op event_fd (Some e) st
    {{ '(ret, st'), ∃ ht' evs', ⌈ unlocked st st' ⌉ ∗
       registration ints (KEpollCtl epfd op event_fd) p_event_fd e bytes
         (if bool_decide (op = EPOLL_CTL_MOD) then others ints p_event_fd (e_events d)
          else e_events d) evs' st st' ret ∗
       epolls (g_p_epoll_list st) (ds1 ++ with_events ints ht' evs' d :: ds2) }}) ∧
  (∀ st ds, (0 < epfd)%Z → (0 < event_fd)%Z → p_epfd ≠ VNULL → g_epoll_list_lock st = false →
    length ds < fuel → Forall (λ d, e_fd d ≠ epfd) ds →
    {{ epolls (g_p_epoll_list st) ds }}
    base_epoll_ctl fuel kernel int_at p_epfd p_event_fd epfd op event_fd (Some e) st
    {{ r, ⌈ r = (0%Z, st) ⌉ ∗ epolls (g_p_epoll_list st) ds }}).
Proof.
  intros [->| ->]; (split; [intros; by (apply base_epoll_ctl_add_spec || apply base_epoll_ctl_mod_spec)|intros; by apply base_epoll_ctl_unknown]).
Qed.
End ctl.

(** ** base_epoll_create, base_epoll_close *)
Lemma own_table_new int_at ht :
  hash_func ht = int_hash int_at → equal_func ht = int_equal int_at →
  embed (hashtable ht []) ⊢
  own_table int_at (hash_table_register_free_functions ht false true) [].
Proof.
  iIntros (Hh He) "H". iSplit; [done|]. iSplitL "H"; [|by rewrite /own_events].
  iApply (embed_mono with "H").
  iIntros "(%bs & %Hok & %Hp & H)". iExists bs. iFrame. iPureIntro. split; [|done].
  rewrite /ht_ok /= -Hh -He. exact Hok.
Qed.

Lemma epolls_snoc int_at hd ds n b fd ht :
  embed (dchain NULL ((entry_of <$> ds) ++ [(n, addr (Some b))]) NULL) ∗
  ([∗ list] d ∈ ds, own_epoll d) ∗
  b ↦ EpollCell {| epoll_fd := fd; p_event_hash := Some ht |} ∗ own_table int_at ht [] ∗
  ⌈ hd = start ((entry_of <$> ds) ++ [(n, addr (Some b))]) NULL ⌉ ⊢
  epolls hd
    (ds ++ [{| e_node := n; e_block := b; e_fd := fd; e_table := ht; e_ints := int_at;
            e_events := [] |}]).
Proof.
  iIntros "(Hc & Hds & Hb & Ht & ->)". rewrite /epolls fmap_app big_sepL_app /=.
  by iFrame.
Qed.

(** An empty table owns no entry. *)
Lemma own_no_payloads (bs : list (list (loc * KeyValue))) : payloads bs = [] → own bs ⊢ emp.
Proof.
  induction bs as [|es bs IH]; [done|]. rewrite /payloads /= fmap_app.
  intros [Hes Hbs]%app_eq_nil. apply fmap_nil_inv in Hes as ->.
  rewrite /own /=. iIntros "[_ H]". by iApply IH.
Qed.

Lemma hashtable_nil ht : embed (hashtable ht []) ⊢ (emp : hProp ecell).
Proof.
  rewrite -embed_emp. apply embed_mono. iIntros "(%bs & _ & %Hp & H)".
  iApply (own_no_payloads with "H"). by apply Permutation_nil.
Qed.

Lemma base_epoll_create_spec int_at st ds :
  let cs := KEpollCreate :: kernel_calls st in
  let fd := kernel cs in
  g_epoll_list_lock st = false → length ds < fuel →
  {{ epolls (g_p_epoll_list st) ds }} base_epoll_create fuel kernel int_at st {{ '(r, st'),
    ⌈ g_epoll_list_lock st' = false ⌉ ∗
    (⌈ g_p_epoll_list st' = g_p_epoll_list st ∧ r = (-1)%Z ∧
       ((fd ≤ 0)%Z ∧ kernel_calls st' = cs ∨
        (0 < fd)%Z ∧ @can_fail ecell _ ∧ kernel_calls st' = KClose fd :: cs) ⌉ ∗
     epolls (g_p_epoll_list st) ds ∨
     ⌈ (0 < fd)%Z ∧ r = fd ∧ kernel_calls st' = cs ⌉ ∗
     ∃ d, ⌈ e_fd d = fd ∧ e_events d = [] ⌉ ∗
       (epolls (g_p_epoll_list st') (ds ++ [d]) ∨
        ⌈ @can_fail ecell _ ∧ g_p_epoll_list st' = g_p_epoll_list st ⌉ ∗
        epolls (g_p_epoll_list st) ds ∗ own_epoll d)) }}.
Proof.
  intros cs fd Hlock Hf. apply triple_wp. iIntros "H". rewrite /base_epoll_create /= -/cs -/fd.
  case_bool_decide as Hfd.
  { wp_pures. iSplit; [done|]. iLeft. iFrame. iPureIntro. naive_solver. }
  wp_bind. iApply (lift_use with "[]"); [apply hash_table_new_correct|by rewrite embed_emp|].
  assert (safe_close kernel fd (add_call KEpollCreate st) =
    ((-1)%Z, add_call (KClose fd) (add_call KEpollCreate st))) as Hclose.
  { rewrite /safe_close bool_decide_eq_true_2 //. lia. }
  iIntros ([ht|]) "Ht"; iEval (embeds) in "Ht"; last first.
  { iDestruct "Ht" as %Hfail. rewrite Hclose. wp_pures. iSplit; [done|].
    iLeft. iFrame. iPureIntro. split; [done|]. split; [done|]. right. by split; [lia|]. }
  iDestruct "Ht" as "(%Hh & %He & _ & Ht)". wp_malloc b as "Hb"; last first.
  { rewrite Hclose. wp_pures. iDestruct (hashtable_nil with "Ht") as "_". iSplit; [done|].
    iLeft. iFrame. iPureIntro. split; [done|]. split; [done|]. right. by split; [lia|]. }
  do 3 wp_store. rewrite /base_rwlock_wrlock /= Hlock. wp_pures.
  iDestruct "H" as "(%Hl & Hc & Hds)". rewrite Hl. wp_bind.
  iApply (lift_use with "Hc"); [apply list_append_spec; by rewrite length_fmap|].
  iIntros ([[n|] l]) "Hc"; iEval (embeds) in "Hc"; wp_pures; rewrite /base_rwlock_unlock;
    wp_pures; (iSplit; [done|]); iRight;
    (iSplit; [iPureIntro; by split; [lia|]|]).
  - iDestruct "Hc" as "[% Hc]".
    iExists {| e_node := n; e_block := b; e_fd := fd; e_table := _; e_ints := int_at;
               e_events := [] |}.
    iSplit; [done|]. iLeft. iApply epolls_snoc. iFrame. iSplit; [|done]. by iApply own_table_new.
  - iDestruct "Hc" as "[%Hfail Hc]". destruct Hfail as [Hfail ->].
    iExists {| e_node := b; e_block := b; e_fd := fd; e_table := _; e_ints := int_at;
               e_events := [] |}.
    iSplit; [done|]. iRight. iSplit; [done|]. rewrite /epolls -Hl. iFrame. iSplit; [done|].
    by iApply own_table_new.
Qed.

(** A new descriptor comes to the end of the list, with an empty table; a refused
    allocation closes it, or, when it is that of the list node, leaves it open
    and unknown. *)
Theorem base_epoll_create_correct int_at st ds :
  let cs := KEpollCreate :: kernel_calls st in
  let fd := kernel cs in
  g_epoll_list_lock st = false → length ds < fuel →
  {{ epolls (g_p_epoll_list st) ds }} base_epoll_create fuel kernel int_at st {{ '(r, st'),
    ⌈ g_epoll_list_lock st' = false ⌉ ∗
    (⌈ g_p_epoll_list st' = g_p_epoll_list st ∧ r = (-1)%Z ∧
       ((fd ≤ 0)%Z ∧ kernel_calls st' = cs ∨
        (0 < fd)%Z ∧ @can_fail ecell _ ∧ kernel_calls st' = KClose fd :: cs) ⌉ ∗
     epolls (g_p_epoll_list st) ds ∨
     ⌈ (0 < fd)%Z ∧ r = fd ∧ kernel_calls st' = cs ⌉ ∗
     ∃ d, ⌈ e_fd d = fd ∧ e_events d = [] ⌉ ∗
       (epolls (g_p_epoll_list st') (ds ++ [d]) ∨
        ⌈ @can_fail ecell _ ∧ g_p_epoll_list st' = g_p_epoll_list st ⌉ ∗
        epolls (g_p_epoll_list st) ds ∗ own_epoll d)) }}.
Proof. apply base_epoll_create_spec. Qed.

(** Taking one descriptor out of the list; its node stays allocated. *)
Lemma wp_unlink_epoll hd ds1 d ds2 (Φ : Z * ptr → hProp ecell) :
  epolls hd (ds1 ++ d :: ds2) -∗
  (∀ hd' n, epolls hd' (ds1 ++ ds2) -∗ own_epoll d -∗
            e_node d ↦ ListCell n -∗ Φ (1%Z, hd')) -∗
  wp (lift (λ _, list_remove_entry hd (Some (e_node d)))) Φ.
Proof.
  iIntros "(-> & Hc & H) HΦ". iEval (rewrite big_sepL_app /=) in "H".
  iDestruct "H" as "(H1 & Hd & H2)". rewrite fmap_app /=. iEval (rewrite /entry_of) in "Hc".
  iApply (lift_use with "Hc"); [apply list_remove_entry_spec|].
  iIntros ([r hd']) "Hc". iEval (embeds) in "Hc". iDestruct "Hc" as "(-> & -> & Hc & Hn)".
  iApply ("HΦ" with "[Hc H1 H2] Hd Hn"). rewrite /epolls fmap_app big_sepL_app. by iFrame.
Qed.

Lemma base_epoll_close_spec int_at p_epfd epfd st ds1 d ds2 :
  (0 < epfd)%Z → p_epfd ≠ VNULL → g_epoll_list_lock st = false →
  length (ds1 ++ d :: ds2) < fuel → length (e_events d) < fuel →
  Forall (λ d, e_fd d ≠ epfd) ds1 → e_fd d = epfd →
  {{ epolls (g_p_epoll_list st) (ds1 ++ d :: ds2) }}
  base_epoll_close fuel kernel int_at p_epfd epfd st {{ st',
    ⌈ g_epoll_list_lock st' = false ∧ kernel_calls st' = KClose epfd :: kernel_calls st ⌉ ∗
    epolls (g_p_epoll_list st') (ds1 ++ ds2) ∗ ∃ n, e_node d ↦ ListCell n }}.
Proof.
  set (ints := bind_int p_epfd epfd int_at).
  intros He Hp Hlock Hf Hev Hds1 Hd. apply triple_wp. iIntros "H".
  rewrite /base_epoll_close -/ints bool_decide_eq_false_2; [|lia].
  rewrite /base_rwlock_wrlock Hlock. wp_pures. wp_bind.
  iApply (triple_use with "H"); [by apply find_epoll_spec|]. iIntros (r) "[-> H]".
  replace (ints p_epfd) with epfd by (by rewrite /ints /bind_int bool_decide_eq_true_2).
  rewrite (first_epoll_mid _ _ _ _ Hds1 Hd) /=. wp_bind.
  iApply (wp_entry_deref with "H"). iIntros (n ->) "H". wp_bind.
  iApply (wp_unlink_epoll with "H"). iIntros (hd' n') "H [Hb Ht] Hn".
  rewrite /base_rwlock_unlock. wp_pures. wp_bind. iApply (wp_read_epoll with "Hb"). iIntros "Hb".
  wp_bind. iApply (triple_use with "Ht"); [by apply free_event_hash_spec|]. iIntros (_) "_".
  wp_free. rewrite /safe_close bool_decide_eq_true_2; [|lia]. wp_pures.
  iSplit; [done|]. iFrame.
Qed.

(** Closing frees the block of the descriptor, its table and all event blocks
    with their data, and closes the descriptor; the list node is left behind. *)
Theorem base_epoll_close_correct int_at p_epfd epfd st ds1 d ds2 :
  (0 < epfd)%Z → p_epfd ≠ VNULL → g_epoll_list_lock st = false →
  length (ds1 ++ d :: ds2) < fuel → length (e_events d) < fuel →
  Forall (λ d, e_fd d ≠ epfd) ds1 → e_fd d = epfd →
  {{ epolls (g_p_epoll_list st) (ds1 ++ d :: ds2) }}
  base_epoll_close fuel kernel int_at p_epfd epfd st {{ st',
    ⌈ g_epoll_list_lock st' = false ∧ kernel_calls st' = KClose epfd :: kernel_calls st ⌉ ∗
    epolls (g_p_epoll_list st') (ds1 ++ ds2) ∗ ∃ n, e_node d ↦ ListCell n }}.
Proof. apply base_epoll_close_spec. Qed.

(** A descriptor that is not in the list is only closed. *)
Lemma base_epoll_close_unknown int_at p_epfd epfd st ds :
  epfd ≠ (-1)%Z → p_epfd ≠ VNULL → g_epoll_list_lock st = false → length ds < fuel →
  Forall (λ d, e_fd d ≠ epfd) ds →
  {{ epolls (g_p_epoll_list st) ds }}
  base_epoll_close fuel kernel int_at p_epfd epfd st {{ st',
    ⌈ st' = (safe_close kernel epfd st).2 ⌉ ∗ epolls (g_p_epoll_list st) ds }}.
Proof.
  set (ints := bind_int p_epfd epfd int_at).
  intros He Hp Hlock Hf Hds. apply triple_wp. iIntros "H".
  rewrite /base_epoll_close -/ints bool_decide_eq_false_2 // /base_rwlock_wrlock Hlock.
  wp_pures. wp_bind.
  iApply (triple_use with "H"); [by apply find_epoll_spec|]. iIntros (r) "[-> H]".
  replace (ints p_epfd) with epfd by (by rewrite /ints /bind_int bool_decide_eq_true_2).
  rewrite first_epoll_None //=. rewrite /base_rwlock_unlock. wp_pures. iFrame.
  iPureIntro. destruct st. simpl in Hlock. by subst.
Qed.

(** ** The thread *)

(** The events that are handled: up to the first hang-up or error without input. *)
Fixpoint handled (n : nat) (evnts : list (Z * ptr)) : list ptr :=
  match n, evnts with
  | S n, (events, p) :: evnts =>
      if flagged EPOLLIN events then
        (if bool_decide (p = NULL) then [] else [p]) ++ handled n evnts
      else if flagged EPOLLHUP events || flagged EPOLLERR events then []
      else handled n evnts
  | _, _ => []
  end.

(** The callbacks of the handled events are called in order, and the loop goes on
    exactly when all events were looked at. *)
Lemma handle_events_spec (call : ptr → state → M ecell state)
    (I : list ptr → state → hProp ecell) n evnts st done :
  n ≤ length evnts →
  (∀ done p st, Some p ∈ evnts.*2 →
     {{ I done st }} call (Some p) st {{ st', I (done ++ [Some p]) st' }}) →
  {{ I done st }} handle_events call n evnts st {{ '(stop, st'),
    I (done ++ handled n evnts) st' }}.
Proof.
  revert evnts st done. induction n as [|n IH]; intros [|[events p] evnts] st done Hn Hcall;
    simpl in Hn; try lia; apply triple_wp; iIntros "H"; simpl; [wp_pures; by rewrite app_nil_r..|].
  assert (∀ done st, {{ I done st }} handle_events call n evnts st {{ '(stop, st'),
    I (done ++ handled n evnts) st' }}) as Hrest.
  { intros done' st'. apply IH; [lia|]. intros. apply Hcall. by right. }
  destruct (flagged EPOLLIN events); simpl.
  - destruct p as [l|]; simpl; [|iApply (triple_use with "H"); [apply Hrest|by iIntros ([??]) "H"]].
    wp_bind. iApply (triple_use with "H"); [apply Hcall; left|]. iIntros (st') "H".
    iApply (triple_use with "H"); [apply Hrest|]. iIntros ([stop st'']) "H". by rewrite -assoc_L.
  - destruct (flagged EPOLLHUP events); simpl; [wp_pures; by rewrite app_nil_r|].
    destruct (flagged EPOLLERR events); simpl; [wp_pures; by rewrite app_nil_r|].
    iApply (triple_use with "H"); [apply Hrest|]. by iIntros ([??]) "H".
Qed.
End proofs.

(** The event blocks that a kernel with the results [kernel] has registered: a
    successful call counts, and closing either descriptor ends a registration. *)
Fixpoint registered (kernel : list kernel_call → Z) (calls : list kernel_call) : gmap (Z * Z) ptr :=
  match calls with
  | [] => ∅
  | c :: calls' =>
      match c with
      | KEpollCtl epfd op event_fd p =>
          if bool_decide (kernel calls ≠ 0)%Z then registered kernel calls'
          else if bool_decide (op = EPOLL_CTL_DEL) then
            delete (epfd, event_fd) (registered kernel calls')
          else <[(epfd, event_fd) := p]> (registered kernel calls')
      | KClose fd =>
          filter (λ kv, kv.1.1 ≠ fd ∧ kv.1.2 ≠ fd) (registered kernel calls')
      | _ => registered kernel calls'
      end
  end.

(** ** Runs

    A kernel that grants everything; descriptor 3 is the epoll descriptor. *)
Module Runs.
Definition kernel (calls : list kernel_call) : Z :=
  match calls with
  | KEpollCreate :: _ => 3
  | _ => 0
  end.
Definition start_state : state :=
  {| g_p_epoll_list := NULL; g_epoll_list_lock := false; kernel_calls := [] |}.
Definition junk : ecell := DataCell [].

(** Does the kernel hold the address of a block that is no longer there? *)
Definition dangling (epfd event_fd : Z) (st : state) : M ecell bool :=
  peek (λ m, mret
    match registered kernel (kernel_calls st) !! (epfd, event_fd) with
    | Some (Some l) => bool_decide (cells m !! l = None)
    | _ => false
    end).

Definition event0 (fd : Z) : option EpollEvent :=
  Some {| ev_eplfd := 3; ev_fd := fd; ev_callback := 1; ev_data := NULL; ev_len := 0 |}.

Definition outcome_is {A} (o : outcome (A * mem ecell)) (a : A) : Prop :=
  match o with Ok (a', _) => a' = a | Err _ => False end.

(** The keys are addresses of the parameter [event_fd]: two calls from the same
    place store the same key, and read the newest value through it.  When the
    descriptors are congruent modulo the size of the table, the second
    registration replaces the first and frees its event block, of which the
    kernel keeps the address. *)
Theorem epoll_add_clash (int_at : value → Z) :
  let _ := total_alloc junk in
  let run :=
    '(epfd, st) ← base_epoll_create 3 kernel int_at start_state;
    '(ret1, st) ← base_epoll_ctl 3 kernel int_at 100 101 epfd EPOLL_CTL_ADD 5 (event0 5) st;
    '(ret2, st) ← base_epoll_ctl 3 kernel int_at 100 101 epfd EPOLL_CTL_ADD 198 (event0 198) st;
    d ← dangling epfd 5 st;
    mret (ret1, ret2, d) in
  outcome_is (run (Mem ∅ 0)) (0%Z, 0%Z, true).
Proof. vm_compute. reflexivity. Qed.

(** MOD frees the old event block before it allocates the new one: a refused
    allocation leaves the kernel with the address of the freed block. *)
Theorem epoll_mod_dangling (int_at : value → Z) :
  let _ := bounded_alloc 6 junk in
  let run :=
    '(epfd, st) ← base_epoll_create 3 kernel int_at start_state;
    '(ret1, st) ← base_epoll_ctl 3 kernel int_at 100 101 epfd EPOLL_CTL_ADD 5 (event0 5) st;
    '(ret2, st) ← base_epoll_ctl 3 kernel int_at 100 101 epfd EPOLL_CTL_MOD 5 (event0 5) st;
    d ← dangling epfd 5 st;
    mret (ret1, ret2, d) in
  outcome_is (run (Mem ∅ 0)) (0%Z, (-1)%Z, true).
Proof. vm_compute. reflexivity. Qed.

#[export] Instance grant : Allocator ecell := total_alloc junk.

Lemma nothing_holds : holds (epolls NULL []) ∅.
Proof.
  apply (holds_mono emp); [|done]. rewrite /epolls /=. iIntros "_". iSplit; [done|].
  by rewrite embed_emp.
Qed.

(** One epoll descriptor without events. *)
Lemma created : ∃ st d h t,
  base_epoll_create 5 kernel (λ _, 0%Z) start_state (Mem ∅ 0) = Ok ((3%Z, st), Mem h t) ∧
  g_epoll_list_lock st = false ∧ e_fd d = 3%Z ∧ e_events d = [] ∧
  holds (epolls (g_p_epoll_list st) [d]) h.
Proof.
  destruct (triple_run _ _ _ ∅ 0 (base_epoll_create_spec 5 kernel (λ _, 0%Z) start_state []
    eq_refl ltac:(simpl; lia)) nothing_holds) as ([r st] & h & t & E & HQ).
  apply holds_pure_sep in HQ as [Hlock HQ]. apply holds_or in HQ as [HQ|HQ].
  - apply holds_pure_sep in HQ as [(_ & _ & [[? _]|(_ & Hf & _)]) _]; [done|].
    by apply total_alloc_no_fail in Hf.
  - apply holds_pure_sep in HQ as [(_ & -> & _) HQ]. apply holds_exist in HQ as [d HQ].
    apply holds_pure_sep in HQ as [[Hd Hev] HQ]. exists st, d, h, t. split_and!; [done..|].
    apply holds_or in HQ as [HQ|HQ]; [done|].
    apply holds_pure_sep in HQ as [[Hf _] _]. by apply total_alloc_no_fail in Hf.
Qed.

Lemma base_epoll_create_correct_witness : ∃ r h t,
  base_epoll_create 5 kernel (λ _, 0%Z) start_state (Mem ∅ 0) = Ok (r, Mem h t).
Proof.
  destruct (triple_run _ _ _ ∅ 0 (base_epoll_create_correct 5 kernel (λ _, 0%Z) start_state []
    eq_refl ltac:(simpl; lia)) nothing_holds) as (r & h & t & E & HQ).
  exists r, h, t. exact E.
Defined.

Lemma base_epoll_ctl_register_correct_witness : ∃ st m r h t,
  g_epoll_list_lock st = false ∧
  base_epoll_ctl 5 kernel (λ _, 0%Z) 100 101 3 EPOLL_CTL_ADD 5 (event0 5) st m = Ok (r, Mem h t).
Proof.
  destruct created as (st & d & h & t & _ & Hlock & Hd & Hev & Hh).
  destruct (triple_run _ _ _ h t (proj1 (base_epoll_ctl_register_correct 5 kernel (λ _, 0%Z) 100 101 3 5
    EPOLL_CTL_ADD (default (Build_EpollEvent 0 0 0 NULL 0) (event0 5)) (or_introl eq_refl)) st [] d [] []
    ltac:(rewrite /ctl_ready; repeat split; [done..|simpl; lia|done|done|rewrite Hev; by intros b ?%not_elem_of_nil])
    ltac:(rewrite /table_room Hev /max_prime; simpl; lia))) as (r & h' & t' & E & HQ).
  { apply (holds_mono (epolls (g_p_epoll_list st) [d])); [|done].
    iIntros "$". }
  exists st, (Mem h t), r, h', t'. split; [done|exact E].
Defined.

Lemma base_epoll_close_correct_witness : ∃ st m st' h t,
  g_epoll_list_lock st = false ∧
  base_epoll_close 5 kernel (λ _, 0%Z) 100 3 st m = Ok (st', Mem h t).
Proof.
  destruct created as (st & d & h & t & _ & Hlock & Hd & Hev & Hh).
  destruct (triple_run _ _ _ h t (base_epoll_close_correct 5 kernel (λ _, 0%Z) 100 3 st [] d []
    ltac:(lia) ltac:(done) Hlock ltac:(simpl; lia) ltac:(rewrite Hev; simpl; lia)
    (Forall_nil_2 _) Hd) Hh) as (st' & h' & t' & E & HQ).
  exists st, (Mem h t), st', h', t'. split; [done|exact E].
Defined.
End Runs.
