(* ===== verification/Timer.v ===== *)
(** * Timer: the code of timer_posix.c

    Timers as descriptors in an epoll descriptor.  The data of a timer is copied
    into a block of bytes that goes to the event block, and the callback stops a
    timer that is not periodic.  The clock and the timers themselves are in the
    kernel.  The parameters [p_epfd] and [p_event_fd] are the addresses of the
    parameters of base_epoll_ctl in the calls that are made. *)
From stdpp Require Import base gmap list numbers.
From iris.proofmode Require Import proofmode.
From S2P Require Import Prelude Memory Compare Chain Buckets HashTable DChain DList Variants Epoll.

(** [int]s in bytes, least significant first, and back. *)
Definition int_bytes (z : Z) : list Z :=
  let u := u32 z in [u mod 256; u / 256 mod 256; u / 65536 mod 256; u / 16777216]%Z.
Definition bytes_int (b0 b1 b2 b3 : Z) : Z :=
  let u := (b0 + 256 * (b1 + 256 * (b2 + 256 * b3)))%Z in
  if bool_decide (u ≤ INT_MAX)%Z then u else (u - UINT_MOD)%Z.

Record BaseTimer := {
  tfd : Z;
  value_s : Z;
  value_ms : Z;
  interval_s : Z;
  interval_ms : Z;
  dev_id : list Z
}.
Definition timer_bytes (t : BaseTimer) : list Z :=
  int_bytes (tfd t) ++ int_bytes (value_s t) ++ int_bytes (value_ms t) ++
  int_bytes (interval_s t) ++ int_bytes (interval_ms t) ++ dev_id t.

Section timer_c.
Context `{Allocator ecell}.
Context (fuel : nat).
Context (kernel : list kernel_call → Z).
(** The time that the newest call of clock_gettime gave. *)
Context (clock : list kernel_call → Z * Z).
Context (int_at : value → Z) (p_epfd p_event_fd : value).

Definition base_timer_create (st : state) : Z * state := syscall kernel KTimerCreate st.

Definition base_timer_delete (tfd : Z) (st : state) : state := (safe_close kernel tfd st).2.

(** [malloc(len)]: a negative length becomes a size that no allocator grants. *)
Definition malloc_bytes (len : Z) : M ecell ptr :=
  p ← malloc;
  match p with
  | NULL => mret NULL
  | Some _ =>
      if bool_decide (len < 0)%Z then _ ← free p; mret NULL
      else _ ← assign p (DataCell (replicate (Z.to_nat len) None)); mret p
  end.

Definition read_data (p : ptr) : M ecell (array Z) :=
  c ← deref p;
  match c with DataCell bytes => mret bytes | _ => fail WildAccess end.

(** [memset(p, 0, n)] and [memcpy(p, src, n)]. *)
Definition zero_bytes (p : ptr) (n : Z) : M ecell unit :=
  bytes ← read_data p;
  if bool_decide (0 ≤ n ≤ length bytes)%Z then
    assign p (DataCell (replicate (Z.to_nat n) (Some 0%Z) ++ drop (Z.to_nat n) bytes))
  else fail OutOfBounds.
Definition copy_bytes (p : ptr) (src : option (list Z)) (n : Z) : M ecell unit :=
  bytes ← read_data p;
  match src with
  | None => fail NullDeref
  | Some src =>
      if bool_decide (0 ≤ n ≤ length bytes)%Z && bool_decide (n ≤ length src)%Z then
        assign p (DataCell ((Some <$> take (Z.to_nat n) src) ++ drop (Z.to_nat n) bytes))
      else fail OutOfBounds
  end.

(** From the label [exit] on. *)
Definition timer_exit (ret : Z) (pdata : ptr) (st : state) : M ecell (Z * state) :=
  _ ← (if bool_decide (ret ≠ 0)%Z then safe_free pdata else mret tt);
  mret (ret, st).

(** [data]: the bytes that the caller points to. *)
Definition base_timer_start (eplfd tfd value_s value_ms interval_s interval_ms : Z)
    (callback : value) (data : option (list Z)) (len : Z) (st : state) : M ecell (Z * state) :=
  let wanted := bool_decide (data ≠ None) && bool_decide (len ≠ 0)%Z in
  pdata ← (if wanted then malloc_bytes len else mret NULL);
  if wanted && bool_decide (pdata = NULL) then timer_exit (-1) pdata st
  else
    let '(ret, st) := syscall kernel KClockGet st in
    if bool_decide (ret ≠ 0)%Z then timer_exit ret pdata st
    else
      let '(tv_sec, tv_nsec) := clock (kernel_calls st) in
      value_ns ← chk (value_ms * 1000000)%Z;
      interval_ns ← chk (interval_ms * 1000000)%Z;
      let '(ret, st) :=
        syscall kernel (KTimerSet tfd (tv_sec + value_s) value_ns interval_s interval_ns) st in
      if bool_decide (ret ≠ 0)%Z then timer_exit ret pdata st
      else
        _ ← zero_bytes pdata 4;
        _ ← copy_bytes pdata data len;
        '(ret, st) ← base_epoll_ctl fuel kernel int_at p_epfd p_event_fd eplfd EPOLL_CTL_ADD tfd
          (Some {| ev_eplfd := eplfd; ev_fd := tfd; ev_callback := callback;
                   ev_data := pdata; ev_len := len |}) st;
        if bool_decide (ret ≠ 0)%Z then timer_exit (-1) pdata st
        else timer_exit ret pdata st.

Definition base_timer_stop (eplfd tfd : Z) (st : state) : M ecell state :=
  let '(_, st) := syscall kernel (KTimerSet tfd 0 0 0 0) st in
  '(_, st) ← base_epoll_ctl fuel kernel int_at p_epfd p_event_fd eplfd EPOLL_CTL_DEL tfd None st;
  mret (safe_close kernel tfd st).2.

(** The [int] at an offset in the bytes. *)
Definition read_int (p : ptr) (off : Z) : M ecell Z :=
  bytes ← read_data p;
  b0 ← aget bytes off; b1 ← aget bytes (off + 1)%Z;
  b2 ← aget bytes (off + 2)%Z; b3 ← aget bytes (off + 3)%Z;
  match b0, b1, b2, b3 with
  | Some b0, Some b1, Some b2, Some b3 => mret (bytes_int b0 b1 b2 b3)
  | _, _, _, _ => fail Uninitialised
  end.

(** [(p_timer->interval_s == 0) && (p_timer->interval_ms == 0)]: the fourth and the
    fifth member of [BaseTimer]. *)
Definition timer_once (p_timer : ptr) : M ecell bool :=
  s ← read_int p_timer 12;
  if bool_decide (s = 0)%Z then
    ms ← read_int p_timer 16; mret (bool_decide (ms = 0)%Z)
  else mret false.

(** [len] is not used, and the output is left out. *)
Definition timer1_callback (p_data : ptr) (len : Z) (st : state) : M ecell state :=
  p_epoll_data ← read_event p_data;
  let p_timer := ev_data p_epoll_data in
  let '(_, st) := syscall kernel (KRead (ev_fd p_epoll_data)) st in
  match p_timer with
  | NULL => mret st
  | Some _ =>
      once ← timer_once p_timer;
      if once : bool then
        base_timer_stop (ev_eplfd p_epoll_data) (ev_fd p_epoll_data) st
      else mret st
  end.

(** [data] of the two examples; [dev_id] is filled up with zeros. *)
Definition example_data (timer value interval : Z) (id : list Z) : list Z :=
  timer_bytes {| tfd := timer; value_s := value; value_ms := 0; interval_s := interval;
    interval_ms := 0; dev_id := id ++ replicate (32 - length id) 0%Z |}.

(** [p_callback]: the address of [timer1_callback]. *)
Definition do_action (p_callback : value) (epfd : Z) (st : state) : M ecell state :=
  let '(tfd, st) := base_timer_create st in
  if bool_decide (tfd < 0)%Z then mret st
  else
    let data := example_data tfd 4 1 [49; 50; 51; 52; 53; 54; 55; 56; 57]%Z in
    '(ret, st) ← base_timer_start epfd tfd 4 0 1 0 p_callback (Some data) 52 st;
    mret (if bool_decide (ret ≠ 0)%Z then base_timer_delete tfd st else st).

Definition do_action1 (p_callback : value) (epfd : Z) (st : state) : M ecell state :=
  let '(tfd, st) := base_timer_create st in
  if bool_decide (tfd < 0)%Z then mret st
  else
    let data := example_data tfd 1 0 [65; 66; 67; 68; 69; 70]%Z in
    '(ret, st) ← base_timer_start epfd tfd 1 0 0 0 p_callback (Some data) 52 st;
    mret (if bool_decide (ret ≠ 0)%Z then base_timer_delete tfd st else st).

(** The calls of the thread that runs the test; the thread it starts is
    [epoll_thread]. *)
Definition timer_test (p_callback : value) (st : state) : M ecell (Z * state) :=
  let st := base_epoll_init st in
  '(eplfd, st) ← base_epoll_create fuel kernel int_at st;
  let '(ret, st) := syscall kernel KThreadCreate st in
  st ← do_action p_callback eplfd st;
  st ← do_action1 p_callback eplfd st;
  mret (ret, st).
End timer_c.
