(* ===== verification/TimerOps.v ===== *)
(** * TimerOps: correctness of timer_posix.c

    Starting a timer registers an event block whose data are a copy of the
    caller's bytes, or fails with memory as it was; two branches report success and leave the
    copy to nobody.  The callback of a timer that is not periodic takes the event block out
    again and closes the timer. *)
From stdpp Require Import base gmap list numbers.
From iris.proofmode Require Import proofmode.
From S2P Require Import Prelude Memory Compare Chain Buckets HashTable DChain DList Variants Epoll EpollOps Timer.

Section proofs.
Context `{Allocator ecell}.
Context (fuel : nat).
Context (kernel : list kernel_call → Z) (clock : list kernel_call → Z * Z).

(** ** Blocks of bytes *)
Lemma malloc_bytes_spec len :
  (0 ≤ len)%Z →
  {{ emp }} malloc_bytes len {{ p,
    match p with
    | NULL => ⌈ @can_fail ecell _ ⌉
    | Some l => l ↦ DataCell (replicate (Z.to_nat len) None)
    end }}.
Proof.
  intros Hlen. apply triple_wp. iIntros "_". rewrite /malloc_bytes.
  wp_malloc l as "Hl"; [|by wp_pures]. rewrite bool_decide_eq_false_2; [|lia].
  wp_store. by wp_pures.
Qed.

Lemma wp_read_data l bytes (Φ : array Z → hProp ecell) :
  l ↦ DataCell bytes -∗ (l ↦ DataCell bytes -∗ Φ bytes) -∗ wp (read_data (Some l)) Φ.
Proof. iIntros "Hl HΦ". rewrite /read_data. wp_load. wp_pures. by iApply "HΦ". Qed.

(** The two commands that fill the block. *)
Lemma wp_fill_bytes {A} l src len (c : M ecell A) Φ :
  (4 ≤ len ≤ length src)%Z →
  l ↦ DataCell (replicate (Z.to_nat len) None) -∗
  (l ↦ DataCell (Some <$> take (Z.to_nat len) src) -∗ wp c Φ) -∗
  wp (_ ← zero_bytes (Some l) 4; _ ← copy_bytes (Some l) (Some src) len; c) Φ.
Proof.
  iIntros (Hlen) "Hl HΦ". rewrite /zero_bytes /copy_bytes.
  wp_bind. iApply (wp_read_data with "Hl"). iIntros "Hl".
  rewrite bool_decide_eq_true_2; [|rewrite length_replicate; lia]. wp_store.
  wp_bind. iApply (wp_read_data with "Hl"). iIntros "Hl".
  rewrite !bool_decide_eq_true_2 /=; [|lia|rewrite length_drop length_replicate; lia].
  wp_store. iApply "HΦ".
  rewrite (_ : drop _ _ = []) ?app_nil_r //.
  apply drop_ge. rewrite /= length_drop length_replicate. lia.
Qed.

Section timer.
Context (int_at : value → Z) (p_epfd p_event_fd : value) (eplfd tfd : Z).
Let ints : value → Z := ctl_ints int_at p_epfd p_event_fd eplfd tfd.

(** The calls of base_timer_start before the registration. *)
Definition timer_calls (value_s value_ms interval_s interval_ms : Z) (cs : list kernel_call) :
    list kernel_call :=
  let cs := KClockGet :: cs in
  KTimerSet tfd ((clock cs).1 + value_s) (value_ms * 1000000) interval_s (interval_ms * 1000000)
    :: cs.

Definition timer_event (callback : value) (p : loc) (len : Z) : EpollEvent :=
  {| ev_eplfd := eplfd; ev_fd := tfd; ev_callback := callback; ev_data := Some p; ev_len := len |}.

Lemma unlocked_ready st ds1 d ds2 st' :
  ctl_ready fuel int_at p_epfd p_event_fd eplfd tfd st ds1 d ds2 → g_p_epoll_list st' = g_p_epoll_list st →
  g_epoll_list_lock st' = g_epoll_list_lock st → unlocked st st'.
Proof. intros (_ & _ & _ & Hlock & _) Hl Hk. by rewrite /unlocked Hk Hlock. Qed.

Lemma timer_exit_failed ret p bytes st (Φ : Z * state → hProp ecell) :
  ret ≠ 0%Z → p ↦ DataCell bytes -∗ Φ (ret, st) -∗ wp (timer_exit ret (Some p) st) Φ.
Proof.
  iIntros (Hr) "Hp HΦ". rewrite /timer_exit bool_decide_eq_true_2 //=. wp_free. by wp_pures.
Qed.

Lemma with_events_same d : with_events (e_ints d) (e_table d) (e_events d) d = d.
Proof. by destruct d. Qed.

(** Nothing happened to the descriptor. *)
Lemma epolls_same hd ds1 d ds2 :
  (∀ b, b ∈ e_events d → e_ints d b.1 = ints b.1) →
  epolls hd (ds1 ++ d :: ds2) ⊢
  epolls hd (ds1 ++ with_events ints (e_table d) (e_events d) d :: ds2).
Proof.
  iIntros (Hb) "H". iDestruct (epolls_focus with "H") as "[Hep H]". iApply "H".
  by iApply own_epoll_ints.
Qed.

Lemma timer_unchanged (ret : Z) (why : Prop) st hd ds1 d ds2
    (R : HashTable → list binding → hProp ecell) :
  ctl_ready fuel int_at p_epfd p_event_fd eplfd tfd st ds1 d ds2 → ret ≠ 0%Z → why →
  epolls hd (ds1 ++ d :: ds2) ⊢
  ∃ ht evs, epolls hd (ds1 ++ with_events ints ht evs d :: ds2) ∗
    (⌈ ret ≠ 0%Z ∧ evs = e_events d ∧ why ⌉ ∨ R ht evs).
Proof.
  iIntros (Hready Hr Hw) "H". iExists (e_table d), (e_events d).
  rewrite epolls_same; [|apply Hready]. iFrame. by iLeft.
Qed.

(** The call with data, up to the registration: [R] is what the caller holds.  It fails before, with memory as it was; or it
    goes on with the copy of the data. *)
Lemma timer_start_prefix (R : hProp ecell) st value_s value_ms interval_s interval_ms callback data len
    (Φ : Z * state → hProp ecell) :
  (4 ≤ len ≤ length data)%Z →
  int_ok (value_ms * 1000000) = true → int_ok (interval_ms * 1000000) = true →
  R -∗
  ((∀ ret st', ⌈ ret ≠ 0%Z ∧ (@can_fail ecell _ ∨ kernel (kernel_calls st') ≠ 0%Z) ∧
      g_p_epoll_list st' = g_p_epoll_list st ∧ g_epoll_list_lock st' = g_epoll_list_lock st ⌉ -∗ R -∗ Φ (ret, st')) ∧
   (∀ p st', ⌈ kernel_calls st' = timer_calls value_s value_ms interval_s interval_ms (kernel_calls st) ∧
      g_p_epoll_list st' = g_p_epoll_list st ∧ g_epoll_list_lock st' = g_epoll_list_lock st ⌉ -∗ R -∗
      p ↦ DataCell (Some <$> take (Z.to_nat len) data) -∗
      wp (base_epoll_ctl fuel kernel int_at p_epfd p_event_fd eplfd EPOLL_CTL_ADD tfd (Some (timer_event callback p len)) st')
        (λ r, wp (let '(ret, st') := r in
                  if bool_decide (ret ≠ 0)%Z then timer_exit (-1) (Some p) st' else timer_exit ret (Some p) st') Φ))) -∗
  wp (base_timer_start fuel kernel clock int_at p_epfd p_event_fd eplfd tfd value_s value_ms
    interval_s interval_ms callback (Some data) len st) Φ.
Proof.
  iIntros (Hlen Hv Hi) "H HΦ". rewrite /base_timer_start. rewrite (bool_decide_eq_true_2 (len ≠ 0)%Z); [|lia].
  simpl. wp_bind. iApply (triple_use with "[]"); [apply malloc_bytes_spec; lia|done|].
  iIntros ([p|]) "Hp"; simpl; last first.
  { rewrite /timer_exit /=. wp_pures. iDestruct "HΦ" as "[HΦ _]". iDestruct "Hp" as %Hf.
    iApply ("HΦ" with "[] H"). iPureIntro. by split; [|split; [left|]]. }
  case_bool_decide as Hclock.
  { iApply (timer_exit_failed with "Hp"); [done|]. iDestruct "HΦ" as "[HΦ _]".
    iApply ("HΦ" with "[] H"). iPureIntro. by split; [|split; [right|]]. }
  destruct (clock (KClockGet :: kernel_calls st)) as [tv_sec tv_nsec] eqn:Et. simpl.
  rewrite /chk Hv Hi. wp_pures. case_bool_decide as Hset.
  { iApply (timer_exit_failed with "Hp"); [done|]. iDestruct "HΦ" as "[HΦ _]".
    iApply ("HΦ" with "[] H"). iPureIntro. by split; [|split; [right|]]. }
  iApply (wp_fill_bytes with "Hp"); [done|]. iIntros "Hp". wp_bind. iDestruct "HΦ" as "[_ HΦ]".
  iApply ("HΦ" with "[] H Hp"). iPureIntro. by rewrite /timer_calls /= Et.
Qed.

Lemma base_timer_start_spec st ds1 d ds2 value_s value_ms interval_s interval_ms callback
    data len :
  ctl_ready fuel int_at p_epfd p_event_fd eplfd tfd st ds1 d ds2 → table_room fuel (e_events d) →
  (4 ≤ len ≤ length data)%Z →
  int_ok (value_ms * 1000000) = true → int_ok (interval_ms * 1000000) = true →
  {{ epolls (g_p_epoll_list st) (ds1 ++ d :: ds2) }}
  base_timer_start fuel kernel clock int_at p_epfd p_event_fd eplfd tfd value_s value_ms
    interval_s interval_ms callback (Some data) len st
  {{ '(ret, st'), ⌈ unlocked st st' ⌉ ∗ ∃ ht evs,
     epolls (g_p_epoll_list st) (ds1 ++ with_events ints ht evs d :: ds2) ∗
     (⌈ ret ≠ 0%Z ∧ evs = e_events d ∧
        (@can_fail ecell _ ∨ kernel (kernel_calls st') ≠ 0%Z) ⌉ ∨
      ∃ l p, let b := (l, (timer_event callback p len, Some <$> take (Z.to_nat len) data)) in
        ⌈ ret = 0%Z ∧ kernel_calls st' = KEpollCtl eplfd EPOLL_CTL_ADD tfd (Some l) ::
            timer_calls value_s value_ms interval_s interval_ms (kernel_calls st) ⌉ ∗
        (⌈ evs = (p_event_fd, b) :: others ints p_event_fd (e_events d) ⌉ ∨
         ⌈ @can_fail ecell _ ∧ evs = e_events d ⌉ ∗ own_event b)) }}.
Proof.
  intros Hready Hroom Hlen Hv Hi. apply triple_wp. iIntros "H".
  iApply (timer_start_prefix with "H"); [done..|]. iSplit.
  { iIntros (ret st' (Hr & Hw & Hl & Hk)) "H". iSplit; [iPureIntro; by apply (unlocked_ready st ds1 d ds2)|].
    by iApply (timer_unchanged with "H"). }
  iIntros (p st2 (Hcalls & Hl2 & Hk2)) "H Hp".
  assert (ctl_ready fuel int_at p_epfd p_event_fd eplfd tfd st2 ds1 d ds2) as Hready2 by by rewrite /ctl_ready Hk2.
  assert (∀ st', unlocked st2 st' → unlocked st st') as Hun by (intros st'; by rewrite /unlocked Hl2). rewrite -Hl2.
  iApply (triple_use with "[H Hp]").
  { apply (base_epoll_ctl_add_spec fuel kernel int_at p_epfd p_event_fd eplfd tfd st2 ds1 d ds2
      (timer_event callback p len) (Some <$> take (Z.to_nat len) data)); [exact Hready2|done]. }
  { iFrame "H". iExact "Hp". }
  iIntros ([ret st']) "(%ht & %evs & %Hu & Hr & H)". apply Hun in Hu. wp_pures.
  iDestruct "Hr" as "[[%Hr Hp]|(%l & %Hl & [[%Hr Hp]|[%Hr Hb]])]".
  - destruct Hr as (Hf & -> & Hc & ->). iApply (timer_exit_failed with "Hp"); [done|].
    iSplit; [done|]. iExists ht, (e_events d). iFrame "H". iLeft. iPureIntro. auto.
  - destruct Hr as (Hk & -> & ->). iApply (timer_exit_failed with "Hp"); [done|].
    iSplit; [done|]. iExists ht, (e_events d). iFrame "H". iLeft. iPureIntro. auto.
  - destruct Hr as (Hk & ->). rewrite /timer_exit /=. wp_pures.
    iSplit; [done|]. iExists ht, evs. iFrame "H". iRight. iExists l, p. iFrame "Hb".
    iPureIntro. split; [done|]. by rewrite Hl Hcalls.
Qed.


(** Without data there is no block, and memset writes through a null pointer. *)
Lemma base_timer_start_no_data st value_s value_ms interval_s interval_ms callback data len m :
  data = None ∨ len = 0%Z →
  int_ok (value_ms * 1000000) = true → int_ok (interval_ms * 1000000) = true →
  kernel (KClockGet :: kernel_calls st) = 0%Z →
  kernel (timer_calls value_s value_ms interval_s interval_ms (kernel_calls st)) = 0%Z →
  base_timer_start fuel kernel clock int_at p_epfd p_event_fd eplfd tfd value_s value_ms
    interval_s interval_ms callback data len st m = Err NullDeref.
Proof.
  intros Hdata Hv Hi Hclock Hset. rewrite /base_timer_start.
  assert (bool_decide (data ≠ None) && bool_decide (len ≠ 0)%Z = false) as ->.
  { destruct Hdata as [-> | ->]; [done|]. by rewrite andb_comm. }
  rewrite (bind_run _ _ m NULL m) //=. rewrite Hclock /=.
  destruct (clock _) as [tv_sec tv_nsec] eqn:Et. rewrite /timer_calls Et /= in Hset.
  rewrite /chk Hv Hi. do 2 (erewrite (bind_run (mret _) _ m); [|reflexivity]). by rewrite Hset.
Qed.


(** *** The callback *)
Lemma int_bytes_roundtrip z :
  (INT_MIN ≤ z ≤ INT_MAX)%Z →
  match int_bytes z with
  | [b0; b1; b2; b3] => bytes_int b0 b1 b2 b3 = z
  | _ => False
  end.
Proof.
  rewrite /int_bytes /bytes_int /u32 /UINT_MOD /INT_MIN /INT_MAX. intros Hz.
  set (u := (z mod 4294967296)%Z).
  assert (0 ≤ u < 4294967296)%Z as Hu by (apply Z.mod_pos_bound; lia).
  assert ((u mod 256 + 256 * (u / 256 mod 256 + 256 * (u / 65536 mod 256 + 256 * (u / 16777216))))
    = u)%Z as ->.
  { Z.to_euclidean_division_equations. lia. }
  case_bool_decide; subst u; Z.to_euclidean_division_equations; lia.
Qed.

(** An [int] among the bytes of a block. *)
Lemma bytes_at (pre bs post : list Z) (j : nat) b i :
  bs !! j = Some b → i = (length pre + j)%Z →
  (Some <$> pre ++ bs ++ post) !! Z.to_nat i = Some (Some b).
Proof.
  intros Hb ->. rewrite list_lookup_fmap Z2Nat.inj_add ?Nat2Z.id; [|lia..].
  rewrite lookup_app_r; [|lia]. replace (length pre + j - length pre) with j by lia.
  by rewrite (lookup_app_l_Some _ _ _ _ Hb).
Qed.

Lemma wp_read_int l pre z post off (Φ : Z → hProp ecell) :
  (INT_MIN ≤ z ≤ INT_MAX)%Z → off = Z.of_nat (length pre) →
  l ↦ DataCell (Some <$> pre ++ int_bytes z ++ post) -∗
  (l ↦ DataCell (Some <$> pre ++ int_bytes z ++ post) -∗ Φ z) -∗
  wp (read_int (Some l) off) Φ.
Proof.
  iIntros (Hz ->) "Hl HΦ". pose proof (int_bytes_roundtrip z Hz) as Hb.
  rewrite /read_int. wp_bind. iApply (wp_read_data with "Hl"). iIntros "Hl".
  destruct (int_bytes z) as [|b0 [|b1 [|b2 [|b3 []]]]] eqn:E; try done.
  wp_bind. iApply wp_aget; [lia|by apply (bytes_at _ _ _ 0); [|lia]|].
  wp_bind. iApply wp_aget; [lia|by apply (bytes_at _ _ _ 1); [|lia]|].
  wp_bind. iApply wp_aget; [lia|by apply (bytes_at _ _ _ 2); [|lia]|].
  wp_bind. iApply wp_aget; [lia|by apply (bytes_at _ _ _ 3); [|lia]|].
  wp_pures. rewrite Hb. by iApply "HΦ".
Qed.

(** The bindings of a descriptor, opened at one. *)
Lemma own_events_at evs1 b evs2 :
  own_events (evs1 ++ b :: evs2) ⊢ own_event b.2 ∗ (own_event b.2 -∗ own_events (evs1 ++ b :: evs2)).
Proof.
  rewrite /own_events big_sepL_app /=. iIntros "($ & $ & $)". iIntros "$".
Qed.

Lemma timer_bytes_s t : timer_bytes t =
  (int_bytes (Timer.tfd t) ++ int_bytes (value_s t) ++ int_bytes (value_ms t)) ++
  int_bytes (interval_s t) ++ (int_bytes (interval_ms t) ++ dev_id t).
Proof. by rewrite /timer_bytes -!assoc_L. Qed.
Lemma timer_bytes_ms t : timer_bytes t =
  (int_bytes (Timer.tfd t) ++ int_bytes (value_s t) ++ int_bytes (value_ms t) ++
   int_bytes (interval_s t)) ++ int_bytes (interval_ms t) ++ dev_id t.
Proof. by rewrite /timer_bytes -!assoc_L. Qed.

#[local] Opaque timer_bytes.

(** The two intervals; the second is read when the first is zero. *)
Lemma wp_timer_once p t (Φ : bool → hProp ecell) :
  (INT_MIN ≤ interval_s t ≤ INT_MAX)%Z → (INT_MIN ≤ interval_ms t ≤ INT_MAX)%Z →
  p ↦ DataCell (Some <$> timer_bytes t) -∗
  (p ↦ DataCell (Some <$> timer_bytes t) -∗
   Φ (bool_decide (interval_s t = 0%Z ∧ interval_ms t = 0%Z))) -∗
  wp (timer_once (Some p)) Φ.
Proof.
  iIntros (Hs Hms) "Hp HΦ". iEval (rewrite timer_bytes_s) in "Hp". rewrite /timer_once.
  wp_bind. iApply (wp_read_int with "Hp"); [done..|]. iIntros "Hp".
  iEval (rewrite -timer_bytes_s) in "Hp". rewrite bool_decide_and.
  case_bool_decide as Hz; simpl; [|wp_pures; by iApply "HΦ"].
  iEval (rewrite timer_bytes_ms) in "Hp".
  wp_bind. iApply (wp_read_int with "Hp"); [done..|]. iIntros "Hp".
  iEval (rewrite -timer_bytes_ms) in "Hp". wp_pures. by iApply "HΦ".
Qed.

(** The callback of a timer with its data in place: a periodic timer is only
    read, another one is stopped, taken out of the epoll descriptor and closed. *)
Theorem timer1_callback_correct st ds1 d ds2 k l callback p len t evs1 evs2 n :
  ctl_ready fuel int_at p_epfd p_event_fd eplfd tfd st ds1 d ds2 →
  length (e_events d) < fuel → (length (e_events d) ≤ INT_MAX)%Z →
  (INT_MIN ≤ interval_s t ≤ INT_MAX)%Z → (INT_MIN ≤ interval_ms t ≤ INT_MAX)%Z →
  e_events d = evs1 ++ (k, (l, (timer_event callback p len, Some <$> timer_bytes t))) :: evs2 →
  {{ epolls (g_p_epoll_list st) (ds1 ++ d :: ds2) }}
  timer1_callback fuel kernel int_at p_epfd p_event_fd (Some l) n st
  {{ st', ⌈ unlocked st st' ⌉ ∗
     if bool_decide (interval_s t = 0%Z ∧ interval_ms t = 0%Z) then
       ⌈ kernel_calls st' = KClose tfd :: KEpollCtl eplfd EPOLL_CTL_DEL tfd NULL ::
           KTimerSet tfd 0 0 0 0 :: KRead tfd :: kernel_calls st ⌉ ∗
       ∃ ht, epolls (g_p_epoll_list st)
               (ds1 ++ with_events ints ht (others ints p_event_fd (e_events d)) d :: ds2)
     else
       ⌈ kernel_calls st' = KRead tfd :: kernel_calls st ⌉ ∗
       epolls (g_p_epoll_list st) (ds1 ++ d :: ds2) }}.
Proof.
  intros Hready Hf Hmax Hs Hms Hevs. apply triple_wp. iIntros "H".
  iDestruct (epolls_focus with "H") as "[[Hb (Hk & Ht & Hev)] H]". rewrite Hevs.
  iDestruct (own_events_at with "Hev") as "[[Hl Hp] Hev]". simpl.
  rewrite /timer1_callback. wp_bind. iApply (wp_read_event with "Hl"). iIntros "Hl". simpl.
  wp_bind. iApply (wp_timer_once with "Hp"); [done..|]. iIntros "Hp".
  iDestruct ("Hev" with "[$Hl $Hp]") as "Hev". rewrite -Hevs.
  iDestruct ("H" $! (e_ints d) (e_table d) (e_events d) with "[Hb Hk Ht Hev]") as "H"; [by iFrame|].
  rewrite with_events_same. case_bool_decide as Hz; last first.
  { wp_pures. iSplit; [iPureIntro; by apply (unlocked_ready st ds1 d ds2)|by iFrame]. }
  rewrite /base_timer_stop /=. set (st1 := add_call _ (add_call (KRead tfd) st)). wp_bind.
  iApply (triple_use with "H").
  { by apply (base_epoll_ctl_del_spec fuel kernel int_at p_epfd p_event_fd eplfd tfd st1). }
  iIntros ([ret st']) "(%ht & %Hu & %Hc & H)". wp_pures.
  rewrite /safe_close bool_decide_eq_true_2; [|destruct Hready as (_ & ? & _); lia].
  simpl. iSplit; [done|]. iSplit; [by destruct Hc as [-> _]|]. iExists ht. by iFrame.
Qed.
End timer.
End proofs.

(** ** Runs

    A timer that fires once in epoll descriptor 3; every system call returns 0. *)
Module Runs.
Import EpollOps.Runs.
Definition calm (calls : list kernel_call) : Z := 0.
Definition noon (calls : list kernel_call) : Z * Z := (43200, 0)%Z.
Definition once : BaseTimer :=
  {| tfd := 5; value_s := 1; value_ms := 0; interval_s := 0; interval_ms := 0; dev_id := [] |}.

Lemma ready5 st d :
  g_epoll_list_lock st = false → e_fd d = 3%Z →
  (∀ b, b ∈ e_events d → e_ints d b.1 = ctl_ints (λ _, 0%Z) 100 101 3 5 b.1) →
  ctl_ready 5 (λ _, 0%Z) 100 101 3 5 st [] d [].
Proof. intros. rewrite /ctl_ready. split_and!; try done; simpl; lia. Qed.

Lemma readable5 d :
  e_events d = [] → ∀ b, b ∈ e_events d → e_ints d b.1 = ctl_ints (λ _, 0%Z) 100 101 3 5 b.1.
Proof. by intros -> b ?%not_elem_of_nil. Qed.

Lemma room5 d : e_events d = [] → table_room 5 (e_events d).
Proof. intros ->. rewrite /table_room /max_prime /=. lia. Qed.


Lemma base_timer_start_no_data_witness :
  base_timer_start 5 calm noon (λ _, 0%Z) 100 101 3 5 1 0 0 0 77 None 0 start_state (Mem ∅ 0) =
    Err NullDeref.
Proof.
  apply (base_timer_start_no_data 5 calm noon (λ _, 0%Z) 100 101 3 5); [by left|done..].
Defined.

(** The timer is started, then its callback called. *)
Lemma started : ∃ st d k l p h,
  g_epoll_list_lock st = false ∧ e_fd d = 3%Z ∧
  e_events d = [] ++ (k, (l, (timer_event 3 5 77 p 20, Some <$> timer_bytes once))) :: [] ∧
  e_ints d = ctl_ints (λ _, 0%Z) 100 101 3 5 ∧ holds (epolls (g_p_epoll_list st) [d]) h.
Proof.
  destruct created as (st & d & h & t & _ & Hlock & Hd & Hev & Hh).
  destruct (triple_run _ _ _ h t (base_timer_start_spec 5 calm noon (λ _, 0%Z) 100 101 3 5 st
    [] d [] 1 0 0 0 77 (timer_bytes once) 20 (ready5 st d Hlock Hd (readable5 d Hev)) (room5 d Hev)
    ltac:(rewrite /=; lia) ltac:(done) ltac:(done)) Hh) as ([r st'] & h' & t' & E & HQ).
  apply holds_pure_sep in HQ as [[Hl Hlock'] HQ].
  apply holds_exist in HQ as [ht HQ]. apply holds_exist in HQ as [evs HQ].
  apply holds_sep in HQ as (h1 & h2 & _ & _ & Hep & HQ). apply holds_or in HQ as [HQ|HQ].
  - apply holds_pure in HQ as [(_ & _ & [Hf|?]) _]; [by apply total_alloc_no_fail in Hf|done].
  - apply holds_exist in HQ as [l HQ]. apply holds_exist in HQ as [p HQ].
    apply holds_pure_sep in HQ as [_ HQ]. apply holds_or in HQ as [HQ|HQ].
    + apply holds_pure in HQ as [-> _]. rewrite Hev in Hep.
      exists st', (with_events (ctl_ints (λ _, 0%Z) 100 101 3 5) ht
        [(101%Z, (l, (timer_event 3 5 77 p 20, Some <$> timer_bytes once)))] d),
        101%Z, l, p, h1. rewrite Hl. split_and!; done.
    + apply holds_pure_sep in HQ as [[Hf _] _]. by apply total_alloc_no_fail in Hf.
Qed.

Lemma timer1_callback_correct_witness : ∃ l st m r h t,
  timer1_callback 5 calm (λ _, 0%Z) 100 101 (Some l) 8 st m = Ok (r, Mem h t).
Proof.
  destruct started as (st & d & k & l & p & h & Hlock & Hd & Hev & Hi & Hh).
  destruct (triple_run _ _ _ h 0 (timer1_callback_correct 5 calm (λ _, 0%Z) 100 101 3 5 st [] d []
    k l 77 p 20 once [] [] 8 (ready5 st d Hlock Hd ltac:(by rewrite Hi)) ltac:(rewrite Hev; simpl; lia)
    ltac:(rewrite Hev; simpl; int_tac) ltac:(done) ltac:(done) Hev) Hh) as (r & h' & t' & E & HQ).
  exists l, st, (Mem h 0), r, h', t'. exact E.
Defined.

(** A whole run: the first wait of the thread delivers the timer that
    [do_action1] started, the second one fails. *)
Definition busy (calls : list kernel_call) : Z :=
  match calls with
  | KEpollCreate :: _ => 3
  | KTimerCreate :: _ => 5
  | KEpollWait _ _ _ :: KEpollCtl _ _ _ _ :: _ => 1
  | KEpollWait _ _ _ :: _ => -1
  | _ => 0
  end.
Definition due (calls : list kernel_call) : list (Z * ptr) :=
  match calls with
  | KEpollWait _ _ _ :: KEpollCtl _ _ _ p :: _ => [(EPOLLIN, p)]
  | _ => []
  end.
Definition call77 (f : value) (p : ptr) (n : Z) (st : state) : M ecell state :=
  if bool_decide (f = 77%Z) then timer1_callback 5 busy (λ _, 0%Z) 100 101 p n st
  else fail WildAccess.
(** The event blocks and data blocks that are live. *)
Definition is_block (c : ecell) : bool :=
  match c with EventCell _ | DataCell _ => true | _ => false end.
Definition live_blocks : M ecell nat :=
  peek (λ m, mret (length (filter (λ kv, is_block kv.2 = true) (map_to_list (cells m))))).

Example one_shot_lifecycle :
  let run :=
    '(epfd, st) ← base_epoll_create 5 busy (λ _, 0%Z) start_state;
    st ← do_action1 5 busy noon (λ _, 0%Z) 100 101 77 epfd st;
    before ← live_blocks;
    st ← epoll_thread 5 busy due call77 epfd st;
    after ← live_blocks;
    mret (before, after, bool_decide (KClose 5 ∈ kernel_calls st)) in
  outcome_is (run (Mem ∅ 0)) (2, 0, true).
Proof. vm_compute. reflexivity. Qed.
End Runs.
