(* ===== verification/EventFd.v ===== *)
(** * EventFd: the code of event_fd.c

    A client of epoll.c: a thread that waits for one eventfd in an epoll
    descriptor of its own, and takes both down when the wait ends.  The loop has no bound
    of its own: it is followed for any number of rounds, after which it either still waits or
    has come to an end. *)
From stdpp Require Import base gmap list numbers.
From iris.proofmode Require Import proofmode.
From S2P Require Import Prelude Memory Compare Chain Buckets HashTable DChain DList Variants Epoll EpollOps.

Section event_fd_c.
Context `{Allocator ecell}.
Context (fuel : nat).
Context (kernel : list kernel_call → Z) (delivered : list kernel_call → list (Z * ptr)).
Context (int_at : value → Z) (p_epfd p_event_fd : value).
(** The address of [event_callback]. *)
Context (p_event_callback : value).

(** [data]: the event block whose member [fd] is pointed to. *)
Definition event_callback (data : ptr) (st : state) : M ecell state :=
  match data with
  | NULL => fail AssertFailed
  | Some _ => e ← read_event data; mret (syscall kernel (KRead (ev_fd e)) st).2
  end.

(** [epoll_data->callback((void * )&epoll_data->fd, 0)] *)
Definition call_event_fd (epoll_data : ptr) (st : state) : M ecell state :=
  e ← read_event epoll_data;
  if bool_decide (ev_callback e = p_event_callback) then event_callback epoll_data st
  else fail WildAccess.

(** A round of the [while] loop, which goes on or breaks. *)
Definition event_round (ep_fd : Z) (st : state) : M ecell (state + state) :=
  let '(n, st) := base_epoll_wait kernel ep_fd true MX_EVNTS 0 st in
  if bool_decide (n < 0)%Z then mret (inr st)
  else
    '(stop, st) ← handle_events call_event_fd (Z.to_nat n) (delivered (kernel_calls st)) st;
    mret (if stop : bool then inr st else inl st).

(** The first rounds of the loop: [inl] when it goes on after them, [inr] when it broke. *)
Fixpoint event_loop (rounds : nat) (ep_fd : Z) (st : state) : M ecell (state + state) :=
  match rounds with
  | O => mret (inl st)
  | S rounds =>
      s ← event_round ep_fd st;
      match s with
      | inl st => event_loop rounds ep_fd st
      | inr st => mret (inr st)
      end
  end.

(** [arg]: the descriptor that the argument points to.  [inl]: the routine is in the loop
    after that many rounds; [inr]: it has returned. *)
Definition event_read_routine (rounds : nat) (arg : option Z) (st : state) : M ecell (state + state) :=
  match arg with
  | None => fail AssertFailed
  | Some efd =>
      '(ep_fd, st) ← base_epoll_create fuel kernel int_at st;
      if bool_decide (ep_fd < 0)%Z then mret (inr st)
      else
        '(ret, st) ← base_epoll_ctl fuel kernel int_at p_epfd p_event_fd ep_fd EPOLL_CTL_ADD efd
          (Some {| ev_eplfd := ep_fd; ev_fd := efd; ev_callback := p_event_callback;
                   ev_data := NULL; ev_len := 0 |}) st;
        s ← (if bool_decide (ret < 0)%Z then mret (inr st) else event_loop rounds ep_fd st);
        match s with
        | inl st => mret (inl st)
        | inr st => st ← base_epoll_close fuel kernel int_at p_epfd ep_fd st; mret (inr st)
        end
  end.

(** The calls of the thread that writes. *)
Definition event_fd_test (st : state) : state :=
  let '(efd, st) := syscall kernel KEventFd st in
  if bool_decide (efd < 0)%Z then st
  else
    let '(ret, st) := syscall kernel KThreadCreate st in
    if bool_decide (ret < 0)%Z then st
    else fold_left (λ st event, (syscall kernel (KWrite efd event) st).2) [0; 1; 2; 3; 4]%Z st.
End event_fd_c.

(** ** Correctness *)

Definition is_wait (c : kernel_call) : bool := match c with KEpollWait _ _ _ => true | _ => false end.

(** [answered kernel cs0 cs n]: the calls since [cs0] are [n] waits, of which none failed, and other calls. *)
Inductive answered (kernel : list kernel_call → Z) (cs0 : list kernel_call) : list kernel_call → nat → Prop :=
  | answered_nil : answered kernel cs0 cs0 0
  | answered_wait c cs n : is_wait c = true → (0 ≤ kernel (c :: cs))%Z → answered kernel cs0 cs n → answered kernel cs0 (c :: cs) (S n)
  | answered_other c cs n : is_wait c = false → answered kernel cs0 cs n → answered kernel cs0 (c :: cs) n.

(** What the kernel does: a new descriptor has no registrations, and a wait delivers at least
    as many events as it says, with registered addresses. *)
Record kernel_serves (kernel : list kernel_call → Z) (delivered : list kernel_call → list (Z * ptr)) : Prop := {
  serves_fresh cs fd : (0 < kernel (KEpollCreate :: cs))%Z →
    registered kernel cs !! (kernel (KEpollCreate :: cs), fd) = None;
  serves_enough epfd n t cs (calls := KEpollWait epfd n t :: cs) :
    (kernel calls ≤ length (delivered calls))%Z;
  serves_registered epfd n t cs p : Some p ∈ (delivered (KEpollWait epfd n t :: cs)).*2 →
    ∃ fd, registered kernel cs !! (epfd, fd) = Some (Some p)
}.

Section proofs.
Context `{Allocator ecell}.
Context (fuel : nat) (kernel : list kernel_call → Z) (delivered : list kernel_call → list (Z * ptr)).
Context (Hkernel : kernel_serves kernel delivered).
Context (int_at : value → Z) (p_epfd p_event_fd p_event_callback : value).

Definition fd_event (ep_fd efd : Z) : EpollEvent :=
  {| ev_eplfd := ep_fd; ev_fd := efd; ev_callback := p_event_callback; ev_data := NULL;
     ev_len := 0 |}.

(** *** The loop *)

(** [q] is an event block of [R] with the routine's callback, or null. *)
Definition owned_event (q : ptr) (R : hProp ecell) : Prop :=
  match q with
  | NULL => True
  | Some l => R ⊢ ∃ e, ⌈ ev_callback e = p_event_callback ⌉ ∗ l ↦ EventCell e ∗ (l ↦ EventCell e -∗ R)
  end.

(** While the routine waits with the descriptor [fd]: it holds [R], no address but [q] is registered, and [n] waits since
    [cs0] were answered. *)
Definition held (hd : ptr) (R : hProp ecell) (st : state) : hProp ecell :=
  ⌈ g_p_epoll_list st = hd ∧ g_epoll_list_lock st = false ⌉ ∗ R.
Definition registers (fd : Z) (q : ptr) (cs : list kernel_call) : Prop :=
  ∀ x p, registered kernel cs !! (fd, x) = Some p → p = q.
Definition waiting (hd : ptr) (fd : Z) (q : ptr) (R : hProp ecell) (cs0 : list kernel_call) (n : nat) (st : state) : hProp ecell :=
  ⌈ registers fd q (kernel_calls st) ∧ answered kernel cs0 (kernel_calls st) n ⌉ ∗ held hd R st.

(** A callback reads the descriptor and changes nothing else. *)
Lemma call_event_fd_spec hd fd l R cs0 n st :
  owned_event (Some l) R →
  {{ waiting hd fd (Some l) R cs0 n st }} call_event_fd kernel p_event_callback (Some l) st
  {{ st', waiting hd fd (Some l) R cs0 n st' }}.
Proof.
  intros HR. apply triple_wp. iIntros "([%Hreg %Hans] & % & HR)".
  iDestruct (HR with "HR") as "(%e & %He & Hl & HR)". rewrite /call_event_fd.
  wp_bind. iApply (wp_read_event with "Hl"). iIntros "Hl". rewrite bool_decide_eq_true_2 //. rewrite /event_callback.
  wp_bind. iApply (wp_read_event with "Hl"). iIntros "Hl". wp_pures. rewrite /waiting /held.
  iSplit; [iPureIntro; split; [done|by apply answered_other]|]. iSplit; [done|]. by iApply "HR".
Qed.

Lemma event_loop_spec hd fd q R cs0 rounds k st :
  (0 ≤ fd)%Z → owned_event q R →
  {{ waiting hd fd q R cs0 k st }}
  event_loop kernel delivered p_event_callback rounds fd st
  {{ s, match s with
        | inl st' => waiting hd fd q R cs0 (k + rounds) st'
        | inr st' => held hd R st'
        end }}.
Proof.
  intros Hfd HR. revert st k. induction rounds as [|rounds IH]; intros st k; apply triple_wp; iIntros "[[%Hreg %Hans] H]".
  { simpl. wp_pures. rewrite Nat.add_0_r /waiting. by iFrame. }
  cbn [event_loop]. wp_bind. rewrite {1}/event_round /base_epoll_wait bool_decide_eq_false_2 /=; [|lia].
  set (st1 := add_call (KEpollWait fd MX_EVNTS 0) st). fold (kernel_calls st1).
  case_bool_decide as Hn; [wp_pures; iExact "H"|].
  iAssert (waiting hd fd q R cs0 (S k) st1) with "[H]" as "H".
  { iSplit; [|done]. iPureIntro. split; [done|]. apply answered_wait; [done|by apply Z.nlt_ge|done]. }
  wp_bind. iApply (triple_use with "H").
  { apply (handle_events_spec _ (λ _ st, waiting hd fd q R cs0 (S k) st) _ _ _ []).
    - pose proof (serves_enough _ _ Hkernel fd MX_EVNTS 0 (kernel_calls st)). simpl in *. lia.
    - intros _ p st' Hp. apply (serves_registered _ _ Hkernel) in Hp as [x Hp].
      apply Hreg in Hp as <-. by apply call_event_fd_spec. }
  iIntros ([stop st']) "H". wp_pures. destruct stop; wp_pures; [by iDestruct "H" as "[_ $]"|].
  iApply (triple_use with "H"); [apply IH|]. iIntros (s) "H". by rewrite Nat.add_succ_r.
Qed.

(** *** What is registered *)
Lemma only_registered cs efd l :
  let fd := kernel (KEpollCreate :: cs) in
  let calls := KEpollCtl fd EPOLL_CTL_ADD efd (Some l) :: KEpollCreate :: cs in
  (0 < fd)%Z → kernel calls = 0%Z → registers fd (Some l) calls.
Proof.
  intros fd calls Hfd Hk x p. rewrite /calls /= -/calls Hk /=.
  destruct (decide (x = efd)) as [->|Hx]; [rewrite lookup_insert_eq; congruence|].
  rewrite lookup_insert_ne; [|congruence]. by rewrite (serves_fresh _ _ Hkernel).
Qed.

Lemma none_registered cs q : let fd := kernel (KEpollCreate :: cs) in (0 < fd)%Z → registers fd q (KEpollCreate :: cs).
Proof. intros fd Hfd x p. by rewrite /= (serves_fresh _ _ Hkernel). Qed.

(** *** The three places for what the routine allocated *)

(** While it waits: the descriptor is the last of the list with its event block bound; or, when an allocation was refused, the
    block is not in the table, or the descriptor is not in the list. *)
Definition bound_event (efd : Z) (d : epoll) (l : loc) : Prop := e_events d = [(p_event_fd, (l, (fd_event (e_fd d) efd, [])))].
Definition still_there (hd : ptr) (ds : list epoll) (efd fd : Z) : hProp ecell :=
  ∃ d, ⌈ e_fd d = fd ⌉ ∗
    ((∃ l, ⌈ bound_event efd d l ⌉ ∗ epolls hd (ds ++ [d])) ∨
     ⌈ @can_fail ecell _ ⌉ ∗ (∃ l, ⌈ e_events d = [] ⌉ ∗ own_event (l, (fd_event fd efd, [])) ∗ epolls hd (ds ++ [d])) ∨
     ⌈ @can_fail ecell _ ∧ e_events d = [] ⌉ ∗ own_epoll d ∗ epolls hd ds).

(** After it returned: the list node is left; and, when an allocation was refused, the event block is too, or the block of the
    descriptor with its table instead of the node, or nothing. *)
Definition left_behind (efd fd : Z) : hProp ecell :=
  (∃ l n, l ↦ ListCell n) ∗ (emp ∨ ⌈ @can_fail ecell _ ⌉ ∗ ∃ l, own_event (l, (fd_event fd efd, []))) ∨
  ⌈ @can_fail ecell _ ⌉ ∗ (emp ∨ ∃ d, ⌈ e_fd d = fd ∧ e_events d = [] ⌉ ∗ own_epoll d).

(** Closing the descriptor at the end of the list. *)
Lemma routine_close st ds d fd :
  (0 < fd)%Z → p_epfd ≠ VNULL → g_epoll_list_lock st = false → S (length ds) < fuel →
  length (e_events d) < fuel → Forall (λ d, e_fd d ≠ fd) ds → e_fd d = fd →
  {{ epolls (g_p_epoll_list st) (ds ++ [d]) }}
  base_epoll_close fuel kernel int_at p_epfd fd st {{ st',
    ⌈ g_epoll_list_lock st' = false ∧ head (kernel_calls st') = Some (KClose fd) ⌉ ∗ epolls (g_p_epoll_list st') ds ∗
    ∃ l n, l ↦ ListCell n }}.
Proof.
  intros Hfd Hp Hlock Hf Hev Hds Hd. apply triple_wp. iIntros "H".
  iApply (triple_use with "H").
  { apply base_epoll_close_spec; try done. rewrite length_app /=. lia. }
  iIntros (st') "([% %Hc] & H & Hn)". rewrite app_nil_r Hc. iFrame. by iPureIntro.
Qed.

(** The loop and the end, for what the routine holds in [R] besides the list. *)
Lemma routine_rest st ds d fd q R rounds cs0 efd :
  let hd := g_p_epoll_list st in
  (0 < fd)%Z → p_epfd ≠ VNULL → S (length ds) < fuel → length (e_events d) < fuel → Forall (λ d, e_fd d ≠ fd) ds → e_fd d = fd →
  owned_event q (epolls hd (ds ++ [d]) ∗ R) → (R ⊢ emp ∨ ⌈ @can_fail ecell _ ⌉ ∗ ∃ l, own_event (l, (fd_event fd efd, []))) →
  (epolls hd (ds ++ [d]) ∗ R ⊢ still_there hd ds efd fd) →
  {{ waiting hd fd q (epolls hd (ds ++ [d]) ∗ R) cs0 0 st }}
  s ← event_loop kernel delivered p_event_callback rounds fd st;
  match s with
  | inl st => mret (inl st)
  | inr st => st ← base_epoll_close fuel kernel int_at p_epfd fd st; mret (inr st)
  end
  {{ s, match s with
        | inl st' => ⌈ g_epoll_list_lock st' = false ∧ answered kernel cs0 (kernel_calls st') rounds ⌉ ∗
                     still_there (g_p_epoll_list st') ds efd fd
        | inr st' => ⌈ g_epoll_list_lock st' = false ∧ head (kernel_calls st') = Some (KClose fd) ⌉ ∗
                     epolls (g_p_epoll_list st') ds ∗ left_behind efd fd
        end }}.
Proof.
  intros hd Hfd Hp Hf Hev Hds Hd Hown HR Hstill. apply triple_wp. iIntros "H". wp_bind.
  iApply (triple_use with "H"); [apply event_loop_spec; [lia|done]|]. iIntros ([st'|st']) "H".
  - wp_pures. iDestruct "H" as "([% %Hans] & (%Hhd & %) & H)". iSplit; [done|]. rewrite Hhd. by iApply Hstill.
  - iDestruct "H" as "((%Hhd & %) & H & HR)". wp_bind. iApply (triple_use with "[H]").
    { by apply (routine_close st' ds d fd). }
    { by rewrite Hhd. }
    iIntros (st'') "(% & Hl & Hn)". wp_pures. iSplit; [done|]. iFrame "Hl". iLeft. iFrame "Hn". by iApply HR.
Qed.

Lemma owned_bound hd ds d l efd R :
  bound_event efd d l → owned_event (Some l) (epolls hd (ds ++ [d]) ∗ R).
Proof.
  intros Hev. simpl. iIntros "[H HR]". iDestruct (epolls_focus with "H") as "[[Hb (Hk & Ht & Hev)] H]". rewrite Hev.
  iEval (rewrite {1}/own_events /= /own_event /=) in "Hev". iDestruct "Hev" as "[[Hl Hd] _]".
  iExists _. iFrame "Hl HR". iSplit; [done|]. iIntros "Hl".
  iDestruct ("H" $! (e_ints d) (e_table d) (e_events d) with "[Hb Hk Ht Hl Hd]") as "H".
  { rewrite Hev. iFrame "Hb Hk Ht". rewrite /own_events /= /own_event /=. iFrame. }
  by destruct d.
Qed.

(** The routine after its descriptor was created, up to the end. *)
Definition routine_after (ep_fd efd : Z) (rounds : nat) (st : state) : M ecell (state + state) :=
  '(ret, st) ← base_epoll_ctl fuel kernel int_at p_epfd p_event_fd ep_fd EPOLL_CTL_ADD efd (Some (fd_event ep_fd efd)) st;
  s ← (if bool_decide (ret < 0)%Z then mret (inr st) else event_loop kernel delivered p_event_callback rounds ep_fd st);
  match s with
  | inl st => mret (inl st)
  | inr st => st ← base_epoll_close fuel kernel int_at p_epfd ep_fd st; mret (inr st)
  end.

(** How it ends, from a state after the creation. *)
Definition routine_post (efd : Z) (st : state) (ds : list epoll) (rounds : nat) (s : state + state) : hProp ecell :=
  let fd := kernel (KEpollCreate :: kernel_calls st) in
  match s with
  | inl st' => ⌈ g_epoll_list_lock st' = false ∧ answered kernel (kernel_calls st) (kernel_calls st') rounds ⌉ ∗
               still_there (g_p_epoll_list st') ds efd fd
  | inr st' => ⌈ g_epoll_list_lock st' = false ∧ head (kernel_calls st') = Some (KClose fd) ⌉ ∗
               epolls (g_p_epoll_list st') ds ∗ left_behind efd fd
  end.

(** With the descriptor in the list. *)
Lemma routine_listed efd st st1 ds d rounds :
  let fd := kernel (KEpollCreate :: kernel_calls st) in
  (0 < efd)%Z → (0 < fd)%Z → p_epfd ≠ VNULL → S (length ds) < fuel → Forall (λ d, e_fd d ≠ fd) ds →
  g_epoll_list_lock st1 = false → kernel_calls st1 = KEpollCreate :: kernel_calls st → e_fd d = fd → e_events d = [] →
  {{ epolls (g_p_epoll_list st1) (ds ++ [d]) }} routine_after fd efd rounds st1 {{ s, routine_post efd st ds rounds s }}.
Proof.
  intros fd Hefd Hfd Hp Hf Hds Hlock1 Hcalls Hd Hev. apply triple_wp. iIntros "H". rewrite /routine_after.
  assert (ctl_ready fuel int_at p_epfd p_event_fd fd efd st1 ds d []) as Hready.
  { rewrite /ctl_ready. split_and!; try done; [rewrite length_app /=; lia|]. rewrite Hev. by intros b ?%not_elem_of_nil. }
  wp_bind. iApply (triple_use with "[H]").
  { apply (base_epoll_ctl_add_spec fuel kernel int_at p_epfd p_event_fd fd efd st1 ds d []
      (fd_event fd efd) []); [done|]. rewrite /table_room Hev /max_prime /=. lia. }
  { iFrame "H". }
  iIntros ([ret st2]) "(%ht & %evs & [%Hl2 %Hlock2] & Hr & H)".
  set (d' := with_events _ ht evs d). iEval (rewrite Hev) in "Hr". rewrite -Hl2.
  assert (∀ st', g_epoll_list_lock st' = false → evs = [] → epolls (g_p_epoll_list st') (ds ++ [d']) ⊢
    wp (base_epoll_close fuel kernel int_at p_epfd fd st') (λ st', wp (mret (inr st')) (routine_post efd st ds rounds))) as Hclose.
  { intros st' Hl' He. iIntros "H". iApply (triple_use with "H").
    { apply (routine_close st' ds d' fd); try done. rewrite /= He /=. lia. }
    iIntros (st'') "(% & Hds & Hn)". wp_pures. iSplit; [done|]. iFrame "Hds". iLeft. iFrame "Hn". by iLeft. }
  iDestruct "Hr" as "[[%Hr' _]|(%l & %Hc & [[%Hr' _]|[%Hr' Hr]])]".
  - destruct Hr' as (_ & -> & _ & Hevs). wp_pures. by iApply Hclose.
  - destruct Hr' as (_ & -> & Hevs). wp_pures. by iApply Hclose.
  - destruct Hr' as (Hk & ->). cbv beta iota. rewrite (bool_decide_eq_false_2 (0 < 0)%Z); [|lia]. assert (registers fd (Some l) (kernel_calls st2)) as Hreg.
    { rewrite Hc Hcalls in Hk |- *. by apply only_registered. }
    assert (answered kernel (kernel_calls st) (kernel_calls st2) 0) as Hans.
    { rewrite Hc Hcalls. do 2 (apply answered_other; [done|]). apply answered_nil. }
    iDestruct "Hr" as "[%Hevs|[[%Hfail %Hevs] Hl]]".
    + iApply (triple_use with "[H]").
      { apply (routine_rest st2 ds d' fd (Some l) emp rounds (kernel_calls st) efd); try done; [by rewrite /= Hevs /=; lia|..].
        - apply (owned_bound _ _ _ _ efd). by rewrite /bound_event /= Hd Hevs.
        - iIntros "_". by iLeft.
        - rewrite right_id. iIntros "H". iExists d'. iSplit; [done|]. iLeft. iExists l. iSplit; [|done].
          iPureIntro. by rewrite /bound_event /= Hd Hevs. }
      { rewrite /waiting /held right_id. by iFrame. }
      iIntros (s) "$".
    + iApply (triple_use with "[H Hl]").
      { apply (routine_rest st2 ds d' fd (Some l) (own_event (l, (fd_event fd efd, []))) rounds (kernel_calls st) efd); try done; [by rewrite /= Hevs /=; lia|..].
        - simpl. iIntros "[H [Hl Hx]]". iExists _. iFrame "Hl". iSplit; [done|]. iIntros "Hl". iSplitL "H"; [iExact "H"|].
          rewrite /own_event /=. iFrame.
        - iIntros "H". iRight. iSplit; [done|]. by iExists l.
        - iIntros "[H Hl]". iExists d'. iSplit; [done|]. iRight; iLeft. iSplit; [done|]. iExists l. iSplit; [done|]. iFrame. }
      { rewrite /waiting /held. by iFrame. }
      iIntros (s) "$".
Qed.

(** With the descriptor unknown to the list: nothing is registered, and closing it changes no list. *)
Lemma routine_unlisted efd st st1 ds d rounds :
  let fd := kernel (KEpollCreate :: kernel_calls st) in
  (0 < efd)%Z → (0 < fd)%Z → p_epfd ≠ VNULL → S (length ds) < fuel → Forall (λ d, e_fd d ≠ fd) ds → @can_fail ecell _ →
  g_epoll_list_lock st1 = false → kernel_calls st1 = KEpollCreate :: kernel_calls st → e_fd d = fd → e_events d = [] →
  {{ epolls (g_p_epoll_list st1) ds ∗ own_epoll d }} routine_after fd efd rounds st1 {{ s, routine_post efd st ds rounds s }}.
Proof.
  intros fd Hefd Hfd Hp Hf Hds Hfail Hlock1 Hcalls Hd Hev. apply triple_wp. iIntros "[H Hd]". rewrite /routine_after.
  wp_bind. iApply (triple_use with "H"); [by apply base_epoll_ctl_unknown; [..|lia|]|].
  iIntros (r) "[-> H]". cbv beta iota. rewrite (bool_decide_eq_false_2 (0 < 0)%Z); [|lia]. wp_bind.
  iApply (triple_use with "[H Hd]").
  { apply (event_loop_spec (g_p_epoll_list st1) fd NULL (epolls (g_p_epoll_list st1) ds ∗ own_epoll d) (kernel_calls st) rounds 0 st1); [lia|done]. }
  { rewrite /waiting /held. iFrame. iPureIntro. rewrite Hcalls. split_and!; [by apply none_registered| |done|done].
    apply answered_other; [done|]. apply answered_nil. }
  iIntros ([st'|st']) "H".
  - iDestruct "H" as "([_ %Hans] & [%Hhd %] & H & Hd)". wp_pures. iSplit; [done|]. iExists d. iSplit; [done|]. rewrite Hhd.
    iRight; iRight. by iFrame.
  - iDestruct "H" as "([%Hhd %] & H & Hd)". wp_bind. iApply (triple_use with "[H]").
    { apply (base_epoll_close_unknown fuel kernel int_at p_epfd fd st' ds); try done; lia. }
    { by rewrite Hhd. }
    iIntros (st'') "[-> H]". wp_pures. rewrite /safe_close bool_decide_eq_true_2 /=; [|lia]. iSplit; [done|]. iFrame "H".
    iRight. iSplit; [done|]. iRight. iExists d. by iFrame.
Qed.

(** C22. The routine, followed for any number of rounds, with a kernel that delivers what is registered.  Either it still waits
    after that many rounds, none of which failed, and what it holds is in place; or it has returned, the list is as it was, the
    lock is free, and the descriptor, if there was one, was closed last.  What stays behind then is the list node; only where
    an allocation was refused can it be the event block too, or the block of the descriptor with its table, or nothing. *)
Theorem event_read_routine_correct efd st ds rounds :
  let fd := kernel (KEpollCreate :: kernel_calls st) in
  (0 < efd)%Z → p_epfd ≠ VNULL → g_epoll_list_lock st = false → S (length ds) < fuel → Forall (λ d, e_fd d ≠ fd) ds →
  {{ epolls (g_p_epoll_list st) ds }}
  event_read_routine fuel kernel delivered int_at p_epfd p_event_fd p_event_callback rounds (Some efd) st
  {{ s, match s with
        | inl st' => ⌈ (0 < fd)%Z ∧ g_epoll_list_lock st' = false ∧ answered kernel (kernel_calls st) (kernel_calls st') rounds ⌉ ∗
                     still_there (g_p_epoll_list st') ds efd fd
        | inr st' => ⌈ g_epoll_list_lock st' = false ⌉ ∗ epolls (g_p_epoll_list st') ds ∗
                     (⌈ (fd ≤ 0)%Z ⌉ ∨ ⌈ (0 < fd)%Z ∧ head (kernel_calls st') = Some (KClose fd) ⌉ ∗ left_behind efd fd)
        end }}.
Proof.
  intros fd Hefd Hp Hlock Hf Hds. apply triple_wp. iIntros "H". rewrite /event_read_routine. wp_bind.
  iApply (triple_use with "H"); [apply base_epoll_create_spec; [done|lia]|].
  iIntros ([r st1]) "[%Hlock1 [[%Hst H]|[%Hst (%d & [%Hd %Hev] & [H|[%Hf' [H Hd]]])]]]".
  { destruct Hst as (Hl & -> & Hfd). wp_pures. iSplit; [done|]. rewrite Hl. iFrame "H".
    destruct Hfd as [[Hfd _]|(Hfd & Hfail & Hc)]; [by iLeft|]. iRight. iSplit; [by rewrite Hc|].
    iRight. iSplit; [done|]. by iLeft. }
  - destruct Hst as (Hfd & -> & Hcalls). cbv beta iota. rewrite (bool_decide_eq_false_2 (_ < 0)%Z); [|lia].
    iApply (triple_use with "H"); [by apply (routine_listed efd st st1 ds d rounds)|].
    iIntros ([st'|st']); [iIntros "[[% %] $]"; by iPureIntro|iIntros "[[% %] [$ Hl]]"].
    iSplit; [done|]. iRight. by iFrame.
  - destruct Hst as (Hfd & -> & Hcalls). cbv beta iota. rewrite (bool_decide_eq_false_2 (_ < 0)%Z); [|lia].
    destruct Hf' as [Hfail Hlist]. rewrite -Hlist.
    iApply (triple_use with "[H Hd]"); [by apply (routine_unlisted efd st st1 ds d rounds)|by iFrame|].
    iIntros ([st'|st']); [iIntros "[[% %] $]"; by iPureIntro|iIntros "[[% %] [$ Hl]]"].
    iSplit; [done|]. iRight. by iFrame.
Qed.
End proofs.

(** ** Runs

    A kernel that numbers the descriptors, accepts registrations with those that
    it has handed out, and delivers the event of a registration when the wait
    follows it, once. *)
Module Runs.
Import EpollOps.Runs.
Definition waits (calls : list kernel_call) : nat := length (filter (λ c, is_wait c = true) calls).
Definition first_wait (epfd : Z) (cs : list kernel_call) : option (Z * Z * ptr) :=
  match cs with
  | KEpollCtl epfd' op fd p :: cs' =>
      if bool_decide (epfd' = epfd ∧ op = EPOLL_CTL_ADD ∧ (epfd' ≤ length cs')%Z ∧ waits cs = 0)
      then Some (epfd', fd, p) else None
  | _ => None
  end.
Definition once (calls : list kernel_call) : Z := (
  match calls with
  | KEpollCreate :: cs => 1 + length cs
  | KEpollCtl epfd _ _ _ :: cs => if bool_decide (epfd ≤ length cs) then 0 else -1
  | KEpollWait epfd _ _ :: cs => match first_wait epfd cs with Some _ => 1 | None => -1 end
  | _ => 0
  end)%Z.
Definition arrived (calls : list kernel_call) : list (Z * ptr) :=
  match calls with
  | KEpollWait epfd _ _ :: cs =>
      match first_wait epfd cs with Some (_, _, p) => [(EPOLLIN, p)] | None => [] end
  | _ => []
  end.

Lemma registered_old cs epfd fd p :
  registered once cs !! (epfd, fd) = Some p → (epfd ≤ length cs)%Z.
Proof.
  revert p. induction cs as [|c cs IH]; intros p; [done|].
  destruct c; simpl; try (intros Hp%IH; lia); [|intros [Hp%IH _]%map_lookup_filter_Some; lia].
  case_bool_decide as Hok; [intros Hp%IH; lia|].
  assert (epfd0 ≤ length cs)%Z as Hle by (by case_bool_decide).
  clear Hok.
  case_bool_decide; [intros [_ Hp%IH]%lookup_delete_Some; lia|].
  intros [[[= <- _] _]|[_ Hp%IH]]%lookup_insert_Some; lia.
Qed.

Lemma once_serves : kernel_serves once arrived.
Proof.
  split.
  - intros cs fd _. destruct (registered once cs !! _) as [p|] eqn:E; [|done].
    apply registered_old in E. simpl in E. lia.
  - intros epfd n t cs calls. rewrite /calls /=. by destruct (first_wait epfd cs) as [[[??]?]|].
  - intros epfd n t cs p Hp. destruct cs as [|[] cs]; simpl in Hp; try by apply not_elem_of_nil in Hp.
    case_bool_decide as Hc; [|by apply not_elem_of_nil in Hp].
    destruct Hc as (-> & -> & Hle & _). apply list_elem_of_singleton in Hp. simpl in Hp. subst data.
    exists event_fd. simpl. rewrite (bool_decide_eq_true_2 _ Hle) /=. by rewrite lookup_insert_eq.
Qed.

Lemma event_read_routine_correct_witness : ∃ s h t,
  event_read_routine 5 once arrived (λ _, 0%Z) 100%Z 101%Z 7%Z 2 (Some 9%Z) start_state (Mem ∅ 0) = Ok (s, Mem h t).
Proof.
  destruct (triple_run _ _ _ ∅ 0 (event_read_routine_correct 5 once arrived once_serves
    (λ _, 0%Z) 100 101 7 9 start_state [] 2 ltac:(lia) ltac:(done) ltac:(done)
    ltac:(simpl; lia) (Forall_nil_2 _)) nothing_holds) as (s & h & t & E & HQ).
  exists s, h, t. exact E.
Defined.

(** The first wait is answered and the second fails: after one round the routine waits, after two it has returned. *)
Lemma routine_returns :
  (λ o, match o with Ok (inl _, _) => false | Ok (inr _, _) => true | Err _ => false end) <$>
    ((λ rounds, event_read_routine 5 once arrived (λ _, 0%Z) 100%Z 101%Z 7%Z rounds (Some 9%Z) start_state (Mem ∅ 0)) <$> [0; 1; 2]) =
  [false; false; true].
Proof. vm_compute. reflexivity. Qed.
End Runs.
