(* ===== verification/Select.v ===== *)
(** * Select: the server of select/server.c and its clients of select/client.c

    One server runs [select_server] and any number of clients run
    [select_client] beside it.  A step is one system call, or one decision between
    system calls, of one process; processes interleave freely.  The sockets behave
    as POSIX describes them: a connection waits in the backlog until it is accepted,
    bytes arrive in order, a descriptor is the lowest one that is free, [select]
    reports the connections that have bytes or whose client is gone.  With
    [faulty], a call that makes, waits for or asks about a socket may also fail: [socket],
    [bind], [listen], [select], [accept], [ioctl] and a client's [connect].  The theorems
    are about runs in which each of these fails or not.  The sleeps do not order anything. *)
From stdpp Require Import base gmap list numbers relations ssreflect.
From S2P Require Import Prelude Memory.

(** ** The state *)

Definition FD_SETSIZE : Z := 1024.
(** [listen(server_sockfd, 5)]. *)
Definition BACKLOG : nat := 5.

(** The conversion to [char], which is signed. *)
Definition to_char (z : Z) : Z := ((z + 128) mod 256 - 128)%Z.

(** What a client does next. *)
Inductive client_pc : Set :=
  | KSocket | KConnect | KWrite1 | KRead1 | KSleep | KWrite2 | KRead2 | KClose
  | KReturned
  | KExit     (* [exit(1)] *)
  | KKilled.  (* SIGPIPE *)

(** The server's end of a client's connection. *)
Inductive link : Set :=
  | Unconnected
  | Pending         (* in the backlog *)
  | Open (fd : Z)   (* accepted as [fd] *)
  | Dropped.        (* closed by the server *)

(** A client, its connection and what it printed: the bytes [inbound] go to the
    server, [outbound] come from it. *)
Record client := Client {
  at_ : client_pc;
  ch : Z;
  printed : list Z;
  inbound : list Z;
  outbound : list Z;
  conn : link
}.

(** What the server does next; the descriptor is the [fd] of the scan. *)
Inductive server_pc : Set :=
  | SSocket | SBind | SListen (bound : bool) | SInit | SSelect
  | SScan (fd : Z)
  | SAccept (fd : Z)
  | SIoctl (fd : Z)
  | SNread (fd nread : Z)
  | SClose (fd : Z)
  | SRead (fd : Z)
  | SWrite (fd c : Z)
  | SExit            (* [exit(1)] *)
  | SKilled          (* SIGPIPE *)
  | SFault (f : fault).

Record state := State {
  pc : server_pc;
  server_sockfd : Z;
  listening : bool;   (* on port 8888 *)
  readfds : gset Z;
  testfds : gset Z;
  backlog : list nat;
  clients : list client
}.

#[global] Instance client_pc_eq_dec : EqDecision client_pc.
Proof. solve_decision. Defined.
#[global] Instance link_eq_dec : EqDecision link.
Proof. solve_decision. Defined.

Definition new_client : client := Client KSocket 65 [] [] [] Unconnected.
Definition start (n : nat) : state := State SSocket (-1) false ∅ ∅ [] (replicate n new_client).

Definition set_pc (p : server_pc) (s : state) : state :=
  State p (server_sockfd s) (listening s) (readfds s) (testfds s) (backlog s) (clients s).
Definition set_client (i : nat) (c : client) (s : state) : state :=
  State (pc s) (server_sockfd s) (listening s) (readfds s) (testfds s) (backlog s) (<[i := c]> (clients s)).
Definition set_backlog (b : list nat) (s : state) : state :=
  State (pc s) (server_sockfd s) (listening s) (readfds s) (testfds s) b (clients s).
Definition set_readfds (r : gset Z) (s : state) : state :=
  State (pc s) (server_sockfd s) (listening s) r (testfds s) (backlog s) (clients s).
Definition set_testfds (t : gset Z) (s : state) : state :=
  State (pc s) (server_sockfd s) (listening s) (readfds s) t (backlog s) (clients s).
Definition set_socket (fd : Z) (s : state) : state :=
  State (pc s) fd (listening s) (readfds s) (testfds s) (backlog s) (clients s).
Definition set_listening (b : bool) (s : state) : state :=
  State (pc s) (server_sockfd s) b (readfds s) (testfds s) (backlog s) (clients s).

Definition set_conn (l : link) (c : client) : client :=
  Client (at_ c) (ch c) (printed c) (inbound c) (outbound c) l.
Definition set_at (p : client_pc) (c : client) : client :=
  Client p (ch c) (printed c) (inbound c) (outbound c) (conn c).
Definition set_inbound (l : list Z) (c : client) : client :=
  Client (at_ c) (ch c) (printed c) l (outbound c) (conn c).
Definition set_outbound (l : list Z) (c : client) : client :=
  Client (at_ c) (ch c) (printed c) (inbound c) l (conn c).
(** [ch] is read and printed. *)
Definition hear (x : Z) (c : client) : client :=
  Client (at_ c) x (printed c ++ [x]) (inbound c) (outbound c) (conn c).

(** ** The sockets *)

Definition link_fd (l : link) : option Z := match l with Open fd => Some fd | _ => None end.
Definition conns (s : state) : list link := conn <$> clients s.

(** The server's descriptors: the standard ones, its socket, the accepted connections. *)
Definition open_fds (s : state) : list Z :=
  [0; 1; 2; server_sockfd s]%Z ++ omap link_fd (conns s).

(** The lowest descriptor not in [used]. *)
Fixpoint lowest_free (fuel : nat) (fd : Z) (used : list Z) : Z :=
  match fuel with
  | O => fd
  | S fuel => if bool_decide (fd ∈ used) then lowest_free fuel (fd + 1) used else fd
  end.
Definition new_fd (s : state) : Z := lowest_free (length (open_fds s)) 0 (open_fds s).

(** The connection behind a descriptor. *)
Definition peer (s : state) (fd : Z) : option (nat * client) :=
  list_find (λ c, conn c = Open fd) (clients s).

Definition gone (c : client) : bool :=
  match at_ c with KReturned | KExit | KKilled => true | _ => false end.

(** Whether [select] reports [fd]. *)
Definition readable (s : state) (fd : Z) : bool :=
  if bool_decide (fd = server_sockfd s) then bool_decide (backlog s ≠ [])
  else match peer s fd with
       | Some (_, c) => bool_decide (inbound c ≠ []) || gone c
       | None => false
       end.

(** [FD_SET]: the bit of a descriptor outside the set is outside the array. *)
Definition FD_SET (fd : Z) (k : state → state) (s : state) : state :=
  if bool_decide (0 ≤ fd < FD_SETSIZE)%Z then k (set_readfds ({[fd]} ∪ readfds s) s)
  else set_pc (SFault OutOfBounds) s.

(** ** The steps of [select_client] *)

(** [write(client_sockfd, &ch, 1)]; a byte for a connection that is closed is lost,
    or raises SIGPIPE. *)
Definition client_write (p : client_pc) (c : client) : list client :=
  match conn c with
  | Dropped => [set_at p c; set_at KKilled c]
  | _ => [set_at p (set_inbound (inbound c ++ [ch c]) c)]
  end.

(** [read(client_sockfd, &ch, 1)] and the print; at the end of the stream [ch] stays. *)
Definition client_read (p : client_pc) (c : client) : list client :=
  match outbound c with
  | x :: l => [set_at p (hear x (set_outbound l c))]
  | [] => match conn c with Dropped => [set_at p (hear (ch c) c)] | _ => [] end
  end.

Definition connect (faulty : bool) (i : nat) (c : client) (s : state) : list state :=
  (if listening s then
     if bool_decide (length (backlog s) < BACKLOG)
     then [set_client i (set_at KWrite1 (set_conn Pending c)) (set_backlog (backlog s ++ [i]) s)]
     else []
   else [set_client i (set_at KExit c) s]) ++
  (if faulty then [set_client i (set_at KExit c) s] else []).

Definition select_client (faulty : bool) (i : nat) (c : client) (s : state) : list state :=
  match at_ c with
  | KSocket => [set_client i (set_at KConnect c) s]
  | KConnect => connect faulty i c s
  | KWrite1 => (λ c', set_client i c' s) <$> client_write KRead1 c
  | KRead1 => (λ c', set_client i c' s) <$> client_read KSleep c
  | KSleep => [set_client i (set_at KWrite2 c) s]
  | KWrite2 => (λ c', set_client i c' s) <$> client_write KRead2 c
  | KRead2 => (λ c', set_client i c' s) <$> client_read KClose c
  | KClose => [set_client i (set_at KReturned c) s]
  | KReturned | KExit | KKilled => []
  end.

(** ** The steps of [select_server] *)

(** The end of the server: its descriptors are closed. *)
Definition server_end (p : server_pc) (s : state) : state :=
  State p (server_sockfd s) false (readfds s) (testfds s) []
    ((λ c, match conn c with Unconnected => c | _ => set_conn Dropped c end) <$> clients s).

Definition socket (faulty : bool) (s : state) : list state :=
  [set_pc SBind (set_socket (lowest_free 3 0 [0; 1; 2]%Z) s)] ++
  (if faulty then [set_pc SBind (set_socket (-1) s)] else []).

(** [bind] and [listen], whose results the server ignores; a socket that is not
    bound listens on some other port. *)
Definition bind_ (faulty : bool) (s : state) : list state :=
  let ok := bool_decide (server_sockfd s ≠ -1)%Z in
  [set_pc (SListen ok) s] ++ (if faulty then [set_pc (SListen false) s] else []).
Definition listen (faulty : bool) (bound : bool) (s : state) : list state :=
  [set_pc SInit (set_listening bound s)] ++
  (if faulty then [set_pc SInit (set_listening false s)] else []).

(** [testfds = readfds; result = select(FD_SETSIZE, &testfds, ...)]. *)
Definition select (faulty : bool) (s : state) : list state :=
  let ready := filter (λ fd, readable s fd = true) (readfds s) in
  (if bool_decide (readfds s ⊆ list_to_set (open_fds s)) then
     if bool_decide (ready = ∅) then [] else [set_pc (SScan 0) (set_testfds ready s)]
   else [server_end SExit s]) ++
  (if faulty then [server_end SExit s] else []).

Definition accept (faulty : bool) (fd : Z) (s : state) : list state :=
  match backlog s with
  | i :: b =>
      match clients s !! i with
      | Some c =>
          let client_sockfd := new_fd s in
          [FD_SET client_sockfd (set_pc (SScan (fd + 1)))
             (set_client i (set_conn (Open client_sockfd) c) (set_backlog b s))]
      | None => []
      end
  | [] => []
  end ++
  (if faulty then [FD_SET (-1) (set_pc (SScan (fd + 1))) s] else []).

(** [ioctl(fd, FIONREAD, &nread)]. *)
Definition ioctl (faulty : bool) (fd : Z) (s : state) : list state :=
  match peer s fd with
  | Some (_, c) => [set_pc (SNread fd (Z.of_nat (length (inbound c)))) s]
  | None => [set_pc (SFault Uninitialised) s]
  end ++
  (if faulty then [set_pc (SFault Uninitialised) s] else []).

(** [close(fd)] and [FD_CLR(fd, &readfds)]. *)
Definition close (fd : Z) (s : state) : list state :=
  let s' := set_pc (SScan (fd + 1)) (set_readfds (readfds s ∖ {[fd]}) s) in
  match peer s fd with
  | Some (i, c) => [set_client i (set_conn Dropped c) s']
  | None => [s']
  end.

(** [read(fd, &ch, 1)]: it waits while there is nothing to read, and leaves [ch] as
    it is when the client is gone.  [ch++] follows. *)
Definition read (fd : Z) (s : state) : list state :=
  match peer s fd with
  | Some (i, c) =>
      match inbound c with
      | x :: l => [set_pc (SWrite fd (to_char (x + 1))) (set_client i (set_inbound l c) s)]
      | [] => if gone c then [set_pc (SFault Uninitialised) s] else []
      end
  | None => [set_pc (SFault Uninitialised) s]
  end.

(** [write(fd, &ch, 1)], which may raise SIGPIPE when the client is gone. *)
Definition write (fd x : Z) (s : state) : list state :=
  match peer s fd with
  | Some (i, c) =>
      if gone c then [set_pc (SScan (fd + 1)) s; server_end SKilled s]
      else [set_pc (SScan (fd + 1)) (set_client i (set_outbound (outbound c ++ [x]) c) s)]
  | None => [set_pc (SScan (fd + 1)) s]
  end.

Definition select_server (faulty : bool) (s : state) : list state :=
  match pc s with
  | SSocket => socket faulty s
  | SBind => bind_ faulty s
  | SListen bound => listen faulty bound s
  | SInit => [FD_SET (server_sockfd s) (set_pc SSelect) (set_readfds ∅ s)]
  | SSelect => select faulty s
  | SScan fd =>
      [set_pc (if bool_decide (fd < FD_SETSIZE)%Z then
                 if bool_decide (fd ∈ testfds s) then
                   if bool_decide (fd = server_sockfd s) then SAccept fd else SIoctl fd
                 else SScan (fd + 1)
               else SSelect) s]
  | SAccept fd => accept faulty fd s
  | SIoctl fd => ioctl faulty fd s
  | SNread fd nread => [set_pc (if bool_decide (nread = 0)%Z then SClose fd else SRead fd) s]
  | SClose fd => close fd s
  | SRead fd => read fd s
  | SWrite fd x => write fd x s
  | SExit | SKilled | SFault _ => []
  end.

(** ** Runs *)

Definition client_step (faulty : bool) (i : nat) (s : state) : list state :=
  match clients s !! i with Some c => select_client faulty i c s | None => [] end.

Definition next (faulty : bool) (s : state) : list state :=
  select_server faulty s ++ (seq 0 (length (clients s)) ≫= λ i, client_step faulty i s).

Definition step (faulty : bool) (s s' : state) : Prop := s' ∈ next faulty s.

(** A schedule: which of the possible states follows. *)
Fixpoint run (faulty : bool) (schedule : list nat) (s : state) : option state :=
  match schedule with
  | [] => Some s
  | k :: schedule => s' ← next faulty s !! k; run faulty schedule s'
  end.





(** *** The server's ends of the connections [l] and the backlog [b] *)
Record links_ok (l : list link) (b : list nat) : Prop := {
  links_nodup : NoDup b;
  links_pending i : i ∈ b ↔ l !! i = Some Pending;
  links_inj i j fd : l !! i = Some (Open fd) → l !! j = Some (Open fd) → i = j;
  links_range i fd : l !! i = Some (Open fd) → (4 ≤ fd < FD_SETSIZE)%Z
}.





(** ** The invariant *)

(** What a client has printed, what its [ch] holds and the answer it waits for. *)
Definition expected (p : client_pc) : list Z :=
  match p with
  | KSleep | KWrite2 | KRead2 => [66]
  | KClose | KReturned => [66; 67]
  | _ => []
  end%Z.
Definition held (p : client_pc) : Z :=
  match p with
  | KSleep | KWrite2 | KRead2 => 66
  | KClose | KReturned => 67
  | _ => 65
  end.
Definition owed (p : client_pc) : list Z :=
  match p with KRead1 => [66] | KRead2 => [67] | _ => [] end%Z.

Definition reply (x : Z) : Z := to_char (x + 1).

(** The byte the server is about to write to [l]. *)
Definition in_flight (p : server_pc) (l : link) : list Z :=
  match p, l with
  | SWrite fd x, Open fd' => if bool_decide (fd = fd') then [x] else []
  | _, _ => []
  end.

Definition linked (p : client_pc) (l : link) : Prop :=
  match p with
  | KSocket | KConnect | KExit => l = Unconnected
  | KReturned => l ≠ Unconnected
  | KKilled => False
  | _ => l = Pending ∨ ∃ fd, l = Open fd
  end.

Record client_ok (p : server_pc) (c : client) : Prop := {
  client_printed : printed c = expected (at_ c);
  client_ch : ch c = held (at_ c);
  client_bytes : (reply <$> inbound c) ++ in_flight p (conn c) ++ outbound c = owed (at_ c);
  client_linked : linked (at_ c) (conn c)
}.

(** The client behind [fd] has [P]. *)
Definition at_fd (s : state) (fd : Z) (P : client → Prop) : Prop :=
  ∃ i c, clients s !! i = Some c ∧ conn c = Open fd ∧ P c.

Definition waiting (c : client) : Prop := inbound c ≠ [] ∨ gone c = true.
Definition eof (c : client) : Prop := inbound c = [] ∧ gone c = true.

(** [fd] still has what [select] reported, and so has what the scan has not
    reached yet. *)
Definition wake (s : state) (fd : Z) : Prop :=
  if decide (fd = 3)%Z then backlog s ≠ [] else at_fd s fd waiting.
Definition todo (s : state) (k : Z) : Prop := ∀ f, f ∈ testfds s → (k ≤ f)%Z → wake s f.

(** What the server knows where it is. *)
Definition knows (s : state) : Prop :=
  match pc s with
  | SScan fd => (fd ≤ FD_SETSIZE)%Z ∧ todo s fd
  | SAccept fd => fd = 3%Z ∧ backlog s ≠ [] ∧ todo s 4
  | SIoctl fd => at_fd s fd waiting ∧ todo s (fd + 1)
  | SNread fd n => at_fd s fd (λ c, if decide (n = 0)%Z then eof c else inbound c ≠ []) ∧ todo s (fd + 1)
  | SClose fd => at_fd s fd eof ∧ todo s (fd + 1)
  | SRead fd => at_fd s fd (λ c, inbound c ≠ []) ∧ todo s (fd + 1)
  | SWrite fd x => at_fd s fd (λ _, True) ∧ todo s (fd + 1)
  | _ => True
  end.

(** The set-up, which ignores that a call failed, and the set the server watches after it. *)
Definition stage (s : state) : Prop :=
  match pc s with
  | SSocket => listening s = false
  | SBind | SListen _ => listening s = false ∧ (server_sockfd s = 3 ∨ server_sockfd s = -1)%Z
  | SInit => (server_sockfd s = 3 ∨ server_sockfd s = -1)%Z ∧ ∀ f, Open f ∉ conns s
  | SExit | SKilled | SFault _ => False
  | _ => server_sockfd s = 3%Z ∧ ∀ f, f ∈ readfds s ↔ f = 3%Z ∨ Open f ∈ conns s
  end.




Record ok (s : state) : Prop := {
  ok_count : length (clients s) ≤ 1020;
  ok_clients i c : clients s !! i = Some c → client_ok (pc s) c;
  ok_links : links_ok (conns s) (backlog s);
  ok_quiet l : listening s = false → l ∈ conns s → l = Unconnected;
  ok_stage : stage s;
  ok_knows : knows s
}.















(** *** A step of a client keeps the invariant *)















































(** ** Every run ends *)





























(** ** When nothing is left to do *)











(** ** Runs *)
Module Runs.

Lemma run_nsteps faulty schedule s s' : run faulty schedule s = Some s' → nsteps (step faulty) (length schedule) s s'.
Proof.
  revert s. induction schedule as [|k l IH]; simpl; intros s Hr; [by simplify_eq; constructor|].
  destruct (next faulty s !! k) as [s1|] eqn:Hk; [|done]. apply nsteps_l with s1; [|by apply IH].
  by eapply list_elem_of_lookup_2.
Qed.

Lemma srv_run_rtc faulty schedule s s' : run faulty schedule s = Some s' → rtc (step faulty) s s'.
Proof. intros Hr%run_nsteps. apply rtc_nsteps. by eexists. Qed.

(** Two clients, served one after the other until nothing is left to do. *)
Definition schedule : list nat := replicate (Z.to_nat 8252) 0.






(** A failed [accept] returns [-1], which [FD_SET] takes for a descriptor. *)
Theorem select_server_accept_failure :
  ∃ s, rtc (step true) (start 1) s ∧ pc s = SFault OutOfBounds.
Proof.
  assert (is_Some (run true [0; 0; 0; 0; 1; 1; 0; 0; 0; 0; 0; 1] (start 1))) as [s Hs] by (vm_compute; by eexists).
  exists s. split; [by eapply srv_run_rtc|]. vm_compute in Hs. by injection Hs as <-.
Qed.

(** Neither does a descriptor that is too large for the set fit. *)
Lemma accept_overflow s fd i b c :
  backlog s = i :: b → clients s !! i = Some c → (FD_SETSIZE ≤ new_fd s)%Z →
  pc <$> accept false fd s = [SFault OutOfBounds].
Proof.
  intros Hb Hc Hfd. rewrite /accept Hb Hc /= /FD_SET bool_decide_eq_false_2 //. lia.
Qed.

End Runs.
