(* ===== verification/Mq.v ===== *)
(** * Mq: the threads of ipc/mq.c and the message queue between them

    A step is one call of one thread; threads interleave freely.  The queue, its
    notification and the blocked signal behave as POSIX describes them: a name is a
    link to a queue that lives on after [mq_unlink], a registered process gets its
    signal when a message arrives in an empty queue and is registered no more,
    [sigwait] takes a pending signal or waits for one.  Every message is the same
    text, so that a queue is the number of messages in it.  The sleeps do not order
    anything; a call that makes something may fail. *)
From stdpp Require Import base list numbers relations ssreflect.
From S2P Require Import Prelude Memory.

(** ** The state *)

Definition MQ_MSG_NUM_MAX : nat := 10.

(** A queue, and how many messages went in and out of it. *)
Record mqueue := Mqueue { count : nat; registered : bool; sent : nat; received : nat }.

(** What [TestMqThread] does next; its [set] lives until it returns. *)
Inductive main_pc : Set := MMask | MProductor | MReader | MEnd | MReturned (ret : Z).
(** What [thread_productor] does next, on queue [q]. *)
Inductive productor_pc : Set := PUnlink | POpen | PSend (q : nat) | PClose (q : nat) | PReturned.
(** What [thread_mq_notify] ([N]) or [thread_customer] ([C]) does next. *)
Inductive reader_pc : Set :=
  | NOpen | NCalloc (q : nat) | NNotify (q : nat) | NReceive (q : nat)
  | NWait (q : nat)     (* about to call [sigwait] *)
  | NBlocked (q : nat)  (* in it *)
  | COpen | CReceive (q : nat)
  | RReturned | RFault (f : fault).

(** [mq_name] is the queue that MQ_FILE names, [pending] the signal SIGUSR1. *)
Record state := State {
  main : main_pc;
  productor : option productor_pc;
  reader : option reader_pc;
  queues : list mqueue;
  mq_name : option nat;
  pending : bool
}.

Definition set_main (m : main_pc) (s : state) : state :=
  State m (productor s) (reader s) (queues s) (mq_name s) (pending s).
Definition set_productor (p : productor_pc) (s : state) : state :=
  State (main s) (Some p) (reader s) (queues s) (mq_name s) (pending s).
Definition set_reader (r : reader_pc) (s : state) : state :=
  State (main s) (productor s) (Some r) (queues s) (mq_name s) (pending s).
Definition set_queues (qs : list mqueue) (s : state) : state :=
  State (main s) (productor s) (reader s) qs (mq_name s) (pending s).
Definition set_name (n : option nat) (s : state) : state :=
  State (main s) (productor s) (reader s) (queues s) n (pending s).
Definition set_pending (b : bool) (s : state) : state :=
  State (main s) (productor s) (reader s) (queues s) (mq_name s) b.

(** Nothing runs yet; [stale] is what an earlier run left under the name. *)
Definition start (stale : option nat) : state :=
  match stale with
  | None => State MMask None None [] None false
  | Some n => State MMask None None [Mqueue n false n 0] (Some 0) false
  end.

(** ** The queue *)

(** [mq_open] with O_CREAT, which makes a queue when there is none. *)
Definition mq_create (s : state) : nat * state :=
  match mq_name s with
  | Some q => (q, s)
  | None =>
      let q := length (queues s) in
      (q, set_name (Some q) (set_queues (queues s ++ [Mqueue 0 false 0 0]) s))
  end.

(** [mq_send], non-blocking: a full queue answers EAGAIN. *)
Definition mq_send (q : nat) (s : state) : state :=
  match queues s !! q with
  | Some m =>
      if bool_decide (count m < MQ_MSG_NUM_MAX) then
        let notify := registered m && bool_decide (count m = 0) in
        set_pending (pending s || notify)
          (set_queues (<[q := Mqueue (count m + 1) (registered m && negb notify) (sent m + 1) (received m)]> (queues s)) s)
      else s
  | None => s
  end.

(** [mq_notify]: [None] is EBUSY. *)
Definition mq_notify (q : nat) (s : state) : option state :=
  match queues s !! q with
  | Some m =>
      if registered m then None
      else Some (set_queues (<[q := Mqueue (count m) true (sent m) (received m)]> (queues s)) s)
  | None => None
  end.

(** [mq_receive]: [None] when the queue is empty. *)
Definition mq_receive (q : nat) (s : state) : option state :=
  match queues s !! q with
  | Some (Mqueue (S n) r o i) => Some (set_queues (<[q := Mqueue n r o (i + 1)]> (queues s)) s)
  | _ => None
  end.

(** ** The threads *)

Definition thread_productor (p : productor_pc) (s : state) : list state :=
  match p with
  | PUnlink => [set_productor POpen (set_name None s)]
  | POpen => let (q, s') := mq_create s in [set_productor (PSend q) s'; set_productor PReturned s]
  | PSend q => [mq_send q s; set_productor (PClose q) s]
  | PClose q => [set_productor PReturned s]
  | PReturned => []
  end.

Definition thread_mq_notify (r : reader_pc) (s : state) : list state :=
  match r with
  | NOpen =>
      set_reader RReturned s :: (match mq_name s with Some q => [set_reader (NCalloc q) s] | None => [] end)
  | NCalloc q => [set_reader (NNotify q) s; set_reader RReturned s]
  | NNotify q =>
      match mq_notify q s with
      | Some s' => [set_reader (NReceive q) s']
      | None => [set_reader RReturned s]
      end
  | NReceive q =>
      match mq_receive q s with
      | Some s' => [s']
      | None => [set_reader (NWait q) s]
      end
  | NWait q =>
      (* sigwait(set, &signo) reads [set] when it is called *)
      match main s with
      | MReturned _ => [set_reader (RFault WildAccess) s]
      | _ => [set_reader (NBlocked q) s]
      end
  | NBlocked q => if pending s then [set_reader (NNotify q) (set_pending false s)] else []
  | _ => []
  end.

Definition thread_customer (r : reader_pc) (s : state) : list state :=
  match r with
  | COpen =>
      set_reader RReturned s :: (match mq_name s with Some q => [set_reader (CReceive q) s] | None => [] end)
  | CReceive q => match mq_receive q s with Some s' => [s'] | None => [] end
  | _ => []
  end.

(** [sig_notify] is USE_SIG_NOTIFY. *)
Definition TestMqThread (sig_notify : bool) (s : state) : list state :=
  match main s with
  | MMask => [set_main MProductor s; set_main (MReturned (-1)) s]
  | MProductor => [set_main MReader (set_productor PUnlink s); set_main (MReturned (-1)) s]
  | MReader =>
      [set_main MEnd (set_reader (if sig_notify then NOpen else COpen) s); set_main (MReturned (-1)) s]
  | MEnd => [set_main (MReturned 0) s]
  | MReturned _ => []
  end.

Definition productor_step (s : state) : list state :=
  match productor s with Some p => thread_productor p s | None => [] end.
Definition reader_step (s : state) : list state :=
  match reader s with Some r => thread_mq_notify r s ++ thread_customer r s | None => [] end.

Definition next (sig_notify : bool) (s : state) : list state :=
  TestMqThread sig_notify s ++ productor_step s ++ reader_step s.
Definition step (sig_notify : bool) (s s' : state) : Prop := s' ∈ next sig_notify s.

(** A schedule: which of the possible states follows. *)
Fixpoint run (sig_notify : bool) (schedule : list nat) (s : state) : option state :=
  match schedule with
  | [] => Some s
  | k :: schedule => s' ← next sig_notify s !! k; run sig_notify schedule s'
  end.

(** ** The invariant *)

(** What the reader knows: a queue that is not empty will be, or has been, signalled. *)
Definition knows (s : state) : Prop :=
  match reader s with
  | Some (NCalloc q) | Some (NNotify q) | Some (CReceive q) => is_Some (queues s !! q)
  | Some (NReceive q) => ∃ m, queues s !! q = Some m ∧ (registered m = true ∨ pending s = true)
  | Some (NWait q) | Some (NBlocked q) =>
      ∃ m, queues s !! q = Some m ∧ (registered m = true ∧ count m = 0 ∨ pending s = true)
  | Some (RFault f) => f = WildAccess ∧ ∃ ret, main s = MReturned ret
  | _ => True
  end.

(** A queue loses nothing. *)
Definition balanced (m : mqueue) : Prop := count m ≤ MQ_MSG_NUM_MAX ∧ sent m = received m + count m.

(** Queue [q] is the one whose notification the reader waits for; what becomes of
    it when the reader has gone wrong does not matter. *)
Definition attached (r : option reader_pc) (q : nat) : Prop :=
  match r with Some (NReceive p) | Some (NWait p) | Some (NBlocked p) => p = q | _ => False end.
Definition stopped (r : option reader_pc) : bool := match r with Some (RFault _) => true | _ => false end.

Record ok (s : state) : Prop := {
  ok_queues q m : queues s !! q = Some m → balanced m;
  ok_registered q m : stopped (reader s) = false → queues s !! q = Some m → registered m = true →
    attached (reader s) q ∧ pending s = false;
  ok_pending : stopped (reader s) = false → pending s = true → ∃ q, attached (reader s) q;
  ok_name q : mq_name s = Some q → is_Some (queues s !! q);
  ok_knows : knows s
}.

Lemma mq_start_ok stale : (∀ n, stale = Some n → n ≤ MQ_MSG_NUM_MAX) → ok (start stale).
Proof.
  destruct stale as [n|]; intros Hn; split; try done.
  - intros [|q] m [= <-]. split; simpl; [by apply Hn|lia].
  - by intros [|q] m _ [= <-].
  - intros q [= <-]. by eexists.
Qed.

(** Only the caller's own program counters change. *)
Lemma mq_main_ok s m : ok s → (∀ ret, main s = MReturned ret → m = main s) → ok (set_main m s).
Proof.
  intros [H1 H2 H3 H4 H5] Hm. split; try done. unfold knows in *. simpl. destruct (reader s) as [[]|]; try done.
  destruct H5 as (? & ret & Hr). split; [done|]. exists ret. by rewrite (Hm ret).
Qed.
Lemma productor_ok s p : ok s → ok (set_productor p s).
Proof. by intros [H1 H2 H3 H4 H5]. Qed.

(** The reader goes on, and the signal is pending or not. *)
Lemma reader_ok s r b :
  ok s → stopped (reader s) = false →
  (∀ q, attached (reader s) q → attached (Some r) q ∨ stopped (Some r) = true ∨
    ∀ m, queues s !! q = Some m → registered m = false) →
  (b = true → stopped (Some r) = false → pending s = true ∧ ∃ q, attached (Some r) q) →
  let s' := State (main s) (productor s) (Some r) (queues s) (mq_name s) b in
  knows s' → ok s'.
Proof.
  intros [H1 H2 H3 H4 H5] Hlive Hr Hb s' Hk. split; simpl; try done.
  - intros q m Hst Hq Hm. destruct (H2 q m Hlive Hq Hm) as [Ha Hp]. split.
    + destruct (Hr q Ha) as [|[Hs|Hf]]; [done|by rewrite /= Hst in Hs|]. by rewrite (Hf m Hq) in Hm.
    + destruct b; [|done]. destruct (Hb eq_refl Hst). congruence.
  - intros Hst Hbt. by apply Hb.
Qed.

(** Queue [q] becomes [m'], and the reader goes to [r]. *)
Lemma queue_ok s q m m' r b :
  ok s → queues s !! q = Some m → balanced m' → stopped r = stopped (reader s) →
  (stopped r = false → registered m' = true → attached r q ∧ b = false) →
  (∀ p, attached (reader s) p → attached r p) →
  (b = true → pending s = true ∨ registered m = true) →
  let s' := State (main s) (productor s) r (<[q := m']> (queues s)) (mq_name s) b in
  knows s' → ok s'.
Proof.
  intros [H1 H2 H3 H4 H5] Hq Hm Hst Hr Hatt Hb s' Hk. pose proof (lookup_lt_Some _ _ _ Hq).
  split; simpl; rewrite ?Hst; [| | | |done].
  - intros p n Hn. rewrite list_lookup_insert in Hn. case_decide; simplify_eq; [done|by eapply H1].
  - intros p n Hlive Hn Hreg. rewrite list_lookup_insert in Hn. case_decide as Hp; destruct_and?; simplify_eq.
    { apply Hr; [by rewrite Hst|done]. }
    destruct (H2 p n Hlive Hn Hreg) as [Ha Hf]. split; [by apply Hatt|].
    destruct b; [|done]. destruct (Hb eq_refl) as [|Hreg']; [congruence|].
    destruct (H2 q m Hlive Hq Hreg') as [Ha' _]. exfalso. apply Hp. split; [|done].
    destruct (reader s) as [[]|]; simpl in Ha, Ha'; try done; congruence.
  - intros Hlive Hbt. destruct (Hb Hbt) as [Hp|Hreg].
    + destruct (H3 Hlive Hp) as [p ?]. exists p. by apply Hatt.
    + exists q. by apply Hatt, (H2 q m).
  - intros p Hp. rewrite list_lookup_insert. case_decide; [by eexists|by apply H4].
Qed.

Lemma mq_send_ok s q : ok s → ok (mq_send q s).
Proof.
  intros Hok. rewrite /mq_send. destruct (queues s !! q) as [m|] eqn:Hq; [|done]. case_bool_decide as Hc; [|done].
  pose proof (ok_queues _ Hok q m Hq) as [_ Hsum]. pose proof (ok_knows _ Hok) as Hk.
  pose proof (lookup_lt_Some _ _ _ Hq).
  apply (queue_ok s q m); try done.
  - split; simpl; unfold MQ_MSG_NUM_MAX in *; lia.
  - simpl. intros Hlive [Hr Hn]%andb_true_iff. destruct (ok_registered _ Hok q m Hlive Hq Hr) as [? ->].
    split; [done|]. by apply negb_true_iff in Hn.
  - intros [?|[? _]%andb_true_iff]%orb_true_iff; auto.
  - unfold knows in *. simpl.
    destruct (reader s) as [[| | |p|p|p| | | |]|]; try done; try (rewrite list_lookup_insert; case_decide; [by eexists|done]);
      destruct Hk as (n & Hn & Hk); rewrite list_lookup_insert; case_decide as Hp; destruct_and?; simplify_eq; eexists; (split; [done|]); simpl.
    + destruct Hk as [Hr| ->]; [|by right]. rewrite Hr. destruct (bool_decide _); [right|by left]. by rewrite orb_true_r.
    + destruct Hk as [Hr| ->]; [by left|by right].
    + right. destruct Hk as [[Hr Hz]| ->]; [|done]. by rewrite Hr bool_decide_eq_true_2 // orb_true_r.
    + destruct Hk as [Hr| ->]; [by left|by right].
    + right. destruct Hk as [[Hr Hz]| ->]; [|done]. by rewrite Hr bool_decide_eq_true_2 // orb_true_r.
    + destruct Hk as [Hr| ->]; [by left|by right].
Qed.

(** *** Every step keeps the invariant *)
Lemma mq_create_ok s : ok s → ok (mq_create s).2 ∧ reader (mq_create s).2 = reader s.
Proof.
  intros Hok. rewrite /mq_create. destruct (mq_name s) as [q|] eqn:Hn; [done|]. split; [|done].
  destruct Hok as [H1 H2 H3 H4 H5].
  assert (∀ p m, (queues s ++ [Mqueue 0 false 0 0]) !! p = Some m → queues s !! p = Some m ∨ m = Mqueue 0 false 0 0) as Hl.
  { intros p m [?|[_ Hm]]%lookup_app_Some; [by left|right]. by apply list_lookup_singleton_Some in Hm as [_ <-]. }
  assert (∀ p m, queues s !! p = Some m → (queues s ++ [Mqueue 0 false 0 0]) !! p = Some m) as Hkeep.
  { intros. by apply lookup_app_l_Some. }
  split; simpl; [| |done| |].
  - intros p m [?| ->]%Hl; [by eapply H1|]. split; simpl; [unfold MQ_MSG_NUM_MAX|]; lia.
  - intros p m Hlive [Hp| ->]%Hl; [by apply H2|done].
  - intros p [= <-]. eexists. by apply list_lookup_middle.
  - unfold knows in *. simpl. destruct (reader s) as [[]|]; try done;
      try (destruct H5 as [m Hm]; eexists; by apply Hkeep);
      destruct H5 as (m & Hm & ?); exists m; (split; [by apply Hkeep|done]).
Qed.

Lemma productor_step_ok s s' : ok s → s' ∈ productor_step s → ok s'.
Proof.
  intros Hok. rewrite /productor_step. destruct (productor s) as [p|]; [|by rewrite elem_of_nil].
  destruct p as [| |q|q|]; simpl.
  - rewrite list_elem_of_singleton. intros ->. apply productor_ok. destruct Hok as [H1 H2 H3 H4 H5]. by split.
  - destruct (mq_create_ok s Hok) as [Hc _]. destruct (mq_create s) as [q s1].
    rewrite elem_of_cons list_elem_of_singleton. intros [->| ->]; by apply productor_ok.
  - rewrite elem_of_cons list_elem_of_singleton. intros [->| ->]; [by apply mq_send_ok|by apply productor_ok].
  - rewrite list_elem_of_singleton. intros ->. by apply productor_ok.
  - by rewrite elem_of_nil.
Qed.

(** Receiving is the same for both readers. *)
Lemma mq_receive_ok s q s' :
  ok s → mq_receive q s = Some s' → reader s = Some (NReceive q) ∨ reader s = Some (CReceive q) → ok s'.
Proof.
  intros Hok. rewrite /mq_receive. destruct (queues s !! q) as [[[|n] r o i]|] eqn:Hq; [done| |done].
  intros [= <-] Hr. pose proof (ok_queues _ Hok q _ Hq) as [Hc Hs]. simpl in Hc, Hs. pose proof (lookup_lt_Some _ _ _ Hq).
  apply (queue_ok s q _ (Mqueue n r o (i + 1)) (reader s) (pending s) Hok Hq); [split; simpl; lia|done| |done|by left|].
  - intros Hlive Hreg. by apply (ok_registered _ Hok q _ Hlive Hq).
  - pose proof (ok_knows _ Hok) as Hk. unfold knows in *. simpl. destruct Hr as [Hr|Hr]; rewrite Hr in Hk |- *.
    + destruct Hk as (m & Hm & Hk). simplify_eq. rewrite list_lookup_insert_eq //. by eexists.
    + rewrite list_lookup_insert_eq //.
Qed.

Local Ltac move_tac Hmove := apply Hmove; [done|by intros ? []|try done].

Lemma reader_step_ok s s' : ok s → s' ∈ reader_step s → ok s'.
Proof.
  intros Hok. rewrite /reader_step. destruct (reader s) as [r|] eqn:Hr; [|by rewrite elem_of_nil].
  pose proof (ok_knows _ Hok) as Hk. rewrite /knows Hr in Hk.
  assert (∀ r', stopped (Some r) = false → (∀ q, ¬ attached (Some r) q) →
    knows (set_reader r' s) → ok (set_reader r' s)) as Hmove.
  { intros r' Hlive Hno Hk'. apply (reader_ok s r' (pending s)); rewrite ?Hr //.
    - by intros q ?%Hno.
    - intros Hp. destruct (ok_pending _ Hok) as [q Hq]; rewrite ?Hr //. rewrite Hr in Hq. by apply Hno in Hq. }
  destruct r as [|q|q|q|q|q| |q| |f]; simpl in Hk |- *; rewrite ?right_id_L ?elem_of_app ?elem_of_cons ?elem_of_nil.
  - intros [->|Hs]; [by move_tac Hmove|]. destruct (mq_name s) as [q|] eqn:Hn; [|by apply elem_of_nil in Hs].
    apply list_elem_of_singleton in Hs as ->. move_tac Hmove; by apply (ok_name _ Hok).
  - intros [->|[->|[]]]; by move_tac Hmove.
  - destruct Hk as [m Hm]. rewrite /mq_notify Hm. destruct (registered m) eqn:Hreg; rewrite list_elem_of_singleton; intros ->.
    { by move_tac Hmove. }
    pose proof (lookup_lt_Some _ _ _ Hm). pose proof (ok_queues _ Hok q m Hm) as [Hc Hs].
    apply (queue_ok s q m _ (Some (NReceive q)) (pending s) Hok Hm); try done; rewrite ?Hr //.
    + intros _ _. split; [done|]. apply not_true_is_false. intros Hp.
      destruct (ok_pending _ Hok) as [p Ha]; rewrite ?Hr //. by rewrite Hr in Ha.
    + by left.
    + eexists. simpl. rewrite list_lookup_insert_eq //. split; [done|by left].
  - destruct (mq_receive q s) as [s1|] eqn:Hrec; rewrite list_elem_of_singleton; intros ->.
    { eapply mq_receive_ok; [done|done|by left]. }
    destruct Hk as (m & Hm & Hk). apply (reader_ok s (NWait q) (pending s)); rewrite ?Hr //.
    + intros p ->. by left.
    + intros Hp _. split; [done|]. by exists q.
    + exists m. split; [done|]. destruct Hk as [Hreg|Hp]; [left|by right]. split; [done|].
      rewrite /mq_receive Hm in Hrec. by destruct m as [[] ? ? ?].
  - destruct (main s) as [| | | |ret] eqn:Hmain; rewrite list_elem_of_singleton; intros ->;
      [..|apply (reader_ok s (RFault WildAccess) (pending s));
          rewrite ?Hr //; [by right; left|]; split; [done|by exists ret]].
    all: apply (reader_ok s (NBlocked q) (pending s)); rewrite ?Hr //; [by intros p ->; left|].
    all: intros Hp _; split; [done|by exists q].
  - destruct Hk as (m & Hm & Hk). destruct (pending s) eqn:Hp; [|by rewrite elem_of_nil].
    rewrite list_elem_of_singleton. intros ->.
    apply (reader_ok s (NNotify q) false); rewrite ?Hr //; [|by exists m].
    intros p <-; right; right; intros n Hn; apply not_true_is_false; intros Hreg.
    destruct (ok_registered _ Hok q n) as [_ Hf]; rewrite ?Hr //; congruence.
  - intros [->|Hs]; [by move_tac Hmove|]. destruct (mq_name s) as [q|] eqn:Hn; [|by apply elem_of_nil in Hs].
    apply list_elem_of_singleton in Hs as ->. move_tac Hmove; by apply (ok_name _ Hok).
  - destruct (mq_receive q s) as [s1|] eqn:Hrec; rewrite ?list_elem_of_singleton ?elem_of_nil //. intros ->.
    eapply mq_receive_ok; [done|done|by right].
  - by intros [].
  - by intros [].
Qed.

Lemma main_step_ok sn s s' : ok s → s' ∈ TestMqThread sn s → reader s = None ∨ main s ≠ MReader → ok s'.
Proof.
  intros Hok Hs' Hr. rewrite /TestMqThread in Hs'.
  destruct (main s) as [| | | |ret] eqn:Hm; rewrite ?elem_of_cons ?elem_of_nil in Hs'; destruct_or?; try done; subst;
    (apply mq_main_ok; [try done; try by apply productor_ok|intros ? Hret; simpl in Hret; congruence]).
  apply (reader_ok s _ (pending s)); rewrite ?Hr //.
  - intros Hp. destruct (ok_pending _ Hok) as [q Hq]; rewrite ?Hr //. by rewrite Hr in Hq.
  - by destruct sn.
Qed.

(** The reader is made once. *)
Definition one_reader (s : state) : Prop :=
  match main s with MMask | MProductor | MReader => reader s = None | _ => True end.

Lemma mq_create_pcs s : main (mq_create s).2 = main s ∧ reader (mq_create s).2 = reader s.
Proof. rewrite /mq_create. by destruct (mq_name s). Qed.
Lemma mq_send_pcs q s : main (mq_send q s) = main s ∧ reader (mq_send q s) = reader s.
Proof. rewrite /mq_send. destruct (queues s !! q); [|done]. by case_bool_decide. Qed.

Lemma step_one_reader sn s s' : one_reader s → step sn s s' → one_reader s'.
Proof.
  rewrite /step /next !elem_of_app /one_reader. intros Hr [Hs|[Hs|Hs]].
  - rewrite /TestMqThread in Hs. destruct (main s); rewrite ?elem_of_cons ?elem_of_nil in Hs; destruct_or?; by subst.
  - rewrite /productor_step in Hs. destruct (productor s) as [[| |q|q|]|]; simpl in Hs;
      [| |destruct (mq_send_pcs q s) as [Hm Hc]; rewrite elem_of_cons list_elem_of_singleton in Hs;
           by destruct Hs as [->| ->]; simpl; rewrite ?Hm ?Hc| | |];
      rewrite ?elem_of_cons ?elem_of_nil in Hs; destruct_or?; subst; try done.
    destruct (mq_create_pcs s) as [Hm Hc]. destruct (mq_create s) as [q s1]; simpl in *.
    rewrite elem_of_cons list_elem_of_singleton in Hs. by destruct Hs as [->| ->]; simpl; rewrite ?Hm ?Hc.
  - rewrite /reader_step in Hs. destruct (reader s) as [r|] eqn:Hreader; [|by rewrite elem_of_nil in Hs].
    assert (main s' = main s) as ->; [|by destruct (main s)].
    rewrite elem_of_app in Hs.
    destruct r; simpl in Hs; rewrite /mq_notify /mq_receive in Hs; repeat case_match; destruct_or?;
      rewrite ?elem_of_cons ?elem_of_nil in Hs; destruct_or?; simplify_eq; try done;
      repeat match goal with H : _ ∈ _ |- _ => rewrite ?elem_of_cons ?elem_of_nil in H end; destruct_or?; by subst.
Qed.

Lemma mq_step_ok sn s s' : ok s → one_reader s → step sn s s' → ok s'.
Proof.
  rewrite /step /next !elem_of_app. intros Hok Hone [Hs|[Hs|Hs]].
  - eapply main_step_ok; [done|done|]. rewrite /one_reader in Hone. destruct (main s); auto.
  - by eapply productor_step_ok.
  - by eapply reader_step_ok.
Qed.

Definition reachable (sn : bool) (stale : option nat) (s : state) : Prop := rtc (step sn) (start stale) s.

Lemma mq_reachable_ok sn stale s :
  (∀ n, stale = Some n → n ≤ MQ_MSG_NUM_MAX) → reachable sn stale s → ok s ∧ one_reader s.
Proof.
  intros Hn Hr. assert (ok (start stale) ∧ one_reader (start stale)) as Hok.
  { split; [by apply mq_start_ok|by destruct stale]. }
  revert Hok. induction Hr as [|s1 s2 s3 Hs _ IH]; [done|]. intros [Hok Hone]. apply IH.
  split; [by eapply mq_step_ok|by eapply step_one_reader].
Qed.

(** ** The theorems *)

(** A thread about to register finds nothing registered. *)
Lemma not_registered s q p m :
  ok s → reader s = Some (NNotify p) → queues s !! q = Some m → registered m = false.
Proof.
  intros Hok Hr Hm. apply not_true_is_false. intros Hreg.
  assert (attached (reader s) q) as Ha by (apply (ok_registered _ Hok q m); by rewrite ?Hr). by rewrite Hr in Ha.
Qed.

(** C20. Messages are neither lost nor made up; [thread_mq_notify] never finds its queue
    registered already, and when it waits for the signal its queue is empty and
    registered or the signal is there: no message waits unnoticed.  The only thing
    that goes wrong is the read of [set] after [TestMqThread] returned. *)
Theorem mq_no_lost_message sn stale s :
  (∀ n, stale = Some n → n ≤ MQ_MSG_NUM_MAX) → reachable sn stale s →
  (∀ q m, queues s !! q = Some m → count m ≤ MQ_MSG_NUM_MAX ∧ sent m = received m + count m) ∧
  match reader s with
  | Some (NNotify q) => is_Some (mq_notify q s)
  | Some (NWait q) | Some (NBlocked q) => ∃ m, queues s !! q = Some m ∧
      (0 < count m → pending s = true) ∧ (pending s = false → registered m = true)
  | Some (RFault f) => f = WildAccess ∧ ∃ ret, main s = MReturned ret
  | _ => True
  end.
Proof.
  intros Hn Hr. destruct (mq_reachable_ok sn stale s Hn Hr) as [Hok _]. split; [apply (ok_queues _ Hok)|].
  pose proof (ok_knows _ Hok) as Hk. rewrite /knows in Hk. destruct (reader s) as [[| |q| |q|q| | | |]|] eqn:Hreader; try done.
  - destruct Hk as [m Hm]. rewrite /mq_notify Hm (not_registered s q q m) //.
  - destruct Hk as (m & Hm & Hk). exists m. split; [done|]. destruct Hk as [[Hreg Hz]| ->]; [|done].
    split; [lia|done].
  - destruct Hk as (m & Hm & Hk). exists m. split; [done|]. destruct Hk as [[Hreg Hz]| ->]; [|done].
    split; [lia|done].
Qed.

(** *** The reader by itself *)

Definition reader_steps (k : nat) (s s' : state) : Prop := nsteps (λ s s', s' ∈ reader_step s) k s s'.

Lemma reader_one s s' r : reader s = Some r → s' ∈ thread_mq_notify r s → reader_steps 1 s s'.
Proof. intros Hr Hs. apply nsteps_once. rewrite /reader_step Hr elem_of_app. by left. Qed.

Lemma receive_all n s q r o i :
  reader s = Some (NReceive q) → queues s !! q = Some (Mqueue n r o i) →
  ∃ s', reader_steps n s s' ∧ reader s' = Some (NReceive q) ∧ main s' = main s ∧
    queues s' !! q = Some (Mqueue 0 r o (i + n)).
Proof.
  revert s i. induction n as [|n IH]; intros s i Hr Hq.
  { exists s. rewrite Nat.add_0_r. split; [constructor|done]. }
  pose proof (lookup_lt_Some _ _ _ Hq).
  destruct (IH (set_queues (<[q := Mqueue n r o (i + 1)]> (queues s)) s) (i + 1)) as (s' & Hs' & Hr' & Hm & Hq'); [done| |].
  { by rewrite /= list_lookup_insert_eq. }
  exists s'. split_and!; [|done|done|by rewrite Hq' -Nat.add_assoc].
  eapply (nsteps_trans 1 n); [|exact Hs']. eapply reader_one; [done|]. rewrite /= /mq_receive Hq. by left.
Qed.

Lemma notify_receive s q m :
  ok s → reader s = Some (NNotify q) → queues s !! q = Some m →
  ∃ s', reader_steps 1 s s' ∧ reader s' = Some (NReceive q) ∧ main s' = main s ∧
    queues s' !! q = Some (Mqueue (count m) true (sent m) (received m)).
Proof.
  intros Hok Hr Hm. pose proof (lookup_lt_Some _ _ _ Hm).
  pose proof (not_registered s q q m Hok Hr Hm) as Hreg.
  eexists. split_and!; [eapply reader_one; [done|]; rewrite /= /mq_notify Hm Hreg; by left|done|done|].
  by rewrite /= list_lookup_insert_eq.
Qed.

(** While [set] is there, the thread takes every message of its queue out. *)
Theorem mq_notify_drains sn stale s q m :
  (∀ n, stale = Some n → n ≤ MQ_MSG_NUM_MAX) → reachable sn stale s →
  reader s = Some (NNotify q) ∨ reader s = Some (NReceive q) ∨ reader s = Some (NWait q) ∨ reader s = Some (NBlocked q) →
  (∀ ret, main s ≠ MReturned ret) → queues s !! q = Some m → 0 < count m →
  ∃ k s' r, k ≤ count m + 3 ∧ reader_steps k s s' ∧ reader s' = Some (NReceive q) ∧
    queues s' !! q = Some (Mqueue 0 r (sent m) (received m + count m)).
Proof.
  intros Hn Hreach Hr Hmain Hq Hc. destruct (mq_reachable_ok sn stale s Hn Hreach) as [Hok _].
  assert (∀ s, ok s → reader s = Some (NNotify q) → queues s !! q = Some m →
    ∃ s' r, reader_steps (count m + 1) s s' ∧ reader s' = Some (NReceive q) ∧
      queues s' !! q = Some (Mqueue 0 r (sent m) (received m + count m))) as Hnotify.
  { clear. intros s Hok Hr Hq. destruct (notify_receive s q m Hok Hr Hq) as (s1 & H1 & Hr1 & _ & Hq1).
    destruct (receive_all _ _ _ _ _ _ Hr1 Hq1) as (s2 & H2 & Hr2 & _ & Hq2). exists s2, true.
    split_and!; [|done|done]. rewrite Nat.add_comm. by eapply nsteps_trans. }
  assert (∀ s, ok s → reader s = Some (NBlocked q) → queues s !! q = Some m →
    ∃ s' r, reader_steps (count m + 2) s s' ∧ reader s' = Some (NReceive q) ∧
      queues s' !! q = Some (Mqueue 0 r (sent m) (received m + count m))) as Hblocked.
  { clear -Hnotify Hc. intros s Hok Hr Hq. pose proof (ok_knows _ Hok) as Hk. rewrite /knows Hr in Hk.
    destruct Hk as (m' & Hm' & Hk). simplify_eq.
    assert (pending s = true) as Hp by (destruct Hk as [[_ ?]|]; [lia|done]).
    set (s1 := set_reader (NNotify q) (set_pending false s)).
    assert (s1 ∈ thread_mq_notify (NBlocked q) s) as Hs1 by (simpl; rewrite Hp; by left).
    assert (ok s1) as Hok1.
    { apply (reader_step_ok s s1 Hok). rewrite /reader_step Hr elem_of_app. by left. }
    destruct (Hnotify s1 Hok1 eq_refl Hq) as (s' & r & ? & ? & ?). exists s', r.
    split_and!; [|done..]. replace (count m + 2) with (1 + (count m + 1)) by lia.
    eapply nsteps_trans; [by eapply reader_one|done]. }
  destruct Hr as [Hr|[Hr|[Hr|Hr]]].
  - destruct (Hnotify s Hok Hr Hq) as (s' & r & ? & ? & ?). exists (count m + 1), s', r. split_and!; [lia|done..].
  - destruct (receive_all (count m) s q (registered m) (sent m) (received m) Hr) as (s' & ? & ? & _ & ?); [by destruct m|].
    exists (count m), s', (registered m). split_and!; [lia|done..].
  - set (s1 := set_reader (NBlocked q) s).
    assert (s1 ∈ thread_mq_notify (NWait q) s) as Hs1.
    { simpl. destruct (main s) as [| | | |ret]; try by left. by destruct (Hmain ret). }
    assert (ok s1) as Hok1.
    { apply (reader_step_ok s s1 Hok). rewrite /reader_step Hr elem_of_app. by left. }
    destruct (Hblocked s1 Hok1 eq_refl Hq) as (s' & r & ? & ? & ?). exists (1 + (count m + 2)), s', r.
    split_and!; [lia| |done..]. eapply nsteps_trans; [by eapply reader_one|done].
  - destruct (Hblocked s Hok Hr Hq) as (s' & r & ? & ? & ?). exists (count m + 2), s', r. split_and!; [lia|done..].
Qed.

(** After [TestMqThread] returned, a thread that is not blocked only has to go on to read its dead [set]; one
    that is blocked does when the signal has woken it. *)
Theorem mq_notify_dead_set sn stale s q ret :
  (∀ n, stale = Some n → n ≤ MQ_MSG_NUM_MAX) → reachable sn stale s →
  reader s = Some (NNotify q) ∨ reader s = Some (NReceive q) ∨ reader s = Some (NWait q) →
  main s = MReturned ret →
  ∃ k s', k ≤ MQ_MSG_NUM_MAX + 3 ∧ reader_steps k s s' ∧ reader s' = Some (RFault WildAccess).
Proof.
  intros Hn Hreach Hr Hmain. destruct (mq_reachable_ok sn stale s Hn Hreach) as [Hok Hone].
  assert (∀ s q, reader s = Some (NWait q) → main s = MReturned ret →
    ∃ s', reader_steps 1 s s' ∧ reader s' = Some (RFault WildAccess)) as Hwait.
  { clear. intros s q Hr Hmain. eexists. split; [eapply reader_one; [done|]; rewrite /= Hmain; by left|done]. }
  assert (∀ s m, queues s !! q = Some m → count m ≤ MQ_MSG_NUM_MAX → reader s = Some (NReceive q) → main s = MReturned ret →
    ∃ k s', k ≤ MQ_MSG_NUM_MAX + 2 ∧ reader_steps k s s' ∧ reader s' = Some (RFault WildAccess)) as Hreceive.
  { clear -Hwait. intros s m Hq Hc Hr Hmain.
    destruct (receive_all (count m) s q (registered m) (sent m) (received m) Hr) as (s1 & H1 & Hr1 & Hm1 & Hq1); [by destruct m|].
    destruct (Hwait (set_reader (NWait q) s1) q) as (s2 & H2 & ?); [done|by rewrite /= Hm1|].
    exists (count m + (1 + 1)), s2. split_and!; [lia| |done]. eapply nsteps_trans; [exact H1|]. eapply nsteps_trans; [|exact H2].
    eapply reader_one; [done|]. rewrite /= /mq_receive Hq1. by left. }
  pose proof (ok_knows _ Hok) as Hk. rewrite /knows in Hk.
  destruct Hr as [Hr|[Hr|Hr]]; rewrite Hr in Hk.
  - destruct Hk as [m Hm]. destruct (notify_receive s q m Hok Hr Hm) as (s1 & H1 & Hr1 & Hm1 & Hq1).
    destruct (Hreceive s1 _ Hq1) as (k & s2 & ? & H2 & ?); [by destruct (ok_queues _ Hok q m Hm)|done|by rewrite Hm1|].
    exists (1 + k), s2. split_and!; [lia|by eapply nsteps_trans|done].
  - destruct Hk as (m & Hm & _). destruct (Hreceive s m Hm) as (k & s2 & ? & H2 & ?); [by destruct (ok_queues _ Hok q m Hm)|done..|].
    exists k, s2. split_and!; [lia|done..].
  - destruct (Hwait s q Hr Hmain) as (s1 & H1 & ?). exists 1, s1. split_and!; [lia|done..].
Qed.

(** ** Runs *)
Module Runs.

Lemma mq_run_rtc sn schedule s s' : run sn schedule s = Some s' → rtc (step sn) s s'.
Proof.
  revert s. induction schedule as [|k l IH]; simpl; intros s Hr; [by simplify_eq|].
  destruct (next sn s !! k) as [s1|] eqn:Hk; [|done]. eapply rtc_l; [|by apply IH].
  by eapply list_elem_of_lookup_2.
Qed.

(** Both threads run and one message waits. *)
Definition both : state :=
  default (start None) (run true [0; 0; 0; 1; 1; 1; 4; 3; 3] (start None)).
(** The same after the end of [TestMqThread]. *)
Definition returned : state := default (start None) (run true [0] both).

Lemma both_reachable : reachable true None both.
Proof. apply (mq_run_rtc true [0; 0; 0; 1; 1; 1; 4; 3; 3]). vm_compute. reflexivity. Qed.
Lemma returned_reachable : reachable true None returned.
Proof. eapply rtc_r; [apply both_reachable|]. vm_compute. by left. Qed.

Lemma mq_no_lost_message_witness :
  reachable true None both ∧ ∀ q m, queues both !! q = Some m → sent m = received m + count m.
Proof.
  split; [exact both_reachable|]. intros q m Hq.
  apply (mq_no_lost_message true None both ltac:(discriminate) both_reachable) in Hq as [_ H]. exact H.
Defined.

Lemma mq_notify_drains_witness :
  reader both = Some (NReceive 0) ∧
  ∃ k s' r, k ≤ 4 ∧ reader_steps k both s' ∧ reader s' = Some (NReceive 0) ∧ queues s' !! 0 = Some (Mqueue 0 r 1 1).
Proof.
  split; [reflexivity|].
  apply (mq_notify_drains true None both 0 (Mqueue 1 true 1 0) ltac:(discriminate) both_reachable);
    [right; left; reflexivity|intros ret; discriminate|reflexivity|simpl; lia].
Defined.

Lemma mq_notify_dead_set_witness :
  main returned = MReturned 0 ∧
  ∃ k s', k ≤ MQ_MSG_NUM_MAX + 3 ∧ reader_steps k returned s' ∧ reader s' = Some (RFault WildAccess).
Proof.
  split; [reflexivity|].
  apply (mq_notify_dead_set true None returned 0 0 ltac:(discriminate) returned_reachable);
    [right; left; reflexivity|reflexivity].
Defined.

End Runs.
