(* ===== verification/Debug.v ===== *)
(** * Debug: the texts that comm/debug.c prints, and [hexbyte] of main.c

    A text is a list of characters, without the terminator.  A function that prints
    gives the text it prints; the time, the thread and the address of a buffer are
    arguments of the model, and so is the message that a format makes of its
    arguments.  Part of the file are the few functions of string.h that the
    program calls on arrays. *)
From Stdlib Require Import Ascii String.
From stdpp Require Import base list numbers strings pretty ssreflect.
From S2P Require Import Prelude Memory Outcome.

Definition text : Type := list ascii.
Definition txt (s : String.string) : text := list_ascii_of_string s.
Definition NUL : ascii := Ascii.zero.
Definition newline : ascii := ascii_of_nat 10.

(** ** Arrays of characters *)

(** [strncpy(dst + off, src, n)]: exactly [n] characters are written. *)
Definition strncpy (dst : text) (off : nat) (src : text) (n : Z) : outcome text :=
  if bool_decide (0 ≤ n ∧ Z.of_nat off + n ≤ Z.of_nat (List.length dst))%Z then
    let k := Z.to_nat n in
    Ok (take off dst ++ take k src ++ replicate (k - List.length src) NUL ++ drop (off + k) dst)
  else Err OutOfBounds.

(** The string at [b + off]; its length is [strlen]. *)
Definition cstring (b : text) (off : nat) : outcome text :=
  match list_find (λ c, c = NUL) (drop off b) with
  | Some (n, _) => Ok (take n (drop off b))
  | None => Err OutOfBounds
  end.

(** [snprintf(buf, n, "%s", t)], [buf] having [n] characters. *)
Definition snprintf (n : nat) (t : text) : text := take (n - 1) t.

(** ** [debug_print] *)

Definition MAX_LEN_ONE_DEBUG_PRINT : nat := 1024.
Definition LOG_STR : list text := [txt "ERROR"; txt "WARN"; txt "DEBUG"; txt "INFO"].

(** [enDebugLevel]. *)
Inductive enDebugLevel : Set := EN_ERROR | EN_WARN | EN_DEBUG | EN_INFO.
Definition level_index (l : enDebugLevel) : Z :=
  match l with EN_ERROR => 0 | EN_WARN => 1 | EN_DEBUG => 2 | EN_INFO => 3 end.

(** "%d" and "%ld". *)
Definition dec (z : Z) : text := txt (pretty z).

Definition debug_head (time level tid func line : text) : text :=
  txt "[" ++ time ++ txt "][" ++ level ++ txt "][" ++ tid ++ txt "][" ++ func ++ txt ":" ++ line ++ txt "]".

(** The second [vsnprintf] writes behind the head, into what is left of the buffer. *)
Definition debug_print (time : text) (tid : Z) (level : Z) (func_name : text) (line_number : Z) (msg : text) : outcome text :=
  if bool_decide (0 ≤ level)%Z then
    match LOG_STR !! Z.to_nat level with
    | Some s =>
        let head := snprintf MAX_LEN_ONE_DEBUG_PRINT (debug_head time s (dec tid) func_name (dec line_number)) in
        let debug_head_len := List.length head in
        Ok (head ++ snprintf (MAX_LEN_ONE_DEBUG_PRINT - debug_head_len) msg ++ [newline])
    | None => Err OutOfBounds
    end
  else Err OutOfBounds.

(** ** [dumpBuffer] and [dumpBuffer_char] *)

(** A digit of "%x", and "%02x". *)
Definition hex_digit (n : N) : ascii := ascii_of_N (if bool_decide (n < 10)%N then 48 + n else 87 + n)%N.
Definition hex2 (b : ascii) : text := [hex_digit (N_of_ascii b / 16); hex_digit (N_of_ascii b mod 16)]%N.

Definition fmt_hex (b : ascii) : text := hex2 b ++ txt " ".
Definition fmt_char (b : ascii) : text := [b].

(** The loop from index [i] on, [n] characters before its end. *)
Fixpoint dump_loop (fmt : ascii → text) (buf : text) (n : nat) (i : nat) (count : nat) : outcome text :=
  match n with
  | O => mret []
  | S n =>
      let '(nl, count) := if bool_decide (count = 16) then ([newline], 0) else ([], count) in
      match buf !! i with
      | Some b => out ← dump_loop fmt buf n (i + 1) (count + 1); mret (nl ++ fmt b ++ out)
      | None => Err OutOfBounds
      end
  end.

(** [address] is what "%p" makes of the pointer. *)
Definition dump (fmt : ascii → text) (address : text) (tid : Z) (describe : option text) (buf : option text) (len : Z) : outcome text :=
  let head := [newline] ++ txt "--------dumpBuffer begin----------[" ++ dec tid ++ txt "]" ++ [newline] in
  match buf, bool_decide (0 > len)%Z with
  | Some buf, false =>
      let title :=
        match describe with
        | Some d => d ++ txt ", len:" ++ dec len ++ [newline]
        | None => txt "len:" ++ dec len ++ [newline]
        end in
      body ← dump_loop fmt buf (Z.to_nat len) 0 0;
      mret (head ++ title ++ body ++ [newline] ++ txt "--------dumpBuffer end--------" ++ [newline; newline])
  | _, _ =>
      mret (head ++ txt "dempBuffer, para err. buf:" ++ address ++ txt ", len:" ++ dec len ++ [newline])
  end.

Definition dumpBuffer := dump fmt_hex.
Definition dumpBuffer_char := dump fmt_char.

(** ** [hexbyte] of main.c *)

Definition hextable : text := txt "0123456789abcdef".

(** [out] is the array that the result goes to. *)
Definition hexbyte (out : text) (b : Z) : outcome text :=
  match hextable !! Z.to_nat (Z.shiftr b 4), hextable !! Z.to_nat (Z.land b 15) with
  | Some c0, Some c1 =>
      if bool_decide (2 ≤ List.length out) then Ok (<[1 := c1]> (<[0 := c0]> out)) else Err OutOfBounds
  | _, _ => Err OutOfBounds
  end.

(** ** Lemmas on arrays of characters *)
Lemma cstring_spec b off s rest :
  drop off b = s ++ NUL :: rest → NUL ∉ s → cstring b off = Ok s.
Proof.
  intros Hb Hs. rewrite /cstring Hb.
  assert (list_find (λ c, c = NUL) (s ++ NUL :: rest) = Some (length s, NUL)) as ->; [|by rewrite take_app_length].
  apply list_find_Some. split_and!; [by rewrite list_lookup_middle|done|].
  intros j c Hc Hj ->. apply Hs. rewrite lookup_app_l // in Hc. by eapply list_elem_of_lookup_2.
Qed.

Lemma cstring_unterminated b off : NUL ∉ drop off b → cstring b off = Err OutOfBounds.
Proof.
  intros Hb. rewrite /cstring. destruct (list_find _ _) as [[n c]|] eqn:Hf; [|done].
  apply list_find_Some in Hf as (Hc & -> & _). by apply list_elem_of_lookup_2 in Hc.
Qed.

Lemma cstring_length b off s : cstring b off = Ok s → ∃ rest, drop off b = s ++ NUL :: rest ∧ NUL ∉ s.
Proof.
  rewrite /cstring. destruct (list_find _ _) as [[n c]|] eqn:Hf; [|done]. intros [= <-].
  apply list_find_Some in Hf as (Hc & -> & Hlt). exists (drop (S n) (drop off b)).
  split; [by rewrite take_drop_middle|]. intros Hin. apply elem_of_take in Hin as (j & Hj & Hn). by eapply Hlt.
Qed.

(** A copy that does not fit. *)
Lemma strncpy_overflow dst off src n :
  (Z.of_nat (length dst) < Z.of_nat off + n)%Z → strncpy dst off src n = Err OutOfBounds.
Proof. intros Hn. rewrite /strncpy bool_decide_eq_false_2 //. lia. Qed.

(** ** The theorems *)

(** A line of the log is the head and the message, cut to the buffer; the array of
    level names is never left. *)
Theorem debug_print_line time tid l func_name line_number msg :
  ∃ level, LOG_STR !! Z.to_nat (level_index l) = Some level ∧
  debug_print time tid (level_index l) func_name line_number msg =
    Ok (take 1023 (debug_head time level (dec tid) func_name (dec line_number) ++ msg) ++ [newline]).
Proof.
  assert (is_Some (LOG_STR !! Z.to_nat (level_index l))) as [level Hl] by (destruct l; by eexists).
  exists level. split; [done|]. rewrite /debug_print Hl bool_decide_eq_true_2; [|by destruct l].
  generalize (debug_head time level (dec tid) func_name (dec line_number)). intros h.
  rewrite /snprintf /MAX_LEN_ONE_DEBUG_PRINT. f_equal. rewrite assoc_L. f_equal.
  rewrite take_app length_take. do 2 f_equal. lia.
Qed.

(** What a dump of [l] looks like: a new line before every sixteenth byte. *)
Definition layout (fmt : ascii → text) (l : text) : text :=
  concat (imap (λ i b, (if bool_decide (0 < i ∧ i mod 16 = 0) then [newline] else []) ++ fmt b) l).

Lemma dump_loop_layout fmt buf n i count l :
  take n (drop i buf) = l → length l = n → i mod 16 = count mod 16 → count ≤ 16 → (count = 0 ↔ i = 0) →
  dump_loop fmt buf n i count =
    Ok (concat (imap (λ j b, (if bool_decide (0 < i + j ∧ (i + j) mod 16 = 0) then [newline] else []) ++ fmt b) l)).
Proof.
  revert i count l. induction n as [|n IH]; intros i count l Hl Hn Hmod Hc Hz; [by destruct l|].
  destruct l as [|b l]; [done|]. injection Hn as Hn. simpl.
  assert (buf !! i = Some b ∧ take n (drop (i + 1) buf) = l) as [Hb Htl].
  { destruct (drop i buf) as [|c t] eqn:Hd; [done|]. simpl in Hl. injection Hl as -> Hl. split.
    - rewrite -(Nat.add_0_r i) -lookup_drop Hd. done.
    - by rewrite -drop_drop Hd. }
  assert ((0 < i + 0 ∧ (i + 0) mod 16 = 0) ↔ count = 16) as Hnl.
  { rewrite Nat.add_0_r Hmod. split.
    - intros [Hi Hm]. destruct (decide (count = 16)); [done|]. rewrite Nat.mod_small in Hm; [|lia].
      apply Hz in Hm. lia.
    - intros ->. split; [|done]. destruct (decide (i = 0)) as [Hi|]; [|lia]. by apply Hz in Hi. }
  rewrite (bool_decide_ext _ _ Hnl).
  assert (∀ c, c < 16 → c mod 16 = i mod 16 → dump_loop fmt buf n (i + 1) (c + 1) =
    Ok (concat (imap (λ j b, (if bool_decide (0 < i + S j ∧ (i + S j) mod 16 = 0) then [newline] else []) ++ fmt b) l))) as Hrec.
  { intros c Hc16 Hcm. rewrite (IH (i + 1) (c + 1) l) //; [|by rewrite (Nat.Div0.add_mod i 1) (Nat.Div0.add_mod c 1) Hcm|lia|lia].
    do 2 f_equal. apply imap_ext. intros j x _. by rewrite -Nat.add_assoc. }
  case_bool_decide as H16.
  - rewrite Hb (Hrec 0) //; [lia|by rewrite Hmod H16].
  - rewrite Hb Hrec //; lia.
Qed.

Lemma dump_loop_spec fmt buf n :
  n ≤ length buf → dump_loop fmt buf n 0 0 = Ok (layout fmt (take n buf)).
Proof. intros Hn. apply dump_loop_layout; rewrite ?drop_0 ?length_take //; lia. Qed.

Lemma dump_loop_overrun fmt buf n i count :
  i ≤ length buf → length buf < i + n → dump_loop fmt buf n i count = Err OutOfBounds.
Proof.
  revert i count. induction n as [|n IH]; intros i count Hi Hn; [lia|]. simpl.
  destruct (buf !! i) as [b|] eqn:Hb; destruct (bool_decide _); rewrite Hb //;
    (apply lookup_lt_Some in Hb; rewrite IH //; lia).
Qed.

(** A dump of [len] bytes of a buffer that has them, and what is printed for one that
    cannot be dumped; [len] is not checked against the buffer. *)
Theorem dumpBuffer_text address tid describe buf len :
  dumpBuffer address tid describe buf len =
    let begin := txt "
--------dumpBuffer begin----------[" ++ dec tid ++ txt "]
" in
    let error := Ok (begin ++ txt "dempBuffer, para err. buf:" ++ address ++ txt ", len:" ++ dec len ++ [newline]) in
    match buf with
    | None => error
    | Some b =>
        if bool_decide (len < 0)%Z then error
        else if bool_decide (len ≤ Z.of_nat (length b))%Z then
          Ok (begin ++ match describe with Some d => d ++ txt ", " | None => [] end ++ txt "len:" ++ dec len ++ [newline] ++
              layout fmt_hex (take (Z.to_nat len) b) ++ txt "
--------dumpBuffer end--------

")
        else Err OutOfBounds
    end.
Proof.
  rewrite /dumpBuffer /dump. destruct buf as [b|]; [|by rewrite -!assoc_L].
  rewrite (bool_decide_ext (0 > len)%Z (len < 0)%Z); [|lia]. case_bool_decide as Hneg; [by rewrite -!assoc_L|].
  case_bool_decide as Hle.
  - rewrite dump_loop_spec; [|lia]. rewrite /mbind /mret /= /outcome_bind /outcome_ret.
    destruct describe; rewrite -!assoc_L; simpl; rewrite -?assoc_L; reflexivity.
  - rewrite dump_loop_overrun; [done|lia|lia].
Qed.

(** *** Reading a dump back *)

Definition digit_value (c : ascii) : option N :=
  let n := N_of_ascii c in
  if bool_decide (48 ≤ n ≤ 57)%N then Some (n - 48)%N
  else if bool_decide (97 ≤ n ≤ 102)%N then Some (n - 87)%N else None.

(** Two digits and a space are a byte; new lines do not matter. *)
Fixpoint undump (fuel : nat) (t : text) : option text :=
  match fuel, t with
  | _, [] => Some []
  | S fuel, c :: t' =>
      if bool_decide (c = newline) then undump fuel t'
      else match t' with
           | d :: _ :: t'' =>
               h ← digit_value c; l ← digit_value d; r ← undump fuel t'';
               Some (ascii_of_N (16 * h + l) :: r)
           | _ => None
           end
  | O, _ => None
  end.

Lemma hex2_digits b :
  ∃ c d h l, hex2 b = [c; d] ∧ c ≠ newline ∧ digit_value c = Some h ∧ digit_value d = Some l ∧
    ascii_of_N (16 * h + l) = b.
Proof.
  destruct b as [[] [] [] [] [] [] [] []];
    (do 4 eexists; split; [reflexivity|split; [done|split; [reflexivity|split; [reflexivity|reflexivity]]]]).
Qed.

Lemma undump_more fuel t r fuel' : undump fuel t = Some r → fuel ≤ fuel' → undump fuel' t = Some r.
Proof.
  revert t r fuel'. induction fuel as [|fuel IH]; intros t r [|fuel'] Hu Hle; destruct t as [|c t]; try done; try lia.
  simpl in *. case_bool_decide; [apply IH; [done|lia]|]. destruct t as [|d [|e t]]; try done.
  destruct (digit_value c); [|done]. destruct (digit_value d); [|done]. simpl in *.
  destruct (undump fuel t) as [r'|] eqn:Ht; [|done]. by rewrite (IH t r' fuel' Ht ltac:(lia)).
Qed.

Lemma undump_byte fuel b t :
  undump (S fuel) (fmt_hex b ++ t) = r ← undump fuel t; Some (b :: r).
Proof.
  destruct (hex2_digits b) as (c & d & h & l & Hhex & Hnl & Hc & Hd & Hb).
  rewrite /fmt_hex Hhex /= bool_decide_eq_false_2 // Hc Hd /=. by rewrite Hb.
Qed.

Lemma undump_newline fuel t : undump (S fuel) (newline :: t) = undump fuel t.
Proof. done. Qed.

(** A dump shows every byte of the buffer: it can be read back. *)
Theorem dumpBuffer_roundtrip buf n :
  n ≤ length buf →
  ∃ body, dump_loop fmt_hex buf n 0 0 = Ok body ∧ undump (2 * n) body = Some (take n buf).
Proof.
  intros Hn. eexists. split; [by apply dump_loop_spec|]. rewrite /layout.
  assert (∀ (f : nat → text) (l : text), (∀ i, f i = [] ∨ f i = [newline]) →
    undump (2 * length l) (concat (imap (λ i b, f i ++ fmt_hex b) l)) = Some l) as Hall.
  { intros f l. revert f. induction l as [|b l IH]; intros f Hf; [done|].
    assert (undump (2 * length l) (concat (imap (λ i b, f (S i) ++ fmt_hex b) l)) = Some l) as Hl by by apply (IH (λ i, f (S i))).
    replace (2 * length (b :: l)) with (S (S (2 * length l))) by (simpl; lia).
    assert (concat (imap (λ i b, f i ++ fmt_hex b) (b :: l)) =
      f 0 ++ fmt_hex b ++ concat (imap (λ i b, f (S i) ++ fmt_hex b) l)) as -> by by rewrite imap_cons /= -assoc_L.
    destruct (Hf 0) as [->| ->].
    - rewrite [[] ++ _]/= undump_byte (undump_more (2 * length l) _ l _ Hl) //. lia.
    - change (undump (S (S (2 * length l))) (newline :: (fmt_hex b ++ concat (imap (λ i b, f (S i) ++ fmt_hex b) l))) = Some (b :: l)).
      rewrite undump_newline undump_byte Hl //. }
  rewrite -{1}(length_take_le buf n Hn). apply Hall. intros i. case_bool_decide; auto.
Qed.

(** *** [hexbyte] is "%02x" *)
Lemma hextable_digit n : (n < 16)%N → hextable !! N.to_nat n = Some (hex_digit n).
Proof.
  intros Hn. assert (Forall (λ n, hextable !! n = Some (hex_digit (N.of_nat n))) (seq 0 16)) as Hall.
  { vm_compute. repeat constructor. }
  rewrite Forall_lookup in Hall. rewrite (Hall (N.to_nat n) (N.to_nat n)); [by rewrite N2Nat.id|].
  apply lookup_seq. lia.
Qed.

(** The two digits of a byte, and nothing else, are written. *)
Theorem hexbyte_correct out b :
  (0 ≤ b < 256)%Z → 2 ≤ length out →
  hexbyte out b = Ok (hex2 (ascii_of_N (Z.to_N b)) ++ drop 2 out).
Proof.
  intros Hb Hout. destruct out as [|c0 [|c1 out]]; simpl in Hout; try lia.
  assert (∃ n, b = Z.of_N n) as [n ->] by (exists (Z.to_N b); lia). rewrite N2Z.id.
  rewrite /hexbyte /hex2 N_ascii_embedding; [|lia].
  assert (Z.to_nat (Z.shiftr (Z.of_N n) 4) = N.to_nat (n / 16)) as ->.
  { rewrite Z.shiftr_div_pow2 // -(N2Z.inj_div n 16) -Z_N_nat N2Z.id //. }
  assert (Z.to_nat (Z.land (Z.of_N n) 15) = N.to_nat (n mod 16)) as ->.
  { change 15%Z with (Z.ones 4). rewrite Z.land_ones // -(N2Z.inj_mod n 16) -Z_N_nat N2Z.id //. }
  rewrite !hextable_digit ?bool_decide_eq_true_2 //; simpl; try lia.
  - apply N.mod_lt. lia.
  - apply N.Div0.div_lt_upper_bound. lia.
Qed.

(** ** Runs *)
Module Runs.

Lemma hexbyte_correct_witness :
  (0 ≤ 165 < 256)%Z ∧ hexbyte (txt "..") 165 = Ok (txt "a5").
Proof. split; [lia|]. exact (hexbyte_correct (txt "..") 165 ltac:(lia) ltac:(vm_compute; lia)). Defined.

Lemma dumpBuffer_roundtrip_witness :
  ∃ body, dump_loop fmt_hex (txt "verification base") 17 0 0 = Ok body ∧
    undump 34 body = Some (txt "verification base").
Proof. exact (dumpBuffer_roundtrip (txt "verification base") 17 ltac:(vm_compute; lia)). Defined.

(** The seventeenth byte starts a new line. *)
Lemma dump_two_lines :
  dump_loop fmt_hex (txt "0123456789abcdef!") 17 0 0 =
    Ok (txt "30 31 32 33 34 35 36 37 38 39 61 62 63 64 65 66 
21 ").
Proof. reflexivity. Qed.

End Runs.
