(* ===== verification/Backtrace.v ===== *)
(** * Backtrace: the arguments that backtrace.c keeps and the commands it runs

    [g_backtrace_var.argv] is one array of ten rows of 128 characters; a string is
    read up to its terminator wherever in the array that is.  What [backtrace] and
    [backtrace_symbols] find is an argument of the model. *)
From Stdlib Require Import Ascii String.
From stdpp Require Import base list numbers strings pretty ssreflect.
From S2P Require Import Prelude Memory Outcome Debug.

(** ** The arguments *)

Definition ROWS : nat := 10.
Definition WIDTH : nat := 128.

(** [g_backtrace_var.argv] after the [memset]. *)
Definition cleared : text := replicate (ROWS * WIDTH) NUL.

(** [argv[i]], which is a null pointer from [argc] on. *)
Fixpoint init_loop (n : nat) (i : nat) (argv : list text) (g : text) : outcome text :=
  match n with
  | O => mret g
  | S n =>
      match argv !! i with
      | Some a =>
          g ← (if bool_decide (i < ROWS) then strncpy g (i * WIDTH) a (Z.of_nat WIDTH) else Err OutOfBounds);
          init_loop n (i + 1) argv g
      | None => Err NullDeref
      end
  end.
Definition backtrace_init_argv (argc : Z) (argv : list text) : outcome text :=
  init_loop (Z.to_nat argc) 0 argv cleared.

(** ** The trace *)

(** What [print_trace] and [backtrace_init] do besides. *)
Inductive event : Set :=
  | Signal (signum : Z) (handler : option unit)   (* [None] is SIG_DFL, [Some] is [print_trace] *)
  | Stderr (t : list ascii)
  | System (cmd : list ascii).

(** [strchr(s, c)]. *)
Fixpoint strchr (s : text) (c : ascii) : option text :=
  match s with
  | [] => None
  | d :: s' => if bool_decide (d = c) then Some s else strchr s' c
  end.

Definition open_bracket : ascii := "["%char.

(** [p_str] of [print_addr2line] is a string, or null. *)
Definition print_addr2line (g : text) (p_str : option text) : outcome (list event) :=
  match p_str with
  | None => Err AssertFailed
  | Some p_str =>
      match strchr p_str open_bracket with
      | None => mret []
      | Some p =>
          (* size_t *)
          addr_buf ← strncpy (replicate (2 + 64 + 1) NUL) 0 (drop 1 p) (u64 (Z.of_nat (length p) - 2));
          name0 ← cstring g 0;
          name ← strncpy (replicate 128 NUL) 0 name0 (Z.of_nat (length name0));
          name_str ← cstring name 0;
          addr ← cstring addr_buf 0;
          let cmd := txt "addr2line -e " ++ name_str ++ txt " -i " ++ addr in
          if bool_decide (length cmd < 1024) then mret [System cmd] else Err OutOfBounds
      end
  end.

(** [funs[i]]; [backtrace_symbols] answers null when it has no memory for its lines. *)
Definition funs_at (funs : option (list text)) (i : nat) : outcome text :=
  match funs with
  | None => Err NullDeref
  | Some lines => match lines !! i with Some f => Ok f | None => Err OutOfBounds end
  end.

(** The loop from [i], with [n] rounds before [i] is [size]. *)
Fixpoint print_funs (g : text) (n i : nat) (funs : option (list text)) : outcome (list event) :=
  match n with
  | O => mret []
  | S n =>
      f ← funs_at funs i;
      es ← print_addr2line g (Some f);
      rest ← print_funs g n (i + 1) funs;
      mret (Stderr (dec (Z.of_nat i) ++ txt " " ++ f ++ txt " " ++ [newline]) :: es ++ rest)
  end.

(** [size] is what [backtrace] answers, [funs] what [backtrace_symbols] does. *)
Definition print_trace (g : text) (size : nat) (funs : option (list text)) (signum : Z) : outcome (list event) :=
  let head := [Signal signum None; Stderr (txt "System error, Stack trace:" ++ [newline])] in
  es ← print_funs g size 0 funs;
  mret (head ++ es).

(** The signals of [backtrace_init]: SIGSEGV, SIGABRT, SIGBUS, SIGFPE, SIGSTKFLT, SIGXFSZ, SIGSYS. *)
Definition caught : list Z := [11; 6; 7; 8; 16; 25; 31]%Z.
Definition backtrace_init (argc : Z) (argv : list text) : outcome (text * list event) :=
  g ← backtrace_init_argv argc argv;
  mret (g, (λ n, Signal n (Some tt)) <$> caught).

(** [Fun1], which [print_trace_test] calls through [Fun], stores through a null pointer. *)
Definition Fun1 : outcome unit := Err NullDeref.
Definition Fun : outcome unit := Fun1.
Definition print_trace_test : list event * outcome unit :=
  ([Signal 11 (Some tt); Signal 6 (Some tt)], Fun).

(** ** The theorems *)

(** A row: the argument, cut or filled up. *)
Definition row (a : text) : text := take WIDTH a ++ replicate (WIDTH - length a) NUL.
Definition rows (argv : list text) : text :=
  concat (row <$> argv) ++ replicate ((ROWS - length argv) * WIDTH) NUL.

Lemma length_row a : length (row a) = WIDTH.
Proof. rewrite /row length_app length_take length_replicate. lia. Qed.

Lemma length_concat_rows argv : length (concat (row <$> argv)) = length argv * WIDTH.
Proof. induction argv as [|a argv IH]; [done|]. rewrite fmap_cons /= length_app IH length_row. done. Qed.

Lemma init_row argv a :
  length argv < ROWS →
  strncpy (rows argv) (length argv * WIDTH) a (Z.of_nat WIDTH) = Ok (rows (argv ++ [a])).
Proof.
  intros Hlt. pose proof (length_concat_rows argv) as Hlen.
  assert ((ROWS - length argv) * WIDTH = WIDTH + (ROWS - S (length argv)) * WIDTH) as Hrest by (unfold WIDTH, ROWS in *; lia).
  rewrite /strncpy bool_decide_eq_true_2.
  2: { rewrite /rows length_app Hlen length_replicate. unfold WIDTH, ROWS in *. lia. }
  rewrite Nat2Z.id /rows. f_equal. rewrite -Hlen take_app_length -drop_drop drop_app_length.
  rewrite fmap_app concat_app /= app_nil_r length_app /= Nat.add_1_r Hrest replicate_add drop_app_length'; [|by rewrite length_replicate].
  by rewrite -?assoc_L /row -?assoc_L.
Qed.

Lemma init_loop_rows n argv rest :
  length argv + n ≤ ROWS → n = length rest →
  init_loop n (length argv) (argv ++ rest) (rows argv) = Ok (rows (argv ++ rest)).
Proof.
  revert argv rest. induction n as [|n IH]; intros argv rest Hle Hn; destruct rest as [|a rest]; try done.
  - by rewrite app_nil_r.
  - injection Hn as Hn. simpl. rewrite list_lookup_middle // bool_decide_eq_true_2; [|lia].
    rewrite init_row; [|lia]. rewrite /mbind /outcome_bind.
    specialize (IH (argv ++ [a]) rest). rewrite length_app -!app_assoc /= in IH. apply IH; [lia|done].
Qed.

(** Up to ten arguments are kept, each cut to the width of a row and followed by
    zeros when there is room. *)
Lemma backtrace_init_argv_rows argv :
  length argv ≤ ROWS →
  backtrace_init_argv (Z.of_nat (length argv)) argv = Ok (rows argv).
Proof. intros Hle. rewrite /backtrace_init_argv Nat2Z.id. by apply (init_loop_rows (length argv) []). Qed.

(** An eleventh argument is written behind the array. *)
Theorem backtrace_init_argv_overflow argv :
  ROWS < length argv → backtrace_init_argv (Z.of_nat (length argv)) argv = Err OutOfBounds.
Proof.
  intros Hlt. rewrite /backtrace_init_argv Nat2Z.id.
  assert (∀ n done rest, length done ≤ ROWS → ROWS < length done + n → n = length rest →
    init_loop n (length done) (done ++ rest) (rows done) = Err OutOfBounds) as Hloop;
    [|by apply (Hloop (length argv) [] argv); unfold ROWS in *; simpl; lia].
  clear. induction n as [|n IH]; intros dn rest Hle Hlt Hn; [lia|]. destruct rest as [|a rest]; [done|].
  injection Hn as Hn. simpl. rewrite list_lookup_middle //. case_bool_decide as Hi; [|done].
  rewrite init_row; [|lia]. rewrite /mbind /outcome_bind.
  specialize (IH (dn ++ [a]) rest). rewrite length_app -!app_assoc /= in IH. apply IH; [lia|lia|done].
Qed.

Lemma strchr_spec pre c s : c ∉ pre → strchr (pre ++ c :: s) c = Some (c :: s).
Proof.
  induction pre as [|d pre IH]; simpl; intros Hpre.
  - by rewrite bool_decide_eq_true_2.
  - apply not_elem_of_cons in Hpre as [Hd Hpre]. rewrite bool_decide_eq_false_2; [by apply IH|congruence].
Qed.

Lemma strchr_none s c : c ∉ s → strchr s c = None.
Proof.
  induction s as [|d s IH]; [done|]. simpl. intros [Hd Hs]%not_elem_of_cons.
  rewrite bool_decide_eq_false_2; [by apply IH|congruence].
Qed.

(** The program's name, as the trace reads it. *)
Lemma name_rows a argv : NUL ∉ a → length a < WIDTH → cstring (rows (a :: argv)) 0 = Ok a.
Proof.
  intros Ha Hlen. rewrite /rows fmap_cons /= /row take_ge; [|lia].
  destruct (WIDTH - length a) as [|k] eqn:Hk; [lia|]. rewrite -!assoc_L.
  by eapply cstring_spec.
Qed.

(** A copy into a cleared buffer, and the string it leaves there. *)
Lemma strncpy_clear n src k :
  k ≤ length src → k ≤ n →
  strncpy (replicate n NUL) 0 src (Z.of_nat k) = Ok (take k src ++ replicate (n - k) NUL).
Proof.
  intros Hk Hn. rewrite /strncpy bool_decide_eq_true_2; [|rewrite length_replicate; lia].
  rewrite Nat2Z.id take_0 /= drop_replicate. replace (k - length src) with 0 by lia. done.
Qed.

Lemma cleared_string s n : NUL ∉ s → length s < n → cstring (s ++ replicate (n - length s) NUL) 0 = Ok s.
Proof.
  intros Hs Hn. destruct (n - length s) as [|k] eqn:Hk; [lia|]. by eapply cstring_spec.
Qed.

(** A frame [pre[addr]]: the command that is run for it. *)
Definition command (name addr : text) : text := txt "addr2line -e " ++ name ++ txt " -i " ++ addr.

(** The address between the brackets is looked up in the program that was started,
    when both fit into the buffers. *)
Lemma print_addr2line_command name argv pre addr last :
  NUL ∉ name → length name < WIDTH → open_bracket ∉ pre → NUL ∉ addr → length addr < 67 →
  print_addr2line (rows (name :: argv)) (Some (pre ++ open_bracket :: addr ++ [last])) =
    Ok [System (command name addr)].
Proof.
  intros Hname Hnlen Hpre Haddr Halen. rewrite /print_addr2line strchr_spec //.
  assert (u64 (Z.of_nat (length (open_bracket :: addr ++ [last])) - 2) = Z.of_nat (length addr)) as ->.
  { rewrite /= length_app /=. rewrite u64_id; unfold ULONG_MOD; lia. }
  rewrite strncpy_clear; [|rewrite /= length_app; lia|lia]. rewrite [drop 1 _]/= take_app_length.
  rewrite {1}/mbind {1}/outcome_bind name_rows // {1}/mbind {1}/outcome_bind.
  rewrite strncpy_clear; [|done|unfold WIDTH in *; lia]. rewrite take_ge; [|done].
  rewrite {1}/mbind {1}/outcome_bind !cleared_string //.
  rewrite {1}/mbind {1}/outcome_bind {1}/mbind {1}/outcome_bind.
  rewrite bool_decide_eq_true_2 //. rewrite !length_app /=. unfold WIDTH in *. lia.
Qed.

(** A program started by a name of 128 characters or more has no readable name left:
    every frame with an address overruns a buffer. *)
Theorem print_addr2line_long_name name argv p_str :
  NUL ∉ take WIDTH name → WIDTH ≤ length name → open_bracket ∈ p_str →
  print_addr2line (rows (name :: argv)) (Some p_str) = Err OutOfBounds.
Proof.
  intros Hname Hlen Hin. rewrite /print_addr2line.
  destruct (strchr p_str open_bracket) as [p|] eqn:Hp.
  2: { exfalso. revert Hp. induction Hin as [|c d s Hin IH]; simpl; [by rewrite bool_decide_eq_true_2|].
       by case_bool_decide. }
  rewrite {1}/mbind {1}/outcome_bind. destruct (strncpy _ 0 (drop 1 p) _) as [addr_buf|f] eqn:Ha.
  2: { revert Ha. rewrite /strncpy. by case_bool_decide; intros [= <-]. }
  rewrite {1}/mbind {1}/outcome_bind. destruct (cstring (rows (name :: argv)) 0) as [s|f] eqn:Hs.
  2: { revert Hs. rewrite /cstring. destruct (list_find _ _) as [[]|]; [done|by intros [= <-]]. }
  destruct (cstring_length _ _ _ Hs) as (rest & Hrows & HsN).
  assert (WIDTH ≤ length s) as Hle.
  { destruct (decide (WIDTH ≤ length s)); [done|]. exfalso. apply Hname.
    assert (∃ l, rows (name :: argv) = take WIDTH name ++ l) as [l Hl].
    { eexists. by rewrite /rows fmap_cons /= {1}/row -!assoc_L. }
    rewrite Hl drop_0 in Hrows.
    assert ((take WIDTH name ++ l) !! length s = Some NUL) as HN by (rewrite Hrows; by apply list_lookup_middle).
    rewrite lookup_app_l in HN; [|rewrite length_take; lia]. by eapply list_elem_of_lookup_2. }
  destruct (decide (length s = WIDTH)) as [Heq|Hne].
  - rewrite strncpy_clear; [|done|unfold WIDTH in *; lia]. rewrite take_ge; [|done].
    rewrite Heq Nat.sub_diag app_nil_r {1}/mbind {1}/outcome_bind (cstring_unterminated s); [done|by rewrite drop_0].
  - by rewrite strncpy_overflow; [|rewrite length_replicate; unfold WIDTH in *; lia].
Qed.

(** A line that ends in a bracket asks for [(size_t)-1] characters. *)
Theorem print_addr2line_bare_bracket g pre :
  open_bracket ∉ pre → print_addr2line g (Some (pre ++ [open_bracket])) = Err OutOfBounds.
Proof.
  intros Hpre. rewrite /print_addr2line strchr_spec // strncpy_overflow //.
Qed.

(** *** A whole trace *)

(** A line of [backtrace_symbols]: with the address in brackets, or without one. *)
Inductive frame : Type :=
  | Located (pre addr : text) (last : ascii)
  | Plain (line : text).
Definition line (f : frame) : text :=
  match f with Located pre addr last => pre ++ open_bracket :: addr ++ [last] | Plain l => l end.
Definition frame_ok (f : frame) : Prop :=
  match f with
  | Located pre addr last => open_bracket ∉ pre ∧ NUL ∉ addr ∧ length addr < 67
  | Plain l => open_bracket ∉ l
  end.
Definition frame_events (name : text) (i : Z) (f : frame) : list event :=
  Stderr (dec i ++ txt " " ++ line f ++ txt " " ++ [newline]) ::
  match f with Located _ addr _ => [System (command name addr)] | Plain _ => [] end.

(** The rounds from line [i] on print the lines up to [i + n], when there are so many. *)
Lemma print_funs_lines name argv frames n i :
  NUL ∉ name → length name < WIDTH → Forall frame_ok frames → i ≤ length frames →
  print_funs (rows (name :: argv)) n i (Some (line <$> frames)) =
    (if decide (i + n ≤ length frames)
     then Ok (concat (imap (λ k f, frame_events name (Z.of_nat (i + k)) f) (take n (drop i frames))))
     else Err OutOfBounds).
Proof.
  intros Hname Hlen Hall. revert i. induction n as [|n IH]; intros i Hi; [by rewrite decide_True; [|lia]|].
  cbn [print_funs funs_at]. rewrite list_lookup_fmap. destruct (frames !! i) as [f|] eqn:Hf.
  2: { apply lookup_ge_None in Hf. rewrite decide_False; [done|lia]. }
  rewrite (drop_S _ _ _ Hf). pose proof (lookup_lt_Some _ _ _ Hf) as Hlt.
  change (match line <$> Some f with Some f => Ok f | None => Err OutOfBounds end) with (Ok (line f)). rewrite {1}/mbind {1}/outcome_bind.
  assert (print_addr2line (rows (name :: argv)) (Some (line f)) =
    Ok (match f with Located _ addr _ => [System (command name addr)] | Plain _ => [] end)) as Hp.
  { pose proof (Forall_lookup_1 _ _ _ _ Hall Hf) as Hok. destruct f as [pre addr last|l]; simpl in Hok.
    - destruct Hok as (? & ? & ?). by apply print_addr2line_command.
    - by rewrite /print_addr2line strchr_none. }
  rewrite [print_addr2line _ _]Hp {1}/mbind {1}/outcome_bind IH; [|lia]. rewrite Nat.add_1_r. destruct (decide (S i + n ≤ length frames)) as [Hle|Hle].
  - rewrite decide_True; [|lia]. rewrite {1}/mbind {1}/outcome_bind imap_cons Nat.add_0_r.
    rewrite (imap_ext (_ ∘ S) (λ k f, frame_events name (Z.of_nat (S i + k)) f)); [done|].
    intros k x _. simpl. by rewrite Nat.add_succ_r.
  - rewrite decide_False; [done|lia].
Qed.

(** C31. After the program kept its arguments, up to ten with a name of fewer than 128 characters, and for lines whose
    address, if they have one, has fewer than 67 characters and one character behind it: a trace of [size] lines is the first
    [size] lines, numbered, each followed by the look-up of its address; and it reads behind the array when there are fewer. *)
Theorem print_trace_correct name argv size frames signum :
  NUL ∉ name → length name < WIDTH → length argv < ROWS → Forall frame_ok frames →
  (g ← backtrace_init_argv (Z.of_nat (S (length argv))) (name :: argv);
   print_trace g size (Some (line <$> frames)) signum) =
  (if decide (size ≤ length frames)
   then Ok (Signal signum None :: Stderr (txt "System error, Stack trace:" ++ [newline]) ::
            concat (imap (λ i f, frame_events name (Z.of_nat i) f) (take size frames)))
   else Err OutOfBounds).
Proof.
  intros Hname Hlen Hargc Hall.
  rewrite (backtrace_init_argv_rows (name :: argv)); [|exact Hargc]. rewrite {1}/mbind {1}/outcome_bind /print_trace.
  rewrite print_funs_lines //; [|lia]. simpl. by case_decide.
Qed.

(** ** Runs *)
Module Runs.

(** The frame of the example in the source's header. *)
Definition prog : text := txt "./BackTraceTest".
Definition fun1 : frame := Located (txt "./BackTraceTest(Fun1+0x10) ") (txt "0x400a10") "]"%char.

Lemma print_trace_correct_witness :
  Forall frame_ok [fun1] ∧
  (g ← backtrace_init_argv 1 [prog]; print_trace g 1 (Some (line <$> [fun1])) 11) =
  Ok [Signal 11 None;
      Stderr (txt "System error, Stack trace:
");
      Stderr (txt "0 ./BackTraceTest(Fun1+0x10) [0x400a10] 
");
      System (txt "addr2line -e ./BackTraceTest -i 0x400a10")].
Proof.
  assert (Forall frame_ok [fun1]) as Hf.
  { constructor; [|constructor]. split; [|split]; [apply (bool_decide_unpack _)|apply (bool_decide_unpack _)|vm_compute; lia]; vm_compute; exact I. }
  split; [exact Hf|].
  refine (eq_trans (print_trace_correct prog [] 1 [fun1] 11 _ _ _ Hf) _);
    [apply (bool_decide_unpack _); vm_compute; exact I|vm_compute; lia|vm_compute; lia|vm_compute; reflexivity].
Defined.

(** Eleven arguments. *)
Lemma backtrace_init_argv_overflow_witness :
  backtrace_init_argv 11 (replicate 11 (txt "a")) = Err OutOfBounds.
Proof. exact (backtrace_init_argv_overflow (replicate 11 (txt "a")) ltac:(vm_compute; lia)). Defined.

(** A program with a name of 128 characters. *)
Lemma print_addr2line_long_name_witness :
  print_addr2line (rows [replicate 128 "a"%char]) (Some (line fun1)) = Err OutOfBounds.
Proof.
  apply (print_addr2line_long_name (replicate 128 "a"%char) [] (line fun1));
    [|vm_compute; lia|]; apply (bool_decide_unpack _); vm_compute; exact I.
Defined.

End Runs.
