(* ===== verification/Jump.v ===== *)
(** * Jump: the non-local jump of co_routines/setjmp.c, and the calls of main

    A machine with a program counter for [setjmp_test]: [setjmp] saves where it
    returns to, [longjmp] goes there with a value.  The function never returns, it ends the
    program; [main] (src/main.c) calls it second, so the demos behind it do not run. *)
From stdpp Require Import base list numbers ssreflect.
From S2P Require Import Prelude.

(** ** [setjmp_test] *)

Inductive jump_pc := at_setjmp | after_setjmp | at_test | at_exit | at_longjmp | at_last_line | at_return.
#[export] Instance jump_pc_eq_dec : EqDecision jump_pc.
Proof. solve_decision. Defined.

Inductive jump_line := line_i (i : Z) | line_not_printed.

(** The saved environment, the variable [i] and what was printed. *)
Record jump_state := { jpc : jump_pc; env : option jump_pc; i : Z; printed : list jump_line }.

Inductive jump_end := returned | exited (status : Z) | bad_jump.

(** [longjmp] with the value 0 makes [setjmp] return 1. *)
Definition longjmp (s : jump_state) (val : Z) : jump_state + jump_end :=
  match env s with
  | Some target => inl {| jpc := target; env := env s; i := if (val =? 0)%Z then 1%Z else val; printed := printed s |}
  | None => inr bad_jump
  end.

Definition jump_step (s : jump_state) : jump_state + jump_end :=
  let goto pc out := inl {| jpc := pc; env := env s; i := i s; printed := printed s ++ out |} in
  match jpc s with
  | at_setjmp => inl {| jpc := after_setjmp; env := Some after_setjmp; i := 0; printed := printed s |}
  | after_setjmp => goto at_test [line_i (i s)]
  | at_test => if negb (i s =? 0)%Z then goto at_exit [] else goto at_longjmp []
  | at_exit => inr (exited 0)
  | at_longjmp => longjmp s 2
  | at_last_line => goto at_return [line_not_printed]
  | at_return => inr returned
  end.

(** [None] when [fuel] steps are not enough. *)
Fixpoint jump_run (fuel : nat) (s : jump_state) : option (list jump_line * jump_end) :=
  match fuel with
  | O => None
  | S fuel =>
      match jump_step s with
      | inl s => jump_run fuel s
      | inr e => Some (printed s, e)
      end
  end.

(** Nothing is known of [env] and [i] at the start. *)
Definition setjmp_test (i : Z) : jump_state := {| jpc := at_setjmp; env := None; i := i; printed := [] |}.

(** The line behind the jump is not reached. *)
Definition jump_invariant (s : jump_state) : Prop :=
  jpc s ≠ at_last_line ∧ jpc s ≠ at_return ∧ line_not_printed ∉ printed s ∧
  (jpc s = at_setjmp ∨ env s = Some after_setjmp).

Lemma jump_step_invariant s s' : jump_invariant s → jump_step s = inl s' → jump_invariant s'.
Proof.
  destruct s as [pc e j out]. intros (H1 & H2 & H3 & H4). unfold jump_invariant in *. cbn in *.
  destruct pc; cbn; try done; intros Hs.
  - by injection Hs as <-; split_and!; [..|right].
  - injection Hs as <-. destruct H4 as [|H4]; [done|]. cbn. split_and!; [done|done| |by right]. set_solver.
  - destruct H4 as [|H4]; [done|]. destruct (negb (j =? 0)%Z); injection Hs as <-; cbn; rewrite app_nil_r; by split_and!; [..|right].
  - destruct H4 as [|H4]; [done|]. unfold longjmp in Hs. cbn in Hs. rewrite H4 in Hs. injection Hs as <-. cbn. by split_and!; [..|right].
Qed.

(** ** [main] *)

Inductive main_call := call_backtrace_init | call_event_fd_test | call_setjmp_test | call_pthread_cond_demo | call_print_trace_test.

Definition main_calls : list main_call :=
  [call_backtrace_init; call_event_fd_test; call_setjmp_test; call_pthread_cond_demo; call_print_trace_test].

(** The calls in order; a call that ends the program is the last one. *)
Fixpoint run_calls (ends : main_call → option Z) (calls : list main_call) : list main_call * option Z :=
  match calls with
  | [] => ([], None)
  | c :: calls =>
      match ends c with
      | Some status => ([c], Some status)
      | None => let '(done, r) := run_calls ends calls in (c :: done, r)
      end
  end.

(** Which status a call ends the program with: [setjmp_test] by its run, the others by [others]. *)
Definition call_ends (i : Z) (others : main_call → option Z) (c : main_call) : option Z :=
  match c with
  | call_setjmp_test =>
      match jump_run 8 (setjmp_test i) with Some (_, exited status) => Some status | _ => None end
  | _ => others c
  end.

(** ** What runs *)

(** The function prints the two values that [setjmp] returns and ends the program. *)
Lemma setjmp_test_exits fuel j :
  8 ≤ fuel → jump_run fuel (setjmp_test j) = Some ([line_i 0; line_i 2], exited 0).
Proof. intros Hf. by do 8 (destruct fuel as [|fuel]; [lia|]). Qed.

(** The condition demo and the stack trace do not run, unless an earlier call ends the program first. *)
Lemma main_stops j others :
  others call_backtrace_init = None → others call_event_fd_test = None →
  run_calls (call_ends j others) main_calls =
    ([call_backtrace_init; call_event_fd_test; call_setjmp_test], Some 0%Z).
Proof. intros H1 H2. by rewrite /= H1 H2. Qed.
