(* ===== verification/Digits.v ===== *)
(** * Digits: numbers as sequences of machine words

    The arithmetic of numbers in base 2^64 that the components on multi-word
    integers share: the [i]-th digit, what a prefix and a suffix of the digits
    are, and the assertions [holds] and [upd] that relate an array to a number. *)
From stdpp Require Import base list numbers ssreflect.
From S2P Require Import Prelude Memory Outcome.

(** ** Powers of the base and digits *)

(** The next index of a loop. *)
Lemma to_nat_S i : (0 ≤ i)%Z → Z.to_nat (i + 1) = S (Z.to_nat i).
Proof. lia. Qed.

Definition pw (i : nat) : Z := (ULONG_MOD ^ Z.of_nat i)%Z.
Definition dig (x : Z) (i : nat) : Z := ((x / pw i) mod ULONG_MOD)%Z.
Definition word (w : Z) : Prop := (0 ≤ w < ULONG_MOD)%Z.

Lemma pw_0 : pw 0 = 1%Z.
Proof. done. Qed.
Lemma pw_1 : pw 1 = ULONG_MOD.
Proof. done. Qed.
Lemma pw_pos i : (0 < pw i)%Z.
Proof. apply Z.pow_pos_nonneg; [done|lia]. Qed.
Lemma pw_S i : pw (S i) = (pw i * ULONG_MOD)%Z.
Proof. rewrite /pw Nat2Z.inj_succ Z.pow_succ_r; lia. Qed.
Lemma pw_add i j : pw (i + j) = (pw i * pw j)%Z.
Proof. rewrite /pw Nat2Z.inj_add Z.pow_add_r; lia. Qed.
Lemma pw_le i j : i ≤ j → (pw i ≤ pw j)%Z.
Proof. intros. apply Z.pow_le_mono_r; [done|lia]. Qed.
Lemma pw_2 i : pw i = (2 ^ (64 * Z.of_nat i))%Z.
Proof. rewrite /pw. change ULONG_MOD with (2 ^ 64)%Z. rewrite -Z.pow_mul_r //; lia. Qed.
#[export] Hint Resolve pw_pos : core.

Lemma word_0 : word 0.
Proof. done. Qed.
Lemma word_u64 z : word (u64 z).
Proof. by apply Z.mod_pos_bound. Qed.
Lemma word_dig x i : word (dig x i).
Proof. by apply Z.mod_pos_bound. Qed.
#[export] Hint Resolve word_0 word_u64 word_dig : core.

(** Bits of words and digits. *)
Lemma word_mod w : word w ↔ w = (w mod ULONG_MOD)%Z.
Proof.
  split; intros H; [by rewrite Z.mod_small|]. rewrite H. by apply Z.mod_pos_bound.
Qed.

Lemma word_testbit w k : word w → (64 ≤ k)%Z → Z.testbit w k = false.
Proof.
  intros Hw Hk. rewrite -(Z.mod_small w ULONG_MOD) //.
  change ULONG_MOD with (2 ^ 64)%Z. apply Z.mod_pow2_bits_high. lia.
Qed.

Lemma dig_testbit x i k :
  (0 ≤ k)%Z → Z.testbit (dig x i) k = (k <? 64)%Z && Z.testbit x (k + 64 * Z.of_nat i).
Proof.
  intros Hk. rewrite /dig pw_2 -Z.shiftr_div_pow2; [|lia]. change ULONG_MOD with (2 ^ 64)%Z.
  destruct (Z.ltb_spec k 64).
  - rewrite Z.mod_pow2_bits_low // Z.shiftr_spec //.
  - rewrite Z.mod_pow2_bits_high //.
Qed.

Lemma testbit_dig x k :
  (0 ≤ k)%Z → Z.testbit x k = Z.testbit (dig x (Z.to_nat (k / 64))) (k mod 64).
Proof.
  intros Hk. pose proof (Z.mod_pos_bound k 64 eq_refl). pose proof (Z.div_pos k 64 Hk eq_refl).
  rewrite dig_testbit; [|lia]. rewrite (proj2 (Z.ltb_lt _ _)); [|lia]. simpl.
  f_equal. rewrite Z2Nat.id //. pose proof (Z.div_mod k 64). lia.
Qed.

(** A word is glued to bits that lie above it. *)
Lemma lor_add_high a b k : (0 ≤ k)%Z → (0 ≤ a < 2 ^ k)%Z → Z.lor a (Z.shiftl b k) = (a + b * 2 ^ k)%Z.
Proof.
  intros Hk Ha. rewrite Z.shiftl_mul_pow2 //.
  assert (Z.land a (b * 2 ^ k) = 0)%Z as Hl.
  { apply Z.bits_inj'. intros j Hj. rewrite Z.land_spec Z.bits_0.
    destruct (Z.lt_ge_cases j k).
    - rewrite -Z.shiftl_mul_pow2 // Z.shiftl_spec_low //. by rewrite andb_false_r.
    - rewrite -(Z.mod_small a (2 ^ k)) // Z.mod_pow2_bits_high //. }
  rewrite -Z.lxor_lor // -Z.add_nocarry_lxor //.
Qed.

Lemma mod_mix s t P : (0 < P)%Z → (0 ≤ s < P)%Z → ((s + P * t) mod (P * ULONG_MOD) = s + P * (t mod ULONG_MOD))%Z.
Proof.
  intros HP Hs. pose proof (Z.mod_pos_bound t ULONG_MOD eq_refl) as Ht.
  pose proof (Z.div_mod t ULONG_MOD ltac:(done)) as Hd.
  symmetry. apply Z.mod_unique with (q := (t / ULONG_MOD)%Z); [left; nia|].
  rewrite {1}Hd. ring.
Qed.

Lemma div_mix s t P : (0 < P)%Z → (0 ≤ s < P)%Z → ((s + P * t) / (P * ULONG_MOD) = t / ULONG_MOD)%Z.
Proof.
  intros HP Hs. rewrite -Z.div_div //; [|lia].
  by rewrite Z.mul_comm Z.div_add ?(Z.div_small s) ?Z.add_0_l //; lia.
Qed.

Lemma mod_pw_S x i : (x mod pw (S i) = x mod pw i + pw i * dig x i)%Z.
Proof.
  pose proof (pw_pos i) as Hi. rewrite pw_S {1}(Z.div_mod x (pw i)); [|lia].
  rewrite Z.add_comm. apply mod_mix; [done|]. by apply Z.mod_pos_bound.
Qed.

Lemma dig_mod x i j : j < i → dig (x mod pw i) j = dig x j.
Proof.
  intros Hij. apply Z.bits_inj'. intros k Hk. rewrite !dig_testbit //.
  destruct (Z.ltb_spec k 64); [|done]. simpl. rewrite pw_2 Z.mod_pow2_bits_low //. lia.
Qed.

Lemma dig_div x i j : dig (x / pw i) j = dig x (i + j).
Proof.
  apply Z.bits_inj'. intros k Hk. rewrite !dig_testbit //.
  destruct (Z.ltb_spec k 64); [|done]. simpl.
  rewrite pw_2 -Z.shiftr_div_pow2; [|lia]. rewrite Z.shiftr_spec; [|lia]. f_equal. lia.
Qed.

Lemma dig_0 i : dig 0 i = 0%Z.
Proof. by rewrite /dig Zdiv.Zdiv_0_l. Qed.

Lemma dig_small x i : (0 ≤ x < pw i)%Z → dig x i = 0%Z.
Proof. intros. by rewrite /dig Z.div_small. Qed.

Lemma dig_large x i j : (0 ≤ x < pw i)%Z → i ≤ j → dig x j = 0%Z.
Proof. intros Hx Hij. apply dig_small. pose proof (pw_le i j Hij). lia. Qed.

Lemma dig_glue_low z d i j : j < i → dig (z + pw i * d) j = dig z j.
Proof.
  intros Hij. rewrite -(dig_mod (z + _) i j) // -(dig_mod z i j) //.
  by rewrite Z.mul_comm Z.mod_add; [|pose proof (pw_pos i); lia].
Qed.

Lemma dig_glue_high z d i j : (0 ≤ z < pw i)%Z → dig (z + pw i * d) (i + j) = dig d j.
Proof.
  intros Hz. rewrite -dig_div. f_equal.
  by rewrite Z.mul_comm Z.div_add ?(Z.div_small z) //; lia.
Qed.

Lemma dig_word d : word d → dig d 0 = d.
Proof. intros. by rewrite /dig pw_0 Z.div_1_r Z.mod_small. Qed.

Lemma glue_bound z d i j : (0 ≤ z < pw i)%Z → (0 ≤ d < pw j)%Z → (0 ≤ z + pw i * d < pw (i + j))%Z.
Proof.
  intros Hz Hd. rewrite pw_add.
  assert (pw i * (d + 1) ≤ pw i * pw j)%Z; [apply Z.mul_le_mono_nonneg_l|]; nia.
Qed.

Lemma div_pw_bound x i j : (0 ≤ x < pw (i + j))%Z → (0 ≤ x / pw i < pw j)%Z.
Proof.
  intros Hx. pose proof (pw_pos i). rewrite pw_add in Hx. split; [apply Z.div_pos; lia|].
  apply Z.div_lt_upper_bound; lia.
Qed.

Lemma mod_pw_bound x i : (0 ≤ x mod pw i < pw i)%Z.
Proof. by apply Z.mod_pos_bound. Qed.
#[export] Hint Resolve mod_pw_bound : core.

(** Two numbers with the same digits are equal. *)
Lemma dig_inj n x y : (0 ≤ x < pw n)%Z → (0 ≤ y < pw n)%Z → (∀ i, i < n → dig x i = dig y i) → x = y.
Proof.
  intros Hx Hy Hd. rewrite -(Z.mod_small x (pw n)) // -(Z.mod_small y (pw n)) //. clear Hx Hy.
  induction n as [|n IH]; [by rewrite !Z.mod_1_r|].
  rewrite !mod_pw_S Hd; [|lia]. rewrite IH //. intros. apply Hd. lia.
Qed.

(** ** Arrays that hold a number *)

Definition holds (n : nat) (a : array Z) (x : Z) : Prop :=
  (0 ≤ x < pw n)%Z ∧ ∀ i, i < n → a !! i = Some (Some (dig x i)).

Definition upd (n : nat) (a : array Z) (x : Z) (b : array Z) : Prop :=
  holds n b x ∧ length b = length a ∧ drop n b = drop n a.

(** The array with these words. *)
Definition vli_of (n : nat) (x : Z) : array Z := (λ i, Some (dig x i)) <$> seq 0 n.

Lemma holds_range n a x : holds n a x → (0 ≤ x < pw n)%Z.
Proof. by intros []. Qed.

Lemma holds_length n a x : holds n a x → n ≤ length a.
Proof.
  intros [_ H]. destruct n as [|n]; [lia|].
  assert (is_Some (a !! n)) as ?%lookup_lt_is_Some; [|lia]. rewrite H; [eauto|lia].
Qed.

Lemma holds_lookup n a x i : holds n a x → i < n → a !! i = Some (Some (dig x i)).
Proof. intros [_ H]. apply H. Qed.

Lemma holds_inj n a x y : holds n a x → holds n a y → x = y.
Proof.
  intros [Hx Hxa] [Hy Hya]. apply (dig_inj n); [done|done|].
  intros i Hi. specialize (Hxa i Hi). specialize (Hya i Hi). congruence.
Qed.

Lemma holds_0 a : holds 0 a 0.
Proof. split; [done|lia]. Qed.

Lemma holds_0_inv a x : holds 0 a x → x = 0%Z.
Proof. intros [H _]. rewrite pw_0 in H. lia. Qed.

Lemma holds_vli_of n x : (0 ≤ x < pw n)%Z → holds n (vli_of n x) x.
Proof.
  intros Hx. split; [done|]. intros i Hi. rewrite /vli_of list_lookup_fmap lookup_seq_lt //.
Qed.

Lemma holds_take n m a x : holds n a x → m ≤ n → holds m a (x mod pw m).
Proof.
  intros [_ H] Hm. split; [done|]. intros i Hi. rewrite dig_mod //. apply H. lia.
Qed.

Lemma holds_split m n a x : holds (m + n) a x → holds m a (x mod pw m) ∧ holds n (drop m a) (x / pw m).
Proof.
  intros H. split; [eapply holds_take; [done|lia]|]. destruct H as [Hx H].
  split; [by apply div_pw_bound|]. intros i Hi. rewrite lookup_drop dig_div. apply H. lia.
Qed.

Lemma holds_glue m n a x y :
  holds m a x → holds n (drop m a) y → holds (m + n) a (x + pw m * y).
Proof.
  intros [Hx Ha] [Hy Hd]. split; [by apply glue_bound|]. intros i Hi.
  destruct (decide (i < m)).
  - rewrite dig_glue_low //. by apply Ha.
  - replace i with (m + (i - m)) by lia. rewrite dig_glue_high // -lookup_drop. apply Hd. lia.
Qed.

Lemma holds_take_l n k a x : n ≤ k → holds n (take k a) x ↔ holds n a x.
Proof.
  intros Hk. assert (∀ i, i < n → take k a !! i = a !! i) as Heq.
  { intros i Hi. apply lookup_take_lt. lia. }
  split; intros [Hx H]; (split; [done|]); intros i Hi; [rewrite -Heq //|rewrite Heq //]; by apply H.
Qed.

Lemma holds_app_l n a b x : holds n a x → holds n (a ++ b) x.
Proof. intros [Hx H]. split; [done|]. intros i Hi. apply lookup_app_l_Some. by apply H. Qed.

Lemma holds_ext n a b x : holds n a x → (∀ i, i < n → b !! i = a !! i) → holds n b x.
Proof. intros [Hx H] Hab. split; [done|]. intros i Hi. rewrite Hab //. by apply H. Qed.

Lemma upd_0 a : upd 0 a 0 a.
Proof. split; [apply holds_0|done]. Qed.

Lemma upd_holds n a x b : upd n a x b → holds n b x.
Proof. by intros []. Qed.
Lemma upd_length n a x b : upd n a x b → length b = length a.
Proof. by intros (_ & ? & _). Qed.
Lemma upd_drop n a x b m : upd n a x b → n ≤ m → drop m b = drop m a.
Proof.
  intros (_ & _ & H) Hm. replace m with (n + (m - n)) by lia. by rewrite -!drop_drop H.
Qed.
Lemma upd_lookup n a x b i : upd n a x b → n ≤ i → b !! i = a !! i.
Proof.
  intros H Hi. pose proof (upd_drop _ _ _ _ i H Hi) as Hd.
  by rewrite -(Nat.add_0_r i) -!lookup_drop Hd.
Qed.

Lemma upd_trans n a x b y c : upd n a x b → upd n b y c → upd n a y c.
Proof. intros (_ & Hl & Hd) (Hc & Hl' & Hd'). split_and!; [done|congruence|congruence]. Qed.

(** The lowest word of a number that is zero. *)
Lemma holds_low_word n a w : 0 < n → holds n a 0 → word w → holds n (<[0 := Some w]> a) w.
Proof.
  intros Hn Ha [Hw0 Hw]. pose proof (holds_length _ _ _ Ha). split.
  - split; [done|]. pose proof (pw_le 1 n Hn). rewrite pw_1 in H0. lia.
  - intros i Hi. destruct i as [|i].
    + rewrite list_lookup_insert_eq; [|lia]. by rewrite dig_word.
    + rewrite list_lookup_insert_ne // (holds_lookup _ _ _ _ Ha Hi) dig_0.
      by rewrite (dig_large w 1); [|by rewrite pw_1|lia].
Qed.

(** One more word is stored behind the first [i]. *)
Lemma upd_step i a z b d :
  upd i a z b → i < length a → word d → upd (S i) a (z + pw i * d) (<[i:=Some d]> b).
Proof.
  intros (Hz & Hl & Hd) Hi Hw. split_and!.
  - rewrite -Nat.add_1_r. apply holds_glue.
    + eapply holds_ext; [exact Hz|]. intros j Hj. by rewrite list_lookup_insert_ne; [|lia].
    + split; [by rewrite pw_1|]. intros j Hj. assert (j = 0) as -> by lia.
      rewrite lookup_drop Nat.add_0_r dig_word // list_lookup_insert_eq //. lia.
  - by rewrite length_insert.
  - rewrite drop_insert_lt; [|lia]. replace (S i) with (i + 1) by lia. by rewrite -!drop_drop Hd.
Qed.

(** A suffix is updated. *)
Lemma upd_at_offset k n a x b :
  k ≤ length a → upd n (drop k a) x b →
  holds n (drop k (take k a ++ b)) x ∧ length (take k a ++ b) = length a ∧
  take k (take k a ++ b) = take k a ∧ drop (k + n) (take k a ++ b) = drop (k + n) a.
Proof.
  intros Hk (Hb & Hl & Hd). rewrite length_drop in Hl.
  assert (length (take k a) = k) as Hkl by (rewrite length_take; lia).
  split_and!.
  - by rewrite drop_app_length'.
  - rewrite length_app Hkl Hl. lia.
  - by rewrite take_app_length'.
  - by rewrite -drop_drop drop_app_length' // Hd drop_drop.
Qed.

(** ** Finite sums *)

Fixpoint csum (f : nat → Z) (n : nat) : Z :=
  match n with O => 0 | S n => csum f n + f n end%Z.

Lemma csum_ext f g n : (∀ i, i < n → f i = g i) → csum f n = csum g n.
Proof.
  induction n as [|n IH]; intros H; [done|]. simpl. rewrite H; [|lia]. rewrite IH //.
  intros. apply H. lia.
Qed.

Lemma csum_0 f n : (∀ i, i < n → f i = 0%Z) → csum f n = 0%Z.
Proof.
  induction n as [|n IH]; intros H; [done|]. simpl. rewrite H; [|lia]. rewrite IH //.
  intros. apply H. lia.
Qed.

Lemma csum_split f m n : csum f (m + n) = (csum f m + csum (λ i, f (m + i)%nat) n)%Z.
Proof.
  induction n as [|n IH]; [rewrite Nat.add_0_r /=; lia|].
  rewrite Nat.add_succ_r /= IH. lia.
Qed.

Lemma csum_add f g n : csum (λ i, f i + g i)%Z n = (csum f n + csum g n)%Z.
Proof. induction n; simpl; lia. Qed.

Lemma csum_mul c f n : csum (λ i, c * f i)%Z n = (c * csum f n)%Z.
Proof. induction n; simpl; lia. Qed.

Lemma csum_bounds b (f : nat → Z) (n : nat) : (∀ i, i < n → (0 ≤ f i ≤ b)%Z) → (0 ≤ csum f n ≤ Z.of_nat n * b)%Z.
Proof.
  induction n as [|n IH]; intros H; simpl; [lia|].
  pose proof (H n ltac:(lia)). specialize (IH ltac:(intros; apply H; lia)). lia.
Qed.

Lemma csum_digits x n : csum (λ i, pw i * dig x i)%Z n = (x mod pw n)%Z.
Proof. induction n as [|n IH]; [by rewrite Z.mod_1_r|]. by rewrite /= IH mod_pw_S. Qed.
