(* ===== verification/Vli.v ===== *)
(** * Vli: the multi-word integers of lib/ecc/uECC.c

    A number is an array of 64-bit words, the least significant one first, and
    [num_words] of them are used.  The operations are written word by word as
    the code has them; [holds n a x] says that the first [n] words of [a] are the
    number [x], and [upd n a x b] that [b] is [a] after [x] was stored there. *)
From stdpp Require Import base list numbers ssreflect.
From S2P Require Import Prelude Memory Outcome Digits.

(** ** The operations *)

Definition uECC_MAX_WORDS : nat := 4.

(** Conversions to [int8_t] and [int16_t], and wrap-around of the double word. *)
Definition sint (w z : Z) : Z := ((z + 2 ^ (w - 1)) mod 2 ^ w - 2 ^ (w - 1))%Z.
Definition cmpresult_t (z : Z) : Z := sint 8 z.
Definition bitcount_t (z : Z) : Z := sint 16 z.
Definition wordcount_t (z : Z) : Z := sint 8 z.
Definition u128 (z : Z) : Z := (z mod (ULONG_MOD * ULONG_MOD))%Z.

Definition uECC_vli_clear (vli : array Z) (num_words : nat) : outcome (array Z) :=
  ofor num_words 0 (λ i vli, oset vli i 0%Z) vli.

Definition uECC_vli_isZero (vli : array Z) (num_words : nat) : outcome Z :=
  bits ← ofor num_words 0 (λ i bits, w ← oget vli i; Ok (Z.lor bits w)) 0%Z;
  Ok (Z.b2z (bits =? 0)%Z).

Definition uECC_vli_testBit (vli : array Z) (bit : Z) : outcome Z :=
  w ← oget vli (Z.shiftr bit 6);
  Ok (Z.land w (u64 (Z.shiftl 1 (Z.land bit 63)))).

Fixpoint vli_numDigits (vli : array Z) (max_words : nat) : outcome Z :=
  match max_words with
  | O => Ok 0%Z
  | S i =>
      w ← oget vli (Z.of_nat i);
      if (w =? 0)%Z then vli_numDigits vli i else Ok (Z.of_nat (S i))
  end.

(** The loop halves a word until it is zero, 64 times at most. *)
Definition uECC_vli_numBits (vli : array Z) (max_words : nat) : outcome Z :=
  num_digits ← vli_numDigits vli max_words;
  if (num_digits =? 0)%Z then Ok 0%Z
  else
    digit ← oget vli (num_digits - 1);
    i ← owhile 65 (λ '(i, digit),
      Ok (if (digit =? 0)%Z then inr i else inl (i + 1, Z.shiftr digit 1)%Z)) (0%Z, digit);
    Ok (bitcount_t (Z.shiftl (num_digits - 1) 6 + i)).

Definition uECC_vli_set (dest src : array Z) (num_words : nat) : outcome (array Z) :=
  ofor num_words 0 (λ i dest, w ← oget src i; oset dest i w) dest.

Fixpoint uECC_vli_cmp_unsafe (left right : array Z) (num_words : nat) : outcome Z :=
  match num_words with
  | O => Ok 0%Z
  | S i =>
      l ← oget left (Z.of_nat i);
      r ← oget right (Z.of_nat i);
      if (l >? r)%Z then Ok 1%Z
      else if (l <? r)%Z then Ok (-1)%Z
      else uECC_vli_cmp_unsafe left right i
  end.

Definition uECC_vli_equal (left right : array Z) (num_words : nat) : outcome Z :=
  diff ← ofor_down num_words (λ i diff,
    l ← oget left i; r ← oget right i; Ok (Z.lor diff (Z.lxor l r))) 0%Z;
  Ok (Z.b2z (diff =? 0)%Z).

Definition uECC_vli_rshift1 (vli : array Z) (num_words : nat) : outcome (array Z) :=
  r ← ofor_down num_words (λ i '(vli, carry),
    temp ← oget vli i;
    vli ← oset vli i (Z.lor (Z.shiftr temp 1) carry);
    Ok (vli, u64 (Z.shiftl temp 63))) (vli, 0%Z);
  Ok r.1.

(** One word of a sum and of a difference; the carry keeps its value where the
    result is the left word itself. *)
Definition sum_word (l r carry : Z) : Z * Z :=
  let sum := u64 (u64 (l + r) + carry) in
  (sum, if (sum =? l)%Z then carry else Z.b2z (sum <? l)%Z).
Definition diff_word (l r borrow : Z) : Z * Z :=
  let diff := u64 (u64 (l - r) - borrow) in
  (diff, if (diff =? l)%Z then borrow else Z.b2z (diff >? l)%Z).

(** The common loop of [uECC_vli_add] and [uECC_vli_sub].  With [al], the left operand is the
    array that is being written, with [ar] the right one: "can modify in place". *)
Definition vli_chain (word_op : Z → Z → Z → Z * Z) (al ar : bool) (result left right : array Z)
    (num_words : nat) : outcome (array Z * Z) :=
  ofor num_words 0 (λ i '(result, carry),
    l ← oget (if al then result else left) i;
    r ← oget (if ar then result else right) i;
    let '(w, carry) := word_op l r carry in
    result ← oset result i w;
    Ok (result, carry)) (result, 0%Z).

Definition uECC_vli_add (result left right : array Z) (num_words : nat) : outcome (array Z * Z) :=
  vli_chain sum_word false false result left right num_words.

Definition uECC_vli_sub (result left right : array Z) (num_words : nat) : outcome (array Z * Z) :=
  vli_chain diff_word false false result left right num_words.

(** [tmp] is a local array that was not written yet; [!equal - 2 * neg] is
    computed on 64-bit words. *)
Definition local_vli (k : nat) : array Z := replicate k None.

Definition uECC_vli_cmp (left right : array Z) (num_words : nat) : outcome Z :=
  '(tmp, borrow) ← uECC_vli_sub (local_vli uECC_MAX_WORDS) left right num_words;
  let neg := Z.b2z (negb (borrow =? 0)%Z) in
  equal ← uECC_vli_isZero tmp num_words;
  Ok (cmpresult_t (u64 (Z.b2z (equal =? 0)%Z - u64 (2 * neg)))).

(** The accumulator of three words. *)
Definition muladd (a b : Z) (r : Z * Z * Z) : Z * Z * Z :=
  let '(r0, r1, r2) := r in
  let p := u128 (a * b) in
  let r01 := Z.lor (u128 (Z.shiftl r1 64)) r0 in
  let r01 := u128 (r01 + p) in
  let r2 := u64 (r2 + Z.b2z (r01 <? p)%Z) in
  (u64 r01, Z.shiftr r01 64, r2).

Definition mult_column (left right : array Z) (k : Z) (from : Z) (count : nat) (r : Z * Z * Z) :
    outcome (Z * Z * Z) :=
  ofor count from (λ i r, a ← oget left i; b ← oget right (k - i)%Z; Ok (muladd a b r)) r.

(** [result[k] = r0], and the accumulator moves down by a word. *)
Definition mult_store (k : Z) (result : array Z) (r : Z * Z * Z) : outcome (array Z * (Z * Z * Z)) :=
  let '(r0, r1, r2) := r in result ← oset result k r0; Ok (result, (r1, r2, 0%Z)).

Definition uECC_vli_mult (result left right : array Z) (num_words : nat) : outcome (array Z) :=
  let n := Z.of_nat num_words in
  '(result, r) ← ofor num_words 0 (λ k '(result, r),
    r ← mult_column left right k 0 (Z.to_nat (k + 1)) r; mult_store k result r) (result, (0, 0, 0)%Z);
  '(result, r) ← ofor (num_words - 1) n (λ k '(result, r),
    r ← mult_column left right k (k + 1 - n)%Z (Z.to_nat (n - (k + 1 - n))) r; mult_store k result r) (result, r);
  oset result (n * 2 - 1)%Z r.1.1.

(** ** What they compute *)
Lemma sint_id w z : (0 < w)%Z → (- 2 ^ (w - 1) ≤ z < 2 ^ (w - 1))%Z → sint w z = z.
Proof.
  intros Hw Hz. rewrite /sint Z.mod_small; [lia|].
  replace (2 ^ w)%Z with (2 * 2 ^ (w - 1))%Z; [lia|]. rewrite -Z.pow_succ_r; [|lia]. f_equal. lia.
Qed.

Lemma post_dig n a x i (Φ : Z → Prop) :
  holds n a x → (0 ≤ i < Z.of_nat n)%Z → Φ (dig x (Z.to_nat i)) → post (oget a i) Φ.
Proof. intros [_ H] Hi HΦ. eapply post_oget; [lia| |exact HΦ]. apply H. lia. Qed.

(** The writes of a loop that fills an array from below. *)
Lemma post_upd_step n a z b (i : Z) d (Φ : array Z → Prop) :
  upd (Z.to_nat i) a z b → (0 ≤ i < Z.of_nat n)%Z → n ≤ length a → word d →
  (∀ b', upd (Z.to_nat (i + 1)) a (z + pw (Z.to_nat i) * d) b' → Φ b') →
  post (oset b i d) Φ.
Proof.
  intros H Hi Hn Hd HΦ. apply post_oset; [rewrite (upd_length _ _ _ _ H); lia|]. apply HΦ.
  rewrite to_nat_S; [|lia]. apply upd_step; [done|lia|done].
Qed.

(** A loop over the words that fills [a]: after [i] rounds its first [i] words are [f i], and
    [J i s] holds of the rest of the state. *)
Lemma post_fill {St} (f : nat → Z) (J : nat → St → Prop) n a s body (Φ : array Z * St → Prop) :
  f 0 = 0%Z → J 0 s → n ≤ length a →
  (∀ i b s', i < n → upd i a (f i) b → J i s' →
    post (body (Z.of_nat i) (b, s')) (λ '(b', s''), upd (S i) a (f (S i)) b' ∧ J (S i) s'')) →
  (∀ b s', upd n a (f n) b → J n s' → Φ (b, s')) →
  post (ofor n 0 body (a, s)) Φ.
Proof.
  intros Hf HJ Hn Hbody HΦ.
  apply post_ofor with (I := λ i '(b, s'), upd (Z.to_nat i) a (f (Z.to_nat i)) b ∧ J (Z.to_nat i) s').
  - rewrite /= Hf. split; [apply upd_0|done].
  - intros i [b s'] Hi [Hb Hs']. replace i with (Z.of_nat (Z.to_nat i)) at 1 by lia.
    eapply post_mono; [apply Hbody; [lia|done|done]|]. intros [b' s'']. by rewrite to_nat_S; [|lia].
  - intros [b s'] [Hb Hs']. rewrite Z.add_0_l Nat2Z.id in Hb, Hs'. by apply HΦ.
Qed.

Lemma uECC_vli_clear_spec n a : n ≤ length a → post (uECC_vli_clear a n) (upd n a 0).
Proof.
  intros Hn. apply post_ofor with (I := λ i b, upd (Z.to_nat i) a 0 b).
  - apply upd_0.
  - intros i b Hi Hb. eapply (post_upd_step n); [done|lia|lia|done|]. intros b'. by rewrite Z.mul_0_r.
  - intros b. by rewrite Z.add_0_l Nat2Z.id.
Qed.

Lemma uECC_vli_set_spec n a b x : holds n b x → n ≤ length a → post (uECC_vli_set a b n) (upd n a x).
Proof.
  intros Hb Hn. apply post_ofor with (I := λ i a', upd (Z.to_nat i) a (x mod pw (Z.to_nat i)) a').
  - rewrite Z.mod_1_r. apply upd_0.
  - intros i a' Hi Ha'. eapply post_bind; [eapply post_dig; [done|lia|]; exact (eq_refl _)|]. intros w <-.
    eapply (post_upd_step n); [done|lia|lia|done|]. intros b'.
    rewrite -mod_pw_S to_nat_S //. lia.
  - intros a'. by rewrite Z.add_0_l Nat2Z.id Z.mod_small; [|apply Hb].
Qed.

Lemma uECC_vli_isZero_spec n a x : holds n a x → uECC_vli_isZero a n = Ok (Z.b2z (x =? 0)%Z).
Proof.
  intros Ha. apply post_eq, post_bind with (Ψ := λ bits, (bits = 0 ↔ x = 0)%Z).
  - apply post_ofor with (I := λ i bits, (bits = 0 ↔ x mod pw (Z.to_nat i) = 0)%Z).
    + by rewrite Z.mod_1_r.
    + intros i bits Hi Hb. eapply post_bind; [eapply post_dig; [done|lia|]; exact (eq_refl _)|].
      intros w <-. rewrite /= Z.lor_eq_0_iff Hb to_nat_S; [|lia]. rewrite mod_pw_S.
      pose proof (mod_pw_bound x (Z.to_nat i)). pose proof (word_dig x (Z.to_nat i)) as [??].
      pose proof (pw_pos (Z.to_nat i)). nia.
    + intros bits. by rewrite Z.add_0_l Nat2Z.id Z.mod_small; [|apply Ha].
  - intros bits Hb. simpl. f_equal. apply eq_true_iff_eq. by rewrite !Z.eqb_eq.
Qed.

Lemma vli_numDigits_spec n a x :
  holds n a x → post (vli_numDigits a n) (λ d, ∃ m : nat, d = Z.of_nat m ∧ m ≤ n ∧ (x < pw m)%Z ∧
    ∀ k, m = S k → dig x k ≠ 0%Z).
Proof.
  intros Ha. revert x Ha. induction n as [|n IH]; intros x Ha; simpl.
  { exists 0. split_and!; [done|lia|apply Ha|done]. }
  eapply post_bind; [eapply post_dig; [done|lia|]; exact (eq_refl _)|]. intros w <-. rewrite Nat2Z.id.
  destruct (Z.eqb_spec (dig x n) 0) as [Hd|Hd].
  - assert (x < pw n)%Z as Hx.
    { pose proof (holds_range _ _ _ Ha). rewrite -(Z.mod_small x (pw (S n))) // mod_pw_S Hd.
      pose proof (mod_pw_bound x n). lia. }
    eapply post_mono; [apply (IH x)|].
    + split; [split; [apply Ha|done]|]. intros i Hi. apply (holds_lookup _ _ _ _ Ha). lia.
    + intros d (m & -> & ? & ? & ?). exists m. split_and!; [done|lia|done|done].
  - exists (S n). split_and!; [done|lia|apply Ha|]. by intros k [= <-].
Qed.

(** The number of bits of a number. *)
Definition nbits (x : Z) : Z := if (x =? 0)%Z then 0%Z else (Z.log2 x + 1)%Z.

Lemma nbits_0 : nbits 0 = 0%Z.
Proof. done. Qed.

Lemma nbits_pos x : (0 < x)%Z → nbits x = (Z.log2 x + 1)%Z.
Proof. intros Hx. rewrite /nbits. by destruct (Z.eqb_spec x 0); [lia|]. Qed.

Lemma nbits_half x : (0 < x)%Z → nbits (Z.shiftr x 1) = (nbits x - 1)%Z.
Proof.
  intros Hx. rewrite (nbits_pos x) // /nbits. pose proof (Z.log2_nonneg x).
  destruct (Z.eqb_spec (Z.shiftr x 1) 0) as [H0|H0].
  - apply Z.shiftr_eq_0_iff in H0. lia.
  - rewrite Z.log2_shiftr //. destruct (Z.eq_dec (Z.log2 x) 0%Z) as [H1|H1]; [|lia].
    exfalso. apply H0. apply Z.shiftr_eq_0_iff. lia.
Qed.

Lemma nbits_bounds x : (0 < x)%Z → (2 ^ (nbits x - 1) ≤ x < 2 ^ nbits x)%Z.
Proof.
  intros Hx. rewrite nbits_pos //. pose proof (Z.log2_spec x Hx).
  replace (Z.log2 x + 1 - 1)%Z with (Z.log2 x) by lia. by rewrite Z.add_1_r.
Qed.

Lemma nbits_nonneg x : (0 ≤ x)%Z → (0 ≤ nbits x)%Z.
Proof. intros. rewrite /nbits. case_match; [done|]. pose proof (Z.log2_nonneg x). lia. Qed.

Lemma nbits_le x k : (0 ≤ k)%Z → (0 ≤ x < 2 ^ k)%Z → (nbits x ≤ k)%Z.
Proof.
  intros Hk Hx. rewrite /nbits. destruct (Z.eqb_spec x 0); [lia|].
  assert (Z.log2 x < k)%Z; [|lia]. apply Z.log2_lt_pow2; lia.
Qed.

Lemma nbits_unique x k : (0 < k)%Z → (2 ^ (k - 1) ≤ x < 2 ^ k)%Z → nbits x = k.
Proof.
  intros Hk Hx. assert (0 < 2 ^ (k - 1))%Z by (apply Z.pow_pos_nonneg; lia).
  rewrite nbits_pos; [|lia]. rewrite (Z.log2_unique x (k - 1)); [lia|lia|].
  by replace (Z.succ (k - 1)) with k by lia.
Qed.

Lemma uECC_vli_numBits_spec n a x :
  holds n a x → n ≤ 8 → uECC_vli_numBits a n = Ok (nbits x).
Proof.
  intros Ha Hn. apply post_eq. pose proof (holds_range _ _ _ Ha) as Hx.
  eapply post_bind; [by apply vli_numDigits_spec|]. intros ? (m & -> & Hm & Hxm & Hd).
  destruct m as [|k].
  { rewrite pw_0 in Hxm. by replace x with 0%Z by lia. }
  rewrite (proj2 (Z.eqb_neq (Z.of_nat (S k)) 0)); [|lia].
  eapply post_bind; [eapply post_dig; [done|lia|]; exact (eq_refl _)|]. intros w <-.
  replace (Z.of_nat (S k) - 1)%Z with (Z.of_nat k) by lia. rewrite Nat2Z.id.
  specialize (Hd k eq_refl). set (d := dig x k) in *.
  assert (word d) as [Hd0 HdB] by apply word_dig.
  eapply post_bind with (Ψ := λ i, i = nbits d).
  - apply post_owhile with (I := λ '(i, w), (0 ≤ w)%Z ∧ (i + nbits w = nbits d)%Z) (μ := λ '(_, w), nbits w).
    + done.
    + split; [by apply nbits_nonneg|]. change (nbits d < 65)%Z.
      assert (nbits d ≤ 64)%Z by (apply nbits_le; done). lia.
    + intros [i w] [Hw Hi] _. simpl. destruct (Z.eqb_spec w 0) as [->|Hw0]; simpl.
      * rewrite nbits_0 in Hi. lia.
      * assert (0 < w)%Z as Hw1 by lia. rewrite nbits_half // nbits_pos // in Hi |- *.
        rewrite Z.shiftr_nonneg. pose proof (Z.log2_nonneg w). lia.
  - intros i ->. simpl. assert (0 < nbits d ≤ 64)%Z as Hb.
    { split; [|by apply nbits_le]. rewrite nbits_pos; [|lia]. pose proof (Z.log2_nonneg d). lia. }
    rewrite Z.shiftl_mul_pow2 //. change (2 ^ 6)%Z with 64%Z.
    rewrite /bitcount_t sint_id //; [|lia]. symmetry.
    apply nbits_unique; [lia|]. pose proof (nbits_bounds d ltac:(lia)) as Hdb.
    assert (x = x mod pw k + pw k * d)%Z as Hxe by (rewrite -mod_pw_S Z.mod_small //; lia).
    pose proof (mod_pw_bound x k) as Hxk. rewrite Hxe. rewrite !pw_2 in Hxk |- *.
    rewrite (Z.mul_comm (Z.of_nat k)) -Z.add_sub_assoc.
    rewrite (Z.pow_add_r _ _ (nbits d)) ?(Z.pow_add_r _ _ (nbits d - 1)); [|lia..].
    set (P := (2 ^ (64 * Z.of_nat k))%Z) in *. assert (0 < P)%Z by (apply Z.pow_pos_nonneg; lia). nia.
Qed.

Lemma land_pow2 w k : (0 ≤ k)%Z → (Z.land w (2 ^ k) =? 0)%Z = negb (Z.testbit w k).
Proof.
  intros Hk. apply eq_true_iff_eq. rewrite Z.eqb_eq negb_true_iff. split.
  - intros H. assert (Z.testbit (Z.land w (2 ^ k)) k = false) as Ht by by rewrite H Z.bits_0.
    by rewrite Z.land_spec Z.pow2_bits_true // andb_true_r in Ht.
  - intros H. apply Z.bits_inj'. intros j Hj. rewrite Z.land_spec Z.bits_0 Z.pow2_bits_eqb //.
    destruct (Z.eqb_spec k j) as [->|]; [by rewrite H|by rewrite andb_false_r].
Qed.

Lemma land_63 bit : (0 ≤ bit)%Z → Z.land bit 63 = (bit mod 64)%Z.
Proof. intros. change 63%Z with (Z.ones 6). by rewrite Z.land_ones. Qed.

Lemma uECC_vli_testBit_spec n a x bit :
  holds n a x → (0 ≤ bit < 64 * Z.of_nat n)%Z →
  post (uECC_vli_testBit a bit) (λ w, (w =? 0)%Z = negb (Z.testbit x bit)).
Proof.
  intros Ha Hb. rewrite /uECC_vli_testBit Z.shiftr_div_pow2 //. change (2 ^ 6)%Z with 64%Z.
  assert (0 ≤ bit / 64 < Z.of_nat n)%Z as Hq by
    (split; [apply Z.div_pos|apply Z.div_lt_upper_bound]; lia).
  eapply post_bind; [eapply post_dig; [done|done|]; exact (eq_refl _)|]. intros w <-.
  rewrite /= land_63; [|lia]. pose proof (Z.mod_pos_bound bit 64 eq_refl).
  rewrite u64_id Z.shiftl_1_l; last first.
  { split; [by apply Z.pow_nonneg|]. change ULONG_MOD with (2 ^ 64)%Z. apply Z.pow_lt_mono_r; lia. }
  rewrite land_pow2; [|lia]. rewrite -testbit_dig //. lia.
Qed.

(** The sign of a difference. *)
Definition cmp_sign (x y : Z) : Z := match (x ?= y)%Z with Gt => 1 | Lt => -1 | Eq => 0 end%Z.

Lemma cmp_sign_gt x y : (y < x)%Z → cmp_sign x y = 1%Z.
Proof. intros H. rewrite /cmp_sign. by rewrite (proj2 (Z.compare_gt_iff _ _)). Qed.
Lemma cmp_sign_lt x y : (x < y)%Z → cmp_sign x y = (-1)%Z.
Proof. intros H. rewrite /cmp_sign. by rewrite (proj2 (Z.compare_lt_iff _ _)). Qed.
Lemma cmp_sign_add z x y : cmp_sign (x + z) (y + z) = cmp_sign x y.
Proof. rewrite /cmp_sign !(Z.add_comm _ z). by rewrite Z.add_compare_mono_l. Qed.

Lemma uECC_vli_cmp_unsafe_spec n a b x y :
  holds n a x → holds n b y → uECC_vli_cmp_unsafe a b n = Ok (cmp_sign x y).
Proof.
  revert x y. induction n as [|n IH]; intros x y Ha Hb; apply post_eq; simpl.
  { by rewrite (holds_0_inv _ _ Ha) (holds_0_inv _ _ Hb). }
  eapply post_bind; [eapply post_dig; [exact Ha|lia|]; exact (eq_refl _)|]. intros l <-.
  eapply post_bind; [eapply post_dig; [exact Hb|lia|]; exact (eq_refl _)|]. intros r <-.
  rewrite Nat2Z.id.
  assert (x = x mod pw n + pw n * dig x n)%Z as Hx by (rewrite -mod_pw_S Z.mod_small //; by apply Ha).
  assert (y = y mod pw n + pw n * dig y n)%Z as Hy by (rewrite -mod_pw_S Z.mod_small //; by apply Hb).
  pose proof (mod_pw_bound x n). pose proof (mod_pw_bound y n).
  rewrite Z.gtb_ltb.
  destruct (Z.ltb_spec (dig y n) (dig x n)); [|destruct (Z.ltb_spec (dig x n) (dig y n))]; simpl.
  - symmetry. apply cmp_sign_gt. nia.
  - symmetry. apply cmp_sign_lt. nia.
  - assert (dig x n = dig y n) as He by lia.
    rewrite (IH (x mod pw n)%Z (y mod pw n)%Z).
    + by rewrite {2}Hx {2}Hy He cmp_sign_add.
    + eapply holds_take; [exact Ha|lia].
    + eapply holds_take; [exact Hb|lia].
Qed.

Lemma cmp_sign_1 x y : (cmp_sign x y =? 1)%Z = (y <? x)%Z.
Proof. rewrite /cmp_sign. destruct (Z.compare_spec x y), (Z.ltb_spec y x); try lia; done. Qed.
Lemma cmp_sign_0 x y : (cmp_sign x y =? 0)%Z = (x =? y)%Z.
Proof. rewrite /cmp_sign. destruct (Z.compare_spec x y), (Z.eqb_spec x y); try lia; done. Qed.
Lemma cmp_sign_neg x y : (cmp_sign x y <? 0)%Z = (x <? y)%Z.
Proof. rewrite /cmp_sign. destruct (Z.compare_spec x y), (Z.ltb_spec x y); try lia; done. Qed.
Lemma cmp_sign_pos x y : (0 <? cmp_sign x y)%Z = (y <? x)%Z.
Proof. rewrite /cmp_sign. destruct (Z.compare_spec x y), (Z.ltb_spec y x); try lia; done. Qed.

Lemma div_pw_S x i : (x / pw i = dig x i + ULONG_MOD * (x / pw (S i)))%Z.
Proof.
  rewrite pw_S -Z.div_div //; [|pose proof (pw_pos i); lia].
  rewrite /dig {1}(Z.div_mod (x / pw i) ULONG_MOD) //. lia.
Qed.

Lemma lxor_0_iff a b : (Z.lxor a b = 0 ↔ a = b)%Z.
Proof. split; [apply Z.lxor_eq|intros ->; apply Z.lxor_nilpotent]. Qed.

Lemma uECC_vli_equal_spec n a b x y :
  holds n a x → holds n b y → uECC_vli_equal a b n = Ok (Z.b2z (x =? y)%Z).
Proof.
  intros Ha Hb. apply post_eq, post_bind with (Ψ := λ diff, (diff = 0 ↔ x = y)%Z).
  - apply post_ofor_down with (I := λ j diff, (diff = 0 ↔ x / pw j = y / pw j)%Z).
    + rewrite !Z.div_small; [done|by apply Hb|by apply Ha].
    + intros j diff Hj Hd.
      eapply post_bind; [eapply post_dig; [exact Ha|lia|]; exact (eq_refl _)|]. intros l <-.
      eapply post_bind; [eapply post_dig; [exact Hb|lia|]; exact (eq_refl _)|]. intros r <-.
      rewrite /= Nat2Z.id Z.lor_eq_0_iff Hd lxor_0_iff (div_pw_S x j) (div_pw_S y j).
      pose proof (word_dig x j) as [??]. pose proof (word_dig y j) as [??].
      unfold ULONG_MOD in *. lia.
    + intros diff. by rewrite pw_0 !Z.div_1_r.
  - intros diff Hd. simpl. f_equal. apply eq_true_iff_eq. by rewrite !Z.eqb_eq.
Qed.

Lemma dig_half x j : dig (x / 2) j = Z.lor (Z.shiftr (dig x j) 1) (u64 (Z.shiftl (dig x (S j)) 63)).
Proof.
  apply Z.bits_inj'. intros k Hk. rewrite Z.lor_spec Z.shiftr_spec // !dig_testbit //; [|lia].
  rewrite -(Z.shiftr_div_pow2 x 1) // Z.shiftr_spec; [|lia]. rewrite /u64. change ULONG_MOD with (2 ^ 64)%Z.
  destruct (Z.ltb_spec k 64); simpl.
  - rewrite Z.mod_pow2_bits_low // Z.shiftl_spec //.
    replace (k + 64 * Z.of_nat j + 1)%Z with (k + 1 + 64 * Z.of_nat j)%Z by lia.
    destruct (Z.ltb_spec (k + 1) 64); simpl.
    + rewrite (Z.testbit_neg_r (dig x (S j))); [|lia]. by rewrite orb_false_r.
    + rewrite dig_testbit; [|lia]. rewrite (proj2 (Z.ltb_lt _ _)); [|lia]. simpl. f_equal. lia.
  - rewrite Z.mod_pow2_bits_high //. by rewrite (proj2 (Z.ltb_ge _ _)); [|lia].
Qed.

Lemma uECC_vli_rshift1_spec n a x : holds n a x → post (uECC_vli_rshift1 a n) (upd n a (x / 2)).
Proof.
  intros Ha. pose proof (holds_length _ _ _ Ha) as Hn.
  eapply post_bind with (Ψ := λ r, upd n a (x / 2) r.1); [|by intros r].
  apply post_ofor_down with (I := λ j '(b, carry),
    carry = u64 (Z.shiftl (dig x j) 63) ∧ length b = length a ∧ drop n b = drop n a ∧
    ∀ i, i < n → b !! i = Some (Some (if decide (i < j) then dig x i else dig (x / 2) i))).
  - split_and!; [|done|done|].
    + rewrite dig_small; [done|apply Ha].
    + intros i Hi. rewrite decide_True //. by apply (holds_lookup _ _ _ _ Ha).
  - intros j [b carry] Hj (-> & Hl & Hd & Hb).
    assert (b !! j = Some (Some (dig x j))) as Hj' by (rewrite Hb // decide_True //; lia).
    eapply post_bind; [eapply post_oget; [lia|by rewrite Nat2Z.id|exact (eq_refl _)]|].
    intros temp <-. eapply post_bind; [eapply post_oset; [lia|exact (eq_refl _)]|].
    intros b' <-. rewrite /= Nat2Z.id -dig_half.
    split_and!; [done|by rewrite length_insert| |].
    + rewrite drop_insert_lt //.
    + intros i Hi. destruct (decide (i = j)) as [->|].
      * rewrite list_lookup_insert_eq; [|lia]. rewrite decide_False //. lia.
      * rewrite list_lookup_insert_ne // Hb //. f_equal. f_equal.
        destruct (decide (i < S j)), (decide (i < j)); done || lia.
  - intros [b carry] (_ & Hl & Hd & Hb). split_and!; [|done|done]. split.
    + pose proof (holds_range _ _ _ Ha). split; [by apply Z.div_pos; [lia|]|].
      apply Z.div_lt_upper_bound; lia.
    + intros i Hi. by rewrite Hb.
Qed.

(** ** Sums and differences *)

(** What a word operation has to be: [s] is 1 for sums and -1 for differences. *)
Definition chain_op (s : Z) (word_op : Z → Z → Z → Z * Z) : Prop :=
  (s * s = 1)%Z ∧ ∀ l r c, word l → word r → c = (0%Z) ∨ c = 1%Z →
  word_op l r c = ((l + s * (r + c)) mod ULONG_MOD, s * ((l + s * (r + c)) / ULONG_MOD))%Z ∧
  (word_op l r c).2 ∈ [0%Z; 1%Z].

Lemma div_mod_words z :
  (- ULONG_MOD ≤ z < 2 * ULONG_MOD)%Z →
  (z < 0 ∧ z / ULONG_MOD = -1 ∧ z mod ULONG_MOD = z + ULONG_MOD ∨
   0 ≤ z < ULONG_MOD ∧ z / ULONG_MOD = 0 ∧ z mod ULONG_MOD = z ∨
   ULONG_MOD ≤ z ∧ z / ULONG_MOD = 1 ∧ z mod ULONG_MOD = z - ULONG_MOD)%Z.
Proof.
  intros Hz. pose proof (Z.div_mod z ULONG_MOD ltac:(done)) as Hd.
  pose proof (Z.mod_pos_bound z ULONG_MOD eq_refl) as Hm. unfold ULONG_MOD in *. lia.
Qed.

Lemma sum_word_op : chain_op 1 sum_word.
Proof.
  split; [done|]. intros l r c [Hl HlB] [Hr HrB] Hc. rewrite /sum_word /u64 Zplus_mod_idemp_l Z.mul_1_l Z.add_assoc.
  pose proof (div_mod_words (l + r + c)) as Hw.
  destruct Hw as [(? & -> & ->)|[(? & -> & ->)|(? & -> & ->)]]; [unfold ULONG_MOD in *; lia..| |].
  - destruct (Z.eqb_spec (l + r + c) l), (Z.ltb_spec (l + r + c) l); simpl; try lia; split.
    all: try (f_equal; lia). all: set_solver by lia.
  - destruct (Z.eqb_spec (l + r + c - ULONG_MOD) l), (Z.ltb_spec (l + r + c - ULONG_MOD) l); simpl; try lia; split.
    all: try (f_equal; unfold ULONG_MOD in *; lia). all: set_solver by lia.
Qed.

Lemma diff_word_op : chain_op (-1) diff_word.
Proof.
  split; [done|]. intros l r c [Hl HlB] [Hr HrB] Hc. rewrite /diff_word /u64 Zminus_mod_idemp_l.
  replace (l + -1 * (r + c))%Z with (l - r - c)%Z by lia.
  pose proof (div_mod_words (l - r - c)) as Hw.
  destruct Hw as [(? & -> & ->)|[(? & -> & ->)|(? & -> & ->)]]; [unfold ULONG_MOD in *; lia| | |unfold ULONG_MOD in *; lia];
    rewrite Z.gtb_ltb.
  - destruct (Z.eqb_spec (l - r - c + ULONG_MOD) l), (Z.ltb_spec l (l - r - c + ULONG_MOD)); simpl; try lia; split.
    all: try (f_equal; unfold ULONG_MOD in *; lia). all: set_solver by lia.
  - destruct (Z.eqb_spec (l - r - c) l), (Z.ltb_spec l (l - r - c)); simpl; try lia; split.
    all: try (f_equal; unfold ULONG_MOD in *; lia). all: set_solver by lia.
Qed.

Lemma vli_chain_spec s word_op (al ar : bool) n res a b x y :
  chain_op s word_op → (al → a = res) → (ar → b = res) →
  holds n a x → holds n b y → n ≤ length res →
  post (vli_chain word_op al ar res a b n)
    (λ '(r, c), upd n res ((x + s * y) mod pw n) r ∧ c = s * ((x + s * y) / pw n) ∧ (c = 0 ∨ c = 1))%Z.
Proof.
  intros [Hs Hop] Hal Har Ha Hb Hn.
  set (z i := (x mod pw i + s * (y mod pw i))%Z).
  assert (∀ (al : bool) a x b i v, (al → a = res) → holds n a x → upd i res v b → i < n →
    post (oget (if al then b else a) (Z.of_nat i)) (λ w, w = dig x i)) as Hget.
  { intros [] a' x' b' i v Hal' Ha' Hb' Hi; (eapply post_oget; [lia| |exact (eq_refl _)]); rewrite Nat2Z.id.
    - rewrite (upd_lookup _ _ _ _ _ Hb') // -Hal' //. by apply (holds_lookup _ _ _ _ Ha').
    - by apply (holds_lookup _ _ _ _ Ha'). }
  apply post_fill with (f := λ i, (z i mod pw i)%Z) (J := λ i c, (c = s * (z i / pw i) ∧ (c = 0 ∨ c = 1))%Z).
  - by rewrite Z.mod_1_r.
  - rewrite /z /= !Z.mod_1_r Zdiv.Zdiv_1_r. split; [ring|by left].
  - done.
  - intros i r c Hi Hr [Hc Hc01].
    eapply post_bind; [by eapply Hget|]. intros l ->. eapply post_bind; [by eapply Hget|]. intros w ->.
    destruct (Hop (dig x i) (dig y i) c) as [-> Hc']; [done..|]. simpl in Hc'.
    eapply post_bind; [eapply (post_upd_step n); [rewrite Nat2Z.id; exact Hr|lia|done|apply Z.mod_pos_bound; done|intros; done]|].
    assert (z (S i) = z i mod pw i + pw i * (dig x i + s * (dig y i + c)))%Z as Hz.
    { pose proof (Z.div_mod (z i) (pw i) ltac:(pose proof (pw_pos i); lia)) as Hzi.
      rewrite Hc {1}/z !mod_pw_S. rewrite {1}/z in Hzi.
      replace (s * (dig y i + s * (z i / pw i)))%Z with (s * dig y i + z i / pw i)%Z; [lia|ring [Hs]]. }
    rewrite Nat2Z.id. replace (Z.to_nat (Z.of_nat i + 1)) with (S i) by lia.
    intros r' Hr'. split; [|split].
    + replace (z (S i) mod pw (S i))%Z with (z i mod pw i + pw i * ((dig x i + s * (dig y i + c)) mod ULONG_MOD))%Z; [done|].
      rewrite Hz (pw_S i) mod_mix //.
    + rewrite Hz (pw_S i) div_mix //.
    + set_solver.
  - intros r c Hr [Hc Hc01]. assert (z n = x + s * y)%Z as Hz.
    { rewrite /z !Z.mod_small //; [by apply Hb|by apply Ha]. }
    by rewrite Hz in Hr, Hc.
Qed.

(** A sum that is written over one of its operands or over both is the same sum. *)
Lemma vli_chain_alias s word_op (al ar : bool) n res a b x y :
  chain_op s word_op → (al → a = res) → (ar → b = res) →
  holds n a x → holds n b y → n ≤ length res →
  vli_chain word_op al ar res a b n = vli_chain word_op false false res a b n.
Proof.
  intros Hop Hal Har Ha Hb Hn.
  pose proof (vli_chain_spec s word_op al ar n res a b x y Hop Hal Har Ha Hb Hn) as ([r c] & -> & Hr & Hc & _)%post_elim.
  pose proof (vli_chain_spec s word_op false false n res a b x y Hop) as H.
  specialize (H ltac:(done) ltac:(done) Ha Hb Hn). apply post_elim in H as ([r' c'] & -> & Hr' & Hc' & _).
  rewrite Hc Hc'. do 2 f_equal. rewrite -(take_drop n r) -(take_drop n r').
  destruct Hr as ([_ Hr] & Hl & Hd), Hr' as ([_ Hr'] & Hl' & Hd'). f_equal; [|congruence].
  apply list_eq. intros i. destruct (decide (i < n)).
  - rewrite !lookup_take_lt // Hr // Hr' //.
  - rewrite !lookup_take_ge //; lia.
Qed.

Lemma uECC_vli_add_spec n res a b x y :
  holds n a x → holds n b y → n ≤ length res →
  post (uECC_vli_add res a b n)
    (λ '(r, c), upd n res ((x + y) mod pw n) r ∧ c = Z.b2z (pw n <=? x + y)%Z).
Proof.
  intros Ha Hb Hn. eapply post_mono; [by apply (vli_chain_spec 1 _ false false n _ a b x y sum_word_op)|].
  intros [r c]. rewrite !Z.mul_1_l. intros (Hr & Hc & _). split; [done|].
  pose proof (holds_range _ _ _ Ha). pose proof (holds_range _ _ _ Hb). rewrite Hc.
  destruct (Z.leb_spec (pw n) (x + y)); simpl; [|by apply Z.div_small; lia].
  symmetry. apply Z.div_unique with (r := (x + y - pw n)%Z); lia.
Qed.

Lemma uECC_vli_sub_spec n res a b x y :
  holds n a x → holds n b y → n ≤ length res →
  post (uECC_vli_sub res a b n)
    (λ '(r, c), upd n res ((x - y) mod pw n) r ∧ c = Z.b2z (x <? y)%Z).
Proof.
  intros Ha Hb Hn. eapply post_mono; [by apply (vli_chain_spec (-1) _ false false n _ a b x y diff_word_op)|].
  intros [r c]. replace (x + -1 * y)%Z with (x - y)%Z by lia. intros (Hr & Hc & _). split; [done|].
  pose proof (holds_range _ _ _ Ha). pose proof (holds_range _ _ _ Hb). rewrite Hc.
  destruct (Z.ltb_spec x y); simpl; [|by rewrite Z.div_small; [done|lia]].
  rewrite -(Z.div_unique (x - y) (pw n) (-1) (x - y + pw n)); lia.
Qed.

Lemma uECC_vli_cmp_spec n a b x y :
  holds n a x → holds n b y → n ≤ uECC_MAX_WORDS → uECC_vli_cmp a b n = Ok (cmp_sign x y).
Proof.
  intros Ha Hb Hn. apply post_eq.
  eapply post_bind; [apply uECC_vli_sub_spec; [exact Ha|exact Hb|by rewrite length_replicate]|].
  intros [tmp c] [[Htmp _] ->]. rewrite (uECC_vli_isZero_spec _ _ _ Htmp) /=.
  pose proof (holds_range _ _ _ Ha). pose proof (holds_range _ _ _ Hb). rewrite /cmp_sign.
  destruct (Z.compare_spec x y), (Z.ltb_spec x y), (Z.eqb_spec ((x - y) mod pw n) 0) as [He|He]; try lia; try done; exfalso.
  - apply He. by replace (x - y)%Z with 0%Z by lia.
  - rewrite -(Z.mod_unique (x - y) (pw n) (-1) (x - y + pw n)) in He; lia.
  - rewrite Z.mod_small in He; lia.
Qed.

(** ** Products *)

(** The number in the accumulator. *)
Definition acc (r : Z * Z * Z) : Z := (r.1.1 + ULONG_MOD * (r.1.2 + ULONG_MOD * r.2))%Z.
Definition acc_words (r : Z * Z * Z) : Prop := word r.1.1 ∧ word r.1.2 ∧ word r.2.

Lemma muladd_spec a b r :
  word a → word b → acc_words r → (acc r + a * b < pw 3)%Z →
  acc_words (muladd a b r) ∧ acc (muladd a b r) = (acc r + a * b)%Z.
Proof.
  destruct r as [[r0 r1] r2]. rewrite /acc_words /acc /muladd /word /u128 /u64 /=.
  change (pw 3) with (ULONG_MOD * (ULONG_MOD * ULONG_MOD))%Z.
  intros Ha Hb (H0 & H1 & H2) Hlt.
  assert (ULONG_MOD = 2 ^ 64)%Z as HB by done.
  set (B := ULONG_MOD) in *. assert (1 < B)%Z as HB1 by done. clearbody B.
  assert (0 ≤ a * b ≤ (B - 1) * (B - 1))%Z as Hp by nia.
  assert (0 ≤ r1 * B ≤ (B - 1) * B)%Z as Hr by nia.
  assert (a * b < B * B ∧ r1 * B < B * B)%Z as [Hp' Hr'] by lia.
  rewrite (Z.mod_small (a * b)); [|lia].
  rewrite Z.shiftl_mul_pow2 // -HB (Z.mod_small (r1 * B)); [|lia].
  rewrite Z.lor_comm HB -Z.shiftl_mul_pow2 // lor_add_high //; [|by rewrite -HB]. rewrite -HB.
  set (s := (r0 + r1 * B + a * b)%Z). assert (0 ≤ s < 2 * (B * B))%Z as Hs by (subst s; lia).
  assert (Hc : (s mod (B * B) = s - B * B * Z.b2z (s mod (B * B) <? a * b))%Z).
  { destruct (Z.lt_ge_cases s (B * B)) as [Hlt'|Hge].
    - rewrite Z.mod_small; [|lia]. rewrite (proj2 (Z.ltb_ge _ _)); [|subst s; lia]. simpl. lia.
    - assert (s mod (B * B) = s - B * B)%Z as -> by (symmetry; apply Z.mod_unique with (q := 1%Z); lia).
      rewrite (proj2 (Z.ltb_lt _ _)); [|subst s; lia]. simpl. lia. }
  set (s' := (s mod (B * B))%Z) in *. set (c := Z.b2z (s' <? a * b)%Z) in *.
  assert (0 ≤ s' < B * B)%Z as Hs' by (apply Z.mod_pos_bound; lia).
  rewrite Z.shiftr_div_pow2 // -HB.
  assert (0 ≤ c ≤ 1)%Z as Hc01 by (subst c; destruct (s' <? a * b)%Z; simpl; lia).
  assert (0 ≤ r2 + c < B)%Z as Hr2 by (subst s; nia).
  rewrite (Z.mod_small (r2 + c)) //.
  pose proof (Z.mod_pos_bound s' B ltac:(lia)). pose proof (Z.div_mod s' B ltac:(lia)).
  assert (0 ≤ s' / B < B)%Z by (split; [apply Z.div_pos|apply Z.div_lt_upper_bound]; lia).
  split_and!; try lia.
Qed.

(** The part of the product whose digits are below [k], and what column [k] adds. *)
Definition low_product (n : nat) (x y : Z) (k : nat) : Z :=
  csum (λ i, pw i * dig x i * (y mod pw (k - i)%nat))%Z n.
Definition column (x y : Z) (k from count : nat) : Z :=
  csum (λ i, dig x (from + i)%nat * dig y (k - (from + i))%nat)%Z count.

Lemma low_product_0 n x y : low_product n x y 0 = 0%Z.
Proof. apply csum_0. intros i _. by rewrite /= Z.mod_1_r Z.mul_0_r. Qed.

Lemma low_product_bound n x y k : (0 ≤ low_product n x y k ≤ Z.of_nat n * (ULONG_MOD * pw k))%Z.
Proof.
  apply csum_bounds. intros i Hi. pose proof (word_dig x i) as [Hd0 HdB].
  pose proof (pw_pos i). pose proof (mod_pw_bound y (k - i)) as Hm.
  assert (0 ≤ pw i * (y mod pw (k - i)) ≤ pw k)%Z as Hp; [|nia].
  destruct (decide (i ≤ k)).
  - assert (pw k = pw i * pw (k - i))%Z as -> by (rewrite -pw_add; f_equal; lia). nia.
  - replace (k - i) with 0 by lia. rewrite pw_0 Z.mod_1_r. pose proof (pw_pos k). lia.
Qed.

Lemma low_product_all n x y k :
  (0 ≤ x < pw n)%Z → (0 ≤ y < pw n)%Z → 2 * n - 1 ≤ k → low_product n x y k = (x * y)%Z.
Proof.
  intros Hx Hy Hk. rewrite /low_product -{2}(Z.mod_small x (pw n)) // -csum_digits Z.mul_comm -csum_mul.
  apply csum_ext. intros i Hi. rewrite Z.mul_comm Z.mod_small //.
  pose proof (pw_le n (k - i) ltac:(lia)). lia.
Qed.

Lemma low_product_S n x y k :
  low_product n x y (S k) =
  (low_product n x y k + pw k * csum (λ i, if decide (i ≤ k)%nat then dig x i * dig y (k - i)%nat else 0) n)%Z.
Proof.
  rewrite /low_product -csum_mul -csum_add. apply csum_ext. intros i Hi. case_decide.
  - replace (S k - i) with (S (k - i)) by lia. rewrite mod_pw_S.
    replace (pw k) with (pw i * pw (k - i))%Z by (rewrite -pw_add; f_equal; lia). ring.
  - replace (S k - i) with 0 by lia. replace (k - i) with 0 by lia. rewrite pw_0 Z.mod_1_r. ring.
Qed.

(** The columns that the two loops of the code run over. *)
Lemma low_product_column_low n x y k :
  k < n → low_product n x y (S k) = (low_product n x y k + pw k * column x y k 0%nat (S k))%Z.
Proof.
  intros Hk. rewrite low_product_S. do 2 f_equal. replace n with (S k + (n - S k)) by lia.
  rewrite csum_split (csum_0 _ (n - S k)).
  - rewrite Z.add_0_r. apply csum_ext. intros i Hi. rewrite decide_True //. lia.
  - intros i Hi. rewrite decide_False //. lia.
Qed.

Lemma low_product_column_high n x y k :
  (0 ≤ y < pw n)%Z → n ≤ k → k < 2 * n - 1 →
  low_product n x y (S k) = (low_product n x y k + pw k * column x y k (k + 1 - n)%nat (n - (k + 1 - n))%nat)%Z.
Proof.
  intros Hy Hk Hk2. rewrite low_product_S. do 2 f_equal.
  replace n with ((k + 1 - n) + (n - (k + 1 - n))) at 1 by lia.
  rewrite csum_split (csum_0 _ (k + 1 - n)).
  - rewrite Z.add_0_l. apply csum_ext. intros i Hi. rewrite decide_True //. lia.
  - intros i Hi. rewrite decide_True; [|lia]. rewrite (dig_large y n); [by rewrite Z.mul_0_r|done|lia].
Qed.

Lemma column_bound x y k from m :
  (0 ≤ column x y k from m ≤ Z.of_nat m * ((ULONG_MOD - 1) * (ULONG_MOD - 1)))%Z.
Proof.
  apply csum_bounds. intros i _. pose proof (word_dig x (from + i)) as [??].
  pose proof (word_dig y (k - (from + i))) as [??].
  split; [by apply Z.mul_nonneg_nonneg|]. apply Z.mul_le_mono_nonneg; lia.
Qed.

Lemma mult_column_spec n a b x y (k from count : nat) r :
  holds n a x → holds n b y → from + count ≤ n → from + count ≤ S k → k < from + n →
  acc_words r → (acc r + column x y k from count < pw 3)%Z →
  post (mult_column a b (Z.of_nat k) (Z.of_nat from) count r)
    (λ r', acc_words r' ∧ acc r' = (acc r + column x y k from count)%Z).
Proof.
  intros Ha Hb Hn Hk Hkn Hr Hlt.
  apply post_ofor with (I := λ i r', let j := (Z.to_nat i - from)%nat in
    (Z.of_nat from ≤ i)%Z ∧ acc_words r' ∧ acc r' = (acc r + column x y k from j)%Z).
  - split_and!; [done|done|]. rewrite Nat2Z.id Nat.sub_diag /column /=. lia.
  - intros i r' Hi (_ & Hw & Hacc). set (j := Z.to_nat i - from) in *.
    eapply post_bind; [eapply post_dig; [exact Ha|lia|]; exact (eq_refl _)|]. intros u <-.
    eapply post_bind; [eapply post_dig; [exact Hb|lia|]; exact (eq_refl _)|]. intros v <-.
    assert (column x y k from (S j) = column x y k from j + dig x (Z.to_nat i) * dig y (Z.to_nat (Z.of_nat k - i)))%Z as Hcol.
    { rewrite /column /=. do 2 f_equal; f_equal; lia. }
    assert (column x y k from (S j) ≤ column x y k from count)%Z as Hle.
    { replace count with (S j + (count - S j)) by lia. rewrite {2}/column csum_split.
      assert (0 ≤ column x y k (from + S j) (count - S j))%Z as H0 by apply column_bound.
      rewrite /column in H0 |- *. rewrite (csum_ext _ (λ i0, dig x (from + S j + i0)%nat * dig y (k - (from + S j + i0))%nat)%Z (count - S j)); [lia|].
      intros. do 2 f_equal; lia. }
    destruct (muladd_spec (dig x (Z.to_nat i)) (dig y (Z.to_nat (Z.of_nat k - i))) r') as [Hw' Hacc']; [done|done|done|lia|].
    split; [lia|]. split; [done|]. rewrite Hacc' Hacc. replace (Z.to_nat (i + 1) - from) with (S j) by lia. lia.
  - intros r' (_ & Hw & Hacc). split; [done|]. rewrite Hacc. do 3 f_equal. lia.
Qed.

(** The state of the multiplication before column [k]: the finished digits and the accumulator
    make up the product of the lower digits. *)
Definition mult_inv (n : nat) (res : array Z) (x y : Z) (k : nat) (s : array Z * (Z * Z * Z)) : Prop :=
  acc_words s.2 ∧ ∃ z, upd k res z s.1 ∧ (z + pw k * acc s.2 = low_product n x y k)%Z.

Lemma mult_step n res a b x y (k from count : nat) s :
  holds n a x → holds n b y → n ≤ uECC_MAX_WORDS → k < length res →
  from + count ≤ n → from + count ≤ S k → k < from + n →
  low_product n x y (S k) = (low_product n x y k + pw k * column x y k from count)%Z →
  mult_inv n res x y k s →
  post (r ← mult_column a b (Z.of_nat k) (Z.of_nat from) count s.2; mult_store (Z.of_nat k) s.1 r)
    (mult_inv n res x y (S k)).
Proof.
  intros Ha Hb Hn Hk H1 H2 H3 Hcol (Hw & z & Hz & Hacc). destruct s as [result r]; simpl in *.
  pose proof (holds_range _ _ _ (upd_holds _ _ _ _ Hz)) as Hzr.
  pose proof (low_product_bound n x y k) as Hb1. pose proof (column_bound x y k from count) as Hb2.
  assert (acc r ≤ 4 * ULONG_MOD)%Z as Haccb.
  { pose proof (pw_pos k). unfold uECC_MAX_WORDS in Hn.
    assert (0 ≤ ULONG_MOD * pw k)%Z by (apply Z.mul_nonneg_nonneg; [done|lia]).
    assert (Z.of_nat n * (ULONG_MOD * pw k) ≤ 4 * (ULONG_MOD * pw k))%Z by (apply Z.mul_le_mono_nonneg_r; lia).
    apply Z.mul_le_mono_pos_l with (p := pw k); [done|]. lia. }
  assert (column x y k from count ≤ 4 * ((ULONG_MOD - 1) * (ULONG_MOD - 1)))%Z as Hcolb.
  { etrans; [apply Hb2|]. apply Z.mul_le_mono_nonneg_r; [done|]. unfold uECC_MAX_WORDS in Hn. lia. }
  eapply post_bind; [eapply (mult_column_spec n); [exact Ha|exact Hb|lia|lia|lia|done|]|].
  { change (pw 3) with (ULONG_MOD * (ULONG_MOD * ULONG_MOD))%Z. unfold ULONG_MOD in *. lia. }
  intros [[r0 r1] r2] [Hw' Hacc']. rewrite /mult_store.
  eapply post_bind; [eapply post_oset; [rewrite (upd_length _ _ _ _ Hz); lia|exact (eq_refl _)]|].
  intros result' <-. rewrite Nat2Z.id. destruct Hw' as (Hr0 & Hr1 & Hr2).
  split; [by split_and!|]. exists (z + pw k * r0)%Z. split; [by apply upd_step|].
  rewrite Hcol -Hacc. rewrite /acc /= in Hacc' |- *. rewrite pw_S. lia.
Qed.

Lemma uECC_vli_mult_spec n res a b x y :
  holds n a x → holds n b y → 0 < n ≤ uECC_MAX_WORDS → 2 * n ≤ length res →
  post (uECC_vli_mult res a b n) (upd (2 * n) res (x * y)).
Proof.
  intros Ha Hb [Hn0 Hn] Hres. pose proof (holds_range _ _ _ Ha) as Hx. pose proof (holds_range _ _ _ Hb) as Hy.
  rewrite /uECC_vli_mult.
  eapply post_bind with (Ψ := mult_inv n res x y n).
  { apply post_ofor with (I := λ i s, (0 ≤ i)%Z ∧ mult_inv n res x y (Z.to_nat i) s).
    - split; [done|]. split; [done|]. exists 0%Z. split; [apply upd_0|]. by rewrite low_product_0.
    - intros i [result r] Hi [_ Hinv]. destruct (Z_of_nat_complete i) as [k ->]; [lia|].
      rewrite to_nat_S; [|lia]. rewrite !Nat2Z.id in Hinv |- *.
      eapply post_mono; [eapply (mult_step n res a b x y k 0 _ (result, r) Ha Hb Hn)|].
      all: try lia.
      + apply low_product_column_low. lia.
      + exact Hinv.
      + intros s Hs. split; [lia|done].
    - intros s [_ Hs]. by rewrite Z.add_0_l Nat2Z.id in Hs. }
  intros [result1 r1] H1.
  eapply post_bind with (Ψ := mult_inv n res x y (2 * n - 1)).
  { apply post_ofor with (I := λ i s, (Z.of_nat n ≤ i)%Z ∧ mult_inv n res x y (Z.to_nat i) s).
    - by rewrite Nat2Z.id.
    - intros i [result r] Hi [_ Hinv]. destruct (Z_of_nat_complete i) as [k ->]; [lia|].
      rewrite to_nat_S; [|lia]. rewrite !Nat2Z.id in Hinv |- *.
      replace (Z.of_nat k + 1 - Z.of_nat n)%Z with (Z.of_nat (k + 1 - n)) by lia.
      replace (Z.to_nat (Z.of_nat n - Z.of_nat (k + 1 - n))) with (n - (k + 1 - n)) by lia.
      eapply post_mono; [eapply (mult_step n res a b x y k _ _ (result, r) Ha Hb Hn)|].
      all: try lia.
      + apply low_product_column_high; [done|lia|lia].
      + exact Hinv.
      + intros s Hs. split; [lia|done].
    - intros s [_ Hs]. by replace (Z.to_nat (Z.of_nat n + Z.of_nat (n - 1))) with (2 * n - 1) in Hs by lia. }
  intros [result2 r2] (Hw & z & Hz & Hacc). rewrite (low_product_all n x y) // in Hacc. cbn [fst snd] in Hw, Hz, Hacc |- *.
  pose proof (holds_range _ _ _ (upd_holds _ _ _ _ Hz)) as Hzr.
  assert (acc r2 < ULONG_MOD)%Z as Hlt.
  { assert (x * y < pw n * pw n)%Z by (apply Z.mul_lt_mono_nonneg; lia).
    apply Z.mul_lt_mono_pos_l with (p := pw (2 * n - 1)); [done|].
    rewrite -pw_S. replace (S (2 * n - 1)) with (n + n) by lia. rewrite pw_add. lia. }
  destruct r2 as [[r0 r1'] r2']. destruct Hw as ([? ?] & [? ?] & [? ?]).
  unfold acc in *. cbn [fst snd] in *.
  assert (r1' = 0 ∧ r2' = 0)%Z as [-> ->] by (unfold ULONG_MOD in *; lia).
  apply post_oset; [rewrite (upd_length _ _ _ _ Hz); lia|].
  replace (Z.to_nat (Z.of_nat n * 2 - 1)) with (2 * n - 1) by lia.
  replace (2 * n) with (S (2 * n - 1)) at 1 by lia. replace (x * y)%Z with (z + pw (2 * n - 1) * r0)%Z by lia.
  apply upd_step; [done|lia|done].
Qed.
