(* ===== verification/VliMod.v ===== *)
(** * VliMod: the modular arithmetic of lib/ecc/uECC.c

    Addition and subtraction below the modulus, the restoring division of
    [uECC_vli_mmod], products modulo any modulus of full width, and the binary
    extended gcd of [uECC_vli_modInv], which ends and inverts modulo every odd
    modulus. *)
From stdpp Require Import base list numbers ssreflect.
From S2P Require Import Prelude Memory Outcome Digits Vli.

(** ** The operations *)

Definition uECC_vli_modAdd (result left right mod_ : array Z) (num_words : nat) : outcome (array Z) :=
  '(result, carry) ← uECC_vli_add result left right num_words;
  reduce ← (if negb (carry =? 0)%Z then Ok true
            else c ← uECC_vli_cmp_unsafe mod_ result num_words; Ok (negb (c =? 1)%Z));
  if (reduce : bool) then '(result, _) ← uECC_vli_sub result result mod_ num_words; Ok result
  else Ok result.

Definition uECC_vli_modSub (result left right mod_ : array Z) (num_words : nat) : outcome (array Z) :=
  '(result, l_borrow) ← uECC_vli_sub result left right num_words;
  if negb (l_borrow =? 0)%Z then '(result, _) ← uECC_vli_add result result mod_ num_words; Ok result
  else Ok result.

(** [mod_multiple = mod << shift]. *)
Definition mmod_multiple (mod_ : array Z) (word_shift bit_shift : Z) (num_words : nat) : outcome (array Z) :=
  mod_multiple ← uECC_vli_clear (local_vli (2 * uECC_MAX_WORDS)) (Z.to_nat word_shift);
  if (bit_shift >? 0)%Z then
    r ← ofor num_words 0 (λ index '(mod_multiple, carry),
      w ← oget mod_ index;
      mod_multiple ← oset mod_multiple (word_shift + index)%Z (Z.lor (u64 (Z.shiftl w bit_shift)) carry);
      Ok (mod_multiple, Z.shiftr w (64 - bit_shift))) (mod_multiple, 0%Z);
    Ok r.1
  else at_offset (Z.to_nat word_shift) (λ a, uECC_vli_set a mod_ num_words) mod_multiple.

(** [mod_multiple >>= 1] on all [2 * num_words] words. *)
Definition mmod_halve (mod_multiple : array Z) (num_words : nat) : outcome (array Z) :=
  let n := Z.of_nat num_words in
  mod_multiple ← uECC_vli_rshift1 mod_multiple num_words;
  lo ← oget mod_multiple (n - 1)%Z;
  hi ← oget mod_multiple n;
  mod_multiple ← oset mod_multiple (n - 1)%Z (Z.lor lo (u64 (Z.shiftl hi 63)));
  at_offset num_words (λ a, uECC_vli_rshift1 a num_words) mod_multiple.

(** The subtraction runs from [v[index]] to [v[1 - index]]; the index moves when nothing was
    borrowed. *)
Definition mmod_round (num_words : nat) (s : array Z * (array Z * array Z) * Z) :
    outcome (array Z * (array Z * array Z) * Z) :=
  let '(mod_multiple, (tmp, product), index) := s in
  '(v, borrow) ←
    (if (index =? 0)%Z then
       '(product, borrow) ← vli_chain diff_word false false product tmp mod_multiple (2 * num_words);
       Ok ((tmp, product), borrow)
     else
       '(tmp, borrow) ← vli_chain diff_word false false tmp product mod_multiple (2 * num_words);
       Ok ((tmp, product), borrow));
  let index := Z.b2z (Z.lxor index borrow =? 0)%Z in
  mod_multiple ← mmod_halve mod_multiple num_words;
  Ok (mod_multiple, v, index).

Definition uECC_vli_mmod (result product mod_ : array Z) (num_words : nat) : outcome (array Z * array Z) :=
  num_bits ← uECC_vli_numBits mod_ num_words;
  let shift := bitcount_t (Z.of_nat num_words * 2 * 64 - num_bits) in
  let word_shift := wordcount_t (Z.quot shift 64) in
  let bit_shift := wordcount_t (Z.rem shift 64) in
  mod_multiple ← mmod_multiple mod_ word_shift bit_shift num_words;
  '(_, (tmp, product), index) ← ofor (Z.to_nat (shift + 1)) 0 (λ _ s, mmod_round num_words s)
    (mod_multiple, (local_vli (2 * uECC_MAX_WORDS), product), 1%Z);
  result ← uECC_vli_set result (if (index =? 0)%Z then tmp else product) num_words;
  Ok (result, product).

Definition uECC_vli_modMult (result left right mod_ : array Z) (num_words : nat) : outcome (array Z) :=
  product ← uECC_vli_mult (local_vli (2 * uECC_MAX_WORDS)) left right num_words;
  r ← uECC_vli_mmod result product mod_ num_words;
  Ok r.1.

Definition HIGH_BIT_SET : Z := 0x8000000000000000.

Definition EVEN (vli : array Z) : outcome bool := w ← oget vli 0; Ok (Z.land w 1 =? 0)%Z.

Definition vli_modInv_update (uv mod_ : array Z) (num_words : nat) : outcome (array Z) :=
  even ← EVEN uv;
  '(uv, carry) ← (if (even : bool) then Ok (uv, 0%Z) else uECC_vli_add uv uv mod_ num_words);
  uv ← uECC_vli_rshift1 uv num_words;
  if negb (carry =? 0)%Z then
    let i := (Z.of_nat num_words - 1)%Z in
    w ← oget uv i; oset uv i (Z.lor w HIGH_BIT_SET)
  else Ok uv.

(** The branches that halve [a] and [u], and that subtract [b] and [v] from them first. *)
Definition modInv_halve (a u mod_ : array Z) (num_words : nat) : outcome (array Z * array Z) :=
  a ← uECC_vli_rshift1 a num_words;
  u ← vli_modInv_update u mod_ num_words;
  Ok (a, u).

Definition modInv_subtract (a b u v mod_ : array Z) (num_words : nat) : outcome (array Z * array Z) :=
  '(a, _) ← uECC_vli_sub a a b num_words;
  a ← uECC_vli_rshift1 a num_words;
  c ← uECC_vli_cmp_unsafe u v num_words;
  '(u, _) ← (if (c <? 0)%Z then uECC_vli_add u u mod_ num_words else Ok (u, 0%Z));
  '(u, _) ← uECC_vli_sub u u v num_words;
  u ← vli_modInv_update u mod_ num_words;
  Ok (a, u).

Definition modInv_state : Type := (array Z * array Z) * (array Z * array Z).

Definition modInv_round (mod_ : array Z) (num_words : nat) (s : modInv_state) :
    outcome (modInv_state + array Z) :=
  let '((a, u), (b, v)) := s in
  cmpResult ← uECC_vli_cmp_unsafe a b num_words;
  if (cmpResult =? 0)%Z then Ok (inr u)
  else
    even_a ← EVEN a;
    if (even_a : bool) then au ← modInv_halve a u mod_ num_words; Ok (inl (au, (b, v)))
    else
      even_b ← EVEN b;
      if (even_b : bool) then bv ← modInv_halve b v mod_ num_words; Ok (inl ((a, u), bv))
      else if (cmpResult >? 0)%Z then
        au ← modInv_subtract a b u v mod_ num_words; Ok (inl (au, (b, v)))
      else
        bv ← modInv_subtract b a v u mod_ num_words; Ok (inl ((a, u), bv)).

(** Every round halves [a] or [b], which have [64 * num_words] bits each. *)
Definition uECC_vli_modInv (result input mod_ : array Z) (num_words : nat) : outcome (array Z) :=
  zero ← uECC_vli_isZero input num_words;
  if negb (zero =? 0)%Z then uECC_vli_clear result num_words
  else
    let fresh := local_vli uECC_MAX_WORDS in
    a ← uECC_vli_set fresh input num_words;
    b ← uECC_vli_set fresh mod_ num_words;
    u ← uECC_vli_clear fresh num_words;
    u ← oset u 0 1%Z;
    v ← uECC_vli_clear fresh num_words;
    u ← owhile (128 * num_words) (modInv_round mod_ num_words) ((a, u), (b, v));
    uECC_vli_set result u num_words.

(** ** Sums and differences below the modulus *)
(** It is enough that one subtraction makes the sum small. *)
Lemma uECC_vli_modAdd_sum n res a b md x y m :
  holds n a x → holds n b y → holds n md m → n ≤ length res → (x + y < 2 * m)%Z →
  post (uECC_vli_modAdd res a b md n) (upd n res ((x + y) mod m)).
Proof.
  intros Ha Hb Hm Hn Hxy. pose proof (holds_range _ _ _ Ha) as Hxr.
  pose proof (holds_range _ _ _ Hb) as Hyr. pose proof (holds_range _ _ _ Hm) as Hmr.
  eapply post_bind; [by apply uECC_vli_add_spec|]. intros [r c] [Hr ->].
  eapply post_bind with (Ψ := λ b, b = (m <=? x + y)%Z).
  - destruct (Z.leb_spec (pw n) (x + y)); simpl; [by rewrite (proj2 (Z.leb_le _ _)); [|lia]|].
    rewrite (uECC_vli_cmp_unsafe_spec _ _ _ _ _ Hm (upd_holds _ _ _ _ Hr)) /= cmp_sign_1.
    rewrite Z.mod_small; [|lia]. by rewrite Z.leb_antisym.
  - intros ? ->. destruct (Z.leb_spec m (x + y)).
    + eapply post_bind; [apply uECC_vli_sub_spec; [exact (upd_holds _ _ _ _ Hr)|exact Hm|by rewrite (upd_length _ _ _ _ Hr)]|].
      intros [r' c'] [Hr' _]. simpl. eapply upd_trans; [exact Hr|].
      rewrite Zminus_mod_idemp_l in Hr'. rewrite -(Z.mod_unique (x + y) m 1 (x + y - m)); [|lia|lia].
      by rewrite Z.mod_small in Hr'; [|lia].
    + simpl. rewrite Z.mod_small in Hr; [|lia]. by rewrite Z.mod_small; [|lia].
Qed.

Lemma uECC_vli_modAdd_spec n res a b md x y m :
  holds n a x → holds n b y → holds n md m → n ≤ length res → (x < m)%Z → (y < m)%Z →
  post (uECC_vli_modAdd res a b md n) (upd n res ((x + y) mod m)).
Proof. intros. apply uECC_vli_modAdd_sum; [done..|lia]. Qed.

Lemma uECC_vli_modSub_spec n res a b md x y m :
  holds n a x → holds n b y → holds n md m → n ≤ length res → (x < m)%Z → (y < m)%Z →
  post (uECC_vli_modSub res a b md n) (upd n res ((x - y) mod m)).
Proof.
  intros Ha Hb Hm Hn Hx Hy. pose proof (holds_range _ _ _ Ha) as Hxr.
  pose proof (holds_range _ _ _ Hb) as Hyr. pose proof (holds_range _ _ _ Hm) as Hmr.
  eapply post_bind; [by apply uECC_vli_sub_spec|]. intros [r c] [Hr ->].
  destruct (Z.ltb_spec x y).
  - eapply post_bind; [apply uECC_vli_add_spec; [exact (upd_holds _ _ _ _ Hr)|exact Hm|by rewrite (upd_length _ _ _ _ Hr)]|].
    intros [r' c'] [Hr' _]. simpl. eapply upd_trans; [exact Hr|].
    rewrite Zplus_mod_idemp_l in Hr'. rewrite -(Z.mod_unique (x - y) m (-1) (x - y + m)); [|lia|lia].
    by rewrite Z.mod_small in Hr'; [|lia].
  - simpl. rewrite Z.mod_small in Hr; [|lia]. by rewrite Z.mod_small; [|lia].
Qed.

(** ** The restoring division *)
Lemma dig_shift x s i :
  (0 ≤ s < 64)%Z →
  dig (x * 2 ^ s) i =
  Z.lor (u64 (Z.shiftl (dig x i) s)) (match i with O => 0 | S j => Z.shiftr (dig x j) (64 - s) end).
Proof.
  intros Hs. apply Z.bits_inj'. intros k Hk. rewrite Z.lor_spec dig_testbit // /u64.
  change ULONG_MOD with (2 ^ 64)%Z. rewrite -Z.shiftl_mul_pow2; [|lia].
  destruct (Z.ltb_spec k 64); simpl.
  - rewrite Z.mod_pow2_bits_low // !Z.shiftl_spec; [|lia..].
    destruct (Z.lt_ge_cases k s).
    + rewrite (Z.testbit_neg_r (dig x i)) /=; [|lia]. destruct i as [|j].
      * rewrite Z.bits_0 Z.testbit_neg_r //. lia.
      * rewrite Z.shiftr_spec // dig_testbit; [|lia]. rewrite (proj2 (Z.ltb_lt _ _)); [|lia].
        simpl. f_equal. lia.
    + rewrite dig_testbit; [|lia]. rewrite (proj2 (Z.ltb_lt _ _)) /=; [|lia].
      replace (k - s + 64 * Z.of_nat i)%Z with (k + 64 * Z.of_nat i - s)%Z by lia.
      destruct i as [|j]; [by rewrite Z.bits_0 orb_false_r|].
      rewrite Z.shiftr_spec // (dig_testbit x j); [|lia]. rewrite (proj2 (Z.ltb_ge _ _)); [|lia].
      by rewrite orb_false_r.
  - rewrite Z.mod_pow2_bits_high //. destruct i as [|j]; [by rewrite Z.bits_0|].
    rewrite Z.shiftr_spec // dig_testbit; [|lia]. by rewrite (proj2 (Z.ltb_ge _ _)); [|lia].
Qed.

(** The modulus is shifted up until it has its highest bit at the top of [2 n] words. *)
Lemma mmod_multiple_spec n md m s :
  holds n md m → n ≤ uECC_MAX_WORDS → (0 ≤ s < 64)%Z → (m * 2 ^ s < pw n)%Z →
  post (mmod_multiple md (Z.of_nat n) s n) (λ a, holds (n + n) a (pw n * (m * 2 ^ s))).
Proof.
  intros Hm Hn Hs Hlt. rewrite /mmod_multiple Nat2Z.id.
  pose proof (holds_range _ _ _ Hm) as Hmr. assert (0 ≤ m * 2 ^ s)%Z as Hm0 by
    (apply Z.mul_nonneg_nonneg; [lia|by apply Z.pow_nonneg]).
  eapply post_bind; [apply uECC_vli_clear_spec; rewrite length_replicate; lia|].
  intros a Ha. assert (length a = 2 * uECC_MAX_WORDS) as Hla by
    by rewrite (upd_length _ _ _ _ Ha) length_replicate.
  rewrite Z.gtb_ltb. destruct (Z.ltb_spec 0 s).
  - eapply post_bind with (Ψ := λ r, holds (n + n) r.1 (0 + pw n * (m * 2 ^ s))); [|by intros].
    apply post_ofor with (I := λ i '(b, carry), length b = 2 * uECC_MAX_WORDS ∧ holds n b 0 ∧
      (∀ j, j < Z.to_nat i → b !! (n + j) = Some (Some (dig (m * 2 ^ s) j))) ∧
      carry = match Z.to_nat i with O => 0%Z | S j => Z.shiftr (dig m j) (64 - s) end).
    + split_and!; [done|apply Ha|lia|done].
    + intros i [b carry] Hi (Hlb & Hb0 & Hb & ->).
      eapply post_bind; [eapply post_dig; [exact Hm|lia|]; exact (eq_refl _)|]. intros w <-.
      eapply post_bind; [eapply post_oset; [lia|exact (eq_refl _)]|]. intros b' <-.
      rewrite to_nat_S; [|lia]. replace (Z.to_nat (Z.of_nat n + i)) with (n + Z.to_nat i) by lia.
      rewrite -dig_shift //. split_and!; [by rewrite length_insert| | |done].
      * eapply holds_ext; [exact Hb0|]. intros j Hj. rewrite list_lookup_insert_ne //. lia.
      * intros j Hj. destruct (decide (j = Z.to_nat i)) as [->|].
        -- rewrite list_lookup_insert_eq //. lia.
        -- rewrite list_lookup_insert_ne; [|lia]. apply Hb. lia.
    + intros [b carry] (Hlb & Hb0 & Hb & _). rewrite Z.add_0_l Nat2Z.id in Hb. simpl.
      apply holds_glue; [done|]. split; [done|]. intros i Hi. rewrite lookup_drop. by apply Hb.
  - assert (s = 0%Z) as -> by lia. rewrite Z.mul_1_r.
    eapply post_at_offset; [lia|eapply uECC_vli_set_spec; [exact Hm|rewrite length_drop; lia]|].
    intros b Hb. apply upd_at_offset in Hb as (Hb & _ & Ht & _); [|lia].
    replace (pw n * m)%Z with (0 + pw n * m)%Z by lia. apply holds_glue; [|done].
    apply (holds_take_l n n); [done|]. rewrite Ht. apply holds_take_l; [done|]. apply Ha.
Qed.

Lemma mmod_halve_spec n a M :
  holds (n + n) a M → 0 < n → post (mmod_halve a n) (λ b, holds (n + n) b (M / 2) ∧ length b = length a).
Proof.
  intros Ha Hn. pose proof (holds_split _ _ _ _ Ha) as [Hlo Hhi].
  pose proof (holds_length _ _ _ Ha) as Hla.
  eapply post_bind; [by apply uECC_vli_rshift1_spec|]. intros b Hb.
  pose proof (upd_length _ _ _ _ Hb) as Hlb. destruct Hb as ([_ Hb] & _ & Hd).
  eapply post_bind; [eapply post_oget; [lia|apply Hb; lia|exact (eq_refl _)]|]. intros lo <-.
  assert (b !! (n + 0) = Some (Some (dig (M / pw n) 0))) as Hbn.
  { rewrite -lookup_drop Hd. by apply (holds_lookup _ _ _ _ Hhi). }
  rewrite Nat.add_0_r in Hbn.
  eapply post_bind; [eapply post_oget; [lia|by rewrite Nat2Z.id|exact (eq_refl _)]|].
  intros hi <-. eapply post_bind; [eapply post_oset; [lia|exact (eq_refl _)]|]. intros c <-.
  replace (Z.to_nat (Z.of_nat n - 1)) with (n - 1) by lia.
  assert (∀ i, i < n - 1 → dig (M mod pw n / 2) i = dig (M / 2) i) as Hlow.
  { intros i Hi. by rewrite !dig_half !dig_mod; [|lia..]. }
  assert (Z.lor (dig (M mod pw n / 2) (n - 1)) (u64 (Z.shiftl (dig (M / pw n) 0) 63)) = dig (M / 2) (n - 1)) as Htop.
  { rewrite !dig_half dig_div. replace (S (n - 1)) with n by lia. rewrite Nat.add_0_r.
    rewrite (dig_small (M mod pw n) n) // dig_mod; [|lia]. by rewrite Z.lor_0_r. }
  rewrite Htop. set (c := <[n - 1 := _]> b).
  assert (length c = length b) as Hlc by by rewrite /c length_insert.
  assert (drop n c = drop n a) as Hdc by (rewrite /c drop_insert_lt //; lia).
  eapply post_at_offset; [lia|rewrite Hdc; by apply uECC_vli_rshift1_spec|].
  rewrite -Hdc. intros e He. apply upd_at_offset in He as ([_ He] & Hle & Ht & _); [|lia].
  split; [|lia]. split.
  - pose proof (holds_range _ _ _ Ha). split; [apply Z.div_pos; lia|apply Z.div_lt_upper_bound; lia].
  - intros i Hi. destruct (decide (i < n)).
    + rewrite -(lookup_take_lt _ n) // Ht lookup_take_lt // /c. destruct (decide (i = n - 1)) as [->|].
      * rewrite list_lookup_insert_eq //. lia.
      * rewrite list_lookup_insert_ne // Hb; [|lia]. rewrite Hlow //. lia.
    + replace i with (n + (i - n)) by lia. rewrite -lookup_drop He; [|lia].
      rewrite -dig_div. do 3 f_equal. rewrite !Z.div_div //; try (pose proof (pw_pos n); lia).
      f_equal. lia.
Qed.

(** The state of the division after [j] of its [S + 1] rounds: [cur] is the array that [index]
    selects. *)
Definition mmod_cur (s : array Z * (array Z * array Z) * Z) : array Z :=
  if (s.2 =? 0)%Z then s.1.2.1 else s.1.2.2.

Definition mmod_inv (n : nat) (x m S j : Z) (k1 k2 : nat) (s : array Z * (array Z * array Z) * Z) : Prop :=
  (s.2 = 0 ∨ s.2 = 1)%Z ∧ length s.1.2.1 = k1 ∧ length s.1.2.2 = k2 ∧
  holds (n + n) s.1.1 (m * 2 ^ S / 2 ^ j) ∧
  ∃ r, holds (n + n) (mmod_cur s) r ∧ (r < m * 2 ^ (S + 1 - j))%Z ∧ (r mod m = x mod m)%Z.

Lemma mmod_round_spec n x m S j k1 k2 s :
  0 < n → (0 < m)%Z → (0 ≤ j ≤ S)%Z → n + n ≤ k1 → n + n ≤ k2 →
  mmod_inv n x m S j k1 k2 s → post (mmod_round n s) (mmod_inv n x m S (j + 1) k1 k2).
Proof.
  intros Hn Hm Hj Hk1 Hk2. destruct s as [[mm [tmp product]] index]. rewrite /mmod_inv /mmod_cur /mmod_round.
  cbn [fst snd]. intros (Hidx & Hl1 & Hl2 & Hmm & r & Hr & Hrlt & Hrm).
  set (M := (m * 2 ^ (S - j))%Z). assert (0 < M)%Z as HM by (apply Z.mul_pos_pos; [|apply Z.pow_pos_nonneg]; lia).
  assert (m * 2 ^ S / 2 ^ j = M)%Z as HMe.
  { rewrite /M -{1}(Z.sub_add j S) Z.pow_add_r; [|lia..]. rewrite Z.mul_assoc Z.div_mul //.
    apply Z.pow_nonzero; lia. }
  assert (m * 2 ^ (S + 1 - j) = 2 * M)%Z as HM2.
  { replace (S + 1 - j)%Z with (Z.succ (S - j)) by lia. rewrite Z.pow_succ_r; [|lia]. rewrite /M. lia. }
  rewrite HMe in Hmm. rewrite HM2 in Hrlt. pose proof (holds_range _ _ _ Hr) as Hr0. pose proof (holds_range _ _ _ Hmm) as HMr.
  replace (2 * n) with (n + n) by lia.
  eapply post_bind with (Ψ := λ '(v, borrow), length v.1 = k1 ∧ length v.2 = k2 ∧
    borrow = Z.b2z (r <? M)%Z ∧
    holds (n + n) (if (index =? 0)%Z then v.2 else v.1) ((r - M) mod pw (n + n)) ∧
    (if (index =? 0)%Z then v.1 else v.2) = (if (index =? 0)%Z then tmp else product)).
  { destruct Hidx as [-> | ->]; simpl in *.
    - eapply post_bind; [apply (uECC_vli_sub_spec (n + n)); [exact Hr|exact Hmm|lia]|].
      intros [p c] [Hp ->]. pose proof (upd_length _ _ _ _ Hp). split_and!; try done; simpl; [lia|apply Hp].
    - eapply post_bind; [apply (uECC_vli_sub_spec (n + n)); [exact Hr|exact Hmm|lia]|].
      intros [p c] [Hp ->]. pose proof (upd_length _ _ _ _ Hp). split_and!; try done; simpl; [lia|apply Hp]. }
  intros [[v1 v2] borrow] (Hl1' & Hl2' & -> & Hnew & Hold). simpl in *.
  eapply post_bind; [by apply mmod_halve_spec|]. intros mm' [Hmm' _].
  split; [by destruct (Z.lxor index (Z.b2z (r <? M)) =? 0)%Z; [right|left]|]. cbn [fst snd].
  split_and!; [done|done| |].
  - by rewrite Z.pow_add_r; [|lia..]; rewrite Z.pow_1_r -Z.div_div ?HMe; [|apply Z.pow_nonzero; lia|lia].
  - replace (S + 1 - (j + 1))%Z with (S - j)%Z by lia. fold M.
    destruct (Z.ltb_spec r M).
    + exists r. split_and!; [|done|done]. destruct Hidx as [-> | ->]; simpl in *; by rewrite Hold.
    + exists (r - M)%Z. rewrite Z.mod_small in Hnew; [|lia]. split_and!; [|lia|].
      * destruct Hidx as [-> | ->]; done.
      * rewrite -Hrm /M. replace (r - m * 2 ^ (S - j))%Z with (r + - 2 ^ (S - j) * m)%Z by lia.
        by rewrite Z.mod_add; [|lia].
Qed.

(** The modulus has its highest bit in the highest word: [word_shift] is [num_words] then. *)
Definition full_width (n : nat) (m : Z) : Prop := (pw (n - 1) ≤ m < pw n)%Z.

Lemma full_width_nbits n m : 0 < n → full_width n m → (64 * (Z.of_nat n - 1) < nbits m ≤ 64 * Z.of_nat n)%Z.
Proof.
  intros Hn [Hlo Hhi]. pose proof (pw_pos (n - 1)). split.
  - rewrite nbits_pos; [|lia]. assert (64 * (Z.of_nat n - 1) ≤ Z.log2 m)%Z; [|lia].
    apply Z.log2_le_pow2; [lia|]. rewrite pw_2 in Hlo. by replace (Z.of_nat n - 1)%Z with (Z.of_nat (n - 1)) by lia.
  - rewrite pw_2 in Hhi. apply nbits_le; lia.
Qed.

Lemma uECC_vli_mmod_spec n res prod md x m :
  holds (2 * n) prod x → holds n md m → 0 < n ≤ uECC_MAX_WORDS → full_width n m → n ≤ length res →
  post (uECC_vli_mmod res prod md n) (λ '(r, p), upd n res (x mod m) r ∧ length p = length prod).
Proof.
  intros Hx Hm [Hn0 Hn] Hfull Hres. pose proof (full_width_nbits n m Hn0 Hfull) as Hbits.
  replace (2 * n) with (n + n) in Hx by lia. pose proof (holds_length _ _ _ Hx) as Hlp.
  destruct Hfull as [Hlo Hhi]. pose proof (pw_pos (n - 1)) as Hpw. unfold uECC_MAX_WORDS in Hn.
  rewrite /uECC_vli_mmod (uECC_vli_numBits_spec n md m) //; [|lia].
  set (S := (128 * Z.of_nat n - nbits m)%Z). set (s := (S - 64 * Z.of_nat n)%Z).
  assert (0 ≤ s < 64)%Z as Hs by lia.
  assert (S = s + Z.of_nat n * 64)%Z as HS by lia.
  simpl. rewrite {1 2 3}/bitcount_t sint_id; [|lia|lia].
  replace (Z.of_nat n * 2 * 64 - nbits m)%Z with S by lia.
  rewrite Z.quot_div_nonneg; [|lia..]. rewrite Z.rem_mod_nonneg; [|lia..].
  rewrite HS Z.div_add // Z.mod_add // Z.div_small // Z.mod_small // -HS Z.add_0_l.
  rewrite !{1}/wordcount_t !sint_id; [|lia..].
  eapply post_bind.
  { eapply mmod_multiple_spec; [done|done|done|].
    pose proof (nbits_bounds m ltac:(lia)) as [_ Hb].
    rewrite pw_2. replace (64 * Z.of_nat n)%Z with (nbits m + s)%Z by lia.
    rewrite Z.pow_add_r; [|lia|lia]. apply Z.mul_lt_mono_pos_r; [|done]. apply Z.pow_pos_nonneg; lia. }
  intros mm Hmm.
  assert (pw n * (m * 2 ^ s) = m * 2 ^ S)%Z as HmS.
  { rewrite HS Z.pow_add_r; [|lia..]. rewrite pw_2 (Z.mul_comm (Z.of_nat n)). lia. }
  rewrite HmS in Hmm.
  eapply post_bind with (Ψ := mmod_inv n x m S (S + 1) 8 (length prod)).
  { apply post_ofor with (I := λ j s, mmod_inv n x m S j 8 (length prod) s).
    - split_and!; [by right|done|done|by rewrite Z.div_1_r|]. exists x. rewrite /mmod_cur /=.
      split_and!; [done| |done]. pose proof (holds_range _ _ _ Hx) as Hxr.
      replace (S + 1 - 0)%Z with (Z.succ S) by lia. rewrite Z.pow_succ_r; [|lia].
      pose proof (nbits_bounds m ltac:(lia)) as [Hb _].
      assert (pw (n + n) = 2 ^ (nbits m - 1) * (2 * 2 ^ S))%Z as Hpe.
      { rewrite -Z.pow_succ_r; [|lia]. rewrite -Z.pow_add_r; [|lia..]. rewrite pw_2. f_equal. lia. }
      assert (0 < 2 ^ S)%Z by (apply Z.pow_pos_nonneg; lia). nia.
    - intros j st Hj. apply mmod_round_spec; lia.
    - intros st. by replace (0 + Z.of_nat (Z.to_nat (S + 1)))%Z with (S + 1)%Z by lia. }
  intros [[mm' [tmp product]] index] (_ & _ & Hl & _ & r & Hr & Hrlt & Hrm).
  rewrite Z.sub_diag Z.mul_1_r in Hrlt. pose proof (holds_range _ _ _ Hr) as Hr0.
  eapply post_bind; [eapply uECC_vli_set_spec; [|done]|].
  - rewrite /mmod_cur /= in Hr. eapply holds_take; [exact Hr|lia].
  - intros r' Hr'. split; [|done]. rewrite -Hrm. rewrite (Z.mod_small r (pw n)) in Hr'; [|lia].
    by rewrite (Z.mod_small r m); [|lia].
Qed.

Lemma uECC_vli_modMult_spec n res a b md x y m :
  holds n a x → holds n b y → holds n md m → 0 < n ≤ uECC_MAX_WORDS → full_width n m → n ≤ length res →
  post (uECC_vli_modMult res a b md n) (upd n res ((x * y) mod m)).
Proof.
  intros Ha Hb Hm Hn Hfull Hres.
  eapply post_bind; [apply uECC_vli_mult_spec; [exact Ha|exact Hb|done|rewrite length_replicate; lia]|].
  intros p Hp. eapply post_bind; [eapply uECC_vli_mmod_spec; [exact (upd_holds _ _ _ _ Hp)|exact Hm|done..]|].
  intros [r q] [Hr _]. exact Hr.
Qed.

(** ** The modular inverse *)
Lemma EVEN_spec n a x : holds n a x → 0 < n → EVEN a = Ok (Z.even x).
Proof.
  intros Ha Hn. apply post_eq. eapply post_bind; [eapply post_dig; [exact Ha|lia|]; exact (eq_refl _)|].
  intros w <-. simpl. f_equal. change 1%Z with (2 ^ 0)%Z. rewrite land_pow2 // dig_testbit //=.
  by rewrite Z.negb_odd.
Qed.

(** Half of [u] modulo the odd [m]. *)
Definition half_mod (u m h : Z) : Prop := (0 ≤ h < m ∧ (2 * h = u ∨ 2 * h = u + m))%Z.

Lemma even_half x : Z.even x = true → (2 * (x / 2) = x)%Z.
Proof. intros [k ->]%Z.even_spec. by rewrite (Z.mul_comm 2 k) Z.div_mul // Z.mul_comm. Qed.

Lemma top_bit n a h :
  0 < n → holds n a h → (h < pw n / 2)%Z →
  post (w ← oget a (Z.of_nat n - 1)%Z; oset a (Z.of_nat n - 1)%Z (Z.lor w HIGH_BIT_SET))
    (upd n a (h + pw n / 2)).
Proof.
  intros Hn Ha Hlt. pose proof (holds_range _ _ _ Ha) as Hh. pose proof (holds_length _ _ _ Ha) as Hl.
  eapply post_bind; [eapply post_dig; [exact Ha|lia|]; exact (eq_refl _)|]. intros w <-.
  replace (Z.to_nat (Z.of_nat n - 1)) with (n - 1) by lia.
  assert (pw n = pw (n - 1) * ULONG_MOD)%Z as Hpw by (rewrite -pw_S; f_equal; lia).
  assert (pw n / 2 = pw (n - 1) * 2 ^ 63)%Z as Hpw2.
  { rewrite Hpw. change ULONG_MOD with (2 ^ 63 * 2)%Z. by rewrite Z.mul_assoc Z.div_mul. }
  assert (h = h mod pw (n - 1) + pw (n - 1) * dig h (n - 1))%Z as He.
  { rewrite -mod_pw_S. replace (S (n - 1)) with n by lia. by rewrite Z.mod_small. }
  pose proof (mod_pw_bound h (n - 1)) as Hlow. pose proof (pw_pos (n - 1)) as Hp.
  pose proof (word_dig h (n - 1)) as [Hd _].
  assert (dig h (n - 1) < 2 ^ 63)%Z as Hd63 by (rewrite Hpw2 in Hlt; nia).
  change HIGH_BIT_SET with (Z.shiftl 1 63). rewrite lor_add_high // Z.mul_1_l.
  apply post_oset; [lia|]. replace (Z.to_nat (Z.of_nat n - 1)) with (n - 1) by lia.
  assert (upd (n - 1) a (h mod pw (n - 1)) a) as Hu.
  { split_and!; [|done|done]. eapply holds_take; [exact Ha|lia]. }
  assert (upd n a (h mod pw (n - 1) + pw (n - 1) * (dig h (n - 1) + 2 ^ 63)) (<[n - 1:=Some (dig h (n - 1) + 2 ^ 63)%Z]> a)) as Hu'.
  { replace n with (S (n - 1)) at 1 by lia. apply upd_step; [done|lia|].
    split; [lia|]. change ULONG_MOD with (2 ^ 63 + 2 ^ 63)%Z. lia. }
  by replace (h + pw n / 2)%Z with (h mod pw (n - 1) + pw (n - 1) * (dig h (n - 1) + 2 ^ 63))%Z by lia.
Qed.

Lemma pw_even n : 0 < n → (pw n = 2 * (pw n / 2))%Z.
Proof.
  intros Hn. symmetry. apply even_half. destruct n as [|n]; [lia|]. rewrite pw_S Z.even_mul. apply orb_true_r.
Qed.

Lemma vli_modInv_update_spec n uv md u m :
  0 < n → holds n uv u → holds n md m → Z.odd m = true → (u < m)%Z →
  post (vli_modInv_update uv md n) (λ r, ∃ h, upd n uv h r ∧ half_mod u m h).
Proof.
  intros Hn Hu Hm Hodd Hlt. pose proof (holds_range _ _ _ Hu) as Hur. pose proof (holds_range _ _ _ Hm) as Hmr.
  pose proof (holds_length _ _ _ Hu) as Hlu. pose proof (pw_even n Hn) as Hpe.
  rewrite /vli_modInv_update (EVEN_spec n uv u) //=. destruct (Z.even u) eqn:He; simpl.
  - eapply post_bind; [by apply uECC_vli_rshift1_spec|]. intros r Hr.
    exists (u / 2)%Z. split; [done|]. pose proof (even_half u He). split; [lia|by left].
  - assert (Z.even (u + m) = true) as He2 by by rewrite Z.even_add He -(Z.negb_odd m) Hodd.
    pose proof (even_half _ He2) as Hh.
    eapply post_bind; [eapply uECC_vli_add_spec; [exact Hu|exact Hm|done]|]. intros [s c] [Hs ->].
    eapply post_bind; [eapply uECC_vli_rshift1_spec; exact (upd_holds _ _ _ _ Hs)|]. intros r Hr.
    pose proof (upd_trans _ _ _ _ _ _ Hs Hr) as Hr'.
    destruct (Z.leb_spec (pw n) (u + m)); simpl.
    + rewrite -(Z.mod_unique (u + m) (pw n) 1 (u + m - pw n)) in Hr'; [|lia|lia].
      assert ((u + m - pw n) / 2 = (u + m) / 2 - pw n / 2)%Z as Hd.
      { symmetry. apply Z.div_unique with (r := 0%Z); lia. }
      rewrite Hd in Hr'. eapply post_mono; [eapply top_bit; [done|exact (upd_holds _ _ _ _ Hr')|lia]|].
      intros e He3. exists ((u + m) / 2)%Z. rewrite Z.sub_add in He3.
      split; [by eapply upd_trans|]. split; [lia|by right].
    + rewrite Z.mod_small in Hr'; [|lia]. exists ((u + m) / 2)%Z. split; [done|]. split; [lia|by right].
Qed.

(** *** The gcd that the rounds keep *)
Lemma gcd_half a b : Z.odd b = true → (Z.gcd (2 * a) b = Z.gcd a b)%Z.
Proof.
  intros Hb. apply Z.divide_antisym_nonneg; [apply Z.gcd_nonneg..| |].
  - apply Z.gcd_greatest; [|apply Z.gcd_divide_r].
    apply Z.gauss with (m := 2%Z); [apply Z.gcd_divide_l|].
    set (g := Z.gcd (2 * a) b). assert (g | b)%Z as Hgb by apply Z.gcd_divide_r.
    assert (Z.gcd g 2 | 2)%Z as H2 by apply Z.gcd_divide_r.
    assert (Z.gcd g 2 | b)%Z as H3 by (etrans; [apply Z.gcd_divide_l|done]).
    pose proof (Z.gcd_nonneg g 2). apply Z.divide_pos_le in H2 as H4; [|done].
    assert (Z.gcd g 2 = 0 ∨ Z.gcd g 2 = 1 ∨ Z.gcd g 2 = 2)%Z as [E|[E|E]] by lia; [| done |].
    + rewrite E in H2. apply Z.divide_0_l in H2. lia.
    + rewrite E in H3. destruct H3 as [q ->]. by rewrite Z.odd_mul andb_false_r in Hb.
  - apply Z.gcd_greatest; [|apply Z.gcd_divide_r]. apply Z.divide_mul_r, Z.gcd_divide_l.
Qed.

Lemma gcd_even_l a b : Z.even a = true → Z.odd (Z.gcd a b) = true → (Z.gcd (a / 2) b = Z.gcd a b)%Z.
Proof.
  intros Ha Hg. rewrite -{2}(even_half a Ha). symmetry. apply gcd_half.
  destruct (Z.odd b) eqn:Hb; [done|]. exfalso. rewrite -Z.negb_even in Hb. apply negb_false_iff in Hb.
  assert (2 | Z.gcd a b)%Z as [q Hq].
  { apply Z.gcd_greatest; apply Z.even_spec in Ha, Hb; [destruct Ha as [k ->]|destruct Hb as [k ->]]; by exists k; rewrite Z.mul_comm. }
  by rewrite Hq Z.odd_mul andb_false_r in Hg.
Qed.

Lemma gcd_sub_half a b :
  Z.odd a = true → Z.odd b = true → (Z.gcd ((a - b) / 2) b = Z.gcd a b)%Z.
Proof.
  intros Ha Hb. assert (Z.even (a - b) = true) as He by by rewrite Z.even_sub -!Z.negb_odd Ha Hb.
  rewrite -(gcd_half _ b Hb) (even_half _ He) Z.gcd_comm Z.gcd_sub_diag_r Z.gcd_comm.
  done.
Qed.

(** [u] and [v] are [a] and [b] divided by [x], modulo [m]. *)
Definition inv_num (x m a b u v : Z) : Prop :=
  (0 < a ∧ 0 < b ∧ 0 ≤ u < m ∧ 0 ≤ v < m ∧ (m | u * x - a) ∧ (m | v * x - b) ∧ Z.gcd a b = Z.gcd x m)%Z.

Lemma inv_num_swap x m a b u v : inv_num x m a b u v → inv_num x m b a v u.
Proof. intros (? & ? & ? & ? & ? & ? & ?). by rewrite /inv_num (Z.gcd_comm b). Qed.

Lemma half_divide x m a u h :
  Z.odd m = true → Z.even a = true → half_mod u m h → (m | u * x - a)%Z → (m | h * x - a / 2)%Z.
Proof.
  intros Hm Ha [_ Hh] Hd. apply Z.gauss with (m := 2%Z).
  - pose proof (even_half a Ha) as Ha2.
    replace (2 * (h * x - a / 2))%Z with (2 * h * x - a)%Z by lia.
    destruct Hh as [-> | ->]; [done|].
    replace ((u + m) * x - a)%Z with (u * x - a + x * m)%Z by lia.
    by apply Z.divide_add_r, Z.divide_factor_r.
  - rewrite Z.gcd_comm -(Z.mul_1_r 2) gcd_half //. apply Z.gcd_1_l.
Qed.

Lemma inv_num_halve x m a b u v h :
  Z.odd m = true → Z.even a = true → half_mod u m h → inv_num x m a b u v → inv_num x m (a / 2) b h v.
Proof.
  intros Hm Ha Hh (Ha0 & Hb & Hu & Hv & Hd & Hdv & Hg). pose proof (even_half a Ha). destruct Hh as [? ?].
  split_and!; try done; try lia.
  - apply (half_divide x m a u h); [done|done|by split|done].
  - rewrite gcd_even_l // Hg. apply Z.odd_spec. pose proof (Z.gcd_divide_r x m) as [q Hq].
    rewrite Hq Z.odd_mul in Hm. apply andb_true_iff in Hm as [_ Hm]. by apply Z.odd_spec.
Qed.

Lemma inv_num_subtract x m a b u v h :
  Z.odd m = true → Z.odd a = true → Z.odd b = true → (b < a)%Z → half_mod ((u - v) mod m) m h →
  inv_num x m a b u v → inv_num x m ((a - b) / 2) b h v.
Proof.
  intros Hm Ha Hb Hlt Hh (Ha0 & Hb0 & Hu & Hv & Hd & Hdv & Hg).
  assert (Z.even (a - b) = true) as He by by rewrite Z.even_sub -!Z.negb_odd Ha Hb.
  pose proof (even_half _ He). split_and!; try done; try lia; try apply Hh.
  - apply (half_divide x m _ _ h Hm He Hh). pose proof (Z.div_mod (u - v) m ltac:(lia)) as Hq.
    replace ((u - v) mod m)%Z with (u - v - m * ((u - v) / m))%Z by lia.
    replace ((u - v - m * ((u - v) / m)) * x - (a - b))%Z
      with (u * x - a - (v * x - b) - (u - v) / m * x * m)%Z by lia.
    apply Z.divide_sub_r; [by apply Z.divide_sub_r|apply Z.divide_factor_r].
  - by rewrite gcd_sub_half.
Qed.

Lemma modInv_halve_spec n aa ua md a u m :
  0 < n → holds n aa a → holds n ua u → holds n md m → Z.odd m = true → (u < m)%Z →
  post (modInv_halve aa ua md n) (λ '(a', u'), holds n a' (a / 2) ∧ ∃ h, holds n u' h ∧ half_mod u m h).
Proof.
  intros Hn Ha Hu Hm Hodd Hlt. eapply post_bind; [by apply uECC_vli_rshift1_spec|]. intros a' Ha'.
  eapply post_bind; [by eapply vli_modInv_update_spec|]. intros u' (h & Hu' & Hh).
  split; [apply Ha'|]. exists h. split; [apply Hu'|done].
Qed.

Lemma modInv_subtract_spec n aa ba ua va md a b u v m :
  0 < n → holds n aa a → holds n ba b → holds n ua u → holds n va v → holds n md m → Z.odd m = true →
  (b < a)%Z → (u < m)%Z → (v < m)%Z →
  post (modInv_subtract aa ba ua va md n)
    (λ '(a', u'), holds n a' ((a - b) / 2) ∧ ∃ h, holds n u' h ∧ half_mod ((u - v) mod m) m h).
Proof.
  intros Hn Ha Hb Hu Hv Hm Hodd Hba Hum Hvm.
  pose proof (holds_range _ _ _ Ha). pose proof (holds_range _ _ _ Hb). pose proof (holds_range _ _ _ Hu).
  pose proof (holds_range _ _ _ Hv). pose proof (holds_range _ _ _ Hm).
  eapply post_bind; [eapply uECC_vli_sub_spec; [exact Ha|exact Hb|by eapply holds_length]|]. intros [a1 c1] [Ha1 _].
  rewrite Z.mod_small in Ha1; [|lia].
  eapply post_bind; [eapply uECC_vli_rshift1_spec, Ha1|]. intros a2 Ha2.
  rewrite (uECC_vli_cmp_unsafe_spec _ _ _ _ _ Hu Hv) {1}/mbind {1}/outcome_bind cmp_sign_neg.
  eapply post_bind with (Ψ := λ r : array Z * Z, holds n r.1 (if u <? v then (u + m) mod pw n else u)%Z).
  { destruct (u <? v)%Z; [|done].
    eapply post_mono; [eapply uECC_vli_add_spec; [exact Hu|exact Hm|by eapply holds_length]|].
    intros [u1 c] [Hu1 _]. apply Hu1. }
  intros [u1 c] Hu1.
  eapply post_bind; [eapply uECC_vli_sub_spec; [exact Hu1|exact Hv|by eapply holds_length]|]. intros [u2 c2] [Hu2 _].
  assert (holds n u2 ((u - v) mod m)) as Hu3.
  { destruct (Z.ltb_spec u v).
    - destruct Hu2 as [Hu2 _]. rewrite Zminus_mod_idemp_l Z.mod_small in Hu2; [|lia].
      rewrite -(Z.mod_unique (u - v) m (-1) (u - v + m)); [|lia|lia].
      by replace (u - v + m)%Z with (u + m - v)%Z by lia.
    - destruct Hu2 as [Hu2 _]. rewrite Z.mod_small in Hu2; [|lia]. by rewrite Z.mod_small; [|lia]. }
  eapply post_bind; [eapply (vli_modInv_update_spec n u2 md _ m Hn Hu3 Hm Hodd); apply Z.mod_pos_bound; lia|].
  intros u' (h & Hu' & Hh). split; [apply Ha2|]. exists h. split; [apply Hu'|done].
Qed.

(** The state of the loop, and the measure of its termination. *)
Definition modInv_inv (n : nat) (x m : Z) (s : modInv_state) (a b : Z) : Prop :=
  ∃ u v, holds n s.1.1 a ∧ holds n s.1.2 u ∧ holds n s.2.1 b ∧ holds n s.2.2 v ∧ inv_num x m a b u v.

Lemma log2_half a b : (0 < b)%Z → (2 * b ≤ a)%Z → (0 ≤ Z.log2 b < Z.log2 a)%Z.
Proof.
  intros Hb Hab. split; [apply Z.log2_nonneg|]. pose proof (Z.log2_le_mono (2 * b) a Hab) as H.
  rewrite Z.log2_double // in H. lia.
Qed.

Lemma modInv_round_spec n md x m s a b :
  0 < n → holds n md m → Z.odd m = true → modInv_inv n x m s a b →
  post (modInv_round md n s) (λ r, match r with
    | inl s' => ∃ a' b', modInv_inv n x m s' a' b' ∧ (Z.log2 a' + Z.log2 b' < Z.log2 a + Z.log2 b)%Z
    | inr ua => ∃ u, holds n ua u ∧ (u < m)%Z ∧ (m | u * x - Z.gcd x m)%Z
    end).
Proof.
  intros Hn Hm Hodd (u & v & Ha & Hu & Hb & Hv & Hinv).
  destruct s as [[aa ua] [ba va]]; cbn [fst snd] in *.
  pose proof Hinv as (Ha0 & Hb0 & Hur & Hvr & Hda & Hdb & Hg).
  rewrite /modInv_round (uECC_vli_cmp_unsafe_spec _ _ _ _ _ Ha Hb) {1}/mbind {1}/outcome_bind cmp_sign_0.
  destruct (Z.eqb_spec a b) as [->|Hne].
  { exists u. split_and!; [done|lia|]. by rewrite -Hg Z.gcd_diag Z.abs_eq; [|lia]. }
  rewrite (EVEN_spec n aa a) // {1}/mbind {1}/outcome_bind.
  destruct (Z.even a) eqn:Hea.
  { pose proof (even_half a Hea).
    eapply post_bind; [eapply (modInv_halve_spec n aa ua md a u m); done || lia|].
    intros [a' u'] (Ha' & h & Hu' & Hh). exists (a / 2)%Z, b. split.
    - exists h, v. split_and!; try done. by eapply inv_num_halve.
    - pose proof (log2_half a (a / 2)). lia. }
  rewrite (EVEN_spec n ba b) // {1}/mbind {1}/outcome_bind.
  destruct (Z.even b) eqn:Heb.
  { pose proof (even_half b Heb).
    eapply post_bind; [eapply (modInv_halve_spec n ba va md b v m); done || lia|].
    intros [b' v'] (Hb' & h & Hv' & Hh). exists a, (b / 2)%Z. split.
    - exists u, h. split_and!; try done. by eapply inv_num_swap, inv_num_halve, inv_num_swap.
    - pose proof (log2_half b (b / 2)). lia. }
  assert (Z.odd a = true ∧ Z.odd b = true) as [Hoa Hob] by by rewrite -!Z.negb_even Hea Heb.
  rewrite Z.gtb_ltb cmp_sign_pos. destruct (Z.ltb_spec b a) as [Hlt|Hge].
  - assert (Z.even (a - b) = true) as He%even_half by by rewrite Z.even_sub Hea Heb.
    eapply post_bind; [eapply (modInv_subtract_spec n aa ba ua va md a b u v m); done || lia|].
    intros [a' u'] (Ha' & h & Hu' & Hh). exists ((a - b) / 2)%Z, b. split.
    + exists h, v. split_and!; try done. by eapply inv_num_subtract.
    + pose proof (log2_half a ((a - b) / 2)). lia.
  - assert (Z.even (b - a) = true) as He%even_half by by rewrite Z.even_sub Hea Heb.
    eapply post_bind; [eapply (modInv_subtract_spec n ba aa va ua md b a v u m); done || lia|].
    intros [b' v'] (Hb' & h & Hv' & Hh). exists a, ((b - a) / 2)%Z. split.
    + exists u, h. split_and!; try done. apply inv_num_swap, (inv_num_subtract x m b a v u h); try done; [lia|].
      by apply inv_num_swap.
    + pose proof (log2_half b ((b - a) / 2)). lia.
Qed.

(** The inverse times the input is the gcd of the input and the modulus, modulo the modulus; the
    inverse of zero is zero. *)
Definition mod_inverse (x m r : Z) : Prop :=
  (0 ≤ r < m)%Z ∧ if (x =? 0)%Z then r = 0%Z else ((r * x) mod m = Z.gcd x m mod m)%Z.

Lemma log2_pw x n : (0 < x < pw n)%Z → 0 < n → (0 ≤ Z.log2 x ≤ 64 * Z.of_nat n - 1)%Z.
Proof.
  intros Hx Hn. split; [apply Z.log2_nonneg|]. rewrite pw_2 in Hx.
  assert (Z.log2 x < 64 * Z.of_nat n)%Z; [|lia]. apply Z.log2_lt_pow2; lia.
Qed.

Lemma modInv_loop n md x m s a b :
  0 < n → holds n md m → Z.odd m = true → modInv_inv n x m s a b →
  post (owhile (128 * n) (modInv_round md n) s)
    (λ ua, ∃ u, holds n ua u ∧ (u < m)%Z ∧ (m | u * x - Z.gcd x m)%Z).
Proof.
  intros Hn Hm Hodd Hinv.
  apply post_owhile_rel with (m := (Z.log2 a + Z.log2 b)%Z)
    (I := λ l s, ∃ a b, modInv_inv n x m s a b ∧ l = (Z.log2 a + Z.log2 b)%Z).
  - eauto.
  - destruct Hinv as (u & v & Ha & _ & Hb & _ & Ha0 & Hb0 & _).
    pose proof (holds_range _ _ _ Ha). pose proof (holds_range _ _ _ Hb).
    pose proof (log2_pw a n). pose proof (log2_pw b n). lia.
  - intros l s' (a' & b' & Hinv' & ->) _. eapply post_mono; [by eapply modInv_round_spec|].
    intros [s''|ua]; [|done]. intros (a'' & b'' & Hinv'' & Hlt). exists (Z.log2 a'' + Z.log2 b'')%Z.
    pose proof (Z.log2_nonneg a''). pose proof (Z.log2_nonneg b''). split; [eauto|lia].
Qed.

Lemma uECC_vli_modInv_spec n res input md x m :
  holds n input x → holds n md m → 0 < n ≤ uECC_MAX_WORDS → n ≤ length res → Z.odd m = true → (1 < m)%Z →
  post (uECC_vli_modInv res input md n) (λ b, ∃ r, upd n res r b ∧ mod_inverse x m r).
Proof.
  intros Hx Hm [Hn0 Hn] Hres Hodd Hm1. pose proof (holds_range _ _ _ Hx) as Hxr.
  rewrite /uECC_vli_modInv (uECC_vli_isZero_spec n input x) //= /mod_inverse.
  destruct (Z.eqb_spec x 0) as [->|Hx0]; simpl.
  { eapply post_mono; [by apply uECC_vli_clear_spec|]. intros b Hb. exists 0%Z. split; [done|]. lia. }
  assert (n ≤ length (local_vli uECC_MAX_WORDS)) as Hlen by by rewrite length_replicate.
  eapply post_bind; [by eapply uECC_vli_set_spec|]. intros a Ha.
  eapply post_bind; [by eapply uECC_vli_set_spec|]. intros b Hb.
  eapply post_bind; [by eapply uECC_vli_clear_spec|]. intros u Hu.
  eapply post_bind; [eapply post_oset; [rewrite (upd_length _ _ _ _ Hu); lia|exact (eq_refl _)]|]. intros u1 <-.
  eapply post_bind; [by eapply uECC_vli_clear_spec|]. intros v Hv.
  pose proof (holds_low_word n u 1 Hn0 (upd_holds _ _ _ _ Hu) ltac:(done)) as Hu1.
  eapply post_bind.
  { eapply (modInv_loop n md x m _ x m Hn0 Hm Hodd). exists 1%Z, 0%Z.
    split_and!; [apply Ha|done|apply Hb|apply Hv|]. split_and!; try lia; try done.
    - rewrite Z.mul_1_l Z.sub_diag. apply Z.divide_0_r.
    - rewrite Z.mul_0_l Z.sub_0_l. apply Z.divide_opp_r, Z.divide_refl. }
  intros ua (r & Hr & Hrm & Hd). pose proof (holds_range _ _ _ Hr).
  eapply post_mono; [eapply uECC_vli_set_spec; [exact Hr|done]|]. intros c Hc. exists r.
  split; [done|]. split; [lia|]. apply Z.mod_divide in Hd; [|lia].
  assert (Z.gcd x m mod m = (r * x - (r * x - Z.gcd x m)) mod m)%Z as -> by (f_equal; lia).
  by rewrite Zminus_mod Hd Z.sub_0_r Z.mod_mod; [|lia].
Qed.

Lemma uECC_vli_modInv_prime n res input md x m :
  holds n input x → holds n md m → 0 < n ≤ uECC_MAX_WORDS → n ≤ length res → Z.odd m = true → (1 < m)%Z →
  (Z.gcd x m = 1)%Z →
  post (uECC_vli_modInv res input md n) (λ b, ∃ r, upd n res r b ∧ (0 ≤ r < m ∧ (r * x) mod m = 1)%Z).
Proof.
  intros Hx Hm Hn Hres Hodd Hm1 Hg. eapply post_mono; [by eapply uECC_vli_modInv_spec|].
  intros b (r & Hr & Hrr & H). exists r. split; [done|]. split; [done|].
  destruct (Z.eqb_spec x 0) as [->|Hx0].
  - rewrite Z.gcd_0_l in Hg. lia.
  - rewrite Hg (Z.mod_small 1) in H; [done|lia].
Qed.
