(* ===== verification/VliBytes.v ===== *)
(** * VliBytes: numbers as byte strings, and random numbers, in lib/ecc/uECC.c

    [uECC_vli_nativeToBytes] and [uECC_vli_bytesToNative] convert between words and
    big-endian bytes; [uECC_generate_random_int] draws a number below a bound from
    the random number generator, whose pointer is a global of the library, and
    [default_RNG] (platform-specific.inc) reads a random device. *)
From stdpp Require Import base list numbers ssreflect.
From S2P Require Import Prelude Memory Outcome Digits Vli VliMod.

(** ** Conversions *)

Definition uECC_vli_nativeToBytes (bytes : array Z) (num_bytes : nat) (native : array Z) : outcome (array Z) :=
  ofor num_bytes 0 (λ i bytes,
    let b := (Z.of_nat num_bytes - 1 - i)%Z in
    w ← oget native (b / 8);
    oset bytes i (Z.shiftr w (8 * (b mod 8)) mod 256)%Z) bytes.

Definition uECC_vli_bytesToNative (native bytes : array Z) (num_bytes : nat) : outcome (array Z) :=
  native ← uECC_vli_clear native ((num_bytes + 7) / 8);
  ofor num_bytes 0 (λ i native,
    let b := (Z.of_nat num_bytes - 1 - i)%Z in
    x ← oget bytes i;
    w ← oget native (b / 8);
    oset native (b / 8) (Z.lor w (u64 (Z.shiftl x (8 * (b mod 8)))))%Z) native.

(** ** Random numbers *)

Definition uECC_RNG_MAX_TRIES : nat := 64.

(** What the [t]-th call of the generator gives for [size] bytes; [None] is the return value 0. *)
Definition uECC_RNG_Function : Type := nat → nat → option (list Z).

(** The global [g_rng_function] before and after the call. *)
Definition uECC_set_rng (g_rng_function rng_function : option uECC_RNG_Function) : option uECC_RNG_Function := rng_function.
Definition uECC_get_rng (g_rng_function : option uECC_RNG_Function) : option uECC_RNG_Function := g_rng_function.

(** The bytes [bs] stored at an array of words, the lowest byte of a word first. *)
Fixpoint le_bytes (bs : list Z) : Z :=
  match bs with [] => 0 | b :: bs => b + 256 * le_bytes bs end%Z.
Definition store_bytes (a : array Z) (bs : list Z) : outcome (array Z) :=
  ofor (length bs / 8) 0 (λ i a,
    oset a i (le_bytes (take 8 (drop (8 * Z.to_nat i) bs)))) a.

Fixpoint random_tries (tries : nat) (rng : uECC_RNG_Function) (t : nat) (random top : array Z)
    (num_words : nat) (num_bits : Z) : outcome (Z * array Z * nat) :=
  match tries with
  | O => Ok (0%Z, random, t)
  | S tries =>
      match rng t (num_words * 8) with
      | None => Ok (0%Z, random, S t)
      | Some bs =>
          random ← store_bytes random bs;
          let n := Z.of_nat num_words in
          w ← oget random (n - 1)%Z;
          let mask := Z.shiftr (ULONG_MOD - 1) (bitcount_t (n * 8 * 8 - num_bits)) in
          random ← oset random (n - 1)%Z (Z.land w mask);
          zero ← uECC_vli_isZero random num_words;
          cmp ← (if (zero =? 0)%Z then uECC_vli_cmp top random num_words else Ok 0%Z);
          if (cmp =? 1)%Z then Ok (1%Z, random, S t)
          else random_tries tries rng (S t) random top num_words num_bits
      end
  end.

Definition uECC_generate_random_int (rng : option uECC_RNG_Function) (t : nat) (random top : array Z)
    (num_words : nat) : outcome (Z * array Z * nat) :=
  num_bits ← uECC_vli_numBits top num_words;
  match rng with
  | None => Ok (0%Z, random, t)
  | Some rng => random_tries uECC_RNG_MAX_TRIES rng t random top num_words num_bits
  end.

(** ** Bytes of a number *)

Definition byte (b : Z) : Prop := (0 ≤ b < 256)%Z.
Definition byte_of (x : Z) (k : nat) : Z := ((x / 256 ^ Z.of_nat k) mod 256)%Z.
Definition pb (k : nat) : Z := (256 ^ Z.of_nat k)%Z.

(** The first [nb] bytes of [a] are the number [x], the highest byte first. *)
Definition holds_bytes (nb : nat) (a : array Z) (x : Z) : Prop :=
  (0 ≤ x < pb nb)%Z ∧ ∀ i, i < nb → a !! i = Some (Some (byte_of x (nb - 1 - i))).

Definition bytes_of (nb : nat) (x : Z) : array Z := (λ i, Some (byte_of x (nb - 1 - i))) <$> seq 0 nb.

Lemma pb_2 k : pb k = (2 ^ (8 * Z.of_nat k))%Z.
Proof. rewrite /pb. change 256%Z with (2 ^ 8)%Z. rewrite -Z.pow_mul_r //; lia. Qed.
Lemma pb_pos k : (0 < pb k)%Z.
Proof. apply Z.pow_pos_nonneg; lia. Qed.
#[export] Hint Resolve pb_pos : core.

Lemma pb_pw n : pb (8 * n) = pw n.
Proof. rewrite pb_2 pw_2. f_equal. lia. Qed.

Lemma pb_le i j : i ≤ j → (pb i ≤ pb j)%Z.
Proof. intros. apply Z.pow_le_mono_r; lia. Qed.

Lemma byte_byte_of x k : byte (byte_of x k).
Proof. by apply Z.mod_pos_bound. Qed.
#[export] Hint Resolve byte_byte_of : core.

Lemma byte_of_testbit x b k :
  (0 ≤ k)%Z → Z.testbit (byte_of x b) k = (k <? 8)%Z && Z.testbit x (k + 8 * Z.of_nat b).
Proof.
  intros Hk. rewrite /byte_of. rewrite -/(pb b) pb_2 -Z.shiftr_div_pow2; [|lia]. change 256%Z with (2 ^ 8)%Z.
  destruct (Z.ltb_spec k 8).
  - rewrite Z.mod_pow2_bits_low // Z.shiftr_spec //.
  - rewrite Z.mod_pow2_bits_high //.
Qed.

Lemma holds_bytes_of nb x : (0 ≤ x < pb nb)%Z → holds_bytes nb (bytes_of nb x) x.
Proof. intros Hx. split; [done|]. intros i Hi. by rewrite /bytes_of list_lookup_fmap lookup_seq_lt. Qed.

Lemma holds_bytes_length nb a x : holds_bytes nb a x → nb ≤ length a.
Proof.
  intros [_ H]. destruct nb as [|nb]; [lia|].
  assert (is_Some (a !! nb)) as ?%lookup_lt_is_Some; [|lia]. rewrite H; [eauto|lia].
Qed.

Lemma byte_of_mod x nb k : k < nb → byte_of (x mod pb nb) k = byte_of x k.
Proof.
  intros Hk. apply Z.bits_inj'. intros j Hj. rewrite !byte_of_testbit // pb_2.
  destruct (Z.ltb_spec j 8); [|done]. by rewrite Z.mod_pow2_bits_low; [|lia].
Qed.

(** Two byte strings with the same bytes are the same number. *)
Lemma byte_of_inj nb x y :
  (0 ≤ x < pb nb)%Z → (0 ≤ y < pb nb)%Z → (∀ k, k < nb → byte_of x k = byte_of y k) → x = y.
Proof.
  intros Hx Hy H. apply Z.bits_inj'. intros k Hk.
  destruct (Z.lt_ge_cases k (8 * Z.of_nat nb)) as [Hlt|Hge].
  - pose proof (Z.mod_pos_bound k 8 eq_refl). pose proof (Z.div_mod k 8 ltac:(done)).
    pose proof (Z.div_pos k 8 Hk eq_refl).
    assert (Z.testbit (byte_of x (Z.to_nat (k / 8))) (k mod 8) = Z.testbit (byte_of y (Z.to_nat (k / 8))) (k mod 8))
      as E by (rewrite H //; lia).
    rewrite !byte_of_testbit in E; [|lia..]. rewrite (proj2 (Z.ltb_lt _ _)) in E; [|lia]. simpl in E.
    by replace (k mod 8 + 8 * Z.of_nat (Z.to_nat (k / 8)))%Z with k in E by lia.
  - rewrite pb_2 in Hx, Hy. rewrite -(Z.mod_small x _ Hx) -(Z.mod_small y _ Hy) !Z.mod_pow2_bits_high //; lia.
Qed.

Lemma holds_bytes_inj nb a x y : holds_bytes nb a x → holds_bytes nb a y → x = y.
Proof.
  intros [Hx Ha] [Hy Hb]. apply (byte_of_inj nb); [done|done|]. intros k Hk.
  specialize (Ha (nb - 1 - k) ltac:(lia)). specialize (Hb (nb - 1 - k) ltac:(lia)).
  rewrite Ha in Hb. replace (nb - 1 - (nb - 1 - k)) with k in Hb by lia. congruence.
Qed.

Lemma native_byte x b : (0 ≤ b)%Z → (Z.shiftr (dig x (Z.to_nat (b / 8))) (8 * (b mod 8)) mod 256)%Z = byte_of x (Z.to_nat b).
Proof.
  intros Hb. apply Z.bits_inj'. intros k Hk. rewrite byte_of_testbit //.
  pose proof (Z.mod_pos_bound b 8 eq_refl). pose proof (Z.div_mod b 8 ltac:(done)). pose proof (Z.div_pos b 8 Hb eq_refl).
  change 256%Z with (2 ^ 8)%Z. destruct (Z.ltb_spec k 8).
  - rewrite Z.mod_pow2_bits_low // Z.shiftr_spec // dig_testbit; [|lia].
    rewrite (proj2 (Z.ltb_lt _ _)); [|lia]. simpl. f_equal. lia.
  - by rewrite Z.mod_pow2_bits_high.
Qed.

(** The bytes behind the first [nb] ones keep their values. *)
Definition upd_bytes (nb : nat) (a : array Z) (x : Z) (b : array Z) : Prop :=
  holds_bytes nb b x ∧ length b = length a ∧ drop nb b = drop nb a.

Lemma uECC_vli_nativeToBytes_spec n nb bytes native x :
  holds n native x → nb ≤ 8 * n → nb ≤ length bytes →
  post (uECC_vli_nativeToBytes bytes nb native) (upd_bytes nb bytes (x mod pb nb)).
Proof.
  intros Hx Hnb Hlen.
  apply post_ofor with (I := λ i b, (0 ≤ i)%Z ∧ length b = length bytes ∧ drop nb b = drop nb bytes ∧
    ∀ j, j < Z.to_nat i → b !! j = Some (Some (byte_of x (nb - 1 - j)))).
  - split_and!; [done|done|done|lia].
  - intros i b Hi (_ & Hl & Hd & Hb). set (k := (Z.of_nat nb - 1 - i)%Z).
    assert (0 ≤ k < Z.of_nat nb)%Z as Hk by lia.
    assert (0 ≤ k / 8 < Z.of_nat n)%Z as Hq by (split; [apply Z.div_pos|apply Z.div_lt_upper_bound]; lia).
    eapply post_bind; [eapply post_dig; [exact Hx|done|]; exact (eq_refl _)|]. intros w <-.
    rewrite native_byte; [|lia]. apply post_oset; [lia|].
    split_and!; [lia|by rewrite length_insert|rewrite drop_insert_lt //; lia|].
    intros j Hj. destruct (decide (j = Z.to_nat i)) as [->|].
    + rewrite list_lookup_insert_eq; [|lia]. do 3 f_equal. lia.
    + rewrite list_lookup_insert_ne; [|lia]. apply Hb. lia.
  - intros b (_ & Hl & Hd & Hb). split_and!; [|done|done]. split; [by apply Z.mod_pos_bound|].
    intros i Hi. rewrite Hb; [|lia]. rewrite byte_of_mod //. lia.
Qed.

(** The number with its lowest [k] bytes cleared. *)
Definition high_bytes (x : Z) (k : nat) : Z := Z.shiftl (Z.shiftr x (8 * Z.of_nat k)) (8 * Z.of_nat k).

Lemma high_bytes_testbit x k j :
  (0 ≤ j)%Z → Z.testbit (high_bytes x k) j = (8 * Z.of_nat k <=? j)%Z && Z.testbit x j.
Proof.
  intros Hj. rewrite /high_bytes. destruct (Z.leb_spec (8 * Z.of_nat k) j).
  - rewrite Z.shiftl_spec // Z.shiftr_spec; [|lia]. simpl. f_equal. lia.
  - by rewrite Z.shiftl_spec_low.
Qed.

Lemma high_bytes_0 x : high_bytes x 0 = x.
Proof. done. Qed.

Lemma high_bytes_all x k : (0 ≤ x < pb k)%Z → high_bytes x k = 0%Z.
Proof. intros Hx. rewrite pb_2 in Hx. by rewrite /high_bytes Z.shiftr_div_pow2 ?Z.div_small ?Z.shiftl_0_l //; lia. Qed.

Lemma high_bytes_range x k : (0 ≤ x)%Z → (0 ≤ high_bytes x k ≤ x)%Z.
Proof.
  intros Hx. rewrite /high_bytes Z.shiftl_mul_pow2 ?Z.shiftr_div_pow2; [|lia..].
  assert (0 < 2 ^ (8 * Z.of_nat k))%Z as Hp by (apply Z.pow_pos_nonneg; lia).
  pose proof (Z.div_pos x _ Hx Hp). pose proof (Z.mul_div_le x _ Hp). lia.
Qed.

(** One byte is stored below the bytes above it. *)
Lemma glue_byte x b i :
  let w := (b / 8)%nat in
  dig (high_bytes x b) i =
  if decide (i = w)
  then Z.lor (dig (high_bytes x (S b)) i) (u64 (Z.shiftl (byte_of x b) (8 * (Z.of_nat b mod 8))))
  else dig (high_bytes x (S b)) i.
Proof.
  set (w := (b / 8)%nat). simpl.
  pose proof (Z.mod_pos_bound (Z.of_nat b) 8 eq_refl) as Hr.
  pose proof (Z.div_mod (Z.of_nat b) 8 ltac:(done)) as Hd.
  assert (Z.of_nat w = Z.of_nat b / 8)%Z as Hw by apply (Nat2Z.inj_div b 8).
  set (r := (Z.of_nat b mod 8)%Z) in *. rewrite -Hw in Hd. clearbody w r. clear Hw.
  apply Z.bits_inj'. intros k Hk. destruct (decide (i = w)) as [->|Hi].
  - rewrite Z.lor_spec !dig_testbit // /u64. change ULONG_MOD with (2 ^ 64)%Z.
    destruct (Z.ltb_spec k 64); simpl; [|by rewrite Z.mod_pow2_bits_high].
    rewrite Z.mod_pow2_bits_low // Z.shiftl_spec // !high_bytes_testbit; [|lia..].
    destruct (Z.lt_ge_cases (k - 8 * r) 0) as [Hlt|Hge].
    + rewrite (Z.testbit_neg_r (byte_of x b)) // orb_false_r.
      destruct (Z.leb_spec (8 * Z.of_nat b) (k + 64 * Z.of_nat w)), (Z.leb_spec (8 * Z.of_nat (S b)) (k + 64 * Z.of_nat w)); done || lia.
    + rewrite byte_of_testbit //. replace (k - 8 * r + 8 * Z.of_nat b)%Z with (k + 64 * Z.of_nat w)%Z by lia.
      destruct (Z.leb_spec (8 * Z.of_nat b) (k + 64 * Z.of_nat w)), (Z.leb_spec (8 * Z.of_nat (S b)) (k + 64 * Z.of_nat w)),
        (Z.ltb_spec (k - 8 * r) 8); simpl; rewrite ?orb_false_r ?orb_diag; done || lia.
  - rewrite !dig_testbit //. destruct (Z.ltb_spec k 64); simpl; [|done].
    rewrite !high_bytes_testbit; [|lia..].
    destruct (Z.leb_spec (8 * Z.of_nat b) (k + 64 * Z.of_nat i)), (Z.leb_spec (8 * Z.of_nat (S b)) (k + 64 * Z.of_nat i)); done || lia.
Qed.

(** The number of words for [nb] bytes. *)
Definition words (nb : nat) : nat := (nb + 7) / 8.

Lemma words_bound nb : nb ≤ 8 * words nb.
Proof. rewrite /words. pose proof (Nat.div_mod_eq (nb + 7) 8). pose proof (Nat.mod_upper_bound (nb + 7) 8). lia. Qed.

Lemma words_lt nb b : b < nb → b / 8 < words nb.
Proof. intros Hb. pose proof (words_bound nb). apply Nat.Div0.div_lt_upper_bound. lia. Qed.

Lemma uECC_vli_bytesToNative_spec nb native bytes x :
  holds_bytes nb bytes x → words nb ≤ length native →
  post (uECC_vli_bytesToNative native bytes nb) (upd (words nb) native x).
Proof.
  intros Hx Hlen. pose proof Hx as [Hxr Hxb]. pose proof (words_bound nb) as Hw.
  assert (x < pw (words nb))%Z as Hxw by (pose proof (pb_le _ _ Hw); rewrite pb_pw in H; lia).
  eapply post_bind; [by apply uECC_vli_clear_spec|]. intros a Ha. rewrite -/(words nb) in Ha.
  apply post_ofor with (I := λ i b, (0 ≤ i)%Z ∧ upd (words nb) native (high_bytes x (nb - Z.to_nat i)) b).
  - rewrite /= Nat.sub_0_r high_bytes_all //.
  - intros i b Hi (_ & Hb). pose proof (upd_length _ _ _ _ Hb) as Hlb.
    replace (Z.of_nat nb - 1 - i)%Z with (Z.of_nat (nb - S (Z.to_nat i))) by lia.
    set (k := nb - S (Z.to_nat i)). assert (k < nb) as Hk by lia. pose proof (words_lt nb k Hk) as Hkw.
    assert (Z.of_nat k / 8 = Z.of_nat (k / 8))%Z as Hk8 by (symmetry; apply (Nat2Z.inj_div k 8)).
    cbv beta zeta. rewrite Hk8.
    eapply post_bind; [eapply post_oget; [lia|apply Hxb; lia|exact (eq_refl _)]|]. intros v <-.
    eapply post_bind; [eapply post_dig; [exact (upd_holds _ _ _ _ Hb)|lia|exact (eq_refl _)]|]. intros w <-.
    rewrite Nat2Z.id. replace (nb - 1 - Z.to_nat i) with k by lia.
    apply post_oset; [lia|]. rewrite Nat2Z.id. split; [lia|].
    replace (nb - Z.to_nat (i + 1)) with k by lia. replace (nb - Z.to_nat i) with (S k) in * by lia.
    pose proof (high_bytes_range x k (proj1 Hxr)). destruct Hb as ([_ Hb] & _ & Hd).
    split_and!; [split; [lia|]|by rewrite length_insert|by rewrite drop_insert_lt].
    intros j Hj. rewrite (glue_byte x k j). destruct (decide (j = (k / 8)%nat)) as [->|Hjk].
    + by rewrite list_lookup_insert_eq; [|lia].
    + rewrite list_lookup_insert_ne // Hb //.
  - intros b (_ & Hb). by replace (nb - Z.to_nat (0 + Z.of_nat nb)) with 0 in Hb by lia.
Qed.

(** Bytes to words and back. *)
Lemma bytes_roundtrip nb bytes native bytes' x :
  holds_bytes nb bytes x → words nb ≤ length native → nb ≤ length bytes' →
  post (n ← uECC_vli_bytesToNative native bytes nb; uECC_vli_nativeToBytes bytes' nb n) (upd_bytes nb bytes' x).
Proof.
  intros Hx Hn Hb. eapply post_bind; [by apply uECC_vli_bytesToNative_spec|]. intros n [Hnx _].
  pose proof (words_bound nb).
  eapply post_mono; [eapply uECC_vli_nativeToBytes_spec; [exact Hnx|lia|done]|]. intros b.
  by rewrite Z.mod_small; [|apply Hx].
Qed.

(** ** Random numbers below a bound *)

(** A generator fills the buffer with bytes when it succeeds. *)
Class RngOk (rng : uECC_RNG_Function) : Prop :=
  rng_bytes t size bs : rng t size = Some bs → length bs = size ∧ Forall byte bs.

Lemma le_bytes_range bs : Forall byte bs → (0 ≤ le_bytes bs < pb (length bs))%Z.
Proof.
  induction 1 as [|b bs [Hb0 Hb] _ IH]; [done|]. cbn [le_bytes length].
  rewrite /pb Nat2Z.inj_succ Z.pow_succ_r; [|lia]. rewrite -/(pb (length bs)). lia.
Qed.

Lemma le_bytes_app l1 l2 : le_bytes (l1 ++ l2) = (le_bytes l1 + pb (length l1) * le_bytes l2)%Z.
Proof.
  induction l1 as [|b l1 IH]; cbn [le_bytes length app].
  - rewrite /pb Z.pow_0_r. lia.
  - rewrite IH /pb Nat2Z.inj_succ Z.pow_succ_r; [lia|lia].
Qed.

Lemma le_bytes_dig bs i n :
  Forall byte bs → length bs = 8 * n → i < n → dig (le_bytes bs) i = le_bytes (take 8 (drop (8 * i) bs)).
Proof.
  intros Hbs Hl Hi. set (w := take 8 (drop (8 * i) bs)).
  assert (bs = take (8 * i) bs ++ w ++ drop (8 * S i) bs) as He.
  { rewrite -{1}(take_drop (8 * i) bs). f_equal. rewrite -{1}(take_drop 8 (drop (8 * i) bs)) drop_drop.
    do 2 f_equal. lia. }
  assert (length (take (8 * i) bs) = 8 * i) as Hl1 by (rewrite length_take; lia).
  assert (length w = 8) as Hl2 by (rewrite /w length_take length_drop; lia).
  assert (Forall byte (take (8 * i) bs) ∧ Forall byte w) as [H1 H2].
  { split; [by apply Forall_take|]. by apply Forall_take, Forall_drop. }
  apply le_bytes_range in H1, H2. rewrite Hl1 pb_pw in H1. rewrite Hl2 in H2.
  rewrite {1}He !le_bytes_app Hl1 Hl2 pb_pw.
  pose proof (dig_glue_high _ (le_bytes w + pb 8 * le_bytes (drop (8 * S i) bs)) i 0 H1) as E.
  rewrite Nat.add_0_r in E. rewrite E.
  rewrite /dig pw_0 Z.div_1_r. change (pb 8) with ULONG_MOD in H2 |- *.
  by rewrite (Z.mul_comm ULONG_MOD) Z.mod_add // Z.mod_small.
Qed.

Lemma store_bytes_spec n a bs :
  Forall byte bs → length bs = 8 * n → n ≤ length a → post (store_bytes a bs) (upd n a (le_bytes bs)).
Proof.
  intros Hbs Hl Ha. rewrite /store_bytes Hl. replace (8 * n / 8) with n by (rewrite Nat.mul_comm Nat.div_mul; lia).
  pose proof (le_bytes_range bs Hbs) as Hr. rewrite Hl pb_pw in Hr.
  apply post_ofor with (I := λ i b, upd (Z.to_nat i) a (le_bytes bs mod pw (Z.to_nat i)) b).
  - rewrite Z.mod_1_r. apply upd_0.
  - intros i b Hi Hb. rewrite -(le_bytes_dig bs (Z.to_nat i) n) //; [|lia].
    eapply (post_upd_step n); [done|lia|done|done|]. intros b'. by rewrite -mod_pw_S to_nat_S; [|lia].
  - intros b. by rewrite Z.add_0_l Nat2Z.id Z.mod_small.
Qed.

(** The top word is replaced. *)
Lemma holds_top n a x d :
  0 < n → holds n a x → word d →
  upd n a (x mod pw (n - 1) + pw (n - 1) * d) (<[n - 1:=Some d]> a).
Proof.
  intros Hn Ha Hd. pose proof (holds_length _ _ _ Ha). replace n with (S (n - 1)) at 1 by lia.
  apply upd_step; [|lia|done]. split_and!; [|done|done]. eapply holds_take; [exact Ha|lia].
Qed.

Lemma random_tries_spec tries rng `{!RngOk rng} t random top n m nb :
  holds n top m → 0 < n ≤ uECC_MAX_WORDS → n ≤ length random →
  post (random_tries tries rng t random top n nb) (λ '(ok, a, t'),
    (ok = 0%Z ∧ length a = length random ∨ ok = 1%Z ∧ ∃ r, upd n random r a ∧ (0 < r < m)%Z) ∧ t ≤ t' ≤ t + tries).
Proof.
  intros Hm [Hn0 Hn]. revert t random. induction tries as [|tries IH]; intros t random Hlen; simpl.
  { split; [by left|lia]. }
  destruct (rng t (n * 8)) as [bs|] eqn:Hrng; simpl; [|split; [by left|lia]].
  apply rng_bytes in Hrng as [Hl Hbs].
  eapply post_bind; [eapply (store_bytes_spec n); [done|lia|done]|]. intros a Ha.
  pose proof (upd_length _ _ _ _ Ha) as Hla.
  eapply post_bind; [eapply post_dig; [exact (upd_holds _ _ _ _ Ha)|lia|exact (eq_refl _)]|]. intros w <-.
  set (d := Z.land _ _). assert (word d) as Hd.
  { rewrite /d /word. split; [apply Z.land_nonneg; left; apply word_dig|].
    apply Z.le_lt_trans with (dig (le_bytes bs) (Z.to_nat (Z.of_nat n - 1)))%Z; [|apply word_dig].
    apply Z.ldiff_le; [apply word_dig|]. rewrite Z.ldiff_land. apply Z.bits_inj'. intros k Hk.
    rewrite !Z.land_spec Z.lnot_spec // Z.bits_0. by destruct (Z.testbit (dig _ _) k), (Z.testbit (Z.shiftr _ _) k). }
  eapply post_bind; [eapply post_oset; [lia|exact (eq_refl _)]|]. intros a' <-.
  replace (Z.to_nat (Z.of_nat n - 1)) with (n - 1) by lia.
  pose proof (holds_top n a _ d Hn0 (upd_holds _ _ _ _ Ha) Hd) as Ha'.
  set (r := (_ + pw (n - 1) * d)%Z) in Ha'. set (a' := <[n - 1:=Some d]> a) in *.
  pose proof (upd_trans _ _ _ _ _ _ Ha Ha') as Hr.
  rewrite (uECC_vli_isZero_spec n a' r (upd_holds _ _ _ _ Ha')) {1}/mbind {1}/outcome_bind.
  assert (0 ≤ r)%Z as Hr0 by apply (holds_range _ _ _ (upd_holds _ _ _ _ Ha')).
  assert (post (random_tries tries rng (S t) a' top n nb) (λ '(ok, a, t'),
    (ok = 0%Z ∧ length a = length random ∨ ok = 1%Z ∧ ∃ r, upd n random r a ∧ (0 < r < m)%Z) ∧ t ≤ t' ≤ S (t + tries)))
    as Hrest.
  { eapply post_mono; [apply IH; rewrite (upd_length _ _ _ _ Hr); lia|]. intros [[ok c] t'] [H ?].
    rewrite (upd_length _ _ _ _ Hr) in H. split; [|lia].
    destruct H as [?|(? & s & Hs & ?)]; [by left|right]. split; [done|]. exists s. split; [|done].
    eapply upd_trans; [exact Hr|done]. }
  destruct (Z.eqb_spec r 0) as [Hz|Hz]; simpl; [by rewrite Nat.add_succ_r|].
  rewrite (uECC_vli_cmp_spec n top a' m r Hm (upd_holds _ _ _ _ Ha') Hn) {1}/mbind {1}/outcome_bind cmp_sign_1.
  rewrite Nat.add_succ_r. destruct (Z.ltb_spec r m); [|done]. split; [|lia]. right. split; [done|].
  exists r. split; [done|lia].
Qed.

Lemma uECC_generate_random_int_spec rng t random top n m :
  (∀ g, rng = Some g → RngOk g) →
  holds n top m → 0 < n ≤ uECC_MAX_WORDS → n ≤ length random →
  post (uECC_generate_random_int rng t random top n) (λ '(ok, a, t'),
    (ok = 0%Z ∧ length a = length random ∨ ok = 1%Z ∧ ∃ r, upd n random r a ∧ (0 < r < m)%Z) ∧ t ≤ t' ≤ t + uECC_RNG_MAX_TRIES).
Proof.
  intros Hrng Hm Hn Hlen. rewrite /uECC_generate_random_int (uECC_vli_numBits_spec n top m) //; [|unfold uECC_MAX_WORDS in *; lia].
  rewrite {1}/mbind {1}/outcome_bind. destruct rng as [g|]; [|split; [by left|lia]].
  pose proof (Hrng g eq_refl). by apply random_tries_spec.
Qed.

(** ** [default_RNG] *)

Section default_rng.
(** [/dev/urandom] and [/dev/random] can be opened or not; a [read] of [left] bytes gives some of
    them, and nothing at the end of the file and on an error. *)
Variable open_device : bool → bool.
Variable read_device : nat → nat → list Z.

Fixpoint read_loop (fuel calls left : nat) (dest : list Z) : outcome (option (list Z)) :=
  match left with
  | O => Ok (Some dest)
  | S _ =>
      match fuel with
      | O => Err OutOfFuel
      | S fuel =>
          match read_device calls left with
          | [] => Ok None
          | bytes => read_loop fuel (S calls) (left - length bytes) (dest ++ bytes)
          end
      end
  end.

(** Every successful read takes one byte at least, so that [size] rounds are enough. *)
Definition default_RNG (calls size : nat) : outcome (option (list Z)) :=
  if open_device true || open_device false then read_loop size calls size [] else Ok None.

Hypothesis read_bytes : ∀ calls left, length (read_device calls left) ≤ left ∧ Forall byte (read_device calls left).

Lemma read_loop_spec fuel calls left dest :
  left ≤ fuel → Forall byte dest →
  post (read_loop fuel calls left dest) (λ r, r = None ∨ ∃ bs, r = Some bs ∧ length bs = length dest + left ∧ Forall byte bs).
Proof.
  revert calls left dest. induction fuel as [|fuel IH]; intros calls left dest Hf Hd.
  { assert (left = 0) as -> by lia. right. exists dest. split_and!; [done|lia|done]. }
  destruct left as [|left]; simpl; [right; exists dest; split_and!; [done|lia|done]|].
  pose proof (read_bytes calls (S left)) as [Hl Hb]. destruct (read_device calls (S left)) as [|b bs] eqn:Hr; [by left|].
  eapply post_mono; [apply IH; [simpl; lia|by apply Forall_app]|].
  intros r [?|(bs' & -> & Hl' & ?)]; [by left|right]. exists bs'. split_and!; [done| |done].
  rewrite Hl' length_app. simpl in *. lia.
Qed.

Lemma default_RNG_spec calls size :
  post (default_RNG calls size) (λ r, r = None ∨ ∃ bs, r = Some bs ∧ length bs = size ∧ Forall byte bs).
Proof.
  rewrite /default_RNG. destruct (_ || _); [|by left]. by apply read_loop_spec.
Qed.

(** The generator that the library starts with, as its callers see it: each of its calls finds the
    device at another position. *)
Definition default_rng_function : uECC_RNG_Function := λ t size,
  match default_RNG t size with Ok r => r | Err _ => None end.

Lemma default_rng_ok : RngOk default_rng_function.
Proof.
  intros t size bs. rewrite /default_rng_function.
  destruct (post_elim _ _ (default_RNG_spec t size)) as (r & -> & [->|(bs' & -> & ? & ?)]); [done|].
  by intros [= <-].
Qed.
End default_rng.
