(* ===== verification/CurveField.v ===== *)
(** * CurveField: arithmetic modulo the prime of a curve

    The part of [struct uECC_Curve_t] that the arithmetic needs, the products
    that reduce with the curve's own [mmod_fast], and the functions of
    lib/ecc/curve-specific.inc that only use them: doubling a point, the right-hand side of
    the curve equation, square roots.  [CurveField] is what a curve promises
    about its data and its reduction; [fe] says that an array holds the residue of
    an integer, so that formulas are followed as polynomials. *)
From Stdlib Require Import Zmod.Zmod.
From stdpp Require Import base list numbers ssreflect.
From S2P Require Import Prelude Memory Outcome Digits Vli VliMod.

(** ** The curve and its operations *)

Record curve_field := {
  num_words : nat;
  num_bytes : nat;
  num_n_bits : Z;
  curve_p : array Z;
  curve_n : array Z;
  curve_G : array Z;
  curve_b : array Z;
  mmod_fast : array Z → array Z → outcome (array Z * array Z)
}.

Definition uECC_vli_modMult_fast (result left right : array Z) (curve : curve_field) : outcome (array Z) :=
  product ← uECC_vli_mult (local_vli (2 * uECC_MAX_WORDS)) left right (num_words curve);
  r ← mmod_fast curve result product;
  Ok r.1.

Definition uECC_vli_modSquare_fast (result left : array Z) (curve : curve_field) : outcome (array Z) :=
  uECC_vli_modMult_fast result left left curve.

(** A local array with an initialiser: the other words are zero. *)
Definition vli_init (ws : list Z) : array Z := (Some <$> ws) ++ replicate (uECC_MAX_WORDS - length ws) (Some 0%Z).

(** Half of a number modulo the odd [p], in place. *)
Definition vli_half (X : array Z) (curve : curve_field) : outcome (array Z) :=
  let n := num_words curve in
  bit ← uECC_vli_testBit X 0;
  if negb (bit =? 0)%Z then
    '(X, l_carry) ← uECC_vli_add X X (curve_p curve) n;
    X ← uECC_vli_rshift1 X n;
    w ← oget X (Z.of_nat n - 1)%Z;
    oset X (Z.of_nat n - 1)%Z (Z.lor w (u64 (Z.shiftl l_carry 63)))
  else uECC_vli_rshift1 X n.

Definition double_jacobian_default (X1 Y1 Z1 : array Z) (curve : curve_field) :
    outcome (array Z * array Z * array Z) :=
  let n := num_words curve in
  let p := curve_p curve in
  let t4 := local_vli uECC_MAX_WORDS in
  let t5 := local_vli uECC_MAX_WORDS in
  zero ← uECC_vli_isZero Z1 n;
  if negb (zero =? 0)%Z then Ok (X1, Y1, Z1)
  else
    t4 ← uECC_vli_modSquare_fast t4 Y1 curve;
    t5 ← uECC_vli_modMult_fast t5 X1 t4 curve;
    t4 ← uECC_vli_modSquare_fast t4 t4 curve;
    Y1 ← uECC_vli_modMult_fast Y1 Y1 Z1 curve;
    Z1 ← uECC_vli_modSquare_fast Z1 Z1 curve;
    X1 ← uECC_vli_modAdd X1 X1 Z1 p n;
    Z1 ← uECC_vli_modAdd Z1 Z1 Z1 p n;
    Z1 ← uECC_vli_modSub Z1 X1 Z1 p n;
    X1 ← uECC_vli_modMult_fast X1 X1 Z1 curve;
    Z1 ← uECC_vli_modAdd Z1 X1 X1 p n;
    X1 ← uECC_vli_modAdd X1 X1 Z1 p n;
    X1 ← vli_half X1 curve;
    Z1 ← uECC_vli_modSquare_fast Z1 X1 curve;
    Z1 ← uECC_vli_modSub Z1 Z1 t5 p n;
    Z1 ← uECC_vli_modSub Z1 Z1 t5 p n;
    t5 ← uECC_vli_modSub t5 t5 Z1 p n;
    X1 ← uECC_vli_modMult_fast X1 X1 t5 curve;
    t4 ← uECC_vli_modSub t4 X1 t4 p n;
    X1 ← uECC_vli_set X1 Z1 n;
    Z1 ← uECC_vli_set Z1 Y1 n;
    Y1 ← uECC_vli_set Y1 t4 n;
    Ok (X1, Y1, Z1).

Definition double_jacobian_secp256k1 (X1 Y1 Z1 : array Z) (curve : curve_field) :
    outcome (array Z * array Z * array Z) :=
  let n := num_words curve in
  let p := curve_p curve in
  let t4 := local_vli n in
  let t5 := local_vli n in
  zero ← uECC_vli_isZero Z1 n;
  if negb (zero =? 0)%Z then Ok (X1, Y1, Z1)
  else
    t5 ← uECC_vli_modSquare_fast t5 Y1 curve;
    t4 ← uECC_vli_modMult_fast t4 X1 t5 curve;
    X1 ← uECC_vli_modSquare_fast X1 X1 curve;
    t5 ← uECC_vli_modSquare_fast t5 t5 curve;
    Z1 ← uECC_vli_modMult_fast Z1 Y1 Z1 curve;
    Y1 ← uECC_vli_modAdd Y1 X1 X1 p n;
    Y1 ← uECC_vli_modAdd Y1 Y1 X1 p n;
    Y1 ← vli_half Y1 curve;
    X1 ← uECC_vli_modSquare_fast X1 Y1 curve;
    X1 ← uECC_vli_modSub X1 X1 t4 p n;
    X1 ← uECC_vli_modSub X1 X1 t4 p n;
    t4 ← uECC_vli_modSub t4 t4 X1 p n;
    Y1 ← uECC_vli_modMult_fast Y1 Y1 t4 curve;
    Y1 ← uECC_vli_modSub Y1 Y1 t5 p n;
    Ok (X1, Y1, Z1).

Definition x_side_default (result x : array Z) (curve : curve_field) : outcome (array Z) :=
  let n := num_words curve in
  let p := curve_p curve in
  let _3 := vli_init [3%Z] in
  result ← uECC_vli_modSquare_fast result x curve;
  result ← uECC_vli_modSub result result _3 p n;
  result ← uECC_vli_modMult_fast result result x curve;
  uECC_vli_modAdd result result (curve_b curve) p n.

Definition x_side_secp256k1 (result x : array Z) (curve : curve_field) : outcome (array Z) :=
  result ← uECC_vli_modSquare_fast result x curve;
  result ← uECC_vli_modMult_fast result result x curve;
  uECC_vli_modAdd result result (curve_b curve) (curve_p curve) (num_words curve).

(** The exponent is [(p + 1) / 4]: the bits of [p + 1] above the lowest two. *)
Definition mod_sqrt_default (a : array Z) (curve : curve_field) : outcome (array Z) :=
  let n := num_words curve in
  '(p1, _) ← uECC_vli_add (vli_init [1%Z]) (curve_p curve) (vli_init [1%Z]) n;
  num_bits ← uECC_vli_numBits p1 n;
  l_result ← ofor (Z.to_nat (bitcount_t (num_bits - 1) - 1)) 0 (λ j l_result,
    let i := (bitcount_t (num_bits - 1) - j)%Z in
    l_result ← uECC_vli_modSquare_fast l_result l_result curve;
    bit ← uECC_vli_testBit p1 i;
    if negb (bit =? 0)%Z then uECC_vli_modMult_fast l_result l_result a curve else Ok l_result)
    (vli_init [1%Z]);
  uECC_vli_set a l_result n.

(** ** What a curve promises *)

Class CurveField (c : curve_field) (P : Z) : Prop := {
  cf_words : 0 < num_words c ≤ uECC_MAX_WORDS;
  cf_p : holds (num_words c) (curve_p c) P;
  cf_odd : Z.odd P = true;
  cf_big : (3 < P)%Z;
  cf_mmod res prod x y :
    holds (2 * num_words c) prod (x * y) → (0 ≤ x < P)%Z → (0 ≤ y < P)%Z → num_words c ≤ length res →
    post (mmod_fast c res prod) (λ r, holds (num_words c) r.1 ((x * y) mod P))
}.

(** [uECC_vli_mmod] itself is a reduction, for a prime that has its highest bit in the highest
    word. *)
Lemma mmod_is_reduction (c : curve_field) P res prod x :
  0 < num_words c ≤ uECC_MAX_WORDS → holds (num_words c) (curve_p c) P → full_width (num_words c) P →
  holds (2 * num_words c) prod x → num_words c ≤ length res →
  post (uECC_vli_mmod res prod (curve_p c) (num_words c)) (λ r, holds (num_words c) r.1 (x mod P)).
Proof.
  intros Hn Hp Hf Hx Hr. eapply post_mono; [by eapply uECC_vli_mmod_spec|]. intros [r p] [H _]. apply H.
Qed.

Section field.
Context (c : curve_field) (P : Z) `{!CurveField c P}.
Local Notation n := (num_words c).

Definition fe (a : array Z) (x : Z) : Prop := holds n a (x mod P).
Definition room (a : array Z) : Prop := n ≤ length a.

Lemma P_pos : (0 < P)%Z.
Proof using All. pose proof cf_big. lia. Qed.

Lemma fe_range x : (0 ≤ x mod P < P)%Z.
Proof using All. apply Z.mod_pos_bound, P_pos. Qed.

Lemma fe_room a x : fe a x → room a.
Proof. apply holds_length. Qed.

Lemma local_room : room (local_vli uECC_MAX_WORDS).
Proof using All. rewrite /room length_replicate. pose proof cf_words. lia. Qed.

Lemma local_room_n : room (local_vli n).
Proof. by rewrite /room length_replicate. Qed.

(** An array holds the residue of every congruent number. *)
Lemma fe_eq a x y : fe a x → (x mod P = y mod P)%Z → fe a y.
Proof. by rewrite /fe => H <-. Qed.

Lemma fe_exact a x : (0 ≤ x < P)%Z → fe a x ↔ holds n a x.
Proof. intros Hx. by rewrite /fe Z.mod_small. Qed.

Lemma fe_inj a x y : fe a x → fe a y → (x mod P = y mod P)%Z.
Proof. apply holds_inj. Qed.

Lemma fe_mult res a b x y :
  fe a x → fe b y → room res → post (uECC_vli_modMult_fast res a b c) (λ r, fe r (x * y)).
Proof using All.
  intros Ha Hb Hr. pose proof cf_words. rewrite /uECC_vli_modMult_fast.
  eapply post_bind; [apply uECC_vli_mult_spec; [exact Ha|exact Hb|done|rewrite length_replicate; lia]|].
  intros p Hp. eapply post_bind; [eapply cf_mmod; [exact (upd_holds _ _ _ _ Hp)|apply fe_range..|done]|].
  intros r Hrr. by rewrite /= /fe Zmult_mod.
Qed.

Lemma fe_square res a x : fe a x → room res → post (uECC_vli_modSquare_fast res a c) (λ r, fe r (x * x)).
Proof using All. intros. by apply fe_mult. Qed.

Lemma fe_add res a b x y :
  fe a x → fe b y → room res → post (uECC_vli_modAdd res a b (curve_p c) n) (λ r, fe r (x + y)).
Proof using All.
  intros Ha Hb Hr. pose proof (fe_range x). pose proof (fe_range y).
  eapply post_mono; [eapply uECC_vli_modAdd_spec; [exact Ha|exact Hb|apply cf_p|done|lia|lia]|].
  intros r Hrr. apply upd_holds in Hrr. by rewrite -Zplus_mod in Hrr.
Qed.

Lemma fe_sub res a b x y :
  fe a x → fe b y → room res → post (uECC_vli_modSub res a b (curve_p c) n) (λ r, fe r (x - y)).
Proof using All.
  intros Ha Hb Hr. pose proof (fe_range x). pose proof (fe_range y).
  eapply post_mono; [eapply uECC_vli_modSub_spec; [exact Ha|exact Hb|apply cf_p|done|lia|lia]|].
  intros r Hrr. apply upd_holds in Hrr. by rewrite -Zminus_mod in Hrr.
Qed.

Lemma fe_set res a x : fe a x → room res → post (uECC_vli_set res a n) (λ r, fe r x).
Proof using All.
  intros Ha Hr. eapply post_mono; [by eapply uECC_vli_set_spec|]. intros r. apply upd_holds.
Qed.

Lemma fe_isZero a x : fe a x → uECC_vli_isZero a n = Ok (Z.b2z (x mod P =? 0)%Z).
Proof. apply uECC_vli_isZero_spec. Qed.
End field.
Arguments fe c P a x : simpl never.
Arguments room c a : simpl never.
#[export] Hint Resolve fe_room local_room local_room_n : fe.

(** [fe_step] follows one command of the field arithmetic. *)
Ltac room_tac := first [ eassumption | by eapply local_room | apply local_room_n | eapply fe_room; eassumption ].
Ltac fe_op :=
  match goal with
  | |- post (uECC_vli_modMult_fast _ _ _ _) _ => eapply fe_mult; [eassumption..|room_tac]
  | |- post (uECC_vli_modSquare_fast _ _ _) _ => eapply fe_square; [eassumption..|room_tac]
  | |- post (uECC_vli_modAdd _ _ _ _ _) _ => eapply fe_add; [eassumption..|room_tac]
  | |- post (uECC_vli_modSub _ _ _ _ _) _ => eapply fe_sub; [eassumption..|room_tac]
  | |- post (uECC_vli_set _ _ _) _ => eapply fe_set; [eassumption..|room_tac]
  end.
Ltac fe_step :=
  eapply post_bind; [fe_op|];
  let a := fresh "a" in let H := fresh "Hfe" in intros a H; cbv beta in H.

(** ** Halving, doubling and the curve equation *)
Lemma mod_eq_divide P x y : (0 < P)%Z → (x mod P = y mod P)%Z ↔ (P | x - y)%Z.
Proof.
  intros HP. rewrite -Z.mod_divide; [|lia]. split; intros H.
  - by rewrite Zminus_mod H Z.sub_diag.
  - rewrite -(Z.sub_add y x) Zplus_mod H Z.add_0_l Z.mod_mod //. lia.
Qed.

Lemma half_cancel P x y : Z.odd P = true → (0 < P)%Z → ((2 * x) mod P = (2 * y) mod P)%Z → (x mod P = y mod P)%Z.
Proof.
  intros Hodd HP. rewrite !mod_eq_divide // -Z.mul_sub_distr_l. intros Hd.
  apply Z.gauss with (m := 2%Z); [done|]. rewrite Z.gcd_comm -(Z.mul_1_r 2) gcd_half //. apply Z.gcd_1_l.
Qed.

Section doubling.
Context (c : curve_field) (P : Z) `{!CurveField c P}.
Local Notation n := (num_words c).
Local Notation fe := (fe c P).

Lemma vli_half_holds X v :
  holds n X v → (v < P)%Z → post (vli_half X c) (λ r, ∃ h, holds n r h ∧ half_mod v P h).
Proof using All.
  intros HX Hv. pose proof cf_words as [Hn0 Hn]. pose proof cf_p as Hp. pose proof cf_odd as Hodd.
  pose proof (holds_range _ _ _ HX) as Hvr. pose proof (holds_range _ _ _ Hp) as Hpr. pose proof (pw_even n Hn0) as Hpe.
  rewrite /vli_half. eapply post_bind; [eapply uECC_vli_testBit_spec; [exact HX|lia]|]. intros bit ->.
  rewrite Z.bit0_odd negb_involutive. destruct (Z.odd v) eqn:Ho.
  - assert (Z.even (v + P) = true) as He by by rewrite Z.even_add -!Z.negb_odd Ho Hodd.
    pose proof (even_half _ He) as Hh.
    eapply post_bind; [eapply uECC_vli_add_spec; [exact HX|exact Hp|by eapply holds_length]|]. intros [s k] [Hs ->].
    eapply post_bind; [eapply uECC_vli_rshift1_spec; exact (upd_holds _ _ _ _ Hs)|]. intros r Hr. apply upd_holds in Hr.
    destruct (Z.leb_spec (pw n) (v + P)).
    + rewrite -(Z.mod_unique (v + P) (pw n) 1 (v + P - pw n)) in Hr; [|lia|lia].
      assert ((v + P - pw n) / 2 = (v + P) / 2 - pw n / 2)%Z as Hd.
      { symmetry. apply Z.div_unique with (r := 0%Z); lia. }
      rewrite Hd in Hr. change (u64 (Z.shiftl (Z.b2z true) 63)) with HIGH_BIT_SET.
      eapply post_mono; [eapply top_bit; [done|exact Hr|lia]|].
      intros e He3%upd_holds. exists ((v + P) / 2)%Z. rewrite Z.sub_add in He3.
      split; [done|]. split; [lia|by right].
    + rewrite Z.mod_small in Hr; [|lia].
      eapply post_bind; [eapply post_dig; [exact Hr|lia|exact (eq_refl _)]|]. intros w <-.
      change (u64 (Z.shiftl (Z.b2z false) 63)) with 0%Z. rewrite Z.lor_0_r.
      pose proof (holds_length _ _ _ Hr). apply post_oset; [lia|].
      rewrite list_insert_id; [|apply (holds_lookup _ _ _ _ Hr); lia].
      exists ((v + P) / 2)%Z. split; [done|]. split; [lia|by right].
  - assert (Z.even v = true) as He by by rewrite -Z.negb_odd Ho. pose proof (even_half _ He).
    eapply post_mono; [by eapply uECC_vli_rshift1_spec|]. intros r Hr%upd_holds.
    exists (v / 2)%Z. split; [done|]. split; [lia|by left].
Qed.

Lemma fe_half X w : fe X (2 * w) → post (vli_half X c) (λ r, fe r w).
Proof using All.
  intros HX. pose proof (P_pos c P). pose proof (fe_range c P (2 * w)).
  eapply post_mono; [eapply vli_half_holds; [exact HX|lia]|]. intros r (h & Hh & Hr & Hd).
  eapply fe_eq; [apply (proj2 (fe_exact c P r h Hr) Hh)|].
  apply half_cancel; [apply cf_odd|done|]. destruct Hd as [-> | ->].
  - by rewrite Z.mod_mod; [|lia].
  - rewrite Zplus_mod Z_mod_same_full Z.add_0_r !Z.mod_mod //; lia.
Qed.

(** Doubling follows the tangent: with the affine point [(x, y)] and the slope [l] of its tangent,
    [2 y l = 3 x^2 + a], the Jacobian coordinates of the double are computed. *)
Definition tangent_x (x l : Z) : Z := (l * l - 2 * x)%Z.
Definition tangent_y (x y l : Z) : Z := (l * (x - tangent_x x l) - y)%Z.

Lemma double_jacobian_default_spec X1 Y1 Z1 x y z l :
  fe X1 (x * z ^ 2) → fe Y1 (y * z ^ 3) → fe Z1 z → (z mod P ≠ 0)%Z →
  ((2 * y * l) mod P = (3 * x ^ 2 - 3) mod P)%Z →
  post (double_jacobian_default X1 Y1 Z1 c) (λ '(X, Y, Z),
    let z3 := (y * z ^ 4)%Z in
    fe X (tangent_x x l * z3 ^ 2) ∧ fe Y (tangent_y x y l * z3 ^ 3) ∧ fe Z z3).
Proof using All.
  intros HX HY HZ Hz Hl. pose proof (P_pos c P) as HP. rewrite /double_jacobian_default (fe_isZero c P Z1 z HZ) /=.
  rewrite (proj2 (Z.eqb_neq _ _) Hz) /=.
  do 11 fe_step.
  eapply post_bind with (Ψ := λ r, fe r (y * l * z ^ 4)).
  { apply fe_half. eapply fe_eq; [eassumption|].
    apply mod_eq_divide; [done|]. apply mod_eq_divide in Hl; [|done].
    match goal with |- (P | ?e)%Z => replace e with (- z ^ 4 * (2 * y * l - (3 * x ^ 2 - 3)))%Z by ring end.
    by apply Z.divide_mul_r. }
  intros h Hh. do 9 fe_step.
  split_and!; (eapply fe_eq; [eassumption|]); f_equal; rewrite /tangent_y /tangent_x; ring.
Qed.

Lemma double_jacobian_secp256k1_spec X1 Y1 Z1 x y z l :
  fe X1 (x * z ^ 2) → fe Y1 (y * z ^ 3) → fe Z1 z → (z mod P ≠ 0)%Z →
  ((2 * y * l) mod P = (3 * x ^ 2) mod P)%Z →
  post (double_jacobian_secp256k1 X1 Y1 Z1 c) (λ '(X, Y, Z),
    let z3 := (y * z ^ 4)%Z in
    fe X (tangent_x x l * z3 ^ 2) ∧ fe Y (tangent_y x y l * z3 ^ 3) ∧ fe Z z3).
Proof using All.
  intros HX HY HZ Hz Hl. pose proof (P_pos c P) as HP. rewrite /double_jacobian_secp256k1 (fe_isZero c P Z1 z HZ) /=.
  rewrite (proj2 (Z.eqb_neq _ _) Hz) /=.
  do 7 fe_step.
  eapply post_bind with (Ψ := λ r, fe r (y * l * z ^ 4)).
  { apply fe_half. eapply fe_eq; [eassumption|].
    apply mod_eq_divide; [done|]. apply mod_eq_divide in Hl; [|done].
    match goal with |- (P | ?e)%Z => replace e with (- z ^ 4 * (2 * y * l - 3 * x ^ 2))%Z by ring end.
    by apply Z.divide_mul_r. }
  intros h Hh. do 6 fe_step.
  split_and!; (eapply fe_eq; [eassumption|]); f_equal; rewrite /tangent_y /tangent_x; ring.
Qed.
End doubling.

(** ** The right-hand side of the equation, and square roots *)
Lemma holds_init n w : 0 < n ≤ uECC_MAX_WORDS → word w → holds n (vli_init [w]) w.
Proof.
  intros [Hn0 Hn] Hw. split.
  - split; [apply Hw|]. pose proof (pw_le 1 n Hn0). rewrite pw_1 in H. destruct Hw. lia.
  - intros i Hi. destruct i as [|i]; [by rewrite dig_word|].
    rewrite /vli_init (dig_large w 1); [|by rewrite pw_1|lia]. cbn [fmap list_fmap app lookup list_lookup length].
    rewrite lookup_replicate_2 //. unfold uECC_MAX_WORDS in *. lia.
Qed.

Section equation.
Context (c : curve_field) (P : Z) `{!CurveField c P}.
Local Notation n := (num_words c).
Local Notation fe := (fe c P).

Lemma fe_init w : word w → (w < P)%Z → fe (vli_init [w]) w.
Proof using All.
  intros Hw HP. apply fe_exact; [destruct Hw; lia|]. apply holds_init; [apply cf_words|done].
Qed.

Lemma x_side_default_spec res xa x b :
  fe xa x → fe (curve_b c) b → room c res →
  post (x_side_default res xa c) (λ r, fe r (x ^ 3 - 3 * x + b)).
Proof using All.
  intros Hx Hb Hr. rewrite /x_side_default; cbv zeta.
  pose proof (fe_init 3 ltac:(done) ltac:(apply cf_big)) as H3.
  do 3 fe_step.
  eapply post_mono; [fe_op|]. intros r Hrr. eapply fe_eq; [exact Hrr|]. f_equal. ring.
Qed.

Lemma x_side_secp256k1_spec res xa x b :
  fe xa x → fe (curve_b c) b → room c res →
  post (x_side_secp256k1 res xa c) (λ r, fe r (x ^ 3 + b)).
Proof using All.
  intros Hx Hb Hr. rewrite /x_side_secp256k1.
  do 2 fe_step.
  eapply post_mono; [fe_op|]. intros r Hrr. eapply fe_eq; [exact Hrr|]. f_equal. ring.
Qed.

(** The quotients of the exponent that square and multiply runs through. *)
Lemma quotient_bit e i : (0 ≤ i)%Z → (e / 2 ^ i = 2 * (e / 2 ^ (i + 1)) + Z.b2z (Z.testbit e i))%Z.
Proof.
  intros Hi. rewrite -!Z.shiftr_div_pow2; [|lia..]. rewrite -(Z.shiftr_shiftr e i 1); [|lia].
  rewrite -(Z.add_0_l i) -Z.shiftr_spec // Z.add_0_l. set (s := Z.shiftr e i).
  rewrite (Z.shiftr_div_pow2 s 1) // Z.bit0_odd -Z.div2_div. apply Z.div2_odd.
Qed.

Lemma mod_sqrt_default_spec a x :
  (P + 1 < pw n)%Z → fe a x → post (mod_sqrt_default a c) (λ r, fe r (x ^ ((P + 1) / 4))).
Proof using All.
  intros HP1 Ha. pose proof cf_words as Hn. pose proof cf_p as Hp. pose proof (@cf_big c P _) as Hbig.
  assert (holds n (vli_init [1%Z]) 1) as H1 by by apply holds_init.
  rewrite /mod_sqrt_default.
  eapply post_bind; [eapply uECC_vli_add_spec; [exact Hp|exact H1|by eapply holds_length]|].
  intros [p1 k] [Hp1%upd_holds _]. rewrite Z.mod_small in Hp1; [|lia].
  rewrite (uECC_vli_numBits_spec _ _ _ Hp1); [|unfold uECC_MAX_WORDS in Hn; lia]. rewrite {1}/mbind {1}/outcome_bind.
  set (nb := nbits (P + 1)). assert (2 < nb ≤ 256)%Z as Hnb.
  { rewrite /nb. split.
    - rewrite nbits_pos; [|lia]. pose proof (Z.log2_le_mono 4 (P + 1) ltac:(lia)). change (Z.log2 4) with 2%Z in H. lia.
    - apply nbits_le; [done|]. rewrite pw_2 in HP1. split; [lia|].
      eapply Z.lt_le_trans; [exact HP1|]. apply Z.pow_le_mono_r; [done|]. unfold uECC_MAX_WORDS in Hn. lia. }
  assert (bitcount_t (nb - 1) = nb - 1)%Z as Hbc by (apply sint_id; lia). rewrite !Hbc.
  eapply post_bind with (Ψ := λ r, fe r (x ^ ((P + 1) / 4))); [|intros r Hr; fe_op].
  apply post_ofor with (I := λ j r, (0 ≤ j)%Z ∧ fe r (x ^ ((P + 1) / 2 ^ (nb - j)))).
  - split; [done|]. rewrite Z.sub_0_r Z.div_small.
    + apply fe_init; [done|lia].
    + pose proof (nbits_bounds (P + 1) ltac:(lia)). fold nb in H. lia.
  - intros j r Hj [_ Hr]. cbv beta zeta. fe_step.
    eapply post_bind; [eapply uECC_vli_testBit_spec; [exact Hp1|]|].
    { split; [lia|]. pose proof (holds_range _ _ _ Hp1) as Hpr. rewrite pw_2 in Hpr.
      assert (nb ≤ 64 * Z.of_nat n)%Z by (apply nbits_le; [lia|done]). lia. }
    intros bit ->. rewrite negb_involutive.
    pose proof (quotient_bit (P + 1) (nb - (j + 1)) ltac:(lia)) as Hq.
    replace (nb - (j + 1) + 1)%Z with (nb - j)%Z in Hq by lia. rewrite Hq.
    replace (nb - 1 - j)%Z with (nb - (j + 1))%Z by lia.
    assert (0 ≤ (P + 1) / 2 ^ (nb - j))%Z as Hge by (apply Z.div_pos; [lia|apply Z.pow_pos_nonneg; lia]).
    destruct (Z.testbit (P + 1) (nb - (j + 1))); simpl.
    + eapply post_mono; [fe_op|]. intros r' Hr'. split; [lia|]. eapply fe_eq; [exact Hr'|]. f_equal.
      rewrite Z.pow_add_r; [|lia..]. rewrite Z.pow_1_r Z.mul_comm (Z.mul_comm 2) Z.pow_mul_r; [ring|lia|lia].
    + split; [lia|]. rewrite Z.add_0_r. eapply fe_eq; [eassumption|]. f_equal.
      rewrite (Z.mul_comm 2) Z.pow_mul_r; [ring|lia|lia].
  - intros r [_ Hr]. by replace (nb - (0 + Z.of_nat (Z.to_nat (nb - 1 - 1))))%Z with 2%Z in Hr by lia.
Qed.
End equation.

(** Square roots modulo a prime that is 3 modulo 4. *)
Lemma sqrt_3mod4 P y :
  Z.prime P → (P mod 4 = 3)%Z → (((y * y) ^ ((P + 1) / 4)) ^ 2 mod P = (y * y) mod P)%Z.
Proof.
  intros HP H4. pose proof (Z.prime_ge_2 _ HP). set (e := ((P + 1) / 4)%Z).
  assert (P + 1 = 4 * e)%Z as He.
  { rewrite /e. assert ((P + 1) mod 4 = 0)%Z as H0 by by rewrite Zplus_mod H4.
    pose proof (Z.div_mod (P + 1) 4 ltac:(done)). lia. }
  rewrite -Z.pow_2_r -!Z.pow_mul_r; [|lia..].
  replace (2 * (e * 2))%Z with (Z.succ P) by lia. rewrite Z.pow_succ_r; [|lia].
  rewrite Zmult_mod Z.fermat // -Zmult_mod Z.pow_2_r. done.
Qed.
