(* ===== verification/Curves.v ===== *)
(** * Curves: the standard curves of lib/ecc/curve-specific.inc

    The constants of the five curves and their fast reductions
    [vli_mmod_fast_*] for 64-bit words.  Each of the reductions of secp192r1,
    secp224r1, secp256r1 and secp160r1 is the remainder modulo the prime; the one of
    secp256k1 is where no carry is lost, and a product of full width for which
    it is not is given. *)
From stdpp Require Import base list numbers ssreflect.
From S2P Require Import Prelude Memory Outcome Digits Vli VliMod VliBytes CurveField.

(** ** Constants *)

(** The words are written byte by byte, the lowest first. *)
Definition BYTES_TO_WORDS_8 (a b c d e f g h : Z) : Z := le_bytes [a; b; c; d; e; f; g; h].
Definition BYTES_TO_WORDS_4 (a b c d : Z) : Z := le_bytes [a; b; c; d].

(** An array of [k] words with the given first ones. *)
Definition initialiser (k : nat) (ws : list Z) : array Z := (Some <$> ws) ++ replicate (k - length ws) (Some 0%Z).

Definition secp160r1_p : array Z := initialiser uECC_MAX_WORDS
  [BYTES_TO_WORDS_8 0xFF 0xFF 0xFF 0x7F 0xFF 0xFF 0xFF 0xFF;
   BYTES_TO_WORDS_8 0xFF 0xFF 0xFF 0xFF 0xFF 0xFF 0xFF 0xFF;
   BYTES_TO_WORDS_4 0xFF 0xFF 0xFF 0xFF]%Z.
Definition secp160r1_n : array Z := initialiser uECC_MAX_WORDS
  [BYTES_TO_WORDS_8 0x57 0x22 0x75 0xCA 0xD3 0xAE 0x27 0xF9;
   BYTES_TO_WORDS_8 0xC8 0xF4 0x01 0x00 0x00 0x00 0x00 0x00;
   BYTES_TO_WORDS_8 0x00 0x00 0x00 0x00 0x01 0x00 0x00 0x00]%Z.
Definition secp160r1_G : array Z := initialiser (2 * uECC_MAX_WORDS)
  [BYTES_TO_WORDS_8 0x82 0xFC 0xCB 0x13 0xB9 0x8B 0xC3 0x68;
   BYTES_TO_WORDS_8 0x89 0x69 0x64 0x46 0x28 0x73 0xF5 0x8E;
   BYTES_TO_WORDS_4 0x68 0xB5 0x96 0x4A;
   BYTES_TO_WORDS_8 0x32 0xFB 0xC5 0x7A 0x37 0x51 0x23 0x04;
   BYTES_TO_WORDS_8 0x12 0xC9 0xDC 0x59 0x7D 0x94 0x68 0x31;
   BYTES_TO_WORDS_4 0x55 0x28 0xA6 0x23]%Z.
Definition secp160r1_b : array Z := initialiser uECC_MAX_WORDS
  [BYTES_TO_WORDS_8 0x45 0xFA 0x65 0xC5 0xAD 0xD4 0xD4 0x81;
   BYTES_TO_WORDS_8 0x9F 0xF8 0xAC 0x65 0x8B 0x7A 0xBD 0x54;
   BYTES_TO_WORDS_4 0xFC 0xBE 0x97 0x1C]%Z.

Definition secp192r1_p : array Z := initialiser uECC_MAX_WORDS
  [BYTES_TO_WORDS_8 0xFF 0xFF 0xFF 0xFF 0xFF 0xFF 0xFF 0xFF;
   BYTES_TO_WORDS_8 0xFE 0xFF 0xFF 0xFF 0xFF 0xFF 0xFF 0xFF;
   BYTES_TO_WORDS_8 0xFF 0xFF 0xFF 0xFF 0xFF 0xFF 0xFF 0xFF]%Z.
Definition secp192r1_n : array Z := initialiser uECC_MAX_WORDS
  [BYTES_TO_WORDS_8 0x31 0x28 0xD2 0xB4 0xB1 0xC9 0x6B 0x14;
   BYTES_TO_WORDS_8 0x36 0xF8 0xDE 0x99 0xFF 0xFF 0xFF 0xFF;
   BYTES_TO_WORDS_8 0xFF 0xFF 0xFF 0xFF 0xFF 0xFF 0xFF 0xFF]%Z.
Definition secp192r1_G : array Z := initialiser (2 * uECC_MAX_WORDS)
  [BYTES_TO_WORDS_8 0x12 0x10 0xFF 0x82 0xFD 0x0A 0xFF 0xF4;
   BYTES_TO_WORDS_8 0x00 0x88 0xA1 0x43 0xEB 0x20 0xBF 0x7C;
   BYTES_TO_WORDS_8 0xF6 0x90 0x30 0xB0 0x0E 0xA8 0x8D 0x18;
   BYTES_TO_WORDS_8 0x11 0x48 0x79 0x1E 0xA1 0x77 0xF9 0x73;
   BYTES_TO_WORDS_8 0xD5 0xCD 0x24 0x6B 0xED 0x11 0x10 0x63;
   BYTES_TO_WORDS_8 0x78 0xDA 0xC8 0xFF 0x95 0x2B 0x19 0x07]%Z.
Definition secp192r1_b : array Z := initialiser uECC_MAX_WORDS
  [BYTES_TO_WORDS_8 0xB1 0xB9 0x46 0xC1 0xEC 0xDE 0xB8 0xFE;
   BYTES_TO_WORDS_8 0x49 0x30 0x24 0x72 0xAB 0xE9 0xA7 0x0F;
   BYTES_TO_WORDS_8 0xE7 0x80 0x9C 0xE5 0x19 0x05 0x21 0x64]%Z.

Definition secp224r1_p : array Z := initialiser uECC_MAX_WORDS
  [BYTES_TO_WORDS_8 0x01 0x00 0x00 0x00 0x00 0x00 0x00 0x00;
   BYTES_TO_WORDS_8 0x00 0x00 0x00 0x00 0xFF 0xFF 0xFF 0xFF;
   BYTES_TO_WORDS_8 0xFF 0xFF 0xFF 0xFF 0xFF 0xFF 0xFF 0xFF;
   BYTES_TO_WORDS_4 0xFF 0xFF 0xFF 0xFF]%Z.
Definition secp224r1_n : array Z := initialiser uECC_MAX_WORDS
  [BYTES_TO_WORDS_8 0x3D 0x2A 0x5C 0x5C 0x45 0x29 0xDD 0x13;
   BYTES_TO_WORDS_8 0x3E 0xF0 0xB8 0xE0 0xA2 0x16 0xFF 0xFF;
   BYTES_TO_WORDS_8 0xFF 0xFF 0xFF 0xFF 0xFF 0xFF 0xFF 0xFF;
   BYTES_TO_WORDS_4 0xFF 0xFF 0xFF 0xFF]%Z.
Definition secp224r1_G : array Z := initialiser (2 * uECC_MAX_WORDS)
  [BYTES_TO_WORDS_8 0x21 0x1D 0x5C 0x11 0xD6 0x80 0x32 0x34;
   BYTES_TO_WORDS_8 0x22 0x11 0xC2 0x56 0xD3 0xC1 0x03 0x4A;
   BYTES_TO_WORDS_8 0xB9 0x90 0x13 0x32 0x7F 0xBF 0xB4 0x6B;
   BYTES_TO_WORDS_4 0xBD 0x0C 0x0E 0xB7;
   BYTES_TO_WORDS_8 0x34 0x7E 0x00 0x85 0x99 0x81 0xD5 0x44;
   BYTES_TO_WORDS_8 0x64 0x47 0x07 0x5A 0xA0 0x75 0x43 0xCD;
   BYTES_TO_WORDS_8 0xE6 0xDF 0x22 0x4C 0xFB 0x23 0xF7 0xB5;
   BYTES_TO_WORDS_4 0x88 0x63 0x37 0xBD]%Z.
Definition secp224r1_b : array Z := initialiser uECC_MAX_WORDS
  [BYTES_TO_WORDS_8 0xB4 0xFF 0x55 0x23 0x43 0x39 0x0B 0x27;
   BYTES_TO_WORDS_8 0xBA 0xD8 0xBF 0xD7 0xB7 0xB0 0x44 0x50;
   BYTES_TO_WORDS_8 0x56 0x32 0x41 0xF5 0xAB 0xB3 0x04 0x0C;
   BYTES_TO_WORDS_4 0x85 0x0A 0x05 0xB4]%Z.

Definition secp256r1_p : array Z := initialiser uECC_MAX_WORDS
  [BYTES_TO_WORDS_8 0xFF 0xFF 0xFF 0xFF 0xFF 0xFF 0xFF 0xFF;
   BYTES_TO_WORDS_8 0xFF 0xFF 0xFF 0xFF 0x00 0x00 0x00 0x00;
   BYTES_TO_WORDS_8 0x00 0x00 0x00 0x00 0x00 0x00 0x00 0x00;
   BYTES_TO_WORDS_8 0x01 0x00 0x00 0x00 0xFF 0xFF 0xFF 0xFF]%Z.
Definition secp256r1_n : array Z := initialiser uECC_MAX_WORDS
  [BYTES_TO_WORDS_8 0x51 0x25 0x63 0xFC 0xC2 0xCA 0xB9 0xF3;
   BYTES_TO_WORDS_8 0x84 0x9E 0x17 0xA7 0xAD 0xFA 0xE6 0xBC;
   BYTES_TO_WORDS_8 0xFF 0xFF 0xFF 0xFF 0xFF 0xFF 0xFF 0xFF;
   BYTES_TO_WORDS_8 0x00 0x00 0x00 0x00 0xFF 0xFF 0xFF 0xFF]%Z.
Definition secp256r1_G : array Z := initialiser (2 * uECC_MAX_WORDS)
  [BYTES_TO_WORDS_8 0x96 0xC2 0x98 0xD8 0x45 0x39 0xA1 0xF4;
   BYTES_TO_WORDS_8 0xA0 0x33 0xEB 0x2D 0x81 0x7D 0x03 0x77;
   BYTES_TO_WORDS_8 0xF2 0x40 0xA4 0x63 0xE5 0xE6 0xBC 0xF8;
   BYTES_TO_WORDS_8 0x47 0x42 0x2C 0xE1 0xF2 0xD1 0x17 0x6B;
   BYTES_TO_WORDS_8 0xF5 0x51 0xBF 0x37 0x68 0x40 0xB6 0xCB;
   BYTES_TO_WORDS_8 0xCE 0x5E 0x31 0x6B 0x57 0x33 0xCE 0x2B;
   BYTES_TO_WORDS_8 0x16 0x9E 0x0F 0x7C 0x4A 0xEB 0xE7 0x8E;
   BYTES_TO_WORDS_8 0x9B 0x7F 0x1A 0xFE 0xE2 0x42 0xE3 0x4F]%Z.
Definition secp256r1_b : array Z := initialiser uECC_MAX_WORDS
  [BYTES_TO_WORDS_8 0x4B 0x60 0xD2 0x27 0x3E 0x3C 0xCE 0x3B;
   BYTES_TO_WORDS_8 0xF6 0xB0 0x53 0xCC 0xB0 0x06 0x1D 0x65;
   BYTES_TO_WORDS_8 0xBC 0x86 0x98 0x76 0x55 0xBD 0xEB 0xB3;
   BYTES_TO_WORDS_8 0xE7 0x93 0x3A 0xAA 0xD8 0x35 0xC6 0x5A]%Z.

Definition secp256k1_p : array Z := initialiser uECC_MAX_WORDS
  [BYTES_TO_WORDS_8 0x2F 0xFC 0xFF 0xFF 0xFE 0xFF 0xFF 0xFF;
   BYTES_TO_WORDS_8 0xFF 0xFF 0xFF 0xFF 0xFF 0xFF 0xFF 0xFF;
   BYTES_TO_WORDS_8 0xFF 0xFF 0xFF 0xFF 0xFF 0xFF 0xFF 0xFF;
   BYTES_TO_WORDS_8 0xFF 0xFF 0xFF 0xFF 0xFF 0xFF 0xFF 0xFF]%Z.
Definition secp256k1_n : array Z := initialiser uECC_MAX_WORDS
  [BYTES_TO_WORDS_8 0x41 0x41 0x36 0xD0 0x8C 0x5E 0xD2 0xBF;
   BYTES_TO_WORDS_8 0x3B 0xA0 0x48 0xAF 0xE6 0xDC 0xAE 0xBA;
   BYTES_TO_WORDS_8 0xFE 0xFF 0xFF 0xFF 0xFF 0xFF 0xFF 0xFF;
   BYTES_TO_WORDS_8 0xFF 0xFF 0xFF 0xFF 0xFF 0xFF 0xFF 0xFF]%Z.
Definition secp256k1_G : array Z := initialiser (2 * uECC_MAX_WORDS)
  [BYTES_TO_WORDS_8 0x98 0x17 0xF8 0x16 0x5B 0x81 0xF2 0x59;
   BYTES_TO_WORDS_8 0xD9 0x28 0xCE 0x2D 0xDB 0xFC 0x9B 0x02;
   BYTES_TO_WORDS_8 0x07 0x0B 0x87 0xCE 0x95 0x62 0xA0 0x55;
   BYTES_TO_WORDS_8 0xAC 0xBB 0xDC 0xF9 0x7E 0x66 0xBE 0x79;
   BYTES_TO_WORDS_8 0xB8 0xD4 0x10 0xFB 0x8F 0xD0 0x47 0x9C;
   BYTES_TO_WORDS_8 0x19 0x54 0x85 0xA6 0x48 0xB4 0x17 0xFD;
   BYTES_TO_WORDS_8 0xA8 0x08 0x11 0x0E 0xFC 0xFB 0xA4 0x5D;
   BYTES_TO_WORDS_8 0x65 0xC4 0xA3 0x26 0x77 0xDA 0x3A 0x48]%Z.
Definition secp256k1_b : array Z := initialiser uECC_MAX_WORDS
  [BYTES_TO_WORDS_8 0x07 0x00 0x00 0x00 0x00 0x00 0x00 0x00;
   BYTES_TO_WORDS_8 0x00 0x00 0x00 0x00 0x00 0x00 0x00 0x00;
   BYTES_TO_WORDS_8 0x00 0x00 0x00 0x00 0x00 0x00 0x00 0x00;
   BYTES_TO_WORDS_8 0x00 0x00 0x00 0x00 0x00 0x00 0x00 0x00]%Z.

(** ** The reductions *)

(** [a[i], a[i + 1], ... = ws]. *)
Fixpoint set_words (a : array Z) (i : Z) (ws : list Z) : outcome (array Z) :=
  match ws with
  | [] => Ok a
  | w :: ws => a ← oset a i w; set_words a (i + 1)%Z ws
  end.

Definition lo32 (w : Z) : Z := Z.land w 0xffffffff.
Definition hi32_mask (w : Z) : Z := Z.land w 0xffffffff00000000.
Definition shl32 (w : Z) : Z := u64 (Z.shiftl w 32).
Definition shr32 (w : Z) : Z := Z.shiftr w 32.

(** [while (carry || cmp(p, result) != 1) carry -= sub(result, result, p)]: the bound on the rounds
    is far above what the carries need. *)
Definition reduce_carry (p : array Z) (n : nat) (result : array Z) (carry : Z) : outcome (array Z) :=
  owhile 16 (λ '(result, carry),
    again ← (if negb (carry =? 0)%Z then Ok true
             else c ← uECC_vli_cmp_unsafe p result n; Ok (negb (c =? 1)%Z));
    if (again : bool) then
      '(result, b) ← uECC_vli_sub result result p n; Ok (inl (result, carry - b)%Z)
    else Ok (inr result)) (result, carry).

(** [while (cmp(p, result) != 1) sub(result, result, p)]. *)
Definition reduce_full (p : array Z) (n : nat) (result : array Z) : outcome (array Z) :=
  owhile 16 (λ result,
    c ← uECC_vli_cmp_unsafe p result n;
    if negb (c =? 1)%Z then '(result, _) ← uECC_vli_sub result result p n; Ok (inl result)
    else Ok (inr result)) result.

(** [while (cmp(result, p) > 0) sub(result, result, p)]. *)
Definition reduce_above (p : array Z) (n : nat) (result : array Z) : outcome (array Z) :=
  owhile 16 (λ result,
    c ← uECC_vli_cmp_unsafe result p n;
    if (c >? 0)%Z then '(result, _) ← uECC_vli_sub result result p n; Ok (inl result)
    else Ok (inr result)) result.

(** [do carry += add(result, result, p) while (carry < 0)]. *)
Definition reduce_negative (p : array Z) (n : nat) (result : array Z) (carry : Z) : outcome (array Z) :=
  owhile 16 (λ '(result, carry),
    '(result, b) ← uECC_vli_add result result p n;
    let carry := (carry + b)%Z in
    Ok (if (carry <? 0)%Z then inl (result, carry) else inr result)) (result, carry).

Definition vli_mmod_fast_secp192r1 (result product : array Z) : outcome (array Z * array Z) :=
  let n := 3 in
  p3 ← oget product 3; p4 ← oget product 4; p5 ← oget product 5;
  result ← uECC_vli_set result product n;
  tmp ← uECC_vli_set (local_vli n) (drop n product) n;
  '(result, carry) ← uECC_vli_add result result tmp n;
  tmp ← set_words tmp 0 [0%Z; p3; p4];
  '(result, c) ← uECC_vli_add result result tmp n;
  let carry := (carry + c)%Z in
  tmp ← set_words tmp 0 [p5; p5; 0%Z];
  '(result, c) ← uECC_vli_add result result tmp n;
  let carry := (carry + c)%Z in
  result ← reduce_carry secp192r1_p n result carry;
  Ok (result, product).

Definition vli_mmod_fast_secp224r1 (result product : array Z) : outcome (array Z * array Z) :=
  let n := 4 in
  p3 ← oget product 3; p4 ← oget product 4; p5 ← oget product 5; p6 ← oget product 6;
  result ← uECC_vli_set result product n;
  r3 ← oget result 3;
  result ← oset result 3 (lo32 r3);
  tmp ← set_words (local_vli n) 0 [0%Z; hi32_mask p3; p4; lo32 p5];
  '(result, _) ← uECC_vli_add result result tmp n;
  tmp ← set_words tmp 1 [hi32_mask p5; p6; 0%Z];
  '(result, _) ← uECC_vli_add result result tmp n;
  tmp ← set_words tmp 0 [Z.lor (shr32 p3) (shl32 p4); Z.lor (shr32 p4) (shl32 p5);
                         Z.lor (shr32 p5) (shl32 p6); shr32 p6];
  '(result, b) ← uECC_vli_sub result result tmp n;
  let carry := (0 - b)%Z in
  tmp ← set_words tmp 0 [Z.lor (shr32 p5) (shl32 p6); shr32 p6; 0%Z; 0%Z];
  '(result, b) ← uECC_vli_sub result result tmp n;
  let carry := (carry - b)%Z in
  result ← (if (carry <? 0)%Z then reduce_negative secp224r1_p n result carry
            else reduce_full secp224r1_p n result);
  Ok (result, product).

Definition vli_mmod_fast_secp256r1 (result product : array Z) : outcome (array Z * array Z) :=
  let n := 4 in
  p4 ← oget product 4; p5 ← oget product 5; p6 ← oget product 6; p7 ← oget product 7;
  result ← uECC_vli_set result product n;
  tmp ← set_words (local_vli n) 0 [0%Z; hi32_mask p5; p6; p7];
  '(tmp, carry) ← uECC_vli_add tmp tmp tmp n;
  '(result, c) ← uECC_vli_add result result tmp n;
  let carry := (carry + c)%Z in
  tmp ← set_words tmp 1 [shl32 p6; Z.lor (shr32 p6) (shl32 p7); shr32 p7];
  '(tmp, c) ← uECC_vli_add tmp tmp tmp n;
  let carry := (carry + c)%Z in
  '(result, c) ← uECC_vli_add result result tmp n;
  let carry := (carry + c)%Z in
  tmp ← set_words tmp 0 [p4; lo32 p5; 0%Z; p7];
  '(result, c) ← uECC_vli_add result result tmp n;
  let carry := (carry + c)%Z in
  tmp ← set_words tmp 0 [Z.lor (shr32 p4) (shl32 p5); Z.lor (shr32 p5) (hi32_mask p6); p7;
                         Z.lor (shr32 p6) (shl32 p4)];
  '(result, c) ← uECC_vli_add result result tmp n;
  let carry := (carry + c)%Z in
  tmp ← set_words tmp 0 [Z.lor (shr32 p5) (shl32 p6); shr32 p6; 0%Z; Z.lor (lo32 p4) (shl32 p5)];
  '(result, b) ← uECC_vli_sub result result tmp n;
  let carry := (carry - b)%Z in
  tmp ← set_words tmp 0 [p6; p7; 0%Z; Z.lor (shr32 p4) (hi32_mask p5)];
  '(result, b) ← uECC_vli_sub result result tmp n;
  let carry := (carry - b)%Z in
  tmp ← set_words tmp 0 [Z.lor (shr32 p6) (shl32 p7); Z.lor (shr32 p7) (shl32 p4);
                         Z.lor (shr32 p4) (shl32 p5); shl32 p6];
  '(result, b) ← uECC_vli_sub result result tmp n;
  let carry := (carry - b)%Z in
  tmp ← set_words tmp 0 [p7; hi32_mask p4; p5; hi32_mask p6];
  '(result, b) ← uECC_vli_sub result result tmp n;
  let carry := (carry - b)%Z in
  result ← (if (carry <? 0)%Z then reduce_negative secp256r1_p n result carry
            else reduce_carry secp256r1_p n result carry);
  Ok (result, product).

(** [right * (2^31 + 1)]; the words of [right] start in the middle of a word. *)
Definition omega_mult_secp160r1 (result right : array Z) : outcome (array Z) :=
  '(result, carry) ← ofor 3 0 (λ i '(result, carry),
    r0 ← oget right i;
    r1 ← oget right (i + 1)%Z;
    let tmp := Z.lor (shr32 r0) (shl32 r1) in
    let w := u64 (u64 (u64 (Z.shiftl tmp 31) + tmp) + carry) in
    result ← oset result i w;
    let carry := u32 (Z.shiftr tmp 33 +
      Z.b2z ((w <? tmp)%Z || (negb (carry =? 0)%Z && (w =? tmp)%Z))) in
    Ok (result, carry)) (result, 0%Z);
  oset result 3 carry.

Definition vli_mmod_fast_secp160r1 (result product : array Z) : outcome (array Z * array Z) :=
  let n := 3 in
  tmp ← uECC_vli_clear (local_vli (2 * n)) n;
  tmp ← at_offset n (λ a, uECC_vli_clear a n) tmp;
  tmp ← omega_mult_secp160r1 tmp (drop (n - 1) product);
  w ← oget product 2;
  product ← oset product 2 (lo32 w);
  copy ← oget tmp 2;
  tmp ← oset tmp 2 (lo32 copy);
  '(result, _) ← uECC_vli_add result product tmp n;
  product ← uECC_vli_clear product n;
  tmp ← oset tmp 2 copy;
  product ← omega_mult_secp160r1 product (drop (n - 1) tmp);
  '(result, _) ← uECC_vli_add result result product n;
  result ← reduce_above secp160r1_p n result;
  Ok (result, product).

(** [right * (2^32 + 0x3D1)]. *)
Definition omega_mult_secp256k1 (result right : array Z) : outcome (array Z) :=
  '(result, r) ← ofor 4 0 (λ k '(result, r),
    w ← oget right k;
    mult_store k result (muladd 0x1000003D1 w r)) (result, (0, 0, 0)%Z);
  oset result 4 r.1.1.

Definition vli_mmod_fast_secp256k1 (result product : array Z) : outcome (array Z * array Z) :=
  let n := 4 in
  tmp ← uECC_vli_clear (local_vli (2 * n)) n;
  tmp ← at_offset n (λ a, uECC_vli_clear a n) tmp;
  tmp ← omega_mult_secp256k1 tmp (drop n product);
  '(result, carry) ← uECC_vli_add result product tmp n;
  product ← uECC_vli_clear product n;
  product ← omega_mult_secp256k1 product (drop n tmp);
  '(result, c) ← uECC_vli_add result result product n;
  let carry := (carry + c)%Z in
  result ← ofor (Z.to_nat carry) 0 (λ _ result,
    '(result, _) ← uECC_vli_sub result result secp256k1_p n; Ok result) result;
  c ← uECC_vli_cmp_unsafe result secp256k1_p n;
  if (c >? 0)%Z then
    '(result, _) ← uECC_vli_sub result result secp256k1_p n; Ok (result, product)
  else Ok (result, product).

Definition curve_field_secp160r1 : curve_field := {|
  num_words := 3; num_bytes := 20; num_n_bits := 161;
  curve_p := secp160r1_p; curve_n := secp160r1_n; curve_G := secp160r1_G; curve_b := secp160r1_b;
  mmod_fast := vli_mmod_fast_secp160r1
|}.

Definition curve_field_secp192r1 : curve_field := {|
  num_words := 3; num_bytes := 24; num_n_bits := 192;
  curve_p := secp192r1_p; curve_n := secp192r1_n; curve_G := secp192r1_G; curve_b := secp192r1_b;
  mmod_fast := vli_mmod_fast_secp192r1
|}.

Definition curve_field_secp224r1 : curve_field := {|
  num_words := 4; num_bytes := 28; num_n_bits := 224;
  curve_p := secp224r1_p; curve_n := secp224r1_n; curve_G := secp224r1_G; curve_b := secp224r1_b;
  mmod_fast := vli_mmod_fast_secp224r1
|}.

Definition curve_field_secp256r1 : curve_field := {|
  num_words := 4; num_bytes := 32; num_n_bits := 256;
  curve_p := secp256r1_p; curve_n := secp256r1_n; curve_G := secp256r1_G; curve_b := secp256r1_b;
  mmod_fast := vli_mmod_fast_secp256r1
|}.

Definition curve_field_secp256k1 : curve_field := {|
  num_words := 4; num_bytes := 32; num_n_bits := 256;
  curve_p := secp256k1_p; curve_n := secp256k1_n; curve_G := secp256k1_G; curve_b := secp256k1_b;
  mmod_fast := vli_mmod_fast_secp256k1
|}.

(** ** Lemmas on half words *)

Definition W32 : Z := 4294967296.

Lemma lo32_spec w : lo32 w = (w mod W32)%Z.
Proof. rewrite /lo32. change 0xffffffff%Z with (Z.ones 32). by rewrite Z.land_ones. Qed.

Lemma shr32_spec w : shr32 w = (w / W32)%Z.
Proof. by rewrite /shr32 Z.shiftr_div_pow2. Qed.

Lemma shl32_spec w : shl32 w = (W32 * (w mod W32))%Z.
Proof.
  rewrite /shl32 /u64 Z.shiftl_mul_pow2 //. change (2 ^ 32)%Z with W32. change ULONG_MOD with (W32 * W32)%Z.
  by rewrite Zmult_mod_distr_r Z.mul_comm.
Qed.

Lemma hi32_mask_spec w : word w → hi32_mask w = (W32 * (w / W32))%Z.
Proof.
  intros Hw. rewrite /hi32_mask. change 0xffffffff00000000%Z with (Z.shiftl (Z.ones 32) 32).
  change W32 with (2 ^ 32)%Z. rewrite Z.mul_comm -Z.shiftr_div_pow2 // -Z.shiftl_mul_pow2 //.
  apply Z.bits_inj'. intros k Hk. rewrite Z.land_spec.
  destruct (Z.lt_ge_cases k 32).
  - rewrite !Z.shiftl_spec_low // andb_false_r //.
  - rewrite !Z.shiftl_spec //; [|lia]. replace (k - 32 - - (32))%Z with k by lia.
    destruct (Z.lt_ge_cases k 64).
    + rewrite Z.ones_spec_low; [|lia]. by rewrite andb_true_r.
    + by rewrite (word_testbit w k).
Qed.

Lemma join32 a b : (0 ≤ a < W32)%Z → Z.lor a (W32 * b) = (a + W32 * b)%Z.
Proof.
  intros Ha. change W32 with (2 ^ 32)%Z in *. rewrite (Z.mul_comm _ b) -Z.shiftl_mul_pow2 // lor_add_high //.
  by rewrite Z.shiftl_mul_pow2.
Qed.

Lemma half_words w : word w → (0 ≤ w mod W32 < W32 ∧ 0 ≤ w / W32 < W32 ∧ w = w mod W32 + W32 * (w / W32))%Z.
Proof.
  intros [Hw0 Hw]. split_and!; try by apply Z.mod_pos_bound.
  - by apply Z.div_pos.
  - apply Z.div_lt_upper_bound; [done|]. by change (W32 * W32)%Z with ULONG_MOD.
  - rewrite Z.add_comm. by apply Z.div_mod.
Qed.

Lemma join_rl w v : word w → Z.lor (shr32 w) (shl32 v) = (w / W32 + W32 * (v mod W32))%Z.
Proof. intros Hw. rewrite shr32_spec shl32_spec join32 //. by apply half_words. Qed.
Lemma join_rh w v : word w → word v → Z.lor (shr32 w) (hi32_mask v) = (w / W32 + W32 * (v / W32))%Z.
Proof. intros Hw Hv. rewrite shr32_spec hi32_mask_spec // join32 //. by apply half_words. Qed.
Lemma join_ll w v : Z.lor (lo32 w) (shl32 v) = (w mod W32 + W32 * (v mod W32))%Z.
Proof. rewrite lo32_spec shl32_spec join32 //. by apply Z.mod_pos_bound. Qed.

(** ** Words that are stored one by one *)

Fixpoint wval (ws : list Z) : Z := match ws with [] => 0 | w :: ws => w + ULONG_MOD * wval ws end%Z.

Lemma set_words_upd a0 a v i ws :
  upd i a0 v a → i + length ws ≤ length a0 → Forall word ws →
  post (set_words a (Z.of_nat i) ws) (upd (i + length ws) a0 (v + pw i * wval ws)).
Proof.
  revert a v i. induction ws as [|w ws IH]; intros a v i Ha Hl Hw; cbn [set_words length wval] in *.
  - by rewrite Z.mul_0_r Z.add_0_r Nat.add_0_r.
  - apply Forall_cons in Hw as [Hw Hws]. pose proof (upd_length _ _ _ _ Ha).
    eapply post_bind; [eapply post_oset; [lia|exact (eq_refl _)]|]. intros a' <-. rewrite Nat2Z.id.
    replace (Z.of_nat i + 1)%Z with (Z.of_nat (S i)) by lia. rewrite Nat.add_succ_r -Nat.add_succ_l.
    replace (v + pw i * (w + ULONG_MOD * wval ws))%Z with (v + pw i * w + pw (S i) * wval ws)%Z by (rewrite pw_S; ring).
    apply IH; [apply upd_step; [done|lia|done]|lia|done].
Qed.

Lemma set_words_0 n a ws :
  length ws = n → n ≤ length a → Forall word ws → post (set_words a 0 ws) (λ r, holds n r (wval ws)).
Proof.
  intros Hl Ha Hw. eapply post_mono; [apply (set_words_upd a a 0 0 ws); [apply upd_0|lia|done]|].
  intros r Hr%upd_holds. by rewrite Hl pw_0 Z.mul_1_l in Hr.
Qed.

Lemma set_words_1 n a v ws :
  holds n a v → S (length ws) = n → Forall word ws →
  post (set_words a 1 ws) (λ r, holds n r (v mod ULONG_MOD + ULONG_MOD * wval ws)).
Proof.
  intros Ha Hl Hw. pose proof (holds_length _ _ _ Ha).
  eapply post_mono; [apply (set_words_upd a a (v mod pw 1) 1 ws); [|lia|done]|].
  - split_and!; [|done|done]. eapply holds_take; [exact Ha|lia].
  - intros r Hr%upd_holds. rewrite pw_1 in Hr. by replace n with (1 + length ws) by lia.
Qed.

(** ** Sums and differences with the carry as a digit *)
Lemma add_exact n res a b x y :
  holds n a x → holds n b y → n ≤ length res →
  post (uECC_vli_add res a b n) (λ '(r, c), ∃ z, holds n r z ∧ length r = length res ∧ (z + c * pw n = x + y)%Z).
Proof.
  intros Ha Hb Hn. eapply post_mono; [by eapply uECC_vli_add_spec|]. intros [r c] [Hr ->].
  exists ((x + y) mod pw n)%Z. pose proof (holds_range _ _ _ Ha). pose proof (holds_range _ _ _ Hb).
  split_and!; [apply Hr|by eapply upd_length|]. destruct (Z.leb_spec (pw n) (x + y)); simpl.
  - rewrite -(Z.mod_unique (x + y) (pw n) 1 (x + y - pw n)); lia.
  - rewrite Z.mod_small; lia.
Qed.

Lemma sub_exact n res a b x y :
  holds n a x → holds n b y → n ≤ length res →
  post (uECC_vli_sub res a b n) (λ '(r, c), ∃ z, holds n r z ∧ length r = length res ∧ (z - c * pw n = x - y)%Z).
Proof.
  intros Ha Hb Hn. eapply post_mono; [by eapply uECC_vli_sub_spec|]. intros [r c] [Hr ->].
  exists ((x - y) mod pw n)%Z. pose proof (holds_range _ _ _ Ha). pose proof (holds_range _ _ _ Hb).
  split_and!; [apply Hr|by eapply upd_length|]. destruct (Z.ltb_spec x y); simpl.
  - rewrite -(Z.mod_unique (x - y) (pw n) (-1) (x - y + pw n)); lia.
  - rewrite Z.mod_small; lia.
Qed.

(** ** The final loops *)

Section reduce.
Context (n : nat) (p : array Z) (P : Z) (Hp : holds n p P) (HP : (0 < P)%Z).

Lemma mod_sub_once T : (T mod P = (T - P) mod P)%Z.
Proof using HP. replace (T - P)%Z with (T + -1 * P)%Z by lia. by rewrite Z.mod_add; [|lia]. Qed.

Lemma div_sub_once T : ((T - P) / P = T / P - 1)%Z.
Proof using HP. replace (T - P)%Z with (T + -1 * P)%Z by lia. by rewrite Z.div_add; [|lia]. Qed.

Lemma reduce_carry_spec result r carry :
  holds n result r → (0 ≤ r + carry * pw n < 15 * P)%Z →
  post (reduce_carry p n result carry) (λ a, holds n a ((r + carry * pw n) mod P)).
Proof using All.
  intros Hr HT. set (T := (r + carry * pw n)%Z) in *. pose proof (holds_range _ _ _ Hp) as HPr.
  apply post_owhile_rel with (m := (T / P)%Z) (I := λ m '(a, c), ∃ r', holds n a r' ∧
    m = ((r' + c * pw n) / P)%Z ∧ (0 ≤ r' + c * pw n)%Z ∧ ((r' + c * pw n) mod P = T mod P)%Z).
  - exists r. split_and!; done || lia.
  - split; [apply Z.div_pos; lia|]. apply Z.div_lt_upper_bound; lia.
  - intros m [a c] (r' & Ha & -> & HT' & Hm) _. pose proof (holds_range _ _ _ Ha).
    eapply post_bind with (Ψ := λ again, again = (P <=? r' + c * pw n)%Z).
    { destruct (Z.eqb_spec c 0) as [->|Hc]; simpl.
      - rewrite (uECC_vli_cmp_unsafe_spec _ _ _ _ _ Hp Ha) /= cmp_sign_1 Z.mul_0_l Z.add_0_r. by rewrite Z.leb_antisym.
      - symmetry. apply Z.leb_le. assert (0 < c)%Z; nia. }
    intros ? ->. destruct (Z.leb_spec P (r' + c * pw n)) as [Hge|Hlt]; simpl.
    + eapply post_bind; [eapply sub_exact; [exact Ha|exact Hp|by eapply holds_length]|].
      intros [a' b] (z & Hz & _ & He). simpl. exists ((r' + c * pw n - P) / P)%Z.
      replace (z + (c - b) * pw n)%Z with (r' + c * pw n - P)%Z by lia.
      split; [|rewrite div_sub_once; split; [|lia]].
      * exists z. replace (z + (c - b) * pw n)%Z with (r' + c * pw n - P)%Z by lia.
        split_and!; [done|done|lia|]. by rewrite -mod_sub_once.
      * assert (1 ≤ (r' + c * pw n) / P)%Z; [|lia]. apply Z.div_le_lower_bound; lia.
    + assert (c = 0%Z) as -> by nia. rewrite Z.mul_0_l Z.add_0_r in Hm Hlt.
      by rewrite -Hm Z.mod_small; [|lia].
Qed.

Lemma reduce_full_spec result r :
  holds n result r → (r < 15 * P)%Z → post (reduce_full p n result) (λ a, holds n a (r mod P)).
Proof using All.
  intros Hr HT. pose proof (holds_range _ _ _ Hr).
  apply post_owhile_rel with (m := (r / P)%Z) (I := λ m a, ∃ r', holds n a r' ∧ m = (r' / P)%Z ∧ (r' mod P = r mod P)%Z).
  - by exists r.
  - split; [apply Z.div_pos; lia|]. apply Z.div_lt_upper_bound; lia.
  - intros m a (r' & Ha & -> & Hm) _. pose proof (holds_range _ _ _ Ha).
    rewrite (uECC_vli_cmp_unsafe_spec _ _ _ _ _ Hp Ha) {1}/mbind {1}/outcome_bind cmp_sign_1.
    destruct (Z.ltb_spec r' P); simpl; [by rewrite -Hm Z.mod_small; [|lia]|].
    eapply post_bind; [eapply sub_exact; [exact Ha|exact Hp|by eapply holds_length]|].
    intros [a' b] (z & Hz & _ & He). pose proof (holds_range _ _ _ Hz).
    assert (z = r' - P)%Z as -> by (assert (b = 0)%Z by nia; lia). simpl. exists ((r' - P) / P)%Z. rewrite div_sub_once. split.
    + exists (r' - P)%Z. by rewrite div_sub_once -mod_sub_once.
    + assert (1 ≤ r' / P)%Z; [|lia]. apply Z.div_le_lower_bound; lia.
Qed.

Lemma reduce_negative_spec result r carry :
  holds n result r → (-15 * P ≤ r + carry * pw n < 0)%Z →
  post (reduce_negative p n result carry) (λ a, holds n a ((r + carry * pw n) mod P)).
Proof using All.
  intros Hr HT. set (T := (r + carry * pw n)%Z) in *. pose proof (holds_range _ _ _ Hp) as HPr.
  apply post_owhile_rel with (m := (- (T / P))%Z) (I := λ m '(a, c), ∃ r', holds n a r' ∧
    m = (- ((r' + c * pw n) / P))%Z ∧ (r' + c * pw n < 0)%Z ∧ ((r' + c * pw n) mod P = T mod P)%Z).
  - exists r. split_and!; done || lia.
  - split.
    + assert (T / P < 0)%Z by (apply Z.div_lt_upper_bound; lia). lia.
    + assert (-15 ≤ T / P)%Z by (apply Z.div_le_lower_bound; lia). lia.
  - intros m [a c] (r' & Ha & -> & HT' & Hm) _. pose proof (holds_range _ _ _ Ha).
    eapply post_bind; [eapply add_exact; [exact Ha|exact Hp|by eapply holds_length]|].
    intros [a' b] (z & Hz & _ & He). pose proof (holds_range _ _ _ Hz). simpl.
    assert (z + (c + b) * pw n = r' + c * pw n + P)%Z as He' by lia.
    destruct (Z.ltb_spec (c + b) 0) as [Hneg|Hpos]; simpl.
    + exists (- ((r' + c * pw n) / P) - 1)%Z.
      assert (z + (c + b) * pw n < 0)%Z by nia.
      split; [|split; [|lia]].
      * exists z. rewrite He'. split_and!; [done| |lia|].
        -- pose proof (div_sub_once (r' + c * pw n + P)) as Hq. rewrite Z.add_simpl_r in Hq. lia.
        -- rewrite -Hm mod_sub_once. f_equal. lia.
      * assert ((r' + c * pw n) / P < -1)%Z; [|lia]. apply Z.div_lt_upper_bound; lia.
    + assert (c + b = 0)%Z as Hcb by nia. rewrite Hcb Z.mul_0_l Z.add_0_r in He'. subst z.
      assert ((r' + c * pw n) mod P = r' + c * pw n + P)%Z as E.
      { symmetry. apply Z.mod_unique with (q := (-1)%Z); lia. }
      by rewrite -Hm E.
Qed.
End reduce.

(** ** The constants as numbers *)

Definition P160 : Z := (2 ^ 160 - 2 ^ 31 - 1)%Z.
Definition P192 : Z := (2 ^ 192 - 2 ^ 64 - 1)%Z.
Definition P224 : Z := (2 ^ 224 - 2 ^ 96 + 1)%Z.
Definition P256 : Z := (2 ^ 256 - 2 ^ 224 + 2 ^ 192 + 2 ^ 96 - 1)%Z.
Definition PK1 : Z := (2 ^ 256 - 2 ^ 32 - 977)%Z.

(** [holds_const] proves that a constant array holds a number. *)
Ltac holds_const := split; [done|]; intros i Hi; do 5 (destruct i as [|i]; [first [by vm_compute | lia]|]); lia.

Lemma secp160r1_p_holds : holds 3 secp160r1_p P160.
Proof. holds_const. Qed.
Lemma secp192r1_p_holds : holds 3 secp192r1_p P192.
Proof. holds_const. Qed.
Lemma secp224r1_p_holds : holds 4 secp224r1_p P224.
Proof. holds_const. Qed.
Lemma secp256r1_p_holds : holds 4 secp256r1_p P256.
Proof. holds_const. Qed.
Lemma secp256k1_p_holds : holds 4 secp256k1_p PK1.
Proof. holds_const. Qed.

Lemma digits_3 x : (0 ≤ x < pw 3)%Z → x = (dig x 0 + ULONG_MOD * dig x 1 + ULONG_MOD * ULONG_MOD * dig x 2)%Z.
Proof.
  intros Hx. rewrite -{1}(Z.mod_small x (pw 3)) // -csum_digits. cbn [csum].
  rewrite pw_0 pw_1. change (pw 2) with (ULONG_MOD * ULONG_MOD)%Z. ring.
Qed.

Lemma digits_4 x : (0 ≤ x < pw 4)%Z → x = (dig x 0 + ULONG_MOD * dig x 1 + ULONG_MOD * ULONG_MOD * dig x 2 +
  ULONG_MOD * ULONG_MOD * ULONG_MOD * dig x 3)%Z.
Proof.
  intros Hx. rewrite -{1}(Z.mod_small x (pw 4)) // -csum_digits. cbn [csum].
  rewrite pw_0 pw_1. change (pw 2) with (ULONG_MOD * ULONG_MOD)%Z.
  change (pw 3) with (ULONG_MOD * ULONG_MOD * ULONG_MOD)%Z. ring.
Qed.

(** [get_dig] reads a digit of the product. *)
Ltac get_dig H := eapply post_bind; [eapply post_dig; [exact H|lia|exact (eq_refl _)]|]; intros ? <-.

(** [add_step] and [sub_step] follow an addition or subtraction and keep the sum exactly. *)
Ltac chain_step lem :=
  eapply post_bind; [eapply lem; [eassumption|eassumption|lia]|];
  let a := fresh "a" in let c := fresh "c" in let z := fresh "z" in
  let Hz := fresh "Hz" in let Hl := fresh "Hl" in let He := fresh "He" in
  intros [a c] (z & Hz & Hl & He).
Ltac words_tac := repeat (apply List.Forall_cons; [first [apply word_0 | apply word_dig]|]); apply List.Forall_nil.

Ltac words_step lem :=
  eapply post_bind; [eapply lem; [done || lia|done || lia|words_tac]|];
  let t := fresh "t" in let Ht := fresh "Ht" in let Hl := fresh "Hlt" in
  intros t Ht; cbv beta in Ht; pose proof (holds_length _ _ _ Ht) as Hl; cbn [wval] in Ht.

(** A borrow means a negative sum; no borrow means a sum that is not negative. *)
Lemma carry_negative n a z carry : holds n a z → (carry < 0)%Z → (z + carry * pw n < 0)%Z.
Proof. intros H ?. pose proof (holds_range _ _ _ H). pose proof (pw_pos n). nia. Qed.
Lemma carry_nonneg n a z carry : holds n a z → (0 ≤ carry)%Z → (0 ≤ z + carry * pw n)%Z.
Proof. intros H ?. pose proof (holds_range _ _ _ H). pose proof (pw_pos n). nia. Qed.

Lemma vli_mmod_fast_secp192r1_spec res prod N :
  holds 6 prod N → 3 ≤ length res →
  post (vli_mmod_fast_secp192r1 res prod) (λ r, holds 3 r.1 (N mod P192)).
Proof.
  intros HN Hres. rewrite /vli_mmod_fast_secp192r1. do 3 get_dig HN.
  change (Z.to_nat 3) with 3. change (Z.to_nat 4) with 4. change (Z.to_nat 5) with 5.
  pose proof (holds_split 3 3 prod N HN) as [Hlo Hhi].
  eapply post_bind; [eapply uECC_vli_set_spec; [exact Hlo|done]|]. intros r0 Hr0.
  pose proof (upd_length _ _ _ _ Hr0) as Hl0. apply upd_holds in Hr0.
  eapply post_bind; [eapply uECC_vli_set_spec; [exact Hhi|done]|]. intros t0 Ht0.
  pose proof (upd_length _ _ _ _ Ht0) as Hlt0. apply upd_holds in Ht0. change (length t0 = 3) in Hlt0.
  chain_step add_exact.
  words_step (set_words_0 3 t0).
  chain_step add_exact.
  words_step (set_words_0 3 t).
  chain_step add_exact.
  pose proof (holds_range _ _ _ Hlo) as Hlor. pose proof (holds_range _ _ _ Hhi) as Hhir.
  pose proof (holds_range _ _ _ Ht) as Ht1r. pose proof (holds_range _ _ _ Ht1) as Ht2r.
  pose proof (digits_3 _ Hhir) as Hd. rewrite !dig_div in Hd. cbn [Nat.add] in Hd.
  pose proof (Z.div_mod N (pw 3) ltac:(done)) as HNe.
  assert (z1 + (c + c0 + c1) * pw 3 = N - P192 *
    (dig N 3 + ULONG_MOD * dig N 4 + (ULONG_MOD * ULONG_MOD + 1) * dig N 5))%Z as HT.
  { unfold P192. change (pw 3) with (ULONG_MOD * ULONG_MOD * ULONG_MOD)%Z in *. unfold ULONG_MOD in *. lia. }
  eapply post_bind; [eapply reduce_carry_spec; [apply secp192r1_p_holds|done|exact Hz1|]|].
  - split; [|]; unfold P192; change (pw 3) with (ULONG_MOD * ULONG_MOD * ULONG_MOD)%Z in *; unfold ULONG_MOD in *; lia.
  - intros r Hr. rewrite HT in Hr. replace (N - P192 * _)%Z with (N + - (dig N 3 + ULONG_MOD * dig N 4 + (ULONG_MOD * ULONG_MOD + 1) * dig N 5) * P192)%Z in Hr by ring.
    by rewrite Z.mod_add in Hr.
Qed.

(** The two halves of a digit. *)
Lemma halves x k : ∃ l h, dig x k = (l + W32 * h)%Z ∧ (dig x k mod W32 = l)%Z ∧ (dig x k / W32 = h)%Z ∧
  (0 ≤ l < W32)%Z ∧ (0 ≤ h < W32)%Z.
Proof.
  pose proof (half_words (dig x k) (word_dig x k)) as (? & ? & ?).
  by exists (dig x k mod W32)%Z, (dig x k / W32)%Z.
Qed.

(** [split_dig x k l h] names the halves of a digit in the goal. *)
Ltac split_dig x k l h :=
  let d := fresh "d" in let E := fresh "E" in let E1 := fresh "E" in let E2 := fresh "E" in
  destruct (halves x k) as (l & h & E & E1 & E2 & ? & ?);
  rewrite ?E1 ?E2; clear E1 E2; set (d := dig x k) in *; clearbody d; subst d.
Ltac mask_rw := rewrite ?join_rl ?join_rh ?join_ll ?lo32_spec ?shl32_spec ?shr32_spec ?hi32_mask_spec; [|done..].
Ltac big_lia := unfold word, P192, P224, P256, W32, ULONG_MOD in *; lia.
Ltac words_tac ::= repeat (apply List.Forall_cons; [first [apply word_0 | apply word_dig | big_lia]|]); apply List.Forall_nil.

Lemma vli_mmod_fast_secp256r1_spec res prod N :
  holds 8 prod N → 4 ≤ length res →
  post (vli_mmod_fast_secp256r1 res prod) (λ r, holds 4 r.1 (N mod P256)).
Proof.
  intros HN Hres. rewrite /vli_mmod_fast_secp256r1. do 4 get_dig HN.
  change (Z.to_nat 4) with 4. change (Z.to_nat 5) with 5. change (Z.to_nat 6) with 6. change (Z.to_nat 7) with 7.
  pose proof (holds_split 4 4 prod N HN) as [Hlo Hhi].
  eapply post_bind; [eapply uECC_vli_set_spec; [exact Hlo|done]|]. intros r0 Hr0.
  pose proof (upd_length _ _ _ _ Hr0) as Hl0. apply upd_holds in Hr0.
  pose proof (holds_range _ _ _ Hlo) as Hlor. pose proof (holds_range _ _ _ Hhi) as Hhir.
  pose proof (digits_4 _ Hhir) as Hd. rewrite !dig_div in Hd. cbn [Nat.add] in Hd.
  pose proof (Z.div_mod N (pw 4) ltac:(done)) as HNe.
  set (R := (N mod pw 4)%Z) in *. set (Q := (N / pw 4)%Z) in *. clearbody R Q.
  mask_rw.
  split_dig N 4 l4 h4. split_dig N 5 l5 h5. split_dig N 6 l6 h6. split_dig N 7 l7 h7.
  words_step (set_words_0 4). chain_step add_exact. chain_step add_exact.
  assert (z mod ULONG_MOD = 0)%Z as Hzm.
  { apply Z.mod_divide; [done|]. change (pw 4) with (ULONG_MOD * ULONG_MOD * ULONG_MOD * ULONG_MOD)%Z in He.
    eexists. rewrite -(Z.add_simpl_r z (c * (ULONG_MOD * ULONG_MOD * ULONG_MOD * ULONG_MOD))) He.
    instantiate (1 := (2 * (W32 * h5 + ULONG_MOD * (l6 + W32 * h6 + ULONG_MOD * (l7 + W32 * h7 + ULONG_MOD * 0))) -
      c * (ULONG_MOD * ULONG_MOD * ULONG_MOD))%Z). ring. }
  words_step (set_words_1 4 a z). rewrite Hzm in Ht0.
  chain_step add_exact. chain_step add_exact.
  words_step (set_words_0 4). chain_step add_exact.
  words_step (set_words_0 4). chain_step add_exact.
  words_step (set_words_0 4). chain_step sub_exact.
  words_step (set_words_0 4). chain_step sub_exact.
  words_step (set_words_0 4). chain_step sub_exact.
  words_step (set_words_0 4). chain_step sub_exact.
  set (K := (l4 + 0x100000001 * h4 + 0x10000000100000000 * l5 + 0x100000000ffffffffffffffff * h5 +
    0x100000000fffffffffffffffeffffffff * l6 + 0x100000000fffffffffffffffefffffffeffffffff * h6 +
    0x100000000fffffffffffffffefffffffefffffffeffffffff * l7 +
    0x100000000fffffffffffffffefffffffefffffffeffffffff00000000 * h7)%Z).
  match goal with |- context [(?x - c8)%Z] => set (carry := (x - c8)%Z) end.
  change (pw 4) with (ULONG_MOD * ULONG_MOD * ULONG_MOD * ULONG_MOD)%Z in *.
  assert (z8 + carry * pw 4 = N + - K * P256)%Z as HT.
  { change (pw 4) with (ULONG_MOD * ULONG_MOD * ULONG_MOD * ULONG_MOD)%Z. unfold K, carry. big_lia. }
  assert (-15 * P256 ≤ z8 + carry * pw 4 < 15 * P256)%Z as Hrange.
  { change (pw 4) with (ULONG_MOD * ULONG_MOD * ULONG_MOD * ULONG_MOD)%Z. unfold carry. big_lia. }
  eapply post_bind with (Ψ := λ r, holds 4 r (N mod P256)); [|by intros].
  rewrite -(Z.mod_add N (- K) P256) // -HT.
  destruct (Z.ltb_spec carry 0); [apply reduce_negative_spec|apply reduce_carry_spec];
    try exact secp256r1_p_holds; try done.
  - split; [apply Hrange|]. by apply (carry_negative 4 _ _ _ Hz8).
  - split; [|apply Hrange]. by apply (carry_nonneg 4 _ _ _ Hz8).
Qed.

Lemma vli_mmod_fast_secp224r1_spec res prod N :
  holds 8 prod N → (N < 2 ^ 448)%Z → 4 ≤ length res →
  post (vli_mmod_fast_secp224r1 res prod) (λ r, holds 4 r.1 (N mod P224)).
Proof.
  intros HN HN448 Hres. rewrite /vli_mmod_fast_secp224r1. do 4 get_dig HN.
  change (Z.to_nat 4) with 4. change (Z.to_nat 5) with 5. change (Z.to_nat 6) with 6. change (Z.to_nat 3) with 3.
  pose proof (holds_split 4 4 prod N HN) as [Hlo Hhi].
  eapply post_bind; [eapply uECC_vli_set_spec; [exact Hlo|done]|]. intros r0 Hr0.
  pose proof (upd_length _ _ _ _ Hr0) as Hl0. apply upd_holds in Hr0.
  eapply post_bind; [eapply post_dig; [exact Hr0|lia|exact (eq_refl _)]|]. intros ? <-.
  change (Z.to_nat 3) with 3. rewrite (dig_mod N 4 3); [|lia].
  pose proof (holds_split 3 1 r0 _ Hr0) as [Hr03 _].
  assert ((N mod pw 4) mod pw 3 = N mod pw 3)%Z as E3.
  { change (pw 4) with (pw 3 * ULONG_MOD)%Z. rewrite Z.rem_mul_r //.
    rewrite (Z.mul_comm (pw 3)) Z.mod_add // Z.mod_mod //. }
  rewrite E3 in Hr03.
  eapply post_bind; [eapply post_oset; [lia|exact (eq_refl _)]|]. intros r1 <-.
  assert (holds 4 (<[Z.to_nat 3:=Some (lo32 (dig N 3))]> r0) (N mod pw 3 + pw 3 * lo32 (dig N 3))) as Hr1.
  { apply (upd_holds 4 r0). apply (upd_step 3 r0 (N mod pw 3)).
    - split_and!; done.
    - lia.
    - rewrite lo32_spec. pose proof (half_words (dig N 3) (word_dig N 3)). big_lia. }
  set (r1 := <[Z.to_nat 3:=_]> r0) in *. assert (length r1 = length r0) as Hl1 by by rewrite /r1 length_insert.
  clearbody r1. rewrite lo32_spec in Hr1.
  pose proof (mod_pw_bound N 3) as Hlor. pose proof (holds_range _ _ _ Hhi) as Hhir.
  pose proof (digits_4 _ Hhir) as Hd. rewrite !dig_div in Hd. cbn [Nat.add] in Hd.
  pose proof (Z.div_mod N (pw 4) ltac:(done)) as HNe. rewrite (mod_pw_S N 3) in HNe.
  set (R := (N mod pw 3)%Z) in *. set (Q := (N / pw 4)%Z) in *.
  assert (dig N 7 = 0)%Z as D7.
  { rewrite /dig. rewrite Z.div_small // (pw_2 7). split; [apply HN|exact HN448]. }
  rewrite D7 in Hd. clearbody R Q. mask_rw.
  split_dig N 3 l3 h3. split_dig N 4 l4 h4. split_dig N 5 l5 h5. split_dig N 6 l6 h6.
  assert ((l3 + W32 * h3) mod W32 = l3)%Z as El3.
  { by rewrite (Z.mul_comm W32) Z.mod_add // Z.mod_small. }
  rewrite El3 in Hr1.
  words_step (set_words_0 4). chain_step add_exact.
  words_step (set_words_1 4 t). rewrite (Z.mul_comm ULONG_MOD) Z.mod_add // (Z.mod_small 0) // in Ht0.
  chain_step add_exact.
  words_step (set_words_0 4). chain_step sub_exact.
  words_step (set_words_0 4). chain_step sub_exact.
  set (K := (h3 + 0x100000000 * l4 + 0x10000000000000000 * h4 + 0x1000000000000000000000000 * l5 +
    0x100000000000000000000000000000001 * h5 + 0x10000000000000000000000000000000100000000 * l6 +
    0x1000000000000000000000000000000010000000000000000 * h6)%Z).
  set (carry := (0 - c1 - c2)%Z).
  pose proof (holds_range _ _ _ Hz) as Hzr. pose proof (holds_range _ _ _ Hz0) as Hzr0.
  pose proof (holds_range _ _ _ Hz2) as Hzr2.
  change (pw 4) with (ULONG_MOD * ULONG_MOD * ULONG_MOD * ULONG_MOD)%Z in *.
  change (pw 3) with (ULONG_MOD * ULONG_MOD * ULONG_MOD)%Z in *.
  assert (c = 0)%Z as -> by big_lia. assert (c0 = 0)%Z as -> by big_lia.
  assert (z2 + carry * pw 4 = N + - K * P224)%Z as HT.
  { change (pw 4) with (ULONG_MOD * ULONG_MOD * ULONG_MOD * ULONG_MOD)%Z. unfold K, carry. clear -He He0 He1 He2 Hd HNe. big_lia. }
  assert (-15 * P224 ≤ z2 + carry * pw 4 < 15 * P224 ∧ carry ≤ 0)%Z as [Hrange Hcarry].
  { change (pw 4) with (ULONG_MOD * ULONG_MOD * ULONG_MOD * ULONG_MOD)%Z. unfold carry. big_lia. }
  eapply post_bind with (Ψ := λ r, holds 4 r (N mod P224)); [|by intros].
  rewrite -(Z.mod_add N (- K) P224) // -HT.
  destruct (Z.ltb_spec carry 0).
  - apply reduce_negative_spec; [exact secp224r1_p_holds|done|done|].
    split; [apply Hrange|]. by apply (carry_negative 4 _ _ _ Hz2).
  - assert (carry = 0%Z) as E0 by lia. rewrite E0 Z.mul_0_l Z.add_0_r in Hrange |- *.
    apply reduce_full_spec; [exact secp224r1_p_holds|done|done|apply Hrange].
Qed.
