(* ===== verification/CurveOmega.v ===== *)
(** * CurveOmega: the reductions that multiply by a small constant

    [vli_mmod_fast_secp160r1] and [vli_mmod_fast_secp256k1] of
    lib/ecc/curve-specific.inc fold the upper half of a product back with a
    multiplication by [2^b mod p].  The lemmas follow [omega_mult_*] word by word and the
    folding; the final subtraction leaves a multiple of the prime as the
    prime itself, so the remainder is reached for products of residues of a prime.  The
    result for secp256k1 is given for every product of eight words, with the range in which its
    reduction drops a carry. *)
From Stdlib Require Import Zmod.Zmod.
From stdpp Require Import base list numbers ssreflect.
From S2P Require Import Prelude Memory Outcome Digits Vli VliMod VliBytes CurveField Curves.

(** ** Multiplication by [2^31 + 1] *)

Definition C160 : Z := (2 ^ 31 + 1)%Z.
Definition CK1 : Z := 0x1000003D1%Z.

(** The words of [right] shifted down by half a word. *)
Lemma dig_half_word x i : dig (x / W32) i = (dig x i / W32 + W32 * (dig x (S i) mod W32))%Z.
Proof.
  apply Z.bits_inj'. intros k Hk.
  rewrite -join32; [|by apply half_words, word_dig]. rewrite Z.lor_spec dig_testbit //.
  change W32 with (2 ^ 32)%Z. rewrite -!Z.shiftr_div_pow2 // !Z.shiftr_spec //; [|lia].
  rewrite (Z.mul_comm (2 ^ 32)) -Z.shiftl_mul_pow2 // Z.shiftl_spec // dig_testbit; [|lia].
  destruct (Z.lt_ge_cases k 32).
  - rewrite (proj2 (Z.ltb_lt k 64)); [|lia]. rewrite (proj2 (Z.ltb_lt (k + 32) 64)); [|lia].
    rewrite (Z.testbit_neg_r _ (k - 32)); [|lia]. rewrite orb_false_r /=. f_equal. lia.
  - rewrite (proj2 (Z.ltb_ge (k + 32) 64)) /=; [|lia].
    destruct (Z.ltb_spec k 64); simpl.
    + rewrite Z.mod_pow2_bits_low; [|lia]. rewrite dig_testbit; [|lia].
      rewrite (proj2 (Z.ltb_lt (k - 32) 64)); [|lia]. simpl. f_equal. lia.
    + rewrite Z.mod_pow2_bits_high //. lia.
Qed.

(** One word of the product and the carry out of it. *)
Lemma omega_word t carry :
  word t → (0 ≤ carry ≤ 2 ^ 31)%Z →
  let w := u64 (u64 (u64 (Z.shiftl t 31) + t) + carry) in
  let carry' := u32 (Z.shiftr t 33 + Z.b2z ((w <? t)%Z || (negb (carry =? 0)%Z && (w =? t)%Z))) in
  word w ∧ (w + ULONG_MOD * carry' = t * C160 + carry)%Z.
Proof.
  intros [Ht0 Ht] [Hc0 Hc]. rewrite Z.shiftl_mul_pow2 // Z.shiftr_div_pow2 //. cbv zeta.
  pose proof (Z.div_mod t (2 ^ 33) ltac:(done)) as Hd. pose proof (Z.mod_pos_bound t (2 ^ 33) ltac:(done)) as Hm.
  set (q := (t / 2 ^ 33)%Z) in *. set (m := (t mod 2 ^ 33)%Z) in *. clearbody q m.
  assert (u64 (t * 2 ^ 31) = m * 2 ^ 31)%Z as E1.
  { rewrite /u64. symmetry. apply Z.mod_unique with q; unfold ULONG_MOD in *; lia. }
  rewrite E1 /u64 Zplus_mod_idemp_l.
  assert (0 ≤ q < 2 ^ 31)%Z as Hq by (unfold ULONG_MOD in *; lia).
  set (s := (m * 2 ^ 31 + t + carry)%Z).
  assert (0 ≤ s < 2 * ULONG_MOD)%Z as Hs by (unfold s, ULONG_MOD in *; lia).
  destruct (Z.lt_ge_cases s ULONG_MOD).
  - rewrite (Z.mod_small s) //; [|lia].
    assert ((s <? t)%Z || negb (carry =? 0)%Z && (s =? t)%Z = false) as ->.
    { apply orb_false_iff. split; [apply Z.ltb_ge; unfold s; lia|].
      destruct (Z.eqb_spec carry 0); [done|]. simpl. apply Z.eqb_neq. unfold s. lia. }
    rewrite u32_id; [|rewrite Z.add_0_r; unfold UINT_MOD; lia]. simpl. split; [by split; lia|].
    unfold C160, s, ULONG_MOD. lia.
  - assert (s mod ULONG_MOD = s - ULONG_MOD)%Z as ->.
    { symmetry. apply Z.mod_unique with 1%Z; lia. }
    assert ((s - ULONG_MOD <? t)%Z || negb (carry =? 0)%Z && (s - ULONG_MOD =? t)%Z = true) as ->.
    { apply orb_true_iff. destruct (Z.ltb_spec (s - ULONG_MOD) t); [by left|right].
      unfold s, ULONG_MOD in *. destruct (Z.eqb_spec carry 0); [lia|]. simpl. apply Z.eqb_eq. lia. }
    rewrite u32_id; [|simpl; unfold UINT_MOD; lia]. split; [split; lia|]. simpl.
    unfold C160, s, ULONG_MOD in *. lia.
Qed.

(** A product with a constant, word by word: the words so far and the carry. *)
Lemma carry_bound C h i z k :
  (0 < C)%Z → (0 ≤ z)%Z → (z + pw i * k = (h mod pw i) * C)%Z → (k < C)%Z.
Proof.
  intros HC Hz He. pose proof (pw_pos i). pose proof (mod_pw_bound h i).
  assert (pw i * k < pw i * C)%Z; nia.
Qed.

Lemma carry_step C h i z k w k' :
  (z + pw i * k = (h mod pw i) * C)%Z → (w + ULONG_MOD * k' = dig h i * C + k)%Z →
  (z + pw i * w + pw (S i) * k' = (h mod pw (S i)) * C)%Z.
Proof. intros H1 H2. rewrite mod_pw_S Z.mul_add_distr_r -H1 pw_S. nia. Qed.

Lemma omega_mult_secp160r1_spec result right R :
  holds 4 right R → 4 ≤ length result →
  post (omega_mult_secp160r1 result right) (upd 4 result ((R / W32) mod pw 3 * C160)).
Proof.
  intros HR Hlen. rewrite /omega_mult_secp160r1. set (H := (R / W32)%Z).
  eapply post_bind with (Ψ := λ s, ∃ z, upd 3 result z s.1 ∧ word s.2 ∧ (z + pw 3 * s.2 = (H mod pw 3) * C160)%Z).
  { apply post_ofor with (I := λ i s, (0 ≤ i)%Z ∧ ∃ z, upd (Z.to_nat i) result z s.1 ∧ (0 ≤ s.2)%Z ∧
      (z + pw (Z.to_nat i) * s.2 = (H mod pw (Z.to_nat i)) * C160)%Z).
    - split; [done|]. exists 0%Z. split; [apply upd_0|]. by rewrite pw_0 Z.mod_1_r.
    - intros i [r k] Hi (_ & z & Hz & Hk & He). destruct (Z_of_nat_complete i) as [j ->]; [lia|].
      cbn [fst snd] in *. rewrite Nat2Z.id in Hz He.
      eapply post_bind; [eapply post_dig; [exact HR|lia|exact (eq_refl _)]|]. intros ? <-.
      eapply post_bind; [eapply post_dig; [exact HR|lia|exact (eq_refl _)]|]. intros ? <-.
      rewrite to_nat_S; [|lia]. rewrite !Nat2Z.id (join_rl _ _ (word_dig _ _)) -dig_half_word. fold H. cbv zeta.
      pose proof (holds_range _ _ _ (upd_holds _ _ _ _ Hz)).
      pose proof (carry_bound C160 H j z k ltac:(done) ltac:(lia) He).
      destruct (omega_word (dig H j) k (word_dig _ _)) as [Hw He']; [unfold C160 in *; lia|]. cbv zeta in Hw, He'.
      set (w := u64 (u64 _ + k)) in *. set (k' := u32 _) in *. clearbody k'.
      eapply post_bind; [eapply post_oset; [rewrite (upd_length _ _ _ _ Hz); lia|exact (eq_refl _)]|].
      intros r' <-. rewrite Nat2Z.id. split; [lia|]. exists (z + pw j * w)%Z. cbn [fst snd].
      split; [apply upd_step; [done|lia|done]|]. pose proof (word_dig H j) as [? _]. destruct Hw as [? ?].
      split; [unfold C160 in *; unfold ULONG_MOD in *; lia|]. by eapply carry_step.
    - intros [r k] (_ & z & Hz & Hk & He). exists z. split; [done|]. split; [|done].
      pose proof (holds_range _ _ _ (upd_holds _ _ _ _ Hz)). cbn [fst snd] in *.
      split; [done|]. pose proof (carry_bound C160 H _ z k ltac:(done) ltac:(lia) He). unfold C160, ULONG_MOD in *. lia. }
  intros [r k] (z & Hz & Hk & He). cbn [fst snd] in *.
  apply post_oset; [rewrite (upd_length _ _ _ _ Hz); lia|]. rewrite -He. apply upd_step; [done|lia|done].
Qed.

(** ** The final subtraction stops at the prime *)

Section reduce.
Context (n : nat) (p : array Z) (P : Z) (Hp : holds n p P) (HP : (0 < P)%Z).

(** What remains of a number when the prime is subtracted while the number is greater. *)
Definition above (P r : Z) : Z := if (r =? 0)%Z then 0%Z else ((r - 1) mod P + 1)%Z.

Lemma above_mod r : (0 ≤ r)%Z → (r mod P ≠ 0 ∨ r = 0)%Z → above P r = (r mod P)%Z.
Proof using HP.
  intros Hr H. rewrite /above. destruct (Z.eqb_spec r 0) as [->|Hr0]; [by rewrite Z.mod_0_l; lia|].
  destruct H as [H|]; [|done]. pose proof (Z.mod_pos_bound r P HP). pose proof (Z.div_mod r P ltac:(lia)).
  rewrite -(Z.mod_unique (r - 1) P (r / P) (r mod P - 1)); lia.
Qed.

Lemma reduce_above_spec result r :
  holds n result r → (r < 15 * P)%Z → post (reduce_above p n result) (λ a, holds n a (above P r)).
Proof using All.
  intros Hr HT. pose proof (holds_range _ _ _ Hr).
  apply post_owhile_rel with (m := (r / P)%Z) (I := λ m a, ∃ r', holds n a r' ∧ m = (r' / P)%Z ∧ above P r' = above P r).
  - by exists r.
  - split; [apply Z.div_pos; lia|]. apply Z.div_lt_upper_bound; lia.
  - intros m a (r' & Ha & -> & Hm) _. pose proof (holds_range _ _ _ Ha).
    rewrite (uECC_vli_cmp_unsafe_spec _ _ _ _ _ Ha Hp) {1}/mbind {1}/outcome_bind.
    rewrite /cmp_sign. destruct (Z.compare_spec r' P) as [E|E|E]; simpl.
    + subst r'. rewrite -Hm /above. destruct (Z.eqb_spec P 0); [lia|]. rewrite Z.mod_small; [|lia].
      by rewrite Z.sub_add.
    + rewrite -Hm /above. destruct (Z.eqb_spec r' 0) as [->|]; [done|].
      rewrite Z.mod_small; [|lia]. by rewrite Z.sub_add.
    + eapply post_bind; [eapply sub_exact; [exact Ha|exact Hp|by eapply holds_length]|].
      intros [a' b] (z & Hz & _ & He). pose proof (holds_range _ _ _ Hz). pose proof (pw_pos n).
      assert (z = r' - P)%Z as -> by (assert (b = 0)%Z by nia; lia). simpl. exists ((r' - P) / P)%Z.
      rewrite div_sub_once; [|done]. split.
      * exists (r' - P)%Z. split_and!; [done|by rewrite div_sub_once|]. rewrite -Hm /above.
        destruct (Z.eqb_spec (r' - P) 0); [lia|]. destruct (Z.eqb_spec r' 0); [lia|].
        replace (r' - P - 1)%Z with (r' - 1 - P)%Z by lia. by rewrite -mod_sub_once.
      * assert (1 ≤ r' / P)%Z; [|lia]. apply Z.div_le_lower_bound; lia.
Qed.
End reduce.

(** A product of residues of a prime is a multiple of the prime only when it is zero. *)
Lemma prime_divide_mult P x y : Z.prime P → (P | x * y)%Z → (P | x)%Z ∨ (P | y)%Z.
Proof.
  intros HP Hd. pose proof (Z.prime_ge_2 _ HP).
  destruct (Z.divide_prime_r _ _ HP (Z.gcd_divide_r x P)) as [E|[E|[E|E]]].
  1,2: pose proof (Z.gcd_nonneg x P); lia.
  - right. apply Z.gauss with x; [done|by rewrite Z.gcd_comm].
  - left. rewrite -E. apply Z.gcd_divide_l.
Qed.

Lemma prime_product P x y :
  Z.prime P → (0 ≤ x < P)%Z → (0 ≤ y < P)%Z → ((x * y) mod P ≠ 0 ∨ x * y = 0)%Z.
Proof.
  intros HP Hx Hy. destruct (decide ((x * y) mod P = 0)%Z) as [H|]; [right|by left].
  pose proof (Z.prime_ge_2 _ HP). apply Z.mod_divide in H; [|lia].
  apply prime_divide_mult in H as [H|H]; [| |done].
  - assert (x = 0)%Z as ->; [|lia]. destruct (Z.eq_dec x 0%Z) as [|Hx0]; [done|]. apply Z.divide_pos_le in H; lia.
  - assert (y = 0)%Z as ->; [|lia]. destruct (Z.eq_dec y 0%Z) as [|Hy0]; [done|]. apply Z.divide_pos_le in H; lia.
Qed.

(** ** secp160r1 *)
Lemma clear_second n a :
  holds n a 0 → n + n ≤ length a → post (at_offset n (λ b, uECC_vli_clear b n) a)
    (λ r, holds (n + n) r 0 ∧ length r = length a).
Proof.
  intros Ha Hn. eapply post_at_offset; [lia|apply uECC_vli_clear_spec; rewrite length_drop; lia|]. intros b Hb.
  destruct (upd_at_offset n n a 0 b ltac:(lia) Hb) as (H1 & H2 & H3 & _). split; [|done].
  pose proof (holds_glue n n (take n a ++ b) 0 0) as Hg. rewrite Z.mul_0_r in Hg. apply Hg; [|done].
  apply (holds_take_l n n); [lia|]. rewrite H3 holds_take_l; [done|lia].
Qed.

(** The low half of the highest word is kept: the remainder modulo half a word more. *)
Lemma holds_low_half k n a x :
  holds n a x → k < n → holds (S k) (<[k := Some (lo32 (dig x k))]> a) (x mod (pw k * W32)).
Proof.
  intros Ha Hk. pose proof (holds_length _ _ _ Ha). pose proof (half_words (dig x k) (word_dig x k)).
  assert (x mod (pw k * W32) = x mod pw k + pw k * lo32 (dig x k))%Z as ->.
  { rewrite lo32_spec Z.rem_mul_r; [|pose proof (pw_pos k); lia|done]. f_equal. f_equal.
    rewrite /dig. change ULONG_MOD with (W32 * W32)%Z. symmetry. apply Z.mod_mod_divide. by exists W32. }
  apply (upd_holds _ a). apply upd_step; [|lia|rewrite lo32_spec; split; unfold W32, ULONG_MOD in *; lia].
  split_and!; [eapply holds_take; [exact Ha|lia]|done|done].
Qed.

Lemma holds_high n m a x y : holds n a x → holds m (drop n a) 0 → y = x → holds (n + m) a y.
Proof. intros H1 H2 ->. pose proof (holds_glue n m a x 0 H1 H2) as H. by rewrite Z.mul_0_r Z.add_0_r in H. Qed.

Lemma vli_mmod_fast_secp160r1_spec res prod N :
  holds 6 prod N → (N < 2 ^ 320)%Z → (N mod P160 ≠ 0 ∨ N = 0)%Z → 3 ≤ length res →
  post (vli_mmod_fast_secp160r1 res prod) (λ r, holds 3 r.1 (N mod P160)).
Proof.
  intros HN HN320 Hz Hres. pose proof (holds_range _ _ _ HN) as [HN0 _]. rewrite /vli_mmod_fast_secp160r1.
  set (B := (2 ^ 160)%Z). set (H := (N / B)%Z).
  assert (0 ≤ H < B)%Z as HH.
  { split; [by apply Z.div_pos|]. apply Z.div_lt_upper_bound; [done|]. exact HN320. }
  assert (H = (N / pw 2) / W32)%Z as EH by (rewrite Z.div_div //).
  eapply post_bind; [apply (uECC_vli_clear_spec 3); rewrite length_replicate; lia|]. intros t0 Ht0.
  pose proof (upd_length _ _ _ _ Ht0) as Hl0. change (length (local_vli (2 * 3))) with 6 in Hl0.
  eapply post_bind; [apply (clear_second 3); [by eapply upd_holds|rewrite Hl0; lia]|]. intros t1 [Ht1 Hl1].
  pose proof (holds_split 2 4 prod N HN) as [_ HR].
  eapply post_bind; [eapply omega_mult_secp160r1_spec; [exact HR|rewrite Hl1 Hl0; lia]|].
  intros t2 Ht2. rewrite -EH (Z.mod_small H) in Ht2; [|unfold B in HH; change (pw 3) with (2 ^ 192)%Z; lia].
  set (T := (H * C160)%Z) in *. assert (0 ≤ T < pw 3)%Z as HT.
  { unfold T, C160, B in *. change (pw 3) with (2 ^ 192)%Z. lia. }
  assert (holds 6 t2 T) as Ht26.
  { apply (holds_high 4 2 t2 T); [by eapply upd_holds| |done].
    rewrite (upd_drop _ _ _ _ 4 Ht2) //. pose proof (holds_split 4 2 t1 0 Ht1) as [_ H0]. by rewrite Zdiv_0_l in H0. }
  get_dig HN. eapply post_bind; [eapply post_oset; [pose proof (holds_length _ _ _ HN); lia|exact (eq_refl _)]|]. intros p1 <-.
  get_dig Ht26. eapply post_bind; [eapply post_oset; [pose proof (holds_length _ _ _ Ht26); lia|exact (eq_refl _)]|]. intros t3 <-.
  change (Z.to_nat 2) with 2.
  pose proof (holds_low_half 2 6 prod N HN ltac:(lia)) as Hp1. pose proof (holds_low_half 2 6 t2 T Ht26 ltac:(lia)) as Ht3.
  change (pw 2 * W32)%Z with B in *.
  eapply post_bind; [eapply (add_exact 3); [exact Hp1|exact Ht3|done]|]. intros [r1 c1] (z1 & Hz1 & Hlr1 & He1).
  set (p1 := <[2:=_]> prod) in *. assert (length p1 = length prod) as Hlp1 by by rewrite /p1 length_insert.
  eapply post_bind; [eapply (uECC_vli_clear_spec 3); pose proof (holds_length _ _ _ HN); lia|]. intros p2 Hp2.
  eapply post_bind; [eapply post_oset; [rewrite length_insert; pose proof (holds_length _ _ _ Ht26); lia|exact (eq_refl _)]|].
  intros t4 <-. change (Z.to_nat 2) with 2. rewrite list_insert_insert_eq list_insert_id; [|apply (holds_lookup _ _ _ _ Ht26); lia].
  pose proof (holds_split 2 4 t2 T Ht26) as [_ HR2].
  eapply post_bind; [eapply omega_mult_secp160r1_spec; [exact HR2|rewrite (upd_length _ _ _ _ Hp2) Hlp1; pose proof (holds_length _ _ _ HN); lia]|].
  intros p3 Hp3%upd_holds. rewrite Z.div_div // in Hp3. change (pw 2 * W32)%Z with B in Hp3.
  assert (0 ≤ T / B < W32)%Z as HTB.
  { split; [apply Z.div_pos; [apply HT|done]|]. apply Z.div_lt_upper_bound; [done|]. change (B * W32)%Z with (pw 3). apply HT. }
  rewrite (Z.mod_small (T / B)) in Hp3; [|change (pw 3) with (2 ^ 192)%Z; unfold W32 in HTB; lia].
  assert (T / B * C160 < pw 3)%Z by (change (pw 3) with (2 ^ 192)%Z; unfold W32, C160 in *; lia).
  apply (holds_take 4 3) in Hp3; [|lia]. rewrite Z.mod_small in Hp3; [|split; [unfold C160; lia|done]].
  eapply post_bind; [eapply (add_exact 3); [exact Hz1|exact Hp3|by eapply holds_length]|]. intros [r2 c2] (z2 & Hz2 & Hlr2 & He2).
  pose proof (Z.mod_pos_bound N B ltac:(done)) as HNB. pose proof (Z.mod_pos_bound T B ltac:(done)) as HTM.
  pose proof (holds_range _ _ _ Hz1) as Hr1. pose proof (holds_range _ _ _ Hz2) as Hr2.
  pose proof (Z.div_mod N B ltac:(done)) as EN. fold H in EN. pose proof (Z.div_mod T B ltac:(done)) as ET.
  change (pw 3) with (B * W32)%Z in *.
  assert (c1 = 0 ∧ c2 = 0)%Z as [-> ->] by (unfold B, W32, C160 in *; lia).
  assert (z2 = N + - (H + T / B) * P160)%Z as EZ.
  { unfold T, C160, P160 in *. change (2 ^ 160)%Z with B. change (2 ^ 31)%Z with 2147483648%Z in *. lia. }
  assert (N mod P160 = z2 mod P160)%Z as EM by by rewrite EZ Z.mod_add.
  eapply post_bind; [eapply (reduce_above_spec 3 _ P160 secp160r1_p_holds ltac:(done)); [exact Hz2|]|].
  { unfold P160, B, W32, C160 in *. lia. }
  intros r Hr. rewrite EM. rewrite above_mod in Hr; [exact Hr|done|apply Hr2|].
  rewrite -EM. destruct Hz as [|Hz]; [by left|right].
  rewrite EZ Hz. rewrite Hz in EN. unfold T, H in *. rewrite Hz /B. done.
Qed.

(** ** secp256k1 *)
Lemma omega_mult_secp256k1_spec result right R :
  holds 4 right R → 5 ≤ length result → post (omega_mult_secp256k1 result right) (upd 5 result (R * CK1)).
Proof.
  intros HR Hlen. pose proof (holds_range _ _ _ HR) as HRr. rewrite /omega_mult_secp256k1.
  eapply post_bind with (Ψ := λ s, ∃ z, upd 4 result z s.1 ∧ acc_words s.2 ∧ (z + pw 4 * acc s.2 = (R mod pw 4) * CK1)%Z).
  { apply post_ofor with (I := λ i s, (0 ≤ i)%Z ∧ ∃ z, upd (Z.to_nat i) result z s.1 ∧ acc_words s.2 ∧
      (z + pw (Z.to_nat i) * acc s.2 = (R mod pw (Z.to_nat i)) * CK1)%Z).
    - split; [done|]. exists 0%Z. split; [apply upd_0|]. split; [done|]. by rewrite pw_0 Z.mod_1_r.
    - intros i [r s] Hi (_ & z & Hz & Hw & He). destruct (Z_of_nat_complete i) as [j ->]; [lia|].
      cbn [fst snd] in *. rewrite Nat2Z.id in Hz He. get_dig HR. rewrite to_nat_S; [|lia]. rewrite !Nat2Z.id.
      pose proof (holds_range _ _ _ (upd_holds _ _ _ _ Hz)).
      pose proof (carry_bound CK1 R j z _ ltac:(done) ltac:(lia) He) as Hk. pose proof (word_dig R j) as [Hd0 Hd].
      destruct (muladd_spec CK1 (dig R j) s) as [Hw' Hacc']; [done|done|done|unfold CK1 in *; change (pw 3) with (ULONG_MOD * ULONG_MOD * ULONG_MOD)%Z; unfold ULONG_MOD in *; lia|].
      change 0x1000003D1%Z with CK1. destruct (muladd CK1 (dig R j) s) as [[r0 r1] r2]. rewrite /mult_store.
      eapply post_bind; [eapply post_oset; [rewrite (upd_length _ _ _ _ Hz); lia|exact (eq_refl _)]|].
      intros r' <-. rewrite Nat2Z.id. destruct Hw' as (H0 & H1 & H2). split; [lia|]. exists (z + pw j * r0)%Z. cbn [fst snd].
      split; [apply upd_step; [done|lia|done]|]. split; [by split_and!|].
      apply (carry_step CK1 R j z (acc s)); [done|]. rewrite /acc /= in Hacc' |- *. lia.
    - intros [r s] (_ & z & Hz & Hw & He). by exists z. }
  intros [r [[r0 r1] r2]] (z & Hz & (H0 & H1 & H2) & He). cbn [fst snd] in *.
  apply post_oset; [rewrite (upd_length _ _ _ _ Hz); lia|]. rewrite (Z.mod_small R) // in He.
  pose proof (holds_range _ _ _ (upd_holds _ _ _ _ Hz)) as Hzr.
  pose proof (carry_bound CK1 R 4 z (acc (r0, r1, r2)) ltac:(done) ltac:(lia)) as Hk.
  rewrite (Z.mod_small R) // in Hk. specialize (Hk He).
  rewrite /acc /= in Hk He. destruct H0, H1, H2. cbn [fst snd] in *.
  assert (r1 = 0 ∧ r2 = 0)%Z as [-> ->] by (unfold CK1, ULONG_MOD in *; lia).
  rewrite -He. replace (r0 + ULONG_MOD * 0 + ULONG_MOD * ULONG_MOD * 0)%Z with r0 by lia.
  replace (r0 + _)%Z with r0 by lia. apply upd_step; [done|lia|done].
Qed.

(** The sum that the folding of a product makes. *)
Definition folded_secp256k1 (N : Z) : Z :=
  let B := (2 ^ 256)%Z in let T := (N / B * CK1)%Z in (N mod B + T mod B + T / B * CK1)%Z.

(** Subtracting the prime from four words, again and again, is adding [CK1] modulo [2^256]. *)
Lemma subtract_secp256k1 k r z :
  holds 4 r z →
  post (ofor k 0 (λ _ r, '(r, _) ← uECC_vli_sub r r secp256k1_p 4; Ok r) r) (λ r, holds 4 r ((z + Z.of_nat k * CK1) mod 2 ^ 256)).
Proof.
  intros Hz. apply post_ofor with (I := λ i r, (0 ≤ i)%Z ∧ holds 4 r ((z + i * CK1) mod 2 ^ 256)).
  - split; [done|]. rewrite Z.mul_0_l Z.add_0_r Z.mod_small; [done|]. exact (holds_range _ _ _ Hz).
  - intros i r' Hi [_ Hr']. eapply post_bind; [eapply uECC_vli_sub_spec; [exact Hr'|exact secp256k1_p_holds|by eapply holds_length]|].
    intros [r2 b] [Hr2%upd_holds _]. split; [lia|]. change (pw 4) with (2 ^ 256)%Z in Hr2.
    rewrite Zminus_mod_idemp_l in Hr2. replace (z + (i + 1) * CK1)%Z with (z + i * CK1 - PK1 + 1 * 2 ^ 256)%Z.
    + by rewrite Z.mod_add.
    + replace (2 ^ 256)%Z with (PK1 + CK1)%Z by done. ring.
  - intros r' [_ Hr']. exact Hr'.
Qed.

(** The three numbers that [folded_secp256k1] adds are what the two sums see: the result before the last comparison. *)
Lemma secp256k1_folds N z1 z2 c1 c2 :
  let B := (2 ^ 256)%Z in let T := (N / B * CK1)%Z in
  (0 ≤ N < B * B)%Z → (z1 + c1 * B = N mod B + T mod B)%Z → (z2 + c2 * B = z1 + T / B * CK1)%Z →
  (z2 + (c1 + c2) * B = folded_secp256k1 N)%Z ∧ (folded_secp256k1 N mod PK1 = N mod PK1)%Z ∧ (0 ≤ folded_secp256k1 N < 2 * B + CK1 * CK1)%Z.
Proof.
  intros B T HN He1 He2. change (folded_secp256k1 N) with (N mod B + T mod B + T / B * CK1)%Z.
  pose proof (Z.div_mod N B ltac:(done)) as EN. pose proof (Z.div_mod T B ltac:(done)) as ET.
  pose proof (Z.mod_pos_bound N B ltac:(done)). pose proof (Z.mod_pos_bound T B ltac:(done)).
  assert (0 ≤ N / B < B)%Z as HH by (split; [apply Z.div_pos; [lia|done]|apply Z.div_lt_upper_bound; [done|lia]]).
  assert (0 ≤ T / B < CK1)%Z as HTB.
  { split; [apply Z.div_pos; [unfold T, CK1; lia|done]|]. apply Z.div_lt_upper_bound; [done|]. unfold T, CK1. lia. }
  split_and!; [lia| |unfold CK1 in *; lia|unfold CK1 in *; lia].
  assert (N = N mod B + T mod B + T / B * CK1 + (N / B + T / B) * PK1)%Z as E; [|transitivity ((N mod B + T mod B + T / B * CK1 + (N / B + T / B) * PK1) mod PK1)%Z; [by rewrite Z.mod_add|by rewrite -E]].
  assert (B = PK1 + CK1)%Z as EB by done. unfold T in *. clear -EN ET EB. clearbody B. nia.
Qed.

(** What is left after the subtractions that stand for the carry [k] of the sum [F]. *)
Lemma secp256k1_subtracted N F z k :
  let B := (2 ^ 256)%Z in let S := ((z + k * CK1) mod B)%Z in
  (z + k * B = F)%Z → (F mod PK1 = N mod PK1)%Z → (0 ≤ F < 2 * B + CK1 * CK1)%Z → (0 ≤ z < B)%Z → (0 ≤ k ≤ 2)%Z →
  if decide (2 ^ 257 - CK1 ≤ F < 2 ^ 257)%Z then (S < CK1)%Z ∧ ((S + CK1) mod PK1 = N mod PK1)%Z else (S mod PK1 = N mod PK1)%Z.
Proof.
  intros B S HF Hmod HF2 Hz Hk. change (2 ^ 257)%Z with (2 * B)%Z. assert (B = PK1 + CK1)%Z as EB by done.
  assert (CK1 * 4 < B ∧ CK1 * CK1 < B - 2 * CK1 ∧ 0 < CK1)%Z as (H1 & H2 & H3) by done. subst S. clearbody B.
  revert H1 H2 H3 EB HF2. generalize CK1 as C. intros C H1 H2 H3 EB HF2.
  assert (F = z + k * C + k * PK1)%Z as EF by (rewrite -HF EB; ring). rewrite EF Z.mod_add in Hmod; [|done].
  case_decide as Hd.
  - assert (k = 1)%Z as -> by nia. assert ((z + 1 * C) mod B = z + 1 * C - B)%Z as ->.
    { symmetry. apply Z.mod_unique with 1%Z; lia. }
    split; [lia|]. by replace (z + 1 * C - B + C)%Z with (z + 1 * C + -1 * PK1)%Z by lia; rewrite Z.mod_add.
  - rewrite (Z.mod_small (_ + _) B); [done|]. assert (k = 0 ∨ k = 1 ∨ k = 2)%Z as [-> |[-> | ->]] by lia; nia.
Qed.

(** The result, for every product of eight words. *)
Lemma vli_mmod_fast_secp256k1_exact res prod N :
  holds 8 prod N → 4 ≤ length res →
  post (vli_mmod_fast_secp256k1 res prod) (λ r, ∃ z, holds 4 r.1 z ∧
    if decide (2 ^ 257 - CK1 ≤ folded_secp256k1 N < 2 ^ 257)%Z
    then z = (N mod PK1 - CK1)%Z
    else (z mod PK1 = N mod PK1)%Z ∧ (0 ≤ z ≤ PK1)%Z).
Proof.
  intros HN Hres. pose proof (holds_range _ _ _ HN) as HNr. rewrite /vli_mmod_fast_secp256k1.
  set (B := (2 ^ 256)%Z) in *. set (T := (N / B * CK1)%Z).
  eapply post_bind; [apply (uECC_vli_clear_spec 4); rewrite length_replicate; lia|]. intros t0 Ht0.
  pose proof (upd_length _ _ _ _ Ht0) as Hl0. change (length (local_vli (2 * 4))) with 8 in Hl0.
  eapply post_bind; [apply (clear_second 4); [by eapply upd_holds|rewrite Hl0; lia]|]. intros t1 [Ht1 Hl1].
  pose proof (holds_split 4 4 prod N HN) as [Hlo HR].
  eapply post_bind; [eapply omega_mult_secp256k1_spec; [exact HR|rewrite Hl1 Hl0; lia]|].
  intros t2 Ht2. change (pw 4) with B in *. fold T in Ht2.
  assert (holds 8 t2 T) as Ht28.
  { apply (holds_high 5 3 t2 T); [by eapply upd_holds| |done].
    rewrite (upd_drop _ _ _ _ 5 Ht2) //. pose proof (holds_split 5 3 t1 0 Ht1) as [_ H0]. by rewrite Zdiv_0_l in H0. }
  pose proof (holds_split 4 4 t2 T Ht28) as [Htlo Hthi]. change (pw 4) with B in *.
  eapply post_bind; [eapply (add_exact 4); [exact Hlo|exact Htlo|done]|]. intros [r1 c1] (z1 & Hz1 & Hlr1 & He1).
  pose proof (holds_length _ _ _ HN) as HlN.
  eapply post_bind; [eapply (uECC_vli_clear_spec 4); lia|]. intros p2 Hp2.
  eapply post_bind; [eapply omega_mult_secp256k1_spec; [exact Hthi|rewrite (upd_length _ _ _ _ Hp2); lia]|].
  intros p3 Hp3%upd_holds. pose proof (holds_range _ _ _ Hthi) as Hthir. change (pw 4) with B in *.
  assert (0 ≤ N / B < B)%Z as HH by exact (holds_range _ _ _ HR).
  assert (T / B < CK1)%Z by (apply Z.div_lt_upper_bound; [done|]; unfold T, CK1; lia).
  apply (holds_take 5 4) in Hp3; [|lia]. change (pw 4) with B in *. rewrite Z.mod_small in Hp3; [|unfold CK1, B in *; lia].
  eapply post_bind; [eapply (add_exact 4); [exact Hz1|exact Hp3|by eapply holds_length]|]. intros [r2 c2] (z2 & Hz2 & Hlr2 & He2).
  change (pw 4) with B in *.
  destruct (secp256k1_folds N z1 z2 c1 c2 HNr He1 He2) as (HF & Hcong & HF2). fold B in HF, HF2.
  pose proof (holds_range _ _ _ Hz2) as Hr2. pose proof (holds_range _ _ _ Hz1) as Hr1. change (pw 4) with B in *.
  set (F := folded_secp256k1 N) in *. clearbody F.
  assert (0 ≤ c1 + c2 ≤ 2)%Z as Hc by (unfold B, CK1 in *; lia).
  eapply post_bind; [by apply subtract_secp256k1|]. intros r Hr. fold B in Hr. rewrite Z2Nat.id in Hr; [|lia].
  set (S := ((z2 + (c1 + c2) * CK1) mod B)%Z) in *.
  assert (0 ≤ S < B)%Z as HS by (unfold S; by apply Z.mod_pos_bound).
  pose proof (secp256k1_subtracted N _ z2 (c1 + c2) HF Hcong HF2 Hr2 Hc) as HSN. fold B S in HSN.
  rewrite (uECC_vli_cmp_unsafe_spec _ _ _ _ _ Hr secp256k1_p_holds) {1}/mbind {1}/outcome_bind.
  rewrite /cmp_sign. destruct (Z.compare_spec S PK1) as [E|E|E]; simpl.
  - exists S. split; [exact Hr|]. case_decide; [|split; [exact HSN|lia]].
    exfalso. destruct HSN as [Hlt _]. rewrite E in Hlt. by vm_compute in Hlt.
  - exists S. split; [exact Hr|]. case_decide; [|split; [exact HSN|lia]].
    destruct HSN as [Hlt Hcg]. rewrite -Hcg Z.mod_small; [lia|]. unfold CK1, PK1 in *. lia.
  - eapply post_bind; [eapply sub_exact; [exact Hr|exact secp256k1_p_holds|by eapply holds_length]|].
    intros [r' b] (z & Hz3 & _ & He). pose proof (holds_range _ _ _ Hz3) as Hz3r. change (pw 4) with B in *. simpl.
    assert (b = 0)%Z as -> by (unfold B, PK1 in *; lia). exists z. split; [exact Hz3|].
    case_decide; [destruct HSN as [Hlt _]; exfalso; unfold CK1, PK1 in *; lia|].
    assert (z = S + -1 * PK1)%Z as -> by lia. split; [by rewrite Z.mod_add|unfold B, PK1 in *; lia].
Qed.

(** ** The curves as instances *)
Lemma product_bound P k x y :
  (0 < P)%Z → (P * P ≤ k)%Z → (0 ≤ x < P)%Z → (0 ≤ y < P)%Z → (0 ≤ x * y < k)%Z.
Proof. intros. assert (x * y < P * P)%Z by (apply Z.mul_lt_mono_nonneg; lia). nia. Qed.

#[export] Instance secp192r1_field : CurveField curve_field_secp192r1 P192.
Proof.
  split; [by simpl; unfold uECC_MAX_WORDS; lia|exact secp192r1_p_holds|done|done|]. cbn [num_words mmod_fast curve_field_secp192r1].
  intros res prod x y Hp _ _ Hr. by apply vli_mmod_fast_secp192r1_spec.
Qed.

#[export] Instance secp256r1_field : CurveField curve_field_secp256r1 P256.
Proof.
  split; [by simpl; unfold uECC_MAX_WORDS; lia|exact secp256r1_p_holds|done|done|]. cbn [num_words mmod_fast curve_field_secp256r1].
  intros res prod x y Hp _ _ Hr. by apply vli_mmod_fast_secp256r1_spec.
Qed.

#[export] Instance secp224r1_field : CurveField curve_field_secp224r1 P224.
Proof.
  split; [by simpl; unfold uECC_MAX_WORDS; lia|exact secp224r1_p_holds|done|done|]. cbn [num_words mmod_fast curve_field_secp224r1].
  intros res prod x y Hp Hx Hy Hr. apply vli_mmod_fast_secp224r1_spec; [done| |done].
  apply (product_bound P224 (2 ^ 448) x y); [done|apply Z.leb_le; by vm_compute|done|done].
Qed.

Lemma secp160r1_field : Z.prime P160 → CurveField curve_field_secp160r1 P160.
Proof.
  intros HP. split; [by simpl; unfold uECC_MAX_WORDS; lia|exact secp160r1_p_holds|done|done|]. cbn [num_words mmod_fast curve_field_secp160r1].
  intros res prod x y Hp Hx Hy Hr. apply vli_mmod_fast_secp160r1_spec; [done| |by apply prime_product|done].
  apply (product_bound P160 (2 ^ 320) x y); [done|apply Z.leb_le; by vm_compute|done|done].
Qed.

(** ** A lost carry *)

(** A product of eight words for which the sum of the folding lies between [2^257 - CK1] and [2^257]. *)
Definition lost_product : Z := (((2 ^ 256 - 1) / CK1) * 2 ^ 256 + (2 ^ 256 - 1))%Z.
