(* ===== verification/CurveGroup.v ===== *)
(** * CurveGroup: what the point operations rely on

    Congruence modulo the prime of a curve with its morphisms, and [EcGroup]: the
    group of the points of a curve [y^2 = x^3 + a x + b] as textbooks state it, with
    coordinates, the chord and the tangent.  The functions of lib/ecc/uECC.c that
    add and multiply points are proved against this interface; multiples of a point and the
    order of a point are defined on it. *)
From Stdlib Require Import Zmod.Zmod.
From stdpp Require Import base list numbers ssreflect.
From S2P Require Import Prelude Memory Outcome Digits Vli VliMod CurveField.

(** ** Congruence *)

Definition cong (P x y : Z) : Prop := (x mod P = y mod P)%Z.

#[export] Instance cong_equivalence P : Equivalence (cong P).
Proof. split; [done|by intros ??|]. intros x y z H1 H2. unfold cong in *. congruence. Qed.
#[export] Instance cong_add P : Proper (cong P ==> cong P ==> cong P) Z.add.
Proof. intros x x' Hx y y' Hy. by rewrite /cong Zplus_mod Hx Hy -Zplus_mod. Qed.
#[export] Instance cong_sub P : Proper (cong P ==> cong P ==> cong P) Z.sub.
Proof. intros x x' Hx y y' Hy. by rewrite /cong Zminus_mod Hx Hy -Zminus_mod. Qed.
#[export] Instance cong_mul P : Proper (cong P ==> cong P ==> cong P) Z.mul.
Proof. intros x x' Hx y y' Hy. by rewrite /cong Zmult_mod Hx Hy -Zmult_mod. Qed.
#[export] Instance cong_opp P : Proper (cong P ==> cong P) Z.opp.
Proof. intros x x' Hx. rewrite -!Z.sub_0_l. by apply cong_sub. Qed.
#[export] Instance cong_decision P x y : Decision (cong P x y) := decide (x mod P = y mod P)%Z.

Lemma cong_mod P x : cong P (x mod P) x.
Proof. destruct (Z.eq_dec P 0%Z) as [->|]; [by rewrite /cong !Zmod_0_r|]. by rewrite /cong Z.mod_mod. Qed.

Lemma cong_sub_0 P x y : cong P x y ↔ cong P (x - y) 0.
Proof.
  split; intros H; [by rewrite H Z.sub_diag|].
  replace x with (x - y + y)%Z by lia. rewrite {1}H. by rewrite Z.add_0_l.
Qed.

Lemma cong_0_divide P x : (0 < P)%Z → cong P x 0 ↔ (P | x)%Z.
Proof. intros HP. rewrite /cong Z.mod_0_l; [|lia]. apply Z.mod_divide. lia. Qed.

Lemma cong_small P x : (0 < x < P)%Z → ¬ cong P x 0.
Proof. intros Hx. rewrite /cong Z.mod_0_l; [|lia]. rewrite Z.mod_small; lia. Qed.

Section prime.
Context (P : Z) (HP : Z.prime P).

Lemma prime_pos : (0 < P)%Z.
Proof using HP. pose proof (Z.prime_ge_2 _ HP). lia. Qed.

Lemma prime_gcd x : ¬ cong P x 0 → Z.gcd x P = 1%Z.
Proof using HP.
  intros Hx. pose proof prime_pos. pose proof (Z.gcd_nonneg x P).
  destruct (Z.divide_prime_r _ _ HP (Z.gcd_divide_r x P)) as [E|[E|[E|E]]]; try lia.
  exfalso. apply Hx, cong_0_divide; [done|]. rewrite -{1}E. apply Z.gcd_divide_l.
Qed.

Lemma cong_cancel x y z : ¬ cong P x 0 → cong P (x * y) (x * z) → cong P y z.
Proof using HP.
  intros Hx H. pose proof prime_pos. apply cong_sub_0, cong_0_divide; [done|].
  apply Z.gauss with x; [|rewrite Z.gcd_comm; by apply prime_gcd].
  apply cong_0_divide; [done|]. by rewrite Z.mul_sub_distr_l -cong_sub_0.
Qed.

Lemma cong_mul_0 x y : cong P (x * y) 0 → cong P x 0 ∨ cong P y 0.
Proof using HP.
  intros H. destruct (decide (cong P x 0)) as [|Hx]; [by left|right].
  apply (cong_cancel x); [done|]. by rewrite Z.mul_0_r.
Qed.

Lemma cong_mul_neq x y : ¬ cong P x 0 → ¬ cong P y 0 → ¬ cong P (x * y) 0.
Proof using HP. intros Hx Hy H. by destruct (cong_mul_0 _ _ H). Qed.

Lemma cong_square x y : cong P (x * x) (y * y) → cong P x y ∨ cong P x (- y).
Proof using HP.
  intros H. destruct (cong_mul_0 (x - y) (x + y)) as [H0|H0].
  - replace ((x - y) * (x + y))%Z with (x * x - y * y)%Z by ring. by apply (proj1 (cong_sub_0 _ _ _)).
  - left. by apply cong_sub_0.
  - right. apply cong_sub_0. by rewrite Z.sub_opp_r.
Qed.
End prime.

(** ** The group *)

Definition chord_x (ax bx l : Z) : Z := (l * l - ax - bx)%Z.
Definition chord_y (ax ay bx l : Z) : Z := (l * (ax - chord_x ax bx l) - ay)%Z.

(** The points of the curve [y^2 = x^3 + a x + b] modulo [P]; the coordinates of the neutral element mean nothing. *)
Class EcGroup (E : Type) (P a b : Z) := {
  ezero : E;
  eplus : E → E → E;
  eopp : E → E;
  cx : E → Z;
  cy : E → Z;
  eplus_assoc A B C : eplus A (eplus B C) = eplus (eplus A B) C;
  eplus_comm A B : eplus A B = eplus B A;
  eplus_zero A : eplus A ezero = A;
  eplus_opp A : eplus A (eopp A) = ezero;
  on_curve A : A ≠ ezero → cong P (cy A ^ 2) (cx A ^ 3 + a * cx A + b);
  coords_inj A B : A ≠ ezero → B ≠ ezero → cong P (cx A) (cx B) → cong P (cy A) (cy B) → A = B;
  opp_coords A : A ≠ ezero → cong P (cx (eopp A)) (cx A) ∧ cong P (cy (eopp A)) (- cy A);
  chord A B : A ≠ ezero → B ≠ ezero → ¬ cong P (cx A) (cx B) →
    ∃ l, cong P (l * (cx B - cx A)) (cy B - cy A) ∧
      cong P (cx (eplus A B)) (chord_x (cx A) (cx B) l) ∧ cong P (cy (eplus A B)) (chord_y (cx A) (cy A) (cx B) l);
  tangent A : A ≠ ezero → eplus A A ≠ ezero →
    ∃ l, cong P (2 * cy A * l) (3 * cx A ^ 2 + a) ∧
      cong P (cx (eplus A A)) (tangent_x (cx A) l) ∧ cong P (cy (eplus A A)) (tangent_y (cx A) (cy A) l)
}.

Section group.
Context {E : Type} {P a b : Z} `{!EcGroup E P a b} (HP : Z.prime P).
Implicit Types A B C : E.
Local Notation "A ⊕ B" := (eplus A B) (at level 50, left associativity).
Local Notation "⊖ A" := (eopp A) (at level 35).

Lemma eplus_zero_l A : ezero ⊕ A = A.
Proof. by rewrite eplus_comm eplus_zero. Qed.

Lemma eplus_cancel A B C : A ⊕ B = A ⊕ C → B = C.
Proof.
  intros H. rewrite -(eplus_zero_l B) -(eplus_zero_l C) -(eplus_opp A) (eplus_comm A (⊖ A)) -!eplus_assoc. by rewrite H.
Qed.

Lemma eopp_unique A B : A ⊕ B = ezero → B = ⊖ A.
Proof. intros H. apply (eplus_cancel A). by rewrite H eplus_opp. Qed.

Lemma eopp_neq A : A ≠ ezero → ⊖ A ≠ ezero.
Proof. intros HA H. apply HA. by rewrite -(eplus_opp A) H eplus_zero. Qed.

Lemma eopp_eopp A : ⊖ (⊖ A) = A.
Proof. symmetry. apply eopp_unique. by rewrite eplus_comm eplus_opp. Qed.

(** Two points with the same first coordinate. *)
Lemma same_x A B : A ≠ ezero → B ≠ ezero → cong P (cx A) (cx B) → B = A ∨ B = ⊖ A.
Proof using HP.
  intros HA HB Hx. pose proof (on_curve A HA) as HcA. pose proof (on_curve B HB) as HcB.
  assert (cong P (cy B * cy B) (cy A * cy A)) as Hy.
  { rewrite !Z.pow_2_r in HcA, HcB. rewrite HcA HcB. change 3%Z with (Z.succ (Z.succ (Z.succ 0))).
    rewrite !Z.pow_succ_r // !Z.pow_0_r. by rewrite Hx. }
  destruct (cong_square P HP _ _ Hy) as [Hy'|Hy'].
  - left. apply coords_inj; done.
  - right. destruct (opp_coords A HA) as [Hox Hoy]. apply coords_inj; [done|by apply eopp_neq| |].
    + by rewrite Hox.
    + by rewrite Hoy.
Qed.

Lemma differ_x A B : A ≠ ezero → B ≠ ezero → A ≠ B → A ⊕ B ≠ ezero → ¬ cong P (cx A) (cx B).
Proof using HP.
  intros HA HB Hne Hs Hx. destruct (same_x A B HA HB Hx) as [->| ->]; [done|]. by rewrite eplus_opp in Hs.
Qed.

Lemma cy_neq A : A ≠ ezero → A ⊕ A ≠ ezero → ¬ cong P (cy A) 0.
Proof using HP.
  intros HA H2 Hy. destruct (opp_coords A HA) as [Hox Hoy]. apply H2.
  assert (A = ⊖ A) as Heq; [|by rewrite {2}Heq eplus_opp].
  apply coords_inj; [done|by apply eopp_neq|by rewrite Hox|]. by rewrite Hoy Hy.
Qed.

(** ** Multiples *)

Definition emul (k : Z) (A : E) : E := Z.iter k (eplus A) ezero.

Lemma emul_0 A : emul 0 A = ezero.
Proof. done. Qed.
Lemma emul_1 A : emul 1 A = A.
Proof. rewrite /emul /=. apply eplus_zero. Qed.
Lemma emul_succ k A : (0 ≤ k)%Z → emul (k + 1) A = A ⊕ emul k A.
Proof.
  intros Hk. destruct k as [|p|p]; [done| |lia]. rewrite /emul /= Pos.add_1_r. apply Pos.iter_succ.
Qed.

Lemma emul_add j k A : (0 ≤ j)%Z → (0 ≤ k)%Z → emul (j + k) A = emul j A ⊕ emul k A.
Proof.
  intros Hj Hk. pattern j. apply natlike_ind; [by rewrite Z.add_0_l emul_0 eplus_zero_l| |done].
  intros i Hi IH. rewrite -Z.add_1_r emul_succ // -eplus_assoc -IH -emul_succ; [f_equal|]; lia.
Qed.

Lemma emul_zero k : emul k ezero = ezero.
Proof.
  destruct (Z.le_gt_cases 0 k) as [Hk|Hk]; [|by destruct k].
  pattern k. apply natlike_ind; [done| |done]. intros i Hi IH. by rewrite -Z.add_1_r emul_succ // IH eplus_zero.
Qed.

Lemma emul_mul j k A : (0 ≤ j)%Z → (0 ≤ k)%Z → emul (j * k) A = emul j (emul k A).
Proof.
  intros Hj Hk. pattern j. apply natlike_ind; [done| |done].
  intros i Hi IH. rewrite Z.mul_succ_l -Z.add_1_r emul_succ // emul_add //; [|lia]. by rewrite IH eplus_comm.
Qed.

Lemma emul_comm j k A : (0 ≤ j)%Z → (0 ≤ k)%Z → emul j (emul k A) = emul k (emul j A).
Proof. intros. by rewrite -!emul_mul // Z.mul_comm. Qed.

Lemma eplus_swap A B C D : (A ⊕ B) ⊕ (C ⊕ D) = (A ⊕ C) ⊕ (B ⊕ D).
Proof. rewrite -!eplus_assoc. f_equal. rewrite !eplus_assoc. by rewrite (eplus_comm B C). Qed.

Lemma emul_plus k A B : (0 ≤ k)%Z → emul k (A ⊕ B) = emul k A ⊕ emul k B.
Proof.
  intros Hk. pattern k. apply natlike_ind; [by rewrite !emul_0 eplus_zero| |done].
  intros i Hi IH. by rewrite -Z.add_1_r !emul_succ // IH eplus_swap.
Qed.

(** A point of prime order [N]. *)
Section order.
Context (N : Z) (HN : Z.prime N).

Lemma emul_mod k A : emul N A = ezero → (0 ≤ k)%Z → emul k A = emul (k mod N) A.
Proof using HN.
  intros HA Hk. pose proof (prime_pos N HN). pose proof (Z.mod_pos_bound k N ltac:(done)).
  assert (0 ≤ k / N)%Z by (apply Z.div_pos; lia).
  rewrite {1}(Z.div_mod k N) 1?emul_add; [|nia|lia|lia].
  by rewrite Z.mul_comm emul_mul // ?HA ?emul_zero ?eplus_zero_l; [|lia].
Qed.

Lemma emul_neq k A : emul N A = ezero → A ≠ ezero → (0 ≤ k)%Z → ¬ cong N k 0 → emul k A ≠ ezero.
Proof using HN.
  intros HNA HA Hk Hne H. apply HA. pose proof (prime_pos N HN). pose proof (Z.prime_ge_2 _ HN).
  assert (k mod N ≠ 0)%Z as Hkm by (intros Hz; apply Hne; by rewrite /cong Hz Z.mod_0_l; [|lia]).
  pose proof (Z.invmod_prime k N HN Hkm) as Hi. set (i := Z.invmod k N) in *.
  assert (0 ≤ i)%Z as Hi0 by (rewrite /i -Z.mod_invmod; by apply Z.mod_pos_bound).
  rewrite -(emul_1 A) -Hi -emul_mod //; [|nia]. by rewrite emul_mul // H emul_zero.
Qed.
End order.
End group.
