(* ===== verification/Primes.v ===== *)
(** * Primes: the primes of four curves are prime

    Pocklington's criterion: a number [N] is prime when enough of the factors of [N - 1] are
    known and a power shows that every prime divisor of [N] is 1 modulo them.  A certificate is
    checked by computing a few powers modulo [N]; the primes of secp160r1, secp192r1, secp224r1
    and secp256r1 in lib/ecc/curve-specific.inc have one, so what is proved of these curves needs
    no hypothesis that their moduli are prime. *)
From Stdlib Require Import Zmod.Zmod Znumtheory.
From stdpp Require Import base list numbers ssreflect.
From S2P Require Import Prelude Memory Outcome Digits Vli VliMod CurveField CurveGroup Curves.

(** ** Prime divisors *)

#[export] Instance prime_decision n : Decision (Z.prime n).
Proof. destruct (prime_dec n) as [H|H]; [left|right]; by rewrite prime_alt. Defined.

Lemma proper_divisor n : (1 < n)%Z → ¬ Z.prime n → ∃ k m, n = (k * m)%Z ∧ (1 < k ≤ m)%Z.
Proof.
  intros Hn Hp. destruct (not_prime_divide n Hn) as (d & Hd & m & Hm).
  { by rewrite -prime_alt. }
  assert (1 < m)%Z by nia. destruct (Z.le_ge_cases d m); [exists d, m|exists m, d]; lia.
Qed.

Lemma prime_divisor n : (1 < n)%Z → ∃ p, Z.prime p ∧ (p | n)%Z.
Proof.
  induction n as [n IH] using (well_founded_induction (Z.lt_wf 0)). intros Hn.
  destruct (decide (Z.prime n)) as [|Hp]; [by exists n|].
  destruct (proper_divisor n Hn Hp) as (k & m & Hkm & Hk).
  destruct (IH k) as (p & Hpp & Hpk); [nia|lia|]. exists p. split; [done|]. rewrite Hkm. by apply Z.divide_mul_l.
Qed.

(** A number that is not prime has a prime divisor up to its square root. *)
Lemma small_prime_divisor n : (1 < n)%Z → ¬ Z.prime n → ∃ p, Z.prime p ∧ (p | n)%Z ∧ (p * p ≤ n)%Z.
Proof.
  intros Hn Hp. destruct (proper_divisor n Hn Hp) as (k & m & -> & Hk).
  destruct (prime_divisor k) as (p & Hpp & Hpk); [lia|]. exists p. split_and!; [done|by apply Z.divide_mul_l|].
  pose proof (Z.divide_pos_le p k ltac:(lia) Hpk). pose proof (Z.prime_ge_2 _ Hpp). nia.
Qed.

(** ** The criterion *)
Lemma pow_gcd p a m n :
  (0 < m)%Z → (0 < n)%Z → cong p (a ^ m) 1 → cong p (a ^ n) 1 → cong p (a ^ Z.gcd m n) 1.
Proof.
  intros Hm Hn H1 H2. destruct (Z.gcd_bezout m n (Z.gcd m n) eq_refl) as (u & v & Huv).
  set (g := Z.gcd m n) in *. assert (0 < g ≤ n)%Z as Hg.
  { pose proof (Z.gcd_divide_r m n) as Hd. fold g in Hd. pose proof (Z.divide_pos_le _ _ Hn Hd).
    pose proof (Z.gcd_nonneg m n). fold g in H0. assert (g ≠ 0)%Z; [|lia]. intros Hg. apply Z.gcd_eq_0_l in Hg. lia. }
  pose proof (Z.div_mod u n ltac:(lia)) as Hu. pose proof (Z.mod_pos_bound u n Hn) as Hr.
  set (q := (u / n)%Z) in *. set (r := (u mod n)%Z) in *.
  assert (∀ k x, 0 ≤ k → 0 ≤ x → cong p (a ^ x) 1 → cong p (a ^ (x * k)) 1)%Z as Hpow.
  { intros k x Hk Hx Hax. rewrite Z.pow_mul_r //. pattern k. apply natlike_ind; [done| |done].
    intros i Hi IH. rewrite Z.pow_succ_r // IH Hax. done. }
  (* (r + n) m = g + n w *)
  set (w := (m - q * m - v)%Z).
  assert ((r + n) * m = g + n * w)%Z as Hw by (unfold w; nia).
  assert (0 ≤ w)%Z as Hw0 by nia.
  pose proof (Hpow (r + n)%Z m ltac:(lia) ltac:(lia) H1) as H3. rewrite Z.mul_comm Hw Z.pow_add_r in H3; [|lia|nia].
  rewrite (Hpow w n Hw0 ltac:(lia) H2) Z.mul_1_r in H3. exact H3.
Qed.

Lemma cong_divisor N p x y :
  (0 < N)%Z → (0 < p)%Z → (p | N)%Z → cong N x y → cong p x y.
Proof.
  intros HN Hp Hd H. apply cong_sub_0, cong_0_divide; [done|]. apply Z.divide_trans with N; [done|].
  apply cong_0_divide; [lia|]. by apply (proj1 (cong_sub_0 _ _ _)).
Qed.

Section pocklington.
Context (N a : Z) (HN : (1 < N)%Z) (Ha : cong N (a ^ (N - 1)) 1).

(** A known prime power of [N - 1] divides [p - 1]. *)
Lemma known_factor p q e :
  Z.prime p → (p | N)%Z → Z.prime q → (0 < e)%Z → (q ^ e | N - 1)%Z →
  (Z.gcd (a ^ ((N - 1) / q) - 1) N = 1)%Z → (q ^ e | p - 1)%Z.
Proof using HN Ha.
  intros Hp Hpd Hq He Hqe Hg. pose proof (Z.prime_ge_2 _ Hp) as Hp2. pose proof (Z.prime_ge_2 _ Hq) as Hq2.
  assert (cong p (a ^ (N - 1)) 1) as H1 by (apply (cong_divisor N); [lia|lia|done|done]).
  assert (a mod p ≠ 0)%Z as Hap.
  { intros H0. assert (cong p a 0) as Ha0 by (by rewrite /cong Z.mod_0_l; [|lia]).
    replace (N - 1)%Z with (Z.succ (N - 2)) in H1 by lia. rewrite Z.pow_succ_r in H1; [|lia].
    set (x := (a ^ (N - 2))%Z) in H1. clearbody x. rewrite Ha0 Z.mul_0_l in H1. symmetry in H1. revert H1. apply cong_small. lia. }
  assert (cong p (a ^ (p - 1)) 1) as H2.
  { rewrite /cong Z.fermat_nz // Z.mod_small; lia. }
  pose proof (pow_gcd p a (N - 1) (p - 1) ltac:(lia) ltac:(lia) H1 H2) as H3.
  set (g := Z.gcd (N - 1) (p - 1)) in *.
  destruct (Z.gcd_divide_l (N - 1) (p - 1)) as [t Ht]. fold g in Ht.
  assert (0 ≤ g)%Z as Hg0 by apply Z.gcd_nonneg.
  destruct (Znumtheory.Zdivide_dec q t) as [[s Hs]|Hqt].
  - exfalso. assert ((N - 1) / q = g * s)%Z as Hdiv.
    { rewrite Ht Hs. replace (s * q * g)%Z with (g * s * q)%Z by ring. apply Z.div_mul. lia. }
    rewrite Hdiv in Hg. assert (0 ≤ s)%Z as Hs0 by nia. assert (cong p (a ^ (g * s)) 1) as H4.
    { rewrite Z.pow_mul_r //. pattern s. apply natlike_ind; [done| |done].
      intros i Hi IH. by rewrite Z.pow_succ_r // IH H3. }
    apply cong_sub_0, cong_0_divide in H4; [|lia].
    pose proof (Z.gcd_greatest _ _ _ H4 Hpd) as H5. rewrite Hg in H5. apply Z.divide_pos_le in H5; lia.
  - apply Z.divide_trans with g; [|apply Z.gcd_divide_r].
    apply Z.gauss with t; [by rewrite -Ht|].
    apply Z.coprime_pow_l; [lia|]. by apply Z.coprime_prime_l.
Qed.

(** Two prime powers are enough when their product is near the root of [N]. *)
Lemma pocklington q1 e1 q2 e2 :
  Z.prime q1 → Z.prime q2 → (0 < e1)%Z → (0 < e2)%Z → (q1 ^ e1 | N - 1)%Z → (q2 ^ e2 | N - 1)%Z →
  (Z.gcd (a ^ ((N - 1) / q1) - 1) N = 1)%Z → (Z.gcd (a ^ ((N - 1) / q2) - 1) N = 1)%Z →
  (N < (Z.lcm (q1 ^ e1) (q2 ^ e2) + 1) ^ 2)%Z → Z.prime N.
Proof using HN Ha.
  intros Hq1 Hq2 He1 He2 Hd1 Hd2 Hg1 Hg2 Hbig. destruct (decide (Z.prime N)) as [|Hn]; [done|exfalso].
  destruct (small_prime_divisor N HN Hn) as (p & Hp & Hpd & Hpp). pose proof (Z.prime_ge_2 _ Hp).
  pose proof (known_factor p q1 e1 Hp Hpd Hq1 He1 Hd1 Hg1) as H1.
  pose proof (known_factor p q2 e2 Hp Hpd Hq2 He2 Hd2 Hg2) as H2.
  pose proof (Z.lcm_least _ _ _ H1 H2) as H3. apply Z.divide_pos_le in H3; [|lia].
  pose proof (Z.lcm_nonneg (q1 ^ e1) (q2 ^ e2)). nia.
Qed.
End pocklington.

(** ** Certificates *)

(** [a ^ k] modulo [m], by squaring. *)
Definition powm (a : Z) (k : positive) (m : Z) : Z := Pos.iter_op (λ x y, (x * y) mod m)%Z k (a mod m)%Z.

Lemma powm_spec a k m : powm a k m = (a ^ Z.pos k mod m)%Z.
Proof.
  unfold powm. induction k as [|k IH] using Pos.peano_ind; [by rewrite Z.pow_1_r|].
  rewrite Pos.iter_op_succ; [|intros; by rewrite Zmult_mod_idemp_l Zmult_mod_idemp_r Z.mul_assoc].
  by rewrite IH -Zmult_mod Pos2Z.inj_succ Z.pow_succ_r.
Qed.

(** The base, and two prime powers that divide [N - 1]. *)
Definition certificate (N a : Z) (q1 e1 q2 e2 : positive) : bool :=
  let s := powm a (Z.to_pos ((N - 1) / (Z.pos q1 * Z.pos q2))) N in
  let r1 := powm s q2 N in
  let r2 := powm s q1 N in
  (1 <? N)%Z && (N - 1 =? (N - 1) / (Z.pos q1 * Z.pos q2) * (Z.pos q1 * Z.pos q2))%Z &&
  ((N - 1) mod (Z.pos q1 ^ Z.pos e1) =? 0)%Z && ((N - 1) mod (Z.pos q2 ^ Z.pos e2) =? 0)%Z &&
  (powm r2 q2 N =? 1)%Z && (Z.gcd (r1 - 1) N =? 1)%Z && (Z.gcd (r2 - 1) N =? 1)%Z &&
  (N <? (Z.lcm (Z.pos q1 ^ Z.pos e1) (Z.pos q2 ^ Z.pos e2) + 1) ^ 2)%Z.

Lemma gcd_sub_1 x N : (0 < N)%Z → Z.gcd (x mod N - 1) N = Z.gcd (x - 1) N.
Proof.
  intros HN. assert (x - 1 = x mod N - 1 + x / N * N)%Z as -> by (pose proof (Z.div_mod x N); lia).
  by rewrite !(Z.gcd_comm _ N) Z.gcd_add_mult_diag_r.
Qed.

Lemma certificate_spec N a q1 e1 q2 e2 :
  certificate N a q1 e1 q2 e2 = true → Z.prime (Z.pos q1) → Z.prime (Z.pos q2) → Z.prime N.
Proof.
  rewrite /certificate !andb_true_iff; cbv zeta. intros (((((((H1 & H2) & H3) & H4) & H5) & H6) & H7) & H8) Hq1 Hq2.
  apply Z.ltb_lt in H1, H8. apply Z.eqb_eq in H2, H3, H4, H5, H6, H7.
  set (t := ((N - 1) / (Z.pos q1 * Z.pos q2))%Z) in *. assert (0 < t)%Z as Ht by nia.
  assert ((N - 1) / Z.pos q1 = t * Z.pos q2)%Z as Hd1.
  { rewrite H2. replace (t * (Z.pos q1 * Z.pos q2))%Z with (t * Z.pos q2 * Z.pos q1)%Z by ring. by rewrite Z.div_mul. }
  assert ((N - 1) / Z.pos q2 = t * Z.pos q1)%Z as Hd2.
  { rewrite H2. replace (t * (Z.pos q1 * Z.pos q2))%Z with (t * Z.pos q1 * Z.pos q2)%Z by ring. by rewrite Z.div_mul. }
  assert (∀ q, powm (powm a (Z.to_pos t) N) q N = a ^ (t * Z.pos q) mod N)%Z as Hs.
  { intros q. rewrite !powm_spec Z2Pos.id // Z.pow_mul_r; [|lia..]. by rewrite Z.mod_pow_l. }
  rewrite !Hs in H5, H6, H7. rewrite !gcd_sub_1 in H6, H7; [|lia..].
  apply (pocklington N a H1) with (Z.pos q1) (Z.pos e1) (Z.pos q2) (Z.pos e2); try done.
  - rewrite powm_spec Z.mod_pow_l in H5. rewrite -Z.pow_mul_r in H5; [|lia..].
    rewrite /cong (Z.mod_small 1); [|lia]. rewrite -H5. do 2 f_equal. lia.
  - apply Z.mod_divide; [by apply Z.pow_nonzero|done].
  - apply Z.mod_divide; [by apply Z.pow_nonzero|done].
  - by rewrite Hd1.
  - by rewrite Hd2.
Qed.

(** No divisor up to the root. *)
Definition no_divisor (n : Z) : bool :=
  (1 <? n)%Z && forallb (λ d, (d <? 2)%Z || negb (n mod d =? 0)%Z) (Z.of_nat <$> seq 0 (S (Z.to_nat (Z.sqrt n)))).

Lemma no_divisor_spec n : no_divisor n = true → Z.prime n.
Proof.
  intros [H1%Z.ltb_lt H2]%andb_true_iff. destruct (decide (Z.prime n)) as [|Hn]; [done|exfalso].
  destruct (small_prime_divisor n H1 Hn) as (p & Hp & Hpd & Hpp). pose proof (Z.prime_ge_2 _ Hp).
  pose proof (Z.sqrt_le_square n p ltac:(lia) ltac:(lia)) as [Hs _]. specialize (Hs Hpp).
  rewrite forallb_forall in H2. specialize (H2 p).
  assert (In p (Z.of_nat <$> seq 0 (S (Z.to_nat (Z.sqrt n))))) as Hin.
  { apply list_elem_of_In, list_elem_of_fmap. exists (Z.to_nat p). split; [lia|]. apply elem_of_seq. lia. }
  apply H2 in Hin. rewrite (proj2 (Z.mod_divide n p ltac:(lia)) Hpd) in Hin. destruct (Z.ltb_spec p 2); [lia|done].
Qed.

(** ** The primes of the curves *)

(** [certified p a q1 e1 q2 e2] is a step down from [p] to two smaller primes. *)
Ltac certified a q1 e1 q2 e2 := apply (certificate_spec _ a q1 e1 q2 e2); [by vm_compute|..].

Lemma prime_65537 : Z.prime 65537.
Proof. by apply no_divisor_spec; vm_compute. Qed.

Lemma prime_P224 : Z.prime P224.
Proof. certified 11%Z 2%positive 96%positive 65537%positive 1%positive; [apply Z.prime_2|apply prime_65537]. Qed.

Lemma prime_252396031 : Z.prime 252396031.
Proof. by certified 2%Z 8413201%positive 1%positive 5%positive 1%positive; apply no_divisor_spec; vm_compute. Qed.

Lemma prime_455827231987 : Z.prime 455827231987.
Proof. certified 2%Z 252396031%positive 1%positive 43%positive 1%positive; [apply prime_252396031|by apply no_divisor_spec; vm_compute]. Qed.

Lemma prime_5933177618131140283 : Z.prime 5933177618131140283.
Proof. certified 2%Z 455827231987%positive 1%positive 3%positive 2%positive; [apply prime_455827231987|apply Z.prime_3]. Qed.

Lemma prime_288626509448065367648032903 : Z.prime 288626509448065367648032903.
Proof.
  certified 2%Z 5933177618131140283%positive 1%positive 607%positive 1%positive;
    [apply prime_5933177618131140283|by apply no_divisor_spec; vm_compute].
Qed.

Lemma prime_P192 : Z.prime P192.
Proof.
  certified 2%Z 288626509448065367648032903%positive 1%positive 149309%positive 1%positive;
    [apply prime_288626509448065367648032903|by apply no_divisor_spec; vm_compute].
Qed.

Lemma prime_1519826521 : Z.prime 1519826521.
Proof.
  certified 7%Z 745013%positive 1%positive 2%positive 3%positive;
    [by apply no_divisor_spec; vm_compute|apply Z.prime_2].
Qed.

Lemma prime_3799566302501 : Z.prime 3799566302501.
Proof.
  certified 2%Z 1519826521%positive 1%positive 2%positive 2%positive;
    [apply prime_1519826521|apply Z.prime_2].
Qed.

Lemma prime_9281531860908577342183 : Z.prime 9281531860908577342183.
Proof.
  certified 3%Z 3799566302501%positive 1%positive 2%positive 1%positive;
    [apply prime_3799566302501|apply Z.prime_2].
Qed.

Lemma prime_176070659401435712181211511 : Z.prime 176070659401435712181211511.
Proof.
  certified 7%Z 9281531860908577342183%positive 1%positive 2%positive 1%positive;
    [apply prime_9281531860908577342183|apply Z.prime_2].
Qed.

Lemma prime_P160 : Z.prime P160.
Proof.
  certified 3%Z 176070659401435712181211511%positive 1%positive 2%positive 1%positive;
    [apply prime_176070659401435712181211511|apply Z.prime_2].
Qed.

Lemma prime_66417393611 : Z.prime 66417393611.
Proof.
  certified 2%Z 3677%positive 1%positive 173%positive 1%positive;
    [by apply no_divisor_spec; vm_compute|by apply no_divisor_spec; vm_compute].
Qed.

Lemma prime_11290956913871 : Z.prime 11290956913871.
Proof.
  certified 13%Z 66417393611%positive 1%positive 2%positive 1%positive;
    [apply prime_66417393611|apply Z.prime_2].
Qed.

Lemma prime_204061199 : Z.prime 204061199.
Proof.
  certified 3%Z 3769%positive 1%positive 11%positive 1%positive;
    [by apply no_divisor_spec; vm_compute|by apply no_divisor_spec; vm_compute].
Qed.

Lemma prime_34282281433 : Z.prime 34282281433.
Proof.
  certified 5%Z 204061199%positive 1%positive 2%positive 3%positive;
    [apply prime_204061199|apply Z.prime_2].
Qed.

Lemma prime_774023187263532362759620327192479577272145303 : Z.prime 774023187263532362759620327192479577272145303.
Proof.
  certified 2%Z 11290956913871%positive 1%positive 34282281433%positive 1%positive;
    [apply prime_11290956913871|apply prime_34282281433].
Qed.

Lemma prime_835945042244614951780389953367877943453916927241 : Z.prime 835945042244614951780389953367877943453916927241.
Proof.
  certified 7%Z 774023187263532362759620327192479577272145303%positive 1%positive 2%positive 3%positive;
    [apply prime_774023187263532362759620327192479577272145303|apply Z.prime_2].
Qed.

Lemma prime_P256 : Z.prime P256.
Proof.
  certified 3%Z 835945042244614951780389953367877943453916927241%positive 1%positive 2%positive 1%positive;
    [apply prime_835945042244614951780389953367877943453916927241|apply Z.prime_2].
Qed.
