(* ===== verification/EccPoint.v ===== *)
(** * EccPoint: co-Z point arithmetic of lib/ecc/uECC.c

    The curve with its callbacks, the addition formulas on two points that share their third
    coordinate, Montgomery's ladder [EccPoint_mult] and the computation of a public
    key.  A point is one array, [num_words] words for each coordinate.  The
    formulas are followed exactly: what [XYcZ_add] and [XYcZ_addC] leave in the
    arrays is the chord through the two points, and its mirror, with a new
    common third coordinate. *)
From Stdlib Require Import Zmod.Zmod.
From stdpp Require Import base list numbers ssreflect.
From S2P Require Import Prelude Memory Outcome Digits Vli VliMod VliBytes CurveField CurveGroup.

(** ** Operations *)

Record uECC_Curve := {
  field :> curve_field;
  double_jacobian : array Z → array Z → array Z → curve_field → outcome (array Z * array Z * array Z);
  mod_sqrt : array Z → curve_field → outcome (array Z);
  x_side : array Z → array Z → curve_field → outcome (array Z)
}.

Definition EccPoint_isZero (point : array Z) (curve : uECC_Curve) : outcome Z :=
  uECC_vli_isZero point (num_words curve * 2).

Definition apply_z (X1 Y1 Z : array BinInt.Z) (curve : curve_field) : outcome (array BinInt.Z * array BinInt.Z) :=
  t1 ← uECC_vli_modSquare_fast (local_vli uECC_MAX_WORDS) Z curve;
  X1 ← uECC_vli_modMult_fast X1 X1 t1 curve;
  t1 ← uECC_vli_modMult_fast t1 t1 Z curve;
  Y1 ← uECC_vli_modMult_fast Y1 Y1 t1 curve;
  Ok (X1, Y1).

Definition XYcZ_initial_double (X1 Y1 X2 Y2 : array Z) (initial_Z : option (array Z)) (curve : uECC_Curve) :
    outcome (array Z * array Z * array Z * array Z) :=
  let z := local_vli uECC_MAX_WORDS in
  let n := num_words curve in
  z ← (match initial_Z with
       | Some initial_Z => uECC_vli_set z initial_Z n
       | None => z ← uECC_vli_clear z n; oset z 0 1%Z
       end);
  X2 ← uECC_vli_set X2 X1 n;
  Y2 ← uECC_vli_set Y2 Y1 n;
  '(X1, Y1) ← apply_z X1 Y1 z curve;
  '(X1, Y1, z) ← double_jacobian curve X1 Y1 z curve;
  '(X2, Y2) ← apply_z X2 Y2 z curve;
  Ok (X1, Y1, X2, Y2).

Definition XYcZ_add (X1 Y1 X2 Y2 : array Z) (curve : curve_field) :
    outcome (array Z * array Z * array Z * array Z) :=
  let n := num_words curve in
  let p := curve_p curve in
  t5 ← uECC_vli_modSub (local_vli uECC_MAX_WORDS) X2 X1 p n;
  t5 ← uECC_vli_modSquare_fast t5 t5 curve;
  X1 ← uECC_vli_modMult_fast X1 X1 t5 curve;
  X2 ← uECC_vli_modMult_fast X2 X2 t5 curve;
  Y2 ← uECC_vli_modSub Y2 Y2 Y1 p n;
  t5 ← uECC_vli_modSquare_fast t5 Y2 curve;
  t5 ← uECC_vli_modSub t5 t5 X1 p n;
  t5 ← uECC_vli_modSub t5 t5 X2 p n;
  X2 ← uECC_vli_modSub X2 X2 X1 p n;
  Y1 ← uECC_vli_modMult_fast Y1 Y1 X2 curve;
  X2 ← uECC_vli_modSub X2 X1 t5 p n;
  Y2 ← uECC_vli_modMult_fast Y2 Y2 X2 curve;
  Y2 ← uECC_vli_modSub Y2 Y2 Y1 p n;
  X2 ← uECC_vli_set X2 t5 n;
  Ok (X1, Y1, X2, Y2).

Definition XYcZ_addC (X1 Y1 X2 Y2 : array Z) (curve : curve_field) :
    outcome (array Z * array Z * array Z * array Z) :=
  let n := num_words curve in
  let p := curve_p curve in
  t5 ← uECC_vli_modSub (local_vli uECC_MAX_WORDS) X2 X1 p n;
  t5 ← uECC_vli_modSquare_fast t5 t5 curve;
  X1 ← uECC_vli_modMult_fast X1 X1 t5 curve;
  X2 ← uECC_vli_modMult_fast X2 X2 t5 curve;
  t5 ← uECC_vli_modAdd t5 Y2 Y1 p n;
  Y2 ← uECC_vli_modSub Y2 Y2 Y1 p n;
  t6 ← uECC_vli_modSub (local_vli uECC_MAX_WORDS) X2 X1 p n;
  Y1 ← uECC_vli_modMult_fast Y1 Y1 t6 curve;
  t6 ← uECC_vli_modAdd t6 X1 X2 p n;
  X2 ← uECC_vli_modSquare_fast X2 Y2 curve;
  X2 ← uECC_vli_modSub X2 X2 t6 p n;
  t7 ← uECC_vli_modSub (local_vli uECC_MAX_WORDS) X1 X2 p n;
  Y2 ← uECC_vli_modMult_fast Y2 Y2 t7 curve;
  Y2 ← uECC_vli_modSub Y2 Y2 Y1 p n;
  t7 ← uECC_vli_modSquare_fast t7 t5 curve;
  t7 ← uECC_vli_modSub t7 t7 t6 p n;
  t6 ← uECC_vli_modSub t6 t7 X1 p n;
  t6 ← uECC_vli_modMult_fast t6 t6 t5 curve;
  Y1 ← uECC_vli_modSub Y1 t6 Y1 p n;
  X1 ← uECC_vli_set X1 t7 n;
  Ok (X1, Y1, X2, Y2).

(** [R0] and [R1] of the ladder: [Rx[0], Ry[0]] and [Rx[1], Ry[1]]. *)
Definition ladder : Type := (array Z * array Z) * (array Z * array Z).

(** [XYcZ_addC(Rx[1 - nb], Ry[1 - nb], Rx[nb], Ry[nb])], for the bit [!nb]. *)
Definition ladder_addC (bit : bool) (R : ladder) (curve : curve_field) : outcome ladder :=
  let '((X0, Y0), (X1, Y1)) := R in
  if bit then '(X1, Y1, X0, Y0) ← XYcZ_addC X1 Y1 X0 Y0 curve; Ok ((X0, Y0), (X1, Y1))
  else '(X0, Y0, X1, Y1) ← XYcZ_addC X0 Y0 X1 Y1 curve; Ok ((X0, Y0), (X1, Y1)).

(** [XYcZ_add(Rx[nb], Ry[nb], Rx[1 - nb], Ry[1 - nb])]. *)
Definition ladder_add (bit : bool) (R : ladder) (curve : curve_field) : outcome ladder :=
  let '((X0, Y0), (X1, Y1)) := R in
  if bit then '(X0, Y0, X1, Y1) ← XYcZ_add X0 Y0 X1 Y1 curve; Ok ((X0, Y0), (X1, Y1))
  else '(X1, Y1, X0, Y0) ← XYcZ_add X1 Y1 X0 Y0 curve; Ok ((X0, Y0), (X1, Y1)).

Definition scalar_bit (scalar : array Z) (i : Z) : outcome bool :=
  w ← uECC_vli_testBit scalar i; Ok (negb (w =? 0)%Z).

(** [for (i = num_bits - 2; i > 0; --i)]: the [j]-th of [m - j] rounds has [i = j + 1]. *)
Definition ladder_rounds (m : nat) (scalar : array Z) (R : ladder) (curve : curve_field) : outcome ladder :=
  ofor_down m (λ j R,
    bit ← scalar_bit scalar (j + 1)%Z;
    R ← ladder_addC bit R curve;
    ladder_add bit R curve) R.

(** The inverse of the common third coordinate after the last addition. *)
Definition final_z (bit : bool) (R : ladder) (point : array Z) (curve : curve_field) : outcome (array Z) :=
  let n := num_words curve in
  let p := curve_p curve in
  let '((X0, Y0), (X1, Y1)) := R in
  let '(Xb, Yb) := if bit then (X1, Y1) else (X0, Y0) in
  z ← uECC_vli_modSub (local_vli uECC_MAX_WORDS) X1 X0 p n;
  z ← uECC_vli_modMult_fast z z Yb curve;
  z ← uECC_vli_modMult_fast z z point curve;
  z ← uECC_vli_modInv z z p n;
  z ← uECC_vli_modMult_fast z z (drop n point) curve;
  uECC_vli_modMult_fast z z Xb curve.

(** The rounds, the last one and the affine coordinates of [R0]. *)
Definition ladder_finish (result point scalar : array Z) (num_bits : Z) (R : ladder) (curve : uECC_Curve) :
    outcome (array Z) :=
  let n := num_words curve in
  R ← ladder_rounds (Z.to_nat (num_bits - 2)) scalar R curve;
  bit ← scalar_bit scalar 0;
  R ← ladder_addC bit R curve;
  z ← final_z bit R point curve;
  R ← ladder_add bit R curve;
  '(X0, Y0) ← apply_z R.1.1 R.1.2 z curve;
  result ← uECC_vli_set result X0 n;
  at_offset n (λ y, uECC_vli_set y Y0 n) result.

Definition EccPoint_mult (result point scalar : array Z) (initial_Z : option (array Z)) (num_bits : Z)
    (curve : uECC_Curve) : outcome (array Z) :=
  let n := num_words curve in
  let fresh := local_vli uECC_MAX_WORDS in
  X1 ← uECC_vli_set fresh point n;
  Y1 ← uECC_vli_set fresh (drop n point) n;
  '(X1, Y1, X0, Y0) ← XYcZ_initial_double X1 Y1 fresh fresh initial_Z curve;
  ladder_finish result point scalar num_bits ((X0, Y0), (X1, Y1)) curve.

Definition BITS_TO_WORDS (num_bits : Z) : nat := Z.to_nat ((num_bits + 63) / 64).
Definition BITS_TO_BYTES (num_bits : Z) : nat := Z.to_nat ((num_bits + 7) / 8).

Definition regularize_k (k k0 k1 : array Z) (curve : curve_field) : outcome (Z * array Z * array Z) :=
  let num_n_words := BITS_TO_WORDS (num_n_bits curve) in
  '(k0, c) ← uECC_vli_add k0 k (curve_n curve) num_n_words;
  carry ← (if negb (c =? 0)%Z then Ok 1%Z
           else if (num_n_bits curve <? Z.of_nat num_n_words * 8 * 8)%Z then
             w ← uECC_vli_testBit k0 (num_n_bits curve); Ok (Z.b2z (negb (w =? 0)%Z))
           else Ok 0%Z);
  '(k1, _) ← uECC_vli_add k1 k0 (curve_n curve) num_n_words;
  Ok (carry, k0, k1).

Definition EccPoint_compute_public_key (result private_key : array Z) (curve : uECC_Curve) :
    outcome (Z * array Z) :=
  let fresh := local_vli uECC_MAX_WORDS in
  '(carry, tmp1, tmp2) ← regularize_k private_key fresh fresh curve;
  let scalar := if (carry =? 0)%Z then tmp2 else tmp1 in
  result ← EccPoint_mult result (curve_G curve) scalar None (num_n_bits curve + 1)%Z curve;
  zero ← EccPoint_isZero result curve;
  Ok (if negb (zero =? 0)%Z then 0 else 1, result)%Z.

(** ** The formulas *)

Section formulas.
Context (c : curve_field) (P : Z) `{!CurveField c P}.
Local Notation n := (num_words c).
Local Notation fe := (fe c P).

(** The arrays hold the affine point [(x, y)] with the third coordinate [z]. *)
Definition at_z (z : Z) (X Y : array Z) (x y : Z) : Prop := fe X (x * z ^ 2) ∧ fe Y (y * z ^ 3).

#[export] Instance fe_cong a : Proper (cong P ==> iff) (fe a).
Proof. intros x y H. split; intros Ha; eapply fe_eq; (exact Ha || done). Qed.

#[export] Instance at_z_cong z X Y : Proper (cong P ==> cong P ==> iff) (at_z z X Y).
Proof. intros x x' Hx y y' Hy. by rewrite /at_z Hx Hy. Qed.

Lemma at_z_z z z' X Y x y : at_z z X Y x y → cong P z z' → at_z z' X Y x y.
Proof.
  rewrite /at_z => - [HX HY] Hz. change 2%Z with (Z.succ (Z.succ 0)) in *. change 3%Z with (Z.succ (Z.succ (Z.succ 0))) in *.
  rewrite !Z.pow_succ_r // Z.pow_0_r in HX HY |- *. rewrite Hz in HX. rewrite Hz in HY. done.
Qed.

(** [fe_done] closes a formula that is the same polynomial. *)
Ltac fe_done := eapply fe_eq; [eassumption|f_equal; unfold chord_y, chord_x; ring].

Lemma apply_z_spec X Y Z x y w z :
  at_z w X Y x y → fe Z z → post (apply_z X Y Z c) (λ '(X', Y'), at_z (w * z) X' Y' x y).
Proof using All. intros [HX HY] HZ. rewrite /apply_z. do 4 fe_step. split; fe_done. Qed.

(** Both points get the third coordinate [(bx - ax) z^3]; the second one is the sum. *)
Lemma XYcZ_add_spec z X1 Y1 X2 Y2 ax ay bx by_ l :
  at_z z X1 Y1 ax ay → at_z z X2 Y2 bx by_ → cong P (l * (bx - ax)) (by_ - ay) →
  post (XYcZ_add X1 Y1 X2 Y2 c) (λ '(X1', Y1', X2', Y2'),
    let z3 := ((bx - ax) * z ^ 3)%Z in
    at_z z3 X1' Y1' ax ay ∧ at_z z3 X2' Y2' (chord_x ax bx l) (chord_y ax ay bx l)).
Proof using All.
  intros [HX1 HY1] [HX2 HY2] Hl. rewrite /XYcZ_add; cbv zeta.
  assert (fe Y2 ((ay + l * (bx - ax)) * z ^ 3)) as HY2' by (by rewrite Hl Zplus_minus). clear HY2.
  do 14 fe_step. split; split; fe_done.
Qed.

(** The first point becomes the difference, the second one the sum. *)
Lemma XYcZ_addC_spec z X1 Y1 X2 Y2 ax ay bx by_ l m :
  at_z z X1 Y1 ax ay → at_z z X2 Y2 bx by_ → cong P (l * (bx - ax)) (by_ - ay) → cong P (m * (bx - ax)) (- by_ - ay) →
  post (XYcZ_addC X1 Y1 X2 Y2 c) (λ '(X1', Y1', X2', Y2'),
    let z3 := ((bx - ax) * z ^ 3)%Z in
    at_z z3 X1' Y1' (chord_x ax bx m) (chord_y ax ay bx m) ∧
    at_z z3 X2' Y2' (chord_x ax bx l) (chord_y ax ay bx l)).
Proof using All.
  intros [HX1 HY1] [HX2 HY2] Hl Hm. rewrite /XYcZ_addC; cbv zeta.
  eapply post_bind; [fe_op|]. intros t5 Ht5. cbv beta in Ht5. do 3 fe_step.
  eapply post_bind with (Ψ := λ t, fe t (- m * (bx - ax) * z ^ 3)).
  { eapply post_mono; [fe_op|]. intros t Ht. cbv beta in Ht.
    replace (by_ * z ^ 3 + ay * z ^ 3)%Z with (- (- by_ - ay) * z ^ 3)%Z in Ht by ring.
    rewrite -Hm in Ht. eapply fe_eq; [exact Ht|f_equal; ring]. }
  intros t Ht. cbv beta in Ht.
  eapply post_bind with (Ψ := λ t, fe t (l * (bx - ax) * z ^ 3)).
  { eapply post_mono; [fe_op|]. intros t' Ht'. cbv beta in Ht'.
    rewrite -Z.mul_sub_distr_r -Hl in Ht'. eapply fe_eq; [exact Ht'|f_equal; ring]. }
  intros t' Ht'. cbv beta in Ht'. clear HY2 Hl Hm.
  do 14 fe_step. split; split; fe_done.
Qed.
End formulas.
