(* ===== verification/Ladder.v ===== *)
(** * Ladder: [EccPoint_mult] multiplies a point by a scalar

    The formulas of EccPoint.v on points of an [EcGroup], the rounds of
    Montgomery's ladder, the trick that recovers the common third coordinate, and the
    result: the affine coordinates of the multiple.  The formulas cannot add a
    point to itself, to its inverse or to the neutral element; [regular] says that this does not
    happen, and for a generator of prime order it is shown which scalars are
    regular once [regularize_k] has made them a bit longer than the order. *)
From Stdlib Require Import Zmod.Zmod.
From stdpp Require Import base list numbers ssreflect.
From S2P Require Import Prelude Memory Outcome Digits Vli VliMod VliBytes CurveField CurveGroup EccPoint.

(** ** What a curve's callbacks promise *)

Class CurveOps (c : uECC_Curve) (P a b : Z) : Prop := {
  co_field :: CurveField c P;
  co_prime : Z.prime P;
  co_double X Y Z x y z l :
    at_z c P z X Y x y → fe c P Z z → ¬ cong P z 0 → cong P (2 * y * l) (3 * x ^ 2 + a) →
    post (double_jacobian c X Y Z c) (λ '(X', Y', Z'),
      let z3 := (y * z ^ 4)%Z in at_z c P z3 X' Y' (tangent_x x l) (tangent_y x y l) ∧ fe c P Z' z3);
  co_x_side res xa x :
    fe c P xa x → room c res → post (x_side c res xa c) (λ r, fe c P r (x ^ 3 + a * x + b))
}.

Lemma default_ops (c : uECC_Curve) P b :
  CurveField c P → Z.prime P → double_jacobian c = double_jacobian_default → x_side c = x_side_default →
  fe c P (curve_b c) b → CurveOps c P (-3) b.
Proof.
  intros Hc HP Hd Hx Hb. pose proof (prime_pos P HP). split; [done|done| |].
  - intros X Y Z x y z l [HX HY] HZ Hz Hl. rewrite Hd.
    eapply post_mono; [eapply (double_jacobian_default_spec c P X Y Z x y z l); [done|done|done| |]|].
    + intros H0. apply Hz. by rewrite /cong H0 Z.mod_0_l; [|lia].
    + rewrite Hl. f_equal. 
    + intros [[X' Y'] Z'] (? & ? & ?). by split.
  - intros res xa x Hxa Hr. rewrite Hx. eapply post_mono; [by eapply x_side_default_spec|].
    intros r Hrr. eapply fe_eq; [exact Hrr|]. f_equal. ring.
Qed.

Lemma secp256k1_ops (c : uECC_Curve) P b :
  CurveField c P → Z.prime P → double_jacobian c = double_jacobian_secp256k1 → x_side c = x_side_secp256k1 →
  fe c P (curve_b c) b → CurveOps c P 0 b.
Proof.
  intros Hc HP Hd Hx Hb. pose proof (prime_pos P HP). split; [done|done| |].
  - intros X Y Z x y z l [HX HY] HZ Hz Hl. rewrite Hd.
    eapply post_mono; [eapply (double_jacobian_secp256k1_spec c P X Y Z x y z l); [done|done|done| |]|].
    + intros H0. apply Hz. by rewrite /cong H0 Z.mod_0_l; [|lia].
    + rewrite Hl. f_equal. lia.
    + intros [[X' Y'] Z'] (? & ? & ?). by split.
  - intros res xa x Hxa Hr. rewrite Hx. eapply post_mono; [by eapply x_side_secp256k1_spec|].
    intros r Hrr. eapply fe_eq; [exact Hrr|]. f_equal. ring.
Qed.

Section points.
Context (c : uECC_Curve) {E : Type} {P a b : Z} `{!CurveOps c P a b} `{!EcGroup E P a b}.
Local Notation n := (num_words c).
Local Notation fe := (fe c P).
Local Notation "A ⊕ B" := (eplus A B) (at level 50, left associativity).
Local Notation "⊖ A" := (eopp A) (at level 35).

(** The arrays hold the point [A] with the third coordinate [z]. *)
Definition pt_at (z : Z) (R : array Z * array Z) (A : E) : Prop := at_z c P z R.1 R.2 (cx A) (cy A).

Lemma pow_neq z k : (0 ≤ k)%Z → ¬ cong P z 0 → ¬ cong P (z ^ k) 0.
Proof using All.
  intros Hk Hz. pattern k. apply natlike_ind; [|intros i Hi IH|done].
  - apply cong_small. pose proof (@cf_big c P _). lia.
  - rewrite Z.pow_succ_r //. by apply (cong_mul_neq P co_prime).
Qed.

Lemma chord_z_neq (A B : E) z :
  A ≠ ezero → B ≠ ezero → A ≠ B → A ⊕ B ≠ ezero → ¬ cong P z 0 → ¬ cong P ((cx B - cx A) * z ^ 3) 0.
Proof using All.
  intros HA HB Hne Hs Hz. apply (cong_mul_neq P co_prime); [|by apply pow_neq].
  intros H. apply (proj2 (cong_sub_0 _ _ _)) in H. by apply (differ_x co_prime A B).
Qed.

Lemma XYcZ_add_points z X1 Y1 X2 Y2 (A B : E) :
  pt_at z (X1, Y1) A → pt_at z (X2, Y2) B → A ≠ ezero → B ≠ ezero → A ≠ B → A ⊕ B ≠ ezero →
  post (XYcZ_add X1 Y1 X2 Y2 c) (λ '(X1', Y1', X2', Y2'),
    let z3 := ((cx B - cx A) * z ^ 3)%Z in pt_at z3 (X1', Y1') A ∧ pt_at z3 (X2', Y2') (A ⊕ B)).
Proof using All.
  intros H1 H2 HA HB Hne Hs. destruct (chord A B HA HB (differ_x co_prime A B HA HB Hne Hs)) as (l & Hl & Hx & Hy).
  eapply post_mono; [by eapply (XYcZ_add_spec c P z X1 Y1 X2 Y2 (cx A) (cy A) (cx B) (cy B) l)|].
  intros [[[X1' Y1'] X2'] Y2'] [H1' H2']. split; [done|]. by rewrite /pt_at Hx Hy.
Qed.

Lemma XYcZ_addC_points z X1 Y1 X2 Y2 (A B : E) :
  pt_at z (X1, Y1) A → pt_at z (X2, Y2) B → A ≠ ezero → B ≠ ezero → A ≠ B → A ⊕ B ≠ ezero →
  post (XYcZ_addC X1 Y1 X2 Y2 c) (λ '(X1', Y1', X2', Y2'),
    let z3 := ((cx B - cx A) * z ^ 3)%Z in pt_at z3 (X1', Y1') (A ⊕ ⊖ B) ∧ pt_at z3 (X2', Y2') (A ⊕ B)).
Proof using All.
  intros H1 H2 HA HB Hne Hs. pose proof (differ_x co_prime A B HA HB Hne Hs) as Hd.
  destruct (chord A B HA HB Hd) as (l & Hl & Hx & Hy). destruct (opp_coords B HB) as [Hox Hoy].
  destruct (chord A (⊖ B) HA (eopp_neq B HB)) as (m & Hm & Hx' & Hy'); [by rewrite Hox|].
  rewrite Hox Hoy in Hm.
  eapply post_mono; [by eapply (XYcZ_addC_spec c P z X1 Y1 X2 Y2 (cx A) (cy A) (cx B) (cy B) l m)|].
  intros [[[X1' Y1'] X2'] Y2'] [H1' H2']. split; [|by rewrite /pt_at Hx Hy].
  rewrite /pt_at Hx' Hy' /chord_y /chord_x. by rewrite Hox.
Qed.

(** ** A round *)

(** The scalars so far do not meet an exception of the formulas. *)
Definition regular (m : Z) (A : E) : Prop :=
  emul m A ≠ ezero ∧ emul (m + 1) A ≠ ezero ∧ emul (2 * m + 1) A ≠ ezero ∧
  emul (2 * m) A ≠ ezero ∧ emul (2 * m + 2) A ≠ ezero.

(** [R0] is [m A] and [R1] is [(m + 1) A], with a common third coordinate. *)
Definition ladder_at (R : ladder) (m : Z) (A : E) : Prop :=
  ∃ z, ¬ cong P z 0 ∧ pt_at z R.1 (emul m A) ∧ pt_at z R.2 (emul (m + 1) A).

Lemma emul_succ_neq m (A : E) : A ≠ ezero → (0 ≤ m)%Z → emul (m + 1) A ≠ emul m A.
Proof using All.
  intros HA Hm H. apply HA. rewrite emul_succ // in H. apply (eplus_cancel (emul m A)).
  by rewrite eplus_comm H eplus_zero.
Qed.

Lemma emul_double m (A : E) : (0 ≤ m)%Z → emul m A ⊕ emul (m + 1) A = emul (2 * m + 1) A.
Proof using All. intros Hm. rewrite -emul_add; [f_equal; lia|lia|lia]. Qed.

Lemma eplus_opp_cancel (A B : E) : A ⊕ B ⊕ ⊖ B = A.
Proof using All. by rewrite -eplus_assoc eplus_opp eplus_zero. Qed.

Lemma emul_sub m (A : E) : (0 ≤ m)%Z → emul (m + 1) A ⊕ ⊖ emul m A = A.
Proof using All. intros Hm. by rewrite emul_succ // eplus_opp_cancel. Qed.

Lemma emul_sub' m (A : E) : (0 ≤ m)%Z → emul m A ⊕ ⊖ emul (m + 1) A = ⊖ A.
Proof using All.
  intros Hm. apply eopp_unique. rewrite eplus_assoc -emul_succ //. apply eplus_opp.
Qed.

(** After [XYcZ_addC]: the sum, and the point or its inverse, with the third coordinate [w]. *)
Definition added (bit : bool) (R : ladder) (w m : Z) (A : E) : Prop :=
  ¬ cong P w 0 ∧
  if bit then pt_at w R.1 (emul (2 * m + 1) A) ∧ pt_at w R.2 A
  else pt_at w R.1 (⊖ A) ∧ pt_at w R.2 (emul (2 * m + 1) A).

Lemma ladder_addC_spec bit R m (A : E) :
  ladder_at R m A → A ≠ ezero → (0 ≤ m)%Z → regular m A →
  post (ladder_addC bit R c) (λ R', ∃ w, added bit R' w m A).
Proof using All.
  destruct R as [[X0 Y0] [X1 Y1]]. intros (z & Hz & H0 & H1) HA Hm (Hr1 & Hr2 & Hr3 & _).
  pose proof (emul_succ_neq m A HA Hm) as Hne. rewrite /ladder_addC. destruct bit.
  - eapply post_bind; [by eapply (XYcZ_addC_points z X1 Y1 X0 Y0 (emul (m + 1) A) (emul m A)); rewrite 1?eplus_comm ?emul_double|].
    intros [[[X1' Y1'] X0'] Y0'] [H1' H0']. rewrite emul_sub // in H1'. rewrite eplus_comm emul_double // in H0'.
    eexists. split; [|split; [exact H0'|exact H1']]. by apply chord_z_neq; rewrite 1?eplus_comm ?emul_double.
  - eapply post_bind; [by eapply (XYcZ_addC_points z X0 Y0 X1 Y1 (emul m A) (emul (m + 1) A)); rewrite ?emul_double|].
    intros [[[X0' Y0'] X1'] Y1'] [H0' H1']. rewrite emul_sub' // in H0'. rewrite emul_double // in H1'.
    eexists. split; [|split; [exact H0'|exact H1']]. by apply chord_z_neq; rewrite ?emul_double.
Qed.

Lemma emul_next m (A : E) : (0 ≤ m)%Z → emul (2 * m + 1) A ⊕ A = emul (2 * m + 2) A.
Proof using All. intros Hm. rewrite eplus_comm -emul_succ; [f_equal; lia|lia]. Qed.

Lemma emul_prev m (A : E) : (0 ≤ m)%Z → emul (2 * m + 1) A ⊕ ⊖ A = emul (2 * m) A.
Proof using All.
  intros Hm. rewrite emul_succ; [|lia]. by rewrite (eplus_comm A) eplus_opp_cancel.
Qed.

(** The third coordinate that [XYcZ_add] leaves. *)
Definition last_z (bit : bool) (w m : Z) (A : E) : Z :=
  ((cx (if bit then A else ⊖ A) - cx (emul (2 * m + 1) A)) * w ^ 3)%Z.

Lemma ladder_add_spec bit R w m (A : E) :
  added bit R w m A → A ≠ ezero → (0 ≤ m)%Z → regular m A →
  post (ladder_add bit R c) (λ R', ¬ cong P (last_z bit w m A) 0 ∧
    pt_at (last_z bit w m A) R'.1 (emul (2 * m + Z.b2z bit) A) ∧
    pt_at (last_z bit w m A) R'.2 (emul (2 * m + Z.b2z bit + 1) A)).
Proof using All.
  destruct R as [[X0 Y0] [X1 Y1]]. intros [Hw H] HA Hm (_ & _ & Hr3 & Hr4 & Hr5).
  rewrite /ladder_add /last_z. destruct bit; destruct H as [H0 H1].
  - assert (emul (2 * m + 1) A ≠ A) as Hne.
    { intros He. apply Hr4. apply (eplus_cancel A). rewrite eplus_zero -emul_succ; [done|lia]. }
    assert (emul (2 * m + 1) A ⊕ A ≠ ezero) as Hs by by rewrite emul_next.
    eapply post_bind; [by eapply (XYcZ_add_points w X0 Y0 X1 Y1 (emul (2 * m + 1) A) A)|].
    intros [[[X0' Y0'] X1'] Y1'] [H0' H1']. rewrite emul_next // in H1'.
    split; [by apply chord_z_neq|]. simpl. by replace (2 * m + 1 + 1)%Z with (2 * m + 2)%Z by lia.
  - assert (emul (2 * m + 1) A ≠ ⊖ A) as Hne.
    { intros He. apply Hr5. by rewrite -emul_next // He eplus_comm eplus_opp. }
    assert (emul (2 * m + 1) A ⊕ ⊖ A ≠ ezero) as Hs by by rewrite emul_prev.
    pose proof (eopp_neq A HA) as HoA.
    eapply post_bind; [by eapply (XYcZ_add_points w X1 Y1 X0 Y0 (emul (2 * m + 1) A) (⊖ A))|].
    intros [[[X1' Y1'] X0'] Y0'] [H1' H0']. rewrite emul_prev // in H0'.
    split; [by apply chord_z_neq|]. rewrite /= Z.add_0_r. done.
Qed.

Lemma ladder_round bit R m (A : E) :
  ladder_at R m A → A ≠ ezero → (0 ≤ m)%Z → regular m A →
  post (R ← ladder_addC bit R c; ladder_add bit R c) (λ R', ladder_at R' (2 * m + Z.b2z bit) A).
Proof using All.
  intros HR HA Hm Hreg. eapply post_bind; [by eapply ladder_addC_spec|]. intros R1 (w & Hw).
  eapply post_mono; [by eapply ladder_add_spec|]. intros R2 (Hz & H0 & H1). by eexists.
Qed.

(** The array may lack the highest bits of the scalar. *)
Lemma scalar_bit_spec nw scalar k i :
  holds nw scalar (k mod pw nw) → (0 ≤ i < 64 * Z.of_nat nw)%Z → post (scalar_bit scalar i) (λ bit, bit = Z.testbit k i).
Proof using.
  intros Hk Hi. eapply post_bind; [by eapply uECC_vli_testBit_spec|]. intros w ->.
  rewrite pw_2 Z.mod_pow2_bits_low; [|lia]. apply negb_involutive.
Qed.

Lemma prefix_bit k i : (0 ≤ i)%Z → (k / 2 ^ i = 2 * (k / 2 ^ (i + 1)) + Z.b2z (Z.testbit k i))%Z.
Proof using. apply quotient_bit. Qed.

Lemma ladder_rounds_spec nw scalar k (m : nat) R (A : E) :
  holds nw scalar (k mod pw nw) → (0 ≤ k)%Z → (Z.of_nat m ≤ 64 * Z.of_nat nw - 1)%Z → A ≠ ezero →
  (∀ i, (1 ≤ i ≤ Z.of_nat m + 1)%Z → regular (k / 2 ^ i) A) →
  ladder_at R (k / 2 ^ (Z.of_nat m + 1)) A →
  post (ladder_rounds m scalar R c) (λ R', ladder_at R' (k / 2 ^ 1) A).
Proof using All.
  intros Hk Hk0 Hm HA Hreg HR.
  apply post_ofor_down with (I := λ j R, ladder_at R (k / 2 ^ (Z.of_nat j + 1)) A); [done| |done].
  intros j R' Hj HR'. eapply post_bind; [eapply scalar_bit_spec; [exact Hk|lia]|]. intros bit ->.
  rewrite (prefix_bit k (Z.of_nat j + 1)); [|lia].
  replace (Z.of_nat j + 1 + 1)%Z with (Z.of_nat (S j) + 1)%Z by lia.
  apply ladder_round; [done|done| |apply Hreg; lia].
  apply Z.div_pos; [done|]. apply Z.pow_pos_nonneg; lia.
Qed.

(** ** The start *)

(** The array holds the coordinates of an affine point. *)
Definition affine (p : array Z) (A : E) : Prop := fe p (cx A) ∧ fe (drop n p) (cy A).

Lemma initial_z_spec (initial_Z : option (array Z)) :
  (∀ iz, initial_Z = Some iz → ∃ z0, fe iz z0 ∧ ¬ cong P z0 0) →
  post (match initial_Z with
        | Some iz => uECC_vli_set (local_vli uECC_MAX_WORDS) iz n
        | None => z ← uECC_vli_clear (local_vli uECC_MAX_WORDS) n; oset z 0 1%Z
        end) (λ z, ∃ z0, fe z z0 ∧ ¬ cong P z0 0).
Proof using All.
  intros H. pose proof (@co_field c P a b _) as Hfield. pose proof (local_room c P) as Hroom. pose proof (@cf_words c P _) as Hn. pose proof (@cf_big c P _).
  destruct initial_Z as [iz|].
  - destruct (H iz eq_refl) as (z0 & Hz & Hz0). eapply post_mono; [fe_op|]. intros z Hzz. by exists z0.
  - eapply post_bind; [apply uECC_vli_clear_spec; exact Hroom|]. intros z Hz.
    apply post_oset; [rewrite (upd_length _ _ _ _ Hz); pose proof Hroom as Hr; unfold room in Hr; lia|].
    exists 1%Z. split; [|apply cong_small; lia]. apply fe_exact; [lia|].
    apply holds_low_word; [lia|by eapply upd_holds|done].
Qed.

Lemma XYcZ_initial_double_spec X1 Y1 X2 Y2 initial_Z (A : E) :
  pt_at 1 (X1, Y1) A → room c X2 → room c Y2 → A ≠ ezero → A ⊕ A ≠ ezero →
  (∀ iz, initial_Z = Some iz → ∃ z0, fe iz z0 ∧ ¬ cong P z0 0) →
  post (XYcZ_initial_double X1 Y1 X2 Y2 initial_Z c) (λ '(X1', Y1', X2', Y2'),
    ladder_at ((X2', Y2'), (X1', Y1')) 1 A).
Proof using All.
  intros [HX HY] HX2 HY2 HA H2 Hiz. pose proof (@co_field c P a b _) as Hfield. rewrite /XYcZ_initial_double; cbv zeta.
  eapply post_bind; [by apply initial_z_spec|]. intros z (z0 & Hz & Hz0). cbn [fst snd] in *.
  fe_step. fe_step. rename a0 into X2', a1 into Y2', Hfe into HfX2, Hfe0 into HfY2.
  eapply post_bind; [eapply (apply_z_spec c P X1 Y1 z (cx A) (cy A) 1 z0); [by split|exact Hz]|]. intros [X1' Y1'] H1.
  rewrite Z.mul_1_l in H1. destruct (tangent A HA H2) as (l & Hl & Hx & Hy).
  eapply post_bind; [by eapply (co_double X1' Y1' z (cx A) (cy A) z0 l)|]. intros [[X1'' Y1''] z'] [HD Hz'].
  cbv zeta in HD, Hz'. set (z3 := (cy A * z0 ^ 4)%Z) in *.
  eapply post_bind; [eapply (apply_z_spec c P X2' Y2' z' (cx A) (cy A) 1 z3); [by split|exact Hz']|]. intros [X2'' Y2''] HR.
  rewrite Z.mul_1_l in HR. exists z3. split; [|split].
  - apply (cong_mul_neq P co_prime); [by apply (cy_neq co_prime)|by apply pow_neq].
  - by rewrite /pt_at emul_1.
  - by rewrite /pt_at emul_succ // emul_1 Hx Hy.
Qed.

(** ** The end *)

(** The inverse of [(qx - sx) w^3] from the coordinates of the point and its copy [(qx, s * py)] of the ladder. *)
Lemma final_z_spec bit R w m (A : E) point :
  added bit R w m A → A ≠ ezero → A ⊕ A ≠ ezero → ¬ cong P (cx A) 0 → affine point A →
  ¬ cong P (last_z bit w m A) 0 →
  post (final_z bit R point c) (λ za, ∃ z, fe za z ∧ cong P (last_z bit w m A * z) 1).
Proof using All.
  destruct R as [[X0 Y0] [X1 Y1]]. intros [Hw H] HA H2 Hx [Hpx Hpy] Hlast.
  pose proof (@co_field c P a b _) as Hfield. pose proof (cy_neq co_prime A HA H2) as Hy. destruct (opp_coords A HA) as [Hox Hoy].
  pose proof (@cf_words c P _) as Hn. pose proof (@cf_big c P _) as Hbig. pose proof (P_pos c P) as HP.
  set (S := emul (2 * m + 1) A) in *.
  set (q := (if bit then 1 else -1)%Z).
  assert (∃ Xb Yb, (if bit then (X1, Y1) else (X0, Y0)) = (Xb, Yb) ∧ fe Xb (cx A * w ^ 2) ∧ fe Yb (q * cy A * w ^ 3) ∧
    fe X0 ((if bit then cx S else cx A) * w ^ 2) ∧ fe X1 ((if bit then cx A else cx S) * w ^ 2)) as
    (Xb & Yb & Eb & HXb & HYb & HX0 & HX1).
  { unfold added in H. destruct bit; destruct H as [[? ?] [? ?]]; cbn [fst snd] in *; eexists _, _; (split; [reflexivity|]).
    - rewrite /q Z.mul_1_l. done.
    - rewrite Hox in H. rewrite Hoy in H0. split_and!; [done| |done|done]. eapply fe_eq; [exact H0|f_equal; unfold q; ring]. }
  rewrite /final_z Eb; cbv zeta. do 3 fe_step.
  set (d := (q * (cx A - cx S))%Z).
  assert (cong P (last_z bit w m A) ((cx A - cx S) * w ^ 3)) as Hlz by (rewrite /last_z; destruct bit; [done|by rewrite Hox]).
  assert (fe a2 (d * w ^ 2 * (q * cy A * w ^ 3) * cx A)) as Ha2.
  { eapply fe_eq; [exact Hfe1|]. f_equal. unfold d, q. destruct bit; ring. }
  assert (¬ cong P (d * w ^ 2 * (q * cy A * w ^ 3) * cx A) 0) as Hnz.
  { assert (¬ cong P q 0) as Hq.
    { unfold q. destruct bit; [apply cong_small; lia|]. intros Hc. apply (cong_small P 1); [lia|].
      replace 1%Z with (- (-1))%Z by done. by rewrite Hc. }
    assert (¬ cong P (cx A - cx S) 0) as Hd.
    { intros Hc. apply Hlast. by rewrite Hlz Hc. }
    assert (¬ cong P (w ^ 2) 0 ∧ ¬ cong P (w ^ 3) 0) as [Hw2 Hw3] by (split; by apply pow_neq).
    assert (¬ cong P d 0) as Hd' by by apply (cong_mul_neq P co_prime).
    clearbody d. by repeat first [done | apply (cong_mul_neq P co_prime)]. }
  eapply post_bind.
  { eapply (uECC_vli_modInv_prime n); [exact Ha2|apply cf_p|done|by eapply fe_room|apply cf_odd|lia|].
    rewrite Z.gcd_mod; [|lia]. rewrite Z.gcd_comm. by apply (prime_gcd P co_prime). }
  intros zi (r & Hzi & Hr & Hinv). apply upd_holds in Hzi. cbv beta in Hzi.
  assert (fe zi r) as Hzr by (apply fe_exact; done).
  assert (cong P (r * (d * w ^ 2 * (q * cy A * w ^ 3) * cx A)) 1) as Hinv'.
  { rewrite /cong -Hinv Zmult_mod_idemp_r. symmetry. apply Z.mod_mod. lia. }
  fe_step. eapply post_mono; [fe_op|]. intros za Hza. cbv beta in Hza. eexists. split; [exact Hza|].
  rewrite Hlz -Hinv' /d. assert (q * q = 1)%Z as Hqq by (unfold q; destruct bit; done).
  replace (r * (q * (cx A - cx S) * w ^ 2 * (q * cy A * w ^ 3) * cx A))%Z
    with (q * q * (r * ((cx A - cx S) * w ^ 2 * (cy A * w ^ 3) * cx A)))%Z by ring.
  rewrite Hqq. f_equal. ring.
Qed.

(** ** The multiplication *)

(** A third coordinate of one is left when the coordinates are multiplied with its inverse. *)
Lemma apply_inverse X Y za w z (A : E) :
  pt_at w (X, Y) A → fe za z → cong P (w * z) 1 →
  post (apply_z X Y za c) (λ '(X', Y'), fe X' (cx A) ∧ fe Y' (cy A)).
Proof using All.
  intros HR Hz Hwz. pose proof (@co_field c P a b _) as Hfield.
  eapply post_mono; [by eapply (apply_z_spec c P X Y za (cx A) (cy A) w z)|].
  intros [X' Y'] H. destruct (at_z_z c P _ _ _ _ _ _ H Hwz) as [H1 H2].
  rewrite Z.pow_1_l // Z.mul_1_r in H1. by rewrite Z.pow_1_l // Z.mul_1_r in H2.
Qed.

Lemma store_point result X Y x y :
  fe X x → fe Y y → n + n ≤ length result →
  post (result ← uECC_vli_set result X n; at_offset n (λ r, uECC_vli_set r Y n) result)
    (λ r, fe r x ∧ fe (drop n r) y ∧ length r = length result).
Proof using.
  intros HX HY Hl. eapply post_bind; [eapply uECC_vli_set_spec; [exact HX|lia]|]. intros r Hr.
  pose proof (upd_length _ _ _ _ Hr) as Hlr.
  eapply post_at_offset; [lia|eapply uECC_vli_set_spec; [exact HY|rewrite length_drop; lia]|].
  intros r' Hr'. destruct (upd_at_offset n n r _ r' ltac:(lia) Hr') as (H1 & H2 & H3 & _).
  split; [|split; [exact H1|congruence]]. apply (holds_take_l n n); [lia|].
  rewrite H3 holds_take_l; [|lia]. by eapply upd_holds.
Qed.

Lemma top_prefix k num_bits : (1 ≤ num_bits)%Z → (2 ^ (num_bits - 1) ≤ k < 2 ^ num_bits)%Z → (k / 2 ^ (num_bits - 1) = 1)%Z.
Proof using.
  intros Hnb Hkb. symmetry. apply Z.div_unique with (k - 2 ^ (num_bits - 1))%Z; [|lia].
  left. replace num_bits with (Z.succ (num_bits - 1)) in Hkb at 2 by lia. rewrite Z.pow_succ_r in Hkb; lia.
Qed.

(** The copies of the point and the first doubling. *)
Lemma ladder_start point initial_Z (A : E) result scalar num_bits Φ :
  affine point A → A ≠ ezero → A ⊕ A ≠ ezero →
  (∀ iz, initial_Z = Some iz → ∃ z0, fe iz z0 ∧ ¬ cong P z0 0) →
  (∀ R, ladder_at R 1 A → post (ladder_finish result point scalar num_bits R c) Φ) →
  post (EccPoint_mult result point scalar initial_Z num_bits c) Φ.
Proof using All.
  intros [Hpx Hpy] HA H2 Hiz Hrest. rewrite /EccPoint_mult; cbv zeta. pose proof (@co_field c P a b _) as Hfield.
  pose proof (local_room c P) as Hroom. fe_step. fe_step. rename a0 into X, a1 into Y.
  eapply post_bind; [eapply (XYcZ_initial_double_spec X Y _ _ _ A); [|done|done|done|done|done]|].
  { split; simpl; by rewrite Z.mul_1_r. }
  intros [[[X1 Y1] X0] Y0] HR. by apply Hrest.
Qed.

Lemma EccPoint_mult_spec nw result point scalar initial_Z num_bits k (A : E) :
  affine point A → ¬ cong P (cx A) 0 → A ≠ ezero → A ⊕ A ≠ ezero →
  holds nw scalar (k mod pw nw) → (2 ≤ num_bits ≤ 64 * Z.of_nat nw + 1)%Z → (2 ^ (num_bits - 1) ≤ k < 2 ^ num_bits)%Z →
  (∀ i, (1 ≤ i < num_bits)%Z → regular (k / 2 ^ i) A) →
  (∀ iz, initial_Z = Some iz → ∃ z0, fe iz z0 ∧ ¬ cong P z0 0) →
  n + n ≤ length result →
  post (EccPoint_mult result point scalar initial_Z num_bits c)
    (λ r, affine r (emul k A) ∧ length r = length result).
Proof using All.
  intros Hp Hx HA H2 Hk Hnb Hkb Hreg Hiz Hlen. pose proof (@co_field c P a b _) as Hfield.
  apply (ladder_start point initial_Z A _ _ _ _ Hp HA H2 Hiz). intros R HR. rewrite /ladder_finish; cbv zeta. set (m := Z.to_nat (num_bits - 2)).
  assert (k / 2 ^ (Z.of_nat m + 1) = 1)%Z as H1.
  { replace (Z.of_nat m + 1)%Z with (num_bits - 1)%Z by lia. apply top_prefix; lia. }
  assert (0 ≤ k)%Z as Hk0 by (pose proof (Z.pow_nonneg 2 (num_bits - 1)); lia).
  eapply post_bind; [eapply (ladder_rounds_spec nw scalar k m _ A Hk Hk0); [lia|done| |by rewrite H1]|].
  { intros i Hi. apply Hreg. lia. }
  intros R1 HR1. eapply post_bind; [eapply scalar_bit_spec; [exact Hk|lia]|]. intros bit ->.
  assert (0 ≤ k / 2 ^ 1)%Z as Hk1 by (by apply Z.div_pos).
  pose proof (Hreg 1%Z ltac:(lia)) as Hr1. pose proof (prefix_bit k 0 ltac:(lia)) as Hpre.
  rewrite Z.pow_0_r Z.div_1_r Z.add_0_l in Hpre. set (bit := Z.testbit k 0) in *.
  set (h := (k / 2 ^ 1)%Z) in *.
  eapply post_bind; [by apply (ladder_addC_spec bit R1 h A HR1)|]. intros R2 (w & Hw).
  destruct (post_elim _ _ (ladder_add_spec bit R2 w h A Hw HA Hk1 Hr1)) as ([[X0' Y0'] R3] & HE & Hz & H0 & _).
  eapply post_bind; [by eapply (final_z_spec bit R2 w h A point)|]. intros za (z & Hza & Hwz). rewrite HE.
  rewrite {1}/mbind {1}/outcome_bind -Hpre in H0 |- *. cbn [fst snd].
  eapply post_bind; [by eapply apply_inverse|]. intros [X' Y'] [HX' HY'].
  eapply post_mono; [by eapply store_point|]. intros r (Hrx & Hry & Hrl). by split.
Qed.
End points.
