(* ===== verification/PublicKey.v ===== *)
(** * PublicKey: the scalars that the ladder multiplies with

    [regularize_k] replaces a key [k] by [k + n] or [k + 2n], whichever has one
    bit more than the order [n]; [EccPoint_compute_public_key] multiplies the generator by it.
    For every key from 2 to [n - 3] no exception of the formulas is met, and the
    result is the multiple by the key itself. *)
From Stdlib Require Import Zmod.Zmod.
From stdpp Require Import base list numbers ssreflect.
From S2P Require Import Prelude Memory Outcome Digits Vli VliMod VliBytes CurveField CurveGroup EccPoint Ladder.

Notation num_n_words c := (BITS_TO_WORDS (num_n_bits c)).

(** The order of the generator, as the curve records it. *)
Class CurveOrder (c : curve_field) (N : Z) : Prop := {
  order_n : holds (num_n_words c) (curve_n c) N;
  order_words : 0 < num_n_words c ≤ uECC_MAX_WORDS;
  order_bits : (2 ^ (num_n_bits c - 1) < N < 2 ^ num_n_bits c)%Z;
  order_prime : Z.prime N;
  order_big : (4 < N)%Z
}.

(** The scalar that takes the place of [k]. *)
Definition regularized (c : curve_field) (N k : Z) : Z :=
  if (2 ^ num_n_bits c <=? k + N)%Z then (k + N)%Z else (k + 2 * N)%Z.

Section order.
Context (c : curve_field) (N : Z) `{!CurveOrder c N}.
Local Notation nb := (num_n_bits c).
Local Notation nw := (num_n_words c).

Lemma order_bits_pos : (2 < nb ≤ 64 * Z.of_nat nw)%Z ∧ (nb ≤ 256)%Z.
Proof using All.
  pose proof (order_bits (c := c)) as Hb. pose proof (order_big (c := c)) as H4.
  pose proof (order_words (c := c)) as Hw. unfold BITS_TO_WORDS, uECC_MAX_WORDS in *.
  assert (2 < nb)%Z.
  { destruct (Z.lt_ge_cases 2 nb) as [|Hle]; [done|]. pose proof (Z.pow_le_mono_r 2 nb 2 ltac:(done) Hle). lia. }
  pose proof (Z.div_mod (nb + 63) 64 ltac:(done)). pose proof (Z.mod_pos_bound (nb + 63) 64 ltac:(done)). lia.
Qed.

Lemma regularize_k_spec k k0 k1 v :
  holds nw k v → (0 ≤ v < N)%Z → nw ≤ length k0 → nw ≤ length k1 →
  post (regularize_k k k0 k1 c) (λ '(carry, k0', k1'),
    let scalar := if (carry =? 0)%Z then k1' else k0' in
    (carry = 0 ∨ carry = 1)%Z ∧ length k0' = length k0 ∧ length k1' = length k1 ∧
    holds nw scalar (regularized c N v mod pw nw)).
Proof using All.
  intros Hk Hv Hl0 Hl1. pose proof order_bits_pos as [[Hnb1 Hnb2] Hnb3]. pose proof (order_bits (c := c)) as [Hb1 Hb2].
  pose proof (order_n (c := c)) as Hn. pose proof (holds_range _ _ _ Hn) as HNr.
  assert (2 ^ nb ≤ pw nw)%Z as Hpw by (rewrite pw_2; apply Z.pow_le_mono_r; lia).
  rewrite /regularize_k. eapply post_bind; [by eapply uECC_vli_add_spec|]. intros [k0' carry] [Hk0 ->].
  pose proof (upd_length _ _ _ _ Hk0) as Hlk0. apply upd_holds in Hk0.
  eapply post_bind with (Ψ := λ carry, carry = Z.b2z (2 ^ nb <=? v + N)%Z).
  { destruct (Z.leb_spec (pw nw) (v + N)) as [Hge|Hlt]; simpl.
    - by rewrite (proj2 (Z.leb_le _ _)); [|lia].
    - rewrite Z.mod_small in Hk0; [|lia]. destruct (Z.ltb_spec nb (Z.of_nat nw * 8 * 8)).
      + eapply post_bind; [eapply uECC_vli_testBit_spec; [exact Hk0|lia]|]. intros w ->. rewrite negb_involutive /=. f_equal.
        destruct (Z.leb_spec (2 ^ nb) (v + N)).
        * apply Z.testbit_true; [lia|]. assert ((v + N) / 2 ^ nb = 1)%Z as ->; [|done].
          symmetry. apply Z.div_unique with (v + N - 2 ^ nb)%Z; lia.
        * apply Z.testbit_false; [lia|]. rewrite Z.div_small //. lia.
      + assert (nb = 64 * Z.of_nat nw)%Z as Heq by lia. rewrite pw_2 -Heq in Hlt. simpl.
        by rewrite (proj2 (Z.leb_gt _ _)). }
  intros ? ->. eapply post_bind; [by eapply uECC_vli_add_spec|]. intros [k1' c1] [Hk1 _].
  pose proof (upd_length _ _ _ _ Hk1) as Hlk1. apply upd_holds in Hk1. rewrite Zplus_mod_idemp_l in Hk1.
  rewrite /= /regularized. destruct (Z.leb_spec (2 ^ nb) (v + N)); simpl; split_and!; auto.
  by replace (v + 2 * N)%Z with (v + N + N)%Z by lia.
Qed.

Lemma regularized_range v :
  (0 ≤ v < N)%Z → (2 ^ nb ≤ regularized c N v < 2 ^ (nb + 1))%Z.
Proof using All.
  intros Hv. pose proof order_bits_pos as [[Hnb1 Hnb2] Hnb3]. pose proof (order_bits (c := c)) as [Hb1 Hb2].
  assert (2 ^ (nb + 1) = 2 * 2 ^ nb)%Z as E by (rewrite Z.pow_add_r; lia).
  assert (2 ^ nb = 2 * 2 ^ (nb - 1))%Z as E' by (rewrite -Z.pow_succ_r; [f_equal|]; lia).
  rewrite /regularized. destruct (Z.leb_spec (2 ^ nb) (v + N)); lia.
Qed.

Lemma order_odd : (N mod 2 = 1)%Z.
Proof using All.
  pose proof (order_prime (c := c)) as [_ Hp]. pose proof (order_big (c := c)) as H4.
  destruct (Z.mod_pos_bound N 2 ltac:(done)). destruct (Z.eq_dec (N mod 2) 0)%Z as [Hz|]; [|lia].
  exfalso. apply (Hp 2%Z); [lia|]. by apply Z.mod_divide.
Qed.

(** No prefix of the scalar is an exception. *)
Lemma not_multiple m : (0 < m < N)%Z → ¬ cong N m 0.
Proof using All. apply cong_small. Qed.

Lemma regularized_prefix v i :
  (1 < v < N - 2)%Z → (1 ≤ i ≤ nb)%Z →
  let m := (regularized c N v / 2 ^ i)%Z in
  (0 < m)%Z ∧ ¬ cong N m 0 ∧ ¬ cong N (m + 1) 0 ∧ ¬ cong N (2 * m + 1) 0.
Proof using All.
  intros Hv Hi. cbv zeta. pose proof order_odd as Hodd. pose proof (order_big (c := c)) as H4.
  pose proof (regularized_range v ltac:(lia)) as [Hr1 _].
  assert (regularized c N v = v + 2 * N ∨ regularized c N v = v + N ∧ N + 1 ≤ v + N)%Z as Hcase.
  { rewrite /regularized. destruct (Z.leb_spec (2 ^ nb) (v + N)); lia. }
  set (k := regularized c N v) in *. clearbody k.
  assert (∀ j, 0 ≤ j ≤ nb → 0 < k / 2 ^ j)%Z as Hpos.
  { intros j Hj. assert (2 ^ j ≤ 2 ^ nb)%Z by (apply Z.pow_le_mono_r; lia). pose proof (Z.pow_pos_nonneg 2 j ltac:(done) ltac:(lia)).
    apply Z.div_str_pos. lia. }
  split; [apply Hpos; lia|]. pose proof (Hpos i ltac:(lia)) as Hm0.
  assert (∀ j, 1 ≤ j → k / 2 ^ j = (k / 2 ^ (j - 1)) / 2)%Z as Hhalf.
  { intros j Hj. rewrite Z.div_div; [|pose proof (Z.pow_pos_nonneg 2 (j - 1)); lia|done].
    by rewrite Z.mul_comm -Z.pow_succ_r; [|lia]; replace (Z.succ (j - 1)) with j by lia. }
  pose proof (Z.div_mod k 2 ltac:(done)) as E1. pose proof (Z.mod_pos_bound k 2 ltac:(done)) as B1.
  pose proof (Z.div_mod N 2 ltac:(done)) as EN. rewrite Hodd in EN.
  assert (k / 2 ^ 1 = k / 2)%Z as Ek by done.
  assert (∀ m q, 0 < m → N * q < m < N * (q + 1) → ¬ cong N m 0)%Z as Hgap.
  { intros m q Hm Hq. rewrite /cong Z.mod_0_l; [|lia]. rewrite -(Z.mod_unique m N q (m - N * q)); lia. }
  destruct (Z.eq_dec i 1)%Z as [->|Hi1].
  { rewrite Ek in Hm0 |- *. destruct Hcase as [Hc|[Hc Hc']].
    - split_and!; [apply (Hgap _ 1%Z); lia|apply (Hgap _ 1%Z); lia|]. destruct (Z.lt_ge_cases (2 * (k / 2) + 1) (3 * N)).
      + apply (Hgap _ 2%Z); lia.
      + lia.
    - split_and!; [apply (Hgap _ 0%Z); lia|apply (Hgap _ 0%Z); lia|]. apply (Hgap _ 1%Z); lia. }
  assert (∀ j, 2 ≤ j ≤ nb → 4 * (k / 2 ^ j) ≤ k)%Z as Hquart.
  { intros j Hj. pose proof (Z.mul_div_le k (2 ^ j) ltac:(apply Z.pow_pos_nonneg; lia)).
    assert (2 ^ 2 ≤ 2 ^ j)%Z by (apply Z.pow_le_mono_r; lia). pose proof (Hpos j ltac:(lia)). nia. }
  pose proof (Hquart i ltac:(lia)) as Hq.
  pose proof (Z.div_mod (k / 2 ^ (i - 1)) 2 ltac:(done)) as E2. pose proof (Z.mod_pos_bound (k / 2 ^ (i - 1)) 2 ltac:(done)) as B2.
  rewrite -(Hhalf i) in E2; [|lia].
  assert (2 * (k / 2 ^ i) + 1 ≠ N)%Z as Hne.
  { intros Heq. destruct (Z.eq_dec i 2)%Z as [->|].
    - change (2 - 1)%Z with 1%Z in *. rewrite Ek in E2 B2. lia.
    - pose proof (Hquart (i - 1)%Z ltac:(lia)). lia. }
  split_and!; [apply (Hgap _ 0%Z); lia|apply (Hgap _ 0%Z); lia|].
  destruct (Z.lt_ge_cases (2 * (k / 2 ^ i) + 1) N); [apply (Hgap _ 0%Z)|apply (Hgap _ 1%Z)]; lia.
Qed.
End order.

(** ** Multiples by a key *)

Section keys.
Context (c : uECC_Curve) {E : Type} {P a b : Z} (N : Z) `{!CurveOps c P a b} `{!EcGroup E P a b} `{!CurveOrder c N}.
Local Notation n := (num_words c).
Local Notation nb := (num_n_bits c).
Local Notation nw := (num_n_words c).

(** A point that generates a subgroup of the order of the curve, and that the ladder can start from. *)
Record usable (A : E) : Prop := {
  usable_neq : A ≠ ezero;
  usable_order : emul N A = ezero;
  usable_x : ¬ cong P (cx A) 0
}.

Lemma usable_emul_neq A k : usable A → (0 ≤ k)%Z → ¬ cong N k 0 → emul k A ≠ ezero.
Proof using All. intros HA Hk Hne. apply (emul_neq N); [apply (order_prime (c := c))|apply HA..|done|done]. Qed.

Lemma emul_order A k j : usable A → (0 ≤ k)%Z → (0 ≤ j)%Z → cong N k j → emul k A = emul j A.
Proof using All.
  intros HA Hk Hj H. rewrite (emul_mod N (order_prime (c := c)) k); [|apply HA|done].
  rewrite (emul_mod N (order_prime (c := c)) j); [|apply HA|done]. by rewrite H.
Qed.

Lemma double_neq A : usable A → eplus A A ≠ ezero.
Proof using All.
  intros HA. pose proof (order_big (c := c)) as H4.
  replace (eplus A A) with (emul (1 + 1) A) by (by rewrite emul_add // emul_1).
  apply usable_emul_neq; [done|lia|]. apply not_multiple with (c := c); [done|lia].
Qed.

Lemma regular_key A v i :
  usable A → (1 < v < N - 2)%Z → (1 ≤ i ≤ nb)%Z → regular (regularized c N v / 2 ^ i) A.
Proof using All.
  intros HA Hv Hi. destruct (regularized_prefix c N v i Hv Hi) as (Hm0 & Hm & Hm1 & Hm2). cbv zeta in *.
  set (m := (regularized c N v / 2 ^ i)%Z) in *. pose proof (order_big (c := c)) as H4.
  assert (¬ cong N 2 0) as H2 by (apply not_multiple with (c := c); [done|lia]).
  split_and!; apply usable_emul_neq; try done; try lia.
  - by apply (cong_mul_neq N (order_prime (c := c))).
  - replace (2 * m + 2)%Z with (2 * (m + 1))%Z by lia. by apply (cong_mul_neq N (order_prime (c := c))).
Qed.

Lemma regularized_cong v : cong N (regularized c N v) v.
Proof using All.
  pose proof (order_big (c := c)) as H4. rewrite /regularized /cong. destruct (_ <=? _)%Z.
  - replace (v + N)%Z with (v + 1 * N)%Z by lia. apply Z.mod_add. lia.
  - apply Z.mod_add. lia.
Qed.

Lemma EccPoint_mult_key result point scalar initial_Z v A :
  affine c (P := P) point A → usable A → (1 < v < N - 2)%Z →
  holds nw scalar (regularized c N v mod pw nw) →
  (∀ iz, initial_Z = Some iz → ∃ z0, fe c P iz z0 ∧ ¬ cong P z0 0) → n + n ≤ length result →
  post (EccPoint_mult result point scalar initial_Z (nb + 1) c)
    (λ r, affine c (P := P) r (emul v A) ∧ length r = length result).
Proof using All.
  intros Hp HA Hv Hs Hiz Hl. pose proof (order_bits_pos c N) as [[Hnb1 Hnb2] _].
  pose proof (regularized_range c N v ltac:(lia)) as [Hr1 Hr2].
  eapply post_mono; [eapply (EccPoint_mult_spec c nw result point scalar initial_Z (nb + 1) (regularized c N v) A)|].
  - exact Hp.
  - apply HA.
  - apply HA.
  - by apply double_neq.
  - exact Hs.
  - lia.
  - by rewrite Z.add_simpl_r.
  - intros i Hi. apply regular_key; [done|done|lia].
  - exact Hiz.
  - exact Hl.
  - intros r [Hr Hlr]. split; [|done].
    rewrite (emul_order A v (regularized c N v)); [done|done|lia| |symmetry; apply regularized_cong].
    pose proof (Z.pow_nonneg 2 nb). lia.
Qed.

(** A point of the subgroup is not the pair of zeros. *)
Lemma affine_isZero point A :
  affine c (P := P) point A → A ≠ ezero → eplus A A ≠ ezero → EccPoint_isZero point c = Ok 0%Z.
Proof using All.
  intros [Hx Hy] HA H2. pose proof (P_pos c P) as HP. pose proof (holds_glue _ _ _ _ _ Hx Hy) as H.
  rewrite /EccPoint_isZero. replace (n * 2) with (n + n) by lia. rewrite (uECC_vli_isZero_spec _ _ _ H).
  rewrite (proj2 (Z.eqb_neq _ _)) //. pose proof (fe_range c P (cx A)). pose proof (fe_range c P (cy A)).
  pose proof (pw_pos n). intros Hz0. apply (cy_neq co_prime A HA H2). rewrite /cong Z.mod_0_l; [|lia]. nia.
Qed.

Lemma key_multiple_neq A v :
  usable A → (1 < v < N - 2)%Z → emul v A ≠ ezero ∧ eplus (emul v A) (emul v A) ≠ ezero.
Proof using All.
  intros HA Hv. pose proof (order_big (c := c)). split.
  - apply usable_emul_neq; [done|lia|]. apply not_multiple with (c := c); [done|lia].
  - rewrite -emul_add; [|lia..]. apply usable_emul_neq; [done|lia|].
    replace (v + v)%Z with (2 * v)%Z by lia.
    apply (cong_mul_neq N (order_prime (c := c))); (apply not_multiple with (c := c); [done|lia]).
Qed.

End keys.
