(* ===== verification/LadderTotal.v ===== *)
(** * LadderTotal: what [EccPoint_mult] does with every scalar

    When two points that the ladder adds are inverse to each other, the formulas
    leave the pair of zeros and a point of the cusp [y^2 = x^3]; from there every further round
    leads to zeros.  So the ladder either computes the multiple or the pair of
    zeros, which its callers report as a failure, and never another point. *)
From Stdlib Require Import Zmod.Zmod.
From stdpp Require Import base list numbers ssreflect.
From S2P Require Import Prelude Memory Outcome Digits Vli VliMod VliBytes CurveField CurveGroup EccPoint Ladder PublicKey.

(** ** The formulas on degenerate points *)

Section cusp.
Context (c : curve_field) (P : Z) `{!CurveField c P}.
Local Notation n := (num_words c).
Local Notation fe := (fe c P).

Definition zero_at (R : array Z * array Z) : Prop := fe R.1 0 ∧ fe R.2 0.
Definition cusp_at (t : Z) (R : array Z * array Z) : Prop := fe R.1 (t ^ 2) ∧ fe R.2 (t ^ 3).

Lemma zero_cusp R : zero_at R → cusp_at 0 R.
Proof. done. Qed.

(** [fe_ring] closes a value that is the same polynomial. *)
Ltac fe_ring := eapply fe_eq; [eassumption|f_equal; ring].

Lemma XYcZ_add_cusp t X1 Y1 X2 Y2 :
  cusp_at t (X1, Y1) → zero_at (X2, Y2) →
  post (XYcZ_add X1 Y1 X2 Y2 c) (λ '(X1', Y1', X2', Y2'), cusp_at (- t ^ 3) (X1', Y1') ∧ zero_at (X2', Y2')).
Proof using All.
  intros [HX1 HY1] [HX2 HY2]. cbn [fst snd] in *. rewrite /XYcZ_add; cbv zeta. do 14 fe_step.
  split; split; cbn [fst snd]; fe_ring.
Qed.

Lemma XYcZ_addC_cusp s t X1 Y1 X2 Y2 :
  cusp_at s (X1, Y1) → cusp_at t (X2, Y2) → (s * t = 0)%Z →
  post (XYcZ_addC X1 Y1 X2 Y2 c) (λ '(X1', Y1', X2', Y2'), zero_at (X1', Y1') ∧ zero_at (X2', Y2')).
Proof using All.
  intros [HX1 HY1] [HX2 HY2] Hst. cbn [fst snd] in *. rewrite /XYcZ_addC; cbv zeta. do 20 fe_step.
  apply Z.mul_eq_0 in Hst as [-> | ->]; split; split; cbn [fst snd]; fe_ring.
Qed.

(** Two points that are inverse to each other. *)
Lemma XYcZ_addC_inverse z x y X1 Y1 X2 Y2 :
  at_z c P z X1 Y1 x y → at_z c P z X2 Y2 x (- y) →
  post (XYcZ_addC X1 Y1 X2 Y2 c) (λ '(X1', Y1', X2', Y2'), zero_at (X1', Y1') ∧ ∃ t, cusp_at t (X2', Y2')).
Proof using All.
  intros [HX1 HY1] [HX2 HY2]. rewrite /XYcZ_addC; cbv zeta. do 20 fe_step.
  split; [split; cbn [fst snd]; fe_ring|]. exists (2 * y * z ^ 3)%Z. split; cbn [fst snd]; fe_ring.
Qed.

Lemma apply_z_zero X Y Z x y :
  fe X x → fe Y y → fe Z 0 → post (apply_z X Y Z c) (λ '(X', Y'), fe X' 0 ∧ fe Y' 0).
Proof using All. intros HX HY HZ. rewrite /apply_z. do 4 fe_step. split; fe_ring. Qed.

Lemma apply_z_total X Y Z x y z :
  fe X x → fe Y y → fe Z z → post (apply_z X Y Z c) (λ '(X', Y'), fe X' (x * z ^ 2) ∧ fe Y' (y * z ^ 3)).
Proof using All. intros HX HY HZ. rewrite /apply_z. do 4 fe_step. split; fe_ring. Qed.
End cusp.

Section total.
Context (c : uECC_Curve) {E : Type} {P a b : Z} (N : Z) `{!CurveOps c P a b} `{!EcGroup E P a b} `{!CurveOrder c N}.
Local Notation n := (num_words c).
Local Notation fe := (fe c P).
Local Notation zero_at := (zero_at c P).
Local Notation cusp_at := (cusp_at c P).

(** One of the two points is zero, the other is on the cusp. *)
Definition degenerate (R : ladder) : Prop :=
  ∃ t, zero_at R.1 ∧ cusp_at t R.2 ∨ cusp_at t R.1 ∧ zero_at R.2.

(** After [XYcZ_addC] the point of the bit is zero. *)
Definition degenerate_added (bit : bool) (R : ladder) : Prop :=
  ∃ t, if bit then cusp_at t R.1 ∧ zero_at R.2 else zero_at R.1 ∧ cusp_at t R.2.

Lemma ladder_addC_degenerate bit R : degenerate R → post (ladder_addC bit R c) (degenerate_added bit).
Proof using All.
  destruct R as [[X0 Y0] [X1 Y1]]. intros (t & H). pose proof (@co_field c P a b _) as Hf.
  assert (∃ s t, cusp_at s (X0, Y0) ∧ cusp_at t (X1, Y1) ∧ s * t = 0)%Z as (s & u & H0 & H1 & Hz).
  { destruct H as [[H0 H1]|[H0 H1]]; [exists 0%Z, t|exists t, 0%Z]; (split_and!; [done|done|lia]). }
  rewrite /ladder_addC. destruct bit.
  - eapply post_bind; [eapply (XYcZ_addC_cusp c P u s); [done|done|lia]|].
    intros [[[? ?] ?] ?] [? ?]. exists 0%Z. by split.
  - eapply post_bind; [by eapply (XYcZ_addC_cusp c P s u)|].
    intros [[[? ?] ?] ?] [? ?]. exists 0%Z. by split.
Qed.

Lemma ladder_add_degenerate bit R : degenerate_added bit R → post (ladder_add bit R c) degenerate.
Proof using All.
  destruct R as [[X0 Y0] [X1 Y1]]. intros (t & H). pose proof (@co_field c P a b _) as Hf. rewrite /ladder_add.
  destruct bit; destruct H as [H0 H1].
  - eapply post_bind; [by eapply (XYcZ_add_cusp c P t)|]. intros [[[? ?] ?] ?] [? ?]. eexists. by right.
  - eapply post_bind; [by eapply (XYcZ_add_cusp c P t)|]. intros [[[? ?] ?] ?] [? ?]. eexists. by left.
Qed.

(** The sum of the round is the neutral element. *)
Lemma ladder_addC_exception bit R m (A : E) :
  ladder_at c R m A → (0 ≤ m)%Z → emul m A ≠ ezero → emul (2 * m + 1) A = ezero →
  post (ladder_addC bit R c) (degenerate_added bit).
Proof using All.
  destruct R as [[X0 Y0] [X1 Y1]]. intros (z & Hz & H0 & H1) Hm HmA Hs. pose proof (@co_field c P a b _) as Hf.
  rewrite -emul_double // in Hs. apply eopp_unique in Hs. destruct (opp_coords (emul m A) HmA) as [Hx Hy].
  rewrite /pt_at Hs Hx Hy in H1. unfold pt_at in H0. cbn [fst snd] in *. rewrite /ladder_addC. destruct bit.
  - eapply post_bind; [eapply (XYcZ_addC_inverse c P z _ (- cy (emul m A)) X1 Y1 X0 Y0); [exact H1|by rewrite Z.opp_involutive]|].
    intros [[[? ?] ?] ?] [? [t ?]]. exists t. by split.
  - eapply post_bind; [by eapply (XYcZ_addC_inverse c P z _ (cy (emul m A)) X0 Y0 X1 Y1)|].
    intros [[[? ?] ?] ?] [? [t ?]]. exists t. by split.
Qed.

(** ** The end of the ladder *)

(** The inverse of zero is zero. *)
Lemma final_z_zero (bit : bool) X0 Y0 X1 Y1 point x0 y0 x1 y1 px py :
  fe X0 x0 → fe Y0 y0 → fe X1 x1 → fe Y1 y1 → fe point px → fe (drop n point) py →
  cong P ((if bit then y1 else y0) * px) 0 →
  post (final_z bit ((X0, Y0), (X1, Y1)) point c) (λ za, fe za 0).
Proof using All.
  intros H0 G0 H1 G1 Hpx Hpy Hz. pose proof (@co_field c P a b _) as Hf. pose proof (@cf_words c P _) as Hn.
  pose proof (@cf_big c P _) as Hbig. pose proof (P_pos c P) as HP.
  assert (∃ Xb Yb xb, (if bit then (X1, Y1) else (X0, Y0)) = (Xb, Yb) ∧ fe Xb xb ∧ fe Yb (if bit then y1 else y0)) as
    (Xb & Yb & xb & Eb & HXb & HYb) by (destruct bit; eexists _, _, _; (split; [reflexivity|by split])).
  rewrite /final_z Eb; cbv zeta. do 3 fe_step.
  assert (fe a2 0) as Ha2.
  { eapply fe_eq; [exact Hfe1|]. rewrite -Z.mul_assoc. change (cong P ((x1 - x0) * ((if bit then y1 else y0) * px)) 0).
    by rewrite Hz Z.mul_0_r. }
  unfold CurveField.fe in Ha2. rewrite Z.mod_0_l in Ha2; [|lia].
  eapply post_bind.
  { eapply (uECC_vli_modInv_spec n); [exact Ha2|apply cf_p|done|eapply holds_length; exact Ha2|apply cf_odd|lia]. }
  intros zi (r & Hr%upd_holds & _ & Hr0). simpl in Hr0. subst r.
  assert (fe zi 0) as Hzi by (apply fe_exact; [lia|exact Hr]).
  fe_step. eapply post_mono; [fe_op|]. intros za Hza. cbv beta in Hza. by rewrite !Z.mul_0_l in Hza.
Qed.

(** The pair of zeros. *)
Definition zero_point (r : array Z) : Prop := fe r 0 ∧ fe (drop n r) 0.

(** What the ladder has computed after the bits above the [i]-th one. *)
Definition ladder_state (R : ladder) (m : Z) (A : E) : Prop :=
  ladder_at c R m A ∧ ¬ cong N m 0 ∧ ¬ cong N (m + 1) 0 ∨ degenerate R.

Lemma two_neq : ¬ cong N 2 0.
Proof using All. pose proof (order_big (c := c)). apply not_multiple with (c := c); [done|lia]. Qed.

Lemma regular_neq (A : E) m :
  A ≠ ezero → emul N A = ezero → (0 ≤ m)%Z → ¬ cong N m 0 → ¬ cong N (m + 1) 0 → ¬ cong N (2 * m + 1) 0 → regular m A.
Proof using All.
  intros HA HNA Hm H0 H1 H2. pose proof (order_prime (c := c)) as HN. pose proof two_neq.
  split_and!; apply (emul_neq N HN); try done; try lia.
  - by apply (cong_mul_neq N HN).
  - replace (2 * m + 2)%Z with (2 * (m + 1))%Z by lia. by apply (cong_mul_neq N HN).
Qed.

Lemma next_neq (bit : bool) m :
  ¬ cong N m 0 → ¬ cong N (m + 1) 0 → ¬ cong N (2 * m + 1) 0 →
  ¬ cong N (2 * m + Z.b2z bit) 0 ∧ ¬ cong N (2 * m + Z.b2z bit + 1) 0.
Proof using All.
  intros H0 H1 H2. pose proof (order_prime (c := c)) as HN. pose proof two_neq. destruct bit; simpl.
  - split; [done|]. replace (2 * m + 1 + 1)%Z with (2 * (m + 1))%Z by lia. by apply (cong_mul_neq N HN).
  - rewrite Z.add_0_r. split; [by apply (cong_mul_neq N HN)|done].
Qed.

Lemma emul_multiple (A : E) k : emul N A = ezero → (0 ≤ k)%Z → cong N k 0 → emul k A = ezero.
Proof using All.
  intros HA Hk Hz. pose proof (order_big (c := c)) as H4. rewrite (emul_mod N (order_prime (c := c))) // Hz Z.mod_0_l; [done|lia].
Qed.

Lemma ladder_state_round bit R m (A : E) :
  ladder_state R m A → A ≠ ezero → emul N A = ezero → (0 ≤ m)%Z →
  post (R ← ladder_addC bit R c; ladder_add bit R c) (λ R', ladder_state R' (2 * m + Z.b2z bit) A).
Proof using All.
  intros [(HR & H0 & H1)|HR] HA HNA Hm.
  - destruct (decide (cong N (2 * m + 1) 0)) as [He|Hne].
    + eapply post_bind; [eapply (ladder_addC_exception bit R m A); [done|done| |]|].
      * by apply (emul_neq N (order_prime (c := c))).
      * apply emul_multiple; [done|lia|done].
      * intros R1 HR1. eapply post_mono; [by apply ladder_add_degenerate|]. intros R2 HR2. by right.
    + eapply post_mono; [eapply (ladder_round c bit R m A); [done|done|done|by apply regular_neq]|].
      intros R' HR'. left. split; [done|by apply next_neq].
  - eapply post_bind; [by apply ladder_addC_degenerate|]. intros R1 HR1.
    eapply post_mono; [by apply ladder_add_degenerate|]. intros R2 HR2. by right.
Qed.

Lemma ladder_rounds_total nw scalar k (m : nat) R (A : E) :
  holds nw scalar (k mod pw nw) → (0 ≤ k)%Z → (Z.of_nat m ≤ 64 * Z.of_nat nw - 1)%Z → A ≠ ezero → emul N A = ezero →
  ladder_state R (k / 2 ^ (Z.of_nat m + 1)) A →
  post (ladder_rounds m scalar R c) (λ R', ladder_state R' (k / 2 ^ 1) A).
Proof using All.
  intros Hk Hk0 Hm HA HNA HR.
  apply post_ofor_down with (I := λ j R, ladder_state R (k / 2 ^ (Z.of_nat j + 1)) A); [done| |done].
  intros j R' Hj HR'. eapply post_bind; [eapply scalar_bit_spec; [exact Hk|lia]|]. intros bit ->.
  rewrite (prefix_bit k (Z.of_nat j + 1)); [|lia].
  replace (Z.of_nat j + 1 + 1)%Z with (Z.of_nat (S j) + 1)%Z by lia.
  apply ladder_state_round; [done|done|done|]. apply Z.div_pos; [done|]. apply Z.pow_pos_nonneg; lia.
Qed.

(** The pieces of the last steps on degenerate points. *)
Lemma finish_zero (R : ladder) za (result : array Z) :
  (∃ x y, fe R.1.1 x ∧ fe R.1.2 y) → fe za 0 → n + n ≤ length result →
  post ('(X0, Y0) ← apply_z R.1.1 R.1.2 za c;
        result ← uECC_vli_set result X0 n; at_offset n (λ y, uECC_vli_set y Y0 n) result)
    (λ r, zero_point r ∧ length r = length result).
Proof using All.
  intros (x & y & Hx & Hy) Hz Hl. pose proof (@co_field c P a b _) as Hf.
  eapply post_bind; [by eapply (apply_z_zero c P)|]. intros [X Y] [HX HY].
  eapply post_mono; [by eapply (store_point c (P := P))|]. intros r (? & ? & ?). by split.
Qed.

Lemma degenerate_fe (R : ladder) : degenerate R → ∃ x y, fe R.1.1 x ∧ fe R.1.2 y.
Proof using. intros (t & [[[? ?] _]|[[? ?] _]]); eauto. Qed.

Lemma finish_degenerate bit (R : ladder) point px py (result : array Z) :
  degenerate_added bit R → fe point px → fe (drop n point) py → n + n ≤ length result →
  post (z ← final_z bit R point c; R ← ladder_add bit R c;
        '(X0, Y0) ← apply_z R.1.1 R.1.2 z c;
        result ← uECC_vli_set result X0 n; at_offset n (λ y, uECC_vli_set y Y0 n) result)
    (λ r, zero_point r ∧ length r = length result).
Proof using All.
  intros HR Hpx Hpy Hl. pose proof HR as (t & Ht). pose proof (ladder_add_degenerate bit R HR) as Hadd.
  destruct R as [[X0 Y0] [X1 Y1]]. eapply post_bind with (Ψ := λ za, fe za 0).
  { destruct bit; destruct Ht as [[? ?] [? ?]]; cbn [fst snd] in *; eapply final_z_zero; try eassumption; by rewrite Z.mul_0_l. }
  intros za Hza. eapply post_bind; [exact Hadd|]. intros R' HR'. by apply finish_zero; [apply degenerate_fe|..].
Qed.

(** Every scalar gives the multiple, or the pair of zeros. *)
Lemma EccPoint_mult_total nw result point scalar initial_Z num_bits k (A : E) :
  affine c (P := P) point A → A ≠ ezero → emul N A = ezero →
  holds nw scalar (k mod pw nw) → (2 ≤ num_bits ≤ 64 * Z.of_nat nw + 1)%Z → (2 ^ (num_bits - 1) ≤ k < 2 ^ num_bits)%Z →
  (∀ iz, initial_Z = Some iz → ∃ z0, fe iz z0 ∧ ¬ cong P z0 0) → n + n ≤ length result →
  post (EccPoint_mult result point scalar initial_Z num_bits c)
    (λ r, (affine c (P := P) r (emul k A) ∧ emul k A ≠ ezero ∨ zero_point r) ∧ length r = length result).
Proof using All.
  intros Hp HA HNA Hk Hnb Hkb Hiz Hlen. pose proof (@co_field c P a b _) as Hf. pose proof (order_big (c := c)) as H4.
  pose proof (order_prime (c := c)) as HN.
  assert (eplus A A ≠ ezero) as H2.
  { replace (eplus A A) with (emul (1 + 1) A) by (by rewrite emul_add // emul_1). apply (emul_neq N HN); [done..|lia|].
    apply two_neq. }
  apply (ladder_start c point initial_Z A _ _ _ _ Hp HA H2 Hiz). intros R HR. rewrite /ladder_finish; cbv zeta.
  assert (0 ≤ k)%Z as Hk0 by (pose proof (Z.pow_nonneg 2 (num_bits - 1)); lia).
  eapply post_bind; [eapply (ladder_rounds_total nw scalar k _ R A Hk Hk0); [lia|done|done|]|].
  { replace (Z.of_nat (Z.to_nat (num_bits - 2)) + 1)%Z with (num_bits - 1)%Z by lia. rewrite top_prefix //; [|lia].
    left. split; [done|]. split; apply not_multiple with (c := c); done || lia. }
  intros R1 HR1. eapply post_bind; [eapply scalar_bit_spec; [exact Hk|lia]|]. intros bit ->.
  assert (0 ≤ k / 2 ^ 1)%Z as Hk1 by (by apply Z.div_pos).
  pose proof (prefix_bit k 0 ltac:(lia)) as Hpre.
  rewrite Z.pow_0_r Z.div_1_r Z.add_0_l in Hpre. set (bit := Z.testbit k 0) in *. set (h := (k / 2 ^ 1)%Z) in *.
  pose proof Hp as [Hpx Hpy]. cbv beta in HR1.
  destruct HR1 as [(HR1 & H0 & H1)|HR1].
  2: { eapply post_bind; [by apply ladder_addC_degenerate|]. intros R2 HR2.
    eapply post_mono; [by eapply finish_degenerate|]. intros r [? ?]. split; [by right|done]. }
  destruct (decide (cong N (2 * h + 1) 0)) as [He|Hne].
  { eapply post_bind; [eapply (ladder_addC_exception bit R1 h A); [done|done| |]|].
    - by apply (emul_neq N HN).
    - apply emul_multiple; [done|lia|done].
    - intros R2 HR2. eapply post_mono; [by eapply finish_degenerate|]. intros r [? ?]. split; [by right|done]. }
  pose proof (regular_neq A h HA HNA Hk1 H0 H1 Hne) as Hreg.
  eapply post_bind; [by apply (ladder_addC_spec c bit R1 h A HR1)|]. intros R2 (w & Hw).
  pose proof (ladder_add_spec c bit R2 w h A Hw HA Hk1 Hreg) as Hadd.
  destruct (decide (cong P (cx A) 0)) as [Hx|Hx].
  - eapply post_bind with (Ψ := λ za, fe za 0).
    { destruct R2 as [[X0 Y0] [X1 Y1]]. destruct Hw as [_ Hw].
      destruct bit; destruct Hw as [[? ?] [? ?]]; cbn [fst snd] in *; eapply final_z_zero; try eassumption; by rewrite Hx Z.mul_0_r. }
    intros za Hza. eapply post_bind; [exact Hadd|]. intros R3 (_ & [H3x H3y] & _).
    eapply post_mono; [eapply finish_zero; [eauto|done|done]|]. intros r [? ?]. split; [by right|done].
  - destruct (post_elim _ _ Hadd) as (R3 & HE & Hz & H3 & _).
    eapply post_bind; [by eapply (final_z_spec c bit R2 w h A point)|]. intros za (z & Hza & Hwz). rewrite HE.
    rewrite {1}/mbind {1}/outcome_bind -Hpre in H3 |- *.
    eapply post_bind; [by eapply (apply_inverse c R3.1.1 R3.1.2); [destruct R3 as [[? ?] ?]|..]|]. intros [X' Y'] [HX' HY'].
    eapply post_mono; [by eapply (store_point c (P := P))|]. intros r (Hrx & Hry & Hrl). split; [left|done].
    split; [done|]. apply (emul_neq N HN); [done|done|done|].
    rewrite Hpre. by apply next_neq.
Qed.

(** ** Every key *)

(** Keys and points for which the ladder meets no exception. *)
Definition good_key (A : E) (v : Z) : Prop := ¬ cong P (cx A) 0 ∧ (1 < v < N - 2)%Z.
#[export] Instance good_key_decision A v : Decision (good_key A v).
Proof using. unfold good_key. apply _. Defined.

Lemma EccPoint_mult_any_key result point scalar initial_Z v (A : E) :
  affine c (P := P) point A → A ≠ ezero → emul N A = ezero → (0 ≤ v < N)%Z →
  holds (num_n_words c) scalar (regularized c N v mod pw (num_n_words c)) →
  (∀ iz, initial_Z = Some iz → ∃ z0, fe iz z0 ∧ ¬ cong P z0 0) → n + n ≤ length result →
  post (EccPoint_mult result point scalar initial_Z (num_n_bits c + 1) c)
    (λ r, (affine c (P := P) r (emul v A) ∧ emul v A ≠ ezero ∨ zero_point r ∧ ¬ good_key A v) ∧ length r = length result).
Proof using All.
  intros Hp HA HNA Hv Hs Hiz Hl. destruct (decide (good_key A v)) as [[Hx Hmid]|Hbad].
  { assert (usable (P := P) N A) as Hu by by split.
    eapply post_mono; [by apply (EccPoint_mult_key c N result point scalar initial_Z v A)|].
    intros r [Hr Hlr]. split; [left|done]. split; [done|]. by apply (key_multiple_neq c N). }
  pose proof (order_bits_pos c N) as [[Hnb1 Hnb2] _].
  pose proof (regularized_range c N v Hv) as [Hr1 Hr2]. pose proof (Z.pow_nonneg 2 (num_n_bits c)).
  assert (emul v A = emul (regularized c N v) A) as ->.
  { rewrite (emul_mod N (order_prime (c := c)) (regularized c N v)) //; [|lia].
    rewrite (emul_mod N (order_prime (c := c)) v) //; [|lia]. by rewrite (regularized_cong c N v). }
  eapply post_mono; [eapply EccPoint_mult_total; try done; [lia|]; by rewrite Z.add_simpl_r|].
  intros r [[Hr|Hr] Hlr]; (split; [|done]); [by left|by right].
Qed.

(** The pair of zeros is reported, a point is not. *)
Lemma zero_point_isZero r : zero_point r → EccPoint_isZero r c = Ok 1%Z.
Proof using All.
  intros [Hx Hy]. pose proof (@co_field c P a b _) as Hf. pose proof (P_pos c P) as HP.
  pose proof (holds_glue _ _ _ _ _ Hx Hy) as H. rewrite Z.mod_0_l in H; [|lia].
  rewrite /EccPoint_isZero. replace (n * 2) with (n + n) by lia. rewrite (uECC_vli_isZero_spec _ _ _ H). by rewrite Z.mul_0_r.
Qed.

Lemma odd_double_neq (A : E) : emul N A = ezero → A ≠ ezero → eplus A A ≠ ezero.
Proof using All.
  intros HNA HA. replace (eplus A A) with (emul (1 + 1) A) by (by rewrite emul_add // emul_1).
  apply (emul_neq N (order_prime (c := c))); [done..|lia|]. apply two_neq.
Qed.

Lemma emul_order_emul v (A : E) : (0 ≤ v)%Z → emul N A = ezero → emul N (emul v A) = ezero.
Proof using All.
  intros Hv HNA. pose proof (order_big (c := c)). rewrite emul_comm //; [|lia]. by rewrite HNA emul_zero.
Qed.

Lemma EccPoint_compute_public_key_total result private_key v (A : E) :
  affine c (P := P) (curve_G c) A → A ≠ ezero → emul N A = ezero → holds (num_n_words c) private_key v → (0 ≤ v < N)%Z →
  n + n ≤ length result →
  post (EccPoint_compute_public_key result private_key c)
    (λ '(ok, r), (ok = 1%Z ∧ affine c (P := P) r (emul v A) ∧ emul v A ≠ ezero ∨ ok = 0%Z ∧ ¬ good_key A v) ∧
      length r = length result).
Proof using All.
  intros HG HA HNA Hk Hv Hl. pose proof (order_words (c := c)) as Hw. rewrite /EccPoint_compute_public_key; cbv zeta.
  eapply post_bind; [eapply (regularize_k_spec c N private_key); [exact Hk|lia|rewrite length_replicate; lia..]|].
  intros [[carry k0] k1] (_ & _ & _ & Hs). cbv zeta in Hs.
  eapply post_bind; [by eapply EccPoint_mult_any_key|]. intros r [[[Hr Hne]|[Hr Hbad]] Hlr].
  - rewrite (affine_isZero c N r (emul v A) Hr) //.
    + split; [by left|done].
    + apply odd_double_neq; [|done]. apply emul_order_emul; [lia|done].
  - rewrite (zero_point_isZero r Hr). split; [by right|done].
Qed.
End total.
