(* ===== verification/SmallCurve.v ===== *)
(** * SmallCurve: a curve small enough to compute with

    The curve [y^2 = x^3 - 3 x + 6] modulo 7 has eleven points.  The laws of
    [EcGroup] are decided by computing over its table of multiples, so the
    theorems on keys, secrets, compressed points and signatures have concrete
    instances.  Its reduction takes the remainder of the lowest word; the other callbacks are
    the default ones. *)
From Stdlib Require Import Zmod.Zmod.
From stdpp Require Import base list numbers ssreflect.
From S2P Require Import Prelude Memory Outcome Digits Vli VliMod VliBytes CurveField CurveGroup Primes EccPoint Ladder PublicKey.

(** ** The laws of a group that is given by a table *)

Section table.
Context (P a b N : Z) (table : list (Z * Z)).

(** The coordinates of the [k]-th multiple of the generator. *)
Definition entry (k : Z) : Z * Z := nth (Z.to_nat k) table (0%Z, 0%Z).
Definition tx (k : Z) : Z := (entry k).1.
Definition ty (k : Z) : Z := (entry k).2.

Definition eqm (x y : Z) : bool := (x mod P =? y mod P)%Z.
Definition upto (n : Z) : list Z := Z.of_nat <$> seq 0 (Z.to_nat n).
Definition all_from_1 (f : Z → bool) : bool := forallb (λ k, (k =? 0)%Z || f k) (upto N).

Definition chord_ok (i j l : Z) : bool :=
  let s := ((i + j) mod N)%Z in
  eqm (l * (tx j - tx i)) (ty j - ty i) && eqm (tx s) (chord_x (tx i) (tx j) l) &&
  eqm (ty s) (chord_y (tx i) (ty i) (tx j) l).
Definition tangent_ok (i l : Z) : bool :=
  let s := ((i + i) mod N)%Z in
  eqm (2 * ty i * l) (3 * tx i ^ 2 + a) && eqm (tx s) (tangent_x (tx i) l) && eqm (ty s) (tangent_y (tx i) (ty i) l).

Definition table_ok : bool :=
  all_from_1 (λ i, eqm (ty i ^ 2) (tx i ^ 3 + a * tx i + b) &&
    eqm (tx ((- i) mod N)) (tx i) && eqm (ty ((- i) mod N)) (- ty i) &&
    (((i + i) mod N =? 0)%Z || existsb (tangent_ok i) (upto P)) &&
    all_from_1 (λ j, (negb (eqm (tx i) (tx j) && eqm (ty i) (ty j)) || (i =? j)%Z) &&
      (eqm (tx i) (tx j) || existsb (chord_ok i j) (upto P)))).

Lemma eqm_cong x y : eqm x y = true ↔ cong P x y.
Proof. apply Z.eqb_eq. Qed.

Lemma all_from_1_spec f k : all_from_1 f = true → (0 < k < N)%Z → f k = true.
Proof.
  intros H Hk. rewrite /all_from_1 forallb_forall in H. specialize (H k).
  assert (In k (upto N)) as Hin.
  { apply list_elem_of_In. rewrite /upto. apply list_elem_of_fmap. exists (Z.to_nat k). split; [lia|]. apply elem_of_seq. lia. }
  apply H in Hin. destruct (Z.eqb_spec k 0); [lia|done].
Qed.

Context (HN : (0 < N)%Z) (Hok : table_ok = true).

Lemma row_ok i : (0 < i < N)%Z →
  cong P (ty i ^ 2) (tx i ^ 3 + a * tx i + b) ∧
  (cong P (tx ((- i) mod N)) (tx i) ∧ cong P (ty ((- i) mod N)) (- ty i)) ∧
  (((i + i) mod N ≠ 0)%Z → ∃ l, tangent_ok i l = true) ∧
  ∀ j, (0 < j < N)%Z →
    (cong P (tx i) (tx j) → cong P (ty i) (ty j) → i = j) ∧
    (¬ cong P (tx i) (tx j) → ∃ l, chord_ok i j l = true).
Proof using Hok.
  intros Hi. pose proof (all_from_1_spec _ i Hok Hi) as H. cbv beta in H.
  apply andb_true_iff in H as [[[[H1 H2]%andb_true_iff H3]%andb_true_iff H4]%andb_true_iff H5].
  rewrite !eqm_cong in H1 H2 H3. split_and!; try done.
  - intros Hne. apply orb_true_iff in H4 as [H4|H4]; [by apply Z.eqb_eq in H4|].
    apply existsb_exists in H4 as (l & _ & Hl). by exists l.
  - intros j Hj. pose proof (all_from_1_spec _ j H5 Hj) as H6. cbv beta in H6. apply andb_true_iff in H6 as [H6 H7]. split.
    + intros Hx Hy. apply eqm_cong in Hx, Hy. rewrite Hx Hy in H6. by apply Z.eqb_eq.
    + intros Hx. apply orb_true_iff in H7 as [H7|H7]; [by apply eqm_cong in H7|].
      apply existsb_exists in H7 as (l & _ & Hl). by exists l.
Qed.

Lemma Zmod_nonzero (A : Zmod N) : A ≠ Zmod.zero → (0 < Zmod.to_Z A < N)%Z.
Proof using HN.
  intros HA. pose proof (Zmod.unsigned_range A). assert (Zmod.to_Z A ≠ 0%Z); [|lia].
  intros H0. apply HA. apply Zmod.unsigned_inj. by rewrite H0 Zmod.unsigned_0.
Qed.

Definition table_group : EcGroup (Zmod N) P a b.
Proof using HN Hok.
  refine {| ezero := Zmod.zero; eplus := Zmod.add; eopp := Zmod.opp;
            cx A := tx (Zmod.to_Z A); cy A := ty (Zmod.to_Z A) |}.
  - apply Zmod.add_assoc.
  - apply Zmod.add_comm.
  - apply Zmod.add_0_r.
  - apply Zmod.add_opp_same_r.
  - intros A HA. apply (row_ok _ (Zmod_nonzero A HA)).
  - intros A B HA HB Hx Hy. apply Zmod.unsigned_inj.
    by apply (row_ok _ (Zmod_nonzero A HA)); [apply Zmod_nonzero|..].
  - intros A HA. rewrite Zmod.unsigned_opp. apply (row_ok _ (Zmod_nonzero A HA)).
  - intros A B HA HB Hx. destruct (row_ok _ (Zmod_nonzero A HA)) as (_ & _ & _ & H).
    destruct (H _ (Zmod_nonzero B HB)) as [_ [l Hl]]; [done|]. exists l. rewrite Zmod.unsigned_add.
    unfold chord_ok in Hl. rewrite !andb_true_iff !eqm_cong in Hl. tauto.
  - intros A HA H2. destruct (row_ok _ (Zmod_nonzero A HA)) as (_ & _ & [l Hl] & _).
    { intros H0. apply H2. apply Zmod.unsigned_inj. by rewrite Zmod.unsigned_add H0 Zmod.unsigned_0. }
    exists l. rewrite Zmod.unsigned_add. unfold tangent_ok in Hl. rewrite !andb_true_iff !eqm_cong in Hl. tauto.
Defined.
End table.

(** ** The curve *)

Definition small_table : list (Z * Z) :=
  [(0, 0); (1, 2); (5, 5); (2, 6); (6, 6); (4, 4); (4, 3); (6, 1); (2, 1); (5, 2); (1, 5)]%Z.

Definition small_field : curve_field := {|
  num_words := 1; num_bytes := 1; num_n_bits := 4;
  curve_p := vli_of uECC_MAX_WORDS 7;
  curve_n := vli_of uECC_MAX_WORDS 11;
  curve_G := [Some 1; Some 2; Some 0; Some 0; Some 0; Some 0; Some 0; Some 0]%Z;
  curve_b := vli_of uECC_MAX_WORDS 6;
  mmod_fast := λ result product, w ← oget product 0; r ← oset result 0 (w mod 7)%Z; Ok (r, product)
|}.

Definition small_curve : uECC_Curve := {|
  field := small_field;
  double_jacobian := double_jacobian_default;
  mod_sqrt := mod_sqrt_default;
  x_side := x_side_default
|}.

#[export] Instance small_group : EcGroup (Zmod 11) 7 (-3) 6 := table_group 7 (-3) 6 11 small_table eq_refl eq_refl.

Lemma small_vli k x : 0 < k → (0 ≤ x < ULONG_MOD)%Z → holds 1 (vli_of k x) x.
Proof.
  intros Hk Hx. split; [by rewrite pw_1|]. intros i Hi.
  apply holds_lookup with k; [|lia]. apply holds_vli_of. pose proof (pw_le 1 k Hk) as H. rewrite pw_1 in H. lia.
Qed.

#[export] Instance small_curve_field : CurveField small_field 7.
Proof.
  split; [by simpl; unfold uECC_MAX_WORDS; lia|apply (small_vli 4); [lia|done]|done|done|].
  intros res prod x y Hp Hx Hy Hr. cbn [num_words mmod_fast small_field] in *.
  eapply post_bind; [eapply post_dig; [exact Hp|lia|exact (eq_refl _)]|]. intros w <-.
  eapply post_bind; [eapply post_oset; [lia|exact (eq_refl _)]|]. intros r <-.
  change (Z.to_nat 0) with 0. assert (dig (x * y) 0 = x * y)%Z as -> by (apply dig_word; split; unfold ULONG_MOD; nia).
  pose proof (Z.mod_pos_bound (x * y) 7 ltac:(done)).
  assert (upd 0 res 0 res) as Hu by apply upd_0.
  eapply (upd_step 0 res 0 res ((x * y) mod 7)) in Hu; [|lia|split; unfold ULONG_MOD; lia].
  apply upd_holds in Hu. by rewrite pw_0 Z.add_0_l Z.mul_1_l in Hu.
Qed.

Lemma prime_7 : Z.prime 7.
Proof. by apply no_divisor_spec. Qed.
Lemma prime_11 : Z.prime 11.
Proof. by apply no_divisor_spec. Qed.

#[export] Instance small_ops : CurveOps small_curve 7 (-3) 6.
Proof.
  apply default_ops; [exact small_curve_field|exact prime_7|done|done|].
  apply fe_exact; [done|]. apply (small_vli 4); [lia|done].
Qed.

#[export] Instance small_order : CurveOrder small_curve 11.
Proof. split; [apply (small_vli 4); [lia|done]|by simpl; unfold uECC_MAX_WORDS; cbv; lia|done|exact prime_11|done]. Qed.

(** The generator. *)
Definition small_G : Zmod 11 := Zmod.one.

Lemma small_G_usable : usable (P := 7) 11 small_G.
Proof. by split. Qed.

Lemma small_G_affine : affine small_curve (P := 7) (curve_G small_curve) small_G.
Proof. split; (split; [done|]; intros i Hi; by destruct i as [|i]; [|simpl in Hi; lia]). Qed.
