(* ===== verification/Uecc.v ===== *)
(** * Uecc: keys, shared secrets and compressed points of lib/ecc/uECC.c

    The functions of the library's interface that work on byte strings: making a
    key pair, the Diffie-Hellman secret, compressing a point and checking one.  The
    global [g_rng_function] is an argument together with the number of its calls
    so far, which every function returns.  A caller's buffer is an array that the function
    gives back. *)
From Stdlib Require Import Zmod.Zmod.
From stdpp Require Import base list numbers ssreflect.
From S2P Require Import Prelude Memory Outcome Digits Vli VliMod VliBytes CurveField CurveGroup EccPoint Ladder PublicKey LadderTotal.

(** ** Operations *)

Notation num_n_bytes c := (BITS_TO_BYTES (num_n_bits c)).

Definition uECC_curve_private_key_size (curve : curve_field) : nat := BITS_TO_BYTES (num_n_bits curve).
Definition uECC_curve_public_key_size (curve : curve_field) : nat := 2 * num_bytes curve.

(** The two conversions of a point. *)
Definition point_to_bytes (public_key point : array Z) (curve : curve_field) : outcome (array Z) :=
  public_key ← uECC_vli_nativeToBytes public_key (num_bytes curve) point;
  at_offset (num_bytes curve) (λ y, uECC_vli_nativeToBytes y (num_bytes curve) (drop (num_words curve) point)) public_key.

Definition bytes_to_point (point public_key : array Z) (curve : curve_field) : outcome (array Z) :=
  point ← uECC_vli_bytesToNative point public_key (num_bytes curve);
  at_offset (num_words curve) (λ y, uECC_vli_bytesToNative y (drop (num_bytes curve) public_key) (num_bytes curve)) point.

Fixpoint make_key_tries (tries : nat) (rng : option uECC_RNG_Function) (t : nat)
    (public_key private_key public_ private_ : array Z) (curve : uECC_Curve) :
    outcome (Z * array Z * array Z * nat) :=
  match tries with
  | O => Ok (0%Z, public_key, private_key, t)
  | S tries =>
      '(ok, private_, t) ← uECC_generate_random_int rng t private_ (curve_n curve) (num_n_words curve);
      if (ok =? 0)%Z then Ok (0%Z, public_key, private_key, t)
      else
        '(ok, public_) ← EccPoint_compute_public_key public_ private_ curve;
        if negb (ok =? 0)%Z then
          private_key ← uECC_vli_nativeToBytes private_key (num_n_bytes curve) private_;
          public_key ← point_to_bytes public_key public_ curve;
          Ok (1%Z, public_key, private_key, t)
        else make_key_tries tries rng t public_key private_key public_ private_ curve
  end.

Definition uECC_make_key (rng : option uECC_RNG_Function) (t : nat) (public_key private_key : array Z)
    (curve : uECC_Curve) : outcome (Z * array Z * array Z * nat) :=
  make_key_tries uECC_RNG_MAX_TRIES rng t public_key private_key
    (local_vli (uECC_MAX_WORDS * 2)) (local_vli uECC_MAX_WORDS) curve.

Definition uECC_shared_secret (rng : option uECC_RNG_Function) (t : nat) (public_key private_key secret : array Z)
    (curve : uECC_Curve) : outcome (Z * array Z * nat) :=
  let fresh := local_vli uECC_MAX_WORDS in
  private_ ← uECC_vli_bytesToNative fresh private_key (num_n_bytes curve);
  public_ ← bytes_to_point (local_vli (uECC_MAX_WORDS * 2)) public_key curve;
  '(carry, private_, tmp) ← regularize_k private_ private_ fresh curve;
  let '(scalar, other) := if (carry =? 0)%Z then (tmp, private_) else (private_, tmp) in
  '(ok, initial_Z, t) ← (match rng with
    | Some _ =>
        '(ok, z, t) ← uECC_generate_random_int rng t other (curve_p curve) (num_words curve);
        Ok (negb (ok =? 0)%Z, Some z, t)
    | None => Ok (true, None, t)
    end);
  if negb ok then Ok (0%Z, secret, t)
  else
    public_ ← EccPoint_mult public_ public_ scalar initial_Z (num_n_bits curve + 1)%Z curve;
    secret ← uECC_vli_nativeToBytes secret (num_bytes curve) public_;
    zero ← EccPoint_isZero public_ curve;
    Ok (Z.b2z (zero =? 0)%Z, secret, t).

Definition uECC_compress (public_key compressed : array Z) (curve : curve_field) : outcome (array Z) :=
  let n := num_bytes curve in
  compressed ← ofor n 0 (λ i compressed, x ← oget public_key i; oset compressed (i + 1)%Z x) compressed;
  y ← oget public_key (Z.of_nat n * 2 - 1)%Z;
  oset compressed 0 (2 + Z.land y 1)%Z.

Definition uECC_decompress (compressed public_key : array Z) (curve : uECC_Curve) : outcome (array Z) :=
  let n := num_words curve in
  point ← uECC_vli_bytesToNative (local_vli (uECC_MAX_WORDS * 2)) (drop 1 compressed) (num_bytes curve);
  y ← x_side curve (drop n point) point curve;
  y ← mod_sqrt curve y curve;
  y0 ← oget y 0;
  c0 ← oget compressed 0;
  y ← (if negb (Z.land y0 1 =? Z.land c0 1)%Z then '(y, _) ← uECC_vli_sub y (curve_p curve) y n; Ok y else Ok y);
  point_to_bytes public_key (take n point ++ y) curve.

Definition uECC_valid_point (point : array Z) (curve : uECC_Curve) : outcome Z :=
  let n := num_words curve in
  zero ← EccPoint_isZero point curve;
  if negb (zero =? 0)%Z then Ok 0%Z
  else
    cx ← uECC_vli_cmp_unsafe (curve_p curve) point n;
    bad ← (if negb (cx =? 1)%Z then Ok true
           else cy ← uECC_vli_cmp_unsafe (curve_p curve) (drop n point) n; Ok (negb (cy =? 1)%Z));
    if (bad : bool) then Ok 0%Z
    else
      tmp1 ← uECC_vli_modSquare_fast (local_vli uECC_MAX_WORDS) (drop n point) curve;
      tmp2 ← x_side curve (local_vli uECC_MAX_WORDS) point curve;
      uECC_vli_equal tmp1 tmp2 n.

Definition uECC_valid_public_key (public_key : array Z) (curve : uECC_Curve) : outcome Z :=
  public_ ← bytes_to_point (local_vli (uECC_MAX_WORDS * 2)) public_key curve;
  uECC_valid_point public_ curve.

Definition uECC_compute_public_key (private_key public_key : array Z) (curve : uECC_Curve) : outcome (Z * array Z) :=
  private_ ← uECC_vli_bytesToNative (local_vli uECC_MAX_WORDS) private_key (num_n_bytes curve);
  zero ← uECC_vli_isZero private_ (num_n_words curve);
  if negb (zero =? 0)%Z then Ok (0%Z, public_key)
  else
    cmp ← uECC_vli_cmp (curve_n curve) private_ (num_n_words curve);
    if negb (cmp =? 1)%Z then Ok (0%Z, public_key)
    else
      '(ok, public_) ← EccPoint_compute_public_key (local_vli (uECC_MAX_WORDS * 2)) private_ curve;
      if (ok =? 0)%Z then Ok (0%Z, public_key)
      else public_key ← point_to_bytes public_key public_ curve; Ok (1%Z, public_key).

(** ** Points as bytes *)

(** The sizes of the curve's numbers in bytes. *)
Class CurveBytes (c : curve_field) (P : Z) : Prop := {
  bytes_words : words (num_bytes c) = num_words c;
  bytes_p : (P < pb (num_bytes c))%Z
}.

Lemma words_n nb : (0 ≤ nb)%Z → words (BITS_TO_BYTES nb) = BITS_TO_WORDS nb.
Proof.
  intros Hnb. rewrite /words /BITS_TO_BYTES /BITS_TO_WORDS.
  pose proof (Z.div_mod (nb + 7) 8 ltac:(done)). pose proof (Z.mod_pos_bound (nb + 7) 8 ltac:(done)).
  pose proof (Z.div_mod (nb + 63) 64 ltac:(done)). pose proof (Z.mod_pos_bound (nb + 63) 64 ltac:(done)).
  assert (0 ≤ (nb + 7) / 8 ∧ 0 ≤ (nb + 63) / 64)%Z as [Hq1 Hq2] by (split; apply Z.div_pos; lia).
  pose proof (Nat.div_mod_eq (Z.to_nat ((nb + 7) / 8) + 7) 8). pose proof (Nat.mod_upper_bound (Z.to_nat ((nb + 7) / 8) + 7) 8).
  lia.
Qed.

Lemma bits_le_bytes nb : (0 ≤ nb)%Z → (2 ^ nb ≤ pb (BITS_TO_BYTES nb))%Z.
Proof.
  intros Hnb. rewrite pb_2 /BITS_TO_BYTES. apply Z.pow_le_mono_r; [done|].
  pose proof (Z.div_mod (nb + 7) 8 ltac:(done)). pose proof (Z.mod_pos_bound (nb + 7) 8 ltac:(done)).
  rewrite Z2Nat.id; [lia|]. apply Z.div_pos; lia.
Qed.

Section bytes.
Context (c : curve_field) (P : Z) `{!CurveField c P} `{!CurveBytes c P}.
Local Notation n := (num_words c).
Local Notation nB := (num_bytes c).

(** The bytes of a pair of residues. *)
Definition point_bytes (bytes : array Z) (x y : Z) : Prop :=
  holds_bytes nB bytes (x mod P) ∧ holds_bytes nB (drop nB bytes) (y mod P).

Lemma residue_bytes x : (0 ≤ x mod P < pb nB)%Z.
Proof using All. pose proof (fe_range c P x). pose proof (bytes_p (c := c) (P := P)). lia. Qed.

Lemma fe_to_bytes a bytes x :
  fe c P a x → nB ≤ length bytes → post (uECC_vli_nativeToBytes bytes nB a) (upd_bytes nB bytes (x mod P)).
Proof using All.
  intros Ha Hl. pose proof (words_bound nB) as Hw. rewrite bytes_words in Hw.
  eapply post_mono; [by eapply uECC_vli_nativeToBytes_spec|]. intros r.
  by rewrite (Z.mod_small (x mod P)); [|apply residue_bytes].
Qed.

Lemma fe_of_bytes a bytes x :
  holds_bytes nB bytes (x mod P) → n ≤ length a →
  post (uECC_vli_bytesToNative a bytes nB) (upd n a (x mod P)).
Proof using All. intros Hb Hl. rewrite -bytes_words in Hl |- *. by apply uECC_vli_bytesToNative_spec. Qed.

Lemma holds_bytes_take k m a x : k ≤ m → holds_bytes k (take m a) x ↔ holds_bytes k a x.
Proof using.
  intros Hk. split; intros [H1 H2]; (split; [done|]); intros i Hi.
  - rewrite -(H2 i Hi) lookup_take_lt //. lia.
  - rewrite -(H2 i Hi) lookup_take_lt //. lia.
Qed.

(** The second number behind the first one. *)
Lemma second_bytes k (r : array Z) x y (f : array Z → outcome (array Z)) :
  holds_bytes k r x → k ≤ length r → post (f (drop k r)) (upd_bytes k (drop k r) y) →
  post (at_offset k f r) (λ r', holds_bytes k r' x ∧ holds_bytes k (drop k r') y ∧ length r' = length r).
Proof using.
  intros Hr Hl Hf. eapply post_at_offset; [lia|exact Hf|]. intros s (Hs & Hls & _). rewrite length_drop in Hls. split_and!.
  - apply (holds_bytes_take k k); [lia|]. rewrite take_app_le ?length_take; [|lia].
    rewrite take_take Nat.min_id. by apply (holds_bytes_take k k).
  - by rewrite drop_app_length'; [|rewrite length_take; lia].
  - rewrite length_app length_take Hls. lia.
Qed.

Lemma point_to_bytes_spec bytes point x y :
  fe c P point x → fe c P (drop n point) y → nB + nB ≤ length bytes →
  post (point_to_bytes bytes point c) (λ r, point_bytes r x y ∧ length r = length bytes).
Proof using All.
  intros Hx Hy Hl. eapply post_bind; [eapply fe_to_bytes; [exact Hx|lia]|]. intros r (Hr & Hlr & Hd).
  eapply post_mono; [eapply second_bytes; [exact Hr|lia|eapply fe_to_bytes; [exact Hy|rewrite length_drop; lia]]|].
  intros s (Hs1 & Hs2 & Hls). split; [by split|congruence].
Qed.

Lemma bytes_to_point_spec point bytes x y :
  point_bytes bytes x y → n + n ≤ length point →
  post (bytes_to_point point bytes c) (λ r, fe c P r x ∧ fe c P (drop n r) y ∧ length r = length point).
Proof using All.
  intros [Hx Hy] Hl. eapply post_bind; [eapply fe_of_bytes; [exact Hx|lia]|]. intros r Hr.
  pose proof (upd_length _ _ _ _ Hr) as Hlr.
  eapply post_at_offset; [lia|eapply fe_of_bytes; [exact Hy|rewrite length_drop; lia]|].
  intros s Hs. destruct (upd_at_offset n n r _ s ltac:(lia) Hs) as (H1 & H2 & H3 & _).
  split; [|split; [exact H1|congruence]]. apply (holds_take_l n n); [lia|].
  rewrite H3 holds_take_l; [|lia]. by eapply upd_holds.
Qed.
End bytes.

(** ** Keys and secrets *)

Section keys.
Context (c : uECC_Curve) {E : Type} {P a b : Z} (N : Z).
Context `{!CurveOps c P a b} `{!EcGroup E P a b} `{!CurveOrder c N} `{!CurveBytes c P}.
Local Notation n := (num_words c).
Local Notation nB := (num_bytes c).
Local Notation nw := (num_n_words c).
Local Notation nnB := (num_n_bytes c).

(** The bytes of a point. *)
Definition point_at (bytes : array Z) (A : E) : Prop := point_bytes c P bytes (cx A) (cy A).

Lemma double_words : n + n ≤ uECC_MAX_WORDS * 2.
Proof using All. pose proof (@cf_words c P co_field). lia. Qed.

Lemma private_words : words nnB = nw ∧ (∀ v, (0 ≤ v < N)%Z → (0 ≤ v < pb nnB)%Z).
Proof using All.
  pose proof (order_bits_pos c N) as [[Hb1 Hb2] Hb3]. split; [apply words_n; lia|]. intros v Hv.
  pose proof (bits_le_bytes (num_n_bits c) ltac:(lia)). pose proof (order_bits (c := c)). lia.
Qed.

Lemma load_private array_ bytes v :
  holds_bytes nnB bytes v → nw ≤ length array_ → post (uECC_vli_bytesToNative array_ bytes nnB) (upd nw array_ v).
Proof using All.
  destruct private_words as [Hw _]. intros Hb Hl. rewrite -Hw in Hl |- *. by apply uECC_vli_bytesToNative_spec.
Qed.

(** The secret is the first coordinate of the multiple; the call fails when the generator of random numbers
    fails, and may fail for a key or a point that is not a good one. *)
Lemma uECC_shared_secret_spec rng t public_key private_key secret v A :
  (∀ g, rng = Some g → RngOk g) →
  point_at public_key A → A ≠ ezero → emul N A = ezero → holds_bytes nnB private_key v → (0 ≤ v < N)%Z → nB ≤ length secret →
  post (uECC_shared_secret rng t public_key private_key secret c) (λ '(ok, s, t'),
    ok = 0%Z ∧ (is_Some rng ∨ ¬ good_key (P := P) N A v) ∧ (s = secret ∨ ∃ x, upd_bytes nB secret x s) ∨
    ok = 1%Z ∧ emul v A ≠ ezero ∧ upd_bytes nB secret (cx (emul v A) mod P) s).
Proof using All.
  intros Hrng Hpub HA HNA Hpriv Hv Hl. pose proof (@co_field c P a b _) as Hfield.
  pose proof (order_words (c := c)) as Hnw. pose proof cf_words as Hn. pose proof double_words as H2n.
  assert (nw ≤ length (local_vli uECC_MAX_WORDS) ∧ n ≤ length (local_vli uECC_MAX_WORDS)) as [Hl4 Hn4]
    by (rewrite length_replicate; lia).
  rewrite /uECC_shared_secret; cbv zeta.
  eapply post_bind; [by apply load_private|]. intros pr Hpr. pose proof (upd_length _ _ _ _ Hpr) as Hlpr.
  eapply post_bind; [eapply (bytes_to_point_spec c P); [exact Hpub|by rewrite length_replicate]|]. intros pu (Hpx & Hpy & Hlpu).
  rewrite length_replicate in Hlpu.
  eapply post_bind; [eapply (regularize_k_spec c N pr); [by eapply upd_holds|lia|by rewrite Hlpr|done]|].
  intros [[carry k0] k1] (_ & Hl0 & Hl1 & Hs). cbv zeta in Hs.
  set (so := if (carry =? 0)%Z then (k1, k0) else (k0, k1)).
  assert (holds nw so.1 (regularized c N v mod pw nw) ∧ n ≤ length so.2) as [Hscalar Hother].
  { unfold so. destruct (carry =? 0)%Z; (split; [exact Hs|simpl; lia]). }
  destruct so as [scalar other]. cbn [fst snd] in *.
  eapply post_bind with (Ψ := λ '(ok, iz, t'), (ok = false → is_Some rng) ∧
    (ok = true → ∀ z, iz = Some z → ∃ z0, fe c P z z0 ∧ ¬ cong P z0 0)).
  { destruct rng as [g|]; [|by split]. eapply post_bind; [eapply uECC_generate_random_int_spec; [exact Hrng|apply cf_p|done|done]|].
    intros [[ok z] t'] [H _]. split; [done|]. intros Hok z' [= <-].
    destruct H as [[-> _]|(-> & r & Hr%upd_holds & Hr0)]; [done|]. exists r.
    split; [by apply fe_exact; [lia|]|by apply cong_small]. }
  intros [[ok iz] t'] [Hok1 Hok2]. destruct ok; simpl; [|left; split_and!; [done|left; by apply Hok1|by left]].
  eapply post_bind; [eapply (EccPoint_mult_any_key c N pu pu scalar iz v A); [by split|done|done|done|done|by apply Hok2|by rewrite Hlpu]|].
  intros r [[[Hr Hne]|[Hr Hbad]] Hlr].
  - eapply post_bind; [eapply (fe_to_bytes c P); [apply Hr|done]|]. intros s Hsec.
    rewrite (affine_isZero c N r (emul v A) Hr) //=; [by right|].
    apply (odd_double_neq c N); [|done]. apply (emul_order_emul c N); [lia|done].
  - eapply post_bind; [eapply (fe_to_bytes c P); [apply Hr|done]|]. intros s Hsec.
    rewrite (zero_point_isZero c N r Hr) /=. left. split_and!; [done|by right|right; by eexists].
Qed.

Context (G : E) (HG : affine c (P := P) (curve_G c) G) (HGu : usable (P := P) N G).

Lemma store_private array_ bytes v :
  holds nw array_ v → (0 ≤ v < N)%Z → nnB ≤ length bytes →
  post (uECC_vli_nativeToBytes bytes nnB array_) (upd_bytes nnB bytes v).
Proof using All.
  destruct private_words as [Hw Hb]. intros Ha Hv Hl. pose proof (words_bound nnB) as Hwb. rewrite Hw in Hwb.
  eapply post_mono; [by eapply uECC_vli_nativeToBytes_spec|]. intros r. by rewrite (Z.mod_small v); [|apply Hb].
Qed.

(** A key pair: the private key is below the order, the public key is its multiple of the generator. *)
Definition key_pair (public_key private_key : array Z) (v : Z) : Prop :=
  (0 < v < N)%Z ∧ holds_bytes nnB private_key v ∧ point_at public_key (emul v G) ∧ emul v G ≠ ezero.

Lemma make_key_tries_spec tries rng t public_key private_key public_ private_ :
  (∀ g, rng = Some g → RngOk g) → nB + nB ≤ length public_key → nnB ≤ length private_key →
  n + n ≤ length public_ → nw ≤ length private_ →
  post (make_key_tries tries rng t public_key private_key public_ private_ c) (λ '(ok, pub, priv, t'),
    ok = 0%Z ∧ pub = public_key ∧ priv = private_key ∨
    ok = 1%Z ∧ length pub = length public_key ∧ length priv = length private_key ∧ ∃ v, key_pair pub priv v).
Proof using All.
  intros Hrng Hl1 Hl2. pose proof (@co_field c P a b _) as Hf. pose proof (order_words (c := c)) as Hnw.
  revert t public_ private_. induction tries as [|tries IH]; intros t public_ private_ Hl3 Hl4; cbn [make_key_tries]; [by left|].
  eapply post_bind; [eapply uECC_generate_random_int_spec; [exact Hrng|apply order_n|done|done]|].
  intros [[ok pr] t'] [H _]. destruct H as [[-> _]|(-> & v & Hv & Hvr)]; [by left|]. simpl.
  pose proof (upd_length _ _ _ _ Hv) as Hlp. apply upd_holds in Hv.
  eapply post_bind; [eapply (EccPoint_compute_public_key_total c N public_ pr v G HG); [apply HGu..|exact Hv|lia|done]|].
  intros [ok pu] [[(-> & [Hpx Hpy] & Hne)|[-> _]] Hlu]; simpl; [|apply IH; lia].
  eapply post_bind; [by apply store_private; [exact Hv|lia|]|]. intros priv (Hpriv & Hlpriv & _).
  eapply post_bind; [by eapply (point_to_bytes_spec c P)|]. intros pub [Hpub Hlpub].
  right. split_and!; [done|done|done|]. exists v. by split_and!; [lia|lia|..].
Qed.

Lemma uECC_make_key_spec rng t public_key private_key :
  (∀ g, rng = Some g → RngOk g) → nB + nB ≤ length public_key → nnB ≤ length private_key →
  post (uECC_make_key rng t public_key private_key c) (λ '(ok, pub, priv, t'),
    ok = 0%Z ∧ pub = public_key ∧ priv = private_key ∨
    ok = 1%Z ∧ length pub = length public_key ∧ length priv = length private_key ∧ ∃ v, key_pair pub priv v).
Proof using All.
  intros. pose proof double_words. pose proof (order_words (c := c)).
  apply make_key_tries_spec; try done; rewrite length_replicate; lia.
Qed.

Lemma uECC_compute_public_key_spec private_key public_key v :
  holds_bytes nnB private_key v → nB + nB ≤ length public_key →
  post (uECC_compute_public_key private_key public_key c) (λ '(ok, pub),
    ok = 0%Z ∧ pub = public_key ∧ (v ≤ 1 ∨ N - 2 ≤ v)%Z ∨ ok = 1%Z ∧ key_pair pub private_key v).
Proof using All.
  intros Hv Hl. pose proof (@co_field c P a b _) as Hf. pose proof (order_words (c := c)) as Hnw. pose proof double_words as Hd.
  pose proof (order_big (c := c)). pose proof (order_n (c := c)) as HN. destruct private_words as [Hw _].
  pose proof Hv as [[Hv0 _] _]. rewrite /uECC_compute_public_key.
  eapply post_bind; [apply load_private; [exact Hv|rewrite length_replicate; lia]|]. intros pr Hpr%upd_holds.
  rewrite (uECC_vli_isZero_spec _ _ _ Hpr) {1}/mbind {1}/outcome_bind.
  destruct (Z.eqb_spec v 0) as [->|Hv0']; simpl; [left; split_and!; [done|done|lia]|].
  rewrite (uECC_vli_cmp_spec _ _ _ _ _ HN Hpr); [|apply Hnw]. rewrite {1}/mbind {1}/outcome_bind cmp_sign_1.
  destruct (Z.ltb_spec v N) as [Hlt|Hge]; simpl; [|left; split_and!; [done|done|lia]].
  eapply post_bind; [eapply (EccPoint_compute_public_key_total c N _ pr v G HG); [apply HGu..|exact Hpr|lia|by rewrite length_replicate]|].
  intros [ok pu] [[(-> & [Hx Hy] & Hne)|[-> Hbad]] _]; simpl.
  - eapply post_bind; [by eapply (point_to_bytes_spec c P)|]. intros pub [Hpub _]. right.
    split; [done|]. by split_and!; [lia|lia|..].
  - left. split_and!; [done|done|]. assert (¬ (1 < v < N - 2)%Z) as Hmid; [|lia]. intros Hmid. apply Hbad. split; [apply HGu|done].
Qed.

(** Both sides of the exchange compute the same secret. *)
Lemma shared_secrets rng1 rng2 t1 t2 pub1 priv1 v1 pub2 priv2 v2 s1 s2 :
  (∀ g, rng1 = Some g → RngOk g) → (∀ g, rng2 = Some g → RngOk g) →
  key_pair pub1 priv1 v1 → key_pair pub2 priv2 v2 → nB ≤ length s1 → nB ≤ length s2 →
  post (r1 ← uECC_shared_secret rng1 t1 pub2 priv1 s1 c;
        r2 ← uECC_shared_secret rng2 t2 pub1 priv2 s2 c; Ok (r1, r2))
    (λ '((ok1, r1, _), (ok2, r2, _)),
      (ok1 = 1%Z → ok2 = 1%Z → ∃ x, holds_bytes nB r1 x ∧ holds_bytes nB r2 x) ∧
      (rng1 = None → good_key (P := P) N (emul v2 G) v1 → ok1 = 1%Z) ∧
      (rng2 = None → good_key (P := P) N (emul v1 G) v2 → ok2 = 1%Z)).
Proof using All.
  intros Hr1 Hr2 (Hv1 & Hp1 & Hq1 & Hn1) (Hv2 & Hp2 & Hq2 & Hn2) Hl1 Hl2.
  eapply post_bind.
  { eapply (uECC_shared_secret_spec rng1 t1 pub2 priv1 s1 v1 (emul v2 G)); try done; [|lia].
    apply (emul_order_emul c N); [lia|apply HGu]. }
  intros [[ok1 r1] t1'] H1. eapply post_bind.
  { eapply (uECC_shared_secret_spec rng2 t2 pub1 priv2 s2 v2 (emul v1 G)); try done; [|lia].
    apply (emul_order_emul c N); [lia|apply HGu]. }
  intros [[ok2 r2] t2'] H2. simpl. split_and!.
  - intros -> ->. destruct H1 as [[? _]|(_ & _ & H1 & _)]; [done|]. destruct H2 as [[? _]|(_ & _ & H2 & _)]; [done|].
    exists (cx (emul v1 (emul v2 G)) mod P)%Z. split; [done|]. by rewrite emul_comm; [|lia..].
  - intros -> Hg. destruct H1 as [(_ & [[? ?]|?] & _)|[? _]]; done.
  - intros -> Hg. destruct H2 as [(_ & [[? ?]|?] & _)|[? _]]; done.
Qed.
End keys.

(** ** Compressed points *)

(** The callback of the curve finds a square root of [v]. *)
Definition finds_root (c : uECC_Curve) (P v : Z) : Prop :=
  ∀ aa, fe c P aa v → post (mod_sqrt c aa c) (λ r, ∃ s, fe c P r s ∧ cong P (s * s) v).

(** [mod_sqrt_default] finds one of every square. *)
Lemma default_finds_root (c : uECC_Curve) P y :
  CurveField c P → Z.prime P → mod_sqrt c = mod_sqrt_default → (P mod 4 = 3)%Z → (P + 1 < pw (num_words c))%Z →
  finds_root c P (y * y).
Proof.
  intros Hf HP Hs H4 Hw aa Ha. rewrite Hs. eapply post_mono; [by eapply mod_sqrt_default_spec|].
  intros r Hr. eexists. split; [exact Hr|]. rewrite -Z.pow_2_r. by apply sqrt_3mod4.
Qed.

Section compress.
Context (c : uECC_Curve) {P a b : Z}.
Context `{!CurveOps c P a b} `{!CurveBytes c P}.
Local Notation n := (num_words c).
Local Notation nB := (num_bytes c).
Local Notation fe := (fe c P).

(** The sign byte and the first coordinate. *)
Definition compressed_bytes (bytes : array Z) (x y : Z) : Prop :=
  bytes !! 0 = Some (Some (2 + (y mod P) mod 2)%Z) ∧ holds_bytes nB (drop 1 bytes) (x mod P).

Lemma land_1 x : Z.land x 1 = (x mod 2)%Z.
Proof using. change 1%Z with (Z.ones 1). by rewrite Z.land_ones. Qed.

Lemma num_bytes_pos : 0 < nB.
Proof using All.
  pose proof (bytes_words (c := c) (P := P)) as Hw. pose proof (@cf_words c P co_field) as Hn.
  destruct nB; [|lia]. change (words 0) with 0 in Hw. lia.
Qed.

Lemma uECC_compress_spec public_key compressed x y :
  point_bytes c P public_key x y → nB + 1 ≤ length compressed →
  post (uECC_compress public_key compressed c) (λ r, compressed_bytes r x y ∧ length r = length compressed).
Proof using All.
  intros [[_ Hx] [_ Hy]] Hl. pose proof num_bytes_pos as HnB. rewrite /uECC_compress; cbv zeta.
  eapply post_bind with (Ψ := λ r, length r = length compressed ∧
    ∀ i, i < nB → r !! S i = Some (Some (byte_of (x mod P) (nB - 1 - i)))).
  { apply post_ofor with (I := λ i r, (0 ≤ i)%Z ∧ length r = length compressed ∧
      ∀ j, j < Z.to_nat i → r !! S j = Some (Some (byte_of (x mod P) (nB - 1 - j)))).
    - split_and!; [done|done|lia].
    - intros i r Hi (_ & Hlr & Hr). cbv beta.
      eapply post_bind; [eapply post_oget; [lia|apply Hx; lia|exact (eq_refl _)]|]. intros v <-.
      apply post_oset; [lia|]. split_and!; [lia|by rewrite length_insert|]. intros j Hj.
      replace (Z.to_nat (i + 1)) with (S (Z.to_nat i)) in * by lia. destruct (decide (j = Z.to_nat i)) as [->|].
      + rewrite list_lookup_insert_eq //. lia.
      + rewrite list_lookup_insert_ne; [|lia]. apply Hr. lia.
    - intros r (_ & Hlr & Hr). split; [done|]. intros i Hi. apply Hr. lia. }
  intros r [Hlr Hr].
  assert (public_key !! (nB * 2 - 1) = Some (Some (byte_of (y mod P) 0))) as Hlast.
  { specialize (Hy (nB - 1) ltac:(lia)). rewrite lookup_drop in Hy.
    replace (nB + (nB - 1)) with (nB * 2 - 1) in Hy by lia. by rewrite Nat.sub_diag in Hy. }
  eapply post_bind; [eapply post_oget; [lia| |exact (eq_refl _)]|].
  { by replace (Z.to_nat (Z.of_nat nB * 2 - 1)) with (nB * 2 - 1) by lia. }
  intros v <-. apply post_oset; [lia|]. split; [split|by rewrite length_insert].
  - rewrite list_lookup_insert_eq; [|lia]. do 3 f_equal. rewrite land_1 /byte_of Z.pow_0_r Z.div_1_r.
    apply Z.mod_mod_divide. by exists 128%Z.
  - split; [by apply residue_bytes; [apply co_field|]|]. intros i Hi.
    rewrite lookup_drop list_lookup_insert_ne; [|lia]. by apply Hr.
Qed.

(** The root with the sign of the point. *)
Lemma sign_of_root s y :
  cong P (s * s) (y * y) →
  (y mod P = if ((s mod P) mod 2 =? (y mod P) mod 2)%Z then s mod P else P - s mod P)%Z.
Proof using All.
  intros H. pose proof (@cf_odd c P co_field) as Hodd. pose proof (P_pos c P (CurveField0 := co_field)) as HP.
  pose proof (Z.mod_pos_bound s P HP) as Hs. pose proof (Z.mod_pos_bound y P HP) as Hy.
  assert (s mod P = y mod P ∨ s mod P = 0 ∧ y mod P = 0 ∨ s mod P = P - y mod P)%Z as Hcases.
  { destruct (cong_square P co_prime s y H) as [Heq|Heq]; [by left|right].
    unfold cong in Heq. destruct (Z.eq_dec (y mod P) 0)%Z as [Hz|Hz].
    - left. split; [|done]. by rewrite Heq Z.mod_opp_l_z; [|lia|].
    - right. by rewrite Heq Z.mod_opp_l_nz; [|lia|]. }
  apply Z.odd_spec in Hodd as [h Hh].
  pose proof (Z.div_mod (s mod P) 2 ltac:(done)). pose proof (Z.mod_pos_bound (s mod P) 2 ltac:(done)).
  pose proof (Z.div_mod (y mod P) 2 ltac:(done)). pose proof (Z.mod_pos_bound (y mod P) 2 ltac:(done)).
  destruct (Z.eqb_spec ((s mod P) mod 2) ((y mod P) mod 2)); lia.
Qed.

Lemma uECC_decompress_spec compressed public_key x y :
  compressed_bytes compressed x y → cong P (y ^ 2) (x ^ 3 + a * x + b) → finds_root c P (y * y) → nB + nB ≤ length public_key →
  post (uECC_decompress compressed public_key c)
    (λ r, point_bytes c P r x y ∧ length r = length public_key).
Proof using All.
  intros [H0 Hx] Hc Hfind Hl. pose proof (@co_field c P a b _) as Hf. pose proof (@cf_words c P _) as Hn.
  pose proof (P_pos c P) as HP.
  rewrite /uECC_decompress; cbv zeta.
  eapply post_bind; [eapply (fe_of_bytes c P); [exact Hx|rewrite length_replicate; lia]|]. intros pt Hpt.
  pose proof (upd_length _ _ _ _ Hpt) as Hlpt. apply upd_holds in Hpt. rewrite length_replicate in Hlpt.
  assert (fe pt x) as Hfx by done.
  assert (room c (drop n pt)) as Hroom by (unfold room; rewrite length_drop; lia).
  eapply post_bind; [by apply (co_x_side (drop n pt) pt)|]. intros y1 Hy1. cbv beta in Hy1. rewrite -Hc Z.pow_2_r in Hy1.
  eapply post_bind; [by apply Hfind|]. intros y2 (s & Hs & Hss).
  pose proof (sign_of_root s y Hss) as Hsign.
  eapply post_bind; [eapply post_dig; [exact Hs|lia|exact (eq_refl _)]|]. intros ? <-.
  eapply post_bind; [eapply post_oget; [lia|exact H0|exact (eq_refl _)]|]. intros ? <-.
  assert (Z.land (dig (s mod P) (Z.to_nat 0)) 1 = (s mod P) mod 2)%Z as ->.
  { rewrite land_1 /dig /= Z.div_1_r. apply Z.mod_mod_divide. by exists (ULONG_MOD / 2)%Z. }
  assert (Z.land (2 + (y mod P) mod 2) 1 = (y mod P) mod 2)%Z as ->.
  { rewrite land_1 Z.add_comm -(Z.mul_1_l 2) Z.mod_add // Z.mod_mod //. }
  eapply post_bind with (Ψ := λ r, fe r y).
  { set (same := ((s mod P) mod 2 =? (y mod P) mod 2)%Z) in *. clearbody same.
    unfold CurveField.fe in Hs |- *. rewrite Hsign. destruct same; simpl; [done|].
    pose proof (cf_p (c := c)) as Hp. pose proof (holds_range _ _ _ Hp). pose proof (Z.mod_pos_bound s P HP).
    eapply post_bind; [eapply uECC_vli_sub_spec; [exact Hp|exact Hs|by eapply holds_length]|].
    intros [r k] [Hr%upd_holds _]. rewrite Z.mod_small in Hr; [done|lia]. }
  intros y3 Hy3. eapply (point_to_bytes_spec c P); [| |done].
  - apply holds_app_l. apply (holds_take_l n n); [lia|done].
  - rewrite drop_app_length'; [done|]. rewrite length_take. lia.
Qed.

(** A point survives compression. *)
Lemma compress_decompress public_key compressed public_key' x y :
  point_bytes c P public_key x y → cong P (y ^ 2) (x ^ 3 + a * x + b) → finds_root c P (y * y) →
  nB + 1 ≤ length compressed → nB + nB ≤ length public_key' →
  post (r ← uECC_compress public_key compressed c; uECC_decompress r public_key' c)
    (λ r, point_bytes c P r x y ∧ length r = length public_key').
Proof using All.
  intros Hp Hc Hfind Hl Hl'. eapply post_bind; [by apply uECC_compress_spec|]. intros r [Hr _]. by apply uECC_decompress_spec.
Qed.
End compress.

(** ** Checking a point *)

Section valid.
Context (c : uECC_Curve) {P a b : Z} `{!CurveOps c P a b} `{!CurveBytes c P}.
Local Notation n := (num_words c).
Local Notation nB := (num_bytes c).

(** A pair of residues, not both zero, that satisfies the equation. *)
Definition valid_coords (x y : Z) : Prop :=
  (x ≠ 0 ∨ y ≠ 0)%Z ∧ (x < P)%Z ∧ (y < P)%Z ∧ cong P (y ^ 2) (x ^ 3 + a * x + b).
#[export] Instance valid_coords_decision x y : Decision (valid_coords x y).
Proof using. unfold valid_coords. apply _. Defined.

Lemma uECC_valid_point_spec point x y :
  holds n point x → holds n (drop n point) y →
  uECC_valid_point point c = Ok (if decide (valid_coords x y) then 1 else 0)%Z.
Proof using All.
  intros Hx Hy. pose proof (@co_field c P a b _) as Hf. pose proof (cf_p (c := c)) as Hp.
  pose proof (holds_range _ _ _ Hx) as Hxr. pose proof (holds_range _ _ _ Hy) as Hyr.
  apply post_eq. rewrite /uECC_valid_point /EccPoint_isZero; cbv zeta.
  pose proof (holds_glue _ _ _ _ _ Hx Hy) as Hxy. replace (n * 2) with (n + n) by lia.
  rewrite (uECC_vli_isZero_spec _ _ _ Hxy) {1}/mbind {1}/outcome_bind.
  destruct (Z.eqb_spec (x + pw n * y) 0) as [Hz|Hz]; simpl.
  { rewrite decide_False //. intros [[Hne|Hne] _]; pose proof (pw_pos n); nia. }
  rewrite (uECC_vli_cmp_unsafe_spec _ _ _ _ _ Hp Hx) {1}/mbind {1}/outcome_bind cmp_sign_1.
  destruct (Z.ltb_spec x P) as [HxP|HxP]; simpl; [|rewrite decide_False //; intros (_ & ? & _); lia].
  rewrite (uECC_vli_cmp_unsafe_spec _ _ _ _ _ Hp Hy) /= cmp_sign_1.
  destruct (Z.ltb_spec y P) as [HyP|HyP]; simpl; [|rewrite decide_False //; intros (_ & _ & ? & _); lia].
  assert (fe c P point x) as Hfx by (apply fe_exact; [lia|done]).
  assert (fe c P (drop n point) y) as Hfy by (apply fe_exact; [lia|done]).
  pose proof (local_room c P) as Hroom. fe_step. rename a0 into tmp1.
  eapply post_bind; [by apply co_x_side|]. intros tmp2 H2. cbv beta in H2.
  rewrite (uECC_vli_equal_spec _ _ _ _ _ Hfe H2) /= -Z.pow_2_r.
  destruct (Z.eqb_spec (y ^ 2 mod P) ((x ^ 3 + a * x + b) mod P)) as [He|He].
  - rewrite decide_True //. split_and!; [|done|done|done]. pose proof (pw_pos n). destruct (Z.eq_dec x 0)%Z; [right|by left]. intros ->. nia.
  - rewrite decide_False //. by intros (_ & _ & _ & ?).
Qed.

(** The bytes of any two numbers. *)
Lemma uECC_valid_public_key_spec public_key x y :
  holds_bytes nB public_key x → holds_bytes nB (drop nB public_key) y →
  uECC_valid_public_key public_key c = Ok (if decide (valid_coords x y) then 1 else 0)%Z.
Proof using All.
  intros Hx Hy. pose proof (@cf_words c P co_field) as Hn. pose proof (bytes_words (c := c) (P := P)) as Hw.
  apply post_eq. rewrite /uECC_valid_public_key /bytes_to_point.
  assert (length (local_vli (uECC_MAX_WORDS * 2)) = uECC_MAX_WORDS * 2) as Hl0 by apply length_replicate.
  eapply post_bind with (Ψ := λ pt, holds n pt x ∧ holds n (drop n pt) y).
  - eapply post_bind; [eapply uECC_vli_bytesToNative_spec; [exact Hx|rewrite Hw Hl0; lia]|]. rewrite Hw. intros r Hr.
    pose proof (upd_length _ _ _ _ Hr) as Hlr.
    eapply post_at_offset; [lia|eapply uECC_vli_bytesToNative_spec; [exact Hy|rewrite Hw length_drop; lia]|]. rewrite Hw.
    intros s Hs. destruct (upd_at_offset n n r _ s ltac:(lia) Hs) as (H1 & H2 & H3 & _). split; [|done].
    apply (holds_take_l n n); [lia|]. rewrite H3 holds_take_l; [|lia]. by eapply upd_holds.
  - intros pt [Hpx Hpy]. by rewrite (uECC_valid_point_spec pt x y).
Qed.
End valid.
