(* ===== verification/Ecdsa.v ===== *)
(** * Ecdsa: signatures of lib/ecc/uECC.c

    [bits2int] makes a number of a hash, [uECC_sign] draws a nonce and signs with
    it, [uECC_verify] checks a signature with Shamir's trick.  As in Uecc.v the
    random number generator is an argument. *)
From Stdlib Require Import Zmod.Zmod.
From stdpp Require Import base list numbers ssreflect.
From S2P Require Import Prelude Memory Outcome Digits Vli VliMod VliBytes CurveField CurveGroup EccPoint Ladder PublicKey LadderTotal Uecc.

(** ** Operations *)

(** [while (ptr-- > native)]: the words move down by [shift] bits. *)
Definition shift_words (native : array Z) (shift : Z) (num_words : nat) : outcome (array Z) :=
  r ← ofor_down num_words (λ i '(native, carry),
    temp ← oget native i;
    native ← oset native i (Z.lor (Z.shiftr temp shift) carry);
    Ok (native, u64 (Z.shiftl temp (64 - shift)))) (native, 0%Z);
  Ok r.1.

Definition bits2int (native bits : array Z) (bits_size : nat) (curve : curve_field) : outcome (array Z) :=
  let num_n_words := BITS_TO_WORDS (num_n_bits curve) in
  let bits_size := Nat.min bits_size (BITS_TO_BYTES (num_n_bits curve)) in
  native ← uECC_vli_clear native num_n_words;
  native ← uECC_vli_bytesToNative native bits bits_size;
  if (Z.of_nat bits_size * 8 <=? num_n_bits curve)%Z then Ok native
  else
    native ← shift_words native (Z.of_nat bits_size * 8 - num_n_bits curve)%Z num_n_words;
    cmp ← uECC_vli_cmp_unsafe (curve_n curve) native num_n_words;
    if negb (cmp =? 1)%Z then '(native, _) ← uECC_vli_sub native native (curve_n curve) num_n_words; Ok native
    else Ok native.

Definition uECC_sign_with_k (rng : option uECC_RNG_Function) (t : nat) (private_key message_hash : array Z)
    (hash_size : nat) (k signature : array Z) (curve : uECC_Curve) : outcome (Z * array Z * array Z * nat) :=
  let n := num_words curve in
  let nw := num_n_words curve in
  let fresh := local_vli uECC_MAX_WORDS in
  zero ← uECC_vli_isZero k n;
  bad ← (if negb (zero =? 0)%Z then Ok true
         else cmp ← uECC_vli_cmp (curve_n curve) k nw; Ok (negb (cmp =? 1)%Z));
  if (bad : bool) then Ok (0%Z, k, signature, t)
  else
    '(carry, tmp, s) ← regularize_k k fresh fresh curve;
    p ← EccPoint_mult (local_vli (uECC_MAX_WORDS * 2)) (curve_G curve) (if (carry =? 0)%Z then s else tmp) None
          (num_n_bits curve + 1)%Z curve;
    zero ← uECC_vli_isZero p n;
    if negb (zero =? 0)%Z then Ok (0%Z, k, signature, t)
    else
      '(ok, tmp, t) ← (match rng with
        | None => tmp ← uECC_vli_clear tmp nw; tmp ← oset tmp 0 1%Z; Ok (true, tmp, t)
        | Some _ => '(ok, tmp, t) ← uECC_generate_random_int rng t tmp (curve_n curve) nw; Ok (negb (ok =? 0)%Z, tmp, t)
        end);
      if negb ok then Ok (0%Z, k, signature, t)
      else
        k ← uECC_vli_modMult k k tmp (curve_n curve) nw;
        k ← uECC_vli_modInv k k (curve_n curve) nw;
        k ← uECC_vli_modMult k k tmp (curve_n curve) nw;
        signature ← uECC_vli_nativeToBytes signature (num_bytes curve) p;
        tmp ← uECC_vli_bytesToNative tmp private_key (num_n_bytes curve);
        s ← oset s (Z.of_nat nw - 1)%Z 0%Z;
        s ← uECC_vli_set s p n;
        s ← uECC_vli_modMult s tmp s (curve_n curve) nw;
        tmp ← bits2int tmp message_hash hash_size curve;
        s ← uECC_vli_modAdd s tmp s (curve_n curve) nw;
        s ← uECC_vli_modMult s s k (curve_n curve) nw;
        bits ← uECC_vli_numBits s nw;
        if (Z.of_nat (num_bytes curve) * 8 <? bits)%Z then Ok (0%Z, k, signature, t)
        else
          signature ← at_offset (num_bytes curve) (λ y, uECC_vli_nativeToBytes y (num_bytes curve) s) signature;
          Ok (1%Z, k, signature, t).

Fixpoint sign_tries (tries : nat) (rng : option uECC_RNG_Function) (t : nat) (private_key message_hash : array Z)
    (hash_size : nat) (k signature : array Z) (curve : uECC_Curve) : outcome (Z * array Z * nat) :=
  match tries with
  | O => Ok (0%Z, signature, t)
  | S tries =>
      '(ok, k, t) ← uECC_generate_random_int rng t k (curve_n curve) (num_n_words curve);
      if (ok =? 0)%Z then Ok (0%Z, signature, t)
      else
        '(ok, k, signature, t) ← uECC_sign_with_k rng t private_key message_hash hash_size k signature curve;
        if negb (ok =? 0)%Z then Ok (1%Z, signature, t)
        else sign_tries tries rng t private_key message_hash hash_size k signature curve
  end.

Definition uECC_sign (rng : option uECC_RNG_Function) (t : nat) (private_key message_hash : array Z) (hash_size : nat)
    (signature : array Z) (curve : uECC_Curve) : outcome (Z * array Z * nat) :=
  sign_tries uECC_RNG_MAX_TRIES rng t private_key message_hash hash_size (local_vli uECC_MAX_WORDS) signature curve.

Definition smax (a b : Z) : Z := if (a >? b)%Z then a else b.

(** [points[(!!testBit(u1, i)) | ((!!testBit(u2, i)) << 1)]]. *)
Definition select_point (u1 u2 : array Z) (i : Z) (G public_ sum : array Z) : outcome (option (array Z)) :=
  b1 ← scalar_bit u1 i;
  b2 ← scalar_bit u2 i;
  Ok (match b1, b2 with
      | false, false => None
      | true, false => Some G
      | false, true => Some public_
      | true, true => Some sum
      end).

(** One round of Shamir's trick. *)
Definition shamir_round (u1 u2 : array Z) (G public_ sum : array Z) (curve : uECC_Curve) (i : Z)
    (R : array Z * array Z * array Z) : outcome (array Z * array Z * array Z) :=
  let n := num_words curve in
  let fresh := local_vli uECC_MAX_WORDS in
  let '(rx, ry, z) := R in
  '(rx, ry, z) ← double_jacobian curve rx ry z curve;
  point ← select_point u1 u2 i G public_ sum;
  match point with
  | None => Ok (rx, ry, z)
  | Some point =>
      tx ← uECC_vli_set fresh point n;
      ty ← uECC_vli_set fresh (drop n point) n;
      '(tx, ty) ← apply_z tx ty z curve;
      tz ← uECC_vli_modSub fresh rx tx (curve_p curve) n;
      '(tx, ty, rx, ry) ← XYcZ_add tx ty rx ry curve;
      z ← uECC_vli_modMult_fast z z tz curve;
      Ok (rx, ry, z)
  end.

(** [sum = G + Q], in affine coordinates. *)
Definition generator_sum (public_ : array Z) (curve : uECC_Curve) : outcome (array Z) :=
  let n := num_words curve in
  let fresh := local_vli uECC_MAX_WORDS in
  sum ← uECC_vli_set (local_vli (uECC_MAX_WORDS * 2)) public_ n;
  sum ← at_offset n (λ y, uECC_vli_set y (drop n public_) n) sum;
  tx ← uECC_vli_set fresh (curve_G curve) n;
  ty ← uECC_vli_set fresh (drop n (curve_G curve)) n;
  z ← uECC_vli_modSub fresh sum tx (curve_p curve) n;
  '(tx, ty, sx, sy) ← XYcZ_add tx ty sum (drop n sum) curve;
  let sum := take n sx ++ sy in
  z ← uECC_vli_modInv z z (curve_p curve) n;
  '(sx, sy) ← apply_z sum (drop n sum) z curve;
  Ok (take n sx ++ sy).

(** [u1 G + u2 Q], in affine coordinates. *)
Definition shamir (u1 u2 public_ rx : array Z) (curve : uECC_Curve) : outcome (array Z * array Z) :=
  let n := num_words curve in
  let nw := num_n_words curve in
  let fresh := local_vli uECC_MAX_WORDS in
  sum ← generator_sum public_ curve;
  n1 ← uECC_vli_numBits u1 nw;
  n2 ← uECC_vli_numBits u2 nw;
  let num_bits := smax n1 n2 in
  point ← select_point u1 u2 (num_bits - 1)%Z (curve_G curve) public_ sum;
  match point with
  | None => Err NullDeref
  | Some point =>
      rx ← uECC_vli_set rx point n;
      ry ← uECC_vli_set fresh (drop n point) n;
      z ← uECC_vli_clear fresh n;
      z ← oset z 0 1%Z;
      '(rx, ry, z) ← ofor_down (Z.to_nat (num_bits - 1)) (λ i R,
        shamir_round u1 u2 (curve_G curve) public_ sum curve i R) (rx, ry, z);
      z ← uECC_vli_modInv z z (curve_p curve) n;
      apply_z rx ry z curve
  end.

Definition uECC_verify (public_key message_hash : array Z) (hash_size : nat) (signature : array Z)
    (curve : uECC_Curve) : outcome Z :=
  let n := num_words curve in
  let nw := num_n_words curve in
  let fresh := local_vli uECC_MAX_WORDS in
  last ← oset fresh (Z.of_nat nw - 1)%Z 0%Z;
  public_ ← bytes_to_point (local_vli (uECC_MAX_WORDS * 2)) public_key curve;
  r ← uECC_vli_bytesToNative last signature (num_bytes curve);
  s ← uECC_vli_bytesToNative last (drop (num_bytes curve) signature) (num_bytes curve);
  zero ← uECC_vli_isZero r n;
  zero ← (if negb (zero =? 0)%Z then Ok 1%Z else uECC_vli_isZero s n);
  if negb (zero =? 0)%Z then Ok 0%Z
  else
    c ← uECC_vli_cmp_unsafe (curve_n curve) r nw;
    big ← (if negb (c =? 1)%Z then Ok true else c ← uECC_vli_cmp_unsafe (curve_n curve) s nw; Ok (negb (c =? 1)%Z));
    if (big : bool) then Ok 0%Z
    else
      z ← uECC_vli_modInv fresh s (curve_n curve) nw;
      u1 ← bits2int last message_hash hash_size curve;
      u1 ← uECC_vli_modMult u1 u1 z (curve_n curve) nw;
      u2 ← uECC_vli_modMult fresh r z (curve_n curve) nw;
      '(rx, _) ← shamir u1 u2 public_ last curve;
      c ← uECC_vli_cmp_unsafe (curve_n curve) rx nw;
      rx ← (if negb (c =? 1)%Z then '(rx, _) ← uECC_vli_sub rx rx (curve_n curve) nw; Ok rx else Ok rx);
      uECC_vli_equal rx r n.

(** ** The hash as a number *)
Lemma dig_shift_bits x s i :
  (0 < s < 64)%Z → dig (x / 2 ^ s) i = Z.lor (Z.shiftr (dig x i) s) (u64 (Z.shiftl (dig x (S i)) (64 - s))).
Proof.
  intros Hs. apply Z.bits_inj'. intros k Hk. rewrite dig_testbit // -Z.shiftr_div_pow2; [|lia].
  rewrite Z.lor_spec !Z.shiftr_spec // ?dig_testbit; [|lia..].
  rewrite /u64. change ULONG_MOD with (2 ^ 64)%Z. destruct (Z.ltb_spec k 64); simpl.
  - rewrite Z.mod_pow2_bits_low // Z.shiftl_spec //. destruct (Z.ltb_spec (k + s) 64); simpl.
    + rewrite (Z.testbit_neg_r _ (k - (64 - s))); [|lia]. rewrite orb_false_r. f_equal. lia.
    + rewrite dig_testbit; [|lia]. rewrite (proj2 (Z.ltb_lt _ _)); [|lia]. simpl. f_equal. lia.
  - rewrite Z.mod_pow2_bits_high; [|lia]. by rewrite (proj2 (Z.ltb_ge (k + s) 64)); [|lia].
Qed.

Lemma shift_words_spec n a x s : holds n a x → (0 < s < 64)%Z → post (shift_words a s n) (upd n a (x / 2 ^ s)).
Proof.
  intros Ha Hs. pose proof (holds_length _ _ _ Ha) as Hn.
  eapply post_bind with (Ψ := λ r, upd n a (x / 2 ^ s) r.1); [|by intros r].
  apply post_ofor_down with (I := λ j '(b, carry),
    carry = u64 (Z.shiftl (dig x j) (64 - s)) ∧ length b = length a ∧ drop n b = drop n a ∧
    ∀ i, i < n → b !! i = Some (Some (if decide (i < j) then dig x i else dig (x / 2 ^ s) i))).
  - split_and!; [|done|done|].
    + rewrite dig_small; [by rewrite Z.shiftl_0_l|apply Ha].
    + intros i Hi. rewrite decide_True //. by apply (holds_lookup _ _ _ _ Ha).
  - intros j [b carry] Hj (-> & Hl & Hd & Hb).
    assert (b !! j = Some (Some (dig x j))) as Hj' by (rewrite Hb // decide_True //; lia).
    eapply post_bind; [eapply post_oget; [lia|by rewrite Nat2Z.id|exact (eq_refl _)]|].
    intros temp <-. eapply post_bind; [eapply post_oset; [lia|exact (eq_refl _)]|].
    intros b' <-. rewrite /= Nat2Z.id -dig_shift_bits //.
    split_and!; [done|by rewrite length_insert| |].
    + rewrite drop_insert_lt //.
    + intros i Hi. destruct (decide (i = j)) as [->|].
      * rewrite list_lookup_insert_eq; [|lia]. rewrite decide_False //. lia.
      * rewrite list_lookup_insert_ne // Hb //. f_equal. f_equal.
        destruct (decide (i < S j)), (decide (i < j)); done || lia.
  - intros [b carry] (_ & Hl & Hd & Hb). split_and!; [|done|done]. split.
    + pose proof (holds_range _ _ _ Ha). assert (0 < 2 ^ s)%Z by (apply Z.pow_pos_nonneg; lia).
      split; [by apply Z.div_pos; [lia|]|]. apply Z.div_lt_upper_bound; nia.
    + intros i Hi. by rewrite Hb.
Qed.

(** The number that a hash of [size] bytes stands for: the highest bits, reduced once. *)
Definition hash_int (c : curve_field) (N : Z) (size : nat) (h : Z) : Z :=
  let m := (Z.of_nat (Nat.min size (num_n_bytes c)) * 8)%Z in
  if (m <=? num_n_bits c)%Z then h
  else let e := (h / 2 ^ (m - num_n_bits c))%Z in if (e <? N)%Z then e else (e - N)%Z.

Section hash.
Context (c : curve_field) (N : Z) `{!CurveOrder c N}.
Local Notation nw := (num_n_words c).
Local Notation nnB := (num_n_bytes c).

Lemma n_bytes_words : words nnB = nw.
Proof using All. pose proof (order_bits_pos c N) as [[Hb1 Hb2] Hb3]. apply words_n. lia. Qed.

Lemma upd_low k n a x b : upd k a x b → holds n a 0 → k ≤ n → holds n b x.
Proof using.
  intros (Hx & Hl & Hd) Ha Hk. pose proof (holds_split k (n - k) a 0) as Hs.
  replace (k + (n - k)) with n in Hs by lia. destruct (Hs Ha) as [_ H0]. rewrite Zdiv_0_l -Hd in H0.
  pose proof (holds_glue k (n - k) b x 0 Hx H0) as H. rewrite Z.mul_0_r Z.add_0_r in H.
  by replace (k + (n - k)) with n in H by lia.
Qed.

Lemma bits2int_spec native bits size h :
  holds_bytes (Nat.min size nnB) bits h → nw ≤ length native →
  post (bits2int native bits size c) (λ r, holds nw r (hash_int c N size h) ∧ length r = length native ∧
    0 ≤ hash_int c N size h < 2 ^ num_n_bits c)%Z.
Proof using All.
  intros Hh Hl. pose proof (order_bits_pos c N) as [[Hb1 Hb2] Hb3]. pose proof (order_bits (c := c)) as [HN1 HN2].
  pose proof (order_n (c := c)) as HN. pose proof Hh as [[Hh0 Hh1] _]. rewrite /bits2int /hash_int; cbv zeta.
  set (m := Nat.min size nnB) in *. assert (m ≤ nnB) as Hm by lia.
  assert (words m ≤ nw) as Hwm.
  { rewrite -n_bytes_words /words. apply Nat.Div0.div_le_mono. lia. }
  eapply post_bind; [by apply uECC_vli_clear_spec|]. intros a0 Ha0. pose proof (upd_length _ _ _ _ Ha0) as Hl0.
  eapply post_bind; [eapply uECC_vli_bytesToNative_spec; [exact Hh|lia]|]. intros a1 Ha1.
  pose proof (upd_length _ _ _ _ Ha1) as Hl1. pose proof (upd_low _ _ _ _ _ Ha1 (upd_holds _ _ _ _ Ha0) Hwm) as H1.
  rewrite pb_2 in Hh1.
  destruct (Z.leb_spec (Z.of_nat m * 8) (num_n_bits c)) as [Hle|Hgt].
  { simpl. split_and!; [done|congruence|lia|]. eapply Z.lt_le_trans; [exact Hh1|]. apply Z.pow_le_mono_r; lia. }
  set (sh := (Z.of_nat m * 8 - num_n_bits c)%Z).
  assert (0 < sh < 8)%Z as Hsh.
  { split; [lia|]. unfold sh. assert (Z.of_nat m * 8 ≤ num_n_bits c + 7)%Z; [|lia].
    assert (Z.of_nat nnB = (num_n_bits c + 7) / 8)%Z as E by (unfold BITS_TO_BYTES; rewrite Z2Nat.id; [done|apply Z.div_pos; lia]).
    pose proof (Z.div_mod (num_n_bits c + 7) 8 ltac:(done)). pose proof (Z.mod_pos_bound (num_n_bits c + 7) 8 ltac:(done)). lia. }
  eapply post_bind; [eapply shift_words_spec; [exact H1|lia]|]. intros a2 Ha2.
  pose proof (upd_length _ _ _ _ Ha2) as Hl2. apply upd_holds in Ha2. set (e := (h / 2 ^ sh)%Z) in *.
  assert (0 ≤ e < 2 ^ num_n_bits c)%Z as He.
  { assert (0 < 2 ^ sh)%Z by (apply Z.pow_pos_nonneg; lia). split; [by apply Z.div_pos|].
    apply Z.div_lt_upper_bound; [done|]. rewrite -Z.pow_add_r; [|lia..]. by replace (sh + num_n_bits c)%Z with (8 * Z.of_nat m)%Z by lia. }
  rewrite (uECC_vli_cmp_unsafe_spec _ _ _ _ _ HN Ha2) {1}/mbind {1}/outcome_bind cmp_sign_1.
  destruct (Z.ltb_spec e N); simpl; [split_and!; [done|congruence|lia|lia]|].
  eapply post_bind; [eapply uECC_vli_sub_spec; [exact Ha2|exact HN|by eapply holds_length]|].
  intros [a3 k] [Ha3 _]. pose proof (upd_length _ _ _ _ Ha3) as Hl3. apply upd_holds in Ha3.
  pose proof (holds_range _ _ _ Ha2). pose proof (holds_range _ _ _ HN). rewrite Z.mod_small in Ha3; [|lia].
  simpl. split_and!; [done|congruence|lia|lia].
Qed.

(** ** Arithmetic modulo the order *)
Lemma order_full : full_width nw N.
Proof using All.
  pose proof (order_bits_pos c N) as [[Hb1 Hb2] Hb3]. pose proof (order_bits (c := c)) as [HN1 HN2].
  pose proof (order_words (c := c)) as [Hw _]. split; [|apply (holds_range _ _ _ (order_n (c := c)))].
  rewrite pw_2. apply Z.lt_le_incl. eapply Z.le_lt_trans; [|exact HN1]. apply Z.pow_le_mono_r; [done|].
  unfold BITS_TO_WORDS in *. pose proof (Z.div_mod (num_n_bits c + 63) 64 ltac:(done)).
  pose proof (Z.mod_pos_bound (num_n_bits c + 63) 64 ltac:(done)). lia.
Qed.

(** Products modulo the order, at any inputs. *)
Lemma order_mult res x_ y_ x y :
  holds nw x_ x → holds nw y_ y → nw ≤ length res →
  post (uECC_vli_modMult res x_ y_ (curve_n c) nw) (λ r, holds nw r ((x * y) mod N) ∧ length r = length res).
Proof using All.
  intros Hx Hy Hl. pose proof (order_words (c := c)) as Hw.
  eapply post_mono; [by eapply uECC_vli_modMult_spec; [..|apply order_full|]; [exact Hx|exact Hy|apply order_n|..]|].
  intros r Hr. split; [by eapply upd_holds|by eapply upd_length].
Qed.

Lemma order_inv res x_ x :
  holds nw x_ x → ¬ cong N x 0 → nw ≤ length res →
  post (uECC_vli_modInv res x_ (curve_n c) nw) (λ r, ∃ i, holds nw r i ∧ (0 ≤ i < N)%Z ∧ cong N (i * x) 1 ∧ length r = length res).
Proof using All.
  intros Hx Hne Hl. pose proof (order_words (c := c)) as Hw. pose proof (order_big (c := c)) as H4.
  pose proof (order_odd c N) as Hodd.
  eapply post_mono; [eapply (uECC_vli_modInv_prime nw); [exact Hx|apply order_n|done|done| |lia|]|].
  - rewrite Zmod_odd in Hodd. by destruct (Z.odd N).
  - by apply (prime_gcd N (order_prime (c := c))).
  - intros r (i & Hr & Hi & Hinv). exists i. split; [by eapply upd_holds|]. split; [done|]. split; [|by eapply upd_length].
    rewrite /cong Hinv. symmetry. apply Z.mod_small. lia.
Qed.
End hash.

(** An addition modulo [m] of a number that may exceed [m]. *)
Lemma modAdd_any n res a b md x y m :
  holds n a x → holds n b y → holds n md m → n ≤ length res → (y < m)%Z →
  post (uECC_vli_modAdd res a b md n) (λ r, ∃ z, holds n r z ∧ length r = length res ∧ cong m z (x + y)).
Proof.
  intros Ha Hb Hm Hn Hy. pose proof (holds_range _ _ _ Ha) as Hxr.
  pose proof (holds_range _ _ _ Hb) as Hyr. pose proof (holds_range _ _ _ Hm) as Hmr.
  eapply post_bind; [by apply uECC_vli_add_spec|]. intros [r c] [Hr ->]. pose proof (upd_length _ _ _ _ Hr) as Hlr.
  eapply post_bind with (Ψ := λ b, b = (m <=? x + y)%Z).
  - destruct (Z.leb_spec (pw n) (x + y)); simpl; [by rewrite (proj2 (Z.leb_le _ _)); [|lia]|].
    rewrite (uECC_vli_cmp_unsafe_spec _ _ _ _ _ Hm (upd_holds _ _ _ _ Hr)) /= cmp_sign_1.
    rewrite Z.mod_small; [|lia]. by rewrite Z.leb_antisym.
  - intros ? ->. destruct (Z.leb_spec m (x + y)).
    + eapply post_bind; [apply uECC_vli_sub_spec; [exact (upd_holds _ _ _ _ Hr)|exact Hm|by rewrite Hlr]|].
      intros [r' c'] [Hr' _]. simpl. pose proof (upd_length _ _ _ _ Hr'). apply upd_holds in Hr'.
      rewrite Zminus_mod_idemp_l Z.mod_small in Hr'; [|lia]. eexists. split; [exact Hr'|]. split; [congruence|].
      replace (x + y - m)%Z with (x + y + -1 * m)%Z by lia. apply Z.mod_add. lia.
    + simpl. rewrite Z.mod_small in Hr; [|lia]. exists (x + y)%Z. split; [by eapply upd_holds|done].
Qed.

(** ** Signing *)

(** The numbers of the field and of the order have the same number of words, and the order is close to the
    prime, as Hasse's theorem says. *)
Class CurveWidth (c : curve_field) (P N : Z) : Prop := {
  width_eq : num_n_words c = num_words c;
  width_p : (P ≤ 2 * N)%Z
}.

Section sign.
Context (c : uECC_Curve) {E : Type} {P a b : Z} (N : Z).
Context `{!CurveOps c P a b} `{!EcGroup E P a b} `{!CurveOrder c N} `{!CurveBytes c P} `{!CurveWidth c P N}.
Context (G : E) (HG : affine c (P := P) (curve_G c) G) (HGu : usable (P := P) N G).
Local Notation n := (num_words c).
Local Notation nB := (num_bytes c).
Local Notation nw := (num_n_words c).
Local Notation nnB := (num_n_bytes c).

(** A signature of the hash [e] by the key [d] with the nonce [k]. *)
Definition signed (d e k r s : Z) : Prop :=
  (0 < k < N)%Z ∧ emul k G ≠ ezero ∧ r = (cx (emul k G) mod P)%Z ∧ r ≠ 0%Z ∧ (0 ≤ s < N)%Z ∧ cong N (k * s) (e + r * d).

Definition signature_bytes (sig : array Z) (r s : Z) : Prop := holds_bytes nB sig r ∧ holds_bytes nB (drop nB sig) s.

(** The blinded inverse of the nonce. *)
Lemma nonce_inverse {B} k_ t_ k t (K : array Z → outcome B) Φ :
  holds nw k_ k → holds nw t_ t → ¬ cong N k 0 → ¬ cong N t 0 →
  (∀ r i, holds nw r i → cong N (i * k) 1 → length r = length k_ → post (K r) Φ) →
  post (k ← uECC_vli_modMult k_ k_ t_ (curve_n c) nw;
        k ← uECC_vli_modInv k k (curve_n c) nw;
        k ← uECC_vli_modMult k k t_ (curve_n c) nw; K k) Φ.
Proof using All.
  intros Hk Ht Hk0 Ht0 HK. pose proof (holds_length _ _ _ Hk) as Hlk.
  eapply post_bind; [by eapply (order_mult c N)|]. intros k1 [Hk1 Hl1].
  eapply post_bind; [eapply (order_inv c N k1 k1); [exact Hk1| |lia]|].
  { rewrite cong_mod. by apply (cong_mul_neq N (order_prime (c := c))). }
  intros k2 (i & Hi & _ & Hinv & Hl2).
  eapply post_bind; [eapply (order_mult c N); [exact Hi|exact Ht|lia]|]. intros k3 [Hk3 Hl3].
  eapply HK; [exact Hk3| |congruence]. rewrite cong_mod in Hinv. rewrite cong_mod -Hinv. f_equal. ring.
Qed.

Lemma bits_fit x : (0 ≤ x)%Z → (nbits x ≤ Z.of_nat nB * 8)%Z → (x < pb nB)%Z.
Proof using.
  intros Hx Hb. rewrite pb_2. destruct (Z.eq_dec x 0)%Z as [->|]; [apply Z.pow_pos_nonneg; lia|].
  pose proof (nbits_bounds x ltac:(lia)) as Hnb. eapply Z.lt_le_trans; [apply Hnb|]. apply Z.pow_le_mono_r; lia.
Qed.

(** The random number that blinds the nonce; one without a generator. *)
Lemma blinding_spec rng t tmp :
  (∀ g, rng = Some g → RngOk g) → nw ≤ length tmp →
  post (match rng with
        | None => tmp ← uECC_vli_clear tmp nw; tmp ← oset tmp 0 1%Z; Ok (true, tmp, t)
        | Some _ => '(ok, tmp, t) ← uECC_generate_random_int rng t tmp (curve_n c) nw; Ok (negb (ok =? 0)%Z, tmp, t)
        end) (λ '(ok, r, t'), length r = length tmp ∧ (ok = true → ∃ v, holds nw r v ∧ ¬ cong N v 0)).
Proof using All.
  intros Hrng Hl. pose proof (order_words (c := c)) as Hw. pose proof (order_big (c := c)) as H4. destruct rng as [g|].
  - eapply post_bind; [eapply uECC_generate_random_int_spec; [exact Hrng|apply order_n|done|done]|].
    intros [[ok r] t'] [[[-> Hlr]|(-> & v & Hv & Hvr)] _]; simpl; [done|].
    split; [by eapply upd_length|]. intros _. exists v. split; [by eapply upd_holds|]. by apply cong_small.
  - eapply post_bind; [by apply uECC_vli_clear_spec|]. intros r Hr. pose proof (upd_length _ _ _ _ Hr) as Hlr.
    eapply post_bind; [eapply post_oset; [lia|exact (eq_refl _)]|]. intros r' <-. rewrite /= length_insert.
    split; [done|]. intros _. exists 1%Z. split; [|apply cong_small; lia].
    apply holds_low_word; [lia|by eapply upd_holds|done].
Qed.

(** [s] from the nonce inverse, the hash and the key. *)
Lemma uECC_sign_with_k_spec rng t private_key message_hash size k_ signature d h k :
  (∀ g, rng = Some g → RngOk g) →
  holds_bytes nnB private_key d → (0 ≤ d < N)%Z → holds_bytes (Nat.min size nnB) message_hash h →
  holds nw k_ k → nB + nB ≤ length signature →
  post (uECC_sign_with_k rng t private_key message_hash size k_ signature c) (λ '(ok, k', sig, t'),
    length k' = length k_ ∧ length sig = length signature ∧
    (ok = 0%Z ∨ ok = 1%Z ∧ ∃ r s, signed d (hash_int c N size h) k r s ∧ signature_bytes sig r s)).
Proof using All.
  intros Hrng Hd Hdr Hh Hk Hl. pose proof (@co_field c P a b _) as Hf. pose proof (order_words (c := c)) as Hw.
  pose proof (order_big (c := c)) as H4. pose proof (order_n (c := c)) as HN. pose proof (double_words c N) as H2n. pose proof (P_pos c P) as HPpos.
  pose proof (width_eq (P := P) (N := N) (c := c)) as Hwn. pose proof (words_bound nB) as HnB. rewrite (bytes_words (c := c) (P := P)) in HnB.
  pose proof (holds_length _ _ _ Hk) as Hlk. pose proof (holds_range _ _ _ Hk) as Hkr.
  assert (length (local_vli uECC_MAX_WORDS) = uECC_MAX_WORDS) as Hl4 by apply length_replicate.
  rewrite /uECC_sign_with_k; cbv zeta. rewrite -Hwn (uECC_vli_isZero_spec _ _ _ Hk) {1}/mbind {1}/outcome_bind.
  destruct (Z.eqb_spec k 0) as [Hk0|Hk0]; simpl; [by auto|].
  rewrite (uECC_vli_cmp_spec _ _ _ _ _ HN Hk) /=; [|apply Hw]. rewrite cmp_sign_1.
  destruct (Z.ltb_spec k N) as [HkN|HkN]; simpl; [|by auto].
  eapply post_bind; [eapply (regularize_k_spec c N k_); [exact Hk|lia|lia..]|].
  intros [[carry tmp] s0] (_ & Hlt & Hls & Hs). cbv zeta in Hs. rewrite Hl4 in Hlt Hls.
  eapply post_bind; [eapply (EccPoint_mult_any_key c N); [exact HG|apply HGu..| |exact Hs|done|by rewrite length_replicate]; lia|].
  intros p [Hp Hlp]. rewrite length_replicate in Hlp.
  assert (∃ x, holds nw p (x mod P) ∧ (x mod P ≠ 0 → emul k G ≠ ezero ∧ x = cx (emul k G)))%Z as (x & Hpx & Hx).
  { rewrite Hwn. destruct Hp as [[[Hpx Hpy] Hne]|[[Hpx Hpy] _]]; [by exists (cx (emul k G))|].
    exists 0%Z. split; [exact Hpx|]. intros Hz. by rewrite Z.mod_0_l in Hz; [|lia]. }
  rewrite (uECC_vli_isZero_spec _ _ _ Hpx) {1}/mbind {1}/outcome_bind.
  destruct (Z.eqb_spec (x mod P) 0) as [Hx0|Hx0]; simpl; [by auto|]. destruct (Hx Hx0) as [Hne ->].
  eapply post_bind; [eapply blinding_spec; [exact Hrng|lia]|]. intros [[ok tmp1] t1] [Hlt1 Hblind].
  destruct ok; simpl; [|by auto]. destruct (Hblind eq_refl) as (bl & Hbl & Hbl0).
  eapply nonce_inverse; [exact Hk|exact Hbl|by apply cong_small; lia|exact Hbl0|]. intros kinv i Hi Hinv Hlki.
  set (r := (cx (emul k G) mod P)%Z) in *. assert (0 ≤ r < P)%Z as Hr by (apply Z.mod_pos_bound, (P_pos c P)).
  eapply post_bind; [eapply (fe_to_bytes c P); [rewrite Hwn in Hpx; exact Hpx|lia]|]. intros sig1 (Hsig1 & Hlsig1 & _).
  eapply post_bind; [eapply (load_private c N tmp1); [exact Hd|lia]|]. intros tmp2 Htmp2.
  pose proof (upd_length _ _ _ _ Htmp2) as Hlt2. apply upd_holds in Htmp2.
  eapply post_bind; [eapply post_oset; [lia|exact (eq_refl _)]|]. intros s1 Hs1.
  assert (length s1 = uECC_MAX_WORDS) as Hls1 by by rewrite -Hs1 length_insert. clear Hs1.
  eapply post_bind; [eapply uECC_vli_set_spec; [exact Hpx|lia]|]. intros s2 Hs2.
  pose proof (upd_length _ _ _ _ Hs2) as Hls2. apply upd_holds in Hs2.
  eapply post_bind; [eapply (order_mult c N); [exact Htmp2|exact Hs2|lia]|]. intros s3 [Hs3 Hls3].
  eapply post_bind; [eapply (bits2int_spec c N tmp2); [exact Hh|lia]|]. intros tmp3 (Htmp3 & Hlt3 & He).
  set (e := hash_int c N size h) in *.
  eapply post_bind; [eapply modAdd_any; [exact Htmp3|exact Hs3|exact HN|lia|apply Z.mod_pos_bound; lia]|].
  intros s4 (y & Hs4 & Hls4 & Hy).
  eapply post_bind; [eapply (order_mult c N); [exact Hs4|exact Hi|lia]|]. intros s5 [Hs5 Hls5].
  rewrite (uECC_vli_numBits_spec _ _ _ Hs5); [|unfold uECC_MAX_WORDS in *; lia]. rewrite {1}/mbind {1}/outcome_bind.
  set (sv := ((y * i) mod N)%Z) in *. assert (0 ≤ sv < N)%Z as Hsv by (apply Z.mod_pos_bound; lia).
  destruct (Z.ltb_spec (Z.of_nat nB * 8) (nbits sv)) as [Hbig|Hfit]; simpl; [split_and!; [congruence|congruence|by left]|].
  pose proof (bits_fit sv ltac:(lia) Hfit) as Hsb.
  eapply post_bind; [eapply second_bytes; [exact Hsig1|lia|eapply uECC_vli_nativeToBytes_spec; [exact Hs5|lia|rewrite length_drop; lia]]|].
  intros sig2 (Hg1 & Hg2 & Hlg). rewrite (Z.mod_small sv) in Hg2; [|lia].
  simpl. split_and!; [congruence|congruence|right]. split; [done|]. exists r, sv. split; [|by split].
  split_and!; try done; try lia. unfold sv. rewrite cong_mod Hy cong_mod.
  replace (k * ((e + d * r) * i))%Z with ((i * k) * (e + d * r))%Z by ring. rewrite Hinv. f_equal. ring.
Qed.

Lemma sign_tries_spec tries rng t private_key message_hash size k_ signature d h :
  (∀ g, rng = Some g → RngOk g) →
  holds_bytes nnB private_key d → (0 ≤ d < N)%Z → holds_bytes (Nat.min size nnB) message_hash h →
  nw ≤ length k_ → nB + nB ≤ length signature →
  post (sign_tries tries rng t private_key message_hash size k_ signature c) (λ '(ok, sig, t'),
    length sig = length signature ∧
    (ok = 0%Z ∨ ok = 1%Z ∧ ∃ k r s, signed d (hash_int c N size h) k r s ∧ signature_bytes sig r s)).
Proof using All.
  intros Hrng Hd Hdr Hh. pose proof (order_words (c := c)) as Hw. revert t k_ signature.
  induction tries as [|tries IH]; intros t k_ signature Hk Hl; cbn [sign_tries]; [simpl; by auto|].
  eapply post_bind; [eapply uECC_generate_random_int_spec; [exact Hrng|apply order_n|done|done]|].
  intros [[ok k1] t1] [[[-> _]|(-> & k & Hk1 & Hkr)] _]; simpl; [by auto|].
  pose proof (upd_length _ _ _ _ Hk1) as Hlk. apply upd_holds in Hk1.
  eapply post_bind; [by eapply uECC_sign_with_k_spec|].
  intros [[[ok2 k2] sig2] t2] (Hlk2 & Hls2 & [->|(-> & r & s & Hrs & Hsig)]); simpl.
  - eapply post_mono; [apply IH; lia|]. intros [[ok3 sig3] t3] [Hls3 H]. split; [congruence|done].
  - split; [done|]. right. split; [done|]. by exists k, r, s.
Qed.

Lemma uECC_sign_spec rng t private_key message_hash size signature d h :
  (∀ g, rng = Some g → RngOk g) →
  holds_bytes nnB private_key d → (0 ≤ d < N)%Z → holds_bytes (Nat.min size nnB) message_hash h →
  nB + nB ≤ length signature →
  post (uECC_sign rng t private_key message_hash size signature c) (λ '(ok, sig, t'),
    length sig = length signature ∧
    (ok = 0%Z ∨ ok = 1%Z ∧ ∃ k r s, signed d (hash_int c N size h) k r s ∧ signature_bytes sig r s)).
Proof using All.
  intros. pose proof (order_words (c := c)) as Hw. eapply sign_tries_spec; try done. rewrite length_replicate. lia.
Qed.
End sign.
