(* ===== verification/EcdsaVerify.v ===== *)
(** * EcdsaVerify: [uECC_verify] computes and compares the point of a signature

    Shamir's trick computes [u1 G + u2 Q] with one doubling for every bit; the
    formulas of Ladder.v are used on points with a third coordinate, and
    [shamir_regular] says that no round adds a point to itself or to its
    inverse.  The last theorems compare the first coordinate with the signature and
    show that a signature of [uECC_sign] is accepted. *)
From Stdlib Require Import Zmod.Zmod.
From stdpp Require Import base list numbers ssreflect.
From S2P Require Import Prelude Memory Outcome Digits Vli VliMod VliBytes CurveField CurveGroup EccPoint Ladder PublicKey LadderTotal Uecc Ecdsa.

Section shamir.
Context (c : uECC_Curve) {E : Type} {P a b : Z} (N : Z).
Context `{!CurveOps c P a b} `{!EcGroup E P a b} `{!CurveOrder c N}.
Context (G : E) (HG : affine c (P := P) (curve_G c) G) (HGu : G ≠ ezero) (HGN : emul N G = ezero).
Local Notation n := (num_words c).
Local Notation nw := (num_n_words c).
Local Notation fe := (fe c P).
Local Notation "A ⊕ B" := (eplus A B) (at level 50, left associativity).

(** The point that a pair of bits selects. *)
Definition bit_point (b1 b2 : bool) (Q : E) : E := emul (Z.b2z b1) G ⊕ emul (Z.b2z b2) Q.

(** The sum for the prefixes of the two numbers. *)
Definition comb (u1 u2 i : Z) (Q : E) : E := emul (u1 / 2 ^ i) G ⊕ emul (u2 / 2 ^ i) Q.

Lemma comb_step u1 u2 i Q :
  (0 ≤ i)%Z → (0 ≤ u1)%Z → (0 ≤ u2)%Z →
  comb u1 u2 i Q = (comb u1 u2 (i + 1) Q ⊕ comb u1 u2 (i + 1) Q) ⊕ bit_point (Z.testbit u1 i) (Z.testbit u2 i) Q.
Proof using All.
  intros Hi H1 H2. rewrite /comb /bit_point (prefix_bit u1 i) // (prefix_bit u2 i) //.
  assert (0 < 2 ^ (i + 1))%Z by (apply Z.pow_pos_nonneg; lia).
  assert (0 ≤ u1 / 2 ^ (i + 1) ∧ 0 ≤ u2 / 2 ^ (i + 1))%Z as [Hq1 Hq2] by (split; by apply Z.div_pos).
  set (q1 := (u1 / 2 ^ (i + 1))%Z) in *. set (q2 := (u2 / 2 ^ (i + 1))%Z) in *.
  assert (∀ b, 0 ≤ Z.b2z b)%Z as Hb by by intros [].
  rewrite !emul_add //; [|lia..]. rewrite -!Z.add_diag !emul_add //. by rewrite eplus_swap (eplus_swap (emul q1 G)).
Qed.

(** A point in the arrays with its third coordinate. *)
Definition jacobian (R : array Z * array Z * array Z) (A : E) : Prop :=
  ∃ z, ¬ cong P z 0 ∧ pt_at c z (R.1.1, R.1.2) A ∧ fe R.2 z.

Lemma generator_sum_spec public_ (Q : E) :
  affine c (P := P) public_ Q → Q ≠ ezero → G ≠ Q → G ⊕ Q ≠ ezero →
  post (generator_sum public_ c) (λ sum, affine c (P := P) sum (G ⊕ Q)).
Proof using All.
  intros [HQx HQy] HQ Hne Hs. pose proof (@co_field c P a b _) as Hf. pose proof HG as [HGx HGy].
  pose proof (local_room c P) as Hroom. pose proof (@cf_words c P _) as Hn. pose proof (@cf_big c P _) as Hbig. pose proof (P_pos c P) as HP.
  rewrite /generator_sum; cbv zeta.
  assert (post (sum ← uECC_vli_set (local_vli (uECC_MAX_WORDS * 2)) public_ n; at_offset n (λ y, uECC_vli_set y (drop n public_) n) sum)
    (λ r, affine c (P := P) r Q ∧ length r = uECC_MAX_WORDS * 2)) as Hset.
  { eapply post_mono; [eapply (store_point c (P := P)); [exact HQx|exact HQy|rewrite length_replicate; lia]|].
    intros r (? & ? & Hl). rewrite length_replicate in Hl. by split. }
  destruct (uECC_vli_set (local_vli (uECC_MAX_WORDS * 2)) public_ n) as [sum0|]; [|done]. cbn [mbind outcome_bind] in Hset |- *.
  eapply post_bind; [exact Hset|]. intros sum [[Hsx Hsy] Hls].
  do 3 fe_step. rename a0 into tx, a1 into ty, a2 into z.
  assert (room c sum ∧ room c (drop n sum)) as [Hr1 Hr2] by (unfold room; rewrite length_drop; lia).
  eapply post_bind.
  { eapply (XYcZ_add_points c 1 tx ty sum (drop n sum) G Q); try done; split; simpl; by rewrite Z.mul_1_r. }
  intros [[[tx' ty'] sx] sy] [_ HS]. cbv zeta in HS. rewrite Z.pow_1_l // Z.mul_1_r in HS.
  assert (¬ cong P (cx Q - cx G) 0) as Hz.
  { intros Hz. apply (differ_x co_prime G Q HGu HQ Hne Hs). symmetry. by apply cong_sub_0. }
  eapply post_bind.
  { eapply (uECC_vli_modInv_prime n); [exact Hfe1|apply cf_p|done|by eapply fe_room|apply cf_odd|lia|].
    rewrite Z.gcd_mod; [|lia]. rewrite Z.gcd_comm. by apply (prime_gcd P co_prime). }
  intros zi (i & Hi%upd_holds & Hir & Hinv).
  assert (fe zi i) as Hzi by (apply fe_exact; done).
  pose proof HS as [HSx HSy]. cbn [fst snd] in HSx, HSy. pose proof (fe_room _ _ _ _ HSx) as Hrx. unfold room in Hrx.
  eapply post_bind; [eapply (apply_inverse c (take n sx ++ sy) (drop n (take n sx ++ sy)) zi (cx Q - cx G) i); [split; simpl|exact Hzi|]|].
  - apply holds_app_l. by apply holds_take_l.
  - by rewrite drop_app_length'; [|rewrite length_take; lia].
  - rewrite /cong -Hinv Z.mul_comm Zmult_mod_idemp_r. symmetry. apply Z.mod_mod. lia.
  - intros [X Y] [HX HY]. pose proof (fe_room _ _ _ _ HX) as HrX. unfold room in HrX. simpl. split.
    + apply holds_app_l. by apply holds_take_l.
    + by rewrite drop_app_length'; [|rewrite length_take; lia].
Qed.

(** ** The rounds *)

(** No round adds a point to itself or to its inverse. *)
Definition shamir_regular (u1 u2 num_bits : Z) (Q : E) : Prop :=
  Q ≠ ezero ∧ emul N Q = ezero ∧ G ≠ Q ∧ G ⊕ Q ≠ ezero ∧
  ∀ i, (0 ≤ i < num_bits - 1)%Z → Z.testbit u1 i || Z.testbit u2 i = true →
    let T := bit_point (Z.testbit u1 i) (Z.testbit u2 i) Q in
    let R := comb u1 u2 (i + 1) Q in T ≠ R ⊕ R ∧ R ⊕ R ⊕ T ≠ ezero.

Lemma bit_point_neq b1 b2 Q : Q ≠ ezero → G ⊕ Q ≠ ezero → b1 || b2 = true → bit_point b1 b2 Q ≠ ezero.
Proof using All.
  intros HQ Hs. rewrite /bit_point. destruct b1, b2; simpl; rewrite ?emul_0 ?emul_1 ?eplus_zero ?eplus_zero_l; done.
Qed.

Lemma comb_order u1 u2 i Q :
  (0 ≤ u1)%Z → (0 ≤ u2)%Z → (0 ≤ i)%Z → emul N Q = ezero → emul N (comb u1 u2 i Q) = ezero.
Proof using All.
  intros H1 H2 Hi HQ. pose proof (order_big (c := c)). assert (0 < 2 ^ i)%Z by (apply Z.pow_pos_nonneg; lia).
  rewrite /comb emul_plus; [|lia]. rewrite !(emul_order_emul c N) ?eplus_zero //; by apply Z.div_pos.
Qed.

(** A selected point, in affine coordinates. *)
Lemma select_point_spec u1_ u2_ u1 u2 i public_ sum Q :
  holds nw u1_ u1 → holds nw u2_ u2 → (0 ≤ i < 64 * Z.of_nat nw)%Z →
  affine c (P := P) public_ Q → affine c (P := P) sum (G ⊕ Q) →
  post (select_point u1_ u2_ i (curve_G c) public_ sum) (λ r,
    let b1 := Z.testbit u1 i in let b2 := Z.testbit u2 i in
    match r with
    | None => b1 || b2 = false
    | Some pt => b1 || b2 = true ∧ affine c (P := P) pt (bit_point b1 b2 Q)
    end).
Proof using All.
  intros H1 H2 Hi HQ Hs. pose proof (holds_range _ _ _ H1). pose proof (holds_range _ _ _ H2).
  eapply post_bind; [eapply (scalar_bit_spec nw u1_ u1 i); [by rewrite (Z.mod_small u1)|done]|]. intros b1 ->.
  eapply post_bind; [eapply (scalar_bit_spec nw u2_ u2 i); [by rewrite (Z.mod_small u2)|done]|]. intros b2 ->.
  rewrite /bit_point. destruct (Z.testbit u1 i), (Z.testbit u2 i); simpl; rewrite ?emul_0 ?emul_1 ?eplus_zero ?eplus_zero_l; done.
Qed.

Lemma double_spec rx ry z_ A :
  jacobian (rx, ry, z_) A → A ≠ ezero → A ⊕ A ≠ ezero →
  post (double_jacobian c rx ry z_ c) (λ '(rx', ry', z'), jacobian (rx', ry', z') (A ⊕ A)).
Proof using All.
  intros (z & Hz & [HX HY] & Hz_) HA H2. cbn [fst snd] in *. destruct (tangent A HA H2) as (l & Hl & Hx & Hy).
  eapply post_mono; [eapply (co_double rx ry z_ (cx A) (cy A) z l); [by split|done|done|done]|].
  intros [[rx' ry'] z'] [HD Hz']. cbv zeta in *. exists (cy A * z ^ 4)%Z. split_and!; [|by rewrite /pt_at Hx Hy|done].
  apply (cong_mul_neq P co_prime); [by apply (cy_neq co_prime)|by apply (pow_neq c)].
Qed.

(** One addition of an affine point. *)
Lemma add_affine rx ry z_ A T pt :
  jacobian (rx, ry, z_) A → affine c (P := P) pt T → A ≠ ezero → T ≠ ezero → T ≠ A → T ⊕ A ≠ ezero →
  let fresh := local_vli uECC_MAX_WORDS in
  post (tx ← uECC_vli_set fresh pt n;
        ty ← uECC_vli_set fresh (drop n pt) n;
        '(tx, ty) ← apply_z tx ty z_ c;
        tz ← uECC_vli_modSub fresh rx tx (curve_p c) n;
        '(tx, ty, rx, ry) ← XYcZ_add tx ty rx ry c;
        z ← uECC_vli_modMult_fast z_ z_ tz c;
        Ok (rx, ry, z)) (λ R, jacobian R (A ⊕ T)).
Proof using All.
  intros (z & Hz & HR & Hz_) [HTx HTy] HA HT Hne Hs. cbv zeta. pose proof (@co_field c P a b _) as Hf.
  pose proof (local_room c P) as Hroom. cbn [fst snd] in *. fe_step. fe_step. rename a0 into tx, a1 into ty.
  eapply post_bind; [eapply (apply_z_spec c P tx ty z_ (cx T) (cy T) 1 z); [split; by rewrite Z.mul_1_r|done]|].
  intros [tx' ty'] HT'. rewrite Z.mul_1_l in HT'. pose proof HT' as [HTx' HTy']. pose proof HR as [HRx HRy].
  cbn [fst snd] in *. fe_step. rename a0 into tz.
  eapply post_bind; [by eapply (XYcZ_add_points c z tx' ty' rx ry T A)|].
  intros [[[tx'' ty''] rx'] ry'] [_ HR']. cbv zeta in HR'. fe_step. rename a0 into z'. rewrite eplus_comm.
  exists ((cx A - cx T) * z ^ 3)%Z. split_and!; [by apply (chord_z_neq c)|done|].
  eapply fe_eq; [eassumption|]. f_equal. ring.
Qed.

Lemma shamir_round_spec u1_ u2_ u1 u2 i public_ sum Q R num_bits :
  holds nw u1_ u1 → holds nw u2_ u2 → (0 ≤ i < num_bits - 1)%Z → (num_bits ≤ 64 * Z.of_nat nw)%Z →
  affine c (P := P) public_ Q → affine c (P := P) sum (G ⊕ Q) → shamir_regular u1 u2 num_bits Q →
  jacobian R (comb u1 u2 (i + 1) Q) → comb u1 u2 (i + 1) Q ≠ ezero →
  post (shamir_round u1_ u2_ (curve_G c) public_ sum c i R) (λ R', jacobian R' (comb u1 u2 i Q) ∧ comb u1 u2 i Q ≠ ezero).
Proof using All.
  intros H1 H2 Hi Hnb HQ Hs (HQ0 & HQN & Hne & Hsne & Hreg) HR HRne. specialize (Hreg i Hi).
  pose proof (holds_range _ _ _ H1) as [Hu1 _]. pose proof (holds_range _ _ _ H2) as [Hu2 _].
  rewrite (comb_step u1 u2 i Q); [|lia|done|done]. cbv zeta in Hreg.
  pose proof (comb_order u1 u2 (i + 1) Q Hu1 Hu2 ltac:(lia) HQN) as Hord.
  set (A := comb u1 u2 (i + 1) Q) in *. destruct R as [[rx ry] z_].
  pose proof (odd_double_neq c N A Hord HRne) as H2A.
  rewrite /shamir_round. eapply post_bind; [by apply double_spec|]. intros [[rx' ry'] z'] HD.
  eapply post_bind; [eapply (select_point_spec u1_ u2_ u1 u2 i); [done|done|lia|exact HQ|exact Hs]|].
  intros [pt|] Hpt; cbv zeta in Hpt.
  - destruct Hpt as [Hb Hpt]. destruct (Hreg Hb) as [Hn1 Hn2].
    eapply post_mono; [eapply (add_affine rx' ry' z' (A ⊕ A)); [done|exact Hpt|done|by apply bit_point_neq|done|by rewrite eplus_comm]|].
    intros R' HR'. by split.
  - apply orb_false_iff in Hpt as [Hb1 Hb2]. rewrite /bit_point Hb1 Hb2 /= ?emul_0 !eplus_zero. done.
Qed.

(** ** The whole sum *)
Lemma top_bits u1 u2 num_bits Q :
  (0 < num_bits)%Z → (0 ≤ u1 < 2 ^ num_bits)%Z → (0 ≤ u2 < 2 ^ num_bits)%Z →
  comb u1 u2 (num_bits - 1) Q = bit_point (Z.testbit u1 (num_bits - 1)) (Z.testbit u2 (num_bits - 1)) Q.
Proof using All.
  intros Hnb H1 H2. assert (∀ u, 0 ≤ u < 2 ^ num_bits → u / 2 ^ (num_bits - 1) = Z.b2z (Z.testbit u (num_bits - 1)))%Z as H.
  { intros u Hu. rewrite (prefix_bit u (num_bits - 1)); [|lia]. rewrite Z.sub_add Z.div_small; lia. }
  by rewrite /comb /bit_point !H.
Qed.

Lemma highest_bit u : (0 < u)%Z → Z.testbit u (nbits u - 1) = true.
Proof using. intros Hu. rewrite nbits_pos // Z.add_simpl_r. by apply Z.bit_log2. Qed.

Lemma smax_spec x y : smax x y = Z.max x y.
Proof using. rewrite /smax. destruct (Z.gtb_spec x y); lia. Qed.

Definition sum_bits (u1 u2 : Z) : Z := Z.max (nbits u1) (nbits u2).

Lemma sum_bits_spec u1 u2 :
  (0 ≤ u1)%Z → (0 ≤ u2)%Z → (u1 ≠ 0 ∨ u2 ≠ 0)%Z →
  (0 < sum_bits u1 u2)%Z ∧ (u1 < 2 ^ sum_bits u1 u2)%Z ∧ (u2 < 2 ^ sum_bits u1 u2)%Z ∧
  Z.testbit u1 (sum_bits u1 u2 - 1) || Z.testbit u2 (sum_bits u1 u2 - 1) = true.
Proof using.
  intros H1 H2 Hne. pose proof (nbits_nonneg u1 H1). pose proof (nbits_nonneg u2 H2).
  assert (∀ u m, 0 ≤ u → nbits u ≤ m → u < 2 ^ m)%Z as Hlt.
  { intros u m Hu Hm. pose proof (nbits_nonneg u Hu). destruct (Z.eq_dec u 0)%Z as [->|]; [apply Z.pow_pos_nonneg; lia|].
    pose proof (nbits_bounds u ltac:(lia)) as [_ Hb]. eapply Z.lt_le_trans; [exact Hb|]. apply Z.pow_le_mono_r; lia. }
  assert (∀ u, 0 ≤ u → u ≠ 0 → 0 < nbits u)%Z as Hpos.
  { intros u Hu Hu0. rewrite nbits_pos; [|lia]. pose proof (Z.log2_nonneg u). lia. }
  unfold sum_bits. split_and!.
  - destruct Hne as [Hne|Hne]; [pose proof (Hpos u1 H1 Hne)|pose proof (Hpos u2 H2 Hne)]; lia.
  - apply Hlt; lia.
  - apply Hlt; lia.
  - apply orb_true_iff. destruct (Z.max_spec (nbits u1) (nbits u2)) as [[Hm ->]|[Hm ->]].
    + right. apply highest_bit. destruct (Z.eq_dec u2 0)%Z as [->|]; [rewrite nbits_0 in Hm; lia|lia].
    + left. apply highest_bit. destruct (Z.eq_dec u1 0)%Z as [->|]; [|lia]. rewrite nbits_0 in Hm.
      destruct Hne as [Hne|Hne]; [done|]. pose proof (Hpos u2 H2 Hne). lia.
Qed.

Lemma shamir_spec u1_ u2_ public_ rx u1 u2 Q :
  holds nw u1_ u1 → holds nw u2_ u2 → (u1 ≠ 0 ∨ u2 ≠ 0)%Z → affine c (P := P) public_ Q → room c rx →
  shamir_regular u1 u2 (sum_bits u1 u2) Q →
  post (shamir u1_ u2_ public_ rx c) (λ '(rx', ry'), fe rx' (cx (comb u1 u2 0 Q)) ∧ fe ry' (cy (comb u1 u2 0 Q)) ∧ comb u1 u2 0 Q ≠ ezero).
Proof using All.
  intros H1 H2 Hne HQ Hrx Hreg. pose proof Hreg as (HQ0 & HQN & HGQ & HGQ0 & _).
  pose proof (@co_field c P a b _) as Hf. pose proof (local_room c P) as Hroom. pose proof (@cf_words c P _) as Hn.
  pose proof (@cf_big c P _) as Hbig. pose proof (P_pos c P) as HP. pose proof (order_words (c := c)) as Hw.
  pose proof (holds_range _ _ _ H1) as Hr1. pose proof (holds_range _ _ _ H2) as Hr2.
  destruct (sum_bits_spec u1 u2) as (Hnb0 & Hb1 & Hb2 & Htop); [lia|lia|done|].
  assert (sum_bits u1 u2 ≤ 64 * Z.of_nat nw)%Z as Hnb.
  { unfold sum_bits. rewrite pw_2 in Hr1, Hr2. apply Z.max_lub; apply nbits_le; done || lia. }
  rewrite /shamir; cbv zeta. eapply post_bind; [by apply generator_sum_spec|]. intros sum Hsum. cbv beta in Hsum.
  rewrite (uECC_vli_numBits_spec _ _ _ H1); [|unfold uECC_MAX_WORDS in *; lia]. rewrite {1}/mbind {1}/outcome_bind.
  rewrite (uECC_vli_numBits_spec _ _ _ H2); [|unfold uECC_MAX_WORDS in *; lia]. rewrite {1}/mbind {1}/outcome_bind smax_spec.
  fold (sum_bits u1 u2). set (m := sum_bits u1 u2) in *.
  eapply post_bind; [eapply (select_point_spec u1_ u2_ u1 u2 (m - 1)); [done|done|lia|exact HQ|exact Hsum]|].
  intros [pt|] Hpt; cbv zeta in Hpt; [|congruence]. destruct Hpt as [_ [Hpx Hpy]].
  pose proof (top_bits u1 u2 m Q Hnb0 ltac:(lia) ltac:(lia)) as Etop. rewrite -Etop in Hpx, Hpy.
  assert (comb u1 u2 (m - 1) Q ≠ ezero) as Htop0 by (rewrite Etop; by apply bit_point_neq).
  fe_step. fe_step. rename a0 into X, a1 into Y.
  eapply post_bind; [apply uECC_vli_clear_spec; exact Hroom|]. intros z0 Hz0.
  eapply post_bind; [eapply post_oset; [rewrite (upd_length _ _ _ _ Hz0) length_replicate; lia|exact (eq_refl _)]|].
  intros z1 Hz1. assert (fe z1 1) as Hone.
  { apply fe_exact; [lia|]. rewrite -Hz1. apply holds_low_word; [lia|by eapply upd_holds|done]. }
  eapply post_bind with (Ψ := λ R, jacobian R (comb u1 u2 0 Q) ∧ comb u1 u2 0 Q ≠ ezero).
  { apply post_ofor_down with (I := λ j R, jacobian R (comb u1 u2 (Z.of_nat j) Q) ∧ comb u1 u2 (Z.of_nat j) Q ≠ ezero).
    - rewrite Z2Nat.id; [|lia]. split; [|done]. exists 1%Z. split; [apply cong_small; lia|]. split; [|done].
      split; simpl; by rewrite Z.mul_1_r.
    - intros j R Hj [HR HRne]. replace (Z.of_nat (S j)) with (Z.of_nat j + 1)%Z in * by lia.
      eapply (shamir_round_spec u1_ u2_ u1 u2 (Z.of_nat j) public_ sum Q R m); done || lia.
    - intros R HR. exact HR. }
  intros [[rx' ry'] z_] [(z & Hz & HR & Hz_) HRne]. cbn [fst snd] in *.
  eapply post_bind.
  { eapply (uECC_vli_modInv_prime n); [exact Hz_|apply cf_p|done|by eapply fe_room|apply cf_odd|lia|].
    rewrite Z.gcd_mod; [|lia]. rewrite Z.gcd_comm. by apply (prime_gcd P co_prime). }
  intros zi (i & Hi%upd_holds & Hir & Hinv). assert (fe zi i) as Hzi by (by apply fe_exact).
  eapply post_mono; [eapply (apply_inverse c rx' ry' zi z i); [exact HR|exact Hzi|]|].
  - rewrite /cong -Hinv Z.mul_comm Zmult_mod_idemp_r. symmetry. apply Z.mod_mod. lia.
  - intros [X' Y'] [? ?]. done.
Qed.
End shamir.

(** ** Verification *)

Section verify.
Context (c : uECC_Curve) {E : Type} {P a b : Z} (N : Z).
Context `{!CurveOps c P a b} `{!EcGroup E P a b} `{!CurveOrder c N} `{!CurveBytes c P} `{!CurveWidth c P N}.
Context (G : E) (HG : affine c (P := P) (curve_G c) G) (HGu : usable (P := P) N G).
Local Notation n := (num_words c).
Local Notation nB := (num_bytes c).
Local Notation nw := (num_n_words c).
Local Notation nnB := (num_n_bytes c).
Local Notation "A ⊕ B" := (eplus A B) (at level 50, left associativity).

(** The factors of the generator and of the public key. *)
Definition factor1 (e s : Z) : Z := ((e * Z.invmod s N) mod N)%Z.
Definition factor2 (r s : Z) : Z := ((r * Z.invmod s N) mod N)%Z.

(** The signature [(r, s)] of [e] belongs to the public key [Q]. *)
Definition verifies (e r s : Z) (Q : E) : Prop :=
  (0 < r < N)%Z ∧ (0 < s < N)%Z ∧ ((cx (emul (factor1 e s) G ⊕ emul (factor2 r s) Q) mod P) mod N = r)%Z.
#[export] Instance verifies_decision e r s Q : Decision (verifies e r s Q).
Proof using. unfold verifies. apply _. Defined.

Lemma load_signature last bytes x :
  holds_bytes nB bytes x → nw ≤ length last → post (uECC_vli_bytesToNative last bytes nB) (λ r, holds nw r x).
Proof using All.
  intros Hx Hl. pose proof (bytes_words (c := c) (P := P)) as Hw. pose proof (width_eq (P := P) (N := N) (c := c)) as Hwn.
  eapply post_mono; [eapply uECC_vli_bytesToNative_spec; [exact Hx|lia]|]. intros r Hr. rewrite Hwn -Hw. by eapply upd_holds.
Qed.

Lemma invmod_unique s i : ¬ cong N s 0 → (0 ≤ i < N)%Z → cong N (i * s) 1 → i = Z.invmod s N.
Proof using All.
  intros Hs Hi Hinv. pose proof (order_prime (c := c)) as HN. pose proof (order_big (c := c)) as H4.
  assert (s mod N ≠ 0)%Z as Hs0 by (intros Hz; apply Hs; by rewrite /cong Hz Z.mod_0_l; [|lia]).
  pose proof (Z.invmod_prime s N HN Hs0) as H1. rewrite -(Z.mod_small i N) // -Z.mod_invmod.
  apply (cong_cancel N HN s); [done|]. rewrite Z.mul_comm (Z.mul_comm s). rewrite Hinv /cong H1. apply Z.mod_small. lia.
Qed.

Lemma uECC_verify_spec public_key message_hash size signature h r s Q :
  point_at c (P := P) public_key Q → holds_bytes (Nat.min size nnB) message_hash h →
  holds_bytes nB signature r → holds_bytes nB (drop nB signature) s →
  ((0 < r < N)%Z → (0 < s < N)%Z →
    shamir_regular N G (factor1 (hash_int c N size h) s) (factor2 r s)
      (sum_bits (factor1 (hash_int c N size h) s) (factor2 r s)) Q) →
  uECC_verify public_key message_hash size signature c = Ok (if decide (verifies (hash_int c N size h) r s Q) then 1 else 0)%Z.
Proof using All.
  intros Hpub Hh Hr Hs Hreg. pose proof (@co_field c P a b _) as Hf. pose proof (order_words (c := c)) as Hw.
  pose proof (order_big (c := c)) as H4. pose proof (order_n (c := c)) as HN. pose proof (double_words c N) as H2n.
  pose proof (P_pos c P) as HPpos. pose proof (width_eq (P := P) (N := N) (c := c)) as Hwn.
  pose proof (width_p (P := P) (N := N) (c := c)) as HPN. pose proof (order_prime (c := c)) as HNp.
  assert (length (local_vli uECC_MAX_WORDS) = uECC_MAX_WORDS) as Hl4 by apply length_replicate.
  apply post_eq. rewrite /uECC_verify; cbv zeta.
  eapply post_bind; [eapply post_oset; [lia|exact (eq_refl _)]|]. intros last Hlast.
  assert (length last = uECC_MAX_WORDS) as Hll by by rewrite -Hlast length_insert. clear Hlast.
  eapply post_bind; [eapply (bytes_to_point_spec c P); [exact Hpub|by rewrite length_replicate]|]. intros pu (Hpx & Hpy & _).
  eapply post_bind; [eapply load_signature; [exact Hr|lia]|]. intros r_ Hr_. cbv beta in Hr_.
  eapply post_bind; [eapply load_signature; [exact Hs|lia]|]. intros s_ Hs_. cbv beta in Hs_.
  pose proof (holds_range _ _ _ Hr_) as Hrr. pose proof (holds_range _ _ _ Hs_) as Hsr.
  rewrite -Hwn (uECC_vli_isZero_spec _ _ _ Hr_) {1}/mbind {1}/outcome_bind.
  destruct (Z.eqb_spec r 0) as [Hr0|Hr0]; simpl; [rewrite decide_False //; intros (? & _); lia|].
  rewrite (uECC_vli_isZero_spec _ _ _ Hs_) /=.
  destruct (Z.eqb_spec s 0) as [Hs0|Hs0]; simpl; [rewrite decide_False //; intros (_ & ? & _); lia|].
  rewrite (uECC_vli_cmp_unsafe_spec _ _ _ _ _ HN Hr_) {1}/mbind {1}/outcome_bind cmp_sign_1.
  destruct (Z.ltb_spec r N) as [HrN|HrN]; simpl; [|rewrite decide_False //; intros (? & _); lia].
  rewrite (uECC_vli_cmp_unsafe_spec _ _ _ _ _ HN Hs_) /= cmp_sign_1.
  destruct (Z.ltb_spec s N) as [HsN|HsN]; simpl; [|rewrite decide_False //; intros (_ & ? & _); lia].
  assert (¬ cong N r 0 ∧ ¬ cong N s 0) as [Hrn Hsn] by (split; apply cong_small; lia).
  eapply post_bind; [eapply (order_inv c N); [exact Hs_|exact Hsn|lia]|]. intros z_ (i & Hz_ & Hir & Hinv & Hlz).
  pose proof (invmod_unique s i Hsn Hir Hinv) as ->.
  eapply post_bind; [eapply (bits2int_spec c N last); [exact Hh|lia]|]. intros e_ (He_ & Hle & _).
  set (e := hash_int c N size h) in *.
  eapply post_bind; [eapply (order_mult c N); [exact He_|exact Hz_|lia]|]. intros u1_ [Hu1 Hl1].
  eapply post_bind; [eapply (order_mult c N); [exact Hr_|exact Hz_|lia]|]. intros u2_ [Hu2 Hl2].
  fold (factor1 e s) in Hu1. fold (factor2 r s) in Hu2.
  assert (factor2 r s ≠ 0)%Z as Hf2.
  { intros Hz. assert (cong N (r * Z.invmod s N) 0) as Hc by (rewrite /cong Z.mod_0_l; [exact Hz|lia]).
    destruct (cong_mul_0 N HNp _ _ Hc) as [?|Hc2]; [done|]. rewrite Hc2 in Hinv.
    apply (cong_small N 1); [lia|]. symmetry. exact Hinv. }
  eapply post_bind.
  { eapply (shamir_spec c N G HG); [apply HGu|apply HGu|exact Hu1|exact Hu2|by right|by split| |apply Hreg; lia].
    unfold room. lia. }
  intros [rx ry] (Hrx & _ & _). rewrite /comb !Z.div_1_r in Hrx.
  set (R := emul (factor1 e s) G ⊕ emul (factor2 r s) Q) in *.
  assert (holds nw rx (cx R mod P)) as Hrx' by by rewrite Hwn.
  pose proof (Z.mod_pos_bound (cx R) P HPpos) as Hxr.
  rewrite (uECC_vli_cmp_unsafe_spec _ _ _ _ _ HN Hrx') {1}/mbind {1}/outcome_bind cmp_sign_1.
  eapply post_bind with (Ψ := λ rx, holds nw rx ((cx R mod P) mod N)).
  { destruct (Z.ltb_spec (cx R mod P) N) as [Hlt|Hge]; simpl; [rewrite (Z.mod_small (cx R mod P)); [done|lia]|].
    eapply post_bind; [eapply uECC_vli_sub_spec; [exact Hrx'|exact HN|by eapply holds_length]|].
    intros [rx2 k] [Hrx2%upd_holds _]. simpl. pose proof (holds_range _ _ _ HN). pose proof (holds_range _ _ _ Hrx').
    rewrite Z.mod_small in Hrx2; [|lia]. by rewrite -(Z.mod_unique (cx R mod P) N 1 (cx R mod P - N)); [|lia|lia]. }
  intros rx2 Hrx2. cbv beta in Hrx2. rewrite (uECC_vli_equal_spec _ _ _ _ _ Hrx2 Hr_).
  destruct (Z.eqb_spec ((cx R mod P) mod N) r) as [Heq|Hne]; simpl.
  - rewrite decide_True //. by split_and!; lia || done.
  - rewrite decide_False //. by intros (_ & _ & ?).
Qed.

(** The factors of a signature that was made with the nonce [k] add up to it. *)
Lemma signed_verifies d e k r s :
  signed (P := P) N G d e k r s → (0 < d < N)%Z → (r < N)%Z → s ≠ 0%Z → verifies e r s (emul d G).
Proof using All.
  intros (Hk & Hk0 & -> & Hr0 & Hsr & Hks) Hd HrN Hs0. pose proof (order_big (c := c)) as H4.
  pose proof (P_pos c P (CurveField0 := co_field)) as HPpos. pose proof (order_prime (c := c)) as HNp.
  set (r := (cx (emul k G) mod P)%Z) in *. assert (0 ≤ r < P)%Z as Hr by by apply Z.mod_pos_bound.
  split; [lia|]. split; [lia|].
  assert (¬ cong N s 0) as Hsn by (apply cong_small; lia).
  assert (s mod N ≠ 0)%Z as Hs' by (by rewrite Z.mod_small).
  pose proof (Z.invmod_prime s N HNp Hs') as Hinv. set (w := Z.invmod s N) in *.
  assert (cong N (w * s) 1) as Hinv' by (rewrite /cong Hinv; symmetry; apply Z.mod_small; lia).
  assert (0 ≤ factor1 e s < N ∧ 0 ≤ factor2 r s < N)%Z as [Hf1 Hf2] by (split; apply Z.mod_pos_bound; lia).
  assert (emul (factor1 e s) G ⊕ emul (factor2 r s) (emul d G) = emul k G) as ->.
  { rewrite -emul_mul; [|lia..]. rewrite -emul_add; [|lia|nia].
    apply (emul_order c N); [done|nia|lia|].
    rewrite /factor1 /factor2 !cong_mod. fold w.
    replace (e * w + r * w * d)%Z with (w * (e + r * d))%Z by ring. rewrite -Hks.
    replace (w * (k * s))%Z with (k * (w * s))%Z by ring. by rewrite Hinv' Z.mul_1_r. }
  fold r. apply Z.mod_small. lia.
Qed.
End verify.
