(* ===== verification/StandardCurves.v ===== *)
(** * StandardCurves: the curves that the library offers, and square roots for secp224r1

    The [uECC_Curve] objects of lib/ecc/curve-specific.inc with their callbacks, what
    they promise to Ladder.v, Uecc.v and Ecdsa.v, and [mod_sqrt_secp224r1]: its prime is 1
    modulo 4, so a root is found by powers of [a + w], where [w^2 = - a], until the part
    without [w] becomes zero. *)
From Stdlib Require Import Zmod.Zmod.
From stdpp Require Import base list numbers ssreflect.
From S2P Require Import Prelude Memory Outcome Digits Vli VliMod VliBytes CurveField Curves CurveOmega CurveGroup Primes EccPoint Ladder PublicKey Uecc Ecdsa.

(** ** Square roots modulo the prime of secp224r1 *)

Notation num_words_secp224r1 := 4.
Notation c224 := curve_field_secp224r1.

(** The three results of a routine: [d1], [e1] and [f1]. *)
Definition root_state : Type := array Z * array Z * array Z.

Definition mod_sqrt_secp224r1_rs (d1 e1 f1 d0 e0 f0 : array Z) : outcome root_state :=
  let p := curve_p c224 in
  let n := num_words_secp224r1 in
  t ← uECC_vli_modSquare_fast (local_vli n) d0 c224;
  e1 ← uECC_vli_modMult_fast e1 d0 e0 c224;
  d1 ← uECC_vli_modAdd d1 t f0 p n;
  e1 ← uECC_vli_modAdd e1 e1 e1 p n;
  f1 ← uECC_vli_modMult_fast f1 t f0 c224;
  f1 ← uECC_vli_modAdd f1 f1 f1 p n;
  f1 ← uECC_vli_modAdd f1 f1 f1 p n;
  Ok (d1, e1, f1).

Definition mod_sqrt_secp224r1_rss (d1 e1 f1 d0 e0 f0 : array Z) (j : nat) : outcome root_state :=
  let n := num_words_secp224r1 in
  d1 ← uECC_vli_set d1 d0 n;
  e1 ← uECC_vli_set e1 e0 n;
  f1 ← uECC_vli_set f1 f0 n;
  ofor j 1 (λ _ '(d1, e1, f1), mod_sqrt_secp224r1_rs d1 e1 f1 d1 e1 f1) (d1, e1, f1).

Definition mod_sqrt_secp224r1_rm (d2 e2 f2 c d0 e0 d1 e1 : array Z) : outcome root_state :=
  let p := curve_p c224 in
  let n := num_words_secp224r1 in
  t1 ← uECC_vli_modMult_fast (local_vli n) e0 e1 c224;
  t1 ← uECC_vli_modMult_fast t1 t1 c c224;
  t1 ← uECC_vli_modSub t1 p t1 p n;
  t2 ← uECC_vli_modMult_fast (local_vli n) d0 d1 c224;
  t2 ← uECC_vli_modAdd t2 t2 t1 p n;
  t1 ← uECC_vli_modMult_fast t1 d0 e1 c224;
  e2 ← uECC_vli_modMult_fast e2 d1 e0 c224;
  e2 ← uECC_vli_modAdd e2 e2 t1 p n;
  f2 ← uECC_vli_modSquare_fast f2 e2 c224;
  f2 ← uECC_vli_modMult_fast f2 f2 c c224;
  f2 ← uECC_vli_modSub f2 p f2 p n;
  d2 ← uECC_vli_set d2 t2 n;
  Ok (d2, e2, f2).

(** The array [{1}] of four words. *)
Definition one_224 : array Z := initialiser num_words_secp224r1 [1%Z].

(** The rounds are [i = 0 .. 6], with [pow2i = 2^i]. *)
Definition mod_sqrt_secp224r1_rp (d1 e1 f1 c r : array Z) : outcome root_state :=
  let p := curve_p c224 in
  let n := num_words_secp224r1 in
  d0 ← uECC_vli_set (local_vli n) r n;
  f0 ← uECC_vli_modSub (local_vli n) p c p n;
  '(s, _, _) ← ofor 7 0 (λ _ '((d1, e1, f1), (d0, e0, f0), pow2i),
    '(d1, e1, f1) ← mod_sqrt_secp224r1_rss d1 e1 f1 d0 e0 f0 pow2i;
    '(d1, e1, f1) ← mod_sqrt_secp224r1_rm d1 e1 f1 c d1 e1 d0 e0;
    d0 ← uECC_vli_set d0 d1 n;
    e0 ← uECC_vli_set e0 e1 n;
    f0 ← uECC_vli_set f0 f1 n;
    Ok ((d1, e1, f1), (d0, e0, f0), pow2i * 2))
    ((d1, e1, f1), (d0, one_224, f0), 1);
  Ok s.

(** [for (i = 1; i <= 95; i++)], which ends early when [d1] is zero. *)
Fixpoint sqrt_rounds (rounds : nat) (s1 s0 : root_state) : outcome root_state :=
  match rounds with
  | O => Ok s0
  | S rounds =>
      let '(d1, e1, f1) := s1 in
      let '(d0, e0, f0) := s0 in
      let n := num_words_secp224r1 in
      d0 ← uECC_vli_set d0 d1 n;
      e0 ← uECC_vli_set e0 e1 n;
      f0 ← uECC_vli_set f0 f1 n;
      '(d1, e1, f1) ← mod_sqrt_secp224r1_rs d1 e1 f1 d0 e0 f0;
      zero ← uECC_vli_isZero d1 n;
      if negb (zero =? 0)%Z then Ok (d0, e0, f0) else sqrt_rounds rounds (d1, e1, f1) (d0, e0, f0)
  end.

Definition mod_sqrt_secp224r1 (a : array Z) (curve : curve_field) : outcome (array Z) :=
  let n := num_words_secp224r1 in
  let fresh := local_vli n in
  '(d0, e0, f0) ← mod_sqrt_secp224r1_rp fresh fresh fresh a a;
  '(d1, e1, f1) ← mod_sqrt_secp224r1_rs fresh fresh fresh d0 e0 f0;
  '(d0, e0, f0) ← sqrt_rounds 95 (d1, e1, f1) (d0, e0, f0);
  f1 ← uECC_vli_modInv f1 e0 (curve_p c224) n;
  uECC_vli_modMult_fast a d0 f1 c224.

(** ** The curves *)

Definition curve_secp160r1 : uECC_Curve := {|
  field := curve_field_secp160r1; double_jacobian := double_jacobian_default; mod_sqrt := mod_sqrt_default; x_side := x_side_default
|}.
Definition curve_secp192r1 : uECC_Curve := {|
  field := curve_field_secp192r1; double_jacobian := double_jacobian_default; mod_sqrt := mod_sqrt_default; x_side := x_side_default
|}.
Definition curve_secp224r1 : uECC_Curve := {|
  field := curve_field_secp224r1; double_jacobian := double_jacobian_default; mod_sqrt := mod_sqrt_secp224r1; x_side := x_side_default
|}.
Definition curve_secp256r1 : uECC_Curve := {|
  field := curve_field_secp256r1; double_jacobian := double_jacobian_default; mod_sqrt := mod_sqrt_default; x_side := x_side_default
|}.
Definition curve_secp256k1 : uECC_Curve := {|
  field := curve_field_secp256k1; double_jacobian := double_jacobian_secp256k1; mod_sqrt := mod_sqrt_default; x_side := x_side_secp256k1
|}.

Definition uECC_secp160r1 : uECC_Curve := curve_secp160r1.
Definition uECC_secp192r1 : uECC_Curve := curve_secp192r1.
Definition uECC_secp224r1 : uECC_Curve := curve_secp224r1.
Definition uECC_secp256r1 : uECC_Curve := curve_secp256r1.
Definition uECC_secp256k1 : uECC_Curve := curve_secp256k1.

(** [b] of the equations, as numbers. *)
Definition B160 : Z := 0x1c97befc54bd7a8b65acf89f81d4d4adc565fa45%Z.
Definition B192 : Z := 0x64210519e59c80e70fa7e9ab72243049feb8deecc146b9b1%Z.
Definition B224 : Z := 0xb4050a850c04b3abf54132565044b0b7d7bfd8ba270b39432355ffb4%Z.
Definition B256 : Z := 0x5ac635d8aa3a93e7b3ebbd55769886bc651d06b0cc53b0f63bce3c3e27d2604b%Z.
Definition BK1 : Z := 7%Z.
(** ** Powers of [c + w] with [w^2 = - c] *)
Lemma cong_eq P x y : x = y → cong P x y.
Proof. by intros ->. Qed.

Section root.
Context (c : Z).
Local Notation cong := (cong P224).

Definition pmul (u v : Z * Z) : Z * Z :=
  ((u.1 * v.1 - c * (u.2 * v.2)) mod P224, (u.1 * v.2 + u.2 * v.1) mod P224)%Z.
Definition pbase : Z * Z := (c mod P224, 1)%Z.
Definition ppow (k : positive) : Z * Z := Pos.iter_op pmul k pbase.

Lemma pmul_fst u v : cong (pmul u v).1 (u.1 * v.1 - c * (u.2 * v.2)).
Proof using. apply cong_mod. Qed.
Lemma pmul_snd u v : cong (pmul u v).2 (u.1 * v.2 + u.2 * v.1).
Proof using. apply cong_mod. Qed.

Lemma pmul_assoc u v w : pmul u (pmul v w) = pmul (pmul u v) w.
Proof using.
  rewrite {1 3}/pmul. apply (f_equal2 pair); refine (_ : cong _ _); rewrite !pmul_fst !pmul_snd; apply cong_eq; ring.
Qed.

Lemma ppow_add j k : ppow (j + k) = pmul (ppow j) (ppow k).
Proof using.
  revert k. induction j as [|j IH] using Pos.peano_ind; intros k.
  - rewrite Pos.add_1_l. apply Pos.iter_op_succ, pmul_assoc.
  - rewrite Pos.add_succ_l /ppow !Pos.iter_op_succ; [|apply pmul_assoc..]. fold (ppow (j + k)). by rewrite IH pmul_assoc.
Qed.

Lemma ppow_double k : ppow k~0 = pmul (ppow k) (ppow k).
Proof using. by rewrite -Pos.add_diag ppow_add. Qed.

(** The norm and, for [c = - 1], the difference are multiplicative. *)
Definition norm (u : Z * Z) : Z := (u.1 * u.1 + c * (u.2 * u.2))%Z.
Definition gap (u : Z * Z) : Z := (u.1 - u.2)%Z.

Lemma norm_pmul u v : cong (norm (pmul u v)) (norm u * norm v).
Proof using. rewrite /norm !pmul_fst !pmul_snd. apply cong_eq. ring. Qed.

Lemma gap_pmul u v : cong c (-1) → cong (gap (pmul u v)) (gap u * gap v).
Proof using. intros Hc. rewrite /gap !pmul_fst !pmul_snd Hc. apply cong_eq. ring. Qed.

Lemma ppow_neq (HP : Z.prime P224) f k :
  (∀ u v, cong (f (pmul u v)) (f u * f v)) → ¬ cong (f pbase) 0 → ¬ cong (f (ppow k)) 0.
Proof using.
  intros Hf Hb. induction k as [|k IH] using Pos.peano_ind; [done|].
  rewrite -Pos.add_1_l ppow_add Hf. by apply (cong_mul_neq P224 HP).
Qed.

(** No power of [c + w] vanishes. *)
Lemma ppow_nonzero (HP : Z.prime P224) k : ¬ cong c 0 → cong (ppow k).1 0 → ¬ cong (ppow k).2 0.
Proof using.
  intros Hc H1 H2. destruct (decide (cong c (-1))) as [Hm|Hm].
  - apply (ppow_neq HP gap k); [by intros; apply gap_pmul| |].
    + rewrite /gap /pbase /= cong_mod Hm. by vm_compute.
    + by rewrite /gap H1 H2.
  - apply (ppow_neq HP norm k); [apply norm_pmul| |].
    + rewrite /norm /pbase /= cong_mod. replace (c * c + c * (1 * 1))%Z with (c * (c - -1))%Z by ring.
      apply (cong_mul_neq P224 HP); [done|]. by rewrite -cong_sub_0.
    + by rewrite /norm H1 H2 !Z.mul_0_r.
Qed.

(** ** The routines *)

Local Notation fe := (fe c224 P224).
Local Notation room := (room c224).

(** A number up to [P] itself: the routines subtract from [P] without a reduction. *)
Definition loose (a : array Z) (x : Z) : Prop := ∃ v, holds 4 a v ∧ (0 ≤ v ≤ P224)%Z ∧ cong v x.

Lemma fe_loose a x : fe a x → loose a x.
Proof using.
  intros Ha. exists (x mod P224)%Z. split; [done|]. split; [|apply cong_mod].
  pose proof (Z.mod_pos_bound x P224 ltac:(done)). lia.
Qed.

Lemma loose_neg res b y : fe b y → room res → post (uECC_vli_modSub res secp224r1_p b secp224r1_p 4) (λ r, loose r (- y)).
Proof using.
  intros Hb Hr. pose proof secp224r1_p_holds as Hp. pose proof (Z.mod_pos_bound y P224 ltac:(done)) as Hy.
  pose proof (holds_range _ _ _ Hp) as HP.
  eapply post_bind; [apply uECC_vli_sub_spec; [exact Hp|exact Hb|exact Hr]|]. intros [r k] [Hr1 ->].
  rewrite (proj2 (Z.ltb_ge _ _)) /=; [|lia]. apply upd_holds in Hr1. rewrite Z.mod_small in Hr1; [|lia].
  exists (P224 - y mod P224)%Z. split; [done|]. split; [lia|]. rewrite cong_mod.
  replace (- y)%Z with (0 - y)%Z by lia. f_equiv. by vm_compute.
Qed.

Lemma loose_mult res a b x y :
  loose a x → loose b y → room res → post (uECC_vli_modMult_fast res a b c224) (λ r, fe r (x * y)).
Proof using.
  intros (v & Ha & Hv & Hvx) (w & Hb & Hw & Hwy) Hr. rewrite /uECC_vli_modMult_fast.
  eapply post_bind; [apply uECC_vli_mult_spec; [exact Ha|exact Hb|simpl; unfold uECC_MAX_WORDS; lia|rewrite length_replicate; simpl; unfold uECC_MAX_WORDS; lia]|].
  intros p Hp. apply upd_holds in Hp.
  eapply post_bind; [apply vli_mmod_fast_secp224r1_spec; [exact Hp| |exact Hr]|].
  - assert (v * w ≤ P224 * P224)%Z by (apply Z.mul_le_mono_nonneg; lia).
    assert (P224 * P224 < 2 ^ 448)%Z by (apply Z.ltb_lt; by vm_compute). lia.
  - intros r Hr1. cbn. unfold CurveField.fe. assert ((x * y) mod P224 = (v * w) mod P224)%Z as ->; [|exact Hr1].
    refine (_ : cong _ _). by rewrite Hvx Hwy.
Qed.

Lemma loose_add res a b x y :
  fe a x → loose b y → room res → post (uECC_vli_modAdd res a b secp224r1_p 4) (λ r, fe r (x + y)).
Proof using.
  intros Ha (w & Hb & Hw & Hwy) Hr. pose proof (Z.mod_pos_bound x P224 ltac:(done)) as Hx.
  eapply post_mono; [apply uECC_vli_modAdd_sum; [exact Ha|exact Hb|exact secp224r1_p_holds|exact Hr|lia]|].
  intros r Hr1%upd_holds. unfold CurveField.fe.
  assert ((x + y) mod P224 = (x mod P224 + w) mod P224)%Z as ->; [|exact Hr1].
  refine (_ : cong _ _). by rewrite cong_mod Hwy.
Qed.

(** The state holds [(c + w)^k]. *)
Definition pow_at (k : positive) (s : root_state) : Prop :=
  let '(d, e, f) := s in
  fe d (ppow k).1 ∧ fe e (ppow k).2 ∧ loose f (- (c * ((ppow k).2 * (ppow k).2))).
Definition state_room (s : root_state) : Prop := let '(d, e, f) := s in room d ∧ room e ∧ room f.

Lemma loose_room a x : loose a x → room a.
Proof using. intros (v & Ha & _). by eapply holds_length. Qed.

Lemma pow_at_room k s : pow_at k s → state_room s.
Proof using.
  destruct s as [[d e] f]. intros (Hd & He & Hf).
  split_and!; [by eapply fe_room|by eapply fe_room|by eapply loose_room].
Qed.

Lemma rs_spec d1 e1 f1 d0 e0 f0 k :
  pow_at k (d0, e0, f0) → state_room (d1, e1, f1) → post (mod_sqrt_secp224r1_rs d1 e1 f1 d0 e0 f0) (pow_at k~0).
Proof using.
  intros (Hd & He & Hf) (Hr1 & Hr2 & Hr3). rewrite /mod_sqrt_secp224r1_rs; cbv zeta.
  pose proof secp224r1_field as Hfield. assert (room (local_vli 4)) as Hr by apply (local_room_n c224).
  fe_step. rename a into t, Hfe into Ht. fe_step.
  eapply post_bind; [apply loose_add; [exact Ht|exact Hf|done]|]. intros d Hd'. cbv beta in Hd'. fe_step.
  eapply post_bind; [apply loose_mult; [by apply fe_loose|exact Hf|done]|]. intros f Hf'. cbv beta in Hf'.
  fe_step. fe_step. unfold pow_at. rewrite ppow_double. cbn [post].
  split_and!; [eapply fe_eq; [exact Hd'|]|eapply fe_eq; [exact Hfe0|]|].
  - refine (_ : cong _ _). rewrite pmul_fst. apply cong_eq. ring.
  - refine (_ : cong _ _). rewrite pmul_snd. apply cong_eq. ring.
  - apply fe_loose. eapply fe_eq; [exact Hfe2|]. refine (_ : cong _ _). rewrite pmul_snd. apply cong_eq. ring.
Qed.

Ltac set_step :=
  eapply post_bind; [eapply (fe_set c224 P224); eassumption|];
  let a := fresh "a" in let H := fresh "Hfe" in intros a H; cbv beta in H.

(** [2^j] times [k]. *)
Definition double_times (j : nat) (k : positive) : positive := Nat.iter j xO k.

Lemma rss_spec d1 e1 f1 d0 e0 f0 k j :
  pow_at k (d0, e0, f0) → state_room (d1, e1, f1) →
  post (mod_sqrt_secp224r1_rss d1 e1 f1 d0 e0 f0 j) (pow_at (double_times j k)).
Proof using.
  intros (Hd & He & (v & Hf & Hv & Hvc)) (Hr1 & Hr2 & Hr3). rewrite /mod_sqrt_secp224r1_rss; cbv zeta.
  set_step. set_step. eapply post_bind; [by apply uECC_vli_set_spec|]. intros f Hf1%upd_holds.
  apply post_ofor with (I := λ i s, (1 ≤ i)%Z ∧ pow_at (double_times (Z.to_nat (i - 1)) k) s).
  - split; [done|]. split_and!; [exact Hfe|exact Hfe0|by exists v].
  - intros i [[d e] f'] Hi [_ Hs]. eapply post_mono; [apply rs_spec; [exact Hs|by eapply pow_at_room]|].
    intros s' Hs'. split; [lia|]. replace (Z.to_nat (i + 1 - 1)) with (S (Z.to_nat (i - 1))) by lia. exact Hs'.
  - intros s [_ Hs]. by replace (Z.to_nat (1 + Z.of_nat j - 1)) with j in Hs by lia.
Qed.

Lemma rm_spec d2 e2 f2 ca d0 e0 d1 e1 j k :
  fe ca c → fe d0 (ppow j).1 → fe e0 (ppow j).2 → fe d1 (ppow k).1 → fe e1 (ppow k).2 → state_room (d2, e2, f2) →
  post (mod_sqrt_secp224r1_rm d2 e2 f2 ca d0 e0 d1 e1) (pow_at (j + k)).
Proof using.
  intros Hc Hd0 He0 Hd1 He1 (Hr1 & Hr2 & Hr3). rewrite /mod_sqrt_secp224r1_rm; cbv zeta.
  pose proof secp224r1_field as Hfield. assert (room (local_vli 4)) as Hr by apply (local_room_n c224).
  fe_step. fe_step. eapply post_bind; [apply loose_neg; [exact Hfe0|by eapply fe_room]|]. intros t1 Ht1. cbv beta in Ht1.
  fe_step. rename a1 into t2, Hfe1 into Ht2.
  eapply post_bind; [apply loose_add; [exact Ht2|exact Ht1|by eapply fe_room]|]. intros t2' Ht2'. cbv beta in Ht2'.
  eapply post_bind; [eapply (fe_mult c224 P224); [exact Hd0|exact He1|by eapply loose_room]|]. intros t1' Ht1'. cbv beta in Ht1'.
  fe_step. fe_step. fe_step. fe_step.
  eapply post_bind; [apply loose_neg; [eassumption|by eapply fe_room]|]. intros f Hf. cbv beta in Hf. set_step.
  cbn [post]. unfold pow_at. rewrite ppow_add.
  split_and!; [eapply fe_eq; [eassumption|]|eapply fe_eq; [exact Hfe2|]|].
  - refine (_ : cong _ _). rewrite pmul_fst. apply cong_eq. ring.
  - refine (_ : cong _ _). rewrite pmul_snd. apply cong_eq. ring.
  - destruct Hf as (v & Hv & Hvr & Hvc). exists v. split; [done|]. split; [done|]. rewrite Hvc pmul_snd. apply cong_eq. ring.
Qed.

(** The exponent after [i] rounds is [2 ^ (2 ^ i) - 1]. *)
Fixpoint rp_exp (i : nat) : positive :=
  match i with O => 1%positive | S i => (double_times (2 ^ i) (rp_exp i) + rp_exp i)%positive end.

Definition K224 : positive := Pos.pred (2 ^ 128).

Lemma rp_exp_7 : rp_exp 7 = K224.
Proof using. by vm_compute. Qed.

Lemma rp_spec d1 e1 f1 ca :
  fe ca c → state_room (d1, e1, f1) → post (mod_sqrt_secp224r1_rp d1 e1 f1 ca ca) (pow_at K224).
Proof using.
  intros Hc Hroom. rewrite /mod_sqrt_secp224r1_rp; cbv zeta.
  assert (room (local_vli 4)) as Hr by apply (local_room_n c224). set_step.
  eapply post_bind; [by apply loose_neg|]. intros f Hf. cbv beta in Hf.
  eapply post_bind with (Ψ := λ '(s, _, _), pow_at K224 s); [|by intros [[s ?] ?] ?].
  apply post_ofor with (I := λ i '(s1, s0, pow2i), (0 ≤ i)%Z ∧ pow2i = 2 ^ Z.to_nat i ∧
    pow_at (rp_exp (Z.to_nat i)) s0 ∧ (i = 0%Z ∧ state_room s1 ∨ pow_at (rp_exp (Z.to_nat i)) s1)).
  - split_and!; [done|done| |by left]. split_and!.
    + by eapply fe_eq; [exact Hfe|rewrite /= Z.mod_mod].
    + by apply (fe_init c224 P224 1).
    + destruct Hf as (v & Hv & Hvr & Hvc). exists v. split_and!; [done|lia..|]. rewrite Hvc. apply cong_eq. simpl. ring.
  - intros i [[[[d e] f1'] [[d0 e0] f0]] pow2i] Hi (_ & -> & Hs0 & Hs1). cbv beta iota.
    assert (state_room (d, e, f1')) as Hs by (destruct Hs1 as [[_ ?]|?]; [done|by eapply pow_at_room]).
    eapply post_bind; [by eapply rss_spec|]. intros [[d' e'] f'] Hs'. pose proof (pow_at_room _ _ Hs') as (Hd & He & Hf').
    destruct Hs' as (Hd' & He' & _). pose proof Hs0 as (Hd0 & He0 & Hf0). pose proof (pow_at_room _ _ Hs0) as (Hr0 & Hr1 & Hr2).
    eapply post_bind; [by eapply rm_spec|]. intros [[d2 e2] f2] H2. pose proof H2 as (Hd2 & He2 & v & Hf2 & Hv).
    set_step. set_step. eapply post_bind; [by apply uECC_vli_set_spec|]. intros f3 Hf3%upd_holds. cbn [post].
    replace (Z.to_nat (i + 1)) with (S (Z.to_nat i)) by lia. split_and!; [lia|by rewrite Nat.pow_succ_r' Nat.mul_comm|by split_and!; [..|exists v]|by right].
  - intros [[s1 s0] pow2i] (_ & _ & _ & [[? _]|Hs]); [done|]. change (pow_at (rp_exp 7) s1) in Hs. by rewrite rp_exp_7 in Hs.
Qed.

(** The first of the squarings after which the part without [w] is zero ends the loop. *)
Definition root_found (k : positive) (rounds : nat) : Prop :=
  ∃ j, 1 ≤ j ≤ rounds ∧ cong (ppow (double_times (S j) k)).1 0.

Lemma double_times_S j k : double_times j k~0 = double_times (S j) k.
Proof using. rewrite /double_times Nat.iter_succ_r //. Qed.

(** The last state: the first one whose square has no part without [w], or the one after all rounds. *)
Lemma sqrt_rounds_spec rounds s1 s0 k :
  pow_at k~0 s1 → pow_at k s0 →
  post (sqrt_rounds rounds s1 s0) (λ s, ∃ j, j ≤ rounds ∧ pow_at (double_times j k) s ∧
    (1 ≤ j ∧ cong (ppow (double_times (S j) k)).1 0 ∨ j = rounds ∧ ¬ root_found k rounds)).
Proof using.
  revert s1 s0 k. induction rounds as [|rounds IH]; intros [[d1 e1] f1] [[d0 e0] f0] k Hs1 Hs0.
  { exists 0. split_and!; [done|done|right]. split; [done|]. intros (j & Hj & _). lia. }
  cbn [sqrt_rounds]; cbv zeta. destruct (pow_at_room _ _ Hs0) as (Hr1 & Hr2 & Hr3).
  pose proof (pow_at_room _ _ Hs1) as Hr. destruct Hs1 as (Hd1 & He1 & v & Hf1 & Hv).
  set_step. set_step. eapply post_bind; [by apply uECC_vli_set_spec|]. intros f Hf%upd_holds.
  assert (pow_at k~0 (a, a0, f)) as Hs by (split_and!; [done|done|by exists v]).
  eapply post_bind; [by eapply rs_spec|]. intros [[d2 e2] f2] Hs2. pose proof Hs2 as (Hd2 & _).
  rewrite (uECC_vli_isZero_spec _ _ _ Hd2) {1}/mbind {1}/outcome_bind.
  destruct (Z.eqb_spec ((ppow k~0~0).1 mod P224) 0) as [H0|H0]; cbn [Z.b2z Z.eqb negb post].
  - exists 1. split_and!; [lia|done|left]. split; [done|]. unfold CurveGroup.cong. change (double_times 2 k) with (k~0~0)%positive. by rewrite H0.
  - eapply post_mono; [by apply (IH _ _ k~0%positive)|]. intros s (j & Hj & Hpow & Hend).
    rewrite !double_times_S in Hpow, Hend. exists (S j). split_and!; [lia|done|].
    destruct Hend as [[Hj1 Hz]|[-> Hnot]]; [left; split; [lia|done]|right]. split; [done|].
    intros (i & Hi & Hz). destruct (decide (i = 1)) as [->|Hne].
    + apply H0. by rewrite -(Z.mod_0_l P224).
    + apply Hnot. exists (i - 1). split; [lia|]. rewrite double_times_S. by replace (S (S (i - 1))) with (S i) by lia.
Qed.

(** What the function computes from the last power: its quotient, zero when there is none. *)
Lemma mod_sqrt_secp224r1_quotient (HP : Z.prime P224) a curve :
  fe a c →
  post (mod_sqrt_secp224r1 a curve) (λ r, ∃ j s, fe r s ∧
    (1 ≤ j ∧ cong (ppow (double_times (S j) K224)).1 0 ∨ j = 95 ∧ ¬ root_found K224 95) ∧
    let u := ppow (double_times j K224) in
    if decide (cong u.2 0) then s = 0%Z else cong (s * u.2) u.1).
Proof using.
  intros Ha. rewrite /mod_sqrt_secp224r1; cbv zeta.
  assert (room (local_vli 4)) as Hr by apply (local_room_n c224).
  eapply post_bind; [by apply rp_spec|]. intros [[d0 e0] f0] Hs0.
  eapply post_bind; [by eapply rs_spec|]. intros [[d1 e1] f1] Hs1. pose proof (pow_at_room _ _ Hs1) as (_ & _ & Hf1).
  eapply post_bind; [by eapply sqrt_rounds_spec|]. intros [[d e] f] (j & _ & (Hd & He & _) & Hend).
  eapply post_bind; [eapply uECC_vli_modInv_spec; [exact He|exact secp224r1_p_holds|by unfold uECC_MAX_WORDS; lia|exact Hf1|done|done]|].
  intros i (r & Hi%upd_holds & Hrr & Hinv). set (y := (ppow (double_times j K224)).2) in *.
  set (x := (ppow (double_times j K224)).1) in *.
  assert (fe i r) as Hir by (apply fe_exact; done).
  eapply post_mono; [eapply (fe_mult c224 P224); [exact Hd|exact Hir|by eapply fe_room]|]. intros q Hq.
  exists j, (x * r)%Z. split; [done|]. split; [done|]. cbv zeta. fold x y.
  destruct (Z.eqb_spec (y mod P224) 0) as [Hy|Hy].
  - rewrite decide_True; [|done]. subst r. lia.
  - rewrite decide_False; [|done]. rewrite (prime_gcd P224 HP) in Hinv; [|by rewrite cong_mod].
    assert (cong (r * y) 1) as Hry by (transitivity (r * (y mod P224))%Z; [by rewrite cong_mod|exact Hinv]).
    rewrite -Z.mul_assoc Hry. apply cong_eq. ring.
Qed.

Lemma mod_sqrt_secp224r1_root (HP : Z.prime P224) a curve :
  fe a c →
  post (mod_sqrt_secp224r1 a curve) (λ r, ∃ s, fe r s ∧ (root_found K224 95 → cong (s * s) c)).
Proof using.
  intros Ha. eapply post_mono; [by apply mod_sqrt_secp224r1_quotient|].
  intros r (j & s & Hs & Hend & Hq). exists s. split; [done|]. intros Hfound.
  destruct Hend as [[_ Hz]|[_ ?]]; [|done]. change (double_times (S j) K224) with (double_times j K224)~0%positive in Hz.
  set (k := double_times j K224) in *. cbv zeta in Hq. rewrite ppow_double pmul_fst in Hz.
  set (x := (ppow k).1) in *. set (y := (ppow k).2) in *.
  assert (cong (x * x) (c * (y * y))) as Hxy by by apply (proj2 (cong_sub_0 _ _ _)).
  destruct (decide (cong y 0)) as [Hy|Hy].
  - subst s. rewrite Z.mul_0_l. destruct (decide (cong c 0)) as [->|Hc]; [done|]. exfalso.
    apply (ppow_nonzero HP k Hc); [|done]. fold x. rewrite Hy !Z.mul_0_r in Hxy.
    by destruct (cong_mul_0 P224 HP x x Hxy).
  - apply (cong_cancel P224 HP (y * y)); [by apply (cong_mul_neq P224 HP)|].
    transitivity ((s * y) * (s * y))%Z; [apply cong_eq; ring|]. rewrite Hq Hxy. apply cong_eq. ring.
Qed.

(** A power without the part without [w] stays so in its odd multiples. *)
Lemma ppow_odd k m : cong (ppow k).1 0 → cong (ppow (k * m~1)).1 0.
Proof using.
  intros Hk. assert (∀ i, cong (ppow (k * i~0)).2 0) as Heven.
  { intros i. rewrite -Pos.add_diag Pos.mul_add_distr_l. induction i as [|i IH] using Pos.peano_ind.
    - rewrite !Pos.mul_1_r ppow_add pmul_snd Hk. apply cong_eq. ring.
    - rewrite -Pos.add_1_r Pos.mul_add_distr_l Pos.mul_1_r.
      replace (k * i + k + (k * i + k))%positive with ((k * i + k * i) + (k + k))%positive by lia.
      rewrite ppow_add pmul_snd IH (ppow_add k k) pmul_snd Hk. apply cong_eq. ring. }
  replace (k * m~1)%positive with (k + k * m~0)%positive by lia.
  by rewrite ppow_add pmul_fst Hk Heven Z.mul_0_l !Z.mul_0_r.
Qed.

(** A small power that finds the root. *)
Lemma root_found_early j : 1 ≤ j ≤ 95 → cong (ppow (double_times (S j) 1)).1 0 → root_found K224 95.
Proof using.
  intros Hj H0. exists j. split; [done|]. assert (∀ i k, double_times i k = (double_times i 1 * k)%positive) as Hmul.
  { intros i k. unfold double_times. induction i as [|i IH]; [done|]. simpl. by rewrite IH. }
  rewrite Hmul. by apply (ppow_odd _ (2 ^ 127 - 1)%positive).
Qed.
End root.

(** The root of 1 is not found: the power without the part without [w] is the second one, which the loop does not look
    at, and the result is 0. *)
Lemma mod_sqrt_secp224r1_one a curve :
  fe c224 P224 a 1 → post (mod_sqrt_secp224r1 a curve) (λ r, fe c224 P224 r 0).
Proof.
  intros Ha. eapply post_mono; [apply (mod_sqrt_secp224r1_quotient 1 prime_P224 a curve Ha)|].
  intros r (j & s & Hs & Hend & Hq). assert (∀ k, cong P224 (ppow 1 k~0~0).2 0 ∧ ¬ cong P224 (ppow 1 k~0~0).1 0) as H4.
  { intros k. induction k as [|k [IH1 IH2]] using Pos.peano_ind; [split; by vm_compute|].
    replace (Pos.succ k)~0~0%positive with (k~0~0 + 4)%positive by lia. rewrite ppow_add pmul_fst pmul_snd IH1. split.
    - rewrite Z.mul_0_l Z.add_0_r. replace (ppow 1 4).2 with 0%Z by by vm_compute. by rewrite Z.mul_0_r.
    - rewrite Z.mul_0_l Z.mul_0_r Z.sub_0_r. apply (cong_mul_neq P224 prime_P224); [done|by vm_compute]. }
  cbv zeta in Hq. revert Hend Hq. generalize K224 as K. intros K [[Hj Hz]|[-> _]] Hq.
  - exfalso. destruct j as [|j]; [lia|]. exact (proj2 (H4 (double_times j K)) Hz).
  - rewrite decide_True in Hq; [by rewrite Hq in Hs|]. exact (proj1 (H4 (double_times 93 K))).
Qed.

(** ** What the curves promise *)

Ltac bytes_curve := split; [by vm_compute|by apply Z.ltb_lt; vm_compute].

#[export] Instance secp160r1_bytes : CurveBytes curve_secp160r1 P160.
Proof. bytes_curve. Qed.
#[export] Instance secp192r1_bytes : CurveBytes curve_secp192r1 P192.
Proof. bytes_curve. Qed.
#[export] Instance secp224r1_bytes : CurveBytes curve_secp224r1 P224.
Proof. bytes_curve. Qed.
#[export] Instance secp256r1_bytes : CurveBytes curve_secp256r1 P256.
Proof. bytes_curve. Qed.

Lemma secp160r1_b_holds : holds 3 secp160r1_b B160.
Proof. holds_const. Qed.
Lemma secp192r1_b_holds : holds 3 secp192r1_b B192.
Proof. holds_const. Qed.
Lemma secp224r1_b_holds : holds 4 secp224r1_b B224.
Proof. holds_const. Qed.
Lemma secp256r1_b_holds : holds 4 secp256r1_b B256.
Proof. holds_const. Qed.

(** A constant that is a residue. *)
Lemma constant_fe (c : curve_field) P a x : (0 ≤ x < P)%Z → holds (num_words c) a x → fe c P a x.
Proof. intros. by apply fe_exact. Qed.

#[export] Instance secp160r1_ops : CurveOps curve_secp160r1 P160 (-3) B160.
Proof.
  apply default_ops; [apply secp160r1_field, prime_P160|apply prime_P160|done|done|].
  apply constant_fe; [by split; [apply Z.leb_le|apply Z.ltb_lt]; vm_compute|exact secp160r1_b_holds].
Qed.
#[export] Instance secp192r1_ops : CurveOps curve_secp192r1 P192 (-3) B192.
Proof.
  apply default_ops; [apply secp192r1_field|apply prime_P192|done|done|].
  apply constant_fe; [by split; [apply Z.leb_le|apply Z.ltb_lt]; vm_compute|exact secp192r1_b_holds].
Qed.
#[export] Instance secp224r1_ops : CurveOps curve_secp224r1 P224 (-3) B224.
Proof.
  apply default_ops; [apply secp224r1_field|apply prime_P224|done|done|].
  apply constant_fe; [by split; [apply Z.leb_le|apply Z.ltb_lt]; vm_compute|exact secp224r1_b_holds].
Qed.
#[export] Instance secp256r1_ops : CurveOps curve_secp256r1 P256 (-3) B256.
Proof.
  apply default_ops; [apply secp256r1_field|apply prime_P256|done|done|].
  apply constant_fe; [by split; [apply Z.leb_le|apply Z.ltb_lt]; vm_compute|exact secp256r1_b_holds].
Qed.

(** ** Curves whose points survive compression *)

(** The curve with its numbers, for a point with first coordinate [x]: the roots that
    [mod_sqrt_default] computes always exist, the search of secp224r1 has to find one. *)
Inductive decompressible (x : Z) : uECC_Curve → Z → Z → Z → Prop :=
  | on_secp160r1 : decompressible x uECC_secp160r1 P160 (-3) B160
  | on_secp192r1 : decompressible x uECC_secp192r1 P192 (-3) B192
  | on_secp224r1 : root_found (x ^ 3 + -3 * x + B224) K224 95 → decompressible x uECC_secp224r1 P224 (-3) B224
  | on_secp256r1 : decompressible x uECC_secp256r1 P256 (-3) B256.

Lemma decompressible_class x c P a b : decompressible x c P a b → CurveOps c P a b ∧ CurveBytes c P.
Proof. destruct 1; split; apply _. Qed.

Ltac default_root := apply default_finds_root; [apply co_field|apply co_prime|done|by vm_compute|by apply Z.ltb_lt; vm_compute].

Lemma decompressible_root x y c P a b :
  decompressible x c P a b → cong P (y ^ 2) (x ^ 3 + a * x + b) → finds_root c P (y * y).
Proof.
  destruct 1 as [| |Hfound|]; intros Hc; [default_root|default_root| |default_root].
  intros aa Haa. rewrite Z.pow_2_r in Hc.
  eapply post_mono; [apply (mod_sqrt_secp224r1_root (x ^ 3 + -3 * x + B224) prime_P224 aa)|].
  - by apply (fe_eq c224 P224 aa (y * y)).
  - intros r (s & Hs & Hroot). exists s. split; [done|]. by rewrite (Hroot Hfound) Hc.
Qed.

(** The generator of every curve satisfies its equation. *)
Lemma generators_valid :
  Forall (λ c : uECC_Curve, uECC_valid_point (curve_G c) c = Ok 1%Z)
    [curve_secp160r1; curve_secp192r1; curve_secp224r1; curve_secp256r1; curve_secp256k1].
Proof. by repeat constructor; vm_compute. Qed.
