(* ===== verification/Ecdh.v ===== *)
(** * Ecdh: the key exchange demo of src/ecdh.c

    Two parties make a key pair each with curve secp192r1, compute the shared secret from the
    other's public key, and the secrets are compared.  The two globals are the state; the lines
    that the demo logs, without the times, are its output.  A failure of the library is only
    logged. *)
From Stdlib Require Import Zmod.Zmod.
From stdpp Require Import base list numbers ssreflect.
From S2P Require Import Prelude Memory Outcome ByteBuffers Digits Vli VliMod VliBytes CurveField CurveGroup EccPoint Ladder PublicKey LadderTotal SmallCurve Uecc StandardCurves.

(** ** Operations *)

Notation ECC_KEY_LEN := 24.

Record ecdh_type := { pub_key : array Z; pri_key : array Z; secret : array Z }.

(** [memset(&key, 0, sizeof(key))]. *)
Definition zero_key : ecdh_type := {|
  pub_key := replicate (2 * ECC_KEY_LEN) (Some 0%Z);
  pri_key := replicate ECC_KEY_LEN (Some 0%Z);
  secret := replicate ECC_KEY_LEN (Some 0%Z)
|}.

Inductive ecdh_line :=
  | make_key1_failed | make_key2_failed | make_secret1_failed (* logged for both secrets *)
  | keys_differ | keys_agree | dumped (buffer : array Z).

Definition failed (ret : Z) (line : ecdh_line) : list ecdh_line := if (ret =? 0)%Z then [line] else [].

Definition ecdh_run (curve : uECC_Curve) (rng : option uECC_RNG_Function) (t : nat) :
    outcome (ecdh_type * ecdh_type * list ecdh_line * nat) :=
  let key1 := zero_key in
  let key2 := zero_key in
  '(ret, pub1, pri1, t) ← uECC_make_key rng t (pub_key key1) (pri_key key1) curve;
  let log1 := failed ret make_key1_failed in
  '(ret, pub2, pri2, t) ← uECC_make_key rng t (pub_key key2) (pri_key key2) curve;
  let log2 := failed ret make_key2_failed in
  '(ret, secret1, t) ← uECC_shared_secret rng t pub2 pri1 (secret key1) curve;
  let log3 := failed ret make_secret1_failed in
  '(ret, secret2, t) ← uECC_shared_secret rng t pub1 pri2 (secret key2) curve;
  let log4 := failed ret make_secret1_failed in
  c ← memcmp secret1 secret2 0 ECC_KEY_LEN;
  let log5 := if negb (c =? 0)%Z then [keys_differ] else [keys_agree; dumped secret1; dumped secret2] in
  Ok (Build_ecdh_type pub1 pri1 secret1, Build_ecdh_type pub2 pri2 secret2, log1 ++ log2 ++ log3 ++ log4 ++ log5, t).

(** The demo runs with the library's generator of random numbers, or the one that was set. *)
Definition ecdh_test (rng : option uECC_RNG_Function) (t : nat) := ecdh_run uECC_secp192r1 rng t.

(** ** Lemmas *)

(** A secret that was written over zeros. *)
Lemma secret_bytes nb s x j :
  nb ≤ ECC_KEY_LEN → upd_bytes nb (secret zero_key) x s → j < ECC_KEY_LEN →
  s !! j = Some (Some (if decide (j < nb) then byte_of x (nb - 1 - j) else 0%Z)).
Proof.
  intros Hnb (Hx & Hl & Hd) Hj. destruct (decide (j < nb)) as [Hlt|Hge]; [by apply Hx|].
  replace j with (nb + (j - nb)) by lia. rewrite -lookup_drop Hd lookup_drop. apply lookup_replicate_2. lia.
Qed.

(** A secret buffer after a call that may have failed: bytes that can be compared. *)
Lemma secret_readable nb s :
  nb ≤ ECC_KEY_LEN → (s = secret zero_key ∨ ∃ x, upd_bytes nb (secret zero_key) x s) →
  ∀ j, j < ECC_KEY_LEN → ∃ x, s !! j = Some (Some x).
Proof.
  intros Hnb [->|[x Hx]] j Hj; [eexists; by apply lookup_replicate_2|]. eexists. by rewrite (secret_bytes nb s x j Hnb Hx Hj).
Qed.

Section exchange.
Context (c : uECC_Curve) {E : Type} {P a b : Z} (N : Z).
Context `{!CurveOps c P a b} `{!EcGroup E P a b} `{!CurveOrder c N} `{!CurveBytes c P}.
Context (G : E) (HG : affine c (P := P) (curve_G c) G) (HGu : usable (P := P) N G).

(** What the run of the demo leaves once both key pairs are made. *)
Definition exchanged (pub1 pri1 pub2 pri2 : array Z) (r : ecdh_type * ecdh_type * list ecdh_line * nat) : Prop :=
  let '(key1, key2, log, _) := r in
  pub_key key1 = pub1 ∧ pri_key key1 = pri1 ∧ pub_key key2 = pub2 ∧ pri_key key2 = pri2 ∧
  (make_secret1_failed ∉ log → secret key1 = secret key2 ∧ log = [keys_agree; dumped (secret key1); dumped (secret key2)]).

Lemma ecdh_run_spec rng t pub1 pri1 t1 pub2 pri2 t2 :
  (∀ g, rng = Some g → RngOk g) → num_bytes c ≤ ECC_KEY_LEN → num_n_bytes c ≤ ECC_KEY_LEN →
  uECC_make_key rng t (pub_key zero_key) (pri_key zero_key) c = Ok (1%Z, pub1, pri1, t1) →
  uECC_make_key rng t1 (pub_key zero_key) (pri_key zero_key) c = Ok (1%Z, pub2, pri2, t2) →
  post (ecdh_run c rng t) (exchanged pub1 pri1 pub2 pri2).
Proof using All.
  intros Hrng HnB HnnB H1 H2. rewrite /ecdh_run; cbv zeta. rewrite H1 {1}/mbind {1}/outcome_bind H2 {1}/mbind {1}/outcome_bind.
  pose proof (uECC_make_key_spec c N G HG HGu rng t (pub_key zero_key) (pri_key zero_key) Hrng) as S1.
  pose proof (uECC_make_key_spec c N G HG HGu rng t1 (pub_key zero_key) (pri_key zero_key) Hrng) as S2.
  rewrite H1 in S1. rewrite H2 in S2.
  destruct S1 as [[? _]|(_ & _ & _ & v1 & K1)]; [simpl; lia|simpl; lia|done|].
  destruct S2 as [[? _]|(_ & _ & _ & v2 & K2)]; [simpl; lia|simpl; lia|done|].
  destruct K1 as (Hv1 & Hp1 & Hq1 & Hn1), K2 as (Hv2 & Hp2 & Hq2 & Hn2).
  pose proof HGu as [HG0 HGN].
  eapply post_bind.
  { eapply (uECC_shared_secret_spec c N rng t2 pub2 pri1 _ v1 (emul v2 G)); try done; [|lia].
    apply (emul_order_emul c N); [lia|done]. }
  intros [[ok1 s1] t3] R1. eapply post_bind.
  { eapply (uECC_shared_secret_spec c N rng t3 pub1 pri2 _ v2 (emul v1 G)); try done; [|lia].
    apply (emul_order_emul c N); [lia|done]. }
  intros [[ok2 s2] t4] R2. cbv beta iota.
  assert ((s1 = secret zero_key ∨ ∃ x, upd_bytes (num_bytes c) (secret zero_key) x s1) ∧
    (s2 = secret zero_key ∨ ∃ x, upd_bytes (num_bytes c) (secret zero_key) x s2)) as [B1 B2].
  { split; [destruct R1 as [(_ & _ & ?)|(_ & _ & ?)]|destruct R2 as [(_ & _ & ?)|(_ & _ & ?)]]; eauto. }
  assert (post (memcmp s1 s2 0 ECC_KEY_LEN) (λ _, True)) as (d & Hd & _)%post_elim.
  { apply (memcmp_defined s1 s2 0). intros j Hj. split; [apply (secret_readable _ s1 HnB B1)|apply (secret_readable _ s2 HnB B2)]; lia. }
  rewrite Hd {1}/mbind {1}/outcome_bind. split_and!; [done..|]. intros Hlog.
  assert (ok1 = 1%Z ∧ ok2 = 1%Z) as [-> ->].
  { split; [destruct R1 as [[-> _]|[? _]]|destruct R2 as [[-> _]|[? _]]]; try done; exfalso; apply Hlog; set_solver. }
  destruct R1 as [[? _]|(_ & _ & R1)]; [done|]. destruct R2 as [[? _]|(_ & _ & R2)]; [done|].
  rewrite emul_comm in R2; [|lia..].
  assert (∀ j, s1 !! j = s2 !! j) as Heq.
  { intros j. destruct (decide (j < ECC_KEY_LEN)) as [Hj|Hj].
    - exact (eq_trans (secret_bytes _ _ _ _ HnB R1 Hj) (eq_sym (secret_bytes _ _ _ _ HnB R2 Hj))).
    - rewrite !lookup_ge_None_2 //; [destruct R2 as (_ & -> & _)|destruct R1 as (_ & -> & _)]; simpl; lia. }
  assert (s1 = s2) as <- by by apply list_eq.
  assert (memcmp s1 s1 0 ECC_KEY_LEN = Ok 0%Z) as H0.
  { apply (memcmp_equal s1 s1 0). intros j Hj. pose proof (secret_bytes _ _ _ _ HnB R1 Hj). by eexists. }
  rewrite Hd in H0. injection H0 as ->. done.
Qed.
End exchange.

(** When the generator of random numbers fails, every call fails, both secrets
    stay zero, and the demo reports a success. *)
Lemma ecdh_test_all_failed :
  ecdh_test (Some (λ _ _, None)) 0 =
  Ok (zero_key, zero_key, [make_key1_failed; make_key2_failed; make_secret1_failed; make_secret1_failed;
    keys_agree; dumped (secret zero_key); dumped (secret zero_key)], 4).
Proof. by vm_compute. Qed.
