(* ===== verification/Hmac.v ===== *)
(** * Hmac: the keyed hash of lib/ecc/uECC.c

    [HMAC_init], [HMAC_update], [HMAC_finish] and [update_V].  The hash function is the
    caller's: three callbacks on a context, with [HashContext] as their contract.  The
    buffer [tmp] of the context is one array that holds the key [K], the value [V] and the pad one
    behind the other; [K] and the result of [HMAC_finish] may be the same bytes. *)
From stdpp Require Import base list numbers ssreflect.
From S2P Require Import Prelude Memory Outcome ByteBuffers VliBytes.

(** ** Operations *)

Record uECC_HashContext (H : Type) := {
  init_hash : H → H;
  update_hash : H → list Z → H;
  finish_hash : H → list Z * H;
  block_size : nat;
  result_size : nat
}.
Arguments init_hash {H}. Arguments update_hash {H}. Arguments finish_hash {H}.
Arguments block_size {H}. Arguments result_size {H}.

Section operations.
Context {H : Type} (hash_context : uECC_HashContext H).
Local Notation rs := (result_size hash_context).
Local Notation bs := (block_size hash_context).

(** The hash state and [tmp]. *)
Definition hash_state : Type := H * array Z.

(** [pad = K ^ x], filled up with [x]. *)
Definition make_pad (x : Z) (K : nat) (tmp : array Z) : outcome (array Z) :=
  let pad := Z.of_nat (2 * rs) in
  tmp ← ofor rs 0 (λ i tmp,
    k ← oget tmp (Z.of_nat K + i)%Z;
    oset tmp (pad + i)%Z (Z.lxor k x)) tmp;
  ofor (bs - rs) (Z.of_nat rs) (λ i tmp, oset tmp (pad + i)%Z x) tmp.

Definition hash_pad (s : hash_state) : outcome hash_state :=
  let '(h, tmp) := s in
  pad ← load_bytes tmp (2 * rs) bs;
  Ok (update_hash hash_context h pad, tmp).

Definition HMAC_init (s : hash_state) (K : nat) : outcome hash_state :=
  let '(h, tmp) := s in
  tmp ← make_pad 0x36 K tmp;
  hash_pad (init_hash hash_context h, tmp).

Definition HMAC_update (s : hash_state) (message : list Z) : hash_state :=
  (update_hash hash_context s.1 message, s.2).

Definition HMAC_finish (s : hash_state) (K result : nat) : outcome hash_state :=
  let '(h, tmp) := s in
  tmp ← make_pad 0x5c K tmp;
  let '(digest, h) := finish_hash hash_context h in
  tmp ← put_bytes tmp result digest;
  '(h, tmp) ← hash_pad (init_hash hash_context h, tmp);
  inner ← load_bytes tmp result rs;
  let '(digest, h) := finish_hash hash_context (update_hash hash_context h inner) in
  tmp ← put_bytes tmp result digest;
  Ok (h, tmp).

Definition update_V (s : hash_state) (K V : nat) : outcome hash_state :=
  s ← HMAC_init s K;
  v ← load_bytes s.2 V rs;
  HMAC_finish (HMAC_update s v) K V.
End operations.

(** ** The caller's hash function *)

(** [absorbed h m]: the context [h] has been initialised and given the bytes [m]. *)
Class HashContext {H : Type} (hash_context : uECC_HashContext H) (hash : list Z → list Z) := {
  absorbed : H → list Z → Prop;
  init_absorbed h : absorbed (init_hash hash_context h) [];
  update_absorbed h m x : absorbed h m → absorbed (update_hash hash_context h x) (m ++ x);
  finish_absorbed h m : absorbed h m → (finish_hash hash_context h).1 = hash m;
  hash_length m : length (hash m) = result_size hash_context;
  hash_bytes m : Forall byte (hash m);
  hash_sizes : 0 < result_size hash_context ≤ block_size hash_context
}.

(** RFC 2104, with a key of the size of a result. *)
Definition pad_key (bs : nat) (x : Z) (K : list Z) : list Z := ((λ k, Z.lxor k x) <$> K) ++ replicate (bs - length K) x.
Definition hmac (bs : nat) (hash : list Z → list Z) (K m : list Z) : list Z :=
  hash (pad_key bs 0x5c K ++ hash (pad_key bs 0x36 K ++ m)).

(** ** The functions *)

Section hmac.
Context {H : Type} (ctx : uECC_HashContext H) (hash : list Z → list Z) `{!HashContext ctx hash}.
Local Notation rs := (result_size ctx).
Local Notation bs := (block_size ctx).
Local Notation hmac := (hmac bs hash).
Local Notation pad_key := (pad_key bs).


(** [tmp] holds [K] and [V], and has room for the pad. *)
Definition layout (tmp : array Z) (K V : list Z) : Prop :=
  2 * rs + bs ≤ length tmp ∧ length K = rs ∧ length V = rs ∧ bytes_at 0 K tmp ∧ bytes_at rs V tmp.

(** The part before the pad is the same. *)
Definition same_front (a b : array Z) : Prop := length b = length a ∧ ∀ i, i < 2 * rs → b !! i = a !! i.

Lemma same_front_layout a b K V : same_front a b → layout a K V → layout b K V.
Proof using.
  intros [Hl Hf] (Hr & HK & HV & H1 & H2). split_and!; [lia|done|done|..]; intros i x Hi;
    (rewrite Hf; [auto|]); apply lookup_lt_Some in Hi; lia.
Qed.

Lemma make_pad_spec x K tmp k :
  bytes_at k K tmp → length K = rs → k + rs ≤ 2 * rs → 2 * rs + bs ≤ length tmp →
  post (make_pad ctx x k tmp) (λ r, same_front tmp r ∧ bytes_at (2 * rs) (pad_key x K) r).
Proof using All.
  intros HK HlK Hk Hl. pose proof (hash_sizes (hash_context := ctx) (hash := hash)) as [Hrs Hbs]. rewrite /make_pad; cbv zeta.
  eapply post_bind with (Ψ := λ r, same_front tmp r ∧ ∀ i y, i < rs → K !! i = Some y → r !! (2 * rs + i) = Some (Some (Z.lxor y x))).
  { apply post_ofor with (I := λ j r, (0 ≤ j)%Z ∧ same_front tmp r ∧
      ∀ i y, i < Z.to_nat j → K !! i = Some y → r !! (2 * rs + i) = Some (Some (Z.lxor y x))).
    - split_and!; [done|by split|]. intros i y Hi. simpl in Hi. lia.
    - intros j r Hj (_ & [Hlr Hf] & Hr). cbv beta.
      destruct (lookup_lt_is_Some_2 K (Z.to_nat j) ltac:(lia)) as [y Hy].
      eapply post_bind; [eapply post_oget; [lia| |exact (eq_refl _)]|].
      { replace (Z.to_nat (Z.of_nat k + j)) with (k + Z.to_nat j) by lia. rewrite Hf; [by apply HK|lia]. }
      intros ? <-. apply post_oset; [lia|]. replace (Z.to_nat (Z.of_nat (2 * rs) + j)) with (2 * rs + Z.to_nat j) by lia.
      split_and!; [lia| |].
      + split; [by rewrite length_insert|]. intros i Hi. rewrite list_lookup_insert_ne; [by apply Hf|lia].
      + intros i z Hi Hz. destruct (decide (i = Z.to_nat j)) as [->|].
        * rewrite list_lookup_insert_eq; [|lia]. by simplify_eq.
        * rewrite list_lookup_insert_ne; [|lia]. apply Hr; [lia|done].
    - intros r (_ & Hf & Hr). split; [done|]. intros i y Hi. apply Hr. lia. }
  intros r [Hf Hr]. apply post_ofor with (I := λ j r', (Z.of_nat rs ≤ j)%Z ∧ same_front tmp r' ∧
    ∀ i y, i < Z.to_nat j → pad_key x K !! i = Some y → r' !! (2 * rs + i) = Some (Some y)).
  - split_and!; [lia|done|]. intros i y Hi. rewrite Nat2Z.id in Hi. rewrite lookup_app_l ?length_fmap; [|lia].
    rewrite list_lookup_fmap. destruct (K !! i) as [z|] eqn:Hz; [|done]. intros [= <-]. by apply Hr.
  - intros j r' Hj (_ & [Hlr Hf'] & Hr'). apply post_oset; [lia|].
    replace (Z.to_nat (Z.of_nat (2 * rs) + j)) with (2 * rs + Z.to_nat j) by lia. split_and!; [lia| |].
    + split; [by rewrite length_insert|]. intros i Hi. rewrite list_lookup_insert_ne; [by apply Hf'|lia].
    + intros i z Hi Hz. destruct (decide (i = Z.to_nat j)) as [->|].
      * rewrite list_lookup_insert_eq; [|lia]. rewrite lookup_app_r ?length_fmap in Hz; [|lia].
        apply lookup_replicate in Hz as [-> _]. done.
      * rewrite list_lookup_insert_ne; [|lia]. apply Hr'; [lia|done].
  - intros r' (_ & Hf' & Hr'). split; [done|]. intros i y Hy. apply Hr'; [|done].
    apply lookup_lt_Some in Hy. rewrite length_app length_fmap length_replicate in Hy. lia.
Qed.

Lemma pad_key_length x K : length K = rs → length (pad_key x K) = bs.
Proof using All. pose proof (hash_sizes (hash_context := ctx) (hash := hash)). rewrite length_app length_fmap length_replicate. lia. Qed.

Lemma hash_pad_spec h tmp m l :
  absorbed h m → bytes_at (2 * rs) l tmp → length l = bs →
  post (hash_pad ctx (h, tmp)) (λ '(h', tmp'), absorbed h' (m ++ l) ∧ tmp' = tmp).
Proof using All.
  intros Hh Hl Hll. rewrite /hash_pad (load_bytes_spec _ _ _ _ Hl Hll). split; [|done]. by apply update_absorbed.
Qed.

Lemma HMAC_init_spec h tmp K V :
  layout tmp K V →
  post (HMAC_init ctx (h, tmp) 0) (λ '(h', tmp'), absorbed h' (pad_key 0x36 K) ∧ layout tmp' K V).
Proof using All.
  intros HL. pose proof HL as (Hr & HK & HV & H1 & H2). rewrite /HMAC_init.
  eapply post_bind; [by apply (make_pad_spec _ K); [..|lia|lia]|]. intros tmp' [Hf Hp].
  eapply post_mono; [eapply hash_pad_spec; [apply init_absorbed|exact Hp|by apply pad_key_length]|].
  intros [h' t] [Ha ->]. split; [done|by eapply same_front_layout].
Qed.

(** What an update of the context leaves of its buffer. *)
Lemma HMAC_update_spec s m x : absorbed s.1 m → absorbed (HMAC_update ctx s x).1 (m ++ x) ∧ (HMAC_update ctx s x).2 = s.2.
Proof using. intros Hs. split; [by apply update_absorbed|done]. Qed.

(** The result takes the place of [K] or of [V]. *)
Definition stored (res : nat) (tmp : array Z) (K V l : list Z) : Prop :=
  res = 0 ∧ layout tmp l V ∨ res = rs ∧ layout tmp K l.

Lemma put_result tmp K V res l l0 :
  stored res tmp K V l0 → length l = rs → post (put_bytes tmp res l) (λ r, stored res r K V l).
Proof using All.
  intros HL Hl. pose proof (hash_sizes (hash_context := ctx) (hash := hash)) as [Hrs _].
  assert (res ≤ rs ∧ 2 * rs + bs ≤ length tmp) as [Hres Hroom].
  { destruct HL as [[-> HL]|[-> HL]]; destruct HL; lia. }
  eapply post_mono; [apply put_bytes_spec; lia|]. intros r (Hlr & Hb & Hrest).
  destruct HL as [[-> (_ & _ & HV & _ & H2)]|[-> (_ & HK & _ & H1 & _)]]; [left|right]; (split; [done|]);
    split_and!; try done; try lia; intros i x Hi; rewrite Hrest; auto; apply lookup_lt_Some in Hi; lia.
Qed.

Lemma stored_bytes res tmp K V l : stored res tmp K V l → bytes_at res l tmp ∧ length l = rs.
Proof using. intros [[-> (_ & ? & _ & ? & _)]|[-> (_ & _ & ? & _ & ?)]]; done. Qed.

Lemma stored_front res a b K V l : same_front a b → stored res a K V l → stored res b K V l.
Proof using. intros Hf [[-> HL]|[-> HL]]; [left|right]; (split; [done|]); by eapply same_front_layout. Qed.

Lemma HMAC_finish_spec h tmp K V res m :
  layout tmp K V → res = 0 ∨ res = rs → absorbed h (pad_key 0x36 K ++ m) →
  post (HMAC_finish ctx (h, tmp) 0 res) (λ '(_, tmp'), stored res tmp' K V (hmac K m)).
Proof using All.
  intros HL Hres Hh. pose proof HL as (Hr & HK & HV & H1 & H2). rewrite /HMAC_finish.
  pose proof (pad_key_length 0x5c K HK) as Hlp.
  eapply post_bind; [by apply (make_pad_spec _ K); [..|lia|lia]|]. intros tmp1 [Hf1 Hp1].
  pose proof (finish_absorbed h _ Hh) as Hd. destruct (finish_hash ctx h) as [d h1]. simpl in Hd. subst d.
  set (inner := hash (pad_key 0x36 K ++ m)). pose proof (hash_length (hash_context := ctx) (pad_key 0x36 K ++ m)) as Hin.
  fold inner in Hin. assert (∃ l0, stored res tmp1 K V l0) as [l0 Hs0].
  { pose proof (same_front_layout _ _ _ _ Hf1 HL). destruct Hres as [->| ->]; [exists K; by left|exists V; by right]. }
  (* the pad survives the first result *)
  eapply post_bind with (Ψ := λ r, stored res r K V inner ∧ bytes_at (2 * rs) (pad_key 0x5c K) r).
  { pose proof (put_result tmp1 K V res inner l0 Hs0 Hin) as Hput.
    pose proof (put_bytes_spec tmp1 res inner) as Hkeep. destruct (put_bytes tmp1 res inner) as [r|]; [|done].
    split; [exact Hput|]. destruct Hf1 as [Hl1 _]. destruct Hkeep as (_ & _ & Hrest); [rewrite Hin; lia|].
    intros i x Hi. rewrite Hrest; [by apply Hp1|lia]. }
  intros tmp2 [Hs2 Hp2].
  eapply post_bind; [eapply hash_pad_spec; [apply init_absorbed|exact Hp2|done]|]. intros [h2 t2] [Hh2 ->].
  destruct (stored_bytes _ _ _ _ _ Hs2) as [Hb2 _]. rewrite (load_bytes_spec _ _ _ _ Hb2 Hin) {1}/mbind {1}/outcome_bind.
  pose proof (update_absorbed h2 _ inner Hh2) as Hh3. pose proof (finish_absorbed _ _ Hh3) as Hd.
  destruct (finish_hash ctx (update_hash ctx h2 inner)) as [d h3]. simpl in Hd. subst d.
  eapply post_bind; [eapply put_result; [exact Hs2|apply hash_length]|]. by intros tmp3 Hs3.
Qed.

(** [V = HMAC_K(V)]. *)
Lemma update_V_spec h tmp K V :
  layout tmp K V → post (update_V ctx (h, tmp) 0 rs) (λ '(_, tmp'), layout tmp' K (hmac K V)).
Proof using All.
  intros HL. rewrite /update_V. eapply post_bind; [by apply HMAC_init_spec|]. intros [h1 tmp1] [Hh1 HL1].
  pose proof HL1 as (_ & _ & HV & _ & Hb). rewrite /= (load_bytes_spec _ _ _ _ Hb HV) {1}/mbind {1}/outcome_bind.
  eapply post_mono; [eapply HMAC_finish_spec; [exact HL1|by right|by apply update_absorbed]|].
  intros [h2 tmp2] [[Hrs _]|[_ ?]]; [|done]. pose proof (hash_sizes (hash_context := ctx) (hash := hash)). lia.
Qed.
End hmac.
