(* ===== verification/Deterministic.v ===== *)
(** * Deterministic: signatures without a random nonce

    [uECC_sign_deterministic] of lib/ecc/uECC.c draws its nonces from a stream of keyed
    hashes, seeded with the private key and the hash of the message, similar to
    RFC 6979.  The stream is defined here on its own, and every nonce of the
    function is the one of the stream. *)
From Stdlib Require Import Zmod.Zmod.
From stdpp Require Import base list numbers ssreflect.
From S2P Require Import Prelude Memory Outcome ByteBuffers Digits Vli VliMod VliBytes CurveField CurveGroup EccPoint Ladder PublicKey LadderTotal Uecc Ecdsa Hmac.

(** ** Operations *)

Section operations.
Context {H : Type} (hash_context : uECC_HashContext H).
Local Notation rs := (result_size hash_context).

(** [V[result_size] = marker], then [K = HMAC_K(V || marker || messages)]; the marker lies where the pad
    begins. *)
Definition update_K (s : hash_state) (marker : Z) (messages : list (list Z)) : outcome hash_state :=
  '(h, tmp) ← HMAC_init hash_context s 0;
  tmp ← oset tmp (Z.of_nat (rs + rs)) marker;
  v ← load_bytes tmp rs (rs + 1);
  HMAC_finish hash_context (foldl (HMAC_update hash_context) (HMAC_update hash_context (h, tmp) v) messages) 0 0.

(** [T_ptr[T_bytes++] = V[i]] until [T] is full. *)
Fixpoint copy_T (v T : list Z) (size : nat) : list Z * bool :=
  match v with
  | [] => (T, false)
  | x :: v => let T := T ++ [x] in if size <=? length T then (T, true) else copy_T v T size
  end.

(** [for (;;)]: one value [V] a round. *)
Fixpoint fill_T (fuel : nat) (s : hash_state) (T : list Z) (size : nat) : outcome (list Z * hash_state) :=
  match fuel with
  | O => Err OutOfFuel
  | S fuel =>
      s ← update_V hash_context s 0 rs;
      v ← load_bytes s.2 rs rs;
      let '(T, filled) := copy_T v T size in
      if (filled : bool) then Ok (T, s) else fill_T fuel s T size
  end.

(** The number [T], its highest word cut to the bits of the order. *)
Definition mask_T (bytes : list Z) (curve : curve_field) : outcome (array Z) :=
  let nw := num_n_words curve in
  let spare := (Z.of_nat nw * 8 * 8 - num_n_bits curve)%Z in
  T ← store_bytes (local_vli uECC_MAX_WORDS) bytes;
  if (0 <? spare)%Z then
    w ← oget T (Z.of_nat nw - 1)%Z;
    oset T (Z.of_nat nw - 1)%Z (Z.land w (Z.shiftr (ULONG_MOD - 1) spare))
  else Ok T.

Fixpoint deterministic_tries (tries : nat) (rng : option uECC_RNG_Function) (t : nat) (s : hash_state)
    (private_key message_hash : array Z) (hash_size : nat) (signature : array Z) (curve : uECC_Curve) :
    outcome (Z * array Z * nat) :=
  match tries with
  | O => Ok (0%Z, signature, t)
  | S tries =>
      let size := num_n_words curve * 8 in
      '(bytes, s) ← fill_T size s [] size;
      T ← mask_T bytes curve;
      '(ok, _, signature, t) ← uECC_sign_with_k rng t private_key message_hash hash_size T signature curve;
      if negb (ok =? 0)%Z then Ok (1%Z, signature, t)
      else
        s ← update_K s 0x00 [];
        s ← update_V hash_context s 0 rs;
        deterministic_tries tries rng t s private_key message_hash hash_size signature curve
  end.

(** [V] is filled with ones and [K] with zeros. *)
Definition fill_KV (tmp : array Z) : outcome (array Z) :=
  ofor rs 0 (λ i tmp, tmp ← oset tmp (Z.of_nat rs + i)%Z 1%Z; oset tmp i 0%Z) tmp.

Definition uECC_sign_deterministic (rng : option uECC_RNG_Function) (t : nat) (private_key message_hash : array Z)
    (hash_size : nat) (h : H) (tmp : array Z) (signature : array Z) (curve : uECC_Curve) :
    outcome (Z * array Z * nat) :=
  tmp ← fill_KV tmp;
  key ← load_bytes private_key 0 (num_bytes curve);
  message ← load_bytes message_hash 0 hash_size;
  s ← update_K (h, tmp) 0x00 [key; message];
  s ← update_V hash_context s 0 rs;
  s ← update_K s 0x01 [key; message];
  s ← update_V hash_context s 0 rs;
  deterministic_tries uECC_RNG_MAX_TRIES rng t s private_key message_hash hash_size signature curve.
End operations.

(** ** The stream of nonces *)

Section stream.
Context (bs rs : nat) (hash : list Z → list Z).
Local Notation hmac := (hmac bs hash).

(** The key and the value, and what one step makes of them. *)
Definition drbg : Type := list Z * list Z.
Definition drbg_update (s : drbg) (marker : Z) (message : list Z) : drbg :=
  let K := hmac s.1 (s.2 ++ [marker] ++ message) in (K, hmac K s.2).
Definition drbg_seed (message : list Z) : drbg :=
  drbg_update (drbg_update (replicate rs 0%Z, replicate rs 1%Z) 0 message) 1 message.

(** [rounds] values, the last one and all of them. *)
Fixpoint drbg_output (rounds : nat) (s : drbg) : drbg * list Z :=
  match rounds with
  | O => (s, [])
  | S rounds =>
      let s := (s.1, hmac s.1 s.2) in
      let '(s', out) := drbg_output rounds s in (s', s.2 ++ out)
  end.

(** The values that [size] bytes take. *)
Definition drbg_rounds (size : nat) : nat := (size + (rs - 1)) / rs.
Definition drbg_bytes (size : nat) (s : drbg) : list Z := take size (drbg_output (drbg_rounds size) s).2.
Definition drbg_next (size : nat) (s : drbg) : drbg := drbg_update (drbg_output (drbg_rounds size) s).1 0 [].

(** The [j]-th nonce for an order of [nb] bits. *)
Definition drbg_nonce (size : nat) (nb : Z) (seed : drbg) (j : nat) : Z :=
  (le_bytes (drbg_bytes size (Nat.iter j (drbg_next size) seed)) mod 2 ^ nb)%Z.
End stream.

(** ** The stream is what the function computes *)

Section drbg.
Context {H : Type} (ctx : uECC_HashContext H) (hash : list Z → list Z) `{!HashContext ctx hash}.
Local Notation rs := (result_size ctx).
Local Notation bs := (block_size ctx).
Local Notation layout := (layout ctx).
Local Notation hmac := (hmac bs hash).

(** The buffer holds a state of the stream. *)
Definition at_state (tmp : array Z) (s : drbg) : Prop := layout tmp s.1 s.2.

Lemma foldl_update messages s m :
  absorbed s.1 m → absorbed (foldl (HMAC_update ctx) s messages).1 (m ++ concat messages) ∧
    (foldl (HMAC_update ctx) s messages).2 = s.2.
Proof using.
  revert s m. induction messages as [|x messages IH]; intros s m Hs; simpl; [by rewrite app_nil_r|].
  rewrite app_assoc. apply (IH (HMAC_update ctx s x)). by apply update_absorbed.
Qed.

Lemma update_K_spec h tmp K V marker messages :
  layout tmp K V →
  post (update_K ctx (h, tmp) marker messages) (λ '(_, tmp'), layout tmp' (hmac K (V ++ [marker] ++ concat messages)) V).
Proof using All.
  intros HL. pose proof (hash_sizes (hash_context := ctx) (hash := hash)) as [Hrs Hbs]. rewrite /update_K.
  eapply post_bind; [by eapply HMAC_init_spec|]. intros [h1 tmp1] [Hh1 HL1].
  eapply post_bind; [apply post_oset; [destruct HL1; lia|exact (eq_refl _)]|]. intros tmp2 <-. rewrite Nat2Z.id.
  set (tmp2 := <[rs + rs:=Some marker]> tmp1).
  assert (same_front ctx tmp1 tmp2) as Hf.
  { split; [by rewrite length_insert|]. intros i Hi. rewrite list_lookup_insert_ne //. lia. }
  pose proof (same_front_layout _ _ _ _ _ Hf HL1) as HL2. pose proof HL2 as (Hr & HK & HV & _ & Hb).
  assert (bytes_at rs (V ++ [marker]) tmp2) as Hb'.
  { intros i x Hx. destruct (decide (i < rs)) as [Hi|Hi].
    - apply Hb. by rewrite lookup_app_l in Hx; [|lia].
    - rewrite lookup_app_r in Hx; [|lia]. apply list_lookup_singleton_Some in Hx as [Hi0 ->].
      replace (rs + i) with (rs + rs) by lia. apply list_lookup_insert_eq. destruct HL1. lia. }
  rewrite (load_bytes_spec _ _ _ _ Hb') ?length_app /=; [|lia].
  pose proof (foldl_update messages (HMAC_update ctx (h1, tmp2) (V ++ [marker])) (pad_key bs 0x36 K ++ V ++ [marker])) as Hfold.
  destruct Hfold as [Ha Heq]; [by apply update_absorbed|].
  destruct (foldl _ _ _) as [h3 tmp3]. simpl in Ha, Heq. subst tmp3.
  eapply post_mono; [eapply (HMAC_finish_spec ctx hash h3 tmp2 K V 0 (V ++ [marker] ++ concat messages)); [done|by left|]|].
  - by rewrite -(app_assoc (pad_key bs 0x36 K)) -(app_assoc V) in Ha.
  - intros [h4 tmp4] [[_ ?]|[? _]]; [done|lia].
Qed.

(** One step of the stream. *)
Lemma drbg_step {B} h tmp s marker messages (k : hash_state → outcome B) Φ :
  at_state tmp s →
  (∀ h' tmp', at_state tmp' (drbg_update bs hash s marker (concat messages)) → post (k (h', tmp')) Φ) →
  post (s' ← update_K ctx (h, tmp) marker messages; s' ← update_V ctx s' 0 rs; k s') Φ.
Proof using All.
  intros HL Hk. eapply post_bind; [by apply update_K_spec|]. intros [h1 tmp1] HL1.
  eapply post_bind; [by eapply update_V_spec|]. intros [h2 tmp2] HL2. by apply Hk.
Qed.

Lemma copy_T_spec v T size :
  length T < size →
  copy_T v T size =
  if decide (size - length T ≤ length v) then (T ++ take (size - length T) v, true) else (T ++ v, false).
Proof using.
  revert T. induction v as [|x v IH]; intros T HT; cbn [copy_T]; cbv zeta.
  { rewrite decide_False; [by rewrite app_nil_r|simpl; lia]. }
  rewrite length_app /=. destruct (Nat.leb_spec size (length T + 1)).
  - rewrite decide_True; [|lia]. by replace (size - length T) with 1 by lia.
  - rewrite IH length_app /=; [|lia]. replace (size - length T) with (S (size - (length T + 1))) by lia.
    destruct (decide _), (decide _); try lia; by rewrite -app_assoc.
Qed.

Lemma drbg_rounds_S size : rs < size → drbg_rounds rs size = S (drbg_rounds rs (size - rs)).
Proof using All.
  intros Hs. pose proof (hash_sizes (hash_context := ctx) (hash := hash)). rewrite /drbg_rounds.
  replace (size + (rs - 1)) with (size - rs + (rs - 1) + 1 * rs) by lia. rewrite Nat.div_add; lia.
Qed.

Lemma drbg_rounds_1 size : 0 < size ≤ rs → drbg_rounds rs size = 1.
Proof using All. intros Hs. rewrite /drbg_rounds. symmetry. apply Nat.div_unique with (size - 1); lia. Qed.

Lemma fill_T_spec fuel h tmp s T size :
  at_state tmp s → length T < size → size - length T ≤ fuel →
  let '(s', out) := drbg_output bs hash (drbg_rounds rs (size - length T)) s in
  post (fill_T ctx fuel (h, tmp) T size)
    (λ '(bytes, (_, tmp')), bytes = T ++ take (size - length T) out ∧ at_state tmp' s').
Proof using All.
  pose proof (hash_sizes (hash_context := ctx) (hash := hash)) as [Hrs _].
  revert h tmp s T. induction fuel as [|fuel IH]; intros h tmp s T HL HT Hfuel; [lia|]. cbn [fill_T].
  pose proof (update_V_spec ctx hash h tmp s.1 s.2 HL) as HV. destruct (update_V ctx (h, tmp) 0 rs) as [[h1 tmp1]|]; [|done].
  cbn [post] in HV. rewrite {1}/mbind {1}/outcome_bind. set (v := hmac s.1 s.2) in *.
  pose proof HV as (_ & _ & Hlv & _ & Hb). cbn [snd]. rewrite (load_bytes_spec _ _ _ _ Hb Hlv) {1}/mbind {1}/outcome_bind copy_T_spec // Hlv.
  destruct (decide (size - length T ≤ rs)) as [Hle|Hgt].
  - rewrite drbg_rounds_1; [|lia]. cbn [drbg_output]. cbn. fold v. by rewrite app_nil_r.
  - rewrite drbg_rounds_S; [|lia]. cbn [drbg_output]. fold v.
    pose proof (IH h1 tmp1 (s.1, v) (T ++ v) HV) as IH'. rewrite length_app Hlv in IH'.
    replace (size - length T - rs) with (size - (length T + rs)) by lia.
    destruct (drbg_output bs hash (drbg_rounds rs (size - (length T + rs))) (s.1, v)) as [s' out].
    eapply post_mono; [apply IH'; lia|]. intros [bytes [h2 tmp2]] [-> HL2]. split; [|done].
    rewrite -app_assoc. f_equal. rewrite take_app Hlv. simpl. f_equal; [by rewrite take_ge; [|lia]|]. f_equal. lia.
Qed.
End drbg.

(** ** The nonces *)

Section nonce.
Context (c : uECC_Curve) {E : Type} {P a b : Z} (N : Z).
Context `{!CurveOps c P a b} `{!EcGroup E P a b} `{!CurveOrder c N} `{!CurveBytes c P} `{!CurveWidth c P N}.
Context (G : E) (HG : affine c (P := P) (curve_G c) G) (HGu : usable (P := P) N G).
Context {H : Type} (ctx : uECC_HashContext H) (hash : list Z → list Z) `{!HashContext ctx hash}.
Local Notation rs := (result_size ctx).
Local Notation bs := (block_size ctx).
Local Notation nB := (num_bytes c).
Local Notation nw := (num_n_words c).
Local Notation nnB := (num_n_bytes c).
Local Notation nb := (num_n_bits c).
Local Notation nonce := (drbg_nonce bs rs hash (nw * 8) nb).
Local Notation next := (drbg_next bs rs hash (nw * 8)).

Lemma spare_bits : (64 * (Z.of_nat nw - 1) < nb ≤ 64 * Z.of_nat nw)%Z.
Proof using All.
  pose proof (order_bits_pos c N) as [[Hb1 Hb2] Hb3]. split; [|done]. unfold BITS_TO_WORDS in *.
  pose proof (Z.div_mod (nb + 63) 64 ltac:(done)). pose proof (Z.mod_pos_bound (nb + 63) 64 ltac:(done)). lia.
Qed.

(** The lowest [k] bits of a number, of which the highest word is cut. *)
Lemma cut_top x n k :
  0 < n → (0 ≤ x < pw n)%Z → (0 ≤ k ≤ 64)%Z →
  (x mod pw (n - 1) + pw (n - 1) * (dig x (n - 1) mod 2 ^ k) = x mod 2 ^ (64 * (Z.of_nat n - 1) + k))%Z.
Proof using.
  intros Hn Hx Hk. pose proof (pw_pos (n - 1)) as Hp.
  assert (dig x (n - 1) = x / pw (n - 1))%Z as ->.
  { rewrite /dig Z.mod_small //. split; [apply Z.div_pos; lia|]. apply Z.div_lt_upper_bound; [done|].
    rewrite -pw_S. replace (S (n - 1)) with n by lia. lia. }
  rewrite pw_2. replace (Z.of_nat (n - 1)) with (Z.of_nat n - 1)%Z by lia.
  rewrite Z.pow_add_r; [|lia..]. rewrite Z.rem_mul_r //; [apply Z.pow_nonzero; lia|apply Z.pow_pos_nonneg; lia].
Qed.

Lemma mask_T_spec bytes :
  Forall byte bytes → length bytes = nw * 8 →
  post (mask_T bytes c) (λ r, holds nw r (le_bytes bytes mod 2 ^ nb)%Z).
Proof using All.
  intros Hbytes Hl. pose proof (order_words (c := c)) as Hw. pose proof spare_bits as Hsp. rewrite /mask_T; cbv zeta.
  eapply post_bind; [apply (store_bytes_spec nw); [done|lia|rewrite length_replicate; lia]|]. intros T HT.
  pose proof (le_bytes_range bytes Hbytes) as Hr. rewrite Hl Nat.mul_comm pb_pw in Hr.
  pose proof (upd_length _ _ _ _ HT) as HlT. rewrite length_replicate in HlT. apply upd_holds in HT.
  destruct (Z.ltb_spec 0 (Z.of_nat nw * 8 * 8 - nb)) as [Hs|Hs].
  - eapply post_bind; [eapply post_dig; [exact HT|lia|exact (eq_refl _)]|]. intros w <-.
    apply post_oset; [lia|]. replace (Z.to_nat (Z.of_nat nw - 1)) with (nw - 1) by lia.
    set (k := (64 - (Z.of_nat nw * 8 * 8 - nb))%Z). assert (0 < k < 64)%Z as Hk by lia.
    assert (Z.land (dig (le_bytes bytes) (nw - 1)) (Z.shiftr (ULONG_MOD - 1) (Z.of_nat nw * 8 * 8 - nb)) =
      dig (le_bytes bytes) (nw - 1) mod 2 ^ k)%Z as ->.
    { change (ULONG_MOD - 1)%Z with (Z.ones 64). replace (Z.of_nat nw * 8 * 8 - nb)%Z with (64 - k)%Z by lia.
      rewrite Z.shiftr_div_pow2; [|lia]. rewrite Z.ones_div_pow2; [|lia]. replace (64 - (64 - k))%Z with k by lia. apply Z.land_ones. lia. }
    pose proof (holds_top nw T _ (dig (le_bytes bytes) (nw - 1) mod 2 ^ k)%Z ltac:(lia) HT) as Htop.
    rewrite cut_top in Htop; [|lia|done|lia]. replace (64 * (Z.of_nat nw - 1) + k)%Z with nb in Htop by lia.
    eapply upd_holds, Htop. pose proof (Z.mod_pos_bound (dig (le_bytes bytes) (nw - 1)) (2 ^ k) ltac:(apply Z.pow_pos_nonneg; lia)).
    pose proof (Z.pow_lt_mono_r 2 k 64 ltac:(done) ltac:(done) ltac:(lia)). unfold word. change ULONG_MOD with (2 ^ 64)%Z. lia.
  - cbn [post]. rewrite Z.mod_small; [done|]. rewrite pw_2 in Hr. by replace nb with (64 * Z.of_nat nw)%Z by lia.
Qed.

Lemma output_bytes rounds s : Forall byte (drbg_output bs hash rounds s).2 ∧ length (drbg_output bs hash rounds s).2 = rounds * rs.
Proof using All.
  revert s. induction rounds as [|rounds IH]; intros s; cbn [drbg_output]; [by split|].
  specialize (IH (s.1, hmac bs hash s.1 s.2)). destruct (drbg_output bs hash rounds _) as [s' out]. destruct IH as [IH1 IH2].
  cbn [snd]. split; [apply Forall_app; split; [apply (hash_bytes (hash_context := ctx) (hash := hash))|done]|].
  assert (length (hmac bs hash s.1 s.2) = rs) as Hlv by apply (hash_length (hash_context := ctx) (hash := hash)).
  rewrite length_app IH2 /= Hlv. lia.
Qed.

Lemma drbg_bytes_ok s : Forall byte (drbg_bytes bs rs hash (nw * 8) s) ∧ length (drbg_bytes bs rs hash (nw * 8) s) = nw * 8.
Proof using All.
  pose proof (hash_sizes (hash_context := ctx) (hash := hash)) as [Hrs _]. rewrite /drbg_bytes.
  pose proof (output_bytes (drbg_rounds rs (nw * 8)) s) as [H1 H2]. split; [by apply Forall_take|].
  rewrite length_take H2 /drbg_rounds. pose proof (Nat.div_mod_eq (nw * 8 + (rs - 1)) rs).
  pose proof (Nat.mod_upper_bound (nw * 8 + (rs - 1)) rs). nia.
Qed.

Lemma deterministic_tries_spec tries rng t h tmp s private_key message_hash size signature d e :
  (∀ g, rng = Some g → RngOk g) →
  holds_bytes nnB private_key d → (0 ≤ d < N)%Z → holds_bytes (Nat.min size nnB) message_hash e →
  nB + nB ≤ length signature → at_state ctx tmp s →
  post (deterministic_tries ctx tries rng t (h, tmp) private_key message_hash size signature c) (λ '(ok, sig, _),
    length sig = length signature ∧
    (ok = 0%Z ∨ ok = 1%Z ∧ ∃ j r v, j < tries ∧
      signed N G d (hash_int c N size e) (nonce s j) r v ∧ signature_bytes c sig r v)).
Proof using All.
  intros Hrng Hd Hdr He. pose proof (order_words (c := c)) as Hw.
  revert t h tmp s signature. induction tries as [|tries IH]; intros t h tmp s signature Hl HL; cbn [deterministic_tries]; [simpl; by auto|].
  cbv zeta. pose proof (fill_T_spec ctx hash (nw * 8) h tmp s [] (nw * 8) HL) as Hfill.
  rewrite /= Nat.sub_0_r in Hfill. specialize (Hfill ltac:(lia) ltac:(lia)).
  pose proof (drbg_bytes_ok s) as [Hb1 Hb2].
  assert (∀ s' out, drbg_output bs hash (drbg_rounds rs (nw * 8)) s = (s', out) →
    drbg_bytes bs rs hash (nw * 8) s = take (nw * 8) out ∧ next s = drbg_update bs hash s' 0 []) as Hout.
  { intros s' out Ho. by rewrite /drbg_bytes /drbg_next Ho. }
  destruct (drbg_output bs hash (drbg_rounds rs (nw * 8)) s) as [s' out]. destruct (Hout _ _ eq_refl) as [Hbytes Hnext].
  eapply post_bind; [exact Hfill|]. intros [bytes [h1 tmp1]] [-> HL1]. rewrite -Hbytes.
  eapply post_bind; [by apply mask_T_spec|]. intros T HT.
  eapply post_bind; [by eapply (uECC_sign_with_k_spec c N G); [..|exact HT|]|].
  intros [[[ok k'] sig] t1] (_ & Hls & [->|(-> & r & v & Hsv & Hsig)]); cbn [Z.eqb negb].
  - eapply (drbg_step ctx hash h1 tmp1 s' 0 []); [exact HL1|]. cbn [concat]. rewrite -Hnext. intros h2 tmp2 HL2.
    eapply post_mono; [apply (IH t1 h2 tmp2 (next s) sig); [lia|exact HL2]|].
    intros [[ok2 sig2] t2] [Hl2 Hsig2]. split; [lia|]. destruct Hsig2 as [?|(? & j & r & v & Hj & Hs2 & Hb)]; [by left|right].
    split; [done|]. exists (S j), r, v. split; [lia|]. split; [|done]. by rewrite /drbg_nonce Nat.iter_succ_r.
  - split; [done|]. right. split; [done|]. exists 0, r, v. split; [lia|]. by split.
Qed.

Lemma fill_KV_spec tmp :
  2 * rs + bs ≤ length tmp → post (fill_KV ctx tmp) (λ r, layout ctx r (replicate rs 0%Z) (replicate rs 1%Z)).
Proof using All.
  intros Hl. pose proof (hash_sizes (hash_context := ctx) (hash := hash)) as [Hrs _].
  apply post_ofor with (I := λ i r, (0 ≤ i)%Z ∧ length r = length tmp ∧
    ∀ j, j < Z.to_nat i → r !! j = Some (Some 0%Z) ∧ r !! (rs + j) = Some (Some 1%Z)).
  - split_and!; [done|done|]. simpl. lia.
  - intros i r Hi (_ & Hlr & Hr). cbv beta. eapply post_bind; [apply post_oset; [lia|exact (eq_refl _)]|]. intros r1 <-.
    apply post_oset; [rewrite length_insert; lia|]. rewrite !length_insert. split_and!; [lia|done|].
    replace (Z.to_nat (Z.of_nat rs + i)) with (rs + Z.to_nat i) by lia. intros j Hj. split.
    + destruct (decide (j = Z.to_nat i)) as [->|]; [rewrite list_lookup_insert_eq //; rewrite length_insert; lia|].
      rewrite !list_lookup_insert_ne; [|lia..]. apply Hr. lia.
    + rewrite list_lookup_insert_ne; [|lia]. destruct (decide (j = Z.to_nat i)) as [->|]; [rewrite list_lookup_insert_eq //; lia|].
      rewrite list_lookup_insert_ne; [|lia]. apply Hr. lia.
  - intros r (_ & Hlr & Hr). split_and!; [lia|by rewrite length_replicate..| |]; intros i x [-> Hi]%lookup_replicate; apply Hr; lia.
Qed.

(** A signature is made with a nonce of the stream that the private key and the hash seed. *)
Lemma uECC_sign_deterministic_spec rng t private_key key message_hash message h tmp signature d e :
  (∀ g, rng = Some g → RngOk g) →
  holds_bytes nnB private_key d → (0 ≤ d < N)%Z →
  holds_bytes (Nat.min (length message) nnB) message_hash e →
  bytes_at 0 key private_key → length key = nB → bytes_at 0 message message_hash →
  2 * rs + bs ≤ length tmp → nB + nB ≤ length signature →
  post (uECC_sign_deterministic ctx rng t private_key message_hash (length message) h tmp signature c) (λ '(ok, sig, _),
    length sig = length signature ∧
    (ok = 0%Z ∨ ok = 1%Z ∧ ∃ j r v, j < uECC_RNG_MAX_TRIES ∧
      signed N G d (hash_int c N (length message) e) (nonce (drbg_seed bs rs hash (key ++ message)) j) r v ∧
      signature_bytes c sig r v)).
Proof using All.
  intros Hrng Hd Hdr He Hkey Hlk Hmsg Htmp Hsig. rewrite /uECC_sign_deterministic.
  eapply post_bind; [by apply fill_KV_spec|]. intros tmp1 HL1.
  rewrite (load_bytes_spec _ _ _ _ Hkey Hlk) {1}/mbind {1}/outcome_bind (load_bytes_spec _ _ _ _ Hmsg eq_refl) {1}/mbind {1}/outcome_bind.
  eapply (drbg_step ctx hash h tmp1 (replicate rs 0%Z, replicate rs 1%Z)); [exact HL1|]. intros h2 tmp2 HL2.
  eapply (drbg_step ctx hash h2 tmp2); [exact HL2|]. intros h4 tmp4 HL4. cbn [concat] in HL4. rewrite app_nil_r in HL4.
  by eapply deterministic_tries_spec.
Qed.
End nonce.
