(* ===== verification/Aes.v ===== *)
(** * Aes: the encryption demo of src/encrypt/encrypt_aes.c

    [encrypt] and [decrypt] allocate a context of the cryptographic library, drive it through its
    steps and free it; [handleErrors] aborts the program.  The library is a record of functions over
    its own state, with [CipherLibrary] as what it documents: the output of the update and of the
    final step together are the ciphertext, padded to whole blocks, decryption gives the plaintext
    back, and a context is live from its allocation to its release. *)
From Stdlib Require Import Ascii String.
From stdpp Require Import base list numbers ssreflect.
From S2P Require Import Prelude Memory Outcome ByteBuffers.

(** ** Operations *)

(** What the demo calls, over the contexts [C] and the library's state [L]: an allocation may be
    refused, and a step gives its return value, the bytes that it writes and the context. *)
Record EVP (C L : Type) := {
  EVP_CIPHER_CTX_new : L → option C * L;
  EVP_EncryptInit_ex : C → list Z → list Z → Z * C;
  EVP_EncryptUpdate : C → list Z → Z * list Z * C;
  EVP_EncryptFinal_ex : C → Z * list Z * C;
  EVP_DecryptInit_ex : C → list Z → list Z → Z * C;
  EVP_DecryptUpdate : C → list Z → Z * list Z * C;
  EVP_DecryptFinal_ex : C → Z * list Z * C;
  EVP_CIPHER_CTX_free : C → L → L
}.
Arguments EVP_CIPHER_CTX_new {C L}. Arguments EVP_EncryptInit_ex {C L}. Arguments EVP_EncryptUpdate {C L}.
Arguments EVP_EncryptFinal_ex {C L}. Arguments EVP_DecryptInit_ex {C L}. Arguments EVP_DecryptUpdate {C L}.
Arguments EVP_DecryptFinal_ex {C L}. Arguments EVP_CIPHER_CTX_free {C L}.

Section operations.
Context {C L : Type} (evp : EVP C L).

Definition handleErrors {A} : outcome A := Err Aborted.

Definition encrypt (plaintext : array Z) (plaintext_len : nat) (key iv : list Z) (ciphertext : array Z) (lib : L) :
    outcome (nat * array Z * L) :=
  match EVP_CIPHER_CTX_new evp lib with
  | (None, _) => handleErrors
  | (Some ctx, lib) =>
      let '(ret, ctx) := EVP_EncryptInit_ex evp ctx key iv in
      if negb (1 =? ret)%Z then handleErrors
      else
        input ← load_bytes plaintext 0 plaintext_len;
        let '(ret, out, ctx) := EVP_EncryptUpdate evp ctx input in
        ciphertext ← put_bytes ciphertext 0 out;
        let len := length out in
        if negb (1 =? ret)%Z then handleErrors
        else
          let ciphertext_len := len in
          let '(ret, out, ctx) := EVP_EncryptFinal_ex evp ctx in
          ciphertext ← put_bytes ciphertext len out;
          let len := length out in
          if negb (1 =? ret)%Z then handleErrors
          else
            let ciphertext_len := ciphertext_len + len in
            let lib := EVP_CIPHER_CTX_free evp ctx lib in
            Ok (ciphertext_len, ciphertext, lib)
  end.

Definition decrypt (ciphertext : array Z) (ciphertext_len : nat) (key iv : list Z) (plaintext : array Z) (lib : L) :
    outcome (nat * array Z * L) :=
  match EVP_CIPHER_CTX_new evp lib with
  | (None, _) => handleErrors
  | (Some ctx, lib) =>
      let '(ret, ctx) := EVP_DecryptInit_ex evp ctx key iv in
      if negb (1 =? ret)%Z then handleErrors
      else
        input ← load_bytes ciphertext 0 ciphertext_len;
        let '(ret, out, ctx) := EVP_DecryptUpdate evp ctx input in
        plaintext ← put_bytes plaintext 0 out;
        let len := length out in
        if negb (1 =? ret)%Z then handleErrors
        else
          let plaintext_len := len in
          let '(ret, out, ctx) := EVP_DecryptFinal_ex evp ctx in
          plaintext ← put_bytes plaintext len out;
          let len := length out in
          if negb (1 =? ret)%Z then handleErrors
          else
            let plaintext_len := plaintext_len + len in
            let lib := EVP_CIPHER_CTX_free evp ctx lib in
            Ok (plaintext_len, plaintext, lib)
  end.

(** The characters of a literal, and the bytes of a buffer before its first NUL. *)
Definition chars (s : String.string) : list Z := (λ a, Z.of_N (N_of_ascii a)) <$> list_ascii_of_string s.
Fixpoint c_string (a : array Z) (off fuel : nat) : outcome (list Z) :=
  match fuel with
  | O => Err OutOfBounds
  | S fuel =>
      x ← oget a (Z.of_nat off);
      if (x =? 0)%Z then Ok [] else l ← c_string a (S off) fuel; Ok (x :: l)
  end.

Definition demo_key : list Z := chars "01234567890123456789012345678901".
Definition demo_iv : list Z := chars "0123456789012345".
Definition demo_plaintext : list Z := chars "The quick brown fox jumps over the lazy dog".

(** What the demo prints: the two titles, the dump of the ciphertext and the decrypted text. *)
Inductive demo_output := Ciphertext (bytes : list Z) | Decrypted (text : list Z).

Definition encrypt_evp_aes_demo (lib : L) : outcome (list demo_output * L) :=
  let plaintext := Some <$> demo_plaintext ++ [0%Z] in
  '(ciphertext_len, ciphertext, lib) ← encrypt plaintext (length demo_plaintext) demo_key demo_iv (replicate 128 None) lib;
  dump ← load_bytes ciphertext 0 ciphertext_len;
  '(decryptedtext_len, decryptedtext, lib) ← decrypt ciphertext ciphertext_len demo_key demo_iv (replicate 128 None) lib;
  decryptedtext ← oset decryptedtext (Z.of_nat decryptedtext_len) 0%Z;
  text ← c_string decryptedtext 0 128;
  Ok ([Ciphertext dump; Decrypted text], lib).
End operations.

(** ** What the library promises *)

(** [live] counts the contexts that are allocated. *)
Class CipherLibrary {C L : Type} (evp : EVP C L) (live : L → nat) (enc dec : list Z → list Z → list Z → list Z) := {
  new_live l : live (EVP_CIPHER_CTX_new evp l).2 = (if EVP_CIPHER_CTX_new evp l is (Some _, _) then S (live l) else live l);
  free_live ctx l : live (EVP_CIPHER_CTX_free evp ctx l) = pred (live l);
  (** the output of the two steps together *)
  seal_run c0 c1 c2 c3 k iv m out1 out2 :
    EVP_EncryptInit_ex evp c0 k iv = (1%Z, c1) → EVP_EncryptUpdate evp c1 m = (1%Z, out1, c2) →
    EVP_EncryptFinal_ex evp c2 = (1%Z, out2, c3) → out1 ++ out2 = enc k iv m;
  open_run c0 c1 c2 c3 k iv m out1 out2 :
    EVP_DecryptInit_ex evp c0 k iv = (1%Z, c1) → EVP_DecryptUpdate evp c1 m = (1%Z, out1, c2) →
    EVP_DecryptFinal_ex evp c2 = (1%Z, out2, c3) → out1 ++ out2 = dec k iv m;
  (** no step writes more than a block more than its input *)
  update_room ctx x : length (EVP_EncryptUpdate evp ctx x).1.2 ≤ length x + 15 ∧ length (EVP_DecryptUpdate evp ctx x).1.2 ≤ length x + 16;
  final_room ctx : length (EVP_EncryptFinal_ex evp ctx).1.2 ≤ 16 ∧ length (EVP_DecryptFinal_ex evp ctx).1.2 ≤ 16;
  enc_length k iv m : length (enc k iv m) = 16 * (length m / 16 + 1);
  dec_enc k iv m : dec k iv (enc k iv m) = m
}.

(** ** Runs that may abort *)

(** The code makes no other fault than to abort, and what it returns satisfies [Φ]. *)
Definition returns {A} (c : outcome A) (Φ : A → Prop) : Prop :=
  match c with Ok a => Φ a | Err Aborted => True | Err _ => False end.

Lemma returns_post {A B} (c : outcome A) (k : A → outcome B) Ψ Φ :
  post c Ψ → (∀ a, Ψ a → returns (k a) Φ) → returns (c ≫= k) Φ.
Proof. destruct c; [|done]. intros H Hk. by apply Hk. Qed.

Lemma returns_bind {A B} (c : outcome A) (k : A → outcome B) Ψ Φ :
  returns c Ψ → (∀ a, Ψ a → returns (k a) Φ) → returns (c ≫= k) Φ.
Proof. destruct c as [|f]; [intros H Hk; by apply Hk|by destruct f]. Qed.

(** Two runs of bytes one behind the other. *)
Lemma two_runs l1 l2 a b :
  bytes_at 0 l1 a → bytes_at (length l1) l2 b → (∀ i, i < length l1 → b !! i = a !! i) → bytes_at 0 (l1 ++ l2) b.
Proof.
  intros Ha Hb Hrest i x [Hi|[Hge Hi]]%lookup_app_Some.
  - rewrite Hrest; [by apply Ha|]. apply lookup_lt_Some in Hi. lia.
  - simpl. replace i with (length l1 + (i - length l1)) by lia. by apply Hb.
Qed.

Lemma c_string_spec a off l fuel :
  bytes_at off (l ++ [0%Z]) a → Forall (λ x, x ≠ 0%Z) l → length l < fuel → c_string a off fuel = Ok l.
Proof.
  intros Hb Hl. revert off fuel Hb. induction Hl as [|x l Hx Hl IH]; intros off fuel Hb Hfuel.
  - destruct fuel as [|fuel]; [lia|]. apply bytes_at_cons in Hb as [H0 _]. apply post_eq. cbn [c_string].
    eapply post_bind; [eapply post_oget; [lia|by rewrite Nat2Z.id|exact (eq_refl _)]|]. by intros ? <-.
  - destruct fuel as [|fuel]; [simpl in Hfuel; lia|]. apply bytes_at_cons in Hb as [H0 Hb]. apply post_eq. cbn [c_string].
    eapply post_bind; [eapply post_oget; [lia|by rewrite Nat2Z.id|exact (eq_refl _)]|]. intros ? <-.
    destruct (Z.eqb_spec x 0); [done|]. rewrite (IH _ fuel Hb) //. simpl in Hfuel. lia.
Qed.

(** ** The demo *)

Section demo.
Context {C L : Type} (evp : EVP C L) (live : L → nat) (enc dec : list Z → list Z → list Z → list Z).
Context `{!CipherLibrary evp live enc dec}.

(** A context that was allocated and freed leaves as many live ones as there were. *)
Lemma new_free_live l ctx l' ctx' : EVP_CIPHER_CTX_new evp l = (Some ctx, l') → live (EVP_CIPHER_CTX_free evp ctx' l') = live l.
Proof using All. intros Hnew. pose proof (new_live (evp := evp) l) as H. rewrite Hnew /= in H. rewrite free_live H. done. Qed.


Lemma encrypt_spec plaintext m key iv ciphertext lib :
  bytes_at 0 m plaintext → length m + 31 ≤ length ciphertext →
  returns (encrypt evp plaintext (length m) key iv ciphertext lib)
    (λ '(n, r, lib'), n = length (enc key iv m) ∧ length r = length ciphertext ∧ bytes_at 0 (enc key iv m) r ∧ live lib' = live lib).
Proof using All.
  intros Hm Hl. rewrite /encrypt. destruct (EVP_CIPHER_CTX_new evp lib) as [[ctx|] lib1] eqn:Hnew; [|done].
  destruct (EVP_EncryptInit_ex evp ctx key iv) as [ret ctx1] eqn:Hinit.
  destruct (Z.eqb_spec 1 ret) as [<-|]; [|done]. cbn [negb].
  rewrite (load_bytes_spec _ _ _ _ Hm eq_refl) {1}/mbind {1}/outcome_bind.
  pose proof (proj1 (update_room ctx1 m)) as Hroom.
  destruct (EVP_EncryptUpdate evp ctx1 m) as [[ret out] ctx2] eqn:Hupd. cbn [fst snd] in Hroom.
  pose proof (proj1 (final_room (evp := evp) ctx2)) as Hroom2.
  eapply returns_post; [apply put_bytes_spec; lia|]. intros r1 (Hl1 & Hb1 & _); cbv zeta.
  destruct (Z.eqb_spec 1 ret) as [<-|]; [|done]. cbn [negb].
  destruct (EVP_EncryptFinal_ex evp ctx2) as [[ret out2] ctx3] eqn:Hfin. cbn [fst snd] in Hroom2.
  eapply returns_post; [apply put_bytes_spec; lia|]. intros r2 (Hl2 & Hb2 & Hrest).
  destruct (Z.eqb_spec 1 ret) as [<-|]; [|done]. rewrite -(seal_run _ _ _ _ _ _ _ _ _ Hinit Hupd Hfin). cbn [negb returns].
  rewrite length_app. split_and!; [done|lia| |by apply (new_free_live _ ctx)].
  apply (two_runs _ _ r1); [done|done|]. intros i Hi. apply Hrest. lia.
Qed.

Lemma decrypt_spec ciphertext m key iv plaintext lib :
  bytes_at 0 m ciphertext → length m + 32 ≤ length plaintext →
  returns (decrypt evp ciphertext (length m) key iv plaintext lib)
    (λ '(n, r, lib'), n = length (dec key iv m) ∧ length r = length plaintext ∧ bytes_at 0 (dec key iv m) r ∧ live lib' = live lib).
Proof using All.
  intros Hm Hl. rewrite /decrypt. destruct (EVP_CIPHER_CTX_new evp lib) as [[ctx|] lib1] eqn:Hnew; [|done].
  destruct (EVP_DecryptInit_ex evp ctx key iv) as [ret ctx1] eqn:Hinit.
  destruct (Z.eqb_spec 1 ret) as [<-|]; [|done]. cbn [negb].
  rewrite (load_bytes_spec _ _ _ _ Hm eq_refl) {1}/mbind {1}/outcome_bind.
  pose proof (proj2 (update_room ctx1 m)) as Hroom.
  destruct (EVP_DecryptUpdate evp ctx1 m) as [[ret out] ctx2] eqn:Hupd. cbn [fst snd] in Hroom.
  pose proof (proj2 (final_room (evp := evp) ctx2)) as Hroom2.
  eapply returns_post; [apply put_bytes_spec; lia|]. intros r1 (Hl1 & Hb1 & _); cbv zeta.
  destruct (Z.eqb_spec 1 ret) as [<-|]; [|done]. cbn [negb].
  destruct (EVP_DecryptFinal_ex evp ctx2) as [[ret out2] ctx3] eqn:Hfin. cbn [fst snd] in Hroom2.
  eapply returns_post; [apply put_bytes_spec; lia|]. intros r2 (Hl2 & Hb2 & Hrest).
  destruct (Z.eqb_spec 1 ret) as [<-|]; [|done]. rewrite -(open_run _ _ _ _ _ _ _ _ _ Hinit Hupd Hfin). cbn [negb returns].
  rewrite length_app. split_and!; [done|lia| |by apply (new_free_live _ ctx)].
  apply (two_runs _ _ r1); [done|done|]. intros i Hi. apply Hrest. lia.
Qed.

(** What is decrypted is what was encrypted, no buffer overflows, and both contexts are freed. *)
Lemma demo_spec lib :
  returns (encrypt_evp_aes_demo evp lib)
    (λ '(out, lib'), out = [Ciphertext (enc demo_key demo_iv demo_plaintext); Decrypted demo_plaintext] ∧ live lib' = live lib).
Proof using All.
  rewrite /encrypt_evp_aes_demo; cbv zeta. set (k := demo_key). set (iv := demo_iv). clearbody k iv.
  assert (length demo_plaintext = 43) as Hlp by done.
  eapply returns_bind; [apply encrypt_spec; [|rewrite length_replicate; lia]|].
  { intros i x Hi. rewrite Nat.add_0_l list_lookup_fmap (lookup_app_l_Some _ _ _ _ Hi). done. }
  intros [[n r] lib1] (-> & Hlr & Hr & Hlive). rewrite (load_bytes_spec _ _ _ _ Hr eq_refl) {1}/mbind {1}/outcome_bind.
  pose proof (enc_length (evp := evp) k iv demo_plaintext) as Hle. rewrite Hlp in Hle. change (16 * (43 / 16 + 1)) with 48 in Hle.
  eapply returns_bind; [apply decrypt_spec; [exact Hr|rewrite length_replicate; lia]|].
  rewrite dec_enc. intros [[n2 r2] lib2] (-> & Hlr2 & Hr2 & Hlive2). rewrite length_replicate in Hlr2.
  eapply returns_post; [apply post_oset; [lia|exact (eq_refl _)]|]. intros r3 <-. rewrite Nat2Z.id.
  rewrite (c_string_spec _ 0 demo_plaintext); [by split; [|rewrite Hlive2]| | |lia].
  - intros i x [Hi|[Hge Hi]]%lookup_app_Some.
    + rewrite Nat.add_0_l list_lookup_insert_ne; [by apply Hr2|]. apply lookup_lt_Some in Hi. lia.
    + apply list_lookup_singleton_Some in Hi as [Hi0 ->]. replace (0 + i) with (length demo_plaintext) by lia.
      apply list_lookup_insert_eq. lia.
  - by repeat constructor.
Qed.
End demo.

(** ** A library without a cipher *)

(** It pads to whole blocks and takes the padding away; the context is the block that is still to come,
    and the state counts the contexts, of which there may be eight. *)
Definition whole_blocks (n : nat) : nat := 16 * (n / 16).
Definition pad_block (rest : list Z) : list Z := rest ++ replicate (16 - length rest) (Z.of_nat (16 - length rest)).
Definition strip_block (block : list Z) : list Z := take (16 - Z.to_nat (default 0%Z (last block))) block.
Definition plain_enc (k iv m : list Z) : list Z := let n := whole_blocks (length m) in take n m ++ pad_block (drop n m).
Definition plain_dec (k iv m : list Z) : list Z := let n := whole_blocks (length m - 1) in take n m ++ strip_block (drop n m).

Definition plain_evp : EVP (list Z) nat := {|
  EVP_CIPHER_CTX_new n := if decide (n < 8) then (Some [], S n) else (None, n);
  EVP_CIPHER_CTX_free ctx n := pred n;
  EVP_EncryptInit_ex ctx k iv := (1%Z, []);
  EVP_EncryptUpdate ctx m := let n := whole_blocks (length m) in (1%Z, take n m, drop n m);
  EVP_EncryptFinal_ex ctx := (1%Z, take 16 (pad_block ctx), []);
  EVP_DecryptInit_ex ctx k iv := (1%Z, []);
  EVP_DecryptUpdate ctx m := let n := whole_blocks (length m - 1) in (1%Z, take n m, drop n m);
  EVP_DecryptFinal_ex ctx := (1%Z, take 16 (strip_block ctx), [])
|}.

Lemma plain_rest (m : list Z) : length (drop (whole_blocks (length m)) m) < 16.
Proof.
  rewrite length_drop /whole_blocks. pose proof (Nat.div_mod_eq (length m) 16). pose proof (Nat.mod_upper_bound (length m) 16). lia.
Qed.

#[export] Instance plain_library : CipherLibrary plain_evp id plain_enc plain_dec.
Proof.
  split.
  - intros l. simpl. by case_decide.
  - done.
  - intros c0 c1 c2 c3 k iv m out1 out2 _ [= <- <-] [= <- _]. pose proof (plain_rest m) as Hr.
    rewrite /plain_enc (take_ge (pad_block _)) // /pad_block length_app length_replicate. lia.
  - intros c0 c1 c2 c3 k iv m out1 out2 _ [= <- <-] [= <- _].
    rewrite /plain_dec (take_ge (strip_block _)) // /strip_block length_take length_drop /whole_blocks.
    pose proof (Nat.div_mod_eq (length m - 1) 16). pose proof (Nat.mod_upper_bound (length m - 1) 16). lia.
  - intros ctx x. simpl. rewrite !length_take. lia.
  - intros ctx. simpl. rewrite !length_take. lia.
  - intros k iv m. rewrite /plain_enc length_app length_take /pad_block length_app length_replicate.
    pose proof (plain_rest m). unfold whole_blocks in *. pose proof (Nat.div_mod_eq (length m) 16).
    pose proof (Nat.mod_upper_bound (length m) 16). lia.
  - intros k iv m. pose proof (plain_rest m) as Hr. unfold plain_dec, plain_enc. set (n := whole_blocks (length m)) in *.
    assert (n ≤ length m) as Hn by (unfold n, whole_blocks; pose proof (Nat.div_mod_eq (length m) 16); lia).
    set (rest := drop n m) in *. set (pad := 16 - length rest). assert (0 < pad ≤ 16) as Hpad by lia.
    assert (length (take n m ++ pad_block rest) = n + 16) as Hl.
    { rewrite length_app length_take /pad_block length_app length_replicate. lia. }
    rewrite Hl. assert (whole_blocks (n + 16 - 1) = n) as ->.
    { unfold n, whole_blocks. f_equal. symmetry. apply Nat.div_unique with 15; lia. }
    rewrite take_app_length'; [|rewrite length_take; lia]. rewrite drop_app_length'; [|rewrite length_take; lia].
    rewrite /strip_block /pad_block -/pad. assert (last (rest ++ replicate pad (Z.of_nat pad)) = Some (Z.of_nat pad)) as ->.
    { destruct pad as [|k']; [lia|]. by rewrite replicate_S_end app_assoc last_snoc. }
    rewrite /= Nat2Z.id. replace (16 - pad) with (length rest) by lia.
    rewrite take_app_length. apply take_drop.
Qed.
