(* ===== verification/EccTheorems.v ===== *)
(** * EccTheorems: what lib/ecc promises

    The theorems on the elliptic-curve library and on the two demos that encrypt and
    exchange keys, each with an instance.  The instances run on the curve of SmallCurve.v, whose
    group is decided by computation, on a hash function that adds bytes, and on a
    library that pads without a cipher. *)
From Stdlib Require Import Zmod.Zmod.
From stdpp Require Import base list numbers ssreflect.
From S2P Require Import Prelude Memory Outcome ByteBuffers Digits Vli VliMod VliBytes CurveField Curves CurveOmega CurveGroup.
From S2P Require Import Primes EccPoint Ladder PublicKey LadderTotal SmallCurve Uecc Ecdsa EcdsaVerify StandardCurves Ecdh Hmac Deterministic Aes.

(** ** The instances *)

#[export] Instance small_bytes_class : CurveBytes small_curve 7.
Proof. by split. Qed.
#[export] Instance small_width : CurveWidth small_curve 7 11.
Proof. by split. Qed.

(** Every byte is 3. *)
Definition three_rng : uECC_RNG_Function := λ _ size, Some (replicate size 3%Z).
#[export] Instance three_rng_ok : RngOk three_rng.
Proof. intros t size bs [= <-]. split; [by rewrite length_replicate|]. by apply Forall_replicate. Qed.
Lemma three_rng_some g : Some three_rng = Some g → RngOk g.
Proof. intros [= <-]. apply _. Qed.

Lemma one_byte x l : (0 ≤ x < 256)%Z → holds_bytes 1 (Some x :: l) x.
Proof.
  intros Hx. split; [done|]. intros i Hi. assert (i = 0) as -> by lia.
  by rewrite /= /byte_of Z.pow_0_r Z.div_1_r Z.mod_small.
Qed.

(** The key pair of the private key 3: the point (2, 6). *)
Definition pub3 : array Z := [Some 2; Some 6]%Z.
Definition pri3 : array Z := [Some 3]%Z.
Lemma small_pair3 : key_pair small_curve (P := 7) 11 small_G pub3 pri3 3.
Proof. split; [done|]. split; [by apply one_byte|]. split; [split; by apply one_byte|done]. Qed.
Definition pub4 : array Z := [Some 6; Some 6]%Z.
Definition pri4 : array Z := [Some 4]%Z.
Lemma small_pair4 : key_pair small_curve (P := 7) 11 small_G pub4 pri4 4.
Proof. split; [done|]. split; [by apply one_byte|]. split; [split; by apply one_byte|done]. Qed.

(** A hash that adds bytes; the context is the message so far. *)
Definition sum_hash (m : list Z) : list Z := [(foldr Z.add 0 m mod 256)%Z].
Definition sum_context : uECC_HashContext (list Z) := {|
  init_hash _ := []; update_hash h x := h ++ x; finish_hash h := (sum_hash h, h); block_size := 2; result_size := 1
|}.
#[export] Instance sum_ok : HashContext sum_context sum_hash.
Proof.
  refine {| absorbed h m := h = m |}; try done.
  - by intros h m x ->.
  - by intros h m ->.
  - intros m. constructor; [|done]. by apply Z.mod_pos_bound.
  - simpl. lia.
Defined.

Definition some_bytes (k : nat) : array Z := replicate k (Some 0%Z).

(** ** Integers of several words *)

(** C28. The product of two numbers of [n] words is exact and fills [2 n] words; the words behind it are kept. *)
Theorem uECC_vli_mult_exact n res a b x y :
  holds n a x → holds n b y → 0 < n ≤ uECC_MAX_WORDS → 2 * n ≤ length res →
  post (uECC_vli_mult res a b n) (upd (2 * n) res (x * y)).
Proof. apply uECC_vli_mult_spec. Qed.

Lemma uECC_vli_mult_exact_witness :
  post (uECC_vli_mult (local_vli 5) (vli_of 2 (2 ^ 128 - 1)) (vli_of 2 (2 ^ 128 - 1)) 2)
    (upd (2 * 2) (local_vli 5) ((2 ^ 128 - 1) * (2 ^ 128 - 1))).
Proof. apply uECC_vli_mult_exact; [by apply holds_vli_of|by apply holds_vli_of|unfold uECC_MAX_WORDS; lia|simpl; lia]. Defined.

(** C27. The restoring division ends and leaves the remainder of a number of [2 n] words, for a modulus whose
    highest word is not zero. *)
Theorem uECC_vli_mmod_remainder n res prod md x m :
  holds (2 * n) prod x → holds n md m → 0 < n ≤ uECC_MAX_WORDS → full_width n m → n ≤ length res →
  post (uECC_vli_mmod res prod md n) (λ '(r, p), upd n res (x mod m) r ∧ length p = length prod).
Proof. apply uECC_vli_mmod_spec. Qed.

Lemma uECC_vli_mmod_remainder_witness :
  post (uECC_vli_mmod (local_vli 2) (vli_of 4 (2 ^ 200)) (vli_of 2 (2 ^ 70 + 3)) 2)
    (λ '(r, p), upd 2 (local_vli 2) (2 ^ 200 mod (2 ^ 70 + 3)) r ∧ length p = length (vli_of 4 (2 ^ 200))).
Proof.
  apply (uECC_vli_mmod_remainder 2); [by apply (holds_vli_of 4)|by apply holds_vli_of|unfold uECC_MAX_WORDS; lia|by split|done].
Defined.

(** C12. The binary extended gcd ends for every odd modulus above 1; for a number that is coprime to it the
    result is the inverse, in general its product with the number is the gcd, and zero gives zero. *)
Theorem uECC_vli_modInv_inverse n res input md x m :
  holds n input x → holds n md m → 0 < n ≤ uECC_MAX_WORDS → n ≤ length res → Z.odd m = true → (1 < m)%Z →
  post (uECC_vli_modInv res input md n) (λ b, ∃ r, upd n res r b ∧ mod_inverse x m r).
Proof. apply uECC_vli_modInv_spec. Qed.

Lemma uECC_vli_modInv_inverse_witness :
  post (uECC_vli_modInv (local_vli 2) (vli_of 2 12) (vli_of 2 (2 ^ 127 - 1)) 2)
    (λ b, ∃ r, upd 2 (local_vli 2) r b ∧ mod_inverse 12 (2 ^ 127 - 1) r).
Proof.
  apply uECC_vli_modInv_inverse; [by apply holds_vli_of|by apply holds_vli_of|unfold uECC_MAX_WORDS; lia|done|done|done].
Defined.

(** C13. The fast reductions of three curves are the remainder modulo the prime for every product: any number of
    twice the words for secp192r1 and secp256r1, any below [2 ^ 448] for secp224r1. *)
Theorem fast_reductions_remainder :
  (∀ res prod N, holds 6 prod N → 3 ≤ length res →
    post (vli_mmod_fast_secp192r1 res prod) (λ r, holds 3 r.1 (N mod P192))) ∧
  (∀ res prod N, holds 8 prod N → (N < 2 ^ 448)%Z → 4 ≤ length res →
    post (vli_mmod_fast_secp224r1 res prod) (λ r, holds 4 r.1 (N mod P224))) ∧
  (∀ res prod N, holds 8 prod N → 4 ≤ length res →
    post (vli_mmod_fast_secp256r1 res prod) (λ r, holds 4 r.1 (N mod P256))).
Proof. split_and!; [apply vli_mmod_fast_secp192r1_spec|apply vli_mmod_fast_secp224r1_spec|apply vli_mmod_fast_secp256r1_spec]. Qed.

(** C39. The reduction of secp256k1, for every product of eight words.  With [F] the sum that the folding makes: the result is
    the remainder less [CK1] when [F] lies between [2^257 - CK1] and [2^257], where the subtraction that stands for the carry
    leaves a carry of its own that the loop does not see; for every other [F] it is congruent to the product and at most the prime,
    so the remainder, or the prime itself for some multiples of the prime. *)
Theorem secp256k1_reduction_exact res prod N :
  holds 8 prod N → 4 ≤ length res →
  post (vli_mmod_fast_secp256k1 res prod) (λ r, ∃ z, holds 4 r.1 z ∧
    if decide (2 ^ 257 - CK1 ≤ folded_secp256k1 N < 2 ^ 257)%Z
    then z = (N mod PK1 - CK1)%Z
    else (z mod PK1 = N mod PK1)%Z ∧ (0 ≤ z ≤ PK1)%Z).
Proof. apply vli_mmod_fast_secp256k1_exact. Qed.

Lemma secp256k1_reduction_exact_witness :
  post (vli_mmod_fast_secp256k1 (local_vli 4) (vli_of 8 lost_product)) (λ r, ∃ z, holds 4 r.1 z ∧ z = (lost_product mod PK1 - CK1)%Z).
Proof.
  eapply post_mono; [apply (secp256k1_reduction_exact (local_vli 4) (vli_of 8 lost_product) lost_product);
    [by apply holds_vli_of|by rewrite length_replicate]|].
  intros r (z & Hz & Hcase). exists z. split; [exact Hz|]. destruct (decide _) as [_|Hn] in Hcase; [exact Hcase|exfalso].
  apply Hn. by split; [apply Z.leb_le|apply Z.ltb_lt]; vm_compute.
Defined.

(** C26. The square root for secp224r1 ends, and squares to its argument whenever one of the 95 squarings of the search
    makes the part without [w] zero. *)
Theorem mod_sqrt_secp224r1_correct c a curve :
  fe curve_field_secp224r1 P224 a c →
  post (mod_sqrt_secp224r1 a curve) (λ r, ∃ s, fe curve_field_secp224r1 P224 r s ∧ (root_found c K224 95 → cong P224 (s * s) c)).
Proof. apply mod_sqrt_secp224r1_root, prime_P224. Qed.

(** [- ((z + 1) / (z - 1)) ^ 2] for an eighth root of unity [z]. *)
Definition sqrt_argument : Z := 0x25037cfbca83ded6579fb90db85ab5e339d12ea95c9da462ebec396c.

Lemma mod_sqrt_secp224r1_correct_witness :
  post (mod_sqrt_secp224r1 (vli_of 4 sqrt_argument) uECC_secp224r1)
    (λ r, ∃ s, fe curve_field_secp224r1 P224 r s ∧ cong P224 (s * s) sqrt_argument).
Proof.
  eapply post_mono; [apply (mod_sqrt_secp224r1_correct sqrt_argument), fe_exact; [done|by apply (holds_vli_of 4)]|].
  intros r (s & Hs & Hroot). exists s. split; [exact Hs|]. apply Hroot, (root_found_early _ 1); [lia|by vm_compute].
Defined.

(** C40. The square root of 1 for secp224r1 comes out as 0: the search starts behind the squaring that finds it. *)
Theorem mod_sqrt_secp224r1_of_one a curve :
  fe curve_field_secp224r1 P224 a 1 → post (mod_sqrt_secp224r1 a curve) (λ r, fe curve_field_secp224r1 P224 r 0).
Proof. apply mod_sqrt_secp224r1_one. Qed.

Lemma mod_sqrt_secp224r1_of_one_witness :
  post (mod_sqrt_secp224r1 (vli_of 4 1) uECC_secp224r1) (λ r, fe curve_field_secp224r1 P224 r 0).
Proof. apply mod_sqrt_secp224r1_of_one, fe_exact; [done|by apply (holds_vli_of 4)]. Defined.

(** ** Compressed points *)

(** C14. A point of secp160r1, secp192r1, secp224r1 or secp256r1, given by two numbers that satisfy the equation of the curve,
    survives compression to its sign and first coordinate, when on secp224r1 the search for the root ends within its 95
    squarings.  (The reduction of secp256k1 is not exact; it is left out.) *)
Theorem uECC_compress_decompress c P a b public_key compressed public_key' x y :
  decompressible x c P a b → point_bytes c P public_key x y → cong P (y ^ 2) (x ^ 3 + a * x + b) →
  num_bytes c + 1 ≤ length compressed → num_bytes c + num_bytes c ≤ length public_key' →
  post (r ← uECC_compress public_key compressed c; uECC_decompress r public_key' c)
    (λ r, point_bytes c P r x y ∧ length r = length public_key').
Proof.
  intros Hd Hp Hc Hl Hl'. destruct (decompressible_class _ _ _ _ _ Hd) as [Hops Hbytes].
  pose proof (decompressible_root _ y _ _ _ _ Hd Hc) as Hroot.
  exact (compress_decompress c (a := a) (b := b) public_key compressed public_key' x y Hp Hc Hroot Hl Hl').
Qed.

(** The generator of secp192r1. *)
Definition G192x : Z := 0x188da80eb03090f67cbf20eb43a18800f4ff0afd82ff1012.
Definition G192y : Z := 0x07192b95ffc8da78631011ed6b24cdd573f977a11e794811.
Definition G192_bytes : array Z := bytes_of 24 G192x ++ bytes_of 24 G192y.

Lemma uECC_compress_decompress_witness :
  post (r ← uECC_compress G192_bytes (some_bytes 25) uECC_secp192r1; uECC_decompress r (some_bytes 48) uECC_secp192r1)
    (λ r, point_bytes uECC_secp192r1 P192 r G192x G192y ∧ length r = length (some_bytes 48)).
Proof.
  apply (uECC_compress_decompress uECC_secp192r1 P192 (-3) B192); [constructor| |by vm_compute|by vm_compute; lia|by vm_compute; lia].
  assert (∀ v, (0 ≤ v < P192)%Z → ∀ l, holds_bytes 24 (bytes_of 24 v ++ l) (v mod P192)) as Hb.
  { intros v Hv l. rewrite Z.mod_small //. apply (holds_bytes_take 24 24); [done|].
    assert (length (bytes_of 24 v) = 24) as Hlen by by rewrite length_fmap length_seq.
    rewrite take_app_length' //. apply holds_bytes_of. assert (P192 < pb 24)%Z by (apply Z.ltb_lt; by vm_compute). lia. }
  split; [by apply Hb|]. change (drop (num_bytes uECC_secp192r1) G192_bytes) with (bytes_of 24 G192y).
  rewrite -(app_nil_r (bytes_of 24 G192y)). by apply Hb.
Defined.

(** ** Points, keys and secrets *)

Section curve.
Context (c : uECC_Curve) {E : Type} {P a b : Z} (N : Z).
Context `{!CurveOps c P a b} `{!EcGroup E P a b} `{!CurveOrder c N} `{!CurveBytes c P}.
Context (G : E) (HG : affine c (P := P) (curve_G c) G) (HGu : usable (P := P) N G).
Local Notation nB := (num_bytes c).
Local Notation nnB := (num_n_bytes c).

(** C6. Montgomery's ladder ends without a fault for every scalar that [regularize_k] makes of a number [v] below the
    order and every point [A] of the group of the generator; the result is [v A], or, only for [v] in 0, 1, N - 2, N - 1 or a point
    with first coordinate zero, possibly the pair of zeros. *)
Theorem EccPoint_mult_correct result point scalar initial_Z v (A : E) :
  affine c (P := P) point A → A ≠ ezero → emul N A = ezero → (0 ≤ v < N)%Z →
  holds (num_n_words c) scalar (regularized c N v mod pw (num_n_words c)) →
  (∀ iz, initial_Z = Some iz → ∃ z0, fe c P iz z0 ∧ ¬ cong P z0 0) → num_words c + num_words c ≤ length result →
  post (EccPoint_mult result point scalar initial_Z (num_n_bits c + 1) c)
    (λ r, (affine c (P := P) r (emul v A) ∧ emul v A ≠ ezero ∨ zero_point c (P := P) r ∧ ¬ good_key (P := P) N A v) ∧
      length r = length result).
Proof using CurveOps0 CurveOrder0. by apply EccPoint_mult_any_key. Qed.

(** C23. A key that is made is a private key between 1 and the order and its multiple of the generator, both as bytes;
    a failure leaves the buffers as they were. *)
Theorem uECC_make_key_correct rng t public_key private_key :
  (∀ g, rng = Some g → RngOk g) → nB + nB ≤ length public_key → nnB ≤ length private_key →
  post (uECC_make_key rng t public_key private_key c) (λ '(ok, pub, priv, t'),
    ok = 0%Z ∧ pub = public_key ∧ priv = private_key ∨
    ok = 1%Z ∧ length pub = length public_key ∧ length priv = length private_key ∧
      ∃ v, key_pair c (P := P) N G pub priv v).
Proof using All. by eapply uECC_make_key_spec. Qed.

(** C7. Two parties that each combine their private key with the other's public key get the same secret whenever both calls
    succeed, and without a random number generator they do for every pair of keys that the ladder has no exception for. *)
Theorem uECC_shared_secret_agrees rng1 rng2 t1 t2 pub1 priv1 v1 pub2 priv2 v2 s1 s2 :
  (∀ g, rng1 = Some g → RngOk g) → (∀ g, rng2 = Some g → RngOk g) →
  key_pair c (P := P) N G pub1 priv1 v1 → key_pair c (P := P) N G pub2 priv2 v2 → nB ≤ length s1 → nB ≤ length s2 →
  post (r1 ← uECC_shared_secret rng1 t1 pub2 priv1 s1 c;
        r2 ← uECC_shared_secret rng2 t2 pub1 priv2 s2 c; Ok (r1, r2))
    (λ '((ok1, r1, _), (ok2, r2, _)),
      (ok1 = 1%Z → ok2 = 1%Z → ∃ x, holds_bytes nB r1 x ∧ holds_bytes nB r2 x) ∧
      (rng1 = None → good_key (P := P) N (emul v2 G) v1 → ok1 = 1%Z) ∧
      (rng2 = None → good_key (P := P) N (emul v1 G) v2 → ok2 = 1%Z)).
Proof using All. by apply shared_secrets. Qed.

(** C24. The bytes of any two numbers are a valid public key exactly when the numbers are below the prime, not both zero, and
    satisfy the equation of the curve. *)
Theorem uECC_valid_public_key_decides public_key x y :
  holds_bytes nB public_key x → holds_bytes nB (drop nB public_key) y →
  uECC_valid_public_key public_key c = Ok (if decide (valid_coords (P := P) (a := a) (b := b) x y) then 1 else 0)%Z.
Proof using CurveOps0 CurveBytes0. by apply uECC_valid_public_key_spec. Qed.

Context `{!CurveWidth c P N}.

(** C5. A signature that [uECC_sign] returns is accepted by [uECC_verify] with the signer's public key, unless the first number
    is not below the order, the second is zero, or Shamir's trick meets an exception of the addition formulas. *)
Theorem uECC_sign_verify rng t private_key public_key message_hash size signature d h :
  (∀ g, rng = Some g → RngOk g) →
  key_pair c (P := P) N G public_key private_key d → holds_bytes (Nat.min size nnB) message_hash h →
  nB + nB ≤ length signature →
  post (uECC_sign rng t private_key message_hash size signature c) (λ '(ok, sig, _),
    length sig = length signature ∧
    (ok = 0%Z ∨ ok = 1%Z ∧ ∃ r s, signature_bytes c sig r s ∧
      let e := hash_int c N size h in
      ((r < N)%Z → s ≠ 0%Z →
        shamir_regular N G (factor1 N e s) (factor2 N r s) (sum_bits (factor1 N e s) (factor2 N r s)) (emul d G) →
        uECC_verify public_key message_hash size sig c = Ok 1%Z))).
Proof using All.
  intros Hrng (Hd & Hpriv & Hpub & HdG) Hh Hl.
  eapply post_mono; [eapply (uECC_sign_spec c N G HG HGu rng t private_key message_hash size signature d h); [done|done|lia|done|done]|].
  intros [[ok sig] t'] (Hls & [->|(-> & k & r & s & Hsig & Hb)]); (split; [done|]); [by left|right].
  split; [done|]. exists r, s. split; [exact Hb|]. cbv zeta. intros Hr Hs Hreg. destruct Hb as [Hb1 Hb2].
  rewrite (uECC_verify_spec c N G HG HGu public_key message_hash size sig h r s (emul d G)); [|done..].
  rewrite decide_True; [done|]. by eapply signed_verifies.
Qed.
End curve.

Lemma EccPoint_mult_correct_witness :
  post (EccPoint_mult (local_vli 8) (curve_G small_curve) (vli_of 4 25) None (num_n_bits small_curve + 1) small_curve)
    (λ r, (affine small_curve (P := 7) r (emul 3 small_G) ∧ emul 3 small_G ≠ ezero ∨
      zero_point small_curve (P := 7) r ∧ ¬ good_key (P := 7) 11 small_G 3) ∧ length r = length (local_vli 8)).
Proof.
  apply (EccPoint_mult_correct small_curve 11 (local_vli 8) (curve_G small_curve) (vli_of 4 25) None 3 small_G).
  - exact small_G_affine.
  - done.
  - done.
  - done.
  - by apply (small_vli 4); [lia|].
  - done.
  - simpl. lia.
Defined.

Lemma uECC_make_key_correct_witness :
  post (uECC_make_key (Some three_rng) 0 (some_bytes 2) (some_bytes 1) small_curve) (λ '(ok, pub, priv, t'),
    ok = 0%Z ∧ pub = some_bytes 2 ∧ priv = some_bytes 1 ∨
    ok = 1%Z ∧ length pub = length (some_bytes 2) ∧ length priv = length (some_bytes 1) ∧
      ∃ v, key_pair small_curve (P := 7) 11 small_G pub priv v).
Proof.
  apply (uECC_make_key_correct small_curve 11 small_G small_G_affine small_G_usable); [exact three_rng_some|by vm_compute; lia|by vm_compute; lia].
Defined.

Lemma uECC_shared_secret_agrees_witness :
  post (r1 ← uECC_shared_secret None 0 pub4 pri3 (some_bytes 1) small_curve;
        r2 ← uECC_shared_secret None 0 pub3 pri4 (some_bytes 1) small_curve; Ok (r1, r2))
    (λ '((ok1, r1, _), (ok2, r2, _)), ok1 = 1%Z ∧ ok2 = 1%Z ∧ ∃ x, holds_bytes 1 r1 x ∧ holds_bytes 1 r2 x).
Proof.
  eapply post_mono.
  - apply (uECC_shared_secret_agrees small_curve 11 small_G small_G_affine small_G_usable None None 0 0
      pub3 pri3 3 pub4 pri4 4 (some_bytes 1) (some_bytes 1));
      [done|done|exact small_pair3|exact small_pair4|by vm_compute; lia|by vm_compute; lia].
  - intros [[[ok1 r1] t1] [[ok2 r2] t2]] (H & H1 & H2).
    assert (ok1 = 1%Z) as -> by (apply H1; [done|]; split; [by vm_compute|done]).
    assert (ok2 = 1%Z) as -> by (apply H2; [done|]; split; [by vm_compute|done]).
    split_and!; [done|done|by apply H].
Defined.

Lemma uECC_valid_public_key_decides_witness :
  uECC_valid_public_key pub3 small_curve = Ok 1%Z ∧
  uECC_valid_public_key [Some 2; Some 5]%Z small_curve = Ok 0%Z.
Proof.
  split.
  - rewrite (uECC_valid_public_key_decides small_curve (P := 7) (a := -3) (b := 6) pub3 2 6); [by vm_compute|by apply one_byte|by apply one_byte].
  - rewrite (uECC_valid_public_key_decides small_curve (P := 7) (a := -3) (b := 6) _ 2 5); [by vm_compute|by apply one_byte|by apply one_byte].
Defined.

(** The signature of the hash 5 with the nonce 6 and the private key 3. *)
Definition six_rng : uECC_RNG_Function := λ _ size, Some (replicate size 6%Z).
Lemma six_rng_some g : Some six_rng = Some g → RngOk g.
Proof. intros [= <-] t size bs [= <-]. split; [by rewrite length_replicate|]. by apply Forall_replicate. Qed.

Lemma small_neq (A B : Zmod 11) : Zmod.to_Z A ≠ Zmod.to_Z B → A ≠ B.
Proof. by intros H ->. Qed.

Lemma small_shamir : shamir_regular (P := 7) 11 small_G 5 4 3 (emul 3 small_G).
Proof.
  split_and!; [by apply small_neq; vm_compute|by apply Zmod.unsigned_inj; vm_compute|by apply small_neq; vm_compute|by apply small_neq; vm_compute|].
  intros i Hi. assert (i = 0 ∨ i = 1)%Z as [->| ->] by lia; [|done]. intros _.
  split; by apply small_neq; vm_compute.
Qed.

Lemma uECC_sign_verify_witness :
  uECC_verify pub3 [Some 80]%Z 1 [Some 4; Some 1]%Z small_curve = Ok 1%Z.
Proof.
  pose proof (one_byte 4 [Some 1%Z] ltac:(done)) as H4. pose proof (one_byte 1 [] ltac:(done)) as H1.
  assert (4 < 11 ∧ 1 ≠ 0)%Z as [H411 H10] by done.
  pose proof (uECC_sign_verify small_curve 11 small_G small_G_affine small_G_usable (Some six_rng) 0 pri3 pub3 [Some 80]%Z 1 (some_bytes 2) 3 80
    six_rng_some small_pair3 (one_byte 80 [] ltac:(done)) ltac:(vm_compute; lia)) as H.
  assert (uECC_sign (Some six_rng) 0 pri3 [Some 80]%Z 1 (some_bytes 2) small_curve = Ok (1%Z, [Some 4; Some 1]%Z, 2)) as Hs by by vm_compute.
  rewrite Hs in H. clear Hs. destruct H as [_ [H0|(_ & r & s & [Hr Hsb] & H)]]; [discriminate H0|].
  change (num_bytes small_curve) with 1 in Hr, Hsb. change (drop 1 [Some 4; Some 1]%Z) with [Some 1%Z] in Hsb.
  pose proof (holds_bytes_inj _ _ _ _ Hr H4) as ->. pose proof (holds_bytes_inj _ _ _ _ Hsb H1) as ->.
  exact (H H411 H10 small_shamir).
Defined.

(** ** Deterministic signatures *)

(** C25. Initialising, updating with any messages and finishing compute the keyed hash of RFC 2104 over the key at the start of the
    buffer, store it where the value lies and keep the key. *)
Theorem HMAC_rfc2104 {H : Type} (ctx : uECC_HashContext H) (hash : list Z → list Z) `{!HashContext ctx hash}
    h tmp K V messages :
  layout ctx tmp K V →
  post (s ← HMAC_init ctx (h, tmp) 0; HMAC_finish ctx (foldl (HMAC_update ctx) s messages) 0 (result_size ctx))
    (λ '(_, tmp'), layout ctx tmp' K (hmac (block_size ctx) hash K (concat messages))).
Proof.
  intros HL. eapply post_bind; [by eapply HMAC_init_spec|]. intros [h1 tmp1] [Hh1 HL1].
  destruct (foldl_update ctx hash messages (h1, tmp1) _ Hh1) as [Ha Hs].
  destruct (foldl (HMAC_update ctx) (h1, tmp1) messages) as [h2 tmp2]. cbn [fst snd] in Ha, Hs. subst tmp2.
  eapply post_mono; [eapply HMAC_finish_spec; [exact HL1|by right|exact Ha]|].
  intros [h3 tmp3] [[H0 _]|[_ ?]]; [|done]. pose proof (hash_sizes (hash_context := ctx) (hash := hash)). lia.
Qed.

Lemma HMAC_rfc2104_witness :
  post (s ← HMAC_init sum_context ([], some_bytes 4) 0;
        HMAC_finish sum_context (foldl (HMAC_update sum_context) s [[1; 2]; [3]]%Z) 0 1)
    (λ '(_, tmp'), layout sum_context tmp' [0%Z] (hmac 2 sum_hash [0%Z] [1; 2; 3]%Z)).
Proof.
  apply (HMAC_rfc2104 sum_context sum_hash [] (some_bytes 4) [0%Z] [0%Z] [[1; 2]; [3]]%Z).
  split_and!; [simpl; lia|done|done|..]; intros [|i] x Hx; by [injection Hx as <-|destruct i].
Defined.

(** C15. A deterministic signature is made with one of the first 64 nonces of the stream that the private key and the hash of the message
    seed, and satisfies the equation of ECDSA for it. *)
Theorem uECC_sign_deterministic_correct (c : uECC_Curve) {E : Type} {P a b : Z} (N : Z)
    `{!CurveOps c P a b} `{!EcGroup E P a b} `{!CurveOrder c N} `{!CurveBytes c P} `{!CurveWidth c P N}
    (G : E) (HG : affine c (P := P) (curve_G c) G) (HGu : usable (P := P) N G)
    {H : Type} (ctx : uECC_HashContext H) (hash : list Z → list Z) `{!HashContext ctx hash}
    rng t private_key key message_hash message h tmp signature d e :
  (∀ g, rng = Some g → RngOk g) →
  holds_bytes (num_n_bytes c) private_key d → (0 ≤ d < N)%Z →
  holds_bytes (Nat.min (length message) (num_n_bytes c)) message_hash e →
  bytes_at 0 key private_key → length key = num_bytes c → bytes_at 0 message message_hash →
  2 * result_size ctx + block_size ctx ≤ length tmp → num_bytes c + num_bytes c ≤ length signature →
  post (uECC_sign_deterministic ctx rng t private_key message_hash (length message) h tmp signature c) (λ '(ok, sig, _),
    length sig = length signature ∧
    (ok = 0%Z ∨ ok = 1%Z ∧ ∃ j r v, j < uECC_RNG_MAX_TRIES ∧
      signed (P := P) N G d (hash_int c N (length message) e)
        (drbg_nonce (block_size ctx) (result_size ctx) hash (num_n_words c * 8) (num_n_bits c)
          (drbg_seed (block_size ctx) (result_size ctx) hash (key ++ message)) j) r v ∧
      signature_bytes c sig r v)).
Proof. intros. by apply (uECC_sign_deterministic_spec c N G HG HGu ctx hash). Qed.

Lemma uECC_sign_deterministic_correct_witness :
  post (uECC_sign_deterministic sum_context None 0 pri3 [Some 80]%Z 1 [] (some_bytes 4) (some_bytes 2) small_curve) (λ '(ok, sig, _),
    length sig = length (some_bytes 2) ∧
    (ok = 0%Z ∨ ok = 1%Z ∧ ∃ j r v, j < uECC_RNG_MAX_TRIES ∧
      signed (P := 7) 11 small_G 3 (hash_int small_curve 11 1 80) (drbg_nonce 2 1 sum_hash 8 4 (drbg_seed 2 1 sum_hash [3; 80]%Z) j) r v ∧
      signature_bytes small_curve sig r v)).
Proof.
  apply (uECC_sign_deterministic_correct small_curve 11 small_G small_G_affine small_G_usable sum_context sum_hash
    None 0 pri3 [3%Z] [Some 80]%Z [80%Z] [] (some_bytes 4) (some_bytes 2) 3 80).
  - done.
  - by apply one_byte.
  - done.
  - by apply one_byte.
  - intros [|i] x Hx; by [injection Hx as <-|destruct i].
  - done.
  - intros [|i] x Hx; by [injection Hx as <-|destruct i].
  - simpl. lia.
  - simpl. lia.
Defined.

(** ** The demos *)

(** C36. Once both key pairs of the key exchange demo are made, the run ends without a fault; unless a failure of a secret is logged, both
    parties hold the same secret and the demo reports that the keys agree. *)
Theorem ecdh_run_correct (c : uECC_Curve) {E : Type} {P a b : Z} (N : Z)
    `{!CurveOps c P a b} `{!EcGroup E P a b} `{!CurveOrder c N} `{!CurveBytes c P}
    (G : E) (HG : affine c (P := P) (curve_G c) G) (HGu : usable (P := P) N G)
    rng t pub1 pri1 t1 pub2 pri2 t2 :
  (∀ g, rng = Some g → RngOk g) → num_bytes c ≤ ECC_KEY_LEN → num_n_bytes c ≤ ECC_KEY_LEN →
  uECC_make_key rng t (pub_key zero_key) (pri_key zero_key) c = Ok (1%Z, pub1, pri1, t1) →
  uECC_make_key rng t1 (pub_key zero_key) (pri_key zero_key) c = Ok (1%Z, pub2, pri2, t2) →
  post (ecdh_run c rng t) (exchanged pub1 pri1 pub2 pri2).
Proof. intros. by eapply (ecdh_run_spec c N G). Qed.

(** The bytes [x] and zeros. *)
Definition padded (k : nat) (bytes : list Z) : array Z := (Some <$> bytes) ++ some_bytes (k - length bytes).

Lemma ecdh_run_correct_witness :
  post (ecdh_run small_curve (Some three_rng) 0)
    (exchanged (padded 48 [2; 6]%Z) (padded 24 [3]%Z) (padded 48 [2; 6]%Z) (padded 24 [3]%Z)).
Proof.
  apply (ecdh_run_correct small_curve 11 small_G small_G_affine small_G_usable (Some three_rng) 0
    _ _ 1 _ _ 2 three_rng_some); [by vm_compute; lia|by vm_compute; lia|by vm_compute|by vm_compute].
Defined.

(** C37. The encryption demo aborts or prints the ciphertext of its text and, after decryption, the text itself, with as many live
    contexts of the library as before; no read or write leaves a buffer. *)
Theorem encrypt_evp_aes_demo_correct {C L : Type} (evp : EVP C L) (live : L → nat) (enc dec : list Z → list Z → list Z → list Z)
    `{!CipherLibrary evp live enc dec} lib :
  returns (encrypt_evp_aes_demo evp lib)
    (λ '(out, lib'), out = [Ciphertext (enc demo_key demo_iv demo_plaintext); Decrypted demo_plaintext] ∧ live lib' = live lib).
Proof. exact (demo_spec evp live enc dec lib). Qed.

Lemma encrypt_evp_aes_demo_correct_witness :
  encrypt_evp_aes_demo plain_evp 0 = Ok ([Ciphertext (plain_enc demo_key demo_iv demo_plaintext); Decrypted demo_plaintext], 0).
Proof.
  pose proof (encrypt_evp_aes_demo_correct plain_evp id plain_enc plain_dec 0) as H.
  destruct (encrypt_evp_aes_demo plain_evp 0) as [[out l]|f] eqn:Hrun; [destruct H as [-> H]; cbn in H; by rewrite H|by vm_compute in Hrun].
Defined.
